(* ===== verification/_CoqProject ===== *)
-Q . S2P
Prelude.v
Cv.v
CvGrid.v
StdLib.v
Tolerance.v
Perf.v
PerfForest.v
State.v
Timed.v
Report.v
Grouping.v
ExampleOs.v
Cmdline.v
CmdlineSpec.v
MappedFiles.v
Histogram.v
Segments.v
Matcher.v
Diff.v
Main.v
Tasks.v
TbbCode.v
TbbRules.v
TbbLoad.v
TbbDetect.v
Parallel.v
ParallelImages.v
TbbPairs.v
TbbDiff.v
TbbMain.v
