(* ===== verification/Prelude.v ===== *)
(** gazosan, an image difference tool, verified.

    {b The program.}  [gazosan -new a.png -old b.png -o out] (src/main.cc) reads its
    options (src/cmdline.cc), maps and decodes both images ([load_image], src/image.cc,
    over [MappedFile], src/gazosan.h), refuses equal histograms
    ([check_histogram_differential]), splits both images into parts ([split_segments]:
    gradient, contours, watershed, then a flood fill), computes a descriptor for each part
    ([detect_segments]), compares old with new parts ([descriptor_match]), and writes the
    parts that match, their differing pixels in red, and on request the deleted and added
    parts ([create_diff_image]).  Timers run through all of it and print a report
    (src/perf.cc).

    {b How it is modelled.}  A shallow embedding.  Pure code that can fail lives in [exc]
    ([Prelude]), a sum with [Stop]: an exit with a status, an uncaught exception,
    undefined behaviour (an access outside an object), or a model loop out of fuel.  Code
    on the process state lives in the state monad [M] of [State], whose state is the
    [Context] of gazosan.h and a [World]: errno, descriptors, mappings, files written, the
    two output streams, and the count of clock readings.  A C++ scope with a [Timer] is
    [with_timer], which stops the timer on a return and leaves it on an exit.  Integers
    are [Z] with the width of the C++ type written out ([StdLib.MachInt]).

    {b What is a parameter.}  OpenCV is the class [Cv.OpenCV], one field for each entry
    point image.cc calls; what the code relies on is stated by law classes ([MatLaws],
    [RectLaws], [ShapeLaws], [DiffLaws], [ThrowLaws] in Cv; [LoadLaws] in Main, [HistLaws]
    in Histogram, [ContourLaws] in Segments, [MatchLaws] in Matcher, [FrameLaws] in
    ParallelImages), each a documented fact about one call, under the preconditions its
    documentation states, and each satisfied by the concrete [GridCv] of CvGrid, on which
    the witnesses run.  A call is a function of its arguments; FLANN's search, which is
    randomised, is one such function too, fixed but arbitrary.  [imwrite] may throw or
    answer that it wrote nothing: [saved] keeps the images it says it wrote, an answer the
    program ignores.  The operating system is the class [State.OS]; [ExampleOs] is a
    concrete one. [std::sort] is the class [StdSort] with its laws.

    {b The files.}
    - [Prelude]: the error monad, loops, list lemmas, tactics, the hint database [gz].
    - [Cv], [CvGrid]: OpenCV's interface, its laws, a concrete instance.
    - [StdLib]: machine integers, [std::stoi], [std::to_string], [std::sort], [printf].
    - [Tolerance]: the comparison of doubles that ends [check_histogram_differential].
    - [Perf], [PerfForest]: perf.cc; the records form a forest, the report prints each
      once.
    - [State]: [Context], [World], the monad, [SyncOut], [Fatal], [errno_string] and
      [Timer]; equality of states up to timers and clock ([≈]).
    - [Timed]: how code between timers is reasoned about: [TimedFrom] (it only steps the
      timers), [ReadsAt] and [EndsAt] (timers apart, it is a pure function), [Safe] and
      [safe_unless] (no access outside an object, or only for a named cause);
      their instances follow the code by [timed], [reads], [ends] and [safe].
    - [Report]: the text the report adds to the standard output.
    - [Grouping]: the flood fill of [split_segments] and the scan around it.
    - [Cmdline], [CmdlineSpec]: [parse_args], and the table of options it implements.
    - [MappedFiles]: [MappedFile], [decode_from_mapped_file], [load_image].
    - [Histogram]: [check_histogram_differential].
    - [Segments]: the rest of [split_segments], [detect_segments], [save_segments].
    - [Matcher]: [descriptor_match].
    - [Diff]: [create_diff_image] as the default build compiles it.
    - [Main]: [main] and the destructors.
    - [Tasks]: fork/join tasks over a shared state, their runs under a schedule, and a
      rely-guarantee logic for all schedules ([rg], [ends_in]), proved sound.
    - [TbbCode]: the program as the TBB build compiles it, as such tasks; [TbbRules]: the
      logic's rules for accesses to the context and for blocks with a timer.
    - [TbbLoad], [TbbDetect]: the tasks of [load_image] and [detect_segments].
    - [Parallel], [ParallelImages]: the loops of [create_diff_image] in the TBB build as an
      abstract machine, its invariant, and the images of its runs.
    - [TbbPairs]: the tasks of these loops refine the machine; [TbbDiff]: the whole of
      [create_diff_image] in the TBB build; [TbbMain]: [main] there.

    {b What the theorems show.}
    - Whole program (Main): on every command line and file system it ends by a return, an
      exit with status 0 or 1, or an exception, but for two inputs on which the source has
      undefined behaviour: an empty argument where an option is expected, and a new image
      with a part that is greater than the old image.  It releases its files; it asks
      [imwrite] for all of its images or for none, and for which; equal images are refused;
      what it prints.
    - Segmentation (Grouping, Segments): the rectangles are the bounding boxes of the
      8-connected components of two cells or more; they lie inside the image; labelling
      ends; detection refines a pure function of the two images.
    - Comparison (Matcher, Histogram): the median test is a majority test that no sort
      can change; the cross check is the set of mutual matches; which distances, as doubles,
      count as equal images.
    - Drawing (Diff): when images are asked for, which pixels are marked, no access outside
      an image when the parts are not greater than the old image, and one or an exception
      when such a part is drawn; the lost marks.
    - TBB build (TbbLoad, TbbDetect, TbbPairs, TbbDiff, TbbMain): for every schedule of
      the tasks.  The program ends, never stuck, with the same two exceptions, and releases
      its files; loading and detecting give what the default build gives; a new segment is
      marked exactly when it has a match; every complete run asks for [_diff.png], and its
      pixels and those of [_add.png] do not depend on the schedule; the marks on the old
      segments, and so [_delete.png], do (ParallelImages), and in a run of TbbDetect so does
      the attribution of "split segments" in the report.
    - Command line (CmdlineSpec): a refinement of the table of options; what a successful
      parse establishes; the messages of errors; round trip of numbers.
    - Files (MappedFiles): when loading succeeds and what it leaves; errors; time stamps.
    - Timers (PerfForest): the forest, the linking, the report.

    {b Fuel.}  [bfs_loop] and the scan have one unit per cell and one more, and each
    visit erases a cell; [draw_labels] has one per row of the hierarchy and one more, and
    the links never meet a contour twice; [print_rec] has one per record, and the depth is
    that of a forest; [parse_loop] has one per argument.  Each is shown sufficient: no
    theorem about a result assumes that the fuel was enough.

    {b The TBB build.}  A [tbb::task_group] and a [tbb::parallel_for_each] are a [Fork]; a
    step is one access to an object that another task can reach: a timer, a field of the
    context, an element of the segments, a shared image.  Code on local objects is part of
    the access before it.  Coarser than the machine are a [Timer]'s construction and stop,
    [MappedFile::must_open], a call into OpenCV and the test of a pair, one access each;
    drawing a pair is an access for its frame and one for each pixel.  The accesses to
    [matched] and to the pixels of [result] are not synchronised in the source: C++ leaves
    such races undefined, the model makes each access atomic and leaves their order free.
    A stop in a task ends the program; TBB lets the group's running tasks finish before an
    exception leaves it.  The limit on threads ([tbb::global_control]) only removes
    schedules, so what holds of all holds with it.  No fuel: that all schedules are finite
    is a theorem ([Tasks.successor_wf]).

    {b Not modelled.}  OpenCV and the vendored oneTBB (third party), among them the use of
    one AKAZE object by several tasks.  [MappedFile::get_contents], called nowhere.
    [cv::Mat] is a value: gazosan only writes to matrices it has just created, or, in the
    TBB build, to the three images above, which are shared objects of the model.
    Allocation failure is not modelled.  Clock readings are unbounded integers:
    [PerfForest.clock_no_overflow] shows that the code's [i64] holds them for clocks below
    2^33 seconds.  A result of OpenCV that depends on more than its arguments, as FLANN's
    randomised search may, is not modelled. *)

From stdpp Require Export base tactics list gmap relations strings pretty.
From Stdlib Require Export Sorted QArith ZArith Lia.
#[global] Set Default Goal Selector "!".

Declare Scope gazosan_scope.
Delimit Scope gazosan_scope with gz.
#[global] Open Scope Z_scope.

(** ** How an execution may stop early

    [Exited] is [exit]/[_exit]; [Uncaught] an exception that leaves [main];
    [UndefinedBehaviour] an access outside an object; [OutOfFuel] the fuel of a
    model loop running out, which the termination theorems exclude. *)
Inductive Stop :=
  | Exited (code : Z)
  | Uncaught (what : string)
  | UndefinedBehaviour
  | OutOfFuel.

#[export] Instance Stop_eq_dec : EqDecision Stop.
Proof. solve_decision. Defined.

(** The ends this program may have: an exit status of 0 or 1, or an exception. *)
Definition tame (e : Stop) : Prop :=
  match e with
  | Exited code => (code =? 0) || (code =? 1) = true
  | Uncaught _ => True
  | UndefinedBehaviour | OutOfFuel => False
  end.

(** Pure computations that may stop: the error monad of the components that
    keep no process state. *)
Definition exc (A : Type) : Type := (Stop + A)%type.

#[export] Instance exc_ret : MRet exc := fun A a => inr a.
#[export] Instance exc_bind : MBind exc :=
  fun A B f m => match m with inl e => inl e | inr a => f a end.

#[export] Instance exc_eq_dec {A} `{EqDecision A} : EqDecision (exc A).
Proof. unfold exc. solve_decision. Defined.

(** A read or write through a reference that may lie outside its object. *)
Definition deref {A} (o : option A) : exc A :=
  match o with Some a => inr a | None => inl UndefinedBehaviour end.

(** [for (const auto& x : l) body], threading the loop's state. *)
Fixpoint for_each {A S} (l : list A) (body : A -> S -> exc S) (s : S) : exc S :=
  match l with
  | [] => mret s
  | x :: l' => s' ← body x s; for_each l' body s'
  end.

(** [v[i]] with an [int] index; [None] is an access out of range. *)
Definition index_Z {A} (l : list A) (i : Z) : option A :=
  if decide (0 <= i) then l !! Z.to_nat i else None.

Lemma index_Z_Some {A} (l : list A) i x :
  index_Z l i = Some x <-> 0 <= i /\ l !! Z.to_nat i = Some x.
Proof. unfold index_Z. case_decide; naive_solver. Qed.

(** ** Automation *)

(** Decompose [m ≫= f = inr x] hypotheses. *)
Lemma exc_bind_inr {A B} (m : exc A) (f : A -> exc B) b :
  m ≫= f = inr b <-> exists a, m = inr a /\ f a = inr b.
Proof.
  destruct m as [e|a]; cbn; split; try done; [intros (? & ? & ?); done|eauto|].
  by intros (? & [= ->] & ?).
Qed.

Lemma deref_inr {A} (o : option A) a : deref o = inr a <-> o = Some a.
Proof. destruct o; cbn; split; congruence. Qed.

Ltac exc_step :=
  match goal with
  | H : _ ≫= _ = inr _ |- _ => apply exc_bind_inr in H as (? & ? & ?)
  | H : deref _ = inr _ |- _ => apply deref_inr in H
  | H : mret _ = inr _ |- _ => injection H as <-
  | H : inr _ = inr _ |- _ => injection H as <-
  | H : inl _ = inr _ |- _ => discriminate H
  end.
Ltac exc_inv := repeat exc_step.

(** Split every boolean test of the goal or the hypotheses into its Prop. *)
Ltac zbool :=
  repeat match goal with
  | |- context [Z.ltb ?a ?b] => destruct (Z.ltb_spec a b)
  | |- context [Z.leb ?a ?b] => destruct (Z.leb_spec a b)
  | |- context [Z.eqb ?a ?b] => destruct (Z.eqb_spec a b)
  end; cbn [andb orb negb] in *.

Create HintDb gz discriminated.
#[export] Hint Resolve rtc_refl rtc_once : gz.

#[global] Arguments seqZ : simpl never.

Lemma mapM_exc_nil {A B} (f : A -> exc B) : mapM f [] = mret [].
Proof. done. Qed.

Lemma mapM_exc_cons {A B} (f : A -> exc B) x l :
  mapM f (x :: l) = (y ← f x; k ← mapM f l; mret (y :: k)).
Proof. done. Qed.

(** A mapping that succeeds maps element by element. *)
Lemma mapM_exc_inr {A B} (f : A -> exc B) l k :
  mapM f l = inr k <-> Forall2 (fun x y => f x = inr y) l k.
Proof.
  revert k. induction l as [|x l IH]; intros k.
  - rewrite mapM_exc_nil. split; [by intros [= <-]|by inversion 1].
  - rewrite mapM_exc_cons. split.
    + intros (y & Hy & (k' & Hk & [= <-])%exc_bind_inr)%exc_bind_inr.
      constructor; [done|by apply IH].
    + inversion 1 as [|? y ? k' Hy Hk]; subst. rewrite Hy; cbn.
      apply IH in Hk. by rewrite Hk.
Qed.

(** ** Lists *)

Lemma list_alter_fmap_same {A B} (f : A -> A) (g : A -> B) i (l : list A) :
  (forall x, g (f x) = g x) -> g <$> alter f i l = g <$> l.
Proof.
  intros H. apply list_eq. intros k. rewrite !list_lookup_fmap, list_lookup_alter.
  destruct (decide (i = k)) as [<-|]; [|done]. destruct (l !! i); cbn; [by rewrite H|done].
Qed.

(** ** Strings *)

Lemma append_assoc (s t u : string) : (s +:+ t) +:+ u = s +:+ (t +:+ u).
Proof. induction s as [|c s IH]; [done|]. exact (f_equal (String c) IH). Qed.

Lemma append_length (s t : string) :
  String.length (s +:+ t) = (String.length s + String.length t)%nat.
Proof. induction s as [|c s IH]; [done|]. exact (f_equal S IH). Qed.

Lemma append_inj_r (s s' t : string) : s +:+ t = s' +:+ t -> s = s'.
Proof.
  revert s'. induction s as [|c s IH]; intros [|c' s'] E; [done| | |].
  - apply (f_equal String.length) in E.
    change (String.length t = S (String.length (s' +:+ t))) in E. rewrite append_length in E. lia.
  - apply (f_equal String.length) in E.
    change (S (String.length (s +:+ t)) = String.length t) in E. rewrite append_length in E. lia.
  - change (String c (s +:+ t) = String c' (s' +:+ t)) in E. injection E as -> E.
    f_equal. by apply IH.
Qed.

(** ** Loops *)

Lemma for_each_app {A S} (l k : list A) (body : A -> S -> exc S) s :
  for_each (l ++ k) body s = (s' ← for_each l body s; for_each k body s').
Proof.
  revert s. induction l as [|x l IH]; intros s; cbn; [done|].
  destruct (body x s) as [e|s']; cbn; [done|]. apply IH.
Qed.

(** The rule for a loop that never stops early: an invariant over the prefix
    already iterated. *)
Lemma for_each_inv {A S} (P : list A -> S -> Prop) (l : list A) body s :
  P [] s ->
  (forall done_ x rest s, l = done_ ++ x :: rest -> P done_ s ->
     exists s', body x s = inr s' /\ P (done_ ++ [x]) s') ->
  exists s', for_each l body s = inr s' /\ P l s'.
Proof.
  intros H0 Hstep.
  enough (forall k pre s, l = pre ++ k -> P pre s ->
            exists s', for_each k body s = inr s' /\ P l s') as Hk
    by (by apply (Hk l [] s)).
  induction k as [|x k IH]; intros pre s1 -> Hpre; cbn.
  - rewrite app_nil_r in *. eauto.
  - destruct (Hstep pre x k s1 eq_refl Hpre) as (s2 & -> & H2). cbn.
    apply (IH (pre ++ [x])); [by rewrite <- app_assoc|done].
Qed.

(** The rule for a loop known to end. *)
Lemma for_each_inr {A S} (P : list A -> S -> Prop) (l : list A) body s s' :
  P [] s ->
  (forall done_ x s1 s2, x ∈ l -> P done_ s1 -> body x s1 = inr s2 -> P (done_ ++ [x]) s2) ->
  for_each l body s = inr s' -> P l s'.
Proof.
  intros H0 Hstep.
  enough (forall k pre s, l = pre ++ k -> P pre s -> for_each k body s = inr s' -> P l s') as Hk
    by (by apply (Hk l [] s)).
  induction k as [|x k IH]; intros pre s1 -> Hpre; cbn.
  - rewrite app_nil_r. by intros [= <-].
  - intros (s2 & E & E')%exc_bind_inr. apply (IH (pre ++ [x]) s2); [by rewrite <- app_assoc| |done].
    apply (Hstep pre x s1); [|done..]. apply elem_of_app. right. by left.
Qed.

(** A loop stops where its body stops. *)
Lemma for_each_inl {A S} (l : list A) (body : A -> S -> exc S) s e :
  for_each l body s = inl e -> exists x s1, body x s1 = inl e.
Proof.
  revert s. induction l as [|x l IH]; intros s; cbn; [done|].
  destruct (body x s) as [e'|s1] eqn:E; cbn; [intros [= ->]; by exists x, s|apply IH].
Qed.

(** Nested loops over [x] in [l] and [y] in [g x] are one loop over the pairs. *)
Lemma for_each_nested {A B S} (l : list A) (g : A -> list B)
    (body : A -> B -> S -> exc S) s :
  for_each l (fun x => for_each (g x) (body x)) s =
  for_each (l ≫= (fun x => pair x <$> g x)) (fun p => body p.1 p.2) s.
Proof.
  revert s. induction l as [|x l IH]; intros s; cbn; [done|].
  rewrite for_each_app.
  assert (forall k s, for_each k (body x) s =
            for_each (pair x <$> k) (fun p => body p.1 p.2) s) as ->.
  { induction k as [|y k IHk]; intros s1; cbn; [done|].
    destruct (body x y s1); cbn; [done|apply IHk]. }
  destruct (for_each _ _ _) as [e|s']; cbn; [done|apply IH].
Qed.

(** [for (auto x : l) body] whose body may [return] from the enclosing function:
    [None] is that return. *)
Fixpoint for_each_ret {A S} (l : list A) (body : A -> S -> exc (option S)) (s : S) :
    exc (option S) :=
  match l with
  | [] => mret (Some s)
  | x :: l =>
      o ← body x s;
      match o with
      | Some s' => for_each_ret l body s'
      | None => mret None
      end
  end.

(** ** Sorted lists *)

Lemma sorted_app {A} (R : relation A) (l k : list A) :
  StronglySorted R l -> StronglySorted R k ->
  (forall x y, x ∈ l -> y ∈ k -> R x y) -> StronglySorted R (l ++ k).
Proof.
  induction 1 as [|x l ? IH Hx]; intros Hk HR; cbn; [done|].
  constructor; [apply IH; [done|]; intros; apply HR; [by right|done]|].
  apply Forall_app. split; [done|]. apply Forall_forall.
  intros y Hy. apply HR; [by left|done].
Qed.

Lemma sorted_impl {A} (R R' : relation A) (l : list A) :
  (forall x y, R x y -> R' x y) -> StronglySorted R l -> StronglySorted R' l.
Proof.
  intros HR. induction 1 as [|x l ? IH Hx]; constructor; [done|].
  eapply Forall_impl; [exact Hx|]. apply HR.
Qed.

Lemma sorted_seqZ m n : StronglySorted Z.lt (seqZ m n).
Proof.
  destruct (decide (0 <= n)) as [Hn|Hn]; [|rewrite seqZ_nil by lia; constructor].
  revert m. pattern n. apply natlike_ind; [|clear n Hn; intros n Hn IH m|done].
  - intros m. rewrite seqZ_nil by lia. constructor.
  - rewrite seqZ_cons by lia. replace (Z.pred (Z.succ n)) with n by lia.
    constructor; [apply IH|]. apply Forall_seqZ. lia.
Qed.

Lemma sorted_fmap {A B} (R : relation A) (R' : relation B) (f : A -> B) (l : list A) :
  (forall x y, R x y -> R' (f x) (f y)) -> StronglySorted R l -> StronglySorted R' (f <$> l).
Proof.
  intros HR. induction 1 as [|x l ? IH Hx]; cbn; constructor; [done|].
  apply Forall_fmap. eapply Forall_impl; [exact Hx|]. apply HR.
Qed.

(** The index pairs of two nested loops from 0. *)
Lemma elem_of_pairs m n (y x : Z) :
  (y, x) ∈ (seqZ 0 m ≫= fun y => pair y <$> seqZ 0 n) <-> 0 <= y < m /\ 0 <= x < n.
Proof.
  rewrite list_elem_of_bind. split.
  - intros (y' & (x' & [= -> ->] & Hx)%list_elem_of_fmap & Hy).
    apply elem_of_seqZ in Hx, Hy. lia.
  - intros [? ?]. exists y. split; [|apply elem_of_seqZ; lia].
    apply list_elem_of_fmap. exists x. split; [done|apply elem_of_seqZ; lia].
Qed.

(** The pairs of two nested increasing loops come in lexicographic order. *)
Lemma sorted_pairs (R : relation (Z * Z)) m n m' n' :
  (forall y y' x x', y < y' -> R (y, x) (y', x')) ->
  (forall y x x', x < x' -> R (y, x) (y, x')) ->
  StronglySorted R (seqZ m n ≫= fun y => pair y <$> seqZ m' n').
Proof.
  intros Hy Hx. induction (sorted_seqZ m n) as [|y l ? IH Hl]; cbn; [constructor|].
  apply sorted_app; [|exact IH|].
  - eapply sorted_fmap; [|apply sorted_seqZ]. intros x x'. apply Hx.
  - intros [? x] [y' x'] (? & [= -> ->] & _)%list_elem_of_fmap H2.
    apply list_elem_of_bind in H2 as (? & (? & [= -> ->] & _)%list_elem_of_fmap & Hin).
    apply Hy. rewrite Forall_forall in Hl. by apply Hl.
Qed.

Lemma sorted_split {A} (R : relation A) (l k : list A) x y :
  StronglySorted R (l ++ x :: k) -> y ∈ k -> R x y.
Proof.
  induction l as [|z l IH]; cbn; inversion 1 as [|? ? ? Hf]; subst; [|eauto].
  rewrite Forall_forall in Hf. auto.
Qed.

(** When a test, once false, stays false along a list, the elements that pass it are
    a prefix. *)
Lemma prefix_count {A} (P : A -> bool) (l : list A) i :
  StronglySorted (fun x y => P y = true -> P x = true) l -> (i < length l)%nat ->
  (exists m, l !! i = Some m /\ P m = true) <->
  (i < length (filter (fun m => P m = true) l))%nat.
Proof.
  intros Hs. revert i. induction Hs as [|x l Hs IH Hx]; intros i Hi; cbn in Hi; [lia|].
  rewrite filter_cons. case_decide as HP.
  - destruct i as [|i]; cbn; [split; [lia|by exists x]|].
    rewrite (IH i) by lia. lia.
  - assert (filter (fun m => P m = true) l = []) as ->.
    { clear - Hx HP. induction Hx as [|y l Hy _ IH]; [done|].
      rewrite filter_cons, decide_False by auto. exact IH. }
    cbn. split; [|lia]. intros (m & Hm & HPm). destruct i as [|i]; [by injection Hm as ->|].
    exfalso. apply HP. rewrite Forall_forall in Hx. apply (Hx m); [|done].
    apply list_elem_of_lookup. by exists i.
Qed.
