(* ===== verification/Cv.v ===== *)
(** The interface to OpenCV that gazosan calls.

    OpenCV is not part of the repository: its types and functions are the
    fields of the class [OpenCV], one field per entry point that image.cc uses,
    with the arguments image.cc passes.  A function that validates its input
    with [CV_Assert] may throw, so it returns in [exc].  What the code relies on
    is stated by the law classes at the end ([MatLaws], [RectLaws]), which
    restate documented behaviour of [cv::Mat] and [cv::Rect]. *)

From S2P Require Import Prelude.
From Stdlib Require Import SpecFloat.

(** ** Plain data of the OpenCV API *)

Record Point := mkPoint { px : Z; py : Z }.
Record Rect := mkRect { rx : Z; ry : Z; width : Z; height : Z }.
Record Vec3b := mkVec3b { v0 : Z; v1 : Z; v2 : Z }.
Record Scalar := CV_RGB { red : Z; green : Z; blue : Z }.

(** [cv::DMatch]: the fields image.cc reads.  The distance is a finite
    [float], hence a rational; [Q] comparison is comparison of the floats. *)
Record DMatch := mkDMatch { queryIdx : Z; trainIdx : Z; distance : Q }.

#[export] Instance Point_eq_dec : EqDecision Point.
Proof. solve_decision. Defined.
#[export] Instance Rect_eq_dec : EqDecision Rect.
Proof. solve_decision. Defined.
#[export] Instance Vec3b_eq_dec : EqDecision Vec3b.
Proof. solve_decision. Defined.
#[export] Instance Scalar_eq_dec : EqDecision Scalar.
Proof. solve_decision. Defined.

(** Element types of the matrices gazosan handles. *)
Inductive MatType := CV_8UC1 | CV_8UC3 | CV_32SC1 | CV_32FC1.

#[export] Instance MatType_eq_dec : EqDecision MatType.
Proof. solve_decision. Defined.

Inductive ColorCode := COLOR_BGR2GRAY | COLOR_BGR2HSV.
Inductive ImreadFlag := IMREAD_UNCHANGED | IMREAD_COLOR.
Inductive CvFlag :=
  | THRESH_BINARY | MORPH_RECT | MORPH_GRADIENT | RETR_CCOMP
  | CHAIN_APPROX_SIMPLE | LINE_8 | NORM_MINMAX | TM_SQDIFF | FLANNBASED.

(** A row of the contour hierarchy: [next, previous, first_child, parent]. *)
Record Vec4i := mkVec4i { h_next : Z; h_prev : Z; h_child : Z; h_parent : Z }.

(** ** The entry points *)

Class OpenCV := {
  Mat : Type;
  (** [cv::Mat()] *)
  Mat_ctor : Mat;
  rows : Mat -> Z;
  cols : Mat -> Z;
  mtype : Mat -> MatType;
  (** [m.empty()] *)
  mat_empty : Mat -> bool;
  (** [m.at<int>(y, x)] read and written; [None] is an access outside the
      matrix or at another element type, undefined in a release build. *)
  at_int : Mat -> Z -> Z -> option Z;
  set_int : Mat -> Z -> Z -> Z -> option Mat;
  (** [m.at<cv::Vec3b>(y, x)] *)
  at_Vec3b : Mat -> Z -> Z -> option Vec3b;
  set_Vec3b : Mat -> Z -> Z -> Vec3b -> option Mat;
  (** [m(rect)] *)
  mat_roi : Mat -> Rect -> exc Mat;
  (** [cv::Mat::zeros(rows, cols, type)] and the expression [m + s] *)
  mat_zeros : Z -> Z -> MatType -> Mat;
  mat_add : Mat -> Z -> Mat;
  convertTo : Mat -> MatType -> exc Mat;
  (** [cv::Rect(pt1, pt2)] *)
  Rect_pts : Point -> Point -> Rect;
  (** [cv::imdecode(cv::Mat(1, cols, CV_8UC1, data), flags)]; [None] is a null
      data pointer, otherwise the bytes the mapping holds. *)
  imdecode : Z -> option (list Z) -> ImreadFlag -> exc Mat;
  (** [cv::imwrite(name, m)]: whether the file was written *)
  imwrite : string -> Mat -> exc bool;
  cvtColor : Mat -> ColorCode -> exc Mat;
  calcHist : Mat -> list Z -> list Z -> list (Z * Z) -> exc Mat;
  normalize : Mat -> Z -> Z -> CvFlag -> exc Mat;
  compareHist : Mat -> Mat -> Z -> exc spec_float;
  threshold : Mat -> Z -> Z -> CvFlag -> exc Mat;
  getStructuringElement : CvFlag -> Z * Z -> exc Mat;
  morphologyEx : Mat -> CvFlag -> Mat -> Point -> Z -> exc Mat;
  findContours : Mat -> CvFlag -> CvFlag -> exc (list (list Point) * list Vec4i);
  drawContours : Mat -> list (list Point) -> Z -> Z -> Z -> CvFlag -> list Vec4i -> Z -> exc Mat;
  watershed : Mat -> Mat -> exc Mat;
  KeyPoint : Type;
  (** [ctx.algorithm->detect] and [ctx.algorithm->compute] (AKAZE) *)
  akaze_detect : Mat -> exc (list KeyPoint);
  akaze_compute : Mat -> list KeyPoint -> exc Mat;
  (** [DescriptorMatcher::create(type)->match(query, train)] *)
  matcher_match : CvFlag -> Mat -> Mat -> exc (list DMatch);
  (** [cv::merge] of three planes *)
  merge3 : Mat -> Mat -> Mat -> exc Mat;
  matchTemplate : Mat -> Mat -> CvFlag -> exc Mat;
  (** the location of the minimum [cv::minMaxLoc] finds *)
  minMaxLoc : Mat -> exc Point;
  (** [cv::rectangle(m, rect, color, thickness)] *)
  rectangle : Mat -> Rect -> Scalar -> Z -> exc Mat
}.

(** ** Documented behaviour the code relies on *)

Definition in_bounds `{OpenCV} (m : Mat) (y x : Z) : Prop :=
  0 <= y < rows m /\ 0 <= x < cols m.

#[export] Instance in_bounds_dec `{OpenCV} m y x : Decision (in_bounds m y x).
Proof. unfold in_bounds. apply _. Defined.

(** Two matrices have the same header. *)
Definition same_shape `{OpenCV} (m m' : Mat) : Prop :=
  rows m' = rows m /\ cols m' = cols m /\ mtype m' = mtype m.

Class MatLaws (CV : OpenCV) : Prop := {
  at_int_bounds m y x :
    mtype m = CV_32SC1 -> is_Some (at_int m y x) <-> in_bounds m y x;
  set_int_bounds m y x v :
    mtype m = CV_32SC1 -> is_Some (set_int m y x v) <-> in_bounds m y x;
  set_int_spec m y x v m' :
    mtype m = CV_32SC1 -> set_int m y x v = Some m' ->
    same_shape m m' /\ at_int m' y x = Some v /\
    (forall y' x', (y', x') <> (y, x) -> at_int m' y' x' = at_int m y' x');
  at_Vec3b_bounds m y x :
    mtype m = CV_8UC3 -> is_Some (at_Vec3b m y x) <-> in_bounds m y x;
  set_Vec3b_bounds m y x v :
    mtype m = CV_8UC3 -> is_Some (set_Vec3b m y x v) <-> in_bounds m y x;
  set_Vec3b_spec m y x v m' :
    mtype m = CV_8UC3 -> set_Vec3b m y x v = Some m' ->
    same_shape m m' /\ at_Vec3b m' y x = Some v /\
    (forall y' x', (y', x') <> (y, x) -> at_Vec3b m' y' x' = at_Vec3b m y' x')
}.

Class RectLaws (CV : OpenCV) : Prop := {
  Rect_pts_spec p q :
    Rect_pts p q =
      mkRect (Z.min (px p) (px q)) (Z.min (py p) (py q))
        (Z.max (px p) (px q) - Z.min (px p) (px q))
        (Z.max (py p) (py q) - Z.min (py p) (py q))
}.

(** Operations that keep or set the size and the type of a matrix, regions of
    interest, and emptiness. *)
Class ShapeLaws (CV : OpenCV) : Prop := {
  threshold_shape m t v f m' :
    threshold m t v f = inr m' -> rows m' = rows m /\ cols m' = cols m;
  morphologyEx_shape m f k p n m' :
    morphologyEx m f k p n = inr m' -> rows m' = rows m /\ cols m' = cols m;
  convertTo_shape m t m' :
    convertTo m t = inr m' -> rows m' = rows m /\ cols m' = cols m /\ mtype m' = t;
  mat_zeros_shape r c t :
    0 <= r -> 0 <= c ->
    rows (mat_zeros r c t) = r /\ cols (mat_zeros r c t) = c /\ mtype (mat_zeros r c t) = t;
  mat_add_shape m v : same_shape m (mat_add m v);
  drawContours_shape m cs i l th f h d m' :
    drawContours m cs i l th f h d = inr m' -> same_shape m m';
  watershed_shape c m m' : watershed c m = inr m' -> same_shape m m';
  mat_roi_spec m r :
    0 <= rx r -> 0 <= width r -> rx r + width r <= cols m ->
    0 <= ry r -> 0 <= height r -> ry r + height r <= rows m ->
    exists m', mat_roi m r = inr m' /\ rows m' = height r /\ cols m' = width r /\ mtype m' = mtype m;
  mat_empty_spec m : mat_empty m = true <-> rows m <= 0 \/ cols m <= 0;
  mat_empty_ctor : mat_empty Mat_ctor = true
}.

(** The part [t] is not empty and not greater than the image [m]: what
    [cv::matchTemplate] requires of its arguments. *)
Definition template_fits `{OpenCV} (m t : Mat) : Prop :=
  0 < rows t <= rows m /\ 0 < cols t <= cols m.

#[export] Instance template_fits_dec `{OpenCV} m t : Decision (template_fits m t).
Proof. unfold template_fits. apply _. Defined.

(** Template matching: when the template fits the image, the map of scores has one cell
    per position; nothing is promised of a template that does not fit.  The location of a
    minimum is a cell of the map, when it has one.  Merging three gray planes gives a
    color image of their size; drawing keeps the shape. *)
Class DiffLaws (CV : OpenCV) : Prop := {
  matchTemplate_shape m t f r :
    template_fits m t -> matchTemplate m t f = inr r ->
    rows r = rows m - rows t + 1 /\ cols r = cols m - cols t + 1;
  minMaxLoc_in r p :
    0 < rows r -> 0 < cols r -> minMaxLoc r = inr p -> in_bounds r (py p) (px p);
  merge3_shape m r :
    mtype m = CV_8UC1 -> merge3 m m m = inr r ->
    rows r = rows m /\ cols r = cols m /\ mtype r = CV_8UC3;
  rectangle_shape m r c t m' : rectangle m r c t = inr m' -> same_shape m m'
}.

(** A call into OpenCV returns or throws. *)
Definition throws {A} (r : exc A) : Prop :=
  match r with inl (Uncaught _) => True | inl _ => False | inr _ => True end.

Class ThrowLaws (CV : OpenCV) : Prop := {
  throws_merge3 a b c : throws (merge3 a b c);
  throws_matcher f q t : throws (matcher_match f q t);
  throws_matchTemplate m t f : throws (matchTemplate m t f);
  throws_minMaxLoc m : throws (minMaxLoc m);
  throws_rectangle m r c t : throws (rectangle m r c t);
  throws_imwrite nm m : throws (imwrite nm m);
  throws_imdecode n b f : throws (imdecode n b f);
  throws_cvtColor m c : throws (cvtColor m c);
  throws_calcHist m c h r : throws (calcHist m c h r);
  throws_normalize m a b f : throws (normalize m a b f);
  throws_compareHist a b k : throws (compareHist a b k);
  throws_threshold m t v f : throws (threshold m t v f);
  throws_getStructuringElement f p : throws (getStructuringElement f p);
  throws_morphologyEx m f k p n : throws (morphologyEx m f k p n);
  throws_convertTo m t : throws (convertTo m t);
  throws_findContours m r c : throws (findContours m r c);
  throws_drawContours m cs i l th f h d : throws (drawContours m cs i l th f h d);
  throws_watershed c m : throws (watershed c m);
  throws_akaze_detect m : throws (akaze_detect m);
  throws_akaze_compute m k : throws (akaze_compute m k);
  throws_mat_roi m r : throws (mat_roi m r)
}.

#[export] Hint Resolve throws_merge3 throws_matcher throws_matchTemplate throws_minMaxLoc
  throws_rectangle throws_imwrite throws_imdecode throws_cvtColor throws_calcHist
  throws_normalize throws_compareHist throws_threshold throws_getStructuringElement
  throws_morphologyEx throws_convertTo throws_findContours throws_drawContours
  throws_watershed throws_akaze_detect throws_akaze_compute throws_mat_roi : gz.

Lemma throws_ret {A} (a : A) : throws (mret a).
Proof. done. Qed.

Lemma throws_bind {A B} (m : exc A) (f : A -> exc B) :
  throws m -> (forall a, m = inr a -> throws (f a)) -> throws (m ≫= f).
Proof. destruct m as [[]|a]; cbn; intros; auto. Qed.

Lemma throws_mapM {A B} (f : A -> exc B) l : (forall x, throws (f x)) -> throws (mapM f l).
Proof.
  intros H. induction l as [|x l IH]; [done|]. rewrite mapM_exc_cons.
  apply throws_bind; [apply H|intros y _]. by apply throws_bind.
Qed.

#[export] Hint Resolve throws_ret : gz.

(** A computation that throws, or leaves an object in a case described by [U]. *)
Definition fails (U : Prop) (e : Stop) : Prop :=
  (exists what, e = Uncaught what) \/ e = UndefinedBehaviour /\ U.

Definition throws_unless (U : Prop) {A} (r : exc A) : Prop :=
  match r with inl e => fails U e | inr _ => True end.

Lemma throws_fails {A} (r : exc A) e : throws r -> r = inl e -> exists what, e = Uncaught what.
Proof. intros H ->. destruct e; try done. by eexists. Qed.

Lemma throws_is_unless {A} U (r : exc A) : throws r -> throws_unless U r.
Proof. destruct r as [e|a] eqn:E; [|done]. intros H. left. by apply (throws_fails r); rewrite E. Qed.

Lemma throws_unless_bind {A B} U (m : exc A) (f : A -> exc B) :
  throws_unless U m -> (forall a, m = inr a -> throws_unless U (f a)) -> throws_unless U (m ≫= f).
Proof. destruct m as [e|a]; cbn; intros; auto. Qed.

(** Derive [throws] along the binds of a pure computation. *)
Ltac throws_step :=
  lazymatch goal with
  | |- throws (_ ≫= _) => apply throws_bind; [|intros ? ?]
  | |- throws (mapM _ _) => apply throws_mapM; intros ?
  | |- throws (match ?x with _ => _ end) => destruct x
  | |- throws _ => solve [auto with gz | done]
  end.
Ltac throws := intros; repeat throws_step.
