(* ===== verification/CvGrid.v ===== *)
(** A concrete OpenCV for evaluation.

    The witnesses of the theorems that hold for every OpenCV evaluate the code
    on this one.  A matrix is a function from coordinates to pixels; decoding,
    drawing and matching are small executable stand-ins with the documented
    shapes (an image file is [rows :: cols :: gray levels]).  A template greater than
    the image is matched the other way round, as OpenCV does.  Nothing in the theorems
    depends on them. *)

From S2P Require Import Prelude Cv.
From Stdlib Require Import SpecFloat.

Record Grid := mkGrid {
  g_rows : Z;
  g_cols : Z;
  g_type : MatType;
  g_at : Z -> Z -> Vec3b
}.

Definition gray (v : Z) : Vec3b := mkVec3b v v v.

Definition grid_empty (m : Grid) : bool := (g_rows m <=? 0) || (g_cols m <=? 0).

Definition grid_in (m : Grid) (y x : Z) : bool :=
  (0 <=? y) && (y <? g_rows m) && (0 <=? x) && (x <? g_cols m).

Definition grid_set (m : Grid) (y x : Z) (v : Vec3b) : Grid :=
  mkGrid (g_rows m) (g_cols m) (g_type m)
    (fun y' x' => if (y' =? y) && (x' =? x) then v else g_at m y' x').

Definition grid_map (t : MatType) (f : Vec3b -> Vec3b) (m : Grid) : Grid :=
  mkGrid (g_rows m) (g_cols m) t (fun y x => f (g_at m y x)).

(** An access at element type [t]. *)
Definition grid_access {A} (t : MatType) (m : Grid) (y x : Z) (a : A) : option A :=
  if bool_decide (g_type m = t) && grid_in m y x then Some a else None.

(** Row-major list of the levels, and back. *)
Definition grid_list (m : Grid) : list Z :=
  seqZ 0 (g_rows m) ≫= fun y => (fun x => v0 (g_at m y x)) <$> seqZ 0 (g_cols m).

Definition grid_of (t : MatType) (rows_ cols_ : Z) (l : list Z) : Grid :=
  mkGrid rows_ cols_ t (fun y x => gray (default 0 (l !! Z.to_nat (y * cols_ + x)))).

Definition grid_nil : Grid := mkGrid 0 0 CV_8UC1 (fun _ _ => gray 0).

Definition grid_decode (n : Z) (data : option (list Z)) : Grid :=
  match take (Z.to_nat n) (default [] data) with
  | r :: c :: l => grid_of CV_8UC3 r c l
  | _ => grid_nil
  end.

Definition grid_roi (m : Grid) (r : Rect) : exc Grid :=
  if (0 <=? rx r) && (0 <=? width r) && (rx r + width r <=? g_cols m) &&
     (0 <=? ry r) && (0 <=? height r) && (ry r + height r <=? g_rows m)
  then inr (mkGrid (height r) (width r) (g_type m)
              (fun y x => g_at m (y + ry r) (x + rx r)))
  else inl (Uncaught "cv::Exception").

Definition grid_nonzero (m : Grid) : list Point :=
  seqZ 0 (g_rows m) ≫= fun y =>
    (fun x => mkPoint x y) <$>
      filter (fun x => v0 (g_at m y x) <> 0) (seqZ 0 (g_cols m)).

Definition grid_draw (m : Grid) (l : list Point) (v : Vec3b) : Grid :=
  foldl (fun m p => grid_set m (py p) (px p) v) m l.

(** The pixels of the border of a rectangle. *)
Definition grid_border (r : Rect) : list Point :=
  seqZ (ry r) (height r) ≫= fun y => seqZ (rx r) (width r) ≫= fun x =>
    if (y =? ry r) || (y =? ry r + height r - 1) || (x =? rx r) || (x =? rx r + width r - 1)
    then [mkPoint x y] else [].

(** Sum of squared differences of [t] placed at [(y, x)]. *)
Definition grid_ssd (m t : Grid) (y x : Z) : Z :=
  foldl Z.add 0 (seqZ 0 (g_rows t) ≫= fun i => (fun j =>
    (v0 (g_at m (y + i) (x + j)) - v0 (g_at t i j)) ^ 2) <$> seqZ 0 (g_cols t)).

(** The scores of [t] at every position of [m]. *)
Definition grid_scores (m t : Grid) : Grid :=
  mkGrid (g_rows m - g_rows t + 1) (g_cols m - g_cols t + 1) CV_32FC1
    (fun y x => gray (grid_ssd m t y x)).

Definition grid_argmin (m : Grid) : Point :=
  (foldl (fun best p => if snd p <? snd best then p else best)
     (mkPoint 0 0, v0 (g_at m 0 0))
     (seqZ 0 (g_rows m) ≫= fun y =>
        (fun x => (mkPoint x y, v0 (g_at m y x))) <$> seqZ 0 (g_cols m))).1.

(** Matching of descriptors, a row each: the first row of [t] nearest to row [i] of [q]. *)
Definition row_dist (q t : Grid) (i j : Z) : Z := Z.abs (v0 (g_at q i 0) - v0 (g_at t j 0)).

Definition nearer (q t : Grid) (i b j : Z) : Z :=
  if row_dist q t i j <? row_dist q t i b then j else b.

Definition nearest (q t : Grid) (i : Z) : Z := foldl (nearer q t i) 0 (seqZ 0 (g_rows t)).

Definition cv_assert {A} (b : bool) (a : A) : exc A :=
  if b then inr a else inl (Uncaught "cv::Exception").

#[export] Instance GridCv : OpenCV := {
  Mat := Grid;
  Mat_ctor := grid_nil;
  rows := g_rows;
  cols := g_cols;
  mtype := g_type;
  mat_empty := grid_empty;
  at_int m y x := grid_access CV_32SC1 m y x (v0 (g_at m y x));
  set_int m y x v := grid_access CV_32SC1 m y x (grid_set m y x (gray v));
  at_Vec3b m y x := grid_access CV_8UC3 m y x (g_at m y x);
  set_Vec3b m y x v := grid_access CV_8UC3 m y x (grid_set m y x v);
  mat_roi := grid_roi;
  mat_zeros r c t := mkGrid r c t (fun _ _ => gray 0);
  mat_add m s := grid_map (g_type m) (fun v => gray (v0 v + s)) m;
  convertTo m t := inr (grid_map t id m);
  Rect_pts p q :=
    mkRect (Z.min (px p) (px q)) (Z.min (py p) (py q))
      (Z.max (px p) (px q) - Z.min (px p) (px q))
      (Z.max (py p) (py q) - Z.min (py p) (py q));
  imdecode n data _ := inr (grid_decode n data);
  imwrite _ _ := inr true;
  cvtColor m code := cv_assert (negb (grid_empty m))
    (grid_map (match code with COLOR_BGR2GRAY => CV_8UC1 | _ => CV_8UC3 end) id m);
  calcHist m _ _ _ := inr (grid_map CV_32FC1 id m);
  normalize m _ _ _ := inr m;
  compareHist a b _ := inr
    (if bool_decide (grid_list a = grid_list b) then S754_zero false
     else S754_finite false 4503599627370496 (-52));
  threshold m t v _ := inr (grid_map CV_8UC1 (fun p => gray (if t <? v0 p then v else 0)) m);
  getStructuringElement _ _ := inr (grid_of CV_8UC1 3 3 (replicate 9 1));
  morphologyEx m _ _ _ _ := inr m;
  findContours m _ _ := inr
    (match grid_nonzero m with
     | [] => ([], [])
     | l => ([l], [mkVec4i (-1) (-1) (-1) (-1)])
     end);
  drawContours m contours idx label _ _ _ _ :=
    inr (grid_draw m (default [] (contours !! Z.to_nat idx)) (gray label));
  watershed _ m := inr m;
  KeyPoint := Point;
  akaze_detect m := inr [mkPoint 0 0];
  akaze_compute m _ := inr (mkGrid (g_rows m) 1 CV_8UC1 (g_at m));
  matcher_match _ q t := cv_assert (0 <? g_rows t)
    ((fun i => mkDMatch i (nearest q t i) (inject_Z (row_dist q t i (nearest q t i)))) <$>
       seqZ 0 (g_rows q));
  merge3 a _ _ := inr (grid_map CV_8UC3 id a);
  matchTemplate m t _ :=
    if (g_rows m <? g_rows t) || (g_cols m <? g_cols t)
    then cv_assert ((g_rows m <=? g_rows t) && (g_cols m <=? g_cols t)) (grid_scores t m)
    else inr (grid_scores m t);
  minMaxLoc m := cv_assert (negb (grid_empty m)) (grid_argmin m);
  rectangle m r c _ := inr (grid_draw m
    (filter (fun p => grid_in m (py p) (px p) = true) (grid_border r))
    (mkVec3b (blue c) (green c) (red c)))
}.

Lemma grid_access_bounds {A} t m y x (a : A) :
  g_type m = t -> is_Some (grid_access t m y x a) <-> in_bounds (H := GridCv) m y x.
Proof.
  intros Ht. unfold grid_access, in_bounds, grid_in; cbn.
  rewrite bool_decide_true by done; cbn.
  destruct (Z.leb_spec 0 y), (Z.ltb_spec y (g_rows m)), (Z.leb_spec 0 x),
    (Z.ltb_spec x (g_cols m)); cbn; (split; [intros [? [=]]; lia|]); try lia; eauto.
Qed.

Lemma grid_access_set t m y x v m' :
  grid_access t m y x (grid_set m y x v) = Some m' ->
  m' = grid_set m y x v /\ bool_decide (g_type m = t) = true /\ grid_in m y x = true.
Proof.
  unfold grid_access. destruct (bool_decide _) eqn:?, (grid_in _ _ _) eqn:?; cbn;
    intros [= <-]; done.
Qed.

Lemma grid_set_other m y x v y' x' :
  (y', x') <> (y, x) -> g_at (grid_set m y x v) y' x' = g_at m y' x'.
Proof.
  intros Hne. cbn. destruct (Z.eqb_spec y' y), (Z.eqb_spec x' x); cbn; try done. by subst.
Qed.

#[export] Instance GridLaws : MatLaws GridCv.
Proof.
  split; intros; cbn in *; try (by apply grid_access_bounds).
  all: match goal with H : grid_access _ _ _ _ (grid_set _ _ _ _) = Some _ |- _ =>
         apply grid_access_set in H as (-> & Hb & Hi) end.
  all: split; [done|]; unfold grid_access; cbn [g_type grid_set].
  all: change (grid_in (grid_set m y x ?v)) with (grid_in m); rewrite Hb; cbn.
  all: rewrite ?Hi, !Z.eqb_refl; cbn; split; [done|].
  all: intros y' x' Hne; destruct (Z.eqb_spec y' y), (Z.eqb_spec x' x); cbn; try done;
    by subst.
Qed.

#[export] Instance GridRect : RectLaws GridCv.
Proof. by split. Qed.

Lemma grid_draw_shape m l v : same_shape (H := GridCv) m (grid_draw m l v).
Proof.
  unfold grid_draw. revert m. induction l as [|p l IH]; intros m; [done|].
  destruct (IH (grid_set m (py p) (px p) v)) as (? & ? & ?). by split_and!.
Qed.

#[export] Instance GridShapes : ShapeLaws GridCv.
Proof.
  split; cbn.
  - by intros m t v f m' [= <-].
  - by intros m f k p n m' [= <-].
  - by intros m t m' [= <-].
  - done.
  - done.
  - intros m cs i l th f h d m' [= <-]. apply grid_draw_shape.
  - by intros c m m' [= <-].
  - intros m r ? ? ? ? ? ?. unfold grid_roi.
    repeat rewrite (proj2 (Z.leb_le _ _)) by lia. cbn. by eexists.
  - intros m. unfold grid_empty. rewrite orb_true_iff, !Z.leb_le. done.
  - done.
Qed.

Lemma grid_argmin_in m : grid_empty m = false -> in_bounds (H := GridCv) m (py (grid_argmin m)) (px (grid_argmin m)).
Proof.
  unfold grid_empty, in_bounds, grid_argmin. intros [Hr Hc]%orb_false_iff. cbn.
  apply Z.leb_gt in Hr, Hc.
  set (f := fun best p => if snd p <? snd best then p else best : Point * Z).
  enough (forall l b, Forall (fun p : Point * Z => 0 <= py p.1 < g_rows m /\ 0 <= px p.1 < g_cols m) l ->
            0 <= py b.1 < g_rows m /\ 0 <= px b.1 < g_cols m ->
            0 <= py (foldl f b l).1 < g_rows m /\ 0 <= px (foldl f b l).1 < g_cols m) as H.
  { apply H; [|cbn; lia]. apply Forall_bind, Forall_forall. intros y Hy%elem_of_seqZ.
    apply Forall_fmap, Forall_forall. intros x Hx%elem_of_seqZ. cbn. lia. }
  induction l as [|p l IH]; intros b Hl Hb; cbn; [done|]. inversion Hl; subst.
  apply IH; [done|]. unfold f. by destruct (_ <? _).
Qed.

#[export] Instance GridDiff : DiffLaws GridCv.
Proof.
  split; cbn.
  - intros m t _ r [? ?]. cbn in *.
    destruct (Z.ltb_spec (g_rows m) (g_rows t)), (Z.ltb_spec (g_cols m) (g_cols t)); try lia.
    by intros [= <-].
  - intros r p _ _. unfold cv_assert. destruct (grid_empty r) eqn:E; [done|]. intros [= <-].
    by apply grid_argmin_in.
  - by intros m r _ [= <-].
  - intros m r c t m' [= <-]. apply grid_draw_shape.
Qed.

Lemma cv_assert_throws {A} b (a : A) : throws (cv_assert b a).
Proof. by destruct b. Qed.

#[export] Instance GridThrows : ThrowLaws GridCv.
Proof.
  split; intros; cbn; try apply cv_assert_throws; try exact I.
  destruct (_ || _); [apply cv_assert_throws|exact I].
Qed.
