(* ===== verification/StdLib.v ===== *)
(** The parts of C, of the C++ standard library and of the integer types of
    gazosan.h that the program uses: fixed-width integers and their conversions,
    [std::sort], [std::stoi], [std::to_string], and [printf("%8.3f")] on
    doubles. *)

From S2P Require Import Prelude.
From Stdlib Require Import SpecFloat Ascii.

(** ** Fixed-width integers (the typedefs of gazosan.h)

    Conversion to an unsigned type is reduction modulo a power of two; conversion
    to a signed type is modular too since C++20. *)

Module MachInt.
Definition to_unsigned (w z : Z) : Z := z mod 2 ^ w.

Definition to_signed (w z : Z) : Z :=
  let u := z mod 2 ^ w in if u <? 2 ^ (w - 1) then u else u - 2 ^ w.

Definition u64 : Z -> Z := to_unsigned 64.
Definition i64 : Z -> Z := to_signed 64.
Definition i32 : Z -> Z := to_signed 32.

Definition in_i64 (z : Z) : Prop := - 2 ^ 63 <= z < 2 ^ 63.
Definition in_i32 (z : Z) : Prop := - 2 ^ 31 <= z < 2 ^ 31.

(** A signed conversion is the identity on the target's range and always
    lands in it. *)
Lemma to_signed_id w z : 1 <= w -> - 2 ^ (w - 1) <= z < 2 ^ (w - 1) -> to_signed w z = z.
Proof.
  intros Hw Hz. unfold to_signed.
  assert (2 ^ w = 2 * 2 ^ (w - 1)) as E.
  { rewrite <- Z.pow_succ_r by lia. f_equal. lia. }
  assert (0 < 2 ^ (w - 1)) by (apply Z.pow_pos_nonneg; lia).
  destruct (Z.le_gt_cases 0 z).
  - rewrite Z.mod_small by lia. destruct (Z.ltb_spec z (2 ^ (w - 1))); lia.
  - assert (z mod 2 ^ w = z + 2 ^ w) as ->.
    { symmetry. apply (Z.mod_unique_pos _ _ (-1)); lia. }
    destruct (Z.ltb_spec (z + 2 ^ w) (2 ^ (w - 1))); lia.
Qed.

Lemma to_signed_mod w z : to_signed w (z mod 2 ^ w) = to_signed w z.
Proof.
  unfold to_signed. rewrite Zmod_mod. done.
Qed.

Lemma i64_id z : in_i64 z -> i64 z = z.
Proof. intros H. apply to_signed_id; [lia|exact H]. Qed.

Lemma i32_id z : in_i32 z -> i32 z = z.
Proof. intros H. apply to_signed_id; [lia|exact H]. Qed.

(** [i64] of 64-bit unsigned arithmetic is [i64] of the exact value. *)
Lemma i64_u64_arith a b c :
  i64 (u64 (u64 (u64 a * b) + c)) = i64 (a * b + c).
Proof.
  unfold i64, u64, to_unsigned. rewrite to_signed_mod.
  rewrite <- (to_signed_mod _ (_ + c)), <- (to_signed_mod _ (a * b + c)).
  f_equal. rewrite <- Z.add_mod_idemp_l by done. rewrite Zmod_mod.
  rewrite Z.mul_mod_idemp_l by done. rewrite Z.add_mod_idemp_l by done. done.
Qed.
End MachInt.

(** ** [std::sort] and [std::ranges::sort]

    The standard promises a permutation in which no element is less than one
    before it, when the comparison is a strict weak order; it promises nothing
    about the order of equivalent elements, so the development is generic in the
    sort. *)

Record StrictWeakOrder {A} (lt : A -> A -> bool) : Prop := {
  swo_irrefl x : lt x x = false;
  swo_trans x y z : lt x y = true -> lt y z = true -> lt x z = true;
  swo_neg_trans x y z : lt x z = true -> lt x y = true \/ lt y z = true
}.

Class StdSort := std_sort : forall {A}, (A -> A -> bool) -> list A -> list A.

Class StdSortLaws (S : StdSort) : Prop := {
  std_sort_perm {A} (lt : A -> A -> bool) l : Permutation (std_sort lt l) l;
  std_sort_sorted {A} (lt : A -> A -> bool) l :
    StrictWeakOrder lt -> StronglySorted (fun x y => lt y x = false) (std_sort lt l)
}.

(** Comparing integer keys is a strict weak order. *)
Lemma swo_key {A} (key : A -> Z) : StrictWeakOrder (fun a b => key a <? key b).
Proof. split; intros *; rewrite ?Z.ltb_lt, ?Z.ltb_ge; lia. Qed.

(** One such sort. *)
Section InsertionSort.
Context {A : Type} (lt : A -> A -> bool).

Fixpoint insert_sorted (x : A) (l : list A) : list A :=
  match l with
  | [] => [x]
  | y :: l' => if lt y x then y :: insert_sorted x l' else x :: l
  end.

Definition insertion_sort (l : list A) : list A := foldr insert_sorted [] l.

Lemma insert_sorted_perm x l : Permutation (insert_sorted x l) (x :: l).
Proof.
  induction l as [|y l IH]; cbn; [done|]. destruct (lt y x); [|done].
  rewrite IH. apply perm_swap.
Qed.

Lemma insertion_sort_perm l : Permutation (insertion_sort l) l.
Proof. induction l as [|x l IH]; cbn; [done|]. by rewrite insert_sorted_perm, IH. Qed.

Lemma insert_sorted_sorted x l :
  StrictWeakOrder lt -> StronglySorted (fun x y => lt y x = false) l ->
  StronglySorted (fun x y => lt y x = false) (insert_sorted x l).
Proof.
  intros W. induction 1 as [|y l Hl IH Hy]; cbn; [repeat constructor|].
  destruct (lt y x) eqn:E.
  - constructor; [done|]. apply Forall_forall. intros z Hz.
    rewrite insert_sorted_perm in Hz. apply elem_of_cons in Hz as [->|Hz].
    + destruct (lt x y) eqn:E'; [|done].
      rewrite <- (swo_irrefl _ W x). symmetry. by eapply (swo_trans _ W).
    + rewrite Forall_forall in Hy. by apply Hy.
  - constructor; [by constructor|]. constructor; [done|].
    apply Forall_forall. intros z Hz. destruct (lt z x) eqn:E'; [|done].
    rewrite Forall_forall in Hy. specialize (Hy z Hz).
    destruct (swo_neg_trans _ W z y x E'); congruence.
Qed.

Lemma insertion_sort_sorted l :
  StrictWeakOrder lt -> StronglySorted (fun x y => lt y x = false) (insertion_sort l).
Proof.
  intros W. induction l as [|x l IH]; cbn; [constructor|]. by apply insert_sorted_sorted.
Qed.
End InsertionSort.

#[export] Instance ins_sort : StdSort := @insertion_sort.
#[export] Instance ins_sort_laws : StdSortLaws ins_sort.
Proof.
  split; intros; [apply insertion_sort_perm|by apply insertion_sort_sorted].
Qed.

(** ** Numbers to text and back *)

Definition to_string (z : Z) : string := pretty z.

Definition isspace (c : ascii) : bool :=
  let n := Z.of_nat (nat_of_ascii c) in (n =? 32) || ((9 <=? n) && (n <=? 13)).

Definition digit_value (c : ascii) : option Z :=
  let n := Z.of_nat (nat_of_ascii c) in
  if (48 <=? n) && (n <=? 57) then Some (n - 48) else None.

(** [strtol]'s digits: the value of the leading digits, after [acc]. *)
Fixpoint strtol_digits (s : string) (acc : Z) : Z :=
  match s with
  | EmptyString => acc
  | String c s' =>
      match digit_value c with
      | Some d => strtol_digits s' (acc * 10 + d)
      | None => acc
      end
  end.

Definition starts_with_digit (s : string) : bool :=
  match s with
  | String c _ => match digit_value c with Some _ => true | None => false end
  | EmptyString => false
  end.

Fixpoint skip_spaces (s : string) : string :=
  match s with
  | String c s' => if isspace c then skip_spaces s' else s
  | EmptyString => s
  end.

Definition read_sign (s : string) : Z * string :=
  match s with
  | String "-" s' => (-1, s')
  | String "+" s' => (1, s')
  | _ => (1, s)
  end%char.

(** [std::stoi(s)]: leading blanks, a sign, digits, then anything. *)
Definition stoi (s : string) : exc Z :=
  let '(sign, t) := read_sign (skip_spaces s) in
  if starts_with_digit t then
    let v := sign * strtol_digits t 0 in
    if (- 2 ^ 31 <=? v) && (v <? 2 ^ 31) then inr v
    else inl (Uncaught "std::out_of_range")
  else inl (Uncaught "std::invalid_argument").

Lemma stoi_range s v : stoi s = inr v -> MachInt.in_i32 v.
Proof.
  unfold stoi, MachInt.in_i32. destruct (read_sign _) as [sign t].
  destruct (starts_with_digit t); [|done].
  destruct (_ && _) eqn:E; [|done]. intros [= <-]. lia.
Qed.

Lemma digit_value_char n :
  (n < 10)%N -> digit_value (pretty_N_char n) = Some (Z.of_N n).
Proof.
  intros Hn.
  assert (Forall (fun k => digit_value (pretty_N_char (N.of_nat k)) = Some (Z.of_nat k)) (seq 0 10))
    as H by by repeat constructor.
  rewrite Forall_forall in H. specialize (H (N.to_nat n)).
  rewrite N2Nat.id, N_nat_Z in H. apply H, elem_of_seq. lia.
Qed.

Lemma strtol_digits_pretty n s acc :
  exists k, strtol_digits (pretty_N_go n s) acc = strtol_digits s (acc * k + Z.of_N n).
Proof.
  revert s acc. induction (N.lt_wf_0 n) as [n _ IH]; intros s acc.
  destruct (decide (n = 0)%N) as [->|Hn].
  - exists 1. rewrite pretty_N_go_0. f_equal. lia.
  - rewrite pretty_N_go_step by lia.
    destruct (IH (n `div` 10)%N (N.div_lt n 10 ltac:(lia) ltac:(lia))
                (String (pretty_N_char (n `mod` 10)) s) acc) as [k ->].
    cbn [strtol_digits]. rewrite digit_value_char by (apply N.mod_lt; lia).
    exists (k * 10). f_equal.
    rewrite (N.div_mod' n 10) at 3. lia.
Qed.

Lemma starts_with_digit_pretty n s :
  (0 < n)%N \/ starts_with_digit s = true -> starts_with_digit (pretty_N_go n s) = true.
Proof.
  revert s. induction (N.lt_wf_0 n) as [n _ IH]; intros s Hs.
  destruct (decide (n = 0)%N) as [->|Hn].
  - rewrite pretty_N_go_0. destruct Hs; [lia|done].
  - rewrite pretty_N_go_step by lia. apply IH; [apply N.div_lt; lia|].
    right. cbn. by rewrite digit_value_char by (apply N.mod_lt; lia).
Qed.

Lemma starts_with_digit_plain s :
  starts_with_digit s = true -> skip_spaces s = s /\ read_sign s = (1, s).
Proof.
  destruct s as [|c s]; [done|]. cbn. unfold digit_value, isspace.
  destruct (_ && _) eqn:E; [|done]. intros _. split.
  - destruct (_ || _) eqn:E'; [lia|done].
  - destruct c as [[] [] [] [] [] [] [] []]; try done; vm_compute in E; done.
Qed.

Lemma stoi_pretty_N (n : N) (sign : Z) s :
  read_sign (skip_spaces s) = (sign, pretty n) ->
  MachInt.in_i32 (sign * Z.of_N n) -> stoi s = inr (sign * Z.of_N n).
Proof.
  intros E Hr. unfold stoi. rewrite E.
  assert (starts_with_digit (pretty n) = true /\ strtol_digits (pretty n) 0 = Z.of_N n)
    as [-> ->].
  { unfold pretty, pretty_N. case_decide as Hn; [by subst|]. split.
    - apply starts_with_digit_pretty. left. lia.
    - destruct (strtol_digits_pretty n "" 0) as [k ->]. cbn. lia. }
  unfold MachInt.in_i32 in Hr.
  destruct (Z.leb_spec (- 2 ^ 31) (sign * Z.of_N n)), (Z.ltb_spec (sign * Z.of_N n) (2 ^ 31));
    cbn; done || lia.
Qed.

(** Reading back what [std::to_string] prints. *)
Lemma stoi_to_string z : MachInt.in_i32 z -> stoi (to_string z) = inr z.
Proof.
  intros Hz. unfold to_string, pretty, pretty_Z.
  destruct z as [|p|p].
  - done.
  - change (Z.pos p) with (1 * Z.of_N (N.pos p)) in *. apply stoi_pretty_N; [|done].
    change (read_sign (skip_spaces (pretty (N.pos p))) = (1, pretty (N.pos p))).
    destruct (starts_with_digit_plain (pretty (N.pos p))) as [-> ->]; [|done].
    apply starts_with_digit_pretty. left. lia.
  - change (Z.neg p) with (-1 * Z.of_N (N.pos p)) in *. by apply stoi_pretty_N.
Qed.

Definition newline : string := String "010" EmptyString.

(** ** Doubles *)

(** [static_cast<double>] of an integer, and the arithmetic of binary64. *)
Definition double_of_Z (z : Z) : spec_float := binary_normalize 53 1024 z 0 false.
Definition double_div : spec_float -> spec_float -> spec_float := SFdiv 53 1024.
Definition double_sub : spec_float -> spec_float -> spec_float := SFsub 53 1024.

(** The integer nearest to [n / d], ties to even. *)
Definition round_half_even (n d : Z) : Z :=
  let q := n / d in
  let r := n mod d in
  if 2 * r <? d then q else if d <? 2 * r then q + 1 else if Z.even q then q else q + 1.

Fixpoint pad_zeros (n : nat) (s : string) : string :=
  match n with O => s | S n => String "0" (pad_zeros n s) end.

Fixpoint spaces (n : nat) : string :=
  match n with O => EmptyString | S n => String " " (spaces n) end.

(** A double in thousandths, rounded as [%.3f] rounds it. *)
Definition thousandths (m e : Z) : Z :=
  if 0 <=? e then m * 2 ^ e * 1000 else round_half_even (m * 1000) (2 ^ (- e)).

Definition format_thousandths (n : Z) : string :=
  let frac := to_string (n mod 1000) in
  to_string (n / 1000) +:+ "." +:+ pad_zeros (3 - String.length frac) frac.

(** [%.3f] *)
Definition format_f3 (d : spec_float) : string :=
  match d with
  | S754_zero s => (if s then "-" else "") +:+ "0.000"
  | S754_finite s m e => (if s then "-" else "") +:+ format_thousandths (thousandths (Z.pos m) e)
  | S754_infinity s => (if s then "-" else "") +:+ "inf"
  | S754_nan => "nan"
  end.

(** [%8.3f] *)
Definition format_8_3f (d : spec_float) : string :=
  let s := format_f3 d in spaces (8 - String.length s) +:+ s.

(** [%.3f] is off by at most half a thousandth. *)
Lemma round_half_even_spec n d :
  0 < d -> 2 * Z.abs (round_half_even n d * d - n) <= d.
Proof.
  intros Hd. unfold round_half_even.
  pose proof (Z.div_mod n d). pose proof (Z.mod_pos_bound n d).
  repeat case_match; nia.
Qed.
