(* ===== verification/Tolerance.v ===== *)
(** The verdict on two histograms, a comparison of doubles (image.cc): which distances are
    within the tolerance.  The subtraction and the comparison are those of Rocq's
    specification of binary64; its rounding is followed here through the three ranges of
    the distance: below the binade of the tolerance, in it, and above. *)

From S2P Require Import Prelude StdLib.
From Stdlib Require Import SpecFloat.

(** The doubles nearest to 0.00001 and 1e-13. *)
Definition d_1em5 : spec_float := S754_finite false 5902958103587057 (-69).
Definition d_1em13 : spec_float := S754_finite false 7922816251426434 (-96).

(** [d - 0.00001 <= 1e-13] *)
Definition verdict (d : spec_float) : bool := SFleb (double_sub d d_1em5) d_1em13.

(** ** Digits and shifts *)

Lemma digits2_bounds (p : positive) :
  2 ^ (Z.pos (digits2_pos p) - 1) <= Z.pos p < 2 ^ Z.pos (digits2_pos p).
Proof.
  induction p as [p IH|p IH|]; cbn [digits2_pos]; [..|by vm_compute];
    rewrite Pos2Z.inj_succ; replace (Z.succ (Z.pos (digits2_pos p)) - 1) with
      (Z.succ (Z.pos (digits2_pos p) - 1)) by lia; rewrite !Z.pow_succ_r by lia; lia.
Qed.

Lemma digits2_unique (p : positive) k :
  0 < k -> 2 ^ (k - 1) <= Z.pos p < 2 ^ k -> Z.pos (digits2_pos p) = k.
Proof.
  intros Hk [H1 H2]. pose proof (digits2_bounds p) as [H3 H4].
  assert (k - 1 < Z.pos (digits2_pos p)) by (apply (Z.pow_lt_mono_r_iff 2); lia).
  assert (Z.pos (digits2_pos p) - 1 < k) by (apply (Z.pow_lt_mono_r_iff 2); lia).
  lia.
Qed.

Lemma shift_left (p d : positive) : Z.pos (Pos.iter xO p d) = Z.pos p * 2 ^ Z.pos d.
Proof.
  induction d as [|d IH] using Pos.peano_ind; [cbn; lia|].
  rewrite Pos.iter_succ, Pos2Z.inj_succ, Z.pow_succ_r by lia. lia.
Qed.

(** A shift to the right halves, rounding down. *)
Lemma shr_1_half r : 0 <= shr_m r -> shr_m (shr_1 r) = shr_m r / 2.
Proof.
  destruct r as [[|[p|p|]|p] ? ?]; cbn [shr_m shr_1]; intros H; try done.
  - rewrite Pos2Z.inj_xI. apply Z.div_unique with 1; lia.
  - rewrite Pos2Z.inj_xO. apply Z.div_unique with 0; lia.
Qed.

Lemma shr_pos p r : 0 <= shr_m r -> shr_m (iter_pos shr_1 p r) = shr_m r / 2 ^ Z.pos p.
Proof.
  revert r. induction p as [p IH|p IH|]; intros r H; cbn [iter_pos].
  - assert (0 <= shr_m (shr_1 r)) by (rewrite shr_1_half by done; apply Z.div_pos; lia).
    rewrite (IH (iter_pos _ _ _)), IH, shr_1_half; [|done..|].
    + rewrite !Z.div_div by lia. f_equal. rewrite (Pos2Z.inj_xI p).
      replace (2 * Z.pos p + 1) with (1 + Z.pos p + Z.pos p) by lia. rewrite !Z.pow_add_r by lia. lia.
    + rewrite IH by done. by apply Z.div_pos; [|lia].
  - rewrite (IH (iter_pos _ _ _)), IH; [|done|].
    + rewrite Z.div_div by lia. f_equal. rewrite (Pos2Z.inj_xO p).
      replace (2 * Z.pos p) with (Z.pos p + Z.pos p) by lia. rewrite Z.pow_add_r by lia. lia.
    + rewrite IH by done. by apply Z.div_pos; [|lia].
  - rewrite shr_1_half by done. by rewrite Z.pow_1_r.
Qed.

(** Binary64. *)
Abbreviation prec := 53.
Abbreviation emax := 1024.
Abbreviation shr_double := (shr_fexp prec emax).

Lemma round_bounds m l : 0 <= m -> m <= round_nearest_even m l <= m + 1.
Proof. intros H. destruct l as [|[]]; cbn; [lia| |lia..]. destruct (Z.even m); lia. Qed.

(** Shifting to the precision: the exponent grows, and a mantissa stays one. *)
Lemma shr_double_spec (m : positive) e l :
  -1074 <= e ->
  e <= (shr_double (Z.pos m) e l).2 /\ 0 < shr_m (shr_double (Z.pos m) e l).1.
Proof.
  intros He. unfold shr_fexp. set (n := fexp _ _ _ - e).
  assert (shr_m (shr_record_of_loc (Z.pos m) l) = Z.pos m) as Em by (by destruct l as [|[]]).
  unfold shr. destruct n as [|p|p] eqn:En; cbn [fst snd]; [by rewrite Em; lia| |by rewrite Em; lia].
  split; [lia|]. rewrite shr_pos, Em by (rewrite Em; lia).
  apply Z.div_str_pos. split; [lia|]. pose proof (digits2_bounds m) as [H _].
  etrans; [|exact H]. apply Z.pow_le_mono_r; [lia|].
  unfold n, fexp, emin in En. cbn [Zdigits2] in En. lia.
Qed.

Lemma shr_double_nonneg m e l : 0 <= m -> 0 <= shr_m (shr_double m e l).1.
Proof.
  intros Hm. unfold shr_fexp. assert (shr_m (shr_record_of_loc m l) = m) as Em by (by destruct l as [|[]]).
  unfold shr. destruct (_ - e) as [|p|p]; cbn [fst]; [lia| |lia].
  rewrite shr_pos, Em by lia. apply Z.div_pos; lia.
Qed.

(** ** Rounding *)

(** A rounded negative number is not above a positive one. *)
Lemma round_negative m e y : 0 <= m -> SFleb (binary_round_aux prec emax true m e loc_Exact) (S754_finite false y (-96)) = true.
Proof.
  intros Hm. unfold binary_round_aux.
  pose proof (shr_double_nonneg m e loc_Exact Hm) as H1.
  destruct (shr_double m e loc_Exact) as [r1 e1]; cbn [fst] in H1.
  pose proof (round_bounds _ (loc_of_shr_record r1) H1) as [H2 _].
  set (q := round_nearest_even _ _) in *.
  pose proof (shr_double_nonneg q e1 loc_Exact ltac:(lia)) as H3.
  destruct (shr_double q e1 loc_Exact) as [r2 e2]; cbn [fst] in H3.
  destruct (shr_m r2) as [|p|p]; [done| |lia]. by destruct (_ <=? _).
Qed.

(** A rounded positive number with an exponent above that of another is above it. *)
Lemma round_large (m : positive) e y :
  -96 < e -> SFleb (binary_round_aux prec emax false (Z.pos m) e loc_Exact) (S754_finite false y (-96)) = false.
Proof.
  intros He. unfold binary_round_aux.
  destruct (shr_double_spec m e loc_Exact ltac:(lia)) as [H1 H2].
  destruct (shr_double (Z.pos m) e loc_Exact) as [r1 e1]; cbn [fst snd] in *.
  pose proof (round_bounds _ (loc_of_shr_record r1) (Z.lt_le_incl _ _ H2)) as [H3 _].
  set (q := round_nearest_even _ _) in *.
  assert (exists p, q = Z.pos p) as [p ->] by (destruct q as [|p|p]; [lia|by exists p|lia]).
  destruct (shr_double_spec p e1 loc_Exact ltac:(lia)) as [H4 H5].
  destruct (shr_double (Z.pos p) e1 loc_Exact) as [r2 e2]; cbn [fst snd] in *.
  destruct (shr_m r2) as [|k|k]; [lia| |lia]. destruct (_ <=? _); [|done].
  unfold SFleb, SFcompare. by rewrite (proj2 (Z.compare_gt_iff e2 (-96))) by lia.
Qed.

(** A mantissa of full precision is not rounded. *)
Lemma round_exact (m : positive) e :
  Z.pos (digits2_pos m) = 53 -> -1074 <= e <= 971 ->
  binary_round_aux prec emax false (Z.pos m) e loc_Exact = S754_finite false m e.
Proof.
  intros Hm He.
  assert (shr_double (Z.pos m) e loc_Exact = (Build_shr_record (Z.pos m) false false, e)) as E.
  { unfold shr_fexp, fexp, emin. cbn [Zdigits2]. rewrite Hm.
    replace (Z.max (53 + e - 53) (3 - 1024 - 53) - e) with 0 by lia. done. }
  unfold binary_round_aux. rewrite E. cbn [shr_m loc_of_shr_record round_nearest_even]. rewrite E.
  cbn [shr_m]. by rewrite (proj2 (Z.leb_le e (emax - prec))) by lia.
Qed.

(** ** The subtraction *)

Lemma align_left m e e' : e' <= e -> Z.pos (shl_align m e e').1 = Z.pos m * 2 ^ (e - e').
Proof.
  intros He. unfold shl_align. destruct (e' - e) as [|p|p] eqn:Ep; cbn [fst].
  - replace (e - e') with 0 by lia. lia.
  - lia.
  - rewrite shift_left. f_equal. f_equal. lia.
Qed.

Lemma normalize_negative n e y :
  n < 0 -> SFleb (binary_normalize prec emax n e false) (S754_finite false y (-96)) = true.
Proof.
  intros Hn. destruct n as [|p|p]; [lia|lia|]. cbn [binary_normalize]. unfold binary_round.
  destruct (shl_align _ _ _) as [m e']. by apply round_negative.
Qed.

Lemma normalize_large n y :
  2 ^ 51 <= n -> SFleb (binary_normalize prec emax n (-69) false) (S754_finite false y (-96)) = false.
Proof.
  intros Hn. destruct n as [|p|p]; [lia| |lia]. cbn [binary_normalize]. unfold binary_round.
  assert (52 <= Z.pos (digits2_pos p)) as Hd.
  { pose proof (digits2_bounds p) as [_ H].
    assert (51 < Z.pos (digits2_pos p)) by (apply (Z.pow_lt_mono_r_iff 2); lia). lia. }
  unfold shl_align. destruct (_ - -69) as [|k|k] eqn:Ek; [by apply round_large..|].
  apply round_large. unfold fexp, emin in *. lia.
Qed.

(** Positive finite doubles are compared by exponent, then by mantissa. *)
Lemma leb_finite m1 e1 m2 e2 :
  SFleb (S754_finite false m1 e1) (S754_finite false m2 e2) =
  match e1 ?= e2 with Lt => true | Eq => Z.pos m1 <=? Z.pos m2 | Gt => false end.
Proof. unfold SFleb, SFcompare. by destruct (e1 ?= e2). Qed.

(** Below the precision the difference is exact. *)
Lemma normalize_exact n :
  0 < n < 2 ^ 53 ->
  SFleb (binary_normalize prec emax n (-69) false) d_1em13 = (n <=? 59029581).
Proof.
  intros Hn. destruct n as [|p|p]; [lia| |lia]. cbn [binary_normalize]. unfold binary_round.
  pose proof (digits2_bounds p) as [Hlo Hhi]. set (k := Z.pos (digits2_pos p)) in *.
  assert (k <= 53) as Hk.
  { assert (k - 1 < 53) by (apply (Z.pow_lt_mono_r_iff 2); lia). lia. }
  assert (0 < k) as Hk0 by done.
  set (e' := fexp prec emax (k + -69)).
  assert (e' = k - 122) as Ee by (unfold e', fexp, emin; lia). clearbody e'. subst e'.
  assert (exists q, shl_align p (-69) (k - 122) = (q, k - 122) /\ Z.pos q = Z.pos p * 2 ^ (53 - k))
    as (q & -> & Hq).
  { exists (shl_align p (-69) (k - 122)).1. split.
    - unfold shl_align. destruct (k - 122 - -69) as [|d|d] eqn:Ed; cbn [fst]; [|lia|done].
      f_equal. lia.
    - rewrite align_left by lia. do 2 f_equal. lia. }
  assert (2 ^ 52 <= Z.pos q < 2 ^ 53) as Hqb.
  { rewrite Hq. replace 52 with (k - 1 + (53 - k)) at 1 by lia.
    replace (2 ^ 53) with (2 ^ k * 2 ^ (53 - k)) by (rewrite <- Z.pow_add_r by lia; f_equal; lia).
    rewrite Z.pow_add_r by lia. assert (0 < 2 ^ (53 - k)) by lia. nia. }
  rewrite round_exact; [|apply digits2_unique; [done|exact Hqb]|lia].
  unfold d_1em13. rewrite leb_finite.
  destruct (Z.compare_spec (k - 122) (-96)) as [Hc|Hc|Hc].
  - assert (k = 26) as E26 by lia. rewrite E26 in *. change (2 ^ (53 - 26)) with 134217728 in Hq.
    apply eq_true_iff_eq. rewrite !Z.leb_le. lia.
  - symmetry. apply Z.leb_le.
    assert (2 ^ k <= 2 ^ 25) by (apply Z.pow_le_mono_r; lia). lia.
  - symmetry. apply Z.leb_gt.
    assert (2 ^ 26 <= 2 ^ (k - 1)) by (apply Z.pow_le_mono_r; lia). lia.
Qed.

(** ** The tolerance *)

(** A double of at most 5902958162616638 * 2^-69, about 1.00000001e-5; both sides are
    scaled by 2^1074, so that they are integers. *)
Definition within (d : spec_float) : Prop :=
  match d with
  | S754_zero _ => True
  | S754_infinity s => s = true
  | S754_nan => False
  | S754_finite s m e =>
      s = true \/ Z.pos m * 2 ^ (e + 1074) <= 5902958162616638 * 2 ^ (1074 - 69)
  end.

(** A subtraction of the constant, at the smaller exponent. *)
Lemma verdict_finite s m e :
  verdict (S754_finite s m e) =
  SFleb (binary_normalize prec emax
    (cond_Zopp s (Z.pos (shl_align m e (Z.min e (-69))).1) -
     Z.pos (shl_align 5902958103587057 (-69) (Z.min e (-69))).1) (Z.min e (-69)) false) d_1em13.
Proof. reflexivity. Qed.

Lemma valid_mantissa s m e :
  valid_binary prec emax (S754_finite s m e) = true ->
  -1074 <= e /\ Z.pos m < 2 ^ 53 /\ (-1074 < e -> 2 ^ 52 <= Z.pos m).
Proof.
  cbn [valid_binary]. unfold bounded, canonical_mantissa, fexp, emin.
  intros [H1%Z.eqb_eq H2%Z.leb_le]%andb_prop. pose proof (digits2_bounds m) as [Hlo Hhi].
  set (k := Z.pos (digits2_pos m)) in *. split; [lia|]. split.
  - eapply Z.lt_le_trans; [exact Hhi|]. apply Z.pow_le_mono_r; lia.
  - intros He. etrans; [|exact Hlo]. apply Z.pow_le_mono_r; lia.
Qed.

Lemma verdict_below m e :
  Z.pos m < 2 ^ 53 -> -1074 <= e < -69 -> verdict (S754_finite false m e) = true /\
  within (S754_finite false m e).
Proof.
  intros Hm He. split.
  - rewrite verdict_finite. replace (Z.min e (-69)) with e by lia. apply normalize_negative.
    cbn [cond_Zopp]. rewrite !align_left, Z.sub_diag by lia.
    assert (2 ^ 1 <= 2 ^ (-69 - e)) by (apply Z.pow_le_mono_r; lia). lia.
  - right. assert (2 ^ (e + 1074) <= 2 ^ 1004) by (apply Z.pow_le_mono_r; lia).
    replace (1074 - 69) with (1004 + 1) by lia. rewrite (Z.pow_add_r 2 1004 1) by lia.
    assert (0 < 2 ^ 1004) by lia. set (P := 2 ^ 1004) in *. clearbody P.
    etrans; [apply Z.mul_le_mono_nonneg_l; [done|eassumption]|]. change (2 ^ 53) with 9007199254740992 in Hm. nia.
Qed.

Lemma verdict_in m :
  2 ^ 52 <= Z.pos m < 2 ^ 53 ->
  verdict (S754_finite false m (-69)) = true <-> within (S754_finite false m (-69)).
Proof.
  intros Hm. rewrite verdict_finite. cbn [cond_Zopp].
  change (Z.min (-69) (-69)) with (-69). rewrite !align_left, Z.sub_diag, !Z.mul_1_r by lia.
  assert (within (S754_finite false m (-69)) <-> Z.pos m <= 5902958162616638) as ->.
  { unfold within. replace (-69 + 1074) with (1074 - 69) by lia.
    assert (0 < 2 ^ (1074 - 69)) by lia. set (P := 2 ^ (1074 - 69)) in *. clearbody P.
    split; [intros [?|?]; [done|nia]|right; nia]. }
  destruct (Z.lt_trichotomy (Z.pos m - 5902958103587057) 0) as [H|[H|H]].
  - rewrite (normalize_negative _ _ _ H : SFleb _ d_1em13 = true). split; [lia|done].
  - rewrite H. split; [lia|by intros _].
  - rewrite normalize_exact by lia. rewrite Z.leb_le. lia.
Qed.

Lemma verdict_above m e :
  2 ^ 52 <= Z.pos m -> -69 < e -> verdict (S754_finite false m e) = false /\
  ~ within (S754_finite false m e).
Proof.
  intros Hm He. split.
  - rewrite verdict_finite. replace (Z.min e (-69)) with (-69) by lia. apply normalize_large.
    cbn [cond_Zopp]. rewrite !align_left, Z.sub_diag by lia.
    assert (2 ^ 1 <= 2 ^ (e - -69)) by (apply Z.pow_le_mono_r; lia). lia.
  - unfold within. intros [?|H]; [done|].
    assert (2 ^ (1 + (1074 - 69)) <= 2 ^ (e + 1074)) as H2 by (apply Z.pow_le_mono_r; lia).
    rewrite Z.pow_add_r in H2 by lia. assert (0 < 2 ^ (1074 - 69)) by lia.
    set (P := 2 ^ (1074 - 69)) in *. clearbody P. set (R := 2 ^ (e + 1074)) in *. clearbody R. nia.
Qed.

(** The verdict on every double. *)
Lemma verdict_within (d : spec_float) :
  valid_binary prec emax d = true -> verdict d = true <-> within d.
Proof.
  destruct d as [s|s| |s m e]; intros H; [by destruct s|by destruct s|by split|].
  destruct s.
  { split; [by left|intros _]. rewrite verdict_finite. apply normalize_negative.
    cbn [cond_Zopp]. lia. }
  apply valid_mantissa in H as (He & Hm & Hlo).
  destruct (Z.lt_trichotomy e (-69)) as [H|[->|H]].
  - destruct (verdict_below m e) as [H1 H2]; [done|lia|]. by split.
  - apply verdict_in. lia.
  - destruct (verdict_above m e) as [H1 H2]; [apply Hlo; lia|done|]. rewrite H1. by split.
Qed.

(** The constants: the doubles nearest to 0.00001 and 1e-13. *)
Lemma constants_nearest :
  2 * Z.abs (5902958103587057 * 10 ^ 5 - 2 ^ 69) <= 10 ^ 5 /\
  2 * Z.abs (7922816251426434 * 10 ^ 13 - 2 ^ 96) <= 10 ^ 13.
Proof. by vm_compute. Qed.
