(* ===== verification/Perf.v ===== *)
(** Timers: [TimerRecord] and [print_timer_records] (perf.cc, gazosan.h).

    Every [TimerRecord] is owned by [ctx.timer_records], which only grows, so a
    [TimerRecord*] is modelled by the record's index there. *)

From S2P Require Import Prelude StdLib.
From Stdlib Require Import SpecFloat.

(** ** Data *)

Record TimerRecord := mkTimerRecord {
  name : string;
  parent : option nat;
  children : list nat;
  start : Z;
  end_ : Z;
  user : Z;
  sys : Z;
  stopped : bool
}.

Abbreviation timers := (list TimerRecord).

Definition set_children (cs : list nat) (r : TimerRecord) : TimerRecord :=
  mkTimerRecord (name r) (parent r) cs (start r) (end_ r) (user r) (sys r) (stopped r).

Definition push_child (c : nat) (r : TimerRecord) : TimerRecord :=
  set_children (children r ++ [c]) r.

Definition set_parent (p : nat) (r : TimerRecord) : TimerRecord :=
  mkTimerRecord (name r) (Some p) (children r) (start r) (end_ r) (user r) (sys r) (stopped r).

(** ** Clocks *)

(** [now_nsec]: [t] is what [clock_gettime] stored, [(tv_sec, tv_nsec)].  The [i64] of the
    source does not overflow for clocks below 2^33 seconds
    ([PerfForest.clock_no_overflow]). *)
Definition now_nsec (t : Z * Z) : Z := t.1 * 1000000000 + t.2.

(** The lambda of [get_usage] on a [timeval] [(tv_sec, tv_usec)]. *)
Definition to_nsec (t : Z * Z) : Z := t.1 * 1000000000 + t.2 * 1000.

(** [get_usage]: [ru] is [(ru_utime, ru_stime)]. *)
Definition get_usage (ru : (Z * Z) * (Z * Z)) : Z * Z := (to_nsec ru.1, to_nsec ru.2).

(** ** Operations *)

Section Operations.
(** [TimerRecord::TimerRecord], followed by the [push_back] of [Timer]. *)
Definition TimerRecord_new (now : Z) (usage : Z * Z) (nm : string) (par : option nat)
    (ts : timers) : timers :=
  match par with Some p => alter (push_child (length ts)) p ts | None => ts end ++
  [mkTimerRecord nm par [] now 0 usage.1 usage.2 false].

(** The body of [TimerRecord::stop] past its guard. *)
Definition stop_record (now : Z) (usage : Z * Z) (r : TimerRecord) : TimerRecord :=
  mkTimerRecord (name r) (parent r) (children r) (start r) now
    (usage.1 - user r) (usage.2 - sys r) true.

(** [TimerRecord::stop] *)
Definition TimerRecord_stop (now : Z) (usage : Z * Z) (r : TimerRecord) : TimerRecord :=
  if stopped r then r else stop_record now usage r.

(** The comparison of the sort in [print_rec]. *)
Definition start_of (ts : timers) (i : nat) : Z :=
  match ts !! i with Some r => start r | None => 0 end.

Definition start_lt (ts : timers) (a b : nat) : bool := start_of ts a <? start_of ts b.

(** The arguments of [printf] in [print_rec]. *)
Definition print_line (r : TimerRecord) (indent : Z) : string :=
  " " +:+ format_8_3f (double_div (double_of_Z (user r)) (double_of_Z 1000000000)) +:+
  " " +:+ format_8_3f (double_div (double_of_Z (sys r)) (double_of_Z 1000000000)) +:+
  " " +:+ format_8_3f (double_div (double_sub (double_of_Z (end_ r)) (double_of_Z (start r)))
                         (double_of_Z 1000000000)) +:+
  "  " +:+ spaces (Z.to_nat (indent * 2)) +:+ name r +:+ newline.

Context {SS : StdSort}.

(** [print_rec]; it sorts [rec.children] in place.  The state is the records and
    the lines printed so far. *)
Fixpoint print_rec (fuel : nat) (i : nat) (indent : Z) (st : timers * list string) :
    exc (timers * list string) :=
  match fuel with
  | O => inl OutOfFuel
  | S fuel =>
      r ← deref (st.1 !! i);
      let cs := std_sort (start_lt st.1) (children r) in
      for_each cs (fun c => print_rec fuel c (indent + 1))
        (alter (set_children cs) i st.1, st.2 ++ [print_line r indent])
  end.

(** The search of [print_timer_records] for the nearest enclosing record before
    index [j]: [for (j = i - 1; j >= 0; j--)]. *)
Fixpoint find_outer (ts : timers) (inner : TimerRecord) (j : nat) : option nat :=
  match j with
  | O => None
  | S j =>
      match ts !! j with
      | Some outer =>
          if (start outer <=? start inner) && (end_ inner <=? end_ outer)
          then Some j else find_outer ts inner j
      | None => find_outer ts inner j
      end
  end.

(** One iteration of the loop that links the records without a parent. *)
Definition link_one (i : nat) (ts : timers) : exc timers :=
  inner ← deref (ts !! i);
  match parent inner with
  | Some _ => mret ts
  | None =>
      match find_outer ts inner i with
      | Some j => mret (alter (push_child i) j (alter (set_parent j) i ts))
      | None => mret ts
      end
  end.

Definition link_all (ts : timers) : exc timers :=
  for_each (seq 0 (length ts)) link_one ts.

(** The loop over the roots. *)
Definition print_root (fuel : nat) (i : nat) (st : timers * list string) :
    exc (timers * list string) :=
  r ← deref (st.1 !! i);
  match parent r with
  | Some _ => mret st
  | None => print_rec fuel i 0 st
  end.

Definition print_header : string :=
  "     User   System     Real  Name" +:+ newline.

(** [print_timer_records] after every record was stopped. *)
Definition print_stopped (ts : timers) : exc (timers * list string) :=
  ts' ← link_all ts;
  for_each (seq 0 (length ts')) (print_root (length ts')) (ts', [print_header]).
End Operations.
