(* ===== verification/PerfForest.v ===== *)
(** The forest of timer records: the invariant that the operations of Perf.v
    keep, and the proof that the report prints every record exactly once. *)

From S2P Require Import Prelude StdLib Perf.


(** ** The invariant *)

(** A parent comes before its children, and the two links agree. *)
Record wf_at (ts : timers) (i : nat) (r : TimerRecord) : Prop := {
  wf_parent p : parent r = Some p ->
    (p < i)%nat /\ exists rp, ts !! p = Some rp /\ i ∈ children rp;
  wf_nodup : NoDup (children r);
  wf_child c : c ∈ children r -> exists rc, ts !! c = Some rc /\ parent rc = Some i
}.

Definition wf (ts : timers) : Prop := forall i r, ts !! i = Some r -> wf_at ts i r.

(** [p] is the parent of [j]. *)
Definition parent_of (ts : timers) (j p : nat) : Prop :=
  exists r, ts !! j = Some r /\ parent r = Some p.

(** [i] is the ancestor of [j] at distance [n]. *)
Definition ancestor (ts : timers) (n : nat) : relation nat := nsteps (parent_of ts) n.

Definition root (ts : timers) (i : nat) : Prop :=
  exists r, ts !! i = Some r /\ parent r = None.

Section Forest.
Implicit Types ts : timers.

Lemma parent_of_fun ts j p q : parent_of ts j p -> parent_of ts j q -> p = q.
Proof. intros (? & ? & ?) (? & ? & ?). congruence. Qed.

Lemma parent_of_lt ts j p : wf ts -> parent_of ts j p -> (p < j)%nat.
Proof. intros W (r & Hr & Hp). by apply (wf_parent _ _ _ (W j r Hr)). Qed.

Lemma ancestor_le ts n j i : wf ts -> ancestor ts n j i -> (i + n <= j)%nat.
Proof.
  intros W. induction 1 as [|n x y z Hp ? IH]; [lia|].
  apply (parent_of_lt _ _ _ W) in Hp. lia.
Qed.

Lemma ancestor_det ts n m j a b :
  ancestor ts n j a -> ancestor ts (n + m) j b -> ancestor ts m a b.
Proof.
  intros Ha. revert b. induction Ha as [|n x y z Hp ? IH]; intros b Hb; [done|].
  inversion Hb as [|? ? y' ? Hp' Hrest]; subst.
  rewrite (parent_of_fun _ _ _ _ Hp Hp') in *. auto.
Qed.

(** Two siblings, or two roots, share no descendant. *)
Lemma descendant_unique ts n n' j a b :
  wf ts -> ancestor ts n j a -> ancestor ts n' j b ->
  (root ts a /\ root ts b \/ exists i, parent_of ts a i /\ parent_of ts b i) -> a = b.
Proof.
  assert (forall n m a b, wf ts -> ancestor ts n j a -> ancestor ts (n + m) j b ->
    (root ts a /\ root ts b \/ exists i, parent_of ts a i /\ parent_of ts b i) -> a = b)
    as Hle.
  { clear. intros n m a b W Ha Hb Hor. pose proof (ancestor_det _ _ _ _ _ _ Ha Hb) as Hab.
    inversion Hab as [|m' ? y ? Hp Hrest]; subst; [done|exfalso].
    destruct Hor as [[(r & Hr & Hn) _]|(i & Hai & Hbi)].
    - destruct Hp as (? & ? & ?). congruence.
    - rewrite (parent_of_fun _ _ _ _ Hp Hai) in *.
      apply (ancestor_le _ _ _ _ W) in Hrest. apply (parent_of_lt _ _ _ W) in Hbi. lia. }
  intros W Ha Hb Hor. destruct (Nat.le_ge_cases n n') as [Hn|Hn].
  - apply (Hle n (n' - n)%nat); [done|done| |done]. by rewrite Nat.add_comm, Nat.sub_add.
  - symmetry. apply (Hle n' (n - n')%nat); [done|done| |].
    + by rewrite Nat.add_comm, Nat.sub_add.
    + destruct Hor as [[]|(i & ? & ?)]; eauto.
Qed.

Lemma root_ancestor ts j :
  wf ts -> (j < length ts)%nat -> exists n i, ancestor ts n j i /\ root ts i.
Proof.
  intros W. induction (lt_wf j) as [j _ IH]; intros Hj.
  destruct (lookup_lt_is_Some_2 ts j Hj) as [r Hr].
  destruct (parent r) as [p|] eqn:Hp.
  - destruct (wf_parent _ _ _ (W j r Hr) p Hp) as (Hlt & rp & Hrp & _).
    destruct (IH p Hlt (lookup_lt_Some _ _ _ Hrp)) as (n & i & Ha & Hroot).
    exists (Datatypes.S n), i. split; [|done]. econstructor; [|exact Ha]. by exists r.
  - exists 0%nat, j. split; [constructor|]. by exists r.
Qed.
End Forest.

(** ** The operations keep the invariant *)

Section Preservation.
Implicit Types ts : timers.

(** Changing one record without touching its links. *)
Lemma wf_alter ts i f :
  (forall r, parent (f r) = parent r /\ children (f r) = children r) ->
  wf ts -> wf (alter f i ts).
Proof.
  intros Hf W j r Hr. rewrite list_lookup_alter in Hr.
  assert (exists r0, ts !! j = Some r0 /\ parent r0 = parent r /\ children r0 = children r)
    as (r0 & Hr0 & Hp & Hc).
  { case_decide; subst; [|eauto]. apply fmap_Some in Hr as (r0 & ? & ->).
    destruct (Hf r0). by exists r0. }
  destruct (W j r0 Hr0) as [Hpar Hnd Hch].
  assert (forall k rk, ts !! k = Some rk -> exists rk', alter f i ts !! k = Some rk' /\
            parent rk' = parent rk /\ children rk' = children rk) as Hk.
  { intros k rk Hk. rewrite list_lookup_alter. destruct (Hf rk).
    destruct (decide (i = k)) as [->|]; rewrite Hk; cbn; [by exists (f rk)|by exists rk]. }
  split.
  - intros p E. rewrite <- Hp in E. destruct (Hpar p E) as (? & rp & Hrp & ?).
    split; [done|]. destruct (Hk p rp Hrp) as (rp' & ? & _ & E'). exists rp'.
    split; [done|]. by rewrite E'.
  - by rewrite <- Hc.
  - intros c Hin. rewrite <- Hc in Hin. destruct (Hch c Hin) as (rc & Hrc & E).
    destruct (Hk c rc Hrc) as (rc' & ? & E' & _). exists rc'. split; [done|congruence].
Qed.

Lemma wf_stop ts now usage i : wf ts -> wf (alter (TimerRecord_stop now usage) i ts).
Proof.
  apply wf_alter. intros r. unfold TimerRecord_stop. by destruct (stopped r).
Qed.

(** Giving record [i], which has no parent, the parent [p]. *)
Lemma wf_link ts i p r :
  wf ts -> ts !! i = Some r -> parent r = None -> (p < i)%nat ->
  wf (alter (push_child i) p (alter (set_parent p) i ts)).
Proof.
  intros W Hi Hpar Hlt.
  set (ts' := alter _ p _).
  assert (forall k, ts' !! k =
    (fun rk => if decide (k = p) then push_child i rk
               else if decide (k = i) then set_parent p rk else rk) <$> ts !! k) as Hk.
  { intros k. unfold ts'. destruct (decide (k = p)) as [->|Hkp].
    - rewrite list_lookup_alter_eq, list_lookup_alter_ne by lia. done.
    - rewrite list_lookup_alter_ne by done. destruct (decide (k = i)) as [->|Hki].
      + by rewrite list_lookup_alter_eq.
      + rewrite list_lookup_alter_ne by done. by destruct (ts !! k). }
  assert (forall q rq, ts !! q = Some rq -> i ∉ children rq) as Hfresh.
  { intros q rq Hq Hin. destruct (wf_child _ _ _ (W q rq Hq) i Hin) as (? & ? & ?).
    congruence. }
  intros j rj Hj. rewrite Hk in Hj. apply fmap_Some in Hj as (r0 & Hr0 & ->).
  destruct (W j r0 Hr0) as [Hp0 Hn0 Hc0]. split.
  - intros q Hq.
    assert ((j = i /\ q = p) \/ (j <> i /\ parent r0 = Some q)) as [[-> ->]|[Hji Hq0]].
    { destruct (decide (j = p)) as [->|]; [right; split; [lia|done]|].
      destruct (decide (j = i)) as [->|]; cbn in Hq; [|by right].
      left. split; congruence. }
    + split; [done|]. destruct (lookup_lt_is_Some_2 ts p) as [rp Hrp].
      { apply lookup_lt_Some in Hi. lia. }
      exists (push_child i rp). rewrite Hk, Hrp; cbn. rewrite decide_True by done.
      split; [done|]. set_solver.
    + destruct (Hp0 q Hq0) as (? & rq & Hrq & Hin). split; [done|].
      eexists. rewrite Hk, Hrq; cbn. split; [reflexivity|].
      repeat case_decide; subst; cbn; set_solver.
  - repeat case_decide; subst; cbn; try done.
    apply NoDup_app. split_and!; [done| |apply NoDup_singleton].
    intros x Hx ->%list_elem_of_singleton. by apply (Hfresh p r0).
  - intros c Hc.
    assert ((j = p /\ c = i) \/ c ∈ children r0) as [[-> ->]|Hc'].
    { repeat case_decide; subst; cbn in Hc; set_solver. }
    + exists (set_parent p r). rewrite Hk, Hi; cbn.
      rewrite decide_False, decide_True by lia. done.
    + destruct (Hc0 c Hc') as (rc & Hrc & Hpc). eexists. rewrite Hk, Hrc; cbn.
      split; [reflexivity|]. assert (c <> i) by congruence.
      repeat case_decide; subst; done.
Qed.

(** A new record. *)
Lemma wf_new ts now usage nm par :
  wf ts -> (forall p, par = Some p -> (p < length ts)%nat) ->
  wf (TimerRecord_new now usage nm par ts).
Proof.
  intros W Hpar. set (n := length ts).
  set (new := mkTimerRecord nm None [] now 0 usage.1 usage.2 false).
  assert (wf (ts ++ [new])) as W1.
  { intros i r Hr. apply lookup_app_Some in Hr as [Hr|[Hge Hr]].
    - destruct (W i r Hr) as [Hp Hnd Hc]. split; [|done|].
      + intros p E. destruct (Hp p E) as (? & rp & ? & ?). split; [done|].
        exists rp. split; [by apply lookup_app_l_Some|done].
      + intros c Hin. destruct (Hc c Hin) as (rc & ? & ?). exists rc.
        split; [by apply lookup_app_l_Some|done].
    - apply list_lookup_singleton_Some in Hr as [_ <-]. split; cbn; [done|constructor|].
      by intros c ?%elem_of_nil. }
  unfold TimerRecord_new. destruct par as [p|]; [|exact W1].
  specialize (Hpar p eq_refl).
  change (wf (alter (push_child n) p ts ++ [set_parent p new])).
  assert (alter (push_child n) p ts ++ [set_parent p new] =
          alter (push_child n) p (alter (set_parent p) n (ts ++ [new]))) as ->.
  { rewrite (alter_app_r_alt (set_parent p)) by done.
    rewrite alter_app_l by done. unfold n. by rewrite Nat.sub_diag. }
  apply (wf_link _ n p new); [done| |done|done].
  by rewrite lookup_app_r, Nat.sub_diag.
Qed.
End Preservation.

(** ** Linking *)

(** Everything of a record but its links. *)
Definition facts (r : TimerRecord) : string * Z * Z * Z * Z * bool :=
  (name r, start r, end_ r, user r, sys r, stopped r).

Definition encloses (outer inner : TimerRecord) : Prop :=
  start outer <= start inner /\ end_ inner <= end_ outer.

(** The parent of a record once linked: its own, or the nearest earlier record
    whose interval encloses its interval. *)
Definition linked_parent (ts : timers) (i : nat) (r : TimerRecord) (o : option nat) : Prop :=
  match parent r with
  | Some p => o = Some p
  | None =>
      match o with
      | Some k => (k < i)%nat /\ (exists rk, ts !! k = Some rk /\ encloses rk r) /\
          forall m rm, (k < m < i)%nat -> ts !! m = Some rm -> ~ encloses rm r
      | None => forall m rm, (m < i)%nat -> ts !! m = Some rm -> ~ encloses rm r
      end
  end.

Section Linking.
Implicit Types ts : timers.

Lemma facts_lookup ts ts' i r :
  facts <$> ts' = facts <$> ts -> ts !! i = Some r ->
  exists r', ts' !! i = Some r' /\ facts r' = facts r.
Proof.
  intros E Hr. assert ((facts <$> ts') !! i = Some (facts r)) as H
    by (by rewrite E, list_lookup_fmap, Hr).
  rewrite list_lookup_fmap in H. by apply fmap_Some in H as (r' & ? & ?); eauto.
Qed.

Lemma facts_alter ts i f :
  (forall r, facts (f r) = facts r) -> facts <$> alter f i ts = facts <$> ts.
Proof. apply list_alter_fmap_same. Qed.

Lemma find_outer_facts ts ts' r r' j :
  facts <$> ts' = facts <$> ts -> facts r' = facts r ->
  find_outer ts' r' j = find_outer ts r j.
Proof.
  intros E Er. injection Er as _ Hs He _ _ _. induction j as [|j IH]; cbn; [done|].
  destruct (ts !! j) as [rj|] eqn:Hj.
  - destruct (facts_lookup _ _ _ _ E Hj) as (rj' & -> & Ej).
    injection Ej as _ Hsj Hej _ _ _. by rewrite Hs, He, Hsj, Hej, IH.
  - assert (ts' !! j = None) as ->; [|done].
    destruct (ts' !! j) as [rj'|] eqn:Hj'; [|done].
    destruct (facts_lookup _ _ _ _ (eq_sym E) Hj') as (? & ? & _). congruence.
Qed.

Lemma find_outer_linked ts i r :
  parent r = None -> linked_parent ts i r (find_outer ts r i).
Proof.
  unfold linked_parent. intros ->.
  enough (forall j, match find_outer ts r j with
    | Some k => (k < j)%nat /\ (exists rk, ts !! k = Some rk /\ encloses rk r) /\
        forall m rm, (k < m < j)%nat -> ts !! m = Some rm -> ~ encloses rm r
    | None => forall m rm, (m < j)%nat -> ts !! m = Some rm -> ~ encloses rm r
    end) as H by apply H.
  induction j as [|j IH]; cbn; [lia|]. destruct (ts !! j) as [rj|] eqn:Hj.
  - destruct (_ && _) eqn:Eb.
    + split_and!; [lia| |lia]. exists rj. split; [done|]. unfold encloses. lia.
    + assert (forall rm, ts !! j = Some rm -> ~ encloses rm r) as Hno
        by (intros rm; rewrite Hj; intros [= <-]; unfold encloses; lia).
      destruct (find_outer ts r j) as [k|].
      * destruct IH as (? & ? & IH). split_and!; [lia|done|].
        intros m rm Hm. destruct (decide (m = j)) as [->|]; [apply Hno|].
        apply IH. lia.
      * intros m rm Hm. destruct (decide (m = j)) as [->|]; [apply Hno|].
        apply IH. lia.
  - destruct (find_outer ts r j) as [k|].
    + destruct IH as (? & ? & IH). split_and!; [lia|done|].
      intros m rm Hm Hrm. apply (IH m rm); [|done].
      assert (m <> j) by congruence. lia.
    + intros m rm Hm Hrm. apply (IH m rm); [|done].
      assert (m <> j) by congruence. lia.
Qed.

Lemma find_outer_lt ts r i k : find_outer ts r i = Some k -> (k < i)%nat.
Proof.
  induction i as [|i IH]; cbn; [done|].
  destruct (ts !! i) as [ri|]; [destruct (_ && _)|]; intros E;
    [injection E as ->; lia|apply IH in E; lia..].
Qed.

Lemma link_one_spec ts i r :
  wf ts -> ts !! i = Some r ->
  exists ts', link_one i ts = inr ts' /\ wf ts' /\ facts <$> ts' = facts <$> ts /\
    forall k, parent <$> ts' !! k =
      if decide (k = i)
      then Some (match parent r with Some p => Some p | None => find_outer ts r i end)
      else parent <$> ts !! k.
Proof.
  intros W Hr. unfold link_one. rewrite Hr; cbn.
  assert (forall o, parent r = o -> forall k, parent <$> ts !! k =
    if decide (k = i) then Some o else parent <$> ts !! k) as Hsame.
  { intros o <- k. case_decide; subst; [by rewrite Hr|done]. }
  destruct (parent r) as [p|] eqn:Hp; [by exists ts; auto|].
  destruct (find_outer ts r i) as [j|] eqn:Hj; [|by exists ts; auto].
  apply find_outer_lt in Hj. eexists. split; [reflexivity|]. split_and!.
  - by apply (wf_link ts i j r).
  - by rewrite !facts_alter.
  - intros k. destruct (decide (k = j)) as [->|Hkj].
    + rewrite list_lookup_alter_eq, list_lookup_alter_ne, decide_False by lia.
      by destruct (ts !! j).
    + rewrite list_lookup_alter_ne by done. destruct (decide (k = i)) as [->|].
      * by rewrite list_lookup_alter_eq, Hr.
      * by rewrite list_lookup_alter_ne.
Qed.

Lemma link_all_spec ts :
  wf ts ->
  exists ts', link_all ts = inr ts' /\ wf ts' /\ facts <$> ts' = facts <$> ts /\
    forall i r, ts !! i = Some r ->
      exists r', ts' !! i = Some r' /\ linked_parent ts i r (parent r').
Proof.
  intros W. unfold link_all.
  destruct (for_each_inv
    (fun done_ ts' => wf ts' /\ facts <$> ts' = facts <$> ts /\
       forall k, parent <$> ts' !! k = if decide (k ∈ done_)
         then (fun r => match parent r with Some p => Some p | None => find_outer ts r k end)
                <$> ts !! k
         else parent <$> ts !! k)
    (seq 0 (length ts)) link_one ts) as (ts' & E & W' & F & Hpar).
  - split_and!; [done|done|]. intros k. rewrite decide_False; [done|]. set_solver.
  - intros done_ i rest ts1 Hseq (W1 & F1 & Hpar1).
    assert (i < length ts)%nat as Hi.
    { enough (i ∈ seq 0 (length ts)) by (apply elem_of_seq in H; lia).
      rewrite Hseq. set_solver. }
    assert (i ∉ done_) as Hnew.
    { pose proof (NoDup_seq 0 (length ts)) as ND. rewrite Hseq in ND.
      apply NoDup_app in ND as (_ & ND & _). intros Hin. apply (ND i Hin). by left. }
    destruct (lookup_lt_is_Some_2 ts i Hi) as [r Hr].
    destruct (facts_lookup _ _ _ _ F1 Hr) as (r1 & Hr1 & Fr).
    pose proof (Hpar1 i) as Hp1. rewrite decide_False, Hr, Hr1 in Hp1 by done.
    cbn in Hp1. injection Hp1 as Hp1.
    destruct (link_one_spec ts1 i r1 W1 Hr1) as (ts2 & E2 & W2 & F2 & Hpar2).
    exists ts2. split_and!; [done|done|congruence|]. intros k. rewrite Hpar2.
    destruct (decide (k = i)) as [->|Hk].
    + rewrite decide_True, Hr by set_solver. cbn.
      by rewrite Hp1, (find_outer_facts ts ts1 r r1 i F1 Fr).
    + rewrite Hpar1. destruct (decide (k ∈ done_)), (decide (k ∈ done_ ++ [i])); try done;
        set_solver.
  - exists ts'. split_and!; [done|done|done|]. intros i r Hr.
    destruct (facts_lookup _ _ _ _ F Hr) as (r' & Hr' & _). exists r'. split; [done|].
    specialize (Hpar i). rewrite decide_True in Hpar.
    2: { apply elem_of_seq. apply lookup_lt_Some in Hr. lia. }
    rewrite Hr, Hr' in Hpar. cbn in Hpar. injection Hpar as ->.
    destruct (parent r) eqn:Hp; [by unfold linked_parent; rewrite Hp|].
    by apply find_outer_linked.
Qed.
End Linking.

(** ** Printing *)

(** [ts'] is [ts] with some lists of children reordered. *)
Definition reordered (ts ts' : timers) : Prop :=
  Forall2 (fun r r' => exists cs, Permutation cs (children r) /\ r' = set_children cs r) ts ts'.

(** The line of record [j] at depth [e], when there is such a record. *)
Definition line_at (ts : timers) (p : nat * Z) : option string :=
  (fun r => print_line r p.2) <$> ts !! p.1.

(** [lines] are the lines of the records and depths of [ord], in this order. *)
Definition report_lines (ts : timers) (ord : list (nat * Z)) (lines : list string) : Prop :=
  Forall2 (fun p line => line_at ts p = Some line) ord lines.

Definition sorted_at (ts : timers) (i : nat) : Prop :=
  forall r, ts !! i = Some r ->
    StronglySorted (fun a b => start_of ts a <= start_of ts b) (children r).

Section Reordered.
Implicit Types ts : timers.

Lemma reordered_refl ts : reordered ts ts.
Proof.
  apply Forall_Forall2_diag, Forall_true. intros r. exists (children r).
  split; [done|]. by destruct r.
Qed.

Lemma reordered_trans ts1 ts2 ts3 :
  reordered ts1 ts2 -> reordered ts2 ts3 -> reordered ts1 ts3.
Proof.
  intros H1. revert ts3. induction H1 as [|r1 r2 ts1 ts2 (cs & P & ->) ? IH];
    intros ts3 H2; inversion H2 as [|? r3 ? ? (cs' & P' & ->)]; subst; constructor.
  - exists cs'. split; [|done]. cbn in P'. by rewrite P'.
  - by apply IH.
Qed.

Lemma reordered_lookup ts ts' i r :
  reordered ts ts' -> ts !! i = Some r ->
  exists cs, Permutation cs (children r) /\ ts' !! i = Some (set_children cs r).
Proof.
  intros H Hr. destruct (Forall2_lookup_l _ _ _ _ _ H Hr) as (r' & ? & cs & ? & ->). eauto.
Qed.

Lemma reordered_lookup_inv ts ts' i r' :
  reordered ts ts' -> ts' !! i = Some r' ->
  exists r, ts !! i = Some r /\ Permutation (children r') (children r) /\
    r' = set_children (children r') r.
Proof.
  intros H Hr. destruct (Forall2_lookup_r _ _ _ _ _ H Hr) as (r & ? & cs & ? & ->). eauto.
Qed.

Lemma reordered_alter ts i r cs :
  ts !! i = Some r -> Permutation cs (children r) ->
  reordered ts (alter (set_children cs) i ts).
Proof.
  intros Hr P. apply Forall2_same_length_lookup. split; [by rewrite length_alter|].
  intros k rk rk' Hk Hk'. rewrite list_lookup_alter in Hk'.
  case_decide; subst.
  - rewrite Hr in Hk, Hk'. cbn in Hk'. simplify_eq. eauto.
  - rewrite Hk in Hk'. simplify_eq. exists (children rk'). split; [done|]. by destruct rk'.
Qed.

Lemma parent_of_reordered ts ts' j p :
  reordered ts ts' -> parent_of ts' j p <-> parent_of ts j p.
Proof.
  intros H. split.
  - intros (r' & Hr' & Hp). destruct (reordered_lookup_inv _ _ _ _ H Hr') as (r & ? & _ & E).
    exists r. split; [done|]. by rewrite E in Hp.
  - intros (r & Hr & Hp). destruct (reordered_lookup _ _ _ _ H Hr) as (cs & _ & ?).
    by eexists.
Qed.

Lemma ancestor_reordered ts ts' n j i :
  reordered ts ts' -> ancestor ts' n j i <-> ancestor ts n j i.
Proof.
  intros H. unfold ancestor.
  split; (induction 1; econstructor; [|done]; by apply (parent_of_reordered _ _ _ _ H)).
Qed.

Lemma start_of_reordered ts ts' i : reordered ts ts' -> start_of ts' i = start_of ts i.
Proof.
  intros H. unfold start_of. destruct (ts !! i) as [r|] eqn:Hr.
  - by destruct (reordered_lookup _ _ _ _ H Hr) as (cs & _ & ->).
  - apply lookup_ge_None in Hr. rewrite lookup_ge_None_2; [done|].
    by rewrite <- (Forall2_length _ _ _ H).
Qed.

Lemma line_at_reordered ts ts' p : reordered ts ts' -> line_at ts' p = line_at ts p.
Proof.
  intros H. unfold line_at. destruct (ts !! p.1) as [r|] eqn:Hr.
  - by destruct (reordered_lookup _ _ _ _ H Hr) as (cs & _ & ->).
  - apply lookup_ge_None in Hr. rewrite lookup_ge_None_2; [done|].
    by rewrite <- (Forall2_length _ _ _ H).
Qed.

Lemma report_lines_reordered ts ts' ord lines :
  reordered ts ts' -> report_lines ts ord lines <-> report_lines ts' ord lines.
Proof.
  intros H. split; intros Hl; (eapply Forall2_impl; [exact Hl|]); intros p line; cbn;
    by rewrite (line_at_reordered ts ts' p H).
Qed.

Lemma root_reordered ts ts' i : reordered ts ts' -> root ts' i <-> root ts i.
Proof.
  intros H. split.
  - intros (r' & Hr' & Hp). destruct (reordered_lookup_inv _ _ _ _ H Hr') as (r & ? & _ & E).
    exists r. split; [done|]. by rewrite E in Hp.
  - intros (r & Hr & Hp). destruct (reordered_lookup _ _ _ _ H Hr) as (cs & _ & ?). by eexists.
Qed.

Lemma facts_reordered ts ts' : reordered ts ts' -> facts <$> ts' = facts <$> ts.
Proof. induction 1 as [|r r' ts ts' (cs & _ & ->) _ IH]; [done|]. cbn. by rewrite IH. Qed.

Lemma wf_reordered ts ts' : reordered ts ts' -> wf ts -> wf ts'.
Proof.
  intros H W i r' Hr'.
  destruct (reordered_lookup_inv _ _ _ _ H Hr') as (r & Hr & P & E).
  destruct (W i r Hr) as [Hp Hnd Hc]. split.
  - intros p Hpp. rewrite E in Hpp. destruct (Hp p Hpp) as (? & rp & Hrp & Hin).
    split; [done|]. destruct (reordered_lookup _ _ _ _ H Hrp) as (cs & P' & ?).
    eexists. split; [done|]. cbn. by rewrite P'.
  - by rewrite P.
  - intros c Hin. rewrite P in Hin. destruct (Hc c Hin) as (rc & Hrc & ?).
    destruct (reordered_lookup _ _ _ _ H Hrc) as (cs & _ & ?). by eexists.
Qed.

Lemma sorted_at_ext ts ts' i :
  reordered ts ts' -> ts' !! i = ts !! i -> sorted_at ts i -> sorted_at ts' i.
Proof.
  intros H E Hs r Hr. rewrite E in Hr. specialize (Hs r Hr).
  eapply sorted_impl; [|exact Hs]. intros a b. cbn.
  by rewrite !(start_of_reordered ts ts' _ H).
Qed.
End Reordered.

(** What printing a set [D] of records (with their depths) did: the lines are
    appended in an order [ord] that lists [D], each record once; their children
    are sorted, and the other records are untouched. *)
Record printed (ts : timers) (out : list string) (D : nat -> Z -> Prop)
    (ts' : timers) (out' : list string) (ord : list (nat * Z)) : Prop := {
  pr_reordered : reordered ts ts';
  pr_lines : exists lines, out' = out ++ lines /\ report_lines ts ord lines;
  pr_nodup : NoDup ord.*1;
  pr_mem j e : (j, e) ∈ ord <-> D j e;
  pr_sorted j : j ∈ ord.*1 -> sorted_at ts' j;
  pr_frame j : j ∉ ord.*1 -> ts' !! j = ts !! j
}.

(** The descendants of [i], itself included, when [i] is at depth [d]. *)
Definition subtree (ts : timers) (i : nat) (d : Z) (j : nat) (e : Z) : Prop :=
  exists n, ancestor ts n j i /\ e = d + Z.of_nat n.

Section Printing.
Context {SS : StdSort} {SL : StdSortLaws SS}.
Implicit Types ts : timers.

Lemma printed_nil ts out : printed ts out (fun _ _ => False) ts out [].
Proof.
  split; [apply reordered_refl|exists []; rewrite app_nil_r; by split; [|constructor]|constructor|..].
  - intros j e. split; [by intros ?%elem_of_nil|done].
  - by intros j ?%elem_of_nil.
  - done.
Qed.

Lemma printed_ext ts out D D' ts' out' ord :
  (forall j e, D j e <-> D' j e) -> printed ts out D ts' out' ord ->
  printed ts out D' ts' out' ord.
Proof. intros HD []. split; try done. intros j e. by rewrite pr_mem0. Qed.

Lemma elem_of_fst (ord : list (nat * Z)) j : j ∈ ord.*1 <-> exists e, (j, e) ∈ ord.
Proof.
  rewrite list_elem_of_fmap. split.
  - intros ([j' e] & -> & ?). by exists e.
  - intros (e & ?). by exists (j, e).
Qed.

(** Printing two disjoint sets, one after the other. *)
Lemma printed_app ts out D1 D2 ts1 out1 ord1 ts2 out2 ord2 :
  printed ts out D1 ts1 out1 ord1 -> printed ts1 out1 D2 ts2 out2 ord2 ->
  (forall j e1 e2, D1 j e1 -> D2 j e2 -> False) ->
  printed ts out (fun j e => D1 j e \/ D2 j e) ts2 out2 (ord1 ++ ord2).
Proof.
  intros P1 P2 Hdisj.
  assert (forall j, j ∈ ord1.*1 -> j ∉ ord2.*1) as Hd.
  { intros j (e1 & H1%(pr_mem _ _ _ _ _ _ P1))%elem_of_fst
      (e2 & H2%(pr_mem _ _ _ _ _ _ P2))%elem_of_fst. by apply (Hdisj j e1 e2). }
  split.
  - eapply reordered_trans; [apply P1|apply P2].
  - destruct (pr_lines _ _ _ _ _ _ P1) as (l1 & -> & H1), (pr_lines _ _ _ _ _ _ P2) as (l2 & -> & H2).
    exists (l1 ++ l2). rewrite <- app_assoc. split; [done|]. apply Forall2_app; [done|].
    apply (report_lines_reordered ts ts1); [apply P1|done].
  - rewrite fmap_app. apply NoDup_app. split_and!; [apply P1|done|apply P2].
  - intros j e. by rewrite elem_of_app, (pr_mem _ _ _ _ _ _ P1), (pr_mem _ _ _ _ _ _ P2).
  - intros j. rewrite fmap_app, elem_of_app. intros [Hj|Hj].
    + apply (sorted_at_ext ts1); [apply P2|by apply P2, Hd|by apply P1].
    + by apply P2.
  - intros j. rewrite fmap_app, not_elem_of_app. intros [? ?].
    by rewrite (pr_frame _ _ _ _ _ _ P2), (pr_frame _ _ _ _ _ _ P1).
Qed.

(** Printing the record itself, its children sorted. *)
Lemma printed_self ts out i r d :
  ts !! i = Some r ->
  printed ts out (fun j e => j = i /\ e = d)
    (alter (set_children (std_sort (start_lt ts) (children r))) i ts)
    (out ++ [print_line r d]) [(i, d)].
Proof.
  intros Hr. set (cs := std_sort _ _).
  assert (Permutation cs (children r)) as P by apply std_sort_perm.
  pose proof (reordered_alter ts i r cs Hr P) as R. split.
  - done.
  - exists [print_line r d]. split; [done|]. repeat constructor. unfold line_at; cbn. by rewrite Hr.
  - apply NoDup_singleton.
  - intros j e. rewrite list_elem_of_singleton. split; [by intros [= -> ->]|by intros [-> ->]].
  - intros j ->%list_elem_of_singleton r' Hr'. cbn in Hr'.
    rewrite list_lookup_alter_eq, Hr in Hr'. injection Hr' as <-. cbn.
    pose proof (std_sort_sorted (start_lt ts) (children r) (swo_key (start_of ts))) as Hs.
    eapply sorted_impl; [|exact Hs]. intros a b. cbn.
    rewrite !(start_of_reordered _ _ _ R). unfold start_lt. by rewrite Z.ltb_ge.
  - intros j Hj. cbn in Hj. rewrite list_lookup_alter_ne; [done|]. set_solver.
Qed.

Lemma subtree_unfold ts i r d j e :
  wf ts -> ts !! i = Some r ->
  subtree ts i d j e <->
  (j = i /\ e = d) \/ exists c, c ∈ children r /\ subtree ts c (d + 1) j e.
Proof.
  intros W Hr. split.
  - intros ([|n] & Ha & ->).
    + left. inversion Ha; subst. split; [done|lia].
    + right. apply nsteps_inv_r in Ha as (c & Ha & (rc & Hrc & Hp)). exists c. split.
      * destruct (wf_parent _ _ _ (W c rc Hrc) i Hp) as (_ & r0 & ? & ?). congruence.
      * exists n. split; [done|lia].
  - intros [[-> ->]|(c & Hc & n & Ha & ->)].
    + exists 0%nat. split; [constructor|lia].
    + exists (Datatypes.S n). split; [|lia]. eapply nsteps_r; [exact Ha|].
      by apply (wf_child _ _ _ (W i r Hr)).
Qed.

Lemma print_rec_spec fuel ts i d out :
  wf ts -> (i < length ts)%nat -> (length ts <= fuel + i)%nat ->
  exists ts' out' ord, print_rec fuel i d (ts, out) = inr (ts', out') /\
    printed ts out (subtree ts i d) ts' out' ord.
Proof.
  revert ts i d out. induction fuel as [|fuel IH]; intros ts i d out W Hi Hfuel; [lia|].
  destruct (lookup_lt_is_Some_2 ts i Hi) as [r Hr]. cbn. rewrite Hr; cbn.
  set (cs := std_sort (start_lt ts) (children r)).
  assert (Permutation cs (children r)) as P by apply std_sort_perm.
  assert (NoDup cs) as ND by (rewrite P; apply (W i r Hr)).
  destruct (for_each_inv
    (fun done_ st => exists ord, printed ts out
       (fun j e => (j = i /\ e = d) \/ exists c, c ∈ done_ /\ subtree ts c (d + 1) j e)
       st.1 st.2 ord)
    cs (fun c => print_rec fuel c (d + 1))
    (alter (set_children cs) i ts, out ++ [print_line r d])) as ([ts' out'] & E & ord & Pr).
  - exists [(i, d)]. eapply printed_ext; [|by apply printed_self].
    intros j e. split; [by left|]. intros [?|(c & Hc & _)]; [done|]. by apply elem_of_nil in Hc.
  - intros done_ c rest [ts1 out1] Hcs (ord1 & P1). cbn in P1.
    pose proof (pr_reordered _ _ _ _ _ _ P1) as R.
    assert (c ∈ children r) as Hc by (rewrite <- P, Hcs; set_solver).
    destruct (wf_child _ _ _ (W i r Hr) c Hc) as (rc & Hrc & Hpc).
    assert (i < c)%nat as Hic by (apply (parent_of_lt ts c i W); by exists rc).
    destruct (IH ts1 c (d + 1) out1) as (ts2 & out2 & ord2 & E2 & P2).
    + by apply (wf_reordered ts).
    + rewrite <- (Forall2_length _ _ _ R). by apply lookup_lt_Some in Hrc.
    + rewrite <- (Forall2_length _ _ _ R). lia.
    + exists (ts2, out2). split; [done|]. exists (ord1 ++ ord2).
      eapply printed_ext; [|eapply (printed_app _ _ _ (subtree ts c (d + 1)));
        [exact P1| |]].
      * intros j e. setoid_rewrite elem_of_app. setoid_rewrite list_elem_of_singleton.
        split; [intros [[?|(c' & ? & ?)]|?]|intros [?|(c' & [?| ->] & ?)]]; eauto 6.
      * eapply printed_ext; [|exact P2]. intros j e. unfold subtree.
        by setoid_rewrite (ancestor_reordered _ _ _ _ _ R).
      * intros j e1 e2 [[-> _]|(c' & Hc' & n1 & H1 & _)] (n2 & H2 & _).
        -- apply (ancestor_le _ _ _ _ W) in H2. lia.
        -- assert (c' ∈ children r) as Hch' by (rewrite <- P, Hcs; set_solver).
           assert (c' = c) as ->.
           { apply (descendant_unique ts n1 n2 j); [done|done|done|]. right. exists i.
             split; by apply (wf_child _ _ _ (W i r Hr)). }
           rewrite Hcs in ND. apply NoDup_app in ND as (_ & ND & _).
           apply (ND c Hc'). by left.
  - exists ts', out', ord. split; [exact E|]. eapply printed_ext; [|exact Pr].
    intros j e. rewrite (subtree_unfold ts i r d j e W Hr). by setoid_rewrite P.
Qed.

(** The loop over the roots prints every record. *)
Lemma print_roots_spec ts out :
  wf ts ->
  exists ts' out' ord,
    for_each (seq 0 (length ts)) (print_root (length ts)) (ts, out) = inr (ts', out') /\
    printed ts out (fun j e => exists i n, root ts i /\ ancestor ts n j i /\ e = Z.of_nat n)
      ts' out' ord.
Proof.
  intros W.
  destruct (for_each_inv
    (fun done_ st => exists ord, printed ts out
       (fun j e => exists i, i ∈ done_ /\ root ts i /\ subtree ts i 0 j e) st.1 st.2 ord)
    (seq 0 (length ts)) (print_root (length ts)) (ts, out)) as ([ts' out'] & E & ord & P).
  - exists []. eapply printed_ext; [|apply printed_nil]. intros j e. split; [done|].
    intros (i & Hi & _). by apply elem_of_nil in Hi.
  - intros done_ i rest [ts1 out1] Hseq (ord1 & P1). cbn in P1.
    pose proof (pr_reordered _ _ _ _ _ _ P1) as R.
    assert (i ∈ seq 0 (length ts)) as Hi by (rewrite Hseq; set_solver).
    apply elem_of_seq in Hi. cbn in Hi. destruct Hi as [_ Hi].
    destruct (lookup_lt_is_Some_2 ts i Hi) as [r Hr].
    destruct (reordered_lookup _ _ _ _ R Hr) as (cs & _ & Hr1).
    unfold print_root; cbn. rewrite Hr1; cbn.
    destruct (parent r) as [p|] eqn:Hp.
    + exists (ts1, out1). split; [done|]. exists ord1. eapply printed_ext; [|exact P1].
      intros j e. setoid_rewrite elem_of_app. setoid_rewrite list_elem_of_singleton.
      split; [intros (k & ? & ?); eauto|].
      intros (k & [?| ->] & (r' & ? & ?) & ?); [eexists; repeat split; eauto; by exists r'|].
      congruence.
    + destruct (print_rec_spec (length ts) ts1 i 0 out1) as (ts2 & out2 & ord2 & E2 & P2).
      * by apply (wf_reordered ts).
      * by rewrite <- (Forall2_length _ _ _ R).
      * rewrite <- (Forall2_length _ _ _ R). lia.
      * exists (ts2, out2). split; [done|]. exists (ord1 ++ ord2).
        eapply printed_ext; [|eapply (printed_app _ _ _ (subtree ts i 0)); [exact P1| |]].
        -- intros j e. setoid_rewrite elem_of_app. setoid_rewrite list_elem_of_singleton.
           split; [intros [(k & ? & ? & ?)|?]|intros (k & [?| ->] & ? & ?)]; eauto 6.
           exists i. split_and!; [by right|by exists r|done].
        -- eapply printed_ext; [|exact P2]. intros j e. unfold subtree.
           by setoid_rewrite (ancestor_reordered _ _ _ _ _ R).
        -- intros j e1 e2 (k & Hk & Hroot & n1 & H1 & _) (n2 & H2 & _).
           assert (k = i) as ->.
           { apply (descendant_unique ts n1 n2 j); [done|done|done|]. left.
             split; [done|by exists r]. }
           pose proof (NoDup_seq 0 (length ts)) as ND. rewrite Hseq in ND.
           apply NoDup_app in ND as (_ & ND & _). apply (ND i Hk). by left.
  - exists ts', out', ord. split; [exact E|]. eapply printed_ext; [|exact P].
    intros j e. split.
    + intros (i & _ & Hroot & n & Ha & ->). exists i, n. split_and!; [done|done|lia].
    + intros (i & n & Hroot & Ha & ->). exists i. split_and!; [|done|].
      * apply elem_of_seq. destruct Hroot as (r & Hr & _). apply lookup_lt_Some in Hr. lia.
      * exists n. split; [done|lia].
Qed.
End Printing.

(** ** Properties *)

(** The records a program can build: [Timer]s are constructed, under a parent that
    exists, and stopped, with any readings of the clocks. *)
Inductive timers_reachable : timers -> Prop :=
  | reach_none : timers_reachable []
  | reach_new ts now usage nm par :
      timers_reachable ts -> (forall p, par = Some p -> (p < length ts)%nat) ->
      timers_reachable (TimerRecord_new now usage nm par ts)
  | reach_stop ts now usage i :
      timers_reachable ts -> timers_reachable (alter (TimerRecord_stop now usage) i ts).

Section Properties.
Context {SS : StdSort} {SL : StdSortLaws SS}.
Implicit Types ts : timers.

Lemma reachable_wf ts : timers_reachable ts -> wf ts.
Proof.
  induction 1; [by intros ? ? ?|by apply wf_new|by apply wf_stop].
Qed.

(** C29 In every state the timers can reach, and after the linking of the report,
    the records form a forest: a parent has a smaller index than its child, a
    record is in the list of children of its parent, once, and in no other. *)
Theorem timers_forest ts :
  timers_reachable ts ->
  wf ts /\ exists ts', link_all ts = inr ts' /\ wf ts'.
Proof.
  intros R. apply reachable_wf in R. split; [done|].
  destruct (link_all_spec ts R) as (ts' & ? & ? & _). by exists ts'.
Qed.

(** Linking gives a record without a parent the nearest earlier record whose
    interval encloses its own, when there is one; it keeps the parents that
    exist and all names and times. *)
Theorem link_nearest_enclosing ts :
  timers_reachable ts ->
  exists ts', link_all ts = inr ts' /\ facts <$> ts' = facts <$> ts /\
    forall i r, ts !! i = Some r ->
      exists r', ts' !! i = Some r' /\ linked_parent ts i r (parent r').
Proof.
  intros R%reachable_wf. destruct (link_all_spec ts R) as (ts' & ? & _ & ? & ?).
  by exists ts'.
Qed.

(** The report on reachable timers. *)
Lemma report_spec ts :
  timers_reachable ts ->
  exists ts1 ts2 ord lines,
    link_all ts = inr ts1 /\
    print_stopped ts = inr (ts2, print_header :: lines) /\ report_lines ts1 ord lines /\
    Permutation ord.*1 (seq 0 (length ts)) /\
    (forall j e, (j, e) ∈ ord <-> exists i n, root ts1 i /\ ancestor ts1 n j i /\ e = Z.of_nat n) /\
    (forall i, sorted_at ts2 i) /\ reordered ts1 ts2 /\ facts <$> ts1 = facts <$> ts.
Proof.
  intros R%reachable_wf. destruct (link_all_spec ts R) as (ts1 & E1 & W1 & F & _).
  assert (length ts1 = length ts) as Hlen
    by (rewrite <- (length_fmap facts ts1), F; apply length_fmap).
  destruct (print_roots_spec ts1 [print_header] W1) as (ts2 & out2 & ord & E2 & P).
  assert (forall j, j ∈ ord.*1 <-> (j < length ts)%nat) as Hall.
  { intros j. rewrite elem_of_fst. setoid_rewrite (pr_mem _ _ _ _ _ _ P). split.
    - intros (_ & i & n & (r & Hr & _) & Ha & _). rewrite <- Hlen.
      inversion Ha as [|? ? ? ? (rj & Hj & _) _]; subst; by eapply lookup_lt_Some.
    - rewrite <- Hlen. intros Hj. destruct (root_ancestor ts1 j W1 Hj) as (n & i & ? & ?). eauto 8. }
  destruct (pr_lines _ _ _ _ _ _ P) as (lines & -> & Hlines).
  exists ts1, ts2, ord, lines. split_and!.
  - done.
  - unfold print_stopped. rewrite E1; cbn. by rewrite E2.
  - done.
  - apply NoDup_Permutation; [apply P|apply NoDup_seq|].
    intros j. rewrite Hall, elem_of_seq. lia.
  - apply P.
  - intros i. destruct (decide (i < length ts)%nat) as [Hi|Hi]; [by apply P, Hall|].
    intros r Hr%lookup_lt_Some. rewrite <- (Forall2_length _ _ _ (pr_reordered _ _ _ _ _ _ P)) in Hr.
    lia.
  - apply P.
  - done.
Qed.

(** C14 The report terminates and prints every record exactly once: after the
    header, its lines are those of a list [ord] of (record, depth) pairs whose
    records are a permutation of all of them; the depth of a record is the
    number of its ancestors, and all lists of children end up sorted by start
    time.  The nesting depth of [print_rec] never exceeds the number of
    records. *)
Theorem report_prints_each_once ts :
  timers_reachable ts ->
  exists ts1 ts2 ord lines,
    link_all ts = inr ts1 /\
    print_stopped ts = inr (ts2, print_header :: lines) /\ report_lines ts1 ord lines /\
    Permutation ord.*1 (seq 0 (length ts)) /\
    (forall j e, (j, e) ∈ ord <-> exists i n, root ts1 i /\ ancestor ts1 n j i /\ e = Z.of_nat n) /\
    (forall i, sorted_at ts2 i).
Proof.
  intros R. destruct (report_spec ts R) as (ts1 & ts2 & ord & lines & ? & ? & ? & ? & ? & ? & _).
  by exists ts1, ts2, ord, lines.
Qed.

(** [TimerRecord::stop] takes its readings once: a second stop, as by the
    destructor after an explicit [stop()], changes nothing; the first one turns
    the absolute CPU times of the constructor into durations. *)
Theorem stop_once now usage now' usage' now0 usage0 nm par :
  let r0 := mkTimerRecord nm par [] now0 0 usage0.1 usage0.2 false in
  let r := TimerRecord_stop now usage r0 in
  TimerRecord_stop now' usage' r = r /\ stopped r = true /\ start r = now0 /\ end_ r = now /\
  user r = usage.1 - usage0.1 /\ sys r = usage.2 - usage0.2.
Proof. done. Qed.

(** The clock readings fit [i64]: no operation of [now_nsec] or [to_nsec]
    overflows for clocks below 2^33 seconds (272 years). *)
Theorem clock_no_overflow sec nsec usec :
  0 <= sec < 2 ^ 33 -> 0 <= nsec < 1000000000 -> 0 <= usec < 1000000 ->
  MachInt.in_i64 (sec * 1000000000) /\ MachInt.in_i64 (now_nsec (sec, nsec)) /\
  MachInt.in_i64 (usec * 1000) /\ MachInt.in_i64 (to_nsec (sec, usec)).
Proof. unfold MachInt.in_i64, now_nsec, to_nsec; cbn [fst snd]. lia. Qed.
End Properties.

(** [main]'s timers: "all", then "a" with a child "b" inside it. *)
Definition example_timers : timers :=
  alter (TimerRecord_stop 1500 (70, 8)) 0%nat
    (alter (TimerRecord_stop 900 (60, 7)) 1%nat
       (alter (TimerRecord_stop 800 (50, 6)) 2%nat
          (TimerRecord_new 500 (30, 4) "b" (Some 1%nat)
             (TimerRecord_new 300 (20, 3) "a" None
                (TimerRecord_new 100 (10, 2) "all" None []))))).

Lemma example_timers_reachable : timers_reachable example_timers.
Proof.
  repeat (apply reach_stop || apply reach_new || apply reach_none); try done.
  intros p [= <-]. cbn. lia.
Qed.

Lemma timers_forest_witness : wf example_timers.
Proof. exact (proj1 (timers_forest example_timers example_timers_reachable)). Defined.

Lemma link_nearest_enclosing_witness :
  exists ts', link_all example_timers = inr ts' /\
    facts <$> ts' = facts <$> example_timers /\
    forall i r, example_timers !! i = Some r ->
      exists r', ts' !! i = Some r' /\ linked_parent example_timers i r (parent r').
Proof. exact (link_nearest_enclosing example_timers example_timers_reachable). Defined.

Lemma report_prints_each_once_witness :
  exists ts1 ts2 ord lines,
    link_all example_timers = inr ts1 /\
    print_stopped example_timers = inr (ts2, print_header :: lines) /\
    report_lines ts1 ord lines /\ Permutation ord.*1 [0; 1; 2]%nat.
Proof.
  destruct (report_prints_each_once example_timers example_timers_reachable)
    as (ts1 & ts2 & ord & lines & ? & ? & ? & ? & _).
  by exists ts1, ts2, ord, lines.
Defined.

Lemma clock_no_overflow_witness :
  0 <= 86400 < 2 ^ 33 /\ MachInt.in_i64 (now_nsec (86400, 5)).
Proof.
  split; [lia|]. apply (clock_no_overflow 86400 5 7); lia.
Defined.
