(* ===== verification/State.v ===== *)
(** The process state and the effects on it: [Context], [ImageSegment],
    [MappedFile]'s fields, [SyncOut], [Fatal], [Timer] (gazosan.h) and
    [errno_string] (strerror.cc).

    An operation of the program is a function of the whole state that either
    returns or stops the process; the operating system is the class [OS]. *)

From S2P Require Import Prelude StdLib Cv Perf.
From Stdlib Require Import Ascii.

(** ** The operating system *)

Record Stat := mkStat { st_size : Z; st_mtim : Z * Z }.

Class OS := {
  (** What the [n]-th [clock_gettime] and [getrusage] store. *)
  clock_gettime : nat -> Z * Z;
  getrusage : nat -> (Z * Z) * (Z * Z);
  (** [open(path, O_RDONLY)]: an [errno], or the file. *)
  os_open : string -> Z + nat;
  os_fstat : nat -> Z + Stat;
  (** [mmap] of the first bytes of a file: an [errno], or the bytes. *)
  os_mmap : nat -> Z -> Z + list Z;
  (** [strerror_r(errno, buf, size)]: the buffer after the call. *)
  strerror_r : Z -> string -> nat -> string;
  (** [tbb::global_control::active_value(max_allowed_parallelism)] *)
  active_value : Z
}.

(** ** The program's data *)

(** [data] is the mapping's number and its bytes; [None] is [nullptr]. *)
Record MappedFile := mkMappedFile {
  mf_name : string;
  mf_data : option (nat * list Z);
  mf_size : Z;
  mf_mtime : Z
}.

(** [ctx.arg] *)
Record Args := mkArgs {
  color_diagnostics : bool;
  arg_new_file : string;
  arg_old_file : string;
  output_name : string;
  create_change_image : bool;
  bin_threshold : Z;
  cross_check : bool;
  thread_count : Z;
  perf : bool
}.

Definition default_args : Args := mkArgs false "" "" "" false 200 false 0 false.

Section Data.
Context `{CV : OpenCV}.

Record ImageSegment := mkImageSegment {
  area : Rect;
  descriptor : Mat;
  roi : Mat;
  matched : bool
}.

(** The two-argument constructor: an empty descriptor, not matched. *)
Definition ImageSegment_ctor (area_ : Rect) (roi_ : Mat) : ImageSegment :=
  mkImageSegment area_ Mat_ctor roi_ false.

Definition set_descriptor (d : Mat) (s : ImageSegment) : ImageSegment :=
  mkImageSegment (area s) d (roi s) (matched s).

Definition set_matched (s : ImageSegment) : ImageSegment :=
  mkImageSegment (area s) (descriptor s) (roi s) true.

Record Context := mkContext {
  arg : Args;
  cmdline_args : list string;
  timer_records : timers;
  new_file : option MappedFile;
  old_file : option MappedFile;
  new_color_mat : Mat;
  old_color_mat : Mat;
  new_gray_mat : Mat;
  old_gray_mat : Mat;
  new_segments : list ImageSegment;
  old_segments : list ImageSegment
}.

(** [Context() = default] *)
Definition Context_ctor : Context :=
  mkContext default_args [] [] None None Mat_ctor Mat_ctor Mat_ctor Mat_ctor [] [].

(** Outside the context: the two output streams, how many times the clocks were
    read, [errno] and the thread's buffer of [errno_string], the open
    descriptors and the live mappings with their lengths (both numbered in
    order of creation), and the image files written, oldest first. *)
Record World := mkWorld {
  w_out : string;
  w_err : string;
  w_clock : nat;
  w_usage : nat;
  w_errno : Z;
  w_errbuf : string;
  w_next_fd : nat;
  w_fds : gset nat;
  w_next_map : nat;
  w_maps : gmap nat Z;
  w_images : list (string * Mat)
}.

Definition World_init : World := mkWorld "" "" 0 0 0 "" 0 ∅ 0 ∅ [].

Record St := mkSt { ctx : Context; wld : World }.

(** *** Updates of one field *)

Definition set_arg (f : Args -> Args) (s : St) : St :=
  let c := ctx s in
  mkSt (mkContext (f (arg c)) (cmdline_args c) (timer_records c) (new_file c) (old_file c)
          (new_color_mat c) (old_color_mat c) (new_gray_mat c) (old_gray_mat c)
          (new_segments c) (old_segments c)) (wld s).

Definition set_cmdline_args (a : list string) (s : St) : St :=
  let c := ctx s in
  mkSt (mkContext (arg c) a (timer_records c) (new_file c) (old_file c)
          (new_color_mat c) (old_color_mat c) (new_gray_mat c) (old_gray_mat c)
          (new_segments c) (old_segments c)) (wld s).

Definition set_timer_records (f : timers -> timers) (s : St) : St :=
  let c := ctx s in
  mkSt (mkContext (arg c) (cmdline_args c) (f (timer_records c)) (new_file c) (old_file c)
          (new_color_mat c) (old_color_mat c) (new_gray_mat c) (old_gray_mat c)
          (new_segments c) (old_segments c)) (wld s).

(** Which of the two images an operation is about. *)
Inductive Side := New | Old.

Definition set_file (d : Side) (f : option MappedFile) (s : St) : St :=
  let c := ctx s in
  mkSt (mkContext (arg c) (cmdline_args c) (timer_records c)
          (match d with New => f | Old => new_file c end)
          (match d with Old => f | New => old_file c end)
          (new_color_mat c) (old_color_mat c) (new_gray_mat c) (old_gray_mat c)
          (new_segments c) (old_segments c)) (wld s).

Definition set_color_mat (d : Side) (m : Mat) (s : St) : St :=
  let c := ctx s in
  mkSt (mkContext (arg c) (cmdline_args c) (timer_records c) (new_file c) (old_file c)
          (match d with New => m | Old => new_color_mat c end)
          (match d with Old => m | New => old_color_mat c end)
          (new_gray_mat c) (old_gray_mat c) (new_segments c) (old_segments c)) (wld s).

Definition set_gray_mat (d : Side) (m : Mat) (s : St) : St :=
  let c := ctx s in
  mkSt (mkContext (arg c) (cmdline_args c) (timer_records c) (new_file c) (old_file c)
          (new_color_mat c) (old_color_mat c)
          (match d with New => m | Old => new_gray_mat c end)
          (match d with Old => m | New => old_gray_mat c end)
          (new_segments c) (old_segments c)) (wld s).

Definition set_segments (d : Side) (l : list ImageSegment) (s : St) : St :=
  let c := ctx s in
  mkSt (mkContext (arg c) (cmdline_args c) (timer_records c) (new_file c) (old_file c)
          (new_color_mat c) (old_color_mat c) (new_gray_mat c) (old_gray_mat c)
          (match d with New => l | Old => new_segments c end)
          (match d with Old => l | New => old_segments c end)) (wld s).

Definition arg_file (d : Side) (a : Args) : string :=
  match d with New => arg_new_file a | Old => arg_old_file a end.
Definition the_file (d : Side) (c : Context) : option MappedFile :=
  match d with New => new_file c | Old => old_file c end.
Definition color_mat (d : Side) (c : Context) : Mat :=
  match d with New => new_color_mat c | Old => old_color_mat c end.
Definition gray_mat (d : Side) (c : Context) : Mat :=
  match d with New => new_gray_mat c | Old => old_gray_mat c end.
Definition segments (d : Side) (c : Context) : list ImageSegment :=
  match d with New => new_segments c | Old => old_segments c end.

Definition set_wld (f : World -> World) (s : St) : St := mkSt (ctx s) (f (wld s)).

Definition write_out (t : string) (w : World) : World :=
  mkWorld (w_out w +:+ t) (w_err w) (w_clock w) (w_usage w) (w_errno w) (w_errbuf w)
    (w_next_fd w) (w_fds w) (w_next_map w) (w_maps w) (w_images w).
Definition write_err (t : string) (w : World) : World :=
  mkWorld (w_out w) (w_err w +:+ t) (w_clock w) (w_usage w) (w_errno w) (w_errbuf w)
    (w_next_fd w) (w_fds w) (w_next_map w) (w_maps w) (w_images w).
Definition tick_clock (w : World) : World :=
  mkWorld (w_out w) (w_err w) (S (w_clock w)) (w_usage w) (w_errno w) (w_errbuf w)
    (w_next_fd w) (w_fds w) (w_next_map w) (w_maps w) (w_images w).
Definition tick_usage (w : World) : World :=
  mkWorld (w_out w) (w_err w) (w_clock w) (S (w_usage w)) (w_errno w) (w_errbuf w)
    (w_next_fd w) (w_fds w) (w_next_map w) (w_maps w) (w_images w).
Definition set_errno (e : Z) (w : World) : World :=
  mkWorld (w_out w) (w_err w) (w_clock w) (w_usage w) e (w_errbuf w)
    (w_next_fd w) (w_fds w) (w_next_map w) (w_maps w) (w_images w).
Definition set_errbuf (b : string) (w : World) : World :=
  mkWorld (w_out w) (w_err w) (w_clock w) (w_usage w) (w_errno w) b
    (w_next_fd w) (w_fds w) (w_next_map w) (w_maps w) (w_images w).
Definition add_fd (w : World) : World :=
  mkWorld (w_out w) (w_err w) (w_clock w) (w_usage w) (w_errno w) (w_errbuf w)
    (S (w_next_fd w)) ({[w_next_fd w]} ∪ w_fds w) (w_next_map w) (w_maps w) (w_images w).
Definition del_fd (fd : nat) (w : World) : World :=
  mkWorld (w_out w) (w_err w) (w_clock w) (w_usage w) (w_errno w) (w_errbuf w)
    (w_next_fd w) (w_fds w ∖ {[fd]}) (w_next_map w) (w_maps w) (w_images w).
Definition add_map (len : Z) (w : World) : World :=
  mkWorld (w_out w) (w_err w) (w_clock w) (w_usage w) (w_errno w) (w_errbuf w)
    (w_next_fd w) (w_fds w) (S (w_next_map w)) (<[w_next_map w := len]> (w_maps w)) (w_images w).
Definition del_map (a : nat) (w : World) : World :=
  mkWorld (w_out w) (w_err w) (w_clock w) (w_usage w) (w_errno w) (w_errbuf w)
    (w_next_fd w) (w_fds w) (w_next_map w) (delete a (w_maps w)) (w_images w).
Definition add_image (name_ : string) (m : Mat) (w : World) : World :=
  mkWorld (w_out w) (w_err w) (w_clock w) (w_usage w) (w_errno w) (w_errbuf w)
    (w_next_fd w) (w_fds w) (w_next_map w) (w_maps w) (w_images w ++ [(name_, m)]).
End Data.

(** ** Effects *)

Section Effects.
Context `{CV : OpenCV}.

Inductive Res (A : Type) :=
  | Done (a : A) (s : St)
  | Stopped (why : Stop) (s : St).
#[global] Arguments Done {A}.
#[global] Arguments Stopped {A}.

Definition M (A : Type) : Type := St -> Res A.

#[export] Instance M_ret : MRet M := fun A a s => Done a s.
#[export] Instance M_bind : MBind M := fun A B f m s =>
  match m s with
  | Done a s' => f a s'
  | Stopped e s' => Stopped e s'
  end.

Definition get : M St := fun s => Done s s.
Definition modify (f : St -> St) : M unit := fun s => Done tt (f s).
Definition gets {A} (f : Context -> A) : M A := fun s => Done (f (ctx s)) s.
Definition stop {A} (e : Stop) : M A := fun s => Stopped e s.

(** A computation on values inside the process. *)
Definition lift {A} (m : exc A) : M A := fun s =>
  match m with inr a => Done a s | inl e => Stopped e s end.

(** [for (auto x : l)] over an effectful body. *)
Fixpoint for_each_M {A} (l : list A) (body : A -> M unit) : M unit :=
  match l with
  | [] => mret tt
  | x :: l => _ ← body x; for_each_M l body
  end.
End Effects.

(** ** Diagnostics (gazosan.h) *)

Section Diagnostics.
Context `{CV : OpenCV}.

Definition add_color (msg : string) : M string :=
  c ← gets (fun c => color_diagnostics (arg c));
  mret (if c : bool
        then "gazo-san: " +:+ String "027"%char "[0;1;31m" +:+ msg +:+ ":" +:+ String "027"%char "[0m "
        else "gazo-san: " +:+ msg +:+ ": ").

(** [SyncOut] is its string stream; its destructor writes the line. *)
Definition SyncOut_put (ss val : string) : string := ss +:+ val.

Definition SyncOut_dtor (ss : string) : M unit :=
  modify (set_wld (write_err (ss +:+ newline))).

Definition Fatal_ctor : M string :=
  c ← add_color "fatal"; mret (SyncOut_put "" c).

Definition Fatal_dtor {A} (out : string) : M A :=
  _ ← SyncOut_dtor out; stop (Exited 1).

(** [Fatal(ctx) << msg;] *)
Definition Fatal {A} (msg : string) : M A :=
  out ← Fatal_ctor; Fatal_dtor (SyncOut_put out msg).

(** [errno_string] (strerror.cc): [strerror_r] on the thread's buffer, whose
    contents are returned; the result of [strerror_r] is discarded. *)
Definition errno_string `{OS} : M string :=
  s ← get;
  let buf := strerror_r (w_errno (wld s)) (w_errbuf (wld s)) 200 in
  _ ← modify (set_wld (set_errbuf buf));
  mret buf.
End Diagnostics.

(** ** Timers (class [Timer], gazosan.h) *)

Section Timers.
Context `{CV : OpenCV} {os : OS}.

Definition now_nsec_M : M Z :=
  s ← get;
  _ ← modify (set_wld tick_clock);
  mret (now_nsec (clock_gettime (w_clock (wld s)))).

Definition get_usage_M : M (Z * Z) :=
  s ← get;
  _ ← modify (set_wld tick_usage);
  mret (get_usage (getrusage (w_usage (wld s)))).

(** [Timer::Timer]: the index of the new record. *)
Definition Timer_ctor (nm : string) (par : option nat) : M nat :=
  now ← now_nsec_M;
  usage ← get_usage_M;
  n ← gets (fun c => length (timer_records c));
  _ ← modify (set_timer_records (TimerRecord_new now usage nm par));
  mret n.

(** [TimerRecord::stop] on record [i]; a stopped record reads no clock. *)
Definition record_stop (i : nat) : M unit :=
  ts ← gets timer_records;
  r ← lift (deref (ts !! i));
  if stopped r then mret tt
  else
    usage ← get_usage_M;
    now ← now_nsec_M;
    modify (set_timer_records (alter (stop_record now usage) i)).

(** [Timer::stop] and [Timer::~Timer] *)
Definition Timer_stop (i : nat) : M unit := record_stop i.

(** A block whose first declaration is [Timer t(ctx, nm, par)]: the destructor
    runs when the block is left. *)
Definition with_timer {A} (nm : string) (par : option nat) (body : nat -> M A) : M A :=
  t ← Timer_ctor nm par;
  a ← body t;
  _ ← Timer_stop t;
  mret a.

(** [print_timer_records] (perf.cc). *)
Definition print_timer_records `{SS : StdSort} : M unit :=
  ts ← gets timer_records;
  _ ← for_each_M (seq 0 (length ts)) record_stop;
  ts' ← gets timer_records;
  '(ts'', lines) ← lift (print_stopped ts');
  _ ← modify (set_timer_records (fun _ => ts''));
  for_each_M lines (fun l => modify (set_wld (write_out l))).
End Timers.

(** ** Reasoning on effects *)

Section Facts.
Context `{CV : OpenCV} {os : OS}.

Lemma bind_Done {A B} (m : M A) (f : A -> M B) s b s' :
  (m ≫= f) s = Done b s' <-> exists a s1, m s = Done a s1 /\ f a s1 = Done b s'.
Proof.
  unfold mbind, M_bind. destruct (m s) as [a s1|e s1].
  - split; [eauto|]. by intros (? & ? & [= -> ->] & ?).
  - split; [done|]. by intros (? & ? & ? & ?).
Qed.

Lemma bind_Stopped {A B} (m : M A) (f : A -> M B) s e s' :
  (m ≫= f) s = Stopped e s' <->
  m s = Stopped e s' \/ exists a s1, m s = Done a s1 /\ f a s1 = Stopped e s'.
Proof.
  unfold mbind, M_bind. destruct (m s) as [a s1|e1 s1].
  - split; [right; eauto|]. by intros [?|(? & ? & [= -> ->] & ?)].
  - split; [intros [= -> ->]; by left|]. by intros [[= -> ->]|(? & ? & ? & ?)].
Qed.

Lemma bind_Done_eq {A B} (m : M A) (f : A -> M B) s a s1 :
  m s = Done a s1 -> (m ≫= f) s = f a s1.
Proof. unfold mbind, M_bind. by intros ->. Qed.

Lemma bind_Stopped_eq {A B} (m : M A) (f : A -> M B) s e s1 :
  m s = Stopped e s1 -> (m ≫= f) s = Stopped e s1.
Proof. unfold mbind, M_bind. by intros ->. Qed.

(** [Fatal] never returns: it writes one line and exits with status 1. *)
Lemma Fatal_spec {A} msg s :
  Fatal (A := A) msg s = Stopped (Exited 1)
    (set_wld (write_err
       ((if color_diagnostics (arg (ctx s))
         then "gazo-san: " +:+ String "027"%char "[0;1;31m" +:+ "fatal" +:+ ":" +:+
              String "027"%char "[0m "
         else "gazo-san: " +:+ "fatal" +:+ ": ") +:+ msg +:+ newline)) s).
Proof.
  unfold Fatal, Fatal_ctor, Fatal_dtor, SyncOut_dtor, add_color, SyncOut_put.
  unfold mbind, M_bind, gets, mret, M_ret, stop, modify.
  destruct (color_diagnostics _); cbn; done.
Qed.

Lemma lift_inr {A} (a : A) s : lift (inr a) s = Done a s.
Proof. done. Qed.

(** Evaluating a run: it returns, and a test of what it returns holds. *)
Definition run_check {A} (r : Res A) (f : A -> St -> bool) : bool :=
  match r with Done a s => f a s | Stopped _ _ => false end.

Lemma run_check_Done {A} (r : Res A) f :
  run_check r f = true -> exists a s, r = Done a s /\ f a s = true.
Proof. destruct r as [a s|e s]; cbn; [|done]. eauto. Qed.

(** ** States up to time

    Every function of the program creates and stops timers.  Two states are
    equivalent when they differ only in the timers and in how often the clocks
    were read. *)
Definition forget_clocks (w : World) : World :=
  mkWorld (w_out w) (w_err w) 0 0 (w_errno w) (w_errbuf w)
    (w_next_fd w) (w_fds w) (w_next_map w) (w_maps w) (w_images w).

Definition forget_time (s : St) : St :=
  set_timer_records (fun _ => []) (set_wld forget_clocks s).

Definition same_but_time (s s' : St) : Prop := forget_time s = forget_time s'.
End Facts.

Infix "≈" := same_but_time (at level 70, no associativity) : gazosan_scope.
#[global] Open Scope gazosan_scope.

Section SameButTime.
Context `{CV : OpenCV} {os : OS}.

#[export] Instance same_but_time_equivalence : Equivalence same_but_time.
Proof.
  split; unfold same_but_time; [by intros ?|by intros ? ?|intros ? ? ?; congruence].
Qed.

Lemma same_ctx s s' :
  s ≈ s' ->
  arg (ctx s) = arg (ctx s') /\ cmdline_args (ctx s) = cmdline_args (ctx s') /\
  (forall d, the_file d (ctx s) = the_file d (ctx s')) /\
  (forall d, color_mat d (ctx s) = color_mat d (ctx s')) /\
  (forall d, gray_mat d (ctx s) = gray_mat d (ctx s')) /\
  (forall d, segments d (ctx s) = segments d (ctx s')).
Proof.
  unfold same_but_time, forget_time, set_timer_records, set_wld.
  destruct s as [[] ?], s' as [[] ?]; cbn. intros [= -> -> -> -> -> -> -> -> -> -> _ _ _ _ _ _ _ _ _].
  done.
Qed.

#[export] Instance arg_proper : Proper (same_but_time ==> eq) (fun s => arg (ctx s)).
Proof. intros s s' H. by apply same_ctx in H as (? & _). Qed.
#[export] Instance arg_field_proper {A} (f : Args -> A) :
  Proper (same_but_time ==> eq) (fun s => f (arg (ctx s))).
Proof. intros s s' H. f_equal. exact (arg_proper _ _ H). Qed.
#[export] Instance cmdline_args_proper :
  Proper (same_but_time ==> eq) (fun s => cmdline_args (ctx s)).
Proof. intros s s' H. by apply same_ctx in H as (_ & ? & _). Qed.
#[export] Instance the_file_proper d : Proper (same_but_time ==> eq) (fun s => the_file d (ctx s)).
Proof. intros s s' H. by apply same_ctx in H as (_ & _ & ? & _). Qed.
#[export] Instance color_mat_proper d :
  Proper (same_but_time ==> eq) (fun s => color_mat d (ctx s)).
Proof. intros s s' H. by apply same_ctx in H as (_ & _ & _ & ? & _). Qed.
#[export] Instance gray_mat_proper d :
  Proper (same_but_time ==> eq) (fun s => gray_mat d (ctx s)).
Proof. intros s s' H. by apply same_ctx in H as (_ & _ & _ & _ & ? & _). Qed.
#[export] Instance segments_proper d :
  Proper (same_but_time ==> eq) (fun s => segments d (ctx s)).
Proof. intros s s' H. by apply same_ctx in H as (_ & _ & _ & _ & _ & ?). Qed.

(** The same, field by field. *)
#[export] Instance new_color_proper : Proper (same_but_time ==> eq) (fun s => new_color_mat (ctx s)).
Proof. exact (color_mat_proper New). Qed.
#[export] Instance old_color_proper : Proper (same_but_time ==> eq) (fun s => old_color_mat (ctx s)).
Proof. exact (color_mat_proper Old). Qed.
#[export] Instance new_gray_proper : Proper (same_but_time ==> eq) (fun s => new_gray_mat (ctx s)).
Proof. exact (gray_mat_proper New). Qed.
#[export] Instance old_gray_proper : Proper (same_but_time ==> eq) (fun s => old_gray_mat (ctx s)).
Proof. exact (gray_mat_proper Old). Qed.
#[export] Instance new_segments_proper : Proper (same_but_time ==> eq) (fun s => new_segments (ctx s)).
Proof. exact (segments_proper New). Qed.
#[export] Instance old_segments_proper : Proper (same_but_time ==> eq) (fun s => old_segments (ctx s)).
Proof. exact (segments_proper Old). Qed.

(** What two equivalent worlds share. *)
Lemma same_wld s s' : s ≈ s' -> forget_clocks (wld s) = forget_clocks (wld s').
Proof. intros H. exact (f_equal wld H). Qed.

#[export] Instance images_proper : Proper (same_but_time ==> eq) (fun s => w_images (wld s)).
Proof. intros s s' H%same_wld. by injection H. Qed.
#[export] Instance out_proper : Proper (same_but_time ==> eq) (fun s => w_out (wld s)).
Proof. intros s s' H%same_wld. by injection H. Qed.
#[export] Instance err_proper : Proper (same_but_time ==> eq) (fun s => w_err (wld s)).
Proof. intros s s' H%same_wld. by injection H. Qed.

#[export] Instance set_arg_proper f : Proper (same_but_time ==> same_but_time) (set_arg f).
Proof.
  intros s s' H. unfold same_but_time in *.
  change (set_arg f (forget_time s) = set_arg f (forget_time s')). by rewrite H.
Qed.

#[export] Instance set_segments_proper d l :
  Proper (same_but_time ==> same_but_time) (set_segments d l).
Proof.
  intros s s' H. unfold same_but_time in *.
  enough (set_segments d l (forget_time s) = set_segments d l (forget_time s')) by (by destruct d).
  by rewrite H.
Qed.

#[export] Instance add_image_proper nm m :
  Proper (same_but_time ==> same_but_time) (set_wld (add_image nm m)).
Proof.
  intros s s' H. unfold same_but_time in *.
  change (set_wld (add_image nm m) (forget_time s) = set_wld (add_image nm m) (forget_time s')).
  by rewrite H.
Qed.

(** Appending images, and none. *)
Definition add_images (l : list (string * Mat)) (w : World) : World :=
  mkWorld (w_out w) (w_err w) (w_clock w) (w_usage w) (w_errno w) (w_errbuf w)
    (w_next_fd w) (w_fds w) (w_next_map w) (w_maps w) (w_images w ++ l).

Lemma add_images_nil s : set_wld (add_images []) s = s.
Proof. destruct s as [c []]. unfold set_wld, add_images; cbn. by rewrite app_nil_r. Qed.

Lemma add_images_app l k s :
  set_wld (add_images k) (set_wld (add_images l) s) = set_wld (add_images (l ++ k)) s.
Proof. unfold set_wld, add_images; cbn. by rewrite <- app_assoc. Qed.

#[export] Instance add_images_proper l :
  Proper (same_but_time ==> same_but_time) (set_wld (add_images l)).
Proof.
  intros s s' H. unfold same_but_time in *.
  change (set_wld (add_images l) (forget_time s) = set_wld (add_images l) (forget_time s')).
  by rewrite H.
Qed.

(** *** Timers *)

Definition after_ctor (nm : string) (par : option nat) (s : St) : St :=
  set_timer_records
    (TimerRecord_new (now_nsec (clock_gettime (w_clock (wld s))))
       (get_usage (getrusage (w_usage (wld s)))) nm par)
    (set_wld tick_usage (set_wld tick_clock s)).

Definition after_stop (i : nat) (s : St) : St :=
  set_timer_records
    (alter (stop_record (now_nsec (clock_gettime (w_clock (wld s))))
       (get_usage (getrusage (w_usage (wld s))))) i)
    (set_wld tick_clock (set_wld tick_usage s)).

Lemma Timer_ctor_eq nm par s :
  Timer_ctor nm par s = Done (length (timer_records (ctx s))) (after_ctor nm par s).
Proof. done. Qed.

Lemma after_ctor_same nm par s : after_ctor nm par s ≈ s.
Proof. by destruct s as [[] []]. Qed.

Lemma length_TimerRecord_new now usage nm par ts :
  length (TimerRecord_new now usage nm par ts) = S (length ts).
Proof.
  unfold TimerRecord_new. rewrite length_app; cbn.
  destruct par; rewrite ?length_alter; lia.
Qed.

Lemma after_ctor_length nm par s :
  length (timer_records (ctx (after_ctor nm par s))) = S (length (timer_records (ctx s))).
Proof. apply length_TimerRecord_new. Qed.

Lemma record_stop_eq i s :
  (i < length (timer_records (ctx s)))%nat ->
  exists s', record_stop i s = Done tt s' /\ s' ≈ s /\
    timer_records (ctx s') =
      alter (TimerRecord_stop (now_nsec (clock_gettime (w_clock (wld s))))
               (get_usage (getrusage (w_usage (wld s))))) i (timer_records (ctx s)).
Proof.
  intros [r Hr]%lookup_lt_is_Some_2. unfold record_stop, TimerRecord_stop.
  unfold mbind, M_bind, gets, lift; cbn. rewrite Hr; cbn.
  destruct (stopped r) eqn:E.
  - exists s. split_and!; [done|done|]. apply list_eq. intros k. rewrite list_lookup_alter.
    case_decide; subst; [|done]. rewrite Hr; cbn. by rewrite E.
  - exists (after_stop i s). split_and!; [done|by destruct s as [[] []]|].
    cbn. apply list_eq. intros k. rewrite !list_lookup_alter.
    case_decide; subst; [|done]. rewrite Hr; cbn. by rewrite E.
Qed.

(** A block with a timer does what its body does, up to time. *)
Lemma with_timer_Done {A} nm par (body : nat -> M A) s a s2 :
  body (length (timer_records (ctx s))) (after_ctor nm par s) = Done a s2 ->
  (length (timer_records (ctx s)) < length (timer_records (ctx s2)))%nat ->
  exists s', with_timer nm par body s = Done a s' /\ s' ≈ s2.
Proof.
  intros E Hlen. unfold with_timer. rewrite (bind_Done_eq _ _ _ _ _ (Timer_ctor_eq nm par s)).
  rewrite (bind_Done_eq _ _ _ _ _ E).
  destruct (record_stop_eq _ _ Hlen) as (s' & Es & ? & _).
  rewrite (bind_Done_eq _ _ _ _ _ Es). by exists s'.
Qed.

Lemma with_timer_Stopped {A} nm par (body : nat -> M A) s e s2 :
  body (length (timer_records (ctx s))) (after_ctor nm par s) = Stopped e s2 ->
  with_timer nm par body s = Stopped e s2.
Proof.
  intros E. unfold with_timer. rewrite (bind_Done_eq _ _ _ _ _ (Timer_ctor_eq nm par s)).
  by rewrite (bind_Stopped_eq _ _ _ _ _ E).
Qed.
End SameButTime.
