(* ===== verification/Timed.v ===== *)
(** What every function of the program does to the timers: it creates records,
    under parents that exist, and stops them.  [TimedFrom n m] says so of [m] in the
    states with [n] records or more, and the [timed] tactic derives it from the
    text of [m]; so the report of [main] always prints a forest. *)

From S2P Require Import Prelude StdLib Cv Perf PerfForest State.

(** ** Steps of the timers *)

Inductive timer_step : relation timers :=
  | step_new ts now usage nm par :
      (forall p, par = Some p -> (p < length ts)%nat) ->
      timer_step ts (TimerRecord_new now usage nm par ts)
  | step_stop ts now usage i :
      timer_step ts (alter (TimerRecord_stop now usage) i ts).

Abbreviation timer_steps := (rtc timer_step).

Lemma steps_length ts ts' : timer_steps ts ts' -> (length ts <= length ts')%nat.
Proof.
  induction 1 as [|ts1 ts2 ts3 H _ IH]; [done|]. etrans; [|exact IH].
  inversion H; subst; rewrite ?length_TimerRecord_new, ?length_alter; lia.
Qed.

Lemma steps_reachable ts ts' :
  timers_reachable ts -> timer_steps ts ts' -> timers_reachable ts'.
Proof.
  intros R. induction 1 as [|ts1 ts2 ts3 H _ IH]; [done|]. apply IH.
  inversion H; subst; [by apply reach_new|by apply reach_stop].
Qed.

Lemma names_stop now usage (i : nat) (ts : timers) :
  (name <$> alter (TimerRecord_stop now usage) i ts) = (name <$> ts).
Proof.
  rewrite list_alter_fmap_same; [done|]. intros r. unfold TimerRecord_stop. by destruct (stopped r).
Qed.

Lemma names_new now usage nm par (ts : timers) :
  (name <$> TimerRecord_new now usage nm par ts) = (name <$> ts) ++ [nm].
Proof.
  unfold TimerRecord_new. rewrite fmap_app. f_equal. destruct par as [p|]; [|done].
  by rewrite list_alter_fmap_same.
Qed.

(** No record is removed or renamed. *)
Lemma steps_names ts ts' : timer_steps ts ts' -> (name <$> ts) `prefix_of` (name <$> ts').
Proof.
  induction 1 as [|ts1 ts2 ts3 H _ IH]; [done|]. etrans; [|exact IH].
  inversion H; subst; rewrite ?names_stop, ?names_new; [by apply prefix_app_r|done].
Qed.

(** ** Computations that only step the timers *)

Section Timed.
Context `{CV : OpenCV} {os : OS}.

Abbreviation records s := (timer_records (ctx s)).

Class TimedFrom {A} (n : nat) (m : M A) : Prop :=
  timed_from s a s' :
    (n <= length (records s))%nat -> m s = Done a s' -> timer_steps (records s) (records s').

(** Updates of the other fields. *)
Class KeepsTimers (f : St -> St) : Prop := keeps_timers s : records (f s) = records s.

#[export] Instance keeps_arg f : KeepsTimers (set_arg f).
Proof. done. Qed.
#[export] Instance keeps_cmdline_args l : KeepsTimers (set_cmdline_args l).
Proof. done. Qed.
#[export] Instance keeps_wld f : KeepsTimers (set_wld f).
Proof. done. Qed.
#[export] Instance keeps_file d f : KeepsTimers (set_file d f).
Proof. done. Qed.
#[export] Instance keeps_color d m : KeepsTimers (set_color_mat d m).
Proof. done. Qed.
#[export] Instance keeps_gray d m : KeepsTimers (set_gray_mat d m).
Proof. done. Qed.
#[export] Instance keeps_segments d l : KeepsTimers (set_segments d l).
Proof. done. Qed.

#[export] Instance timed_ret {A} n (a : A) : TimedFrom n (mret a).
Proof. intros s b s' _ [= <- <-]. apply rtc_refl. Qed.
#[export] Instance timed_get n : TimedFrom n get.
Proof. intros s b s' _ [= <- <-]. apply rtc_refl. Qed.
#[export] Instance timed_gets {A} n (f : Context -> A) : TimedFrom n (gets f).
Proof. intros s b s' _ [= <- <-]. apply rtc_refl. Qed.
#[export] Instance timed_stop {A} n e : TimedFrom n (stop (A := A) e).
Proof. by intros s b s' _ [=]. Qed.
#[export] Instance timed_lift {A} n (m : exc A) : TimedFrom n (lift m).
Proof.
  intros s b s' _. unfold lift. destruct m; [done|]. intros [= <- <-]. apply rtc_refl.
Qed.
#[export] Instance timed_modify n f : KeepsTimers f -> TimedFrom n (modify f).
Proof. intros K s b s' _ [= <- <-]. rewrite K. apply rtc_refl. Qed.

#[export] Instance timed_bind {A B} n (m : M A) (f : A -> M B) :
  TimedFrom n m -> (forall a, TimedFrom n (f a)) -> TimedFrom n (m ≫= f).
Proof.
  intros Hm Hf s b s' Hn (a & s1 & E1 & E2)%bind_Done.
  pose proof (Hm _ _ _ Hn E1) as H1. etrans; [exact H1|].
  apply steps_length in H1. apply (Hf a s1 b s'); [lia|done].
Qed.

#[export] Instance timed_Fatal {A} n msg : TimedFrom n (Fatal (A := A) msg).
Proof. intros s b s' _. by rewrite Fatal_spec. Qed.

Lemma timed_for_each {A} n (l : list A) body :
  (forall x, TimedFrom n (body x)) -> TimedFrom n (for_each_M l body).
Proof.
  intros H. induction l as [|x l IH]; cbn; [apply timed_ret|].
  apply timed_bind; [apply H|done].
Qed.

(** A call in a state with more records. *)
Lemma timed_weaken {A} n k (m : M A) : (n <= k)%nat -> TimedFrom n m -> TimedFrom k m.
Proof. intros Hn H s a s' Hk. apply H. lia. Qed.

#[export] Instance timed_record_stop n i : TimedFrom n (record_stop i).
Proof.
  intros s [] s' _ H. destruct (decide (i < length (records s))%nat) as [Hi|Hi].
  - destruct (record_stop_eq i s Hi) as (s1 & E & _ & Hr).
    rewrite E in H. injection H as <-. rewrite Hr. apply rtc_once, step_stop.
  - unfold record_stop, mbind, M_bind, gets, lift in H.
    rewrite (proj2 (lookup_ge_None _ _)) in H by lia. done.
Qed.

#[export] Instance timed_Timer_stop n i : TimedFrom n (Timer_stop i).
Proof. apply timed_record_stop. Qed.

Lemma steps_ctor nm par s :
  (forall p, par = Some p -> (p < length (records s))%nat) ->
  timer_steps (records s) (records (after_ctor nm par s)).
Proof. intros Hp. by apply rtc_once, step_new. Qed.

(** A timer's parent, when it has one, is a record that exists; the block's body
    may use the block's record. *)
Lemma timed_with_timer {A} n nm par (body : nat -> M A) :
  (forall p, par = Some p -> (p < n)%nat) ->
  (forall t, (n <= t)%nat -> TimedFrom (S t) (body t)) ->
  TimedFrom n (with_timer nm par body).
Proof.
  intros Hp Hb s a s' Hn H. unfold with_timer in H.
  rewrite (bind_Done_eq _ _ _ _ _ (Timer_ctor_eq nm par s)) in H.
  etrans; [apply (steps_ctor nm par)|].
  { intros p E. specialize (Hp p E). lia. }
  assert (TimedFrom (S (length (records s)))
            (a ← body (length (records s)); _ ← Timer_stop (length (records s)); mret a)) as T.
  { apply timed_bind; [by apply Hb|]. intros b. apply _. }
  apply (T _ a); [|done]. rewrite after_ctor_length. lia.
Qed.

(** ** Blocks with a timer, from the text of their body

    With [TimedFrom] the record of the block exists when its destructor runs, so
    the block does what its body does, up to time. *)
Lemma record_stop_same i s u s' : record_stop i s = Done u s' -> s' ≈ s.
Proof.
  intros H. destruct (decide (i < length (records s))%nat) as [Hi|Hi].
  - destruct (record_stop_eq i s Hi) as (s1 & E & ? & _).
    rewrite E in H. by injection H as <- <-.
  - unfold record_stop, mbind, M_bind, gets, lift in H.
    rewrite (proj2 (lookup_ge_None _ _)) in H by lia. done.
Qed.

Lemma with_timer_inv_stop {A} nm par (body : nat -> M A) s a s' :
  with_timer nm par body s = Done a s' ->
  exists s2, body (length (records s)) (after_ctor nm par s) = Done a s2 /\
    record_stop (length (records s)) s2 = Done tt s'.
Proof.
  unfold with_timer. rewrite (bind_Done_eq _ _ _ _ _ (Timer_ctor_eq nm par s)).
  intros (b & s2 & E & ([] & s3 & Es & [= <- <-])%bind_Done)%bind_Done. by exists s2.
Qed.

Lemma with_timer_inv {A} nm par (body : nat -> M A) s a s' :
  with_timer nm par body s = Done a s' ->
  exists s2, body (length (records s)) (after_ctor nm par s) = Done a s2 /\ s' ≈ s2.
Proof.
  intros (s2 & E & Es)%with_timer_inv_stop. exists s2. split; [done|]. by eapply record_stop_same.
Qed.

Lemma with_timer_run {A} nm par (body : nat -> M A) s a s2 :
  (forall t, TimedFrom (S t) (body t)) ->
  body (length (records s)) (after_ctor nm par s) = Done a s2 ->
  exists s', with_timer nm par body s = Done a s' /\ s' ≈ s2.
Proof.
  intros T E. apply with_timer_Done; [done|].
  apply (T _) in E; [|rewrite after_ctor_length; lia].
  apply steps_length in E. rewrite after_ctor_length in E. lia.
Qed.

(** A block stops exactly when its body stops, with the same reason. *)
Lemma with_timer_Stopped_inv {A} nm par (body : nat -> M A) s e s' :
  (forall t, TimedFrom (S t) (body t)) ->
  with_timer nm par body s = Stopped e s' ->
  body (length (records s)) (after_ctor nm par s) = Stopped e s'.
Proof.
  intros T H. destruct (body _ _) as [a s2|e2 s2] eqn:E.
  - destruct (with_timer_run nm par body s a s2 T E) as (s3 & E3 & _). congruence.
  - rewrite (with_timer_Stopped _ _ _ _ _ _ E) in H. congruence.
Qed.
End Timed.

(** ** Computations that, up to time, only read the context

    [ReadsAt n s0 m e]: started in a state equivalent to [s0] with [n] records or
    more, [m] ends as the pure computation [e] does, in a state equivalent to [s0]
    with no fewer records. *)

Section Reads.
Context `{CV : OpenCV} {os : OS}.

(** The result of a pure computation, in a state. *)
Definition out {A} (e : exc A) (s : St) : Res A :=
  match e with inr a => Done a s | inl e => Stopped e s end.

Abbreviation n_records s := (length (timer_records (ctx s))).

Class ReadsAt {A} (n : nat) (s0 : St) (m : M A) (e : exc A) : Prop :=
  reads_at s : s ≈ s0 -> (n <= n_records s)%nat ->
    exists s', s' ≈ s0 /\ (n_records s <= n_records s')%nat /\ m s = out e s'.

#[export] Instance reads_ret {A} n s0 (a : A) : ReadsAt n s0 (mret a) (inr a).
Proof. intros s Hs _. by exists s. Qed.

#[export] Instance reads_lift {A} n s0 (e : exc A) : ReadsAt n s0 (lift e) e.
Proof. intros s Hs _. exists s. split_and!; [done..|]. by destruct e. Qed.

#[export] Instance reads_gets {A} n s0 (f : Context -> A) :
  Proper (same_but_time ==> eq) (fun s => f (ctx s)) ->
  ReadsAt n s0 (gets f) (inr (f (ctx s0))) | 10.
Proof.
  intros Hf s Hs _. exists s. split_and!; [done..|]. unfold gets; cbn. f_equal. exact (Hf _ _ Hs).
Qed.

Lemma reads_bind {A B} n s0 (m : M A) (f : A -> M B) e g :
  ReadsAt n s0 m e -> (forall a, e = inr a -> ReadsAt n s0 (f a) (g a)) ->
  ReadsAt n s0 (m ≫= f) (e ≫= g).
Proof.
  intros Hm Hf s Hs Hn. destruct (Hm s Hs Hn) as (s1 & Hs1 & Hn1 & E). destruct e as [err|a]; cbn in *.
  - exists s1. split_and!; [done..|]. by apply bind_Stopped_eq.
  - rewrite (bind_Done_eq _ _ _ _ _ E).
    destruct (Hf a eq_refl s1 Hs1) as (s2 & ? & ? & ?); [lia|].
    exists s2. split_and!; [done|lia|done].
Qed.

(** A bind whose first part reads one known value. *)
Lemma reads_bind_eq {A B} n s0 (m : M A) (f : A -> M B) a e :
  ReadsAt n s0 m (inr a) -> ReadsAt n s0 (f a) e -> ReadsAt n s0 (m ≫= f) e.
Proof.
  intros Hm Hf. change e with ((inr a : exc A) ≫= fun _ => e).
  apply reads_bind; [done|]. by intros ? [= <-].
Qed.

Lemma n_records_stop i s s' :
  record_stop i s = Done tt s' -> n_records s' = n_records s.
Proof.
  intros H. destruct (decide (i < n_records s)%nat) as [Hi|Hi].
  - destruct (record_stop_eq i s Hi) as (s1 & E & _ & Hr).
    rewrite E in H. injection H as <-. by rewrite Hr, length_alter.
  - unfold record_stop, mbind, M_bind, gets, lift in H.
    rewrite (proj2 (lookup_ge_None _ _)) in H by lia. done.
Qed.

Lemma reads_Timer_stop n s0 t : (t < n)%nat -> ReadsAt n s0 (Timer_stop t) (inr tt).
Proof.
  intros Ht s Hs Hn. destruct (record_stop_eq t s) as (s' & E & Hs' & _); [lia|].
  exists s'. split_and!; [by rewrite Hs'| |done]. by rewrite (n_records_stop _ _ _ E).
Qed.

Lemma reads_with_timer {A} n s0 nm par (body : nat -> M A) e :
  (forall t, (n <= t)%nat -> ReadsAt (S t) s0 (body t) e) -> ReadsAt n s0 (with_timer nm par body) e.
Proof.
  intros Hb s Hs Hn.
  destruct (Hb (n_records s) Hn (after_ctor nm par s)) as (s1 & Hs1 & Hn1 & E).
  { by rewrite after_ctor_same. }
  { by rewrite after_ctor_length. }
  rewrite after_ctor_length in Hn1. destruct e as [err|a]; cbn in E.
  - exists s1. split_and!; [done|lia|]. by apply with_timer_Stopped.
  - unfold with_timer. rewrite (bind_Done_eq _ _ _ _ _ (Timer_ctor_eq nm par s)).
    rewrite (bind_Done_eq _ _ _ _ _ E).
    destruct (record_stop_eq (n_records s) s1) as (s2 & E2 & Hs2 & _); [lia|].
    rewrite (bind_Done_eq _ _ _ _ _ E2). exists s2.
    split_and!; [by rewrite Hs2|rewrite (n_records_stop _ _ _ E2); lia|done].
Qed.

Lemma reads_weaken {A} n k s0 (m : M A) e : (n <= k)%nat -> ReadsAt n s0 m e -> ReadsAt k s0 m e.
Proof. intros Hk H s Hs Hn. apply H; [done|lia]. Qed.
End Reads.

(** ** Computations that change the state, up to time

    [EndsAt n s0 m e]: started in a state equivalent to [s0], [m] ends as [e] says:
    with a value, in a state equivalent to the one [e] gives, or stopped. *)

Section Ends.
Context `{CV : OpenCV} {os : OS}.

Abbreviation n_records s := (length (timer_records (ctx s))).

Definition ends {A} (r : Res A) (e : exc (A * St)) (s : St) : Prop :=
  match e with
  | inr (a, s1) => exists s', r = Done a s' /\ s' ≈ s1 /\ (n_records s <= n_records s')%nat
  | inl err => exists s', r = Stopped err s'
  end.

Class EndsAt {A} (n : nat) (s0 : St) (m : M A) (e : exc (A * St)) : Prop :=
  ends_at s : s ≈ s0 -> (n <= n_records s)%nat -> ends (m s) e s.

Lemma ends_reads {A} n s0 (m : M A) e :
  ReadsAt n s0 m e -> EndsAt n s0 m (a ← e; inr (a, s0)).
Proof.
  intros H s Hs Hn. destruct (H s Hs Hn) as (s' & ? & ? & ->).
  destruct e; cbn; eauto.
Qed.

Lemma ends_modify n s0 f :
  Proper (same_but_time ==> same_but_time) f -> KeepsTimers f ->
  EndsAt n s0 (modify f) (inr (tt, f s0)).
Proof.
  intros Hf K s Hs Hn. exists (f s). split_and!; [done|by rewrite Hs|].
  unfold KeepsTimers in K. by rewrite K.
Qed.

Lemma ends_bind {A B} n s0 (m : M A) (f : A -> M B) e g :
  EndsAt n s0 m e -> (forall a s1, e = inr (a, s1) -> EndsAt n s1 (f a) (g a s1)) ->
  EndsAt n s0 (m ≫= f) ('(a, s1) ← e; g a s1).
Proof.
  intros Hm Hf s Hs Hn. specialize (Hm s Hs Hn). destruct e as [err|[a s1]]; cbn in *.
  - destruct Hm as [s' E]. exists s'. by apply bind_Stopped_eq.
  - destruct Hm as (s' & E & Hs' & Hn'). rewrite (bind_Done_eq _ _ _ _ _ E).
    specialize (Hf a s1 eq_refl s' Hs' ltac:(lia)).
    destruct (g a s1) as [err|[b s2]]; cbn in *; [done|].
    destruct Hf as (s'' & ? & ? & ?). exists s''. split_and!; [done..|lia].
Qed.

Lemma ends_bind_reads {A B} n s0 (m : M A) (f : A -> M B) e g :
  ReadsAt n s0 m e -> (forall a, e = inr a -> EndsAt n s0 (f a) (g a)) ->
  EndsAt n s0 (m ≫= f) (a ← e; g a).
Proof.
  intros Hm Hf s Hs Hn. destruct (Hm s Hs Hn) as (s1 & Hs1 & Hn1 & E).
  destruct e as [err|a]; cbn in *.
  - exists s1. by apply bind_Stopped_eq.
  - rewrite (bind_Done_eq _ _ _ _ _ E). specialize (Hf a eq_refl s1 Hs1 ltac:(lia)).
    destruct (g a) as [err|[b s2]]; cbn in *; [done|].
    destruct Hf as (s'' & ? & ? & ?). exists s''. split_and!; [done..|lia].
Qed.

Lemma ends_with_timer {A} n s0 nm par (body : nat -> M A) e :
  (forall t, (n <= t)%nat -> EndsAt (S t) s0 (body t) e) -> EndsAt n s0 (with_timer nm par body) e.
Proof.
  intros Hb s Hs Hn.
  assert (ends (body (n_records s) (after_ctor nm par s)) e (after_ctor nm par s)) as H.
  { apply Hb; [done|by rewrite after_ctor_same|by rewrite after_ctor_length]. }
  destruct e as [err|[a s1]]; unfold ends in *.
  - destruct H as [s' E]. exists s'. by apply with_timer_Stopped.
  - destruct H as (s2 & E & Hs2 & Hn2). rewrite after_ctor_length in Hn2.
    unfold with_timer. rewrite (bind_Done_eq _ _ _ _ _ (Timer_ctor_eq nm par s)).
    rewrite (bind_Done_eq _ _ _ _ _ E).
    destruct (record_stop_eq (n_records s) s2) as (s3 & E3 & Hs3 & _); [lia|].
    rewrite (bind_Done_eq _ _ _ _ _ E3). exists s3.
    split_and!; [done|by rewrite Hs3|rewrite (n_records_stop _ _ _ E3); lia].
Qed.

Lemma ends_for_each {A} n s0 (l : list A) (body : A -> M unit) (b : A -> St -> exc St) :
  (forall x s1, x ∈ l -> EndsAt n s1 (body x) (s2 ← b x s1; inr (tt, s2))) ->
  EndsAt n s0 (for_each_M l body) (s1 ← for_each l b s0; inr (tt, s1)).
Proof.
  revert s0. induction l as [|x l IH]; intros s0 H; cbn.
  - apply (ends_reads n s0 (mret tt) (inr tt)), reads_ret.
  - replace (s1 ← (s' ← b x s0; for_each l b s'); inr (tt, s1))
      with ('(_, s1) ← (s2 ← b x s0; inr (tt, s2)); s3 ← for_each l b s1; inr (tt, s3))
      by (by destruct (b x s0)).
    apply ends_bind; [apply H; left|]. intros [] s1 _. apply IH. intros y s2 Hy. apply H. by right.
Qed.

#[export] Instance ends_ret {A} n s0 (a : A) : EndsAt n s0 (mret a) (inr (a, s0)).
Proof. intros s Hs _. by exists s. Qed.

Lemma ends_bind_eq {A B} n s0 (m : M A) (f : A -> M B) a e :
  ReadsAt n s0 m (inr a) -> EndsAt n s0 (f a) e -> EndsAt n s0 (m ≫= f) e.
Proof.
  intros Hm Hf. change e with ((inr a : exc A) ≫= fun _ => e).
  apply ends_bind_reads; [done|]. by intros ? [= <-].
Qed.

Lemma ends_modify_bind {B} n s0 f (k : unit -> M B) e :
  Proper (same_but_time ==> same_but_time) f -> KeepsTimers f ->
  EndsAt n (f s0) (k tt) e -> EndsAt n s0 (modify f ≫= k) e.
Proof.
  intros Hf K H. change e with ('(u, s1) ← (inr (tt, f s0) : exc (unit * St)); e).
  apply ends_bind; [by apply ends_modify|]. by intros ? ? [= <- <-].
Qed.

Lemma ends_stop {A} n s0 err : EndsAt n s0 (stop (A := A) err) (inl err).
Proof. intros s _ _. by exists s. Qed.

(** Two descriptions of the end that agree. *)
Lemma ends_eq {A} n s0 (m : M A) e e' : e = e' -> EndsAt n s0 m e -> EndsAt n s0 m e'.
Proof. by intros ->. Qed.
End Ends.

(** ** Computations without undefined behaviour

    [Safe m]: [m] returns, exits or throws; it never leaves an object and never runs
    out of fuel. *)

Section Safe.
Context `{CV : OpenCV} {os : OS}.

Definition safe {A} (r : Res A) : Prop :=
  match r with Done _ _ => True | Stopped e _ => tame e end.

Class Safe {A} (m : M A) : Prop := is_safe s : safe (m s).

Lemma safe_at_bind {A B} (m : M A) (f : A -> M B) s :
  safe (m s) -> (forall a s', m s = Done a s' -> safe (f a s')) -> safe ((m ≫= f) s).
Proof.
  intros Hm Hf. destruct (m s) as [a s'|e s'] eqn:E.
  - rewrite (bind_Done_eq _ _ _ _ _ E). by apply Hf.
  - by rewrite (bind_Stopped_eq _ _ _ _ _ E).
Qed.

Lemma safe_at_with_timer {A} nm par (body : nat -> M A) s :
  (forall t, TimedFrom (S t) (body t)) ->
  safe (body (length (timer_records (ctx s))) (after_ctor nm par s)) ->
  safe (with_timer nm par body s).
Proof.
  intros T H. destruct (body _ _) as [a s2|e s2] eqn:E.
  - destruct (with_timer_run nm par body s a s2 T E) as (s3 & -> & _). done.
  - by rewrite (with_timer_Stopped _ _ _ _ _ _ E).
Qed.

Lemma safe_bind {A B} (m : M A) (f : A -> M B) : Safe m -> (forall a, Safe (f a)) -> Safe (m ≫= f).
Proof. intros Hm Hf s. apply safe_at_bind; [apply Hm|]. intros a s' _. apply Hf. Qed.

#[export] Instance safe_ret {A} (a : A) : Safe (mret a).
Proof. by intros s. Qed.
#[export] Instance safe_get : Safe get.
Proof. by intros s. Qed.
#[export] Instance safe_gets {A} (f : Context -> A) : Safe (gets f).
Proof. by intros s. Qed.
#[export] Instance safe_modify f : Safe (modify f).
Proof. by intros s. Qed.
#[export] Instance safe_Fatal {A} msg : Safe (Fatal (A := A) msg).
Proof. intros s. by rewrite Fatal_spec. Qed.

Lemma safe_lift {A} (e : exc A) : throws e -> Safe (lift e).
Proof. intros H s. unfold lift. by destruct e as [[]|a]. Qed.

Lemma safe_reads {A} n s0 (m : M A) e :
  ReadsAt n s0 m e -> throws e -> (n <= length (timer_records (ctx s0)))%nat -> safe (m s0).
Proof.
  intros H Ht Hn. destruct (H s0) as (s' & _ & _ & ->); [done|lia|]. by destruct e as [[]|].
Qed.

Lemma safe_ends {A} n s0 (m : M A) e :
  EndsAt n s0 m e -> throws e -> (n <= length (timer_records (ctx s0)))%nat -> safe (m s0).
Proof.
  intros H Ht Hn. specialize (H s0 ltac:(done) Hn). destruct e as [err|[a s1]]; cbn in H.
  - destruct H as [s' ->]. by destruct err.
  - by destruct H as (s' & -> & _).
Qed.
End Safe.

(** ** Computations whose undefined behaviour has a known cause

    [safe_unless U r]: the result [r] is a return, an exit or an exception, or else the
    code left an object, and [U] holds. *)

Section SafeUnless.
Context `{CV : OpenCV} {os : OS}.

Definition stops_well (U : Prop) (e : Stop) : Prop := tame e \/ e = UndefinedBehaviour /\ U.

Definition safe_unless (U : Prop) {A} (r : Res A) : Prop :=
  match r with Done _ _ => True | Stopped e _ => stops_well U e end.

Lemma safe_is_safe_unless {A} U (r : Res A) : safe r -> safe_unless U r.
Proof. destruct r as [a s|e s]; [done|]. by left. Qed.

Lemma safe_unless_bind {A B} U (m : M A) (f : A -> M B) s :
  safe_unless U (m s) -> (forall a s', m s = Done a s' -> safe_unless U (f a s')) ->
  safe_unless U ((m ≫= f) s).
Proof.
  intros Hm Hf. destruct (m s) as [a s'|e s'] eqn:E.
  - rewrite (bind_Done_eq _ _ _ _ _ E). by apply Hf.
  - by rewrite (bind_Stopped_eq _ _ _ _ _ E).
Qed.

Lemma safe_unless_with_timer {A} U nm par (body : nat -> M A) s :
  (forall t, TimedFrom (S t) (body t)) ->
  safe_unless U (body (length (timer_records (ctx s))) (after_ctor nm par s)) ->
  safe_unless U (with_timer nm par body s).
Proof.
  intros T H. destruct (body _ _) as [a s2|e s2] eqn:E.
  - destruct (with_timer_run nm par body s a s2 T E) as (s3 & -> & _). done.
  - by rewrite (with_timer_Stopped _ _ _ _ _ _ E).
Qed.
End SafeUnless.

Ltac safe_step :=
  lazymatch goal with
  | |- Safe (_ ≫= _) => apply safe_bind; [|intros ?]
  | |- Safe (lift _) => apply safe_lift; throws
  | |- Safe (match ?x with _ => _ end) => destruct x
  | |- Safe _ => apply _
  end.
Ltac safe := intros; repeat safe_step.

(** Derive [TimedFrom] by the structure of the code. *)
Ltac timed_step :=
  lazymatch goal with
  | |- TimedFrom _ (mbind _ _) => apply timed_bind; [|intros ?]
  | |- TimedFrom _ (for_each_M _ _) => apply timed_for_each; intros ?
  | |- TimedFrom _ (with_timer _ _ _) =>
      apply timed_with_timer; [intros ? [=]; subst; lia|intros ? ?]
  | |- TimedFrom _ (match ?x with _ => _ end) => destruct x
  | |- TimedFrom _ _ => first [apply _|eapply timed_weaken; [|apply _]; lia]
  end.
Ltac timed := intros; repeat timed_step.

(** Derive [ReadsAt] by the structure of the code; the pure computation has the same
    shape. *)
Ltac reads_step :=
  lazymatch goal with
  | |- ReadsAt _ _ (gets _ ≫= _) _ => eapply reads_bind_eq; [apply _|]; cbn beta
  | |- ReadsAt _ _ (Timer_stop _ ≫= _) _ =>
      eapply reads_bind_eq; [apply reads_Timer_stop; lia|]; cbn beta
  | |- ReadsAt _ _ (mret _ ≫= _) _ => eapply reads_bind_eq; [apply reads_ret|]; cbn beta
  | |- ReadsAt _ _ (mbind _ _) _ => apply reads_bind; [|intros ? ?]
  | |- ReadsAt _ _ (with_timer _ _ _) _ => apply reads_with_timer; intros ? ?
  | |- ReadsAt _ _ (match ?x with _ => _ end) _ => destruct x
  | |- ReadsAt _ _ _ _ => first [apply _|eapply reads_weaken; [|apply _]; lia]
  end.
Ltac reads := intros; repeat reads_step.

(** The same for [EndsAt]. *)
Ltac ends_step :=
  lazymatch goal with
  | |- EndsAt _ _ (gets _ ≫= _) _ => eapply ends_bind_eq; [apply _|]; cbn beta
  | |- EndsAt _ _ (modify _ ≫= _) _ => eapply ends_modify_bind; [apply _|apply _|]; cbn beta
  | |- EndsAt _ _ (lift _ ≫= _) _ => apply ends_bind_reads; [apply _|intros ? ?]
  | |- EndsAt _ _ (with_timer _ _ _) _ => apply ends_with_timer; intros ? ?
  | |- EndsAt _ _ (mret _) _ => apply ends_ret
  | |- EndsAt _ _ (modify _) _ => apply ends_modify; apply _
  | |- EndsAt _ _ (match ?x with _ => _ end) _ => destruct x
  end.
Ltac ends := intros; repeat ends_step.
