(* ===== verification/Report.v ===== *)
(** The report on a state: [print_timer_records] stops the running timers, prints the
    lines of PerfForest on the standard output and changes nothing else.  [is_report] says
    that a text is the report on given records: one line for each of them. *)

From S2P Require Import Prelude StdLib Cv Perf PerfForest State Timed.

Section Report.
Context `{CV : OpenCV} {os : OS} {SS : StdSort} {SL : StdSortLaws SS}.

Abbreviation records s := (timer_records (ctx s)).

#[export] Instance timed_stop_all n l : TimedFrom n (for_each_M l record_stop).
Proof. timed. Qed.

Lemma facts_names (ts ts' : timers) : facts <$> ts' = facts <$> ts -> (name <$> ts') = (name <$> ts).
Proof.
  intros E. apply (f_equal (fmap (fun p : string * Z * Z * Z * Z * bool => p.1.1.1.1.1))) in E.
  by rewrite <- !list_fmap_compose in E.
Qed.

(** Stopping every record. *)
Lemma stop_all_run s k :
  Forall (fun i => i < length (records s))%nat k ->
  exists s', for_each_M k record_stop s = Done tt s' /\ s' ≈ s /\
    length (records s') = length (records s) /\ (name <$> records s') = (name <$> records s) /\
    forall i r, i ∈ k \/ (exists r0, records s !! i = Some r0 /\ stopped r0 = true) ->
      records s' !! i = Some r -> stopped r = true.
Proof.
  revert s. induction k as [|i k IH]; intros s Hk.
  { exists s. split_and!; [done..|]. intros i r [?%elem_of_nil|(r0 & H0 & ?)] Hr; [done|]. congruence. }
  inversion Hk as [|? ? Hi Hk']; subst. cbn [for_each_M].
  destruct (record_stop_eq i s Hi) as (s1 & E & Hs & Hr).
  rewrite (bind_Done_eq _ _ _ _ _ E). assert (length (records s1) = length (records s)) as Hlen
    by (by rewrite Hr, length_alter).
  destruct (IH s1) as (s2 & E2 & Hs2 & Hlen2 & Hn2 & Hst2); [by rewrite Hlen|].
  exists s2. split_and!; [done|by rewrite Hs2|congruence|by rewrite Hn2, Hr, names_stop|].
  intros j r Hj Hjr. apply (Hst2 j); [|done].
  destruct Hj as [[-> |Hj]%elem_of_cons|(r0 & Hj & Hst)]; [right|by left|right].
  - destruct (lookup_lt_is_Some_2 _ _ Hi) as [r0 Hr0].
    eexists. split; [by rewrite Hr, list_lookup_alter_eq, Hr0|]. unfold TimerRecord_stop.
    by destruct (stopped r0) eqn:?.
  - rewrite Hr, list_lookup_alter. case_decide; [subst|by exists r0]. rewrite Hj; cbn.
    eexists. split; [done|]. unfold TimerRecord_stop. by rewrite Hst.
Qed.

(** Writing lines on the standard output. *)
Definition concat_lines (l : list string) : string := foldr String.append EmptyString l.

Lemma write_lines s l :
  for_each_M l (fun x => modify (set_wld (write_out x))) s =
  Done tt (set_wld (write_out (concat_lines l)) s).
Proof.
  revert s. induction l as [|x l IH]; intros s; cbn [for_each_M concat_lines foldr].
  - assert (w_out (wld s) +:+ "" = w_out (wld s)) as E.
    { induction (w_out (wld s)) as [|c t IHt]; [done|]. exact (f_equal (String c) IHt). }
    destruct s as [c []]. unfold set_wld, write_out; cbn in *. by rewrite E.
  - rewrite (bind_Done_eq _ _ s tt (set_wld (write_out x) s)) by done. rewrite IH.
    unfold set_wld, write_out; cbn. by rewrite append_assoc.
Qed.

(** The text is the report on the records [ts]: the header, then one line for each
    record, indented by the number of its ancestors. *)
Definition is_report (ts : timers) (text : string) : Prop :=
  exists ord lines, text = concat_lines (print_header :: lines) /\ report_lines ts ord lines /\
    Permutation ord.*1 (seq 0 (length ts)) /\
    forall j e, (j, e) ∈ ord <-> exists i n, root ts i /\ ancestor ts n j i /\ e = Z.of_nat n.

(** Printing reorders children only. *)
Lemma is_report_reordered ts ts' text :
  reordered ts ts' -> is_report ts text -> is_report ts' text.
Proof.
  intros H (ord & lines & -> & Hl & Hp & Hd). exists ord, lines. split_and!; [done| | |].
  - by apply (report_lines_reordered ts ts' ord lines H).
  - by rewrite <- (Forall2_length _ _ _ H).
  - intros j e. rewrite Hd. split; intros (i & n & Hr & Ha & ->); exists i, n;
      (split_and!; [by apply (root_reordered ts ts' i H)|by apply (ancestor_reordered ts ts' n j i H)|done]).
Qed.

(** Every record is stopped. *)
Definition all_stopped (ts : timers) : Prop := Forall (fun r => stopped r = true) ts.

Lemma facts_stopped ts ts' : facts <$> ts' = facts <$> ts -> all_stopped ts -> all_stopped ts'.
Proof.
  intros E H. apply Forall_lookup. intros i r' Hr'. symmetry in E.
  destruct (facts_lookup _ _ _ _ E Hr') as (r & Hr & [= _ _ _ _ _ <-]).
  unfold all_stopped in H. rewrite Forall_lookup in H. by eapply H.
Qed.

(** A second stop changes no record. *)
Lemma stop_stopped i s s' :
  all_stopped (records s) -> record_stop i s = Done tt s' -> records s' = records s.
Proof.
  intros H E. destruct (decide (i < length (records s))%nat) as [Hi|Hi].
  - destruct (record_stop_eq i s Hi) as (s1 & E1 & _ & Er). rewrite E in E1. injection E1 as <-.
    rewrite Er.
    apply list_eq. intros k. rewrite list_lookup_alter. case_decide as Hk; [|done]. subst k.
    destruct (lookup_lt_is_Some_2 _ _ Hi) as [r Hr]. rewrite Hr; cbn. f_equal.
    unfold all_stopped in H. rewrite Forall_lookup in H. unfold TimerRecord_stop. by rewrite (H i r Hr).
  - unfold record_stop, mbind, M_bind, gets, lift in E.
    rewrite (proj2 (lookup_ge_None _ _)) in E by lia. done.
Qed.

(** [print_timer_records] always returns, and prints the report on the records it
    leaves, all stopped. *)
Lemma print_run s :
  timers_reachable (records s) ->
  exists s' text, print_timer_records s = Done tt s' /\
    s' ≈ set_wld (write_out text) s /\ is_report (records s') text /\ all_stopped (records s') /\
    (name <$> records s') = (name <$> records s).
Proof.
  intros R. unfold print_timer_records.
  rewrite (bind_Done_eq _ _ s (records s) s) by done.
  destruct (stop_all_run s (seq 0 (length (records s)))) as (s1 & E1 & Hs1 & Hlen & Hn1 & Hst1).
  { apply Forall_seq. lia. }
  rewrite (bind_Done_eq _ _ _ _ _ E1). rewrite (bind_Done_eq _ _ s1 (records s1) s1) by done.
  assert (timers_reachable (records s1)) as R1.
  { eapply steps_reachable; [exact R|].
    exact (timed_stop_all 0 _ s tt s1 ltac:(lia) E1). }
  destruct (report_spec _ R1) as (ts1 & ts2 & ord & lines & _ & E2 & Hl & Hp & Hd & _ & Hre & Hf).
  rewrite E2. unfold lift. rewrite (bind_Done_eq _ _ s1 (ts2, print_header :: lines) s1) by done.
  cbn beta iota. rewrite (bind_Done_eq _ _ s1 tt (set_timer_records (fun _ => ts2) s1)) by done.
  rewrite write_lines. eexists _, (concat_lines (print_header :: lines)). split; [done|].
  assert (facts <$> ts2 = facts <$> records s1) as Hf2 by (by rewrite (facts_reordered _ _ Hre)).
  split_and!.
  - unfold same_but_time in *.
    change (set_wld (write_out (concat_lines (print_header :: lines))) (forget_time s1) =
            set_wld (write_out (concat_lines (print_header :: lines))) (forget_time s)).
    by rewrite Hs1.
  - cbn. apply (is_report_reordered ts1); [done|]. exists ord, lines. split_and!; [done..| |done].
    by rewrite Hp, <- (length_fmap facts ts1), Hf, length_fmap.
  - cbn. apply (facts_stopped (records s1)); [done|]. apply Forall_lookup. intros i r Hr.
    apply (Hst1 i); [|done]. left. apply elem_of_seq. apply lookup_lt_Some in Hr. lia.
  - cbn. rewrite <- Hn1. by apply facts_names.
Qed.
End Report.
