(* ===== verification/Grouping.v ===== *)
(** Grouping of marker pixels into segments: the [bfs] lambda and the scan loop
    of [split_segments] (image.cc).  The theorems show that the scan computes
    the bounding boxes of the 8-connected components of the foreground. *)

From S2P Require Import Prelude Cv CvGrid.

(** ** The code *)

Section Code.
Context `{CV : OpenCV}.

(** The variables [bfs] mutates: the captured [markers], [minP], [maxP], [Q]. *)
Record BfsState := mkBfs {
  markers : Mat;
  minP : Point;
  maxP : Point;
  queue : list (Z * Z)
}.

(** The body of the loops over [dy] and [dx], for the cell [(x, y)]. *)
Definition visit (x y dy dx : Z) (st : BfsState) : exc BfsState :=
  let nx := x + dx in
  let ny := y + dy in
  (* skip myself *)
  if (dx =? 0) && (dy =? 0) then mret st
  (* boundary check *)
  else if (nx <? 0) || (cols (markers st) <=? nx) then mret st
  else if (ny <? 0) || (rows (markers st) <=? ny) then mret st
  else
    v ← deref (at_int (markers st) ny nx);
    (* border: -1, background: 1, already processed: 0 *)
    if v <=? 1 then mret st
    else
      (* mark processed *)
      m' ← deref (set_int (markers st) ny nx 0);
      mret {| markers := m';
              minP := mkPoint (Z.min (px (minP st)) nx) (Z.min (py (minP st)) ny);
              maxP := mkPoint (Z.max (px (maxP st)) nx) (Z.max (py (maxP st)) ny);
              queue := queue st ++ [(nx, ny)] |}.

(** [for (dy = -1..1) for (dx = -1..1)] around the cell taken from [Q]. *)
Definition visit_neighbours (x y : Z) : BfsState -> exc BfsState :=
  for_each (seqZ (-1) 3) (fun dy => for_each (seqZ (-1) 3) (visit x y dy)).

Definition pop (st : BfsState) (q : list (Z * Z)) : BfsState :=
  {| markers := markers st; minP := minP st; maxP := maxP st; queue := q |}.

(** [while (!Q.empty())] *)
Fixpoint bfs_loop (fuel : nat) (st : BfsState) : exc BfsState :=
  match queue st with
  | [] => mret st
  | (x, y) :: q =>
      match fuel with
      | O => inl OutOfFuel
      | S fuel =>
          st' ← visit_neighbours x y (pop st q);
          bfs_loop fuel st'
      end
  end.

(** Every iteration takes one cell from [Q]; besides the start, a cell enters
    [Q] when it is erased, so at most once. *)
Definition bfs_fuel (m : Mat) : nat := S (Z.to_nat (rows m) * Z.to_nat (cols m)).

Definition bfs (m : Mat) (sx sy : Z) : exc (Mat * option Rect) :=
  st ← bfs_loop (bfs_fuel m)
         {| markers := m; minP := mkPoint sx sy; maxP := mkPoint sx sy;
            queue := [(sx, sy)] |};
  mret (markers st,
    if (px (minP st) =? sx) && (py (minP st) =? sy) &&
       (px (maxP st) =? sx) && (py (maxP st) =? sy)
    then None
    else Some (Rect_pts (minP st) (maxP st))).

(** The body of the scan over [y] and [x]; the state is [markers] and
    [segments]. *)
Definition group_pixel (y x : Z) (st : Mat * list Rect) : exc (Mat * list Rect) :=
  v ← deref (at_int st.1 y x);
  if v <=? 1 then mret st
  else
    '(m', rect) ← bfs st.1 x y;
    mret (m', match rect with Some r => st.2 ++ [r] | None => st.2 end).

Definition group (m : Mat) : exc (Mat * list Rect) :=
  for_each (seqZ 0 (rows m)) (fun y => for_each (seqZ 0 (cols m)) (group_pixel y))
    (m, []).
End Code.

(** ** The specification: connected components and bounding boxes

    A cell is a pair [(x, y)]. *)

Section Spec.
Context `{CV : OpenCV}.

Definition pix (m : Mat) (p : Z * Z) : option Z := at_int m p.2 p.1.

(** Foreground: a label above the background's 1. *)
Definition fg (m : Mat) (p : Z * Z) : Prop :=
  match pix m p with Some v => 1 < v | None => False end.

#[export] Instance fg_dec m p : Decision (fg m p).
Proof. unfold fg. destruct (pix m p); apply _. Defined.

Definition adj (p q : Z * Z) : Prop :=
  p <> q /\ Z.abs (p.1 - q.1) <= 1 /\ Z.abs (p.2 - q.2) <= 1.

Definition link (m : Mat) (p q : Z * Z) : Prop := fg m p /\ fg m q /\ adj p q.

(** Two foreground cells of one 8-connected component. *)
Definition conn (m : Mat) : relation (Z * Z) := rtc (link m).

Definition isolated (m : Mat) (p : Z * Z) : Prop := forall q, adj p q -> ~ fg m q.

(** [lo] and [hi] are the corners of the tight bounding box of [C]. *)
Record bbox (C : Z * Z -> Prop) (lo hi : Point) : Prop := {
  bbox_in q : C q -> px lo <= q.1 <= px hi /\ py lo <= q.2 <= py hi;
  bbox_left : exists q, C q /\ q.1 = px lo;
  bbox_right : exists q, C q /\ q.1 = px hi;
  bbox_top : exists q, C q /\ q.2 = py lo;
  bbox_bottom : exists q, C q /\ q.2 = py hi
}.

(** [m'] is [m] with the component of [s] erased, when [s] is not alone. *)
Definition erases (m : Mat) (s : Z * Z) (m' : Mat) : Prop :=
  same_shape m m' /\
  forall q, (conn m s q /\ ~ isolated m s /\ pix m' q = Some 0) \/
            (~ (conn m s q /\ ~ isolated m s) /\ pix m' q = pix m q).

(** The rectangle [cv::Rect(lo, hi)] of a box. *)
Definition rect_of (lo hi : Point) : Rect :=
  mkRect (px lo) (py lo) (px hi - px lo) (py hi - py lo).

(** What [bfs] promises for a component. *)
Definition is_segment (m : Mat) (s : Z * Z) (r : Rect) : Prop :=
  exists lo hi, bbox (conn m s) lo hi /\ r = rect_of lo hi.
End Spec.

(** ** Facts on components and boxes *)

Section Facts.
Context `{CV : OpenCV} {ML : MatLaws CV}.
Implicit Types (m : Mat) (p q r s : Z * Z) (C : Z * Z -> Prop).

Lemma adj_sym p q : adj p q -> adj q p.
Proof. unfold adj. intros (? & ? & ?). split; [done|lia]. Qed.

#[export] Instance link_symmetric m : Symmetric (link m).
Proof. intros p q (? & ? & ?). split_and!; auto using adj_sym. Qed.

#[export] Instance conn_equivalence m : Equivalence (conn m).
Proof. unfold conn. apply _. Qed.

Lemma conn_fg m p q : fg m p -> conn m p q -> fg m q.
Proof. intros Hp H. induction H as [|a b c (? & ? & ?) ? IH]; auto. Qed.

Lemma conn_step m s p q : conn m s p -> fg m p -> fg m q -> adj p q -> conn m s q.
Proof. intros. unfold conn. eapply rtc_r; [done|]. by split_and!. Qed.

Lemma isolated_conn m s q : isolated m s -> conn m s q -> q = s.
Proof.
  intros Hi H. induction H as [|a b c (? & ? & ?) ? IH]; [done|].
  exfalso. by apply (Hi b).
Qed.

(** A component is determined by the labels of its own cells. *)
Lemma conn_local m m' s q :
  (forall q, conn m s q -> fg m q -> fg m' q) -> conn m s q -> conn m' s q.
Proof.
  intros Hag H. pattern q. eapply rtc_ind_r; [apply rtc_refl| |exact H].
  intros p r Hp (Hfp & Hfr & Ha) IH.
  assert (conn m s r) by (by apply (conn_step m s p r)).
  apply (conn_step m' s p r); auto.
Qed.

Lemma fg_bounds m p : mtype m = CV_32SC1 -> fg m p -> in_bounds m p.2 p.1.
Proof.
  unfold fg, pix. intros Ht Hf. apply at_int_bounds; [done|].
  destruct (at_int m p.2 p.1); [eauto|done].
Qed.

Lemma adj_offset p q :
  adj p q -> exists dx dy, q = (p.1 + dx, p.2 + dy) /\ (dx, dy) <> (0, 0) /\
                           -1 <= dx <= 1 /\ -1 <= dy <= 1.
Proof.
  destruct p as [x y], q as [x' y']. unfold adj; cbn. intros (Hne & ? & ?).
  exists (x' - x), (y' - y). split_and!; [f_equal; lia| |lia|lia|lia|lia].
  intros [= ? ?]. apply Hne. f_equal; lia.
Qed.

Lemma offset_adj p dx dy :
  (dx, dy) <> (0, 0) -> -1 <= dx <= 1 -> -1 <= dy <= 1 ->
  adj p (p.1 + dx, p.2 + dy).
Proof.
  intros Hne ? ?. destruct p as [x y]. unfold adj; cbn. split; [|lia].
  intros [= ? ?]. apply Hne. f_equal; lia.
Qed.

Lemma bbox_ext C C' lo hi :
  (forall q, C q <-> C' q) -> bbox C lo hi -> bbox C' lo hi.
Proof. intros HC [Hin ? ? ? ?]. split; setoid_rewrite <- HC; done. Qed.

Lemma bbox_singleton s : bbox (eq s) (mkPoint s.1 s.2) (mkPoint s.1 s.2).
Proof. split; cbn; [intros ? <-; lia|eauto..]. Qed.

Lemma bbox_add C n lo hi :
  bbox C lo hi ->
  bbox (fun q => q = n \/ C q)
    (mkPoint (Z.min (px lo) n.1) (Z.min (py lo) n.2))
    (mkPoint (Z.max (px hi) n.1) (Z.max (py hi) n.2)).
Proof.
  intros [Hin (a & ? & Ha) (b & ? & Hb) (c & ? & Hc) (d & ? & Hd)]; split; cbn.
  - intros q [->|Hq]; [lia|]. specialize (Hin q Hq). lia.
  - destruct (Z.min_spec (px lo) n.1) as [[? ->]|[? ->]]; eauto.
  - destruct (Z.max_spec (px hi) n.1) as [[? ->]|[? ->]]; eauto.
  - destruct (Z.min_spec (py lo) n.2) as [[? ->]|[? ->]]; eauto.
  - destruct (Z.max_spec (py hi) n.2) as [[? ->]|[? ->]]; eauto.
Qed.

Lemma bbox_corners C lo hi : bbox C lo hi -> px lo <= px hi /\ py lo <= py hi.
Proof. intros [Hin (a & Ha & ?) _ _ _]. specialize (Hin a Ha). lia. Qed.

(** The foreground as a finite set, the measure of the search. *)
Definition cells m : list (Z * Z) :=
  seqZ 0 (rows m) ≫= fun y => (fun x => (x, y)) <$> seqZ 0 (cols m).

Definition fgset m : gset (Z * Z) := filter (fg m) (list_to_set (cells m)).

Lemma elem_of_cells m p : p ∈ cells m <-> in_bounds m p.2 p.1.
Proof.
  unfold cells, in_bounds. destruct p as [x y]; cbn.
  rewrite list_elem_of_bind. split.
  - intros (y' & (x' & [= -> ->] & Hx)%list_elem_of_fmap & Hy).
    apply elem_of_seqZ in Hx, Hy. lia.
  - intros [? ?]. exists y. rewrite list_elem_of_fmap, elem_of_seqZ.
    split; [|lia]. exists x. rewrite elem_of_seqZ. split; [done|lia].
Qed.

Lemma elem_of_fgset m p : mtype m = CV_32SC1 -> p ∈ fgset m <-> fg m p.
Proof.
  intros Ht. unfold fgset. rewrite elem_of_filter, elem_of_list_to_set, elem_of_cells.
  split; [tauto|]. intros Hf. split; [done|by apply fg_bounds].
Qed.

Lemma length_cells m : length (cells m) = (Z.to_nat (rows m) * Z.to_nat (cols m))%nat.
Proof.
  unfold cells. rewrite <- (length_seqZ 0 (rows m)).
  induction (seqZ 0 (rows m)) as [|y l IH]; [done|].
  cbn. rewrite length_app, length_fmap, length_seqZ, IH. lia.
Qed.

Lemma size_fgset m : (size (fgset m) <= Z.to_nat (rows m) * Z.to_nat (cols m))%nat.
Proof.
  rewrite <- length_cells. etrans; [apply (subseteq_size _ (list_to_set (cells m)))|].
  - unfold fgset. set_solver.
  - generalize (cells m). induction l as [|p l IH]; [done|].
    rewrite list_to_set_cons, length_cons.
    rewrite size_union_alt, size_singleton.
    assert (size (list_to_set l ∖ {[p]} : gset (Z * Z)) <= size (list_to_set l : gset (Z * Z)))%nat.
    { apply subseteq_size. set_solver. }
    lia.
Qed.
End Facts.

(** ** The invariant of the search *)

Section Search.
Context `{CV : OpenCV} {ML : MatLaws CV}.
Implicit Types (m : Mat) (p q r s : Z * Z) (st : BfsState).

(** The cells erased since [m0], and the cells the search has reached. *)
Definition erased m0 m q : Prop := fg m0 q /\ ~ fg m q.
Definition reached m0 s m q : Prop := q = s \/ erased m0 m q.

(** [cur] is the cell taken from [Q] whose neighbours are being visited. *)
Record BfsInv (m0 : Mat) (s : Z * Z) (cur : option (Z * Z)) (st : BfsState) : Prop := {
  inv_shape : same_shape m0 (markers st);
  inv_pix q : pix (markers st) q = pix m0 q \/ (fg m0 q /\ pix (markers st) q = Some 0);
  inv_queue q : q ∈ queue st -> reached m0 s (markers st) q;
  inv_conn q : erased m0 (markers st) q -> exists p, conn m0 s p /\ link m0 p q;
  inv_done q : reached m0 s (markers st) q ->
    q ∈ queue st \/ cur = Some q \/ (forall r, adj q r -> ~ fg (markers st) r);
  inv_box : bbox (reached m0 s (markers st)) (minP st) (maxP st)
}.

Definition measure st : nat := (size (fgset (markers st)) + length (queue st))%nat.

Lemma inv_fg m0 s cur st q : BfsInv m0 s cur st -> fg (markers st) q -> fg m0 q.
Proof.
  intros I Hq. destruct (inv_pix _ _ _ _ I q) as [E|[? _]]; [|done].
  unfold fg in *. by rewrite <- E.
Qed.

Lemma reached_fg m0 s m q : fg m0 s -> reached m0 s m q -> fg m0 q.
Proof. by intros Hs [->|[? _]]. Qed.

Lemma reached_conn m0 s cur st q :
  BfsInv m0 s cur st -> reached m0 s (markers st) q -> conn m0 s q.
Proof.
  intros I [->|(p & ? & ?)%(inv_conn _ _ _ _ I)]; [apply rtc_refl|].
  by eapply rtc_r.
Qed.

Lemma inv_init m s :
  fg m s -> BfsInv m s None (mkBfs m (mkPoint s.1 s.2) (mkPoint s.1 s.2) [s]).
Proof.
  intros Hs. split; cbn.
  - done.
  - auto.
  - intros q ->%list_elem_of_singleton. by left.
  - by intros q [].
  - intros q [->|[]]; [|done]. left. by apply list_elem_of_singleton.
  - eapply bbox_ext, bbox_singleton. intros q. unfold reached, erased.
    split; [by left|]. by intros [->|[]].
Qed.

(** Taking a cell from [Q]. *)
Lemma inv_pop m0 s p l st :
  queue st = p :: l -> BfsInv m0 s None st -> BfsInv m0 s (Some p) (pop st l).
Proof.
  intros HQ I. split; cbn; try apply I.
  - intros r Hr. apply (inv_queue _ _ _ _ I). rewrite HQ. by right.
  - intros r Hr. destruct (inv_done _ _ _ _ I r Hr) as [Hin|[?|?]]; [|done|auto].
    rewrite HQ in Hin. apply elem_of_cons in Hin as [->|?]; auto.
Qed.

(** The effect of erasing a foreground cell. *)
Lemma erase_fg m q m' :
  mtype m = CV_32SC1 -> set_int m q.2 q.1 0 = Some m' ->
  same_shape m m' /\ pix m' q = Some 0 /\
  (forall r, r <> q -> pix m' r = pix m r) /\
  (forall r, fg m' r <-> fg m r /\ r <> q).
Proof.
  intros Ht Hset. apply set_int_spec in Hset as (Hsh & Hq & Hne); [|done].
  assert (forall r, r <> q -> pix m' r = pix m r) as Hne'.
  { intros r Hr. apply Hne. intros [= ? ?]. apply Hr. by apply injective_projections. }
  split_and!; [done|done|done|]. intros r. unfold fg.
  destruct (decide (r = q)) as [->|Hr].
  - unfold pix at 1. rewrite Hq. split; [lia|by intros [_ []]].
  - rewrite Hne' by done. split; [by split|by intros [? _]].
Qed.

Lemma erase_measure m q m' :
  mtype m = CV_32SC1 -> fg m q -> set_int m q.2 q.1 0 = Some m' ->
  size (fgset m) = S (size (fgset m')).
Proof.
  intros Ht Hq Hset. destruct (erase_fg m q m' Ht Hset) as ((_ & _ & Ht') & _ & _ & Hfg).
  assert (fgset m = {[q]} ∪ fgset m') as ->.
  { apply set_eq. intros r. rewrite elem_of_union, elem_of_singleton.
    rewrite !elem_of_fgset by congruence. rewrite Hfg.
    split; [|by intros [->|[? _]]]. intros ?. destruct (decide (r = q)); auto. }
  rewrite size_union, size_singleton; [done|].
  intros r ->%elem_of_singleton Hr. rewrite elem_of_fgset, Hfg in Hr by congruence.
  by destruct Hr.
Qed.

Lemma reached_erase m0 s m q m' r :
  mtype m = CV_32SC1 -> fg m0 q -> set_int m q.2 q.1 0 = Some m' ->
  reached m0 s m' r <-> r = q \/ reached m0 s m r.
Proof.
  intros Ht Hq Hset. apply erase_fg in Hset as (_ & _ & _ & Hfg); [|done].
  unfold reached, erased. rewrite Hfg.
  destruct (decide (r = q)) as [->|?]; [tauto|]. tauto.
Qed.

(** Erasing a foreground neighbour of the current cell keeps the invariant. *)
Lemma inv_erase m0 s p q st m' :
  mtype m0 = CV_32SC1 -> fg m0 s -> BfsInv m0 s (Some p) st ->
  reached m0 s (markers st) p -> adj p q -> fg (markers st) q ->
  set_int (markers st) q.2 q.1 0 = Some m' ->
  BfsInv m0 s (Some p)
    (mkBfs m'
       (mkPoint (Z.min (px (minP st)) q.1) (Z.min (py (minP st)) q.2))
       (mkPoint (Z.max (px (maxP st)) q.1) (Z.max (py (maxP st)) q.2))
       (queue st ++ [q])).
Proof.
  intros Ht Hs I Hp Hadj Hq Hset.
  pose proof (inv_shape _ _ _ _ I) as (Hr & Hc & Htm).
  assert (mtype (markers st) = CV_32SC1) as Ht' by congruence.
  pose proof (inv_fg _ _ _ _ _ I Hq) as Hq0.
  pose proof (fun r => reached_erase m0 s _ q m' r Ht' Hq0 Hset) as Hre.
  destruct (erase_fg _ _ _ Ht' Hset) as ((? & ? & ?) & Hq' & Hpix & Hfg).
  split; cbn.
  - unfold same_shape. split_and!; congruence.
  - intros r. destruct (decide (r = q)) as [->|Hne]; [by right|].
    rewrite Hpix by done. apply (inv_pix _ _ _ _ I).
  - intros r Hin. apply Hre. apply elem_of_app in Hin as [Hin|Hin].
    + right. by apply (inv_queue _ _ _ _ I).
    + left. by apply list_elem_of_singleton.
  - intros r [Hr0 Hrm]. rewrite Hfg in Hrm. destruct (decide (r = q)) as [->|Hne].
    + exists p. split; [by apply (reached_conn m0 s (Some p) st)|].
      split_and!; [by apply (reached_fg m0 s (markers st))|done..].
    + apply (inv_conn _ _ _ _ I). split; [done|tauto].
  - intros r [->|Hr']%Hre.
    + left. apply elem_of_app. right. by apply list_elem_of_singleton.
    + destruct (inv_done _ _ _ _ I r Hr') as [?|[?|Hn]].
      * left. apply elem_of_app. by left.
      * auto.
      * right. right. intros r' Hr''. rewrite Hfg. intros [? ?]. by apply (Hn r').
  - eapply bbox_ext; [symmetry; apply Hre|]. apply bbox_add, I.
Qed.

(** One visit, on every branch: no access is out of bounds, and the visited
    cell is not foreground afterwards. *)
Lemma visit_spec m0 s p st dy dx :
  mtype m0 = CV_32SC1 -> fg m0 s -> BfsInv m0 s (Some p) st ->
  reached m0 s (markers st) p -> -1 <= dx <= 1 -> -1 <= dy <= 1 ->
  exists st', visit p.1 p.2 dy dx st = inr st' /\
    BfsInv m0 s (Some p) st' /\ reached m0 s (markers st') p /\
    measure st' = measure st /\
    (forall r, fg (markers st') r -> fg (markers st) r) /\
    ((dx, dy) <> (0, 0) -> ~ fg (markers st') (p.1 + dx, p.2 + dy)).
Proof.
  intros Ht Hs I Hp Hdx Hdy.
  assert (mtype (markers st) = CV_32SC1) as Ht'
    by (destruct (inv_shape _ _ _ _ I) as (_ & _ & ?); congruence).
  unfold visit. destruct (_ && _) eqn:E0.
  { exists st. split_and!; try done. intros []. f_equal; lia. }
  assert ((dx, dy) <> (0, 0)) as Hne by (intros [= -> ->]; done).
  pose proof (offset_adj p dx dy Hne Hdx Hdy) as Hadj.
  pose proof (fg_bounds (markers st) (p.1 + dx, p.2 + dy) Ht') as Hbd.
  unfold in_bounds in Hbd; cbn in Hbd.
  destruct (_ || _) eqn:E1.
  { exists st. split_and!; try done. intros _ Hf. specialize (Hbd Hf). lia. }
  destruct (_ || _) eqn:E2 in |- *.
  { exists st. split_and!; try done. intros _ Hf. specialize (Hbd Hf). lia. }
  clear Hbd.
  assert (in_bounds (markers st) (p.2 + dy) (p.1 + dx)) as Hin
    by (unfold in_bounds; lia).
  destruct (proj2 (at_int_bounds _ _ _ Ht') Hin) as [v Hv]. rewrite Hv; cbn.
  destruct (Z.leb_spec v 1).
  { exists st. split_and!; try done. intros _. unfold fg, pix; cbn. rewrite Hv. lia. }
  destruct (proj2 (set_int_bounds _ _ _ 0 Ht') Hin) as [m' Hset]. rewrite Hset; cbn.
  set (q := (p.1 + dx, p.2 + dy)) in *.
  assert (fg (markers st) q) as Hq by (unfold fg, pix, q; cbn; rewrite Hv; done).
  pose proof (inv_fg _ _ _ _ _ I Hq) as Hq0.
  destruct (erase_fg _ q _ Ht' Hset) as (_ & _ & _ & Hfg).
  eexists. split; [reflexivity|]. split_and!; cbn.
  - by apply (inv_erase m0 s p q).
  - eapply reached_erase; [exact Ht'|exact Hq0|done|by right].
  - unfold measure; cbn. rewrite (erase_measure _ q m' Ht' Hq Hset), length_app; cbn. lia.
  - intros r. rewrite Hfg. by intros [? _].
  - intros _. rewrite Hfg. by intros [_ []].
Qed.

(** The two loops around [p] visit all of its neighbours. *)
Lemma visit_neighbours_spec m0 s p st :
  mtype m0 = CV_32SC1 -> fg m0 s -> BfsInv m0 s (Some p) st ->
  reached m0 s (markers st) p ->
  exists st', visit_neighbours p.1 p.2 st = inr st' /\ BfsInv m0 s None st' /\
    measure st' = measure st.
Proof.
  intros Ht Hs I Hp. unfold visit_neighbours. rewrite for_each_nested.
  set (offs := seqZ (-1) 3 ≫= _).
  assert (forall dy dx, (dy, dx) ∈ offs <-> -1 <= dx <= 1 /\ -1 <= dy <= 1) as Hoffs.
  { intros dy dx. unfold offs. rewrite list_elem_of_bind. split.
    - intros (y & (x & [= -> ->] & Hx)%list_elem_of_fmap & Hy).
      apply elem_of_seqZ in Hx, Hy. lia.
    - intros [? ?]. exists dy. rewrite list_elem_of_fmap, elem_of_seqZ.
      split; [|lia]. exists dx. rewrite elem_of_seqZ. split; [done|lia]. }
  destruct (for_each_inv
    (fun done_ st' => BfsInv m0 s (Some p) st' /\ reached m0 s (markers st') p /\
       measure st' = measure st /\
       forall dy dx, (dy, dx) ∈ done_ -> (dx, dy) <> (0, 0) ->
         ~ fg (markers st') (p.1 + dx, p.2 + dy))
    offs (fun d => visit p.1 p.2 d.1 d.2) st) as (st' & E & I' & _ & Hm & Hn).
  - split_and!; try done. by intros ? ? ?%elem_of_nil.
  - intros done_ [dy dx] rest st1 Hl (I1 & Hp1 & Hm1 & Hn1).
    assert ((dy, dx) ∈ offs) as Hd%Hoffs by (rewrite Hl; set_solver).
    destruct (visit_spec m0 s p st1 dy dx) as (st2 & E & I2 & Hp2 & Hm2 & Hsub & Hn2);
      try done; [lia..|].
    exists st2. split_and!; [done|done|done|congruence|].
    intros dy' dx' [Hin|[= -> ->]%list_elem_of_singleton]%elem_of_app ?; [|auto].
    intros Hf%Hsub. by apply (Hn1 dy' dx').
  - exists st'. split_and!; [done| |done].
    destruct I' as [? ? ? ? Hdone ?]. split; try done.
    intros q Hq. destruct (Hdone q Hq) as [?|[[= <-]|?]]; auto.
    right. right. intros r Hr. apply adj_offset in Hr as (dx & dy & -> & Hne & ? & ?).
    apply (Hn dy dx); [by apply Hoffs|done].
Qed.

(** The loop returns: the measure bounds the number of iterations. *)
Lemma bfs_loop_spec m0 s fuel st :
  mtype m0 = CV_32SC1 -> fg m0 s -> BfsInv m0 s None st ->
  (measure st <= fuel)%nat ->
  exists st', bfs_loop fuel st = inr st' /\ BfsInv m0 s None st' /\ queue st' = [].
Proof.
  intros Ht Hs. revert st.
  induction fuel as [|fuel IH]; intros st I Hm; cbn;
    destruct (queue st) as [|[x y] l] eqn:HQ.
  - eauto.
  - unfold measure in Hm. rewrite HQ in Hm. cbn in Hm. lia.
  - eauto.
  - destruct (visit_neighbours_spec m0 s (x, y) (pop st l)) as (st1 & E & I1 & Hm1);
      [done|done|by apply inv_pop| |].
    { cbn. apply (inv_queue _ _ _ _ I). rewrite HQ. by left. }
    cbn in E. rewrite E; cbn. apply IH; [done|].
    unfold measure in *. rewrite HQ in Hm. cbn in *. lia.
Qed.

(** When [Q] is empty the reached cells are the component. *)
Lemma final_reached m0 s st q :
  BfsInv m0 s None st -> queue st = [] ->
  reached m0 s (markers st) q <-> conn m0 s q.
Proof.
  intros I HQ. split; [by apply (reached_conn m0 s None)|].
  intros Hc. pattern q. eapply rtc_ind_r; [by left| |exact Hc].
  intros p r _ (Hp & Hr & Ha) IH. right. split; [done|].
  destruct (inv_done _ _ _ _ I p IH) as [Hin|[?|Hn]]; [|done|by apply Hn].
  rewrite HQ in Hin. by apply elem_of_nil in Hin.
Qed.

Lemma final_erased m0 s st :
  fg m0 s -> BfsInv m0 s None st -> queue st = [] ->
  erased m0 (markers st) s <-> ~ isolated m0 s.
Proof.
  intros Hs I HQ. pose proof (fun q => final_reached m0 s st q I HQ) as Hre. split.
  - intros (p & Hp & (? & _ & Ha))%(inv_conn _ _ _ _ I) Hi.
    apply (isolated_conn m0 s p Hi) in Hp as ->. by destruct Ha.
  - intros Hni. destruct (decide (fg (markers st) s)) as [Hf|?]; [|by split].
    destruct Hni. intros r Ha Hr.
    assert (reached m0 s (markers st) r) as Hrr
      by (apply Hre, (conn_step m0 s s r); [apply rtc_refl|done..]).
    destruct (inv_done _ _ _ _ I r Hrr) as [Hin|[?|Hn]]; [|done|].
    + rewrite HQ in Hin. by apply elem_of_nil in Hin.
    + by apply (Hn s); [apply adj_sym|].
Qed.

Lemma final_erases m0 s st :
  fg m0 s -> BfsInv m0 s None st -> queue st = [] -> erases m0 s (markers st).
Proof.
  intros Hs I HQ. split; [apply I|]. intros q.
  pose proof (final_reached m0 s st q I HQ) as Hre.
  pose proof (final_erased m0 s st Hs I HQ) as Her.
  destruct (inv_pix _ _ _ _ I q) as [Heq|[Hq0 Hq]].
  - right. split; [|done]. intros [Hc Hni].
    apply Hre in Hc as [->|[? Hn]].
    + apply Her in Hni as [? Hn]. destruct Hn. unfold fg in *. by rewrite Heq.
    + destruct Hn. unfold fg in *. by rewrite Heq.
  - left. assert (erased m0 (markers st) q) as He
      by (split; [done|]; unfold fg; rewrite Hq; lia).
    split_and!; [by apply Hre; right| |done].
    destruct (inv_conn _ _ _ _ I q He) as (p & Hp & Hl).
    intros Hi. apply (isolated_conn m0 s p Hi) in Hp as ->.
    by apply (Hi q); destruct Hl as (? & ? & ?).
Qed.

(** The test on the corners tells an isolated pixel from a component. *)
Lemma final_box m0 s st :
  fg m0 s -> BfsInv m0 s None st -> queue st = [] ->
  bbox (conn m0 s) (minP st) (maxP st) /\
  (isolated m0 s <-> minP st = mkPoint s.1 s.2 /\ maxP st = mkPoint s.1 s.2).
Proof.
  intros Hs I HQ.
  assert (bbox (conn m0 s) (minP st) (maxP st)) as B
    by (eapply bbox_ext, I; intros q; by apply (final_reached m0 s st)).
  split; [done|]. split.
  - intros Hi. destruct B as [_ (a & Ha & Ea) (b & Hb & Eb) (c & Hc & Ec) (d & Hd & Ed)].
    apply (isolated_conn m0 s _ Hi) in Ha, Hb, Hc, Hd. subst.
    destruct (minP st), (maxP st); cbn in *. by subst.
  - intros [E1 E2] r Ha Hr.
    assert (conn m0 s r) as Hc by (apply (conn_step m0 s s r); [apply rtc_refl|done..]).
    apply (bbox_in _ _ _ B) in Hc. rewrite E1, E2 in Hc. cbn in Hc.
    destruct Ha as [Hne _]. apply Hne. destruct r, s; cbn in *. f_equal; lia.
Qed.
End Search.

(** ** The search *)

Section Bfs.
Context `{CV : OpenCV} {ML : MatLaws CV} {RL : RectLaws CV}.
Implicit Types (m : Mat) (p q r s : Z * Z).

(** The contract of the lambda, used by the scan loop: it returns, it erases
    the component of the start unless the start is alone, and it reports the
    bounding box of a component of two or more cells. *)
Lemma bfs_spec m s :
  mtype m = CV_32SC1 -> fg m s ->
  exists m' o, bfs m s.1 s.2 = inr (m', o) /\ erases m s m' /\
    match o with
    | None => isolated m s
    | Some r => ~ isolated m s /\ is_segment m s r
    end.
Proof.
  intros Ht Hs. unfold bfs.
  destruct (bfs_loop_spec m s (bfs_fuel m)
              (mkBfs m (mkPoint s.1 s.2) (mkPoint s.1 s.2) [(s.1, s.2)]))
    as (st & E & I & HQ); [done|done| | |].
  - rewrite <- surjective_pairing. by apply inv_init.
  - unfold measure, bfs_fuel; cbn. pose proof (size_fgset m). lia.
  - rewrite E; cbn. destruct (final_box m s st Hs I HQ) as [B Hi].
    eexists _, _. split; [reflexivity|]. split; [by apply final_erases|].
    destruct (_ && _) eqn:Eb.
    + apply Hi. destruct (minP st), (maxP st); cbn in *. split; f_equal; lia.
    + split.
      * intros [E1 E2]%Hi. rewrite E1, E2 in Eb. cbn in Eb. rewrite !Z.eqb_refl in Eb. done.
      * exists (minP st), (maxP st). split; [done|].
        pose proof (bbox_corners _ _ _ B). rewrite Rect_pts_spec. unfold rect_of.
        by rewrite !Z.min_l, !Z.max_r by lia.
Qed.
End Bfs.

(** ** The scan *)

Section Scan.
Context `{CV : OpenCV} {ML : MatLaws CV} {RL : RectLaws CV}.
Implicit Types (m : Mat) (p q r s l : Z * Z).

(** Reading order: rows from the top, each from the left. *)
Definition scan_le p q : Prop := p.2 < q.2 \/ (p.2 = q.2 /\ p.1 <= q.1).

(** What a segmentation of [m] is: [L] holds one cell of every component of two
    or more cells, the first in reading order, in reading order; [segs] are the
    boxes of these components, in the same order; [m'] is [m] without them. *)
Record Segmentation (m : Mat) (L : list (Z * Z)) (segs : list Rect) (m' : Mat) : Prop := {
  seg_shape : same_shape m m';
  seg_rects : Forall2 (is_segment m) L segs;
  seg_fg l : l ∈ L -> fg m l /\ ~ isolated m l;
  seg_nodup : NoDup L;
  seg_distinct l l' : l ∈ L -> l' ∈ L -> conn m l l' -> l = l';
  seg_first l q : l ∈ L -> conn m l q -> scan_le l q;
  seg_sorted : StronglySorted scan_le L;
  seg_cover q : fg m q -> isolated m q \/ exists l, l ∈ L /\ conn m l q;
  seg_erased q : (exists l, l ∈ L /\ conn m l q /\ pix m' q = Some 0) \/
                 ((forall l, l ∈ L -> ~ conn m l q) /\ pix m' q = pix m q)
}.

(** The scan order as a list of [(y, x)]. *)
Definition scan m : list (Z * Z) := seqZ 0 (rows m) ≫= fun y => pair y <$> seqZ 0 (cols m).

Lemma elem_of_scan m y x : (y, x) ∈ scan m <-> in_bounds m y x.
Proof. apply elem_of_pairs. Qed.

Lemma scan_sorted m : StronglySorted (fun a b => scan_le (a.2, a.1) (b.2, b.1)) (scan m).
Proof.
  unfold scan. apply sorted_pairs; intros; unfold scan_le; cbn; lia.
Qed.

(** The invariant of the scan after the prefix [done_]: the same, with the
    cover restricted to the prefix. *)
Record ScanInv (m : Mat) (done_ : list (Z * Z)) (L : list (Z * Z)) (st : Mat * list Rect) : Prop := {
  sc_shape : same_shape m st.1;
  sc_rects : Forall2 (is_segment m) L st.2;
  sc_fg l : l ∈ L -> fg m l /\ ~ isolated m l;
  sc_nodup : NoDup L;
  sc_distinct l l' : l ∈ L -> l' ∈ L -> conn m l l' -> l = l';
  sc_first l q : l ∈ L -> conn m l q -> scan_le l q;
  sc_sorted : StronglySorted scan_le L;
  sc_in l : l ∈ L -> (l.2, l.1) ∈ done_;
  sc_cover q : (q.2, q.1) ∈ done_ -> fg m q -> isolated m q \/ exists l, l ∈ L /\ conn m l q;
  sc_erased q : (exists l, l ∈ L /\ conn m l q /\ pix st.1 q = Some 0) \/
                ((forall l, l ∈ L -> ~ conn m l q) /\ pix st.1 q = pix m q)
}.

Lemma scan_init m : ScanInv m [] [] (m, []).
Proof.
  split; cbn; try by intros; set_solver.
  { done. }
  1-2: constructor.
Qed.

(** A cell still foreground belongs to no component found so far, and its
    component is intact. *)
Lemma scan_component m done_ L st s :
  ScanInv m done_ L st -> fg st.1 s ->
  fg m s /\ (forall l, l ∈ L -> ~ conn m l s) /\
  (forall q, conn m s q <-> conn st.1 s q) /\ (isolated m s <-> isolated st.1 s).
Proof.
  intros I Hs.
  assert (forall q, fg st.1 q -> fg m q) as Hsub.
  { intros q. unfold fg.
    destruct (sc_erased _ _ _ _ I q) as [(_ & _ & _ & ->)|[_ ->]]; [lia|done]. }
  assert (forall l, l ∈ L -> ~ conn m l s) as Hnl.
  { destruct (sc_erased _ _ _ _ I s) as [(_ & _ & _ & E)|[? _]]; [|done].
    unfold fg in Hs. rewrite E in Hs. lia. }
  assert (forall q, conn m s q -> fg m q -> fg st.1 q) as Hkeep.
  { intros q Hc. unfold fg.
    destruct (sc_erased _ _ _ _ I q) as [(l & Hl & Hlq & _)|[_ ->]]; [|done].
    destruct (Hnl l Hl). by rewrite Hlq. }
  split_and!; [by apply Hsub|done| |].
  - intros q. split; apply conn_local; auto.
  - split; intros Hi r Ha Hr; apply (Hi r Ha); [by apply Hsub|].
    apply Hkeep; [|done]. apply (conn_step m s s r); auto with gz.
    apply rtc_refl.
Qed.

(** A scanned cell that stays background, or that is alone, adds nothing. *)
Lemma scan_skip m done_ L st y x m' :
  ScanInv m done_ L st -> same_shape m m' -> (forall q, pix m' q = pix st.1 q) ->
  (fg m (x, y) -> isolated m (x, y) \/ exists l, l ∈ L /\ conn m l (x, y)) ->
  ScanInv m (done_ ++ [(y, x)]) L (m', st.2).
Proof.
  intros I Hsh Hpix Hc. destruct I. split; cbn; try done.
  - intros l Hl. apply elem_of_app. left. auto.
  - intros [a b] [Hin|[= -> ->]%list_elem_of_singleton]%elem_of_app Hf; auto.
  - intros q. rewrite Hpix. auto.
Qed.

(** The first cell of a component that was not seen yet. *)
Lemma scan_add m done_ rest L st y x m' rect :
  mtype m = CV_32SC1 -> scan m = done_ ++ (y, x) :: rest ->
  ScanInv m done_ L st -> fg st.1 (x, y) -> erases st.1 (x, y) m' ->
  ~ isolated st.1 (x, y) -> is_segment st.1 (x, y) rect ->
  ScanInv m (done_ ++ [(y, x)]) (L ++ [(x, y)]) (m', st.2 ++ [rect]).
Proof.
  intros Ht Hscan I Hs [Hsh Her] Hni (lo & hi & B & ->). set (s := (x, y)) in *.
  destruct (scan_component m done_ L st s I Hs) as (Hs0 & Hnl & Hc & Hi).
  assert (forall q, conn m s q -> scan_le s q) as Hfirst.
  { intros q Hq. pose proof (conn_fg m s q Hs0 Hq) as Hfq.
    assert ((q.2, q.1) ∈ scan m) as Hin by (by apply elem_of_scan, fg_bounds).
    rewrite Hscan in Hin. apply elem_of_app in Hin as [Hin|[E|Hin]%elem_of_cons].
    - destruct (sc_cover _ _ _ _ I q Hin Hfq) as [Hiq|(l & Hl & Hlq)].
      + symmetry in Hq. apply (isolated_conn m q s Hiq) in Hq as ->.
        unfold scan_le. lia.
      + destruct (Hnl l Hl). by rewrite Hlq, Hq.
    - injection E as E1 E2. unfold scan_le, s; cbn. lia.
    - pose proof (scan_sorted m) as Hso. rewrite Hscan in Hso.
      apply (sorted_split _ _ _ _ _ Hso) in Hin. by destruct q. }
  assert (forall l, l ∈ L -> scan_le l s) as Hbefore.
  { intros l Hl. pose proof (scan_sorted m) as Hso. rewrite Hscan in Hso.
    pose proof (sc_in _ _ _ _ I l Hl) as (d1 & d2 & Hd)%list_elem_of_split.
    rewrite Hd, <- app_assoc in Hso. cbn in Hso.
    apply (sorted_split _ _ _ _ (y, x)) in Hso; [by destruct l|set_solver]. }
  split; cbn.
  - destruct (sc_shape _ _ _ _ I) as (? & ? & ?), Hsh as (? & ? & ?).
    unfold same_shape. split_and!; congruence.
  - apply Forall2_app; [apply I|]. repeat constructor. exists lo, hi.
    split; [|done]. eapply bbox_ext; [|exact B]. intros q. by rewrite Hc.
  - intros l [Hl| ->%list_elem_of_singleton]%elem_of_app; [by apply (sc_fg _ _ _ _ I)|].
    split; [done|by rewrite Hi].
  - apply NoDup_app. split_and!; [apply I| |apply NoDup_singleton].
    intros l Hl ->%list_elem_of_singleton. by apply (Hnl s Hl), rtc_refl.
  - intros l l' [Hl| ->%list_elem_of_singleton]%elem_of_app
      [Hl'| ->%list_elem_of_singleton]%elem_of_app Hll; [| | |done].
    + by apply (sc_distinct _ _ _ _ I).
    + by destruct (Hnl l Hl).
    + destruct (Hnl l' Hl'). by symmetry.
  - intros l q [Hl| ->%list_elem_of_singleton]%elem_of_app;
      [by apply (sc_first _ _ _ _ I)|apply Hfirst].
  - apply sorted_app; [apply I|repeat constructor|].
    intros l s' Hl ->%list_elem_of_singleton. by apply Hbefore.
  - intros l [Hl| ->%list_elem_of_singleton]%elem_of_app; apply elem_of_app;
      [left; by apply (sc_in _ _ _ _ I)|right; by apply list_elem_of_singleton].
  - intros [a b] [Hin|[= -> ->]%list_elem_of_singleton]%elem_of_app Hf.
    + destruct (sc_cover _ _ _ _ I (a, b) Hin Hf) as [?|(l & ? & ?)]; [by left|].
      right. exists l. split; [set_solver|done].
    + right. exists s. split; [set_solver|apply rtc_refl].
  - intros q. destruct (Her q) as [(Hsq & _ & E)|[Hnq E]].
    + left. exists s. split_and!; [set_solver|by apply Hc|done].
    + rewrite E. destruct (sc_erased _ _ _ _ I q) as [(l & ? & ? & ?)|[Hn ?]].
      * left. exists l. split_and!; [set_solver|done|done].
      * right. split; [|done]. intros l [Hl| ->%list_elem_of_singleton]%elem_of_app;
          [by apply Hn|]. rewrite Hc. tauto.
Qed.

Lemma group_pixel_spec m done_ rest L st y x :
  mtype m = CV_32SC1 -> scan m = done_ ++ (y, x) :: rest -> ScanInv m done_ L st ->
  exists st' L', group_pixel y x st = inr st' /\ ScanInv m (done_ ++ [(y, x)]) L' st'.
Proof.
  intros Ht Hscan I. unfold group_pixel.
  destruct (sc_shape _ _ _ _ I) as (Hr & Hc & Ht').
  assert (in_bounds st.1 y x) as Hb.
  { unfold in_bounds. rewrite Hr, Hc. apply elem_of_scan. rewrite Hscan. set_solver. }
  destruct (proj2 (at_int_bounds st.1 y x ltac:(congruence)) Hb) as [v Hv].
  rewrite Hv; cbn. destruct (Z.leb_spec v 1) as [Hle|Hgt].
  - exists st, L. split; [done|]. rewrite (surjective_pairing st).
    apply scan_skip; [done|by destruct I|done|]. intros Hf.
    destruct (sc_erased _ _ _ _ I (x, y)) as [(l & ? & ? & _)|[_ E]]; [eauto|].
    unfold fg in Hf. rewrite <- E in Hf. unfold pix in Hf; cbn in Hf.
    rewrite Hv in Hf. lia.
  - assert (fg st.1 (x, y)) as Hs by (unfold fg, pix; cbn; rewrite Hv; done).
    destruct (bfs_spec st.1 (x, y)) as (m' & o & E & He & Ho); [congruence|done|].
    cbn in E. rewrite E; cbn. destruct o as [rect|].
    + destruct Ho. eexists _, (L ++ [(x, y)]). split; [reflexivity|].
      by eapply scan_add.
    + eexists _, L. split; [reflexivity|]. destruct He as [(? & ? & ?) He].
      apply scan_skip; [done|unfold same_shape; split_and!; congruence| |].
      * intros q. destruct (He q) as [(_ & [] & _)|[_ ?]]; done.
      * intros _. left. by apply (scan_component m done_ L st (x, y) I Hs).
Qed.

(** The contract of the grouping phase. *)
Lemma group_spec m :
  mtype m = CV_32SC1 ->
  exists m' segs L, group m = inr (m', segs) /\ Segmentation m L segs m'.
Proof.
  intros Ht. unfold group. rewrite for_each_nested.
  destruct (for_each_inv (fun done_ st => exists L, ScanInv m done_ L st)
              (scan m) (fun p => group_pixel p.1 p.2) (m, []))
    as ([m' segs] & E & L & I).
  - exists []. apply scan_init.
  - intros done_ [y x] rest st Hscan [L I].
    destruct (group_pixel_spec m done_ rest L st y x) as (st' & L' & ? & ?); eauto.
  - exists m', segs, L. split; [exact E|]. destruct I. split; try done.
    intros q Hq. apply sc_cover0; [|done]. apply elem_of_scan. by apply fg_bounds.
Qed.

(** A component's box lies inside the matrix, and short of its last row and
    column: the region of interest cut with it is never out of range. *)
Lemma segment_bounds m s rect :
  mtype m = CV_32SC1 -> fg m s -> is_segment m s rect ->
  0 <= rx rect /\ 0 <= ry rect /\ 0 <= width rect /\ 0 <= height rect /\
  rx rect + width rect < cols m /\ ry rect + height rect < rows m.
Proof.
  intros Ht Hs (lo & hi & B & ->). cbn.
  pose proof (bbox_corners _ _ _ B).
  destruct B as [_ (a & Ha & ?) (b & Hb & ?) (c & Hc & ?) (d & Hd & ?)].
  apply (conn_fg _ _ _ Hs), (fg_bounds _ _ Ht) in Ha, Hb, Hc, Hd.
  unfold in_bounds in *. lia.
Qed.

Lemma group_in_bounds m m' segs :
  mtype m = CV_32SC1 -> group m = inr (m', segs) ->
  Forall (fun rect : Rect =>
    0 <= rx rect /\ 0 <= ry rect /\ 0 <= width rect /\ 0 <= height rect /\
    rx rect + width rect < cols m /\ ry rect + height rect < rows m) segs.
Proof.
  intros Ht E. destruct (group_spec m Ht) as (m1 & segs1 & L & E' & S).
  rewrite E in E'. injection E' as <- <-.
  apply Forall_forall. intros rect (i & Hi)%list_elem_of_lookup.
  destruct (Forall2_lookup_r _ _ _ _ _ (seg_rects _ _ _ _ S) Hi) as (l & Hl & Hseg).
  apply (segment_bounds m l); [done| |done].
  apply (seg_fg _ _ _ _ S), list_elem_of_lookup. eauto.
Qed.
End Scan.

(** ** Properties *)

Section Properties.
Context `{CV : OpenCV} {ML : MatLaws CV} {RL : RectLaws CV}.

(** C3 The grouping phase of [split_segments] always returns, without an access
    outside [markers], and its rectangles are exactly the bounding boxes of the
    8-connected components of two or more foreground cells, one per component,
    ordered by the first cell of the component in reading order; it erases these
    components and nothing else. *)
Theorem group_components (m : Mat) :
  mtype m = CV_32SC1 ->
  exists m' segs L, group m = inr (m', segs) /\ Segmentation m L segs m'.
Proof. apply group_spec. Qed.

(** C20 The [bfs] lambda, started on a foreground cell, returns; it yields no
    rectangle exactly when the cell has no foreground neighbour, and otherwise
    the bounding box of its component, which it erases. *)
Theorem bfs_component (m : Mat) (sx sy : Z) :
  mtype m = CV_32SC1 -> fg m (sx, sy) ->
  exists m' o, bfs m sx sy = inr (m', o) /\ erases m (sx, sy) m' /\
    (o = None <-> isolated m (sx, sy)) /\
    (forall r, o = Some r -> is_segment m (sx, sy) r).
Proof.
  intros Ht Hs. destruct (bfs_spec m (sx, sy) Ht Hs) as (m' & o & E & He & Ho).
  exists m', o. split_and!; [done|done| |].
  - destruct o; [|done]. destruct Ho. by split.
  - intros r ->. apply Ho.
Qed.

(** Every rectangle of the grouping phase lies strictly inside [markers], so
    the region of interest [do_detect] cuts with it is never out of range. *)
Theorem group_rects_in_bounds (m m' : Mat) (segs : list Rect) (r : Rect) :
  mtype m = CV_32SC1 -> group m = inr (m', segs) -> r ∈ segs ->
  0 <= rx r /\ 0 <= ry r /\ 0 <= width r /\ 0 <= height r /\
  rx r + width r < cols m /\ ry r + height r < rows m.
Proof.
  intros Ht E Hr. pose proof (group_in_bounds m m' segs Ht E) as H.
  rewrite Forall_forall in H. by apply H.
Qed.

(** C40 The rectangle of a component leaves out the component's last column and
    last row: a [cv::Rect] covers [x <= column < x + width], and some cell of
    the component is on column [x + width], some on row [y + height].  A
    component one column wide gets an empty rectangle. *)
Theorem bfs_rect_drops_edges (m m' : Mat) (sx sy : Z) (r : Rect) :
  mtype m = CV_32SC1 -> fg m (sx, sy) -> bfs m sx sy = inr (m', Some r) ->
  (exists q, conn m (sx, sy) q /\ q.1 = rx r + width r) /\
  (exists q, conn m (sx, sy) q /\ q.2 = ry r + height r) /\
  (width r = 0 <-> forall q, conn m (sx, sy) q -> q.1 = sx).
Proof.
  intros Ht Hs E. destruct (bfs_spec m (sx, sy) Ht Hs) as (m1 & o & E' & _ & Ho).
  change (bfs m sx sy = inr (m1, o)) in E'. rewrite E in E'. injection E' as <- <-.
  destruct Ho as (_ & lo & hi & B & ->). cbn.
  destruct B as [Hin (a & Ha & Ea) (b & Hb & Eb) _ (d & Hd & Ed)]. split_and!.
  - exists b. split; [done|lia].
  - exists d. split; [done|lia].
  - split.
    + intros Hw q Hq. pose proof (Hin _ Hq). pose proof (Hin (sx, sy) (rtc_refl _ _)).
      cbn in *. lia.
    + intros Hall. apply Hall in Ha, Hb. lia.
Qed.

(** Grouping is complete in one pass: a second pass over the markers it
    leaves finds no segment. *)
Theorem group_idempotent (m m' : Mat) (segs : list Rect) :
  mtype m = CV_32SC1 -> group m = inr (m', segs) ->
  exists m'', group m' = inr (m'', []).
Proof.
  intros Ht E. destruct (group_spec m Ht) as (m1 & segs1 & L & E' & S).
  rewrite E in E'. injection E' as <- <-.
  destruct (seg_shape _ _ _ _ S) as (_ & _ & Ht').
  destruct (group_spec m') as (m2 & segs2 & L2 & E2 & S2); [congruence|].
  exists m2. rewrite E2. do 2 f_equal.
  enough (L2 = []) as ->.
  { pose proof (seg_rects _ _ _ _ S2) as HF. by inversion HF. }
  destruct L2 as [|l L2]; [done|exfalso].
  destruct (seg_fg _ _ _ _ S2 l) as [Hl Hni]; [by left|].
  assert (forall q, fg m' q -> fg m q /\ forall l, l ∈ L -> ~ conn m l q) as Hsub.
  { intros q. unfold fg.
    destruct (seg_erased _ _ _ _ S q) as [(_ & _ & _ & ->)|[? ->]]; [lia|done]. }
  destruct (Hsub l Hl) as [Hl0 Hno].
  destruct (seg_cover _ _ _ _ S l Hl0) as [Hi|(l' & ? & ?)]; [|by apply (Hno l')].
  apply Hni. intros r Ha Hr. by apply (Hi r), Hsub.
Qed.
End Properties.

(** Two diagonal cells, two cells in one column, and one cell alone. *)
Definition example_markers : Mat (OpenCV := GridCv) :=
  grid_of CV_32SC1 4 6
    [1; 1; 1; 1; 1; 1;
     1; 2; 1; 1; 3; 1;
     1; 1; 2; 1; 3; 1;
     4; 1; 1; 1; 1; 1].

Definition example_erased : Mat (OpenCV := GridCv) :=
  match group example_markers with inr (m, _) => m | inl _ => example_markers end.

Lemma example_group :
  group example_markers = inr (example_erased, [mkRect 1 1 1 1; mkRect 4 1 0 1]).
Proof. vm_compute. reflexivity. Qed.

Lemma group_components_witness :
  mtype example_markers = CV_32SC1 /\
  exists m' segs L, group example_markers = inr (m', segs) /\
    Segmentation example_markers L segs m'.
Proof. split; [done|]. by apply (group_components example_markers). Defined.

Lemma bfs_component_witness :
  fg example_markers (1, 1) /\
  exists m' o, bfs example_markers 1 1 = inr (m', o) /\ erases example_markers (1, 1) m' /\
    (o = None <-> isolated example_markers (1, 1)) /\
    (forall r, o = Some r -> is_segment example_markers (1, 1) r).
Proof. split; [done|]. by apply (bfs_component example_markers 1 1). Defined.

Lemma group_rects_in_bounds_witness :
  4 + 0 < cols example_markers /\ 1 + 1 < rows example_markers.
Proof.
  pose proof (group_rects_in_bounds example_markers example_erased
    [mkRect 1 1 1 1; mkRect 4 1 0 1] (mkRect 4 1 0 1) eq_refl example_group
    (list_elem_of_further _ _ _ (list_elem_of_here _ _))) as (_ & _ & _ & _ & H).
  exact H.
Defined.

Lemma bfs_rect_drops_edges_witness :
  exists m', bfs example_markers 4 1 = inr (m', Some (mkRect 4 1 0 1)) /\
  (exists q, conn example_markers (4, 1) q /\ q.2 = 1 + 1).
Proof.
  eexists. split; [vm_compute; reflexivity|].
  eapply (bfs_rect_drops_edges example_markers _ 4 1 (mkRect 4 1 0 1)); [done|done|].
  vm_compute. reflexivity.
Defined.

Lemma group_idempotent_witness : exists m'', group example_erased = inr (m'', []).
Proof. exact (group_idempotent example_markers _ _ eq_refl example_group). Defined.
