(* ===== verification/ExampleOs.v ===== *)
(** A concrete operating system for evaluation: the clocks advance by one
    nanosecond (microsecond) per reading, and the file system holds the files of
    an association list, whose contents are lists of bytes. *)

From S2P Require Import Prelude StdLib Cv CvGrid Perf State.

Record ExampleFile := mkExampleFile { ef_path : string; ef_bytes : list Z; ef_mtim : Z * Z }.

Definition find_file (fs : list ExampleFile) (path : string) : option nat :=
  fst <$> list_find (fun f => ef_path f = path) fs.

Definition example_os (fs : list ExampleFile) : OS := {|
  clock_gettime n := (0, Z.of_nat n);
  getrusage n := ((0, Z.of_nat n), (0, 0));
  os_open path := match find_file fs path with Some i => inr i | None => inl 2 end;
  os_fstat i :=
    match fs !! i with
    | Some f => inr (mkStat (Z.of_nat (length (ef_bytes f))) (ef_mtim f))
    | None => inl 9
    end;
  os_mmap i len :=
    match fs !! i with
    | Some f => inr (take (Z.to_nat len) (ef_bytes f))
    | None => inl 9
    end;
  strerror_r e buf _ := if decide (e = 2) then "No such file or directory" else buf;
  active_value := 8
|}.

(** Two 3x4 images that differ in two pixels. *)
Definition image_old : ExampleFile :=
  mkExampleFile "old.png" [3; 4; 0; 0; 0; 0; 0; 7; 7; 0; 0; 7; 0; 0] (1, 2).
Definition image_new : ExampleFile :=
  mkExampleFile "new.png" [3; 4; 0; 0; 0; 0; 0; 7; 7; 0; 0; 8; 0; 0] (3, 4).

(** A state about to run with the given command line. *)
Definition initial_state (argv : list string) : St (CV := GridCv) :=
  set_cmdline_args argv (mkSt Context_ctor World_init).
