(* ===== verification/Cmdline.v ===== *)
(** Command line parsing: [parse_args] (cmdline.cc) and
    [get_default_thread_count] (main.cc).  The loop over the arguments is proved
    equal to a table-driven specification of the command line. *)

From S2P Require Import Prelude StdLib Cv CvGrid Perf State ExampleOs.
From Stdlib Require Import Ascii.

(** The build options the sources test with [#ifdef]. *)
Class Build := { ENABLE_PARALLEL : bool }.

Section Code.
Context `{CV : OpenCV} {os : OS} {build : Build}.

Definition help_msg : string := "
Options:
  -new <FILE>                 new image file path
  -old <FILE>                 old image file path
  -o, --output <NAME>         output prefix name (default: image_difference)
  -create_change_image        create changed image
  -threshold <NUMBER>         binary threshold
  -cross_check                cross check descriptor matching
  -thread_count <NUMBER>      Use given number of threads
  -perf                       Print performance statistics


  -h, --help                  report usage information
".

(** The fields of [ctx.arg] the options assign. *)
Definition with_color_diagnostics (b : bool) (a : Args) : Args :=
  mkArgs b (arg_new_file a) (arg_old_file a) (output_name a) (create_change_image a)
    (bin_threshold a) (cross_check a) (thread_count a) (perf a).
Definition with_new_file (v : string) (a : Args) : Args :=
  mkArgs (color_diagnostics a) v (arg_old_file a) (output_name a) (create_change_image a)
    (bin_threshold a) (cross_check a) (thread_count a) (perf a).
Definition with_old_file (v : string) (a : Args) : Args :=
  mkArgs (color_diagnostics a) (arg_new_file a) v (output_name a) (create_change_image a)
    (bin_threshold a) (cross_check a) (thread_count a) (perf a).
Definition with_output_name (v : string) (a : Args) : Args :=
  mkArgs (color_diagnostics a) (arg_new_file a) (arg_old_file a) v (create_change_image a)
    (bin_threshold a) (cross_check a) (thread_count a) (perf a).
Definition with_create_change_image (b : bool) (a : Args) : Args :=
  mkArgs (color_diagnostics a) (arg_new_file a) (arg_old_file a) (output_name a) b
    (bin_threshold a) (cross_check a) (thread_count a) (perf a).
Definition with_bin_threshold (n : Z) (a : Args) : Args :=
  mkArgs (color_diagnostics a) (arg_new_file a) (arg_old_file a) (output_name a)
    (create_change_image a) n (cross_check a) (thread_count a) (perf a).
Definition with_cross_check (b : bool) (a : Args) : Args :=
  mkArgs (color_diagnostics a) (arg_new_file a) (arg_old_file a) (output_name a)
    (create_change_image a) (bin_threshold a) b (thread_count a) (perf a).
Definition with_thread_count (n : Z) (a : Args) : Args :=
  mkArgs (color_diagnostics a) (arg_new_file a) (arg_old_file a) (output_name a)
    (create_change_image a) (bin_threshold a) (cross_check a) n (perf a).
Definition with_perf (b : bool) (a : Args) : Args :=
  mkArgs (color_diagnostics a) (arg_new_file a) (arg_old_file a) (output_name a)
    (create_change_image a) (bin_threshold a) (cross_check a) (thread_count a) b.

(** The lambdas [read_arg] and [read_flag]: [Some] is [true], with what they
    assign to [arg] and to [i]. *)
Definition read_arg (args : list string) (i : nat) (nm : string) : M (option (string * nat)) :=
  a ← lift (deref (args !! i));
  if decide (a = nm) then
    if decide (length args <= i + 1)%nat
    then Fatal ("option -" +:+ nm +:+ ": argument missing")
    else
      v ← lift (deref (args !! (i + 1)%nat));
      mret (Some (v, (i + 2)%nat))
  else mret None.

Definition read_flag (args : list string) (i : nat) (nm : string) : M (option nat) :=
  a ← lift (deref (args !! i));
  mret (if decide (a = nm) then Some (i + 1)%nat else None).

(** [m1 || m2] *)
Definition or_else {A} (m1 m2 : M (option A)) : M (option A) :=
  r ← m1; match r with Some x => mret (Some x) | None => m2 end.

(** [if (m) { ... } else ...] *)
Definition if_read {A B} (m : M (option A)) (yes : A -> M B) (no : M B) : M B :=
  r ← m; match r with Some x => yes x | None => no end.

(** The body of the loop: the next [i].  The [args[i][0]] of the last branch is
    [std::string_view::operator[]], undefined on an empty argument. *)
Definition parse_one (args : list string) (i : nat) : M nat :=
  let assign f i' := _ ← modify (set_arg f); mret i' in
  if_read (or_else (read_flag args i "-h") (read_flag args i "--help"))
    (fun _ =>
       a0 ← lift (deref (args !! 0%nat));
       _ ← modify (set_wld (write_out ("Usage: " +:+ a0 +:+ " [options]" +:+ newline +:+ help_msg)));
       stop (Exited 0))
  (if_read (or_else (read_arg args i "-color-diagnostics") (read_arg args i "--color-diagnostics"))
    (fun '(_, i') => assign (with_color_diagnostics true) i')
  (if_read (read_arg args i "-new")
    (fun '(v, i') => assign (with_new_file v) i')
  (if_read (read_arg args i "-old")
    (fun '(v, i') => assign (with_old_file v) i')
  (if_read (read_arg args i "-threshold")
    (fun '(v, i') => n ← lift (stoi v); assign (with_bin_threshold n) i')
  (if_read (or_else (read_arg args i "-o") (read_arg args i "--output"))
    (fun '(v, i') => assign (with_output_name v) i')
  (if_read (read_flag args i "-create_change_image")
    (fun i' => assign (with_create_change_image true) i')
  (if_read (read_flag args i "-cross_check")
    (fun i' => assign (with_cross_check true) i')
  (if_read (read_arg args i "-thread_count")
    (fun '(v, i') => n ← lift (stoi v); assign (with_thread_count n) i')
  (if_read (read_flag args i "-perf")
    (fun i' => assign (with_perf true) i')
  (a ← lift (deref (args !! i));
   first ← lift (deref (String.get 0 a));
   if decide (first = "-"%char)
   then Fatal ("unknown command line option: " +:+ a)
   else mret (i + 1)%nat)))))))))).

(** [while (i < args.size())] *)
Fixpoint parse_loop (fuel : nat) (args : list string) (i : nat) : M unit :=
  if decide (i < length args)%nat then
    match fuel with
    | O => stop OutOfFuel
    | S fuel => i' ← parse_one args i; parse_loop fuel args i'
    end
  else mret tt.

(** [get_default_thread_count]: [std::min] of two [size_t]. *)
Definition get_default_thread_count : Z :=
  Z.min (if ENABLE_PARALLEL then active_value else 16) 16.

Definition dquote : string := String "034"%char EmptyString.

(** The checks and defaults after the loop. *)
Definition check_args : M unit :=
  a ← gets arg;
  if decide (arg_new_file a = "") then Fatal (dquote +:+ "-new" +:+ dquote +:+ " option is required")
  else if decide (arg_old_file a = "") then Fatal (dquote +:+ "-old" +:+ dquote +:+ " option is required")
  else
    _ ← (if decide (thread_count a = 0)
         then modify (set_arg (with_thread_count (MachInt.i64 get_default_thread_count)))
         else mret tt);
    _ ← (if decide (bin_threshold a = 0)
         then modify (set_arg (with_bin_threshold 200)) else mret tt);
    (if decide (output_name a = "")
     then modify (set_arg (with_output_name "image_difference")) else mret tt).

Definition parse_args : M unit :=
  with_timer "parse args" None (fun _ =>
    args ← gets cmdline_args;
    _ ← parse_loop (length args) args 1;
    check_args).
End Code.
