(* ===== verification/CmdlineSpec.v ===== *)
(** The command line as a table of options, and the proof that [parse_args]
    implements it; an empty argument where an option is expected ends the table's reading,
    as undefined behaviour. *)

From S2P Require Import Prelude StdLib Cv CvGrid Perf State Timed ExampleOs Cmdline.
From Stdlib Require Import Ascii.

(** ** The specification *)

Module Spec.
(** Options that take the next argument as their value, and flags. *)
Inductive ValueOpt := Color | ColorLong | New | Old | Threshold | O | Output | ThreadCount.
Inductive FlagOpt := CreateChangeImage | CrossCheck | Perf.

Definition value_table : list (string * ValueOpt) :=
  [("-color-diagnostics", Color); ("--color-diagnostics", ColorLong); ("-new", New);
   ("-old", Old); ("-threshold", Threshold); ("-o", O); ("--output", Output);
   ("-thread_count", ThreadCount)].

Definition flag_table : list (string * FlagOpt) :=
  [("-create_change_image", CreateChangeImage); ("-cross_check", CrossCheck); ("-perf", Perf)].

Definition help_names : list string := ["-h"; "--help"].

Fixpoint find_name {A} (t : list (string * A)) (s : string) : option A :=
  match t with
  | [] => None
  | (nm, a) :: t => if decide (s = nm) then Some a else find_name t s
  end.

Inductive Kind :=
  | KHelp | KValue (o : ValueOpt) | KFlag (f : FlagOpt) | KUnknown | KPositional | KEmpty.

(** An argument that is in no table, by its first character. *)
Definition classify_other (s : string) : Kind :=
  match s with
  | EmptyString => KEmpty
  | String c _ => if decide (c = "-"%char) then KUnknown else KPositional
  end.

Definition classify (s : string) : Kind :=
  if decide (s ∈ help_names) then KHelp
  else match find_name value_table s with
  | Some o => KValue o
  | None =>
      match find_name flag_table s with
      | Some f => KFlag f
      | None => classify_other s
      end
  end.

Inductive Token := Value (o : ValueOpt) (v : string) | Flag (f : FlagOpt) | Positional (s : string).

(** How the command line ends: all of it read, or at an argument that stops the
    program, or at an empty one where an option is expected, whose first character does
    not exist. *)
Inductive Tail := End | Help | Missing (nm : string) | Unknown (s : string) | Empty.

Fixpoint lex (l : list string) : list Token * Tail :=
  match l with
  | [] => ([], End)
  | a :: l =>
      match classify a with
      | KHelp => ([], Help)
      | KUnknown => ([], Unknown a)
      | KEmpty => ([], Empty)
      | KPositional => let '(ts, t) := lex l in (Positional a :: ts, t)
      | KFlag f => let '(ts, t) := lex l in (Flag f :: ts, t)
      | KValue o =>
          match l with
          | [] => ([], Missing a)
          | v :: l => let '(ts, t) := lex l in (Value o v :: ts, t)
          end
      end
  end.

Definition set_value (o : ValueOpt) (v : string) (a : Args) : exc Args :=
  match o with
  | Color | ColorLong => inr (with_color_diagnostics true a)
  | New => inr (with_new_file v a)
  | Old => inr (with_old_file v a)
  | Threshold => n ← stoi v; mret (with_bin_threshold n a)
  | O | Output => inr (with_output_name v a)
  | ThreadCount => n ← stoi v; mret (with_thread_count n a)
  end.

Definition set_flag (f : FlagOpt) (a : Args) : Args :=
  match f with
  | CreateChangeImage => with_create_change_image true a
  | CrossCheck => with_cross_check true a
  | Perf => with_perf true a
  end.

Definition set_token (t : Token) (a : Args) : exc Args :=
  match t with
  | Value o v => set_value o v a
  | Flag f => inr (set_flag f a)
  | Positional _ => inr a
  end.

(** The options take effect from left to right, up to one whose number is
    malformed. *)
Fixpoint set_tokens (ts : list Token) (a : Args) : Args * option Stop :=
  match ts with
  | [] => (a, None)
  | t :: ts => match set_token t a with inr a' => set_tokens ts a' | inl e => (a, Some e) end
  end.

(** The command line is read up to an empty argument where an option is expected. *)
Definition empty_argument (args : list string) : Prop := (lex (drop 1 args)).2 = Empty.

(** Writing options back as arguments. *)
Definition value_name (o : ValueOpt) : string :=
  match o with
  | Color => "-color-diagnostics" | ColorLong => "--color-diagnostics"
  | New => "-new" | Old => "-old" | Threshold => "-threshold"
  | O => "-o" | Output => "--output" | ThreadCount => "-thread_count"
  end.

Definition flag_name (f : FlagOpt) : string :=
  match f with
  | CreateChangeImage => "-create_change_image"
  | CrossCheck => "-cross_check"
  | Perf => "-perf"
  end.

Definition render (t : Token) : list string :=
  match t with
  | Value o v => [value_name o; v]
  | Flag f => [flag_name f]
  | Positional s => [s]
  end.

(** A positional argument is not empty and does not start with a dash. *)
Definition positional (s : string) : Prop :=
  exists c s', s = String c s' /\ c <> "-"%char.

Definition proper (t : Token) : Prop :=
  match t with Positional s => positional s | _ => True end.

Section Run.
Context `{CV : OpenCV}.

Definition usage (args : list string) : string :=
  "Usage: " +:+ default EmptyString (args !! 0%nat) +:+ " [options]" +:+ newline +:+ help_msg.

(** What the loop does to the state when [l] is left to read. *)
Definition run_on (args l : list string) (s : St) : Res unit :=
  let '(ts, tail) := lex l in
  let '(a, e) := set_tokens ts (arg (ctx s)) in
  let s := set_arg (fun _ => a) s in
  match e with
  | Some e => Stopped e s
  | None =>
      match tail with
      | End => Done tt s
      | Help => Stopped (Exited 0) (set_wld (write_out (usage args)) s)
      | Missing nm => Fatal ("option -" +:+ nm +:+ ": argument missing") s
      | Unknown a => Fatal ("unknown command line option: " +:+ a) s
      | Empty => Stopped UndefinedBehaviour s
      end
  end.

Definition run (args : list string) (s : St) : Res unit := run_on args (drop 1 args) s.
End Run.
End Spec.

(** ** Refinement *)

Section Refinement.
Context `{CV : OpenCV} {os : OS} {build : Build}.
Import Spec.

Lemma if_read_Done {A B} (m : M (option A)) (yes : A -> M B) no s r :
  m s = Done r s ->
  if_read m yes no s = match r with Some x => yes x s | None => no s end.
Proof. unfold if_read. intros H. rewrite (bind_Done_eq _ _ _ _ _ H). by destruct r. Qed.

Lemma if_read_Stopped {A B} (m : M (option A)) (yes : A -> M B) no s e s' :
  m s = Stopped e s' -> if_read m yes no s = Stopped e s'.
Proof. apply bind_Stopped_eq. Qed.

Lemma or_else_None {A} (m1 m2 : M (option A)) s :
  m1 s = Done None s -> or_else m1 m2 s = m2 s.
Proof. unfold or_else. intros H. by rewrite (bind_Done_eq _ _ _ _ _ H). Qed.

Lemma or_else_Some {A} (m1 m2 : M (option A)) s x :
  m1 s = Done (Some x) s -> or_else m1 m2 s = Done (Some x) s.
Proof. unfold or_else. intros H. by rewrite (bind_Done_eq _ _ _ _ _ H). Qed.

Lemma or_else_Stopped {A} (m1 m2 : M (option A)) s e s' :
  m1 s = Stopped e s' -> or_else m1 m2 s = Stopped e s'.
Proof. apply bind_Stopped_eq. Qed.

Lemma read_flag_spec args i a nm s :
  args !! i = Some a ->
  read_flag args i nm s = Done (if decide (a = nm) then Some (i + 1)%nat else None) s.
Proof.
  intros Ha. unfold read_flag. rewrite Ha. unfold mbind, M_bind, lift; cbn. done.
Qed.

(** The three outcomes of [read_arg]. *)
Definition read_arg_res (args : list string) (i : nat) (a nm : string) (s : St) :
    Res (option (string * nat)) :=
  if decide (a = nm) then
    match args !! (i + 1)%nat with
    | Some v => Done (Some (v, (i + 2)%nat)) s
    | None => Fatal ("option -" +:+ nm +:+ ": argument missing") s
    end
  else Done None s.

Lemma read_arg_spec args i a nm s :
  args !! i = Some a -> read_arg args i nm s = read_arg_res args i a nm s.
Proof.
  intros Ha. unfold read_arg, read_arg_res. rewrite Ha.
  unfold mbind, M_bind, lift; cbn. case_decide; [|done].
  destruct (args !! (i + 1)%nat) as [v|] eqn:Hv.
  - rewrite decide_False; [done|]. apply lookup_lt_Some in Hv. lia.
  - rewrite decide_True; [done|]. apply lookup_ge_None in Hv. lia.
Qed.

Lemma set_arg_id s : set_arg (fun _ => arg (ctx s)) s = s.
Proof. by destruct s as [[] ?]. Qed.

Lemma set_arg_set_arg f g s : set_arg f (set_arg g s) = set_arg (fun a => f (g a)) s.
Proof. done. Qed.

(** The tests of the loop's body, one tactic per reader. *)
Local Ltac eval_classify :=
  match goal with |- context [classify ?x] =>
    let k := eval vm_compute in (classify x) in change (classify x) with k end.
Local Ltac hit args i :=
  eval_classify; unfold usage, set_value, mbind, exc_bind, lift, modify, mret, M_ret, exc_ret;
  destruct (args !! (i + 1)%nat); [|reflexivity];
  try match goal with |- context [stoi ?w] => destruct (stoi w) end; reflexivity.
Local Ltac flag args i a nm :=
  rewrite (read_flag_spec args i a) by done;
  destruct (decide (a = nm)) as [->|];
    [eval_classify; unfold usage;
     repeat match goal with H : args !! 0%nat = _ |- _ => rewrite H end; reflexivity|].
Local Ltac value args i a nm :=
  rewrite (read_arg_spec args i a) by done; unfold read_arg_res at 1;
  destruct (decide (a = nm)) as [->|]; [hit args i|].

(** The body of the loop, on every branch. *)
Lemma parse_one_spec args i a s :
  args !! i = Some a ->
  parse_one args i s =
  match classify a with
  | KHelp => Stopped (Exited 0) (set_wld (write_out (usage args)) s)
  | KUnknown => Fatal ("unknown command line option: " +:+ a) s
  | KPositional => Done (i + 1)%nat s
  | KEmpty => Stopped UndefinedBehaviour s
  | KFlag f => Done (i + 1)%nat (set_arg (set_flag f) s)
  | KValue o =>
      match args !! (i + 1)%nat with
      | None => Fatal ("option -" +:+ a +:+ ": argument missing") s
      | Some v =>
          match set_value o v (arg (ctx s)) with
          | inr a' => Done (i + 2)%nat (set_arg (fun _ => a') s)
          | inl e => Stopped e s
          end
      end
  end.
Proof.
  intros Ha.
  assert (exists a0, args !! 0%nat = Some a0) as [a0 Ha0].
  { apply lookup_lt_is_Some_2. apply lookup_lt_Some in Ha. lia. }
  assert (forall A (e : Stop) s', lift (A := A) (inl e) s' = Stopped e s') as Hlift by done.
  unfold parse_one, if_read, or_else, mbind, M_bind.
  flag args i a "-h". flag args i a "--help".
  value args i a "-color-diagnostics". value args i a "--color-diagnostics".
  value args i a "-new". value args i a "-old". value args i a "-threshold".
  value args i a "-o". value args i a "--output".
  flag args i a "-create_change_image". flag args i a "-cross_check".
  value args i a "-thread_count". flag args i a "-perf".
  assert (classify a = classify_other a) as ->.
  { unfold classify, help_names, value_table, flag_table. cbn [find_name].
    rewrite decide_False by set_solver. by rewrite !decide_False by done. }
  rewrite Ha. unfold lift, classify_other. destruct a as [|c a]; cbn; [done|].
  by destruct (decide (c = "-"%char)).
Qed.

(** Reading one more token. *)
Lemma run_on_token args l l' t s a' :
  (forall ts tail, lex l' = (ts, tail) -> lex l = (t :: ts, tail)) ->
  set_token t (arg (ctx s)) = inr a' ->
  run_on args l s = run_on args l' (set_arg (fun _ => a') s).
Proof.
  intros Hlex Ht. unfold run_on. destruct (lex l') as [ts tail].
  rewrite (Hlex ts tail eq_refl). cbn [set_tokens]. rewrite Ht. done.
Qed.

Lemma parse_loop_run fuel args i s :
  (length args <= fuel + i)%nat -> parse_loop fuel args i s = run_on args (drop i args) s.
Proof.
  revert i s. induction fuel as [|fuel IH]; intros i s Hf; cbn; case_decide as Hi; try lia.
  1,3: rewrite drop_ge by lia; unfold run_on; cbn; by rewrite set_arg_id.
  destruct (lookup_lt_is_Some_2 args i Hi) as [a Ha].
  unfold mbind, M_bind. rewrite (parse_one_spec args i a s Ha).
  rewrite (drop_S args a i Ha).
  destruct (classify a) as [|o|f| | |] eqn:Hc.
  - unfold run_on; cbn [lex]. rewrite Hc; cbn [set_tokens]. by rewrite set_arg_id.
  - destruct (args !! (i + 1)%nat) as [v|] eqn:Hv; rewrite Nat.add_1_r in Hv.
    + rewrite (drop_S args v (S i) Hv).
      destruct (set_value o v (arg (ctx s))) as [e|a'] eqn:Hset.
      * unfold run_on; cbn [lex]. rewrite Hc. destruct (lex _) as [ts tail].
        cbn [set_tokens set_token]. rewrite Hset. by rewrite set_arg_id.
      * rewrite IH by lia. rewrite Nat.add_comm; cbn [Nat.add]. symmetry.
        apply (run_on_token _ _ _ (Value o v)); [|done].
        intros ts tail E. cbn [lex]. by rewrite Hc, E.
    + rewrite (drop_ge args (S i)) by (by apply lookup_ge_None).
      unfold run_on; cbn [lex]. rewrite Hc; cbn [set_tokens]. by rewrite set_arg_id.
  - rewrite IH by lia. rewrite Nat.add_1_r. symmetry.
    apply (run_on_token _ _ _ (Flag f)); [|done].
    intros ts tail E. cbn [lex]. by rewrite Hc, E.
  - unfold run_on; cbn [lex]. rewrite Hc; cbn [set_tokens]. by rewrite set_arg_id.
  - rewrite IH by lia. rewrite Nat.add_1_r.
    rewrite (run_on_token args (a :: drop (S i) args) (drop (S i) args) (Positional a) s
      (arg (ctx s))); [by rewrite set_arg_id| |done].
    intros ts tail E. cbn [lex]. by rewrite Hc, E.
  - unfold run_on; cbn [lex]. rewrite Hc; cbn [set_tokens]. by rewrite set_arg_id.
Qed.

(** *** The language of the lexer *)

Lemma classify_value o : classify (value_name o) = KValue o.
Proof. by destruct o. Qed.

Lemma classify_flag f : classify (flag_name f) = KFlag f.
Proof. by destruct f. Qed.

Lemma find_name_Some {A} (t : list (string * A)) s x :
  find_name t s = Some x -> (s, x) ∈ t.
Proof.
  induction t as [|[nm y] t IH]; cbn; [done|]. case_decide as Hs; subst.
  - intros [= ->]. left.
  - intros H. right. auto.
Qed.

Lemma classify_inv s :
  match classify s with
  | KHelp => s ∈ help_names
  | KValue o => s = value_name o
  | KFlag f => s = flag_name f
  | KUnknown => exists s', s = String "-"%char s'
  | KPositional => positional s
  | KEmpty => s = ""
  end.
Proof.
  unfold classify. case_decide as Hh; [done|].
  destruct (find_name value_table s) as [o|] eqn:Ho.
  { apply find_name_Some in Ho. unfold value_table in Ho.
    repeat (apply elem_of_cons in Ho as [[= -> ->]|Ho]; [done|]). by apply elem_of_nil in Ho. }
  destruct (find_name flag_table s) as [f|] eqn:Hf.
  { apply find_name_Some in Hf. unfold flag_table in Hf.
    repeat (apply elem_of_cons in Hf as [[= -> ->]|Hf]; [done|]). by apply elem_of_nil in Hf. }
  destruct s as [|c s]; [done|]. unfold classify_other. case_decide as Hc; [subst; by exists s|].
  by exists c, s.
Qed.

Lemma classify_positional s : positional s -> classify s = KPositional.
Proof.
  intros (c & s' & -> & Hc). pose proof (classify_inv (String c s')) as H.
  assert (forall nm, String c s' = String "-"%char nm -> False) as Hd by (intros nm [= -> _]; done).
  destruct (classify _) as [|[]|[]| | |]; try done; try (by apply Hd in H).
  - unfold help_names in H. repeat (apply elem_of_cons in H as [H|H]; [by apply Hd in H|]).
    by apply elem_of_nil in H.
  - destruct H as [nm H]. by apply Hd in H.
Qed.

Lemma lex_render ts :
  Forall proper ts -> lex (ts ≫= render) = (ts, End).
Proof.
  induction 1 as [|t ts Ht ? IH]; [done|]. rewrite bind_cons.
  destruct t as [o v|f|s]; cbn [render app].
  - cbn [lex]. by rewrite classify_value, IH.
  - cbn [lex]. by rewrite classify_flag, IH.
  - cbn [lex]. by rewrite (classify_positional s Ht), IH.
Qed.

Lemma lex_complete l ts :
  lex l = (ts, End) -> l = ts ≫= render /\ Forall proper ts.
Proof.
  remember (length l) as n eqn:Hn. assert (length l <= n)%nat as Hl by lia. clear Hn.
  revert l ts Hl. induction n as [|n IH]; intros [|a l] ts Hl; cbn [length] in Hl; try lia.
  1-2: intros [= <-]; by split.
  cbn [lex]. pose proof (classify_inv a) as Ha.
  destruct (classify a) as [|o|f| | |]; try done.
  - destruct l as [|v l]; [done|]. destruct (lex l) as [ts' t] eqn:E. intros [= <- ->].
    cbn [length] in Hl. destruct (IH l ts') as [-> ?]; [lia|done|].
    rewrite bind_cons. subst a. split; [done|by constructor].
  - destruct (lex l) as [ts' t] eqn:E. intros [= <- ->].
    destruct (IH l ts') as [-> ?]; [lia|done|].
    rewrite bind_cons. subst a. split; [done|by constructor].
  - destruct (lex l) as [ts' t] eqn:E. intros [= <- ->].
    destruct (IH l ts') as [-> ?]; [lia|done|].
    rewrite bind_cons. split; [done|by constructor].
Qed.
End Refinement.

(** ** The whole of [parse_args] *)

Section ParseArgs.
Context `{CV : OpenCV} {os : OS} {build : Build}.
Import Spec.

(** The defaults [parse_args] fills in. *)
Definition finish_args (a : Args) : Args :=
  let a1 := if decide (thread_count a = 0)
            then with_thread_count (MachInt.i64 get_default_thread_count) a else a in
  let a2 := if decide (bin_threshold a = 0) then with_bin_threshold 200 a1 else a1 in
  if decide (output_name a = "") then with_output_name "image_difference" a2 else a2.

Lemma check_args_spec s :
  check_args s =
  if decide (arg_new_file (arg (ctx s)) = "")
  then Fatal (dquote +:+ "-new" +:+ dquote +:+ " option is required") s
  else if decide (arg_old_file (arg (ctx s)) = "")
  then Fatal (dquote +:+ "-old" +:+ dquote +:+ " option is required") s
  else Done tt (set_arg finish_args s).
Proof.
  unfold check_args, gets, mbind, M_bind.
  destruct (decide (arg_new_file _ = "")); [done|].
  destruct (decide (arg_old_file _ = "")); [done|].
  unfold mret, M_ret, modify.
  transitivity (Done tt (set_arg (fun _ => finish_args (arg (ctx s))) s)); [|done].
  unfold finish_args. destruct s as [[a ? ? ? ? ? ? ? ? ? ?] ?]; cbn.
  destruct (decide (thread_count a = 0)), (decide (bin_threshold a = 0)),
    (decide (output_name a = "")); reflexivity.
Qed.

Lemma set_arg_length f s :
  length (timer_records (ctx (set_arg f s))) = length (timer_records (ctx s)).
Proof. done. Qed.

Definition parse_body : M unit :=
  args ← gets cmdline_args; _ ← parse_loop (length args) args 1; check_args.

Lemma parse_body_eq s :
  parse_body s =
  match Spec.run (cmdline_args (ctx s)) s with
  | Done _ s' => check_args s'
  | Stopped e s' => Stopped e s'
  end.
Proof.
  unfold parse_body, gets, mbind, M_bind. rewrite parse_loop_run by lia. done.
Qed.

Lemma run_Done args s s' :
  run args s = Done tt s' <->
  exists ts a, lex (drop 1 args) = (ts, End) /\ set_tokens ts (arg (ctx s)) = (a, None) /\
    s' = set_arg (fun _ => a) s.
Proof.
  unfold run, run_on. destruct (lex _) as [ts tail]. destruct (set_tokens _ _) as [a e] eqn:E.
  split.
  - destruct e; [done|]. destruct tail; rewrite ?Fatal_spec; try done.
    intros [= <-]. eauto.
  - intros (ts' & a' & [= <- ->] & E' & ->). rewrite E in E'. by injection E' as -> ->.
Qed.

(** When parsing succeeds, and with what. *)
Lemma parse_args_Done s s' :
  parse_args s = Done tt s' <->
  exists ts a, drop 1 (cmdline_args (ctx s)) = ts ≫= render /\ Forall proper ts /\
    set_tokens ts (arg (ctx s)) = (a, None) /\ arg_new_file a <> "" /\ arg_old_file a <> "" /\
    with_timer "parse args" None (fun _ => modify (set_arg (fun _ => finish_args a))) s = Done tt s'.
Proof.
  change (parse_args s) with (with_timer "parse args" None (fun _ => parse_body) s).
  unfold with_timer. rewrite !(bind_Done_eq _ _ _ _ _ (Timer_ctor_eq "parse args" None s)).
  set (s1 := after_ctor "parse args" None s).
  assert (arg (ctx s1) = arg (ctx s)) as Harg by done.
  assert (cmdline_args (ctx s1) = cmdline_args (ctx s)) as Hcmd by done.
  unfold mbind at 1, M_bind at 1. rewrite parse_body_eq, Hcmd.
  split.
  - destruct (run _ s1) as [[] s2|e s2] eqn:Erun; [|done].
    apply run_Done in Erun as (ts & a & Hlex & Hset & ->). rewrite Harg in Hset.
    rewrite check_args_spec. cbn [arg ctx set_arg].
    destruct (decide (arg_new_file a = "")); [by rewrite Fatal_spec|].
    destruct (decide (arg_old_file a = "")); [by rewrite Fatal_spec|].
    intros E. apply lex_complete in Hlex as [Hl Hp]. exists ts, a. by split_and!.
  - intros (ts & a & Hl & Hp & Hset & Hn & Ho & E).
    assert (run (cmdline_args (ctx s)) s1 = Done tt (set_arg (fun _ => a) s1)) as ->.
    { apply run_Done. exists ts, a. rewrite Hl, lex_render by done. by rewrite Harg. }
    rewrite check_args_spec. cbn [arg ctx set_arg]. by rewrite !decide_False by done.
Qed.

Lemma set_tokens_ok ts a a' :
  set_tokens ts a = (a', None) ->
  MachInt.in_i32 (bin_threshold a) /\ MachInt.in_i32 (thread_count a) ->
  MachInt.in_i32 (bin_threshold a') /\ MachInt.in_i32 (thread_count a').
Proof.
  revert a. induction ts as [|t ts IH]; intros a; cbn; [by intros [= ->]|].
  destruct (set_token t a) as [e|a1] eqn:E; [done|]. intros Hs Ha. apply (IH a1 Hs).
  destruct t as [[] v|[]|]; cbn in E; exc_inv; cbn; try done;
    match goal with H : stoi _ = inr _ |- _ => apply stoi_range in H end; naive_solver.
Qed.

(** What a returning [parse_args] leaves: the options, with the defaults. *)
Lemma parse_args_state s s' :
  parse_args s = Done tt s' ->
  exists ts a, drop 1 (cmdline_args (ctx s)) = ts ≫= render /\ Forall proper ts /\
    set_tokens ts (arg (ctx s)) = (a, None) /\ arg_new_file a <> "" /\ arg_old_file a <> "" /\
    s' ≈ set_arg (fun _ => finish_args a) s.
Proof.
  intros (ts & a & ? & ? & ? & ? & ? & E)%parse_args_Done. exists ts, a. split_and!; [done..|].
  apply with_timer_inv in E as (s2 & [= <-] & ->). by rewrite after_ctor_same.
Qed.

Lemma finish_args_files a :
  arg_new_file (finish_args a) = arg_new_file a /\ arg_old_file (finish_args a) = arg_old_file a.
Proof. unfold finish_args. by repeat case_decide. Qed.

(** *** Timers and safety *)

#[export] Instance timed_parse_one n args i : TimedFrom n (parse_one args i).
Proof.
  unfold parse_one, if_read, or_else, read_arg, read_flag. timed.
Qed.

#[export] Instance timed_parse_loop n fuel args i : TimedFrom n (parse_loop fuel args i).
Proof. revert i. induction fuel as [|fuel IH]; intros i; cbn; timed. Qed.

#[export] Instance timed_check_args n : TimedFrom n check_args.
Proof. unfold check_args. timed. Qed.

#[export] Instance timed_parse_args n : TimedFrom n parse_args.
Proof. unfold parse_args. timed. Qed.

Lemma stoi_throws v : throws (stoi v).
Proof. unfold stoi. by repeat case_match. Qed.

Lemma set_tokens_tame ts a a' e : set_tokens ts a = (a', Some e) -> tame e.
Proof.
  revert a. induction ts as [|t ts IH]; intros a; cbn; [done|].
  destruct (set_token t a) as [e'|a1] eqn:E; [|apply IH]. intros [= _ <-].
  destruct t as [[] v|[]|]; cbn in E; try done;
    pose proof (stoi_throws v); destruct (stoi v) as [[]|]; cbn in *; by simplify_eq.
Qed.

Lemma run_safe args s : safe_unless (empty_argument args) (Spec.run args s).
Proof.
  unfold Spec.run, run_on, empty_argument.
  destruct (lex _) as [ts tail], (set_tokens ts (arg (ctx s))) as [a [e|]] eqn:E.
  - left. by apply set_tokens_tame in E.
  - destruct tail; rewrite ?Fatal_spec; try (by left); [done|by right].
Qed.

#[export] Instance safe_check_args : Safe check_args.
Proof. unfold check_args. safe. Qed.

Lemma safe_parse_args s : safe_unless (empty_argument (cmdline_args (ctx s))) (parse_args s).
Proof.
  apply safe_unless_with_timer; [timed|].
  change (safe_unless (empty_argument (cmdline_args (ctx s)))
            (parse_body (after_ctor "parse args" None s))). rewrite parse_body_eq.
  pose proof (run_safe (cmdline_args (ctx s)) (after_ctor "parse args" None s)) as H.
  change (cmdline_args (ctx (after_ctor "parse args" None s))) with (cmdline_args (ctx s)).
  destruct (run _ _); [apply safe_is_safe_unless, safe_check_args|exact H].
Qed.
End ParseArgs.

(** ** Properties *)

Section Properties.
Context `{CV : OpenCV} {os : OS} {build : Build}.
Import Spec.

(** C13 The loop of [parse_args] implements the table of options: it terminates
    within one iteration per argument and, on every command line, has the effect
    of reading tokens from left to right, up to the first malformed number, help
    request, missing value or unknown option, which stop the program with their
    message and status, or up to an empty argument where an option is expected, whose
    first character the loop reads although it has none. *)
Theorem parse_loop_refines_table args s :
  parse_loop (length args) args 1 s = Spec.run args s.
Proof. apply parse_loop_run. lia. Qed.

(** The command lines read to the end are exactly the renderings of lists of
    options, and reading one gives back the list it renders. *)
Theorem lex_inverts_render l ts :
  lex l = (ts, End) <-> l = ts ≫= render /\ Forall proper ts.
Proof.
  split; [apply lex_complete|]. intros [-> ?]. by apply lex_render.
Qed.

(** C26 [parse_args] returns exactly on the command lines that render a list of
    options whose numbers are well formed and that name both images; arguments that are
    no option are ignored when they are not empty; the
    whole effect, inside the function's timer, is then one assignment to [ctx.arg]:
    the options from left to right, with the defaults filled in. *)
Theorem parse_args_success s s' :
  parse_args s = Done tt s' <->
  exists ts a, drop 1 (cmdline_args (ctx s)) = ts ≫= render /\ Forall proper ts /\
    set_tokens ts (arg (ctx s)) = (a, None) /\ arg_new_file a <> "" /\ arg_old_file a <> "" /\
    with_timer "parse args" None (fun _ => modify (set_arg (fun _ => finish_args a))) s = Done tt s'.
Proof. apply parse_args_Done. Qed.

(** C28 After [parse_args] returns, both image paths are non-empty, the output
    prefix is non-empty, the threshold is a non-zero [i32] and the thread count a
    non-zero [i32]: what the rest of the program relies on. *)
Theorem parse_args_establishes s s' :
  arg (ctx s) = default_args -> (ENABLE_PARALLEL = true -> 1 <= active_value) ->
  parse_args s = Done tt s' ->
  let a := arg (ctx s') in
  arg_new_file a <> "" /\ arg_old_file a <> "" /\ output_name a <> "" /\
  bin_threshold a <> 0 /\ MachInt.in_i32 (bin_threshold a) /\
  thread_count a <> 0 /\ MachInt.in_i32 (thread_count a).
Proof.
  intros Hd Hact H.
  destruct (parse_args_state s s' H) as (ts & a & _ & _ & Hset & Hn & Ho & Hs).
  pose proof (arg_proper _ _ Hs) as Ha. cbn in Ha. rewrite Ha. clear Ha.
  apply set_tokens_ok in Hset as [Ht Hc]; [|rewrite Hd; split; unfold MachInt.in_i32; cbn; lia].
  assert (1 <= get_default_thread_count <= 16) as Hthr
    by (unfold get_default_thread_count; destruct ENABLE_PARALLEL;
          [specialize (Hact eq_refl)|]; lia).
  assert (MachInt.i64 get_default_thread_count = get_default_thread_count) as Hid
    by (apply MachInt.i64_id; unfold MachInt.in_i64; lia).
  unfold finish_args, MachInt.in_i32 in *.
  destruct (decide (thread_count a = 0)), (decide (bin_threshold a = 0)),
    (decide (output_name a = "")); cbn; rewrite ?Hid; split_and!; try done; lia.
Qed.

(** C35 A number written by [std::to_string] is read back by [-threshold], for
    every [i32] (0 is then replaced by the default). *)
Theorem threshold_roundtrip prog n s :
  MachInt.in_i32 n ->
  parse_loop 3 [prog; "-threshold"; to_string n] 1 s =
    Done tt (set_arg (with_bin_threshold n) s).
Proof.
  intros Hn. rewrite parse_loop_run by (cbn; lia). cbn [drop].
  assert (lex ["-threshold"; to_string n] = ([Value Threshold (to_string n)], End)) as E
    by apply (lex_render [Value Threshold (to_string n)] ltac:(by constructor)).
  unfold run_on. rewrite E. cbn [set_tokens set_token set_value].
  by rewrite stoi_to_string.
Qed.

(** Each of the two image options may be given any non-empty value, one that
    looks like an option included, and the last occurrence wins. *)
Theorem last_option_wins prog f f' g s :
  parse_loop 7 [prog; "-new"; f; "-old"; g; "-new"; f'] 1 s =
    Done tt (set_arg (fun a => with_new_file f' (with_old_file g a)) s).
Proof.
  rewrite parse_loop_run by (cbn; lia). cbn [drop].
  assert (lex ["-new"; f; "-old"; g; "-new"; f'] =
          ([Value New f; Value Old g; Value New f'], End)) as E
    by apply (lex_render [Value New f; Value Old g; Value New f'] ltac:(by repeat constructor)).
  unfold run_on. by rewrite E.
Qed.

(** The diagnostics of a missing value doubles the dash of the option: the
    message of [-new] at the end of the line names an option [--new]. *)
Theorem missing_value_message prog o s :
  color_diagnostics (arg (ctx s)) = false ->
  parse_loop 2 [prog; value_name o] 1 s =
    Stopped (Exited 1) (set_wld (write_err
      ("gazo-san: fatal: option -" +:+ value_name o +:+ ": argument missing" +:+ newline)) s) /\
  exists nm, value_name o = String "-"%char nm.
Proof.
  intros Hc. split; [|destruct o; by eexists]. rewrite parse_loop_run by (cbn; lia). cbn [drop].
  unfold run_on; cbn [lex]. rewrite classify_value; cbn [set_tokens].
  rewrite set_arg_id, Fatal_spec, Hc. by destruct o.
Qed.

(** [-color-diagnostics] takes the argument after it and ignores it: followed
    by [-new f] it swallows [-new], and the program stops for want of an image. *)
Theorem color_diagnostics_swallows prog f g s :
  positional f -> arg (ctx s) = default_args ->
  cmdline_args (ctx s) = [prog; "-color-diagnostics"; "-new"; f; "-old"; g] ->
  exists s', parse_args s = Stopped (Exited 1) s' /\
    arg_new_file (arg (ctx s')) = "".
Proof.
  intros Hf Hd Hcmd.
  assert (lex ["-color-diagnostics"; "-new"; f; "-old"; g] =
          ([Value Color "-new"; Positional f; Value Old g], End)) as E
    by apply (lex_render [Value Color "-new"; Positional f; Value Old g]
                ltac:(by repeat constructor)).
  eexists. split.
  - apply (with_timer_Stopped "parse args" None (fun _ => parse_body)).
    rewrite parse_body_eq.
    change (cmdline_args (ctx (after_ctor _ _ s))) with (cmdline_args (ctx s)). rewrite Hcmd.
    unfold Spec.run, run_on. cbn [drop]. rewrite E. cbn [set_tokens set_token set_value].
    rewrite check_args_spec. cbn [arg ctx set_arg].
    change (arg (ctx (after_ctor _ _ s))) with (arg (ctx s)). rewrite Hd. cbn.
    rewrite decide_True by done. apply Fatal_spec.
  - done.
Qed.
End Properties.

(** *** Witnesses *)

#[local] Instance example_build : Build := {| ENABLE_PARALLEL := false |}.
#[local] Instance no_files : OS := example_os [].

Definition example_argv : list string :=
  ["gazosan"; "-new"; "a.png"; "extra"; "-old"; "b.png"; "-threshold"; "-12"; "-perf"].

Definition after_example : St (CV := GridCv) :=
  match parse_args (initial_state example_argv) with
  | Done _ s => s | Stopped _ s => s
  end.

Lemma example_parse : parse_args (initial_state example_argv) = Done tt after_example.
Proof. vm_compute. reflexivity. Qed.

Lemma parse_args_establishes_witness :
  let a := arg (ctx after_example) in
  bin_threshold a = -12 /\ thread_count a = 16 /\ output_name a <> "" /\
  MachInt.in_i32 (bin_threshold a).
Proof.
  assert (ENABLE_PARALLEL = true -> 1 <= active_value) as Hact by done.
  destruct (parse_args_establishes (initial_state example_argv) after_example eq_refl
              Hact example_parse) as (_ & _ & ? & _ & ? & _).
  split_and!; [vm_compute; reflexivity|vm_compute; reflexivity|done|done].
Defined.

Lemma threshold_roundtrip_witness :
  MachInt.in_i32 (-12) /\
  parse_loop 3 ["gazosan"; "-threshold"; "-12"] 1 (initial_state []) =
    Done tt (set_arg (with_bin_threshold (-12)) (initial_state [])).
Proof.
  assert (MachInt.in_i32 (-12)) as H by (unfold MachInt.in_i32; lia).
  split; [done|]. exact (threshold_roundtrip "gazosan" (-12) (initial_state []) H).
Defined.

Lemma missing_value_message_witness :
  exists s', parse_loop 2 ["gazosan"; "-new"] 1 (initial_state []) = Stopped (Exited 1) s' /\
    w_err (wld s') = "gazo-san: fatal: option --new: argument missing" +:+ newline.
Proof.
  eexists. split; [apply (missing_value_message "gazosan" Spec.New (initial_state []) eq_refl)|].
  reflexivity.
Defined.

Lemma color_diagnostics_swallows_witness :
  exists s', parse_args (initial_state
    ["gazosan"; "-color-diagnostics"; "-new"; "a.png"; "-old"; "b.png"]) = Stopped (Exited 1) s' /\
    arg_new_file (arg (ctx s')) = "".
Proof.
  refine (color_diagnostics_swallows "gazosan" "a.png" "b.png" (initial_state
    ["gazosan"; "-color-diagnostics"; "-new"; "a.png"; "-old"; "b.png"]) _ eq_refl eq_refl).
  exists "a"%char, ".png". split; [reflexivity|discriminate].
Defined.
