(* ===== verification/MappedFiles.v ===== *)
(** Input files: [MappedFile] (gazosan.h), [decode_from_mapped_file] and
    [load_image] (image.cc), with the descriptors and mappings they hold. *)

From S2P Require Import Prelude StdLib Cv CvGrid Perf State Timed ExampleOs.
From Stdlib Require Import Ascii.

Section Code.
Context `{CV : OpenCV} {os : OS}.

(** [static_cast<u64>(tv_sec) * 1000000000 + tv_nsec], stored in an [i64]. *)
Definition mtime_nsec (t : Z * Z) : Z :=
  MachInt.i64 (MachInt.u64 (MachInt.u64 (MachInt.u64 t.1 * 1000000000) + MachInt.u64 t.2)).

(** [open], [fstat], [mmap] and [close] on the process state. *)
Definition sys_open (path : string) : M (option (nat * nat)) :=
  s ← get;
  match os_open path with
  | inl e => _ ← modify (set_wld (set_errno e)); mret None
  | inr f => _ ← modify (set_wld add_fd); mret (Some (w_next_fd (wld s), f))
  end.

Definition sys_fstat (f : nat) : M (option Stat) :=
  match os_fstat f with
  | inl e => _ ← modify (set_wld (set_errno e)); mret None
  | inr st => mret (Some st)
  end.

Definition sys_mmap (f : nat) (len : Z) : M (option (nat * list Z)) :=
  s ← get;
  match os_mmap f len with
  | inl e => _ ← modify (set_wld (set_errno e)); mret None
  | inr bytes => _ ← modify (set_wld (add_map len)); mret (Some (w_next_map (wld s), bytes))
  end.

Definition sys_close (fd : nat) : M unit := modify (set_wld (del_fd fd)).

(** [MappedFile::open]; [None] is [nullptr]. *)
Definition MappedFile_open (path : string) : M (option MappedFile) :=
  o ← sys_open path;
  match o with
  | None => mret None
  | Some (fd, f) =>
      o ← sys_fstat f;
      match o with
      | None => m ← errno_string; Fatal (path +:+ ": fstat failed: " +:+ m)
      | Some st =>
          let mtime := mtime_nsec (st_mtim st) in
          data ← (if decide (0 < st_size st) then
                    o ← sys_mmap f (st_size st);
                    match o with
                    | None => m ← errno_string; Fatal (path +:+ ": mmap failed: " +:+ m)
                    | Some d => mret (Some d)
                    end
                  else mret None);
          _ ← sys_close fd;
          mret (Some (mkMappedFile path data (st_size st) mtime))
      end
  end.

(** [MappedFile::must_open] *)
Definition MappedFile_must_open (path : string) : M MappedFile :=
  o ← MappedFile_open path;
  match o with
  | Some mf => mret mf
  | None => m ← errno_string; Fatal ("cannot open " +:+ path +:+ ": " +:+ m)
  end.

(** [MappedFile::~MappedFile]; [munmap(nullptr, ...)] unmaps nothing. *)
Definition MappedFile_dtor (mf : MappedFile) : M unit :=
  if decide (mf_size mf = 0) then mret tt
  else match mf_data mf with
       | Some (a, _) => modify (set_wld (del_map a))
       | None => mret tt
       end.

(** [decode_from_mapped_file]: the size is cast to [int]. *)
Definition decode_from_mapped_file (mf : MappedFile) (flags : ImreadFlag) : exc Mat :=
  imdecode (MachInt.i32 (mf_size mf)) (snd <$> mf_data mf) flags.

(** [ctx.<side>_file.reset(mf)] *)
Definition reset_file (d : Side) (mf : option MappedFile) : M unit :=
  old ← gets (the_file d);
  _ ← modify (set_file d mf);
  match old with Some o => MappedFile_dtor o | None => mret tt end.

(** The two halves of [load_image]. *)
Definition load_side (d : Side) : M unit :=
  path ← gets (fun c => arg_file d (arg c));
  if decide (path = "") then mret tt
  else
    mf ← MappedFile_must_open path;
    _ ← reset_file d (Some mf);
    color ← lift (decode_from_mapped_file mf IMREAD_COLOR);
    _ ← modify (set_color_mat d color);
    gray ← lift (cvtColor color COLOR_BGR2GRAY);
    modify (set_gray_mat d gray).

Definition load_image : M unit :=
  with_timer "load image" None (fun _ => _ ← load_side New; load_side Old).
End Code.

(** ** Facts *)

(** Descriptors and mappings are numbered in order of creation. *)
Definition fresh_ids `{CV : OpenCV} (w : World) : Prop :=
  (forall fd, fd ∈ w_fds w -> (fd < w_next_fd w)%nat) /\
  (forall a, a ∈ dom (w_maps w) -> (a < w_next_map w)%nat).

(** The mapping of a file is live and has the file's size. *)
Definition holds_mapping `{CV : OpenCV} (w : World) (mf : MappedFile) : Prop :=
  match mf_data mf with
  | Some (a, _) => w_maps w !! a = Some (mf_size mf)
  | None => mf_size mf <= 0
  end.

Section Facts.
Context `{CV : OpenCV} {os : OS}.

(** The file [open] describes: the size [fstat] reports and, when it is
    positive, the bytes [mmap] yields under the next free number. *)
Definition opened (path : string) (st : Stat) (data : option (nat * list Z)) : MappedFile :=
  mkMappedFile path data (st_size st) (mtime_nsec (st_mtim st)).

(** [MappedFile::open] on every branch. *)
Lemma MappedFile_open_eq path s :
  MappedFile_open path s =
  match os_open path with
  | inl e => Done None (set_wld (set_errno e) s)
  | inr f =>
      let s1 := set_wld add_fd s in
      let fatal what e :=
        let buf := strerror_r e (w_errbuf (wld s)) 200 in
        Fatal (path +:+ what +:+ buf) (set_wld (set_errbuf buf) (set_wld (set_errno e) s1)) in
      match os_fstat f with
      | inl e => fatal ": fstat failed: " e
      | inr st =>
          if decide (0 < st_size st) then
            match os_mmap f (st_size st) with
            | inl e => fatal ": mmap failed: " e
            | inr bytes =>
                Done (Some (opened path st (Some (w_next_map (wld s), bytes))))
                  (set_wld (del_fd (w_next_fd (wld s))) (set_wld (add_map (st_size st)) s1))
            end
          else Done (Some (opened path st None)) (set_wld (del_fd (w_next_fd (wld s))) s1)
      end
  end.
Proof.
  unfold MappedFile_open, sys_open, sys_fstat, sys_mmap, sys_close, errno_string.
  unfold get, modify, mbind, M_bind, mret, M_ret.
  destruct (os_open path) as [e|f]; [done|].
  destruct (os_fstat f) as [e|st]; [by rewrite !Fatal_spec|].
  case_decide; [|done].
  destruct (os_mmap f (st_size st)) as [e|bytes]; [by rewrite !Fatal_spec|done].
Qed.

Lemma add_del_fd w : fresh_ids w -> w_fds (del_fd (w_next_fd w) (add_fd w)) = w_fds w.
Proof.
  intros [Hf _]. cbn. apply set_eq. intros fd.
  rewrite elem_of_difference, elem_of_union, elem_of_singleton. split; [tauto|].
  intros Hin. split; [by right|]. intros ->. specialize (Hf _ Hin). lia.
Qed.

Lemma fresh_ids_init : fresh_ids World_init.
Proof. split; cbn; [intros ? ?%elem_of_empty; done|intros a; rewrite dom_empty_L; set_solver]. Qed.

(** Neither the images written nor the two output streams change. *)
Definition same_io (s s' : St) : Prop :=
  w_images (wld s') = w_images (wld s) /\ w_out (wld s') = w_out (wld s) /\
  w_err (wld s') = w_err (wld s).

(** What a returning [open] leaves behind. *)
Lemma MappedFile_open_Done path s o s' :
  fresh_ids (wld s) -> MappedFile_open path s = Done o s' ->
  ctx s' = ctx s /\ same_io s s' /\ w_fds (wld s') = w_fds (wld s) /\ fresh_ids (wld s') /\
  match o with
  | None => (exists e, os_open path = inl e) /\ w_maps (wld s') = w_maps (wld s)
  | Some mf =>
      exists f st, os_open path = inr f /\ os_fstat f = inr st /\
        mf_name mf = path /\ mf_size mf = st_size st /\ mf_mtime mf = mtime_nsec (st_mtim st) /\
        holds_mapping (wld s') mf /\
        ((0 < st_size st /\ exists bytes, os_mmap f (st_size st) = inr bytes /\
            mf_data mf = Some (w_next_map (wld s), bytes) /\
            w_maps (wld s') = <[w_next_map (wld s) := st_size st]> (w_maps (wld s))) \/
         (st_size st <= 0 /\ mf_data mf = None /\ w_maps (wld s') = w_maps (wld s)))
  end.
Proof.
  intros Hfr. rewrite MappedFile_open_eq.
  assert (forall w, fresh_ids w -> fresh_ids (del_fd (w_next_fd w) (add_fd w))) as Hfd.
  { intros w [Hf Hm]. split; [|exact Hm]. intros fd Hin.
    rewrite (add_del_fd w (conj Hf Hm)) in Hin. cbn. specialize (Hf fd Hin). lia. }
  destruct (os_open path) as [e|f] eqn:Eo.
  { intros [= <- <-]. split_and!; [done|done|done|done|eauto|done]. }
  cbn. destruct (os_fstat f) as [e|st] eqn:Es; [by rewrite Fatal_spec|].
  case_decide as Hsz.
  - destruct (os_mmap f (st_size st)) as [e|bytes] eqn:Em; [by rewrite Fatal_spec|].
    intros [= <- <-]. cbn. split_and!; [done|done|by apply (add_del_fd (wld s))| |].
    + destruct (Hfd (wld s) Hfr) as [Hf Hm]. split; [exact Hf|]. cbn in *.
      intros a. rewrite dom_insert_L, elem_of_union, elem_of_singleton.
      intros [->|Ha]; [lia|]. specialize (Hm a Ha). lia.
    + exists f, st. unfold holds_mapping; cbn. rewrite lookup_insert_eq.
      split_and!; [done..|]. left. eauto.
  - intros [= <- <-]. cbn. split_and!; [done|done|by apply (add_del_fd (wld s))|by apply Hfd|].
    exists f, st. unfold holds_mapping; cbn. split_and!; [done..|lia|]. right.
    split_and!; [lia|done|done].
Qed.

Lemma must_open_Done path s mf s' :
  MappedFile_must_open path s = Done mf s' <-> MappedFile_open path s = Done (Some mf) s'.
Proof.
  unfold MappedFile_must_open. rewrite bind_Done. split.
  - intros ([mf'|] & s1 & E & H); [by injection H as -> ->|].
    apply bind_Done in H as (m & s2 & _ & H). by rewrite Fatal_spec in H.
  - intros E. by exists (Some mf), s'.
Qed.

(** *** Loading one image *)

(** The file at [path] opens with status [st] and holds [bytes] when it is not
    empty. *)
Definition file_at (path : string) (st : Stat) (bytes : option (list Z)) : Prop :=
  exists f, os_open path = inr f /\ os_fstat f = inr st /\
    ((0 < st_size st /\ exists b, os_mmap f (st_size st) = inr b /\ bytes = Some b) \/
     (st_size st <= 0 /\ bytes = None)).

(** The bytes decode to [color], which converts to [gray]. *)
Definition decodes (st : Stat) (bytes : option (list Z)) (color gray : Mat) : Prop :=
  imdecode (MachInt.i32 (st_size st)) bytes IMREAD_COLOR = inr color /\
  cvtColor color COLOR_BGR2GRAY = inr gray.

(** An open file, with its mapping held. *)
Record file_of (w : World) (mf : MappedFile) (path : string) (st : Stat)
    (bytes : option (list Z)) : Prop := {
  fo_at : file_at path st bytes;
  fo_name : mf_name mf = path;
  fo_size : mf_size mf = st_size st;
  fo_mtime : mf_mtime mf = mtime_nsec (st_mtim st);
  fo_bytes : snd <$> mf_data mf = bytes;
  fo_held : holds_mapping w mf
}.

(** Side [d] of a context holds an image read from a file. *)
Definition loaded (d : Side) (s : St) : Prop :=
  exists mf st bytes,
    the_file d (ctx s) = Some mf /\
    file_of (wld s) mf (arg_file d (arg (ctx s))) st bytes /\
    decodes st bytes (color_mat d (ctx s)) (gray_mat d (ctx s)).

(** The mappings of one state stay in another. *)
Lemma file_of_mono w w' mf path st bytes :
  w_maps w ⊆ w_maps w' -> file_of w mf path st bytes -> file_of w' mf path st bytes.
Proof.
  intros Hw [? ? ? ? ? H]. split; [done..|]. unfold holds_mapping in *.
  destruct (mf_data mf) as [[a b]|]; [|done]. by eapply lookup_weaken.
Qed.

(** A path determines its file, and the file its images. *)
Lemma file_at_det path st st' bytes bytes' :
  file_at path st bytes -> file_at path st' bytes' -> st' = st /\ bytes' = bytes.
Proof.
  intros (f & E1 & E2 & H) (f' & E1' & E2' & H').
  rewrite E1 in E1'. injection E1' as <-. rewrite E2 in E2'. injection E2' as <-.
  split; [done|].
  destruct H as [(? & b & E & ->)|[? ->]], H' as [(? & b' & E' & ->)|[? ->]]; congruence || lia.
Qed.

(** [open] on an existing file. *)
Lemma open_file path st bytes s :
  file_at path st bytes -> exists mf s', MappedFile_open path s = Done (Some mf) s'.
Proof.
  intros (f & Eo & Es & Hd). rewrite MappedFile_open_eq, Eo; cbn. rewrite Es.
  case_decide; destruct Hd as [(? & b & Eb & _)|[? _]]; try lia; rewrite ?Eb; eauto.
Qed.

Lemma open_file_inv path mf s s' :
  fresh_ids (wld s) -> MappedFile_open path s = Done (Some mf) s' ->
  ctx s' = ctx s /\ same_io s s' /\ w_fds (wld s') = w_fds (wld s) /\ fresh_ids (wld s') /\
  w_maps (wld s) ⊆ w_maps (wld s') /\
  (forall a, a ∈ dom (w_maps (wld s')) ->
     a ∈ dom (w_maps (wld s)) \/ exists b, mf_data mf = Some (a, b)) /\
  exists st, file_of (wld s') mf path st (snd <$> mf_data mf).
Proof.
  intros Hf E.
  destruct (MappedFile_open_Done _ _ _ _ Hf E)
    as (? & ? & ? & ? & f & st & Eo & Es & ? & ? & ? & ? & Hm).
  split_and!; [done..| | |].
  - destruct Hm as [(_ & _ & _ & _ & ->)|(_ & _ & ->)]; [|done]. apply insert_subseteq.
    apply not_elem_of_dom. intros Hin%Hf. lia.
  - intros a. destruct Hm as [(_ & b & _ & -> & ->)|(_ & _ & ->)]; [|by left].
    rewrite dom_insert, elem_of_union, elem_of_singleton. intros [->|?]; [right; eauto|by left].
  - exists st. split; [|done..]. exists f. split_and!; [done..|].
    destruct Hm as [(? & b & ? & -> & _)|(? & -> & _)]; [left|right]; cbn; eauto.
Qed.

(** Loading one side once its file is open. *)
Lemma load_side_eq d s mf s1 :
  arg_file d (arg (ctx s)) <> "" -> the_file d (ctx s) = None -> ctx s1 = ctx s ->
  MappedFile_open (arg_file d (arg (ctx s))) s = Done (Some mf) s1 ->
  load_side d s =
  (color ← lift (decode_from_mapped_file mf IMREAD_COLOR);
   _ ← modify (set_color_mat d color);
   gray ← lift (cvtColor color COLOR_BGR2GRAY);
   modify (set_gray_mat d gray)) (set_file d (Some mf) s1).
Proof.
  intros Hp Hn Hc E%must_open_Done. unfold load_side.
  rewrite (bind_Done_eq _ _ s (arg_file d (arg (ctx s))) s) by done.
  rewrite decide_False by done. rewrite (bind_Done_eq _ _ _ _ _ E).
  unfold reset_file, gets, modify, mbind, M_bind. by rewrite Hc, Hn.
Qed.

(** What loading one side leaves alone. *)
Record frame (d : Side) (s s' : St) : Prop := {
  fr_arg : arg (ctx s') = arg (ctx s);
  fr_io : same_io s s';
  fr_fds : w_fds (wld s') = w_fds (wld s);
  fr_maps : w_maps (wld s) ⊆ w_maps (wld s');
  fr_only a : a ∈ dom (w_maps (wld s')) ->
    a ∈ dom (w_maps (wld s)) \/
    exists mf b, the_file d (ctx s') = Some mf /\ mf_data mf = Some (a, b);
  fr_fresh : fresh_ids (wld s');
  fr_other d' : d' <> d ->
    the_file d' (ctx s') = the_file d' (ctx s) /\
    color_mat d' (ctx s') = color_mat d' (ctx s) /\
    gray_mat d' (ctx s') = gray_mat d' (ctx s);
  fr_segments d' : segments d' (ctx s') = segments d' (ctx s)
}.

Lemma load_side_Done d s s' :
  arg_file d (arg (ctx s)) <> "" -> the_file d (ctx s) = None -> fresh_ids (wld s) ->
  load_side d s = Done tt s' -> frame d s s' /\ loaded d s'.
Proof.
  intros Hp Hn Hf E.
  assert (exists mf s1, MappedFile_open (arg_file d (arg (ctx s))) s = Done (Some mf) s1)
    as (mf & s1 & Eo).
  { unfold load_side in E. apply bind_Done in E as (? & ? & [= <- <-] & E).
    rewrite decide_False in E by done.
    apply bind_Done in E as (mf & s1 & E%must_open_Done & _). eauto. }
  destruct (open_file_inv _ _ _ _ Hf Eo) as (Hc & Hio & ? & ? & ? & Ho & st & Hst).
  rewrite (load_side_eq d s mf s1) in E by done.
  apply bind_Done in E as (color & ? & Ec & E). unfold lift in Ec.
  destruct (decode_from_mapped_file mf IMREAD_COLOR) as [|color'] eqn:Ed; [done|].
  injection Ec as -> <-. apply bind_Done in E as (? & ? & [= <- <-] & E).
  apply bind_Done in E as (gray & ? & Eg & [= <-]). unfold lift in Eg.
  destruct (cvtColor color COLOR_BGR2GRAY) as [|gray'] eqn:Ecv; [done|].
  injection Eg as -> <-. unfold decode_from_mapped_file in Ed.
  split.
  - destruct d; split; cbn; rewrite ?Hc; try done; try (by intros []).
    1,2: intros a [?|[b Hb]]%Ho; [by left|right; by exists mf, b].
  - exists mf, st, (snd <$> mf_data mf).
    destruct d; cbn; rewrite Hc; (split; [done|]); (split; [done|]);
      unfold decodes; rewrite <- (fo_size _ _ _ _ _ Hst); by split.
Qed.

Lemma load_side_run d s st bytes color gray :
  arg_file d (arg (ctx s)) <> "" -> the_file d (ctx s) = None -> fresh_ids (wld s) ->
  file_at (arg_file d (arg (ctx s))) st bytes -> decodes st bytes color gray ->
  exists s', load_side d s = Done tt s'.
Proof.
  intros Hp Hn Hf Hat [Hd Hg]. destruct (open_file _ _ _ s Hat) as (mf & s1 & Eo).
  destruct (open_file_inv _ _ _ _ Hf Eo) as (Hc & _ & ? & ? & ? & _ & st' & Hst).
  rewrite (load_side_eq d s mf s1) by done.
  destruct (file_at_det _ _ _ _ _ Hat (fo_at _ _ _ _ _ Hst)) as [Est Eb].
  unfold decode_from_mapped_file. rewrite (fo_size _ _ _ _ _ Hst), Est, Eb.
  rewrite Hd. unfold mbind, M_bind, lift, modify. rewrite Hg. eauto.
Qed.
End Facts.

Section LoadImage.
Context `{CV : OpenCV} {os : OS}.

#[export] Instance timed_errno_string n : TimedFrom n errno_string.
Proof. unfold errno_string. timed. Qed.
#[export] Instance timed_MappedFile_open n path : TimedFrom n (MappedFile_open path).
Proof. unfold MappedFile_open, sys_open, sys_fstat, sys_mmap, sys_close. timed. Qed.
#[export] Instance timed_must_open n path : TimedFrom n (MappedFile_must_open path).
Proof. unfold MappedFile_must_open. timed. Qed.
#[export] Instance timed_MappedFile_dtor n mf : TimedFrom n (MappedFile_dtor mf).
Proof. unfold MappedFile_dtor. timed. Qed.
#[export] Instance timed_load_side n d : TimedFrom n (load_side d).
Proof. unfold load_side, reset_file. timed. Qed.
#[export] Instance timed_load_image n : TimedFrom n load_image.
Proof. unfold load_image. timed. Qed.

(** A state before [load_image]: no file is open yet. *)
Record before_load (s : St) : Prop := {
  bl_fresh : fresh_ids (wld s);
  bl_files d : the_file d (ctx s) = None;
  bl_args d : arg_file d (arg (ctx s)) <> ""
}.

#[export] Instance loaded_proper d : Proper (same_but_time ==> iff) (loaded d).
Proof.
  enough (forall s s', s ≈ s' -> loaded d s -> loaded d s') as H
    by (intros s s' E; split; by apply H).
  intros s s' E (mf & st & bytes & ? & [? ? ? ? ? Hh] & ?). exists mf, st, bytes.
  rewrite <- (the_file_proper d _ _ E), <- (arg_proper _ _ E), <- (color_mat_proper d _ _ E),
    <- (gray_mat_proper d _ _ E).
  split_and!; [done| |done]. split; [done..|].
  pose proof (f_equal w_maps (same_wld _ _ E)) as Em. cbn in Em.
  unfold holds_mapping. by rewrite <- Em.
Qed.

Lemma fresh_proper s s' : s ≈ s' -> fresh_ids (wld s) -> fresh_ids (wld s').
Proof.
  intros Ew%same_wld [Hf Hm]. injection Ew as _ _ _ _ E1 E2 E3 E4 _.
  split; rewrite <- ?E1, <- ?E2, <- ?E3, <- ?E4; done.
Qed.

Lemma before_load_proper s s' : s ≈ s' -> before_load s -> before_load s'.
Proof.
  intros E [? Hf Ha]. split; [by eapply fresh_proper| |].
  - intros d. by rewrite <- (the_file_proper d _ _ E).
  - intros d. by rewrite <- (arg_proper _ _ E).
Qed.

(** Loading the other side keeps a loaded side. *)
Lemma loaded_frame d d' s s' : d' <> d -> frame d s s' -> loaded d' s -> loaded d' s'.
Proof.
  intros Hd F (mf & st & bytes & Hl & Hf & Hdec).
  destruct (fr_other _ _ _ F d' Hd) as (E1 & E2 & E3).
  exists mf, st, bytes. rewrite E1, E2, E3, (fr_arg _ _ _ F). split_and!; [done| |done].
  eapply file_of_mono; [|exact Hf]. apply (fr_maps _ _ _ F).
Qed.

(** The mappings of [s'] are those of [s] and those of its two files. *)
Definition only_files (s s' : St) : Prop :=
  forall a, a ∈ dom (w_maps (wld s')) ->
    a ∈ dom (w_maps (wld s)) \/
    exists d mf b, the_file d (ctx s') = Some mf /\ mf_data mf = Some (a, b).

(** Both sides in turn. *)
Lemma load_sides_Done s s' :
  before_load s -> (_ ← load_side New; load_side Old) s = Done tt s' ->
  (forall d, loaded d s') /\ arg (ctx s') = arg (ctx s) /\
  w_fds (wld s') = w_fds (wld s) /\ (forall d, segments d (ctx s') = segments d (ctx s)) /\
  only_files s s' /\ same_io s s'.
Proof.
  intros [Hf Hn Ha] ([] & s1 & E1 & E2)%bind_Done.
  destruct (load_side_Done _ _ _ (Ha New) (Hn New) Hf E1) as [F1 L1].
  destruct (fr_other _ _ _ F1 Old) as (En & _ & _); [done|].
  apply load_side_Done in E2 as [F2 L2].
  - split_and!.
    + intros []; [by apply (loaded_frame Old New s1)|done].
    + by rewrite (fr_arg _ _ _ F2), (fr_arg _ _ _ F1).
    + by rewrite (fr_fds _ _ _ F2), (fr_fds _ _ _ F1).
    + intros d. by rewrite (fr_segments _ _ _ F2), (fr_segments _ _ _ F1).
    + intros a [[Hin|(mf & b & E & Hb)]%(fr_only _ _ _ F1)|(mf & b & E & Hb)]%(fr_only _ _ _ F2).
      * by left.
      * right. destruct (fr_other _ _ _ F2 New) as (E' & _); [done|].
        exists New, mf, b. by rewrite E'.
      * right. by exists Old, mf, b.
    + destruct (fr_io _ _ _ F1) as (? & ? & ?), (fr_io _ _ _ F2) as (? & ? & ?). split_and!; congruence.
  - rewrite (fr_arg _ _ _ F1). apply (Ha Old).
  - rewrite En. apply Hn.
  - apply (fr_fresh _ _ _ F1).
Qed.

Lemma load_image_Done s s' :
  before_load s -> load_image s = Done tt s' ->
  (forall d, loaded d s') /\ arg (ctx s') = arg (ctx s) /\
  w_fds (wld s') = w_fds (wld s) /\ (forall d, segments d (ctx s') = segments d (ctx s)) /\
  only_files s s' /\ same_io s s'.
Proof.
  intros Hb (s2 & E & Hs)%with_timer_inv.
  assert (before_load (after_ctor "load image" None s)) as Hb'
    by (eapply before_load_proper; [symmetry; apply after_ctor_same|done]).
  destruct (load_sides_Done _ _ Hb' E) as (L & Ea & Ef & Eg & Eo & Ei & Et & Ee). split_and!.
  - intros d. rewrite Hs. apply L.
  - by rewrite (arg_proper _ _ Hs).
  - etrans; [exact (f_equal w_fds (same_wld _ _ Hs))|exact Ef].
  - intros d. by rewrite (segments_proper d _ _ Hs).
  - intros a Ha. rewrite (f_equal w_maps (same_wld _ _ Hs) : w_maps (wld s') = w_maps (wld s2)) in Ha.
    destruct (Eo a Ha) as [?|(d & mf & b & E1 & E2)]; [by left|right].
    exists d, mf, b. by rewrite (the_file_proper d _ _ Hs).
  - unfold same_io. by rewrite (images_proper _ _ Hs), (out_proper _ _ Hs), (err_proper _ _ Hs).
Qed.

#[export] Instance safe_errno_string : Safe errno_string.
Proof. unfold errno_string. safe. Qed.
#[export] Instance safe_open path : Safe (MappedFile_open path).
Proof. unfold MappedFile_open, sys_open, sys_fstat, sys_mmap, sys_close. safe. Qed.
#[export] Instance safe_must_open path : Safe (MappedFile_must_open path).
Proof. unfold MappedFile_must_open. safe. Qed.
#[export] Instance safe_dtor mf : Safe (MappedFile_dtor mf).
Proof. unfold MappedFile_dtor. safe. Qed.

Lemma throws_decode `{!ThrowLaws CV} mf flags : throws (decode_from_mapped_file mf flags).
Proof. unfold decode_from_mapped_file. throws. Qed.
#[local] Hint Resolve throws_decode : gz.

#[export] Instance safe_load_side `{!ThrowLaws CV} d : Safe (load_side d).
Proof. unfold load_side, reset_file. safe. Qed.
#[export] Instance safe_load_image `{!ThrowLaws CV} : Safe load_image.
Proof. intros s. apply safe_at_with_timer; [timed|]. apply safe_bind; [apply _|intros ?; apply _]. Qed.

(** Both files can be opened and decoded. *)
Definition can_load (s : St) : Prop :=
  forall d, exists st bytes color gray,
    file_at (arg_file d (arg (ctx s))) st bytes /\ decodes st bytes color gray.

Lemma load_image_run s :
  before_load s -> can_load s -> exists s', load_image s = Done tt s'.
Proof.
  intros Hb Hc. set (s0 := after_ctor "load image" None s).
  assert (before_load s0) as [Hf Hn Ha]
    by (eapply before_load_proper; [symmetry; apply after_ctor_same|done]).
  destruct (Hc New) as (st & b & c & g & H1 & H2).
  destruct (load_side_run New s0 st b c g (Ha New) (Hn New) Hf H1 H2) as [s1 E1].
  destruct (load_side_Done _ _ _ (Ha New) (Hn New) Hf E1) as [F1 _].
  destruct (fr_other _ _ _ F1 Old) as (En & _ & _); [done|].
  pose proof (fr_arg _ _ _ F1) as Ea.
  destruct (Hc Old) as (st' & b' & c' & g' & H1' & H2').
  destruct (load_side_run Old s1 st' b' c' g') as [s2 E2].
  - rewrite Ea. apply (Ha Old).
  - rewrite En. apply Hn.
  - apply (fr_fresh _ _ _ F1).
  - by rewrite Ea.
  - done.
  - destruct (with_timer_run "load image" None (fun _ => _ ← load_side New; load_side Old)
                s tt s2) as (s' & ? & _); [timed| |by exists s'].
    fold s0. rewrite (bind_Done_eq _ _ _ _ _ E1). exact E2.
Qed.
End LoadImage.

#[export] Hint Resolve throws_decode : gz.

(** ** Properties *)

Section Properties.
Context `{CV : OpenCV} {os : OS}.

(** C27 [load_image] returns exactly when both files can be opened, stated, mapped
    and decoded; no other condition, and no state of the process, matters. *)
Theorem load_image_returns (s : St) :
  before_load s -> (exists s', load_image s = Done tt s') <-> can_load s.
Proof.
  intros Hb. split; [|by apply load_image_run].
  intros [s' E] d. destruct (load_image_Done s s' Hb E) as (L & Ea & _).
  destruct (L d) as (mf & st & bytes & _ & F & D). rewrite Ea in F.
  exists st, bytes, (color_mat d (ctx s')), (gray_mat d (ctx s')).
  split; [apply F|done].
Qed.

(** C25 After [load_image] each side of the context holds its file, with the
    name, size and time of the file's status and a live mapping of that size, the
    decoded image and its gray version; every descriptor opened is closed, no other
    mapping is created, and the options, the segments, the images written and the
    two output streams are as before. *)
Theorem load_image_loads (s s' : St) :
  before_load s -> load_image s = Done tt s' ->
  (forall d, loaded d s') /\ arg (ctx s') = arg (ctx s) /\
  w_fds (wld s') = w_fds (wld s) /\ (forall d, segments d (ctx s') = segments d (ctx s)) /\
  only_files s s' /\ same_io s s'.
Proof. apply load_image_Done. Qed.

(** C33 A file opened and then destroyed leaks nothing: the descriptor is closed
    before [open] returns, the mapping lives until the destructor, and afterwards
    the live mappings are those before the call. *)
Theorem open_dtor_balanced (path : string) (mf : MappedFile) (s s' : St) :
  fresh_ids (wld s) -> MappedFile_open path s = Done (Some mf) s' ->
  w_fds (wld s') = w_fds (wld s) /\ holds_mapping (wld s') mf /\
  exists s'', MappedFile_dtor mf s' = Done tt s'' /\ w_maps (wld s'') = w_maps (wld s) /\
    w_fds (wld s'') = w_fds (wld s).
Proof.
  intros Hf E.
  destruct (MappedFile_open_Done _ _ _ _ Hf E)
    as (_ & _ & Hfds & _ & f & st & _ & _ & _ & Hsz & _ & Hh & Hm).
  split_and!; [done..|]. unfold MappedFile_dtor.
  destruct Hm as [(? & b & _ & Hd & Hm)|(? & Hd & Hm)]; rewrite Hd.
  - rewrite decide_False by lia. eexists. split; [done|]. cbn. split; [|done].
    rewrite Hm. apply delete_insert_id, not_elem_of_dom. intros Hin%Hf. lia.
  - exists s'. by case_decide.
Qed.

(** C38 A file that cannot be opened stops the program with status 1, for any setting of
    the colors: the standard error gets the fatal prefix, in color when colors are on, the
    path and the contents of the thread's buffer as [strerror_r] leaves it.  These are the
    reason only if [strerror_r] stores its text there: the variant that returns its text
    and keeps the buffer leaves what the buffer held.  No descriptor and no mapping is
    created. *)
Theorem must_open_missing (path : string) (e : Z) (s : St) :
  os_open path = inl e ->
  let buf := strerror_r e (w_errbuf (wld s)) 200 in
  exists s', MappedFile_must_open path s = Stopped (Exited 1) s' /\
    w_err (wld s') = w_err (wld s) +:+
      (if color_diagnostics (arg (ctx s))
       then "gazo-san: " +:+ String "027"%char "[0;1;31m" +:+ "fatal:" +:+ String "027"%char "[0m "
       else "gazo-san: fatal: ") +:+ "cannot open " +:+ path +:+ ": " +:+ buf +:+ newline /\
    w_errbuf (wld s') = buf /\
    ((forall e b n, strerror_r e b n = b) -> buf = w_errbuf (wld s)) /\
    w_fds (wld s') = w_fds (wld s) /\ w_maps (wld s') = w_maps (wld s).
Proof.
  intros Eo buf. unfold MappedFile_must_open. rewrite (bind_Done_eq _ _ s None (set_wld (set_errno e) s)).
  - unfold errno_string, get, modify. unfold mbind, M_bind, mret, M_ret; cbn beta iota.
    rewrite Fatal_spec. cbn. eexists. split; [done|]. split_and!; [|done|intros Hs; apply Hs|done|done].
    cbn. fold buf. destruct (color_diagnostics _); cbn; by rewrite ?append_assoc.
  - by rewrite MappedFile_open_eq, Eo.
Qed.

(** With the variant of [strerror_r] that returns its text instead of storing it
    in the buffer, the first diagnostics of a missing file gives no reason: the
    discarded result leaves the thread's zeroed buffer as the text. *)
Theorem errno_string_loses_reason (path : string) (e : Z) (s : St) :
  (forall e b n, strerror_r e b n = b) -> os_open path = inl e ->
  w_errbuf (wld s) = "" -> color_diagnostics (arg (ctx s)) = false ->
  exists s', MappedFile_must_open path s = Stopped (Exited 1) s' /\
    w_err (wld s') = w_err (wld s) +:+ "gazo-san: fatal: cannot open " +:+ path +:+ ": " +:+ newline.
Proof.
  intros Hs Eo Eb Ec. unfold MappedFile_must_open.
  rewrite (bind_Done_eq _ _ s None (set_wld (set_errno e) s)).
  - unfold errno_string, get, modify. unfold mbind, M_bind, mret, M_ret; cbn beta iota.
    rewrite Hs, Fatal_spec; cbn. rewrite Ec, Eb. eexists. split; [done|].
    cbn. by rewrite ?append_assoc.
  - by rewrite MappedFile_open_eq, Eo.
Qed.

(** C39 The modification time is the exact number of nanoseconds for every time
    that fits 64 bits, times before 1970 included: the detour through [u64] loses
    nothing. *)
Theorem mtime_exact (sec nsec : Z) :
  MachInt.in_i64 (sec * 1000000000 + nsec) -> mtime_nsec (sec, nsec) = sec * 1000000000 + nsec.
Proof.
  intros Hr. unfold mtime_nsec; cbn [fst snd].
  transitivity (MachInt.i64 (MachInt.u64 (MachInt.u64 (MachInt.u64 sec * 1000000000) + nsec))).
  - unfold MachInt.i64, MachInt.u64, MachInt.to_unsigned.
    by rewrite Z.add_mod_idemp_r.
  - rewrite MachInt.i64_u64_arith. by apply MachInt.i64_id.
Qed.

(** [decode_from_mapped_file] hands the decoder the file's exact size below
    2 GiB, and a negative number of columns from there to 4 GiB: the cast to [int]
    drops the high bits. *)
Theorem decode_size (mf : MappedFile) (flags : ImreadFlag) :
  0 <= mf_size mf < 2 ^ 32 ->
  decode_from_mapped_file mf flags =
  imdecode (if decide (mf_size mf < 2 ^ 31) then mf_size mf else mf_size mf - 2 ^ 32)
    (snd <$> mf_data mf) flags.
Proof.
  intros Hs. unfold decode_from_mapped_file. f_equal. case_decide.
  - apply MachInt.i32_id. unfold MachInt.in_i32. lia.
  - unfold MachInt.i32, MachInt.to_signed. rewrite Z.mod_small by lia.
    change (32 - 1) with 31. destruct (Z.ltb_spec (mf_size mf) (2 ^ 31)); lia.
Qed.
End Properties.

(** ** Witnesses *)

Definition example_args : Args :=
  mkArgs false "new.png" "old.png" "out" true 5 false 16 false.

Definition example_fs : OS := example_os [image_old; image_new].

Definition example_before : St (CV := GridCv) :=
  set_arg (fun _ => example_args) (initial_state ["gazosan"]).

Lemma example_before_load : before_load example_before.
Proof. split; [apply fresh_ids_init|by intros []|by intros []]. Qed.

Lemma example_loads : exists s', load_image (os := example_fs) example_before = Done tt s'.
Proof.
  destruct (run_check_Done (load_image (os := example_fs) example_before) (fun _ _ => true))
    as ([] & s' & E & _); [vm_compute; reflexivity|].
  exists s'. exact E.
Qed.

Lemma load_image_returns_witness :
  (exists s', load_image (os := example_fs) example_before = Done tt s') /\
  can_load (os := example_fs) example_before.
Proof.
  split; [exact example_loads|].
  exact (proj1 (load_image_returns (os := example_fs) example_before example_before_load)
           example_loads).
Defined.

Lemma load_image_loads_witness :
  exists s', load_image (os := example_fs) example_before = Done tt s' /\
    loaded (os := example_fs) New s' /\ loaded (os := example_fs) Old s'.
Proof.
  destruct example_loads as [s' E]. exists s'. split; [exact E|].
  destruct (load_image_loads (os := example_fs) example_before s' example_before_load E) as (L & _).
  split; [exact (L New)|exact (L Old)].
Defined.

Lemma example_opens :
  exists mf s', MappedFile_open (os := example_fs) "old.png" example_before = Done (Some mf) s'.
Proof.
  destruct (run_check_Done (MappedFile_open (os := example_fs) "old.png" example_before)
              (fun o _ => match o with Some _ => true | None => false end))
    as ([mf|] & s' & E & H); [vm_compute; reflexivity| |discriminate H].
  exists mf, s'. exact E.
Qed.

Lemma open_dtor_balanced_witness :
  exists mf s', MappedFile_open (os := example_fs) "old.png" example_before = Done (Some mf) s' /\
    holds_mapping (wld s') mf.
Proof.
  destruct example_opens as (mf & s' & E). exists mf, s'. split; [exact E|].
  exact (proj1 (proj2 (open_dtor_balanced (os := example_fs) "old.png" mf example_before s'
                         fresh_ids_init E))).
Defined.

Lemma must_open_missing_witness :
  exists s', MappedFile_must_open (os := example_fs) "x.png" example_before = Stopped (Exited 1) s' /\
    w_err (wld s') = "gazo-san: fatal: cannot open x.png: No such file or directory" +:+ newline.
Proof.
  destruct (must_open_missing (os := example_fs) "x.png" 2 example_before)
    as (s' & E & H & _); [reflexivity|].
  exists s'. split; [exact E|exact H].
Defined.

(** The example system with the variant of [strerror_r] that keeps the buffer. *)
Definition silent_fs : OS := {|
  clock_gettime := clock_gettime (OS := example_fs);
  getrusage := getrusage (OS := example_fs);
  os_open := os_open (OS := example_fs);
  os_fstat := os_fstat (OS := example_fs);
  os_mmap := os_mmap (OS := example_fs);
  strerror_r _ b _ := b;
  active_value := 8
|}.

Lemma errno_string_loses_reason_witness :
  exists s', MappedFile_must_open (os := silent_fs) "x.png" example_before = Stopped (Exited 1) s' /\
    w_err (wld s') = "gazo-san: fatal: cannot open x.png: " +:+ newline.
Proof.
  destruct (errno_string_loses_reason (os := silent_fs) "x.png" 2 example_before)
    as (s' & E & H); [reflexivity..|].
  exists s'. split; [exact E|exact H].
Defined.

Lemma mtime_exact_witness : mtime_nsec (-1, 999999999) = -1.
Proof. apply (mtime_exact (-1) 999999999). unfold MachInt.in_i64. lia. Defined.

Lemma decode_size_witness :
  decode_from_mapped_file (CV := GridCv) (mkMappedFile "big" None (3 * 2 ^ 30) 0) IMREAD_COLOR =
  imdecode (- 2 ^ 30) None IMREAD_COLOR.
Proof.
  apply (decode_size (CV := GridCv) (mkMappedFile "big" None (3 * 2 ^ 30) 0) IMREAD_COLOR).
  cbn. lia.
Defined.
