(* ===== verification/Histogram.v ===== *)
(** The comparison of the two images' histograms:
    [check_histogram_differential] (image.cc); Tolerance.v has its comparison of doubles. *)

From S2P Require Import Prelude StdLib Tolerance Cv CvGrid Perf PerfForest State Timed ExampleOs.
From S2P Require Import MappedFiles.
From Stdlib Require Import SpecFloat.

Section Code.
Context `{CV : OpenCV} {os : OS}.

(** The lambda [preprocess_image]. *)
Definition preprocess_image (color_mat : Mat) : M Mat :=
  with_timer "preprocess image" None (fun _ =>
    hsv_mat ← lift (cvtColor color_mat COLOR_BGR2HSV);
    output ← lift (calcHist hsv_mat [0; 1] [256; 256] [(0, 180); (0, 256)]);
    lift (normalize output 0 1 NORM_MINMAX)).

(** [std::variant<bool, std::string>]; the method number 1 is
    [cv::HISTCMP_CHISQR]. *)
Definition check_histogram_differential : M (bool + string) :=
  with_timer "check histogram differential" None (fun _ =>
    old ← gets old_color_mat;
    new ← gets new_color_mat;
    if mat_empty old || mat_empty new then mret (inr "failed to decode image file")
    else
      hist_old_mat ← preprocess_image old;
      hist_new_mat ← preprocess_image new;
      d ← lift (compareHist hist_old_mat hist_new_mat 1);
      mret (inl (verdict d))).
End Code.

(** ** The pure computation *)

Section Spec.
Context `{CV : OpenCV} {os : OS}.

Definition histogram (m : Mat) : exc Mat :=
  hsv ← cvtColor m COLOR_BGR2HSV;
  h ← calcHist hsv [0; 1] [256; 256] [(0, 180); (0, 256)];
  normalize h 0 1 NORM_MINMAX.

Definition histogram_check (old new : Mat) : exc (bool + string) :=
  if mat_empty old || mat_empty new then inr (inr "failed to decode image file")
  else
    ho ← histogram old;
    hn ← histogram new;
    d ← compareHist ho hn 1;
    inr (inl (verdict d)).

#[export] Instance reads_preprocess n s0 m : ReadsAt n s0 (preprocess_image m) (histogram m).
Proof. unfold preprocess_image, histogram. reads. Qed.

#[export] Instance timed_preprocess n m : TimedFrom n (preprocess_image m).
Proof. unfold preprocess_image. timed. Qed.
#[export] Instance timed_check n : TimedFrom n check_histogram_differential.
Proof. unfold check_histogram_differential. timed. Qed.

Lemma throws_histogram `{!ThrowLaws CV} m : throws (histogram m).
Proof. unfold histogram. throws. Qed.

Lemma throws_histogram_check `{!ThrowLaws CV} a b : throws (histogram_check a b).
Proof.
  unfold histogram_check. destruct (_ || _); [done|].
  apply throws_bind; [apply throws_histogram|intros ? _].
  apply throws_bind; [apply throws_histogram|intros ? _]. throws.
Qed.

#[export] Instance reads_check n s0 :
  ReadsAt n s0 check_histogram_differential
    (histogram_check (old_color_mat (ctx s0)) (new_color_mat (ctx s0))).
Proof. unfold check_histogram_differential, histogram_check. reads. Qed.
End Spec.

(** Documented behaviour of [cvtColor] and [compareHist]: an empty image is
    refused, and the chi-square distance of a histogram to itself is zero. *)
Class HistLaws (CV : OpenCV) : Prop := {
  cvtColor_empty m code : mat_empty m = true -> exists e, cvtColor m code = inl e;
  compareHist_refl h : compareHist h h 1 = inr (S754_zero false)
}.

(** The laws of the standard library of images used above hold of the grids. *)
#[export] Instance GridHist : HistLaws GridCv.
Proof.
  split; cbn.
  - intros m code ->. by eexists.
  - intros h. by rewrite bool_decide_true.
Qed.

(** Equal images have equal histograms. *)
Lemma same_images_run `{CV : OpenCV} {os : OS} `{!HistLaws CV} (s : St) (m h : Mat) :
  old_color_mat (ctx s) = m -> new_color_mat (ctx s) = m -> mat_empty m = false ->
  histogram m = inr h ->
  exists s', s' ≈ s /\ check_histogram_differential s = Done (inl true) s'.
Proof.
  intros Eo En He Hh. destruct (reads_check 0 s s) as (s' & Hs & _ & E); [done|lia|].
  exists s'. split; [done|]. rewrite E, Eo, En. unfold histogram_check. rewrite He; cbn.
  rewrite Hh; cbn. rewrite compareHist_refl; cbn. by vm_compute.
Qed.

(** ** Properties *)

Section Properties.
Context `{CV : OpenCV} {os : OS}.

(** The normalised histogram [h] of hue and saturation of an image, call by call. *)
Definition has_histogram (m h : Mat) : Prop :=
  exists hsv raw, cvtColor m COLOR_BGR2HSV = inr hsv /\
    calcHist hsv [0; 1] [256; 256] [(0, 180); (0, 256)] = inr raw /\
    normalize raw 0 1 NORM_MINMAX = inr h.

(** One of these calls stops. *)
Definition no_histogram (m : Mat) (e : Stop) : Prop :=
  cvtColor m COLOR_BGR2HSV = inl e \/
  (exists hsv, cvtColor m COLOR_BGR2HSV = inr hsv /\
     (calcHist hsv [0; 1] [256; 256] [(0, 180); (0, 256)] = inl e \/
      exists raw, calcHist hsv [0; 1] [256; 256] [(0, 180); (0, 256)] = inr raw /\
        normalize raw 0 1 NORM_MINMAX = inl e)).

Lemma histogram_inr m h : histogram m = inr h -> has_histogram m h.
Proof. intros (hsv & E1 & (raw & E2 & E3)%exc_bind_inr)%exc_bind_inr. by exists hsv, raw. Qed.

Lemma histogram_inl m e : histogram m = inl e -> no_histogram m e.
Proof.
  unfold histogram, no_histogram. destruct (cvtColor _ _) as [e1|hsv]; cbn; [intros [= ->]; by left|].
  intros H. right. exists hsv. split; [done|].
  destruct (calcHist _ _ _ _) as [e2|raw]; cbn in H; [injection H as ->; by left|].
  right. by exists raw.
Qed.

(** C31 [check_histogram_differential] reads the two color images and leaves the state as it
    was, timers apart.  An empty image gives the message; otherwise both histograms of hue
    and saturation are computed and compared by chi-square, and the images are the same
    exactly when the distance, a double, is at most 5902958162616638 * 2^-69 (about
    1.00000001e-5), infinity and NaN excluded.  It stops only by the first of these calls
    that does. *)
Theorem check_histogram_pure (s : St) :
  let old := old_color_mat (ctx s) in
  let new := new_color_mat (ctx s) in
  exists s', s' ≈ s /\
    match check_histogram_differential s with
    | Done (inr msg) s1 =>
        s1 = s' /\ msg = "failed to decode image file" /\
        (mat_empty old = true \/ mat_empty new = true)
    | Done (inl same) s1 =>
        s1 = s' /\ mat_empty old = false /\ mat_empty new = false /\
        exists ho hn d, has_histogram old ho /\ has_histogram new hn /\
          compareHist ho hn 1 = inr d /\
          (valid_binary 53 1024 d = true -> same = true <-> within d)
    | Stopped e s1 =>
        s1 = s' /\ mat_empty old = false /\ mat_empty new = false /\
        (no_histogram old e \/
         (exists ho, has_histogram old ho /\
            (no_histogram new e \/
             exists hn, has_histogram new hn /\ compareHist ho hn 1 = inl e)))
    end.
Proof.
  intros old new. destruct (reads_check 0 s s) as (s' & Hs & _ & E); [done|lia|].
  exists s'. split; [done|]. rewrite E. unfold histogram_check. fold old new.
  destruct (mat_empty old) eqn:Eo; cbn [orb]; [by split_and!; auto|].
  destruct (mat_empty new) eqn:En; [by split_and!; auto|].
  destruct (histogram old) as [e|ho] eqn:Ho; cbn [mbind exc_bind].
  { apply histogram_inl in Ho. by split_and!; auto. }
  apply histogram_inr in Ho. destruct (histogram new) as [e|hn] eqn:Hn; cbn [mbind exc_bind].
  { apply histogram_inl in Hn. split_and!; [done..|]. right. exists ho. auto. }
  apply histogram_inr in Hn. destruct (compareHist ho hn 1) as [e|d] eqn:Ed; cbn [mbind exc_bind].
  { split_and!; [done..|]. right. exists ho. split; [done|]. right. by exists hn. }
  split_and!; [done..|]. exists ho, hn, d. split_and!; [done..|]. apply verdict_within.
Qed.

(** The message for an image that does not decode is never reached: after
    [load_image] both color images are non-empty, because the conversion to gray
    that follows each decoding refuses an empty image first. *)
Theorem failed_to_decode_unreachable `{!HistLaws CV} (s s1 s2 : St) r :
  before_load s -> load_image s = Done tt s1 ->
  check_histogram_differential s1 = Done r s2 ->
  mat_empty (old_color_mat (ctx s1)) = false /\ mat_empty (new_color_mat (ctx s1)) = false /\
  exists b, r = inl b.
Proof.
  intros Hb El Ec. destruct (load_image_Done s s1 Hb El) as (L & _).
  assert (forall d, mat_empty (color_mat d (ctx s1)) = false) as Hne.
  { intros d. destruct (L d) as (mf & st & bytes & _ & _ & _ & Hg).
    destruct (mat_empty _) eqn:E; [|done].
    destruct (cvtColor_empty _ COLOR_BGR2GRAY E) as [e He]. congruence. }
  pose proof (Hne Old) as Ho. pose proof (Hne New) as Hn. cbn in Ho, Hn. split_and!; [done..|].
  destruct (reads_check 0 s1 s1) as (s' & _ & _ & E); [done|lia|].
  rewrite Ec in E. unfold histogram_check in E. rewrite Ho, Hn in E. cbn in E.
  destruct (histogram (old_color_mat (ctx s1))); [done|]. cbn in E.
  destruct (histogram (new_color_mat (ctx s1))); [done|]. cbn in E.
  destruct (compareHist _ _ _); [done|]. cbn in E. injection E as -> _. eauto.
Qed.

(** Two equal color images, one of whose histograms can be computed, are found to
    be the same. *)
Theorem same_images_detected `{!HistLaws CV} (s : St) (m h : Mat) :
  old_color_mat (ctx s) = m -> new_color_mat (ctx s) = m -> mat_empty m = false ->
  histogram m = inr h ->
  exists s', s' ≈ s /\ check_histogram_differential s = Done (inl true) s'.
Proof. apply same_images_run. Qed.
End Properties.

(** ** Witnesses *)

(** The example context with its images loaded. *)
Definition example_loaded : St (CV := GridCv) :=
  match load_image (os := example_fs) example_before with
  | Done _ s => s
  | Stopped _ s => s
  end.

Lemma example_check :
  exists s1 r s2, load_image (os := example_fs) example_before = Done tt s1 /\
    check_histogram_differential (os := example_fs) s1 = Done r s2.
Proof.
  destruct (run_check_Done (load_image (os := example_fs) example_before)
              (fun _ s => run_check (check_histogram_differential (os := example_fs) s)
                            (fun _ _ => true)))
    as ([] & s1 & E & (r & s2 & E2 & _)%run_check_Done); [vm_compute; reflexivity|].
  exists s1, r, s2. split; [exact E|exact E2].
Qed.

Lemma failed_to_decode_unreachable_witness :
  exists s1 s2 r, load_image (os := example_fs) example_before = Done tt s1 /\
    check_histogram_differential (os := example_fs) s1 = Done r s2 /\ exists b, r = inl b.
Proof.
  destruct example_check as (s1 & r & s2 & E1 & E2). exists s1, s2, r.
  split; [exact E1|]. split; [exact E2|].
  exact (proj2 (proj2 (failed_to_decode_unreachable (os := example_fs) example_before s1 s2 r
                         example_before_load E1 E2))).
Defined.

Lemma same_images_detected_witness :
  exists s', check_histogram_differential (os := example_fs)
    (set_color_mat Old (new_color_mat (ctx example_loaded)) example_loaded) = Done (inl true) s'.
Proof.
  edestruct (same_images_detected (os := example_fs)
    (set_color_mat Old (new_color_mat (ctx example_loaded)) example_loaded))
    as (s' & _ & E); [reflexivity|reflexivity|vm_compute; reflexivity|reflexivity|].
  exists s'. exact E.
Defined.
