(* ===== verification/Segments.v ===== *)
(** Segmentation: [split_segments], [detect_segments] and [save_segments]
    (image.cc).  The theorems show that the labelling loop visits every top-level
    contour once and ends, that every rectangle fits the image it is cut from, and
    what the two lists of segments hold at the end. *)

From S2P Require Import Prelude StdLib Cv CvGrid Perf PerfForest State Timed Grouping ExampleOs.
From S2P Require Import MappedFiles Histogram.

(** ** The code *)

Section Code.
Context `{CV : OpenCV} {os : OS}.

Definition INT_MAX : Z := 2 ^ 31 - 1.

(** [hierarchy[idx]]; [None] is an access out of range. *)
Definition hierarchy_at (hierarchy : list Vec4i) (idx : Z) : option Vec4i :=
  index_Z hierarchy idx.

(** The loop [for (int idx = 0; idx >= 0; idx = hierarchy[idx][0])]. *)
Fixpoint draw_labels (fuel : nat) (contours : list (list Point)) (hierarchy : list Vec4i)
    (idx labels : Z) (markers : Mat) : exc Mat :=
  if decide (idx < 0) then mret markers
  else
    match fuel with
    | O => inl OutOfFuel
    | S fuel =>
        markers ← drawContours markers contours idx (labels + 1) (-1) LINE_8 hierarchy INT_MAX;
        h ← deref (hierarchy_at hierarchy idx);
        draw_labels fuel contours hierarchy (h_next h) (labels + 1) markers
    end.

(** The binarised gradient of the gray image, as labels. *)
Definition gradient (gray_mat : Mat) (thr : Z) : exc Mat :=
  bin_mat ← threshold gray_mat thr 255 THRESH_BINARY;
  kernel ← getStructuringElement MORPH_RECT (3, 3);
  grd_mat ← morphologyEx bin_mat MORPH_GRADIENT kernel (mkPoint (-1) (-1)) 7;
  convertTo grd_mat CV_32SC1.

(** From the contours to the markers [watershed] leaves. *)
Definition label_regions (grd_mat color_mat : Mat) (contours : list (list Point))
    (hierarchy : list Vec4i) : exc Mat :=
  markers ← draw_labels (S (length hierarchy)) contours hierarchy 0 0
              (mat_zeros (rows grd_mat) (cols grd_mat) CV_32SC1);
  watershed color_mat (mat_add markers 1).

Definition split_segments (gray_mat color_mat : Mat) (thr : Z) : M (list Rect) :=
  with_timer "split segments" None (fun t =>
    with_timer "image processing" (Some t) (fun t_image =>
      grd_mat ← lift (gradient gray_mat thr);
      found ← lift (findContours grd_mat RETR_CCOMP CHAIN_APPROX_SIMPLE);
      match found.1 with
      | [] => mret []
      | _ =>
          markers ← lift (label_regions grd_mat color_mat found.1 found.2);
          _ ← Timer_stop t_image;
          with_timer "grouping" (Some t) (fun _ =>
            r ← lift (group markers);
            mret r.2)
      end)).

(** The lambda [compute_descriptor]. *)
Definition compute_descriptor (img : Mat) : exc (option Mat) :=
  if mat_empty img then mret None
  else
    keypoint ← akaze_detect img;
    match keypoint with
    | [] => mret None
    | _ =>
        descriptor ← akaze_compute img keypoint;
        descriptor ← convertTo descriptor CV_32FC1;
        mret (Some descriptor)
    end.

(** [result.emplace_back(segment, roi)] *)
Definition push_segment (d : Side) (x : ImageSegment) : M unit :=
  l ← gets (segments d);
  modify (set_segments d (l ++ [x])).

(** One iteration of the descriptor loop, on the [i]-th segment. *)
Definition describe_segment (d : Side) (i : nat) : M unit :=
  l ← gets (segments d);
  x ← lift (deref (l !! i));
  desc ← lift (compute_descriptor (roi x));
  match desc with
  | Some m => modify (set_segments d (alter (set_descriptor m) i l))
  | None => mret tt
  end.

(** The lambda [do_detect]; [t] is the timer of [detect_segments]. *)
Definition do_detect (t : nat) (d : Side) : M unit :=
  gray ← gets (gray_mat d);
  color ← gets (color_mat d);
  with_timer "do detect" (Some t) (fun t2 =>
    thr ← gets (fun c => bin_threshold (arg c));
    rects ← split_segments gray color thr;
    _ ← for_each_M rects (fun segment =>
          roi ← lift (mat_roi gray segment);
          push_segment d (ImageSegment_ctor segment roi));
    with_timer "compute descriptors" (Some t2) (fun _ =>
      l ← gets (segments d);
      for_each_M (seq 0 (length l)) (describe_segment d))).

Definition detect_segments : M unit :=
  with_timer "detect segments" None (fun t => _ ← do_detect t Old; do_detect t New).

(** [cv::imwrite(name, m)] on the process state. *)
Definition imwrite_M (nm : string) (m : Mat) : M unit :=
  ok ← lift (imwrite nm m);
  if ok : bool then modify (set_wld (add_image nm m)) else mret tt.

Definition segment_file (output prefix : string) (i : Z) : string :=
  output +:+ "/" +:+ prefix +:+ "/" +:+ to_string i +:+ ".png".

(** The lambda [do_save]: the loop's [i] starts at 0 and is incremented before use. *)
Definition do_save (prefix : string) (base_mat : Mat) (l : list ImageSegment) : M unit :=
  for_each_M (imap pair l) (fun p =>
    o ← gets (fun c => output_name (arg c));
    m ← lift (mat_roi base_mat (area p.2));
    imwrite_M (segment_file o prefix (Z.of_nat p.1 + 1)) m).

Definition save_segments : M unit :=
  old ← gets old_color_mat;
  olds ← gets old_segments;
  _ ← do_save "old" old olds;
  new ← gets new_color_mat;
  news ← gets new_segments;
  do_save "new" new news.
End Code.

(** ** The labelling loop *)

Section Labels.
Context `{CV : OpenCV}.

(** [l] lists the contours from [idx] along the [next] links, up to a negative one. *)
Inductive chain (hierarchy : list Vec4i) : Z -> list Z -> Prop :=
  | chain_end idx : idx < 0 -> chain hierarchy idx []
  | chain_next idx h l :
      0 <= idx -> hierarchy_at hierarchy idx = Some h -> chain hierarchy (h_next h) l ->
      chain hierarchy idx (idx :: l).

(** Drawing the contours of [l] with consecutive labels after [k]. *)
Fixpoint draw_all (contours : list (list Point)) (hierarchy : list Vec4i) (l : list Z) (k : Z)
    (markers : Mat) : exc Mat :=
  match l with
  | [] => inr markers
  | idx :: l =>
      markers ← drawContours markers contours idx (k + 1) (-1) LINE_8 hierarchy INT_MAX;
      draw_all contours hierarchy l (k + 1) markers
  end.

Lemma chain_det hierarchy idx l l' : chain hierarchy idx l -> chain hierarchy idx l' -> l = l'.
Proof.
  intros H. revert l'. induction H as [idx Hi|idx h l Hi Hh _ IH]; inversion 1; subst; try lia;
    [done|]. f_equal. apply IH. congruence.
Qed.

Lemma chain_in hierarchy idx l i :
  chain hierarchy idx l -> i ∈ l -> (0 <= i < Z.of_nat (length hierarchy)) /\
  exists k, chain hierarchy i k /\ (length k <= length l)%nat.
Proof.
  induction 1 as [idx Hi|idx h l Hi Hh Hc IH]; [by intros ?%elem_of_nil|].
  intros [->|Hin]%elem_of_cons.
  - split; [|exists (idx :: l); split; [by eapply chain_next|done]].
    apply index_Z_Some in Hh as [? Hh%lookup_lt_Some]. lia.
  - destruct (IH Hin) as (? & k & ? & ?). split; [done|]. exists k. split; [done|cbn; lia].
Qed.

(** A list along the links never meets a contour twice. *)
Lemma chain_NoDup hierarchy idx l : chain hierarchy idx l -> NoDup l.
Proof.
  induction 1 as [idx Hi|idx h l Hi Hh Hc IH]; constructor; [|done].
  intros Hin. destruct (chain_in _ _ _ _ Hc Hin) as (_ & k & Hk & Hlen).
  assert (k = idx :: l) as -> by (eapply chain_det; [done|by eapply chain_next]).
  cbn in Hlen. lia.
Qed.

Lemma chain_length hierarchy idx l : chain hierarchy idx l -> (length l <= length hierarchy)%nat.
Proof.
  intros H.
  assert (l ⊆+ seqZ 0 (Z.of_nat (length hierarchy))) as Hs.
  { apply NoDup_submseteq; [by eapply chain_NoDup|]. intros i Hi.
    apply elem_of_seqZ. destruct (chain_in _ _ _ _ H Hi) as [? _]. lia. }
  apply submseteq_length in Hs. rewrite length_seqZ in Hs. lia.
Qed.

Lemma draw_labels_chain fuel contours hierarchy idx l k markers :
  chain hierarchy idx l -> (length l <= fuel)%nat ->
  draw_labels fuel contours hierarchy idx k markers = draw_all contours hierarchy l k markers.
Proof.
  intros H. revert fuel k markers. induction H as [idx Hi|idx h l Hi Hh Hc IH]; intros fuel k markers Hf.
  - destruct fuel; cbn; by rewrite decide_True by lia.
  - destruct fuel as [|fuel]; [cbn in Hf; lia|]. cbn. rewrite decide_False by lia.
    destruct (drawContours _ _ _ _ _ _ _ _); cbn; [done|]. rewrite Hh; cbn.
    apply IH. cbn in Hf. lia.
Qed.

(** The contours to draw, as the code finds them; [None] when the links leave the
    hierarchy or never end. *)
Fixpoint next_chain (fuel : nat) (hierarchy : list Vec4i) (idx : Z) : option (list Z) :=
  if decide (idx < 0) then Some []
  else
    match fuel with
    | O => None
    | S fuel =>
        h ← hierarchy_at hierarchy idx;
        l ← next_chain fuel hierarchy (h_next h);
        Some (idx :: l)
    end.

Lemma next_chain_Some fuel hierarchy idx l :
  next_chain fuel hierarchy idx = Some l -> chain hierarchy idx l.
Proof.
  revert idx l. induction fuel as [|fuel IH]; intros idx l; cbn; case_decide; try done.
  1,2: intros [= <-]; by constructor.
  destruct (hierarchy_at hierarchy idx) as [h|] eqn:Hh; [|done]; cbn.
  destruct (next_chain fuel hierarchy (h_next h)) as [k|] eqn:Hk; [|done]; cbn.
  intros [= <-]. eapply chain_next; [lia|done|by apply IH].
Qed.
End Labels.

(** ** The pure computations *)

Section Spec.
Context `{CV : OpenCV} {os : OS}.

Definition split (gray_mat color_mat : Mat) (thr : Z) : exc (list Rect) :=
  grd ← gradient gray_mat thr;
  found ← findContours grd RETR_CCOMP CHAIN_APPROX_SIMPLE;
  match found.1 with
  | [] => mret []
  | _ =>
      markers ← label_regions grd color_mat found.1 found.2;
      r ← group markers;
      mret r.2
  end.

(** The segment of a rectangle, and the segment with its descriptor. *)
Definition cut (gray_mat : Mat) (r : Rect) : exc ImageSegment :=
  m ← mat_roi gray_mat r; mret (ImageSegment_ctor r m).

Definition describe (x : ImageSegment) : exc ImageSegment :=
  desc ← compute_descriptor (roi x);
  mret (match desc with Some m => set_descriptor m x | None => x end).

Definition detected (gray_mat color_mat : Mat) (thr : Z) : exc (list ImageSegment) :=
  rects ← split gray_mat color_mat thr;
  l ← mapM (cut gray_mat) rects;
  mapM describe l.

#[export] Instance reads_split_segments n s0 gray color thr :
  ReadsAt n s0 (split_segments gray color thr) (split gray color thr).
Proof.
  unfold split_segments, split. reads.
Qed.

Lemma set_segments_twice d l l' s : set_segments d l (set_segments d l' s) = set_segments d l s.
Proof. by destruct d. Qed.

Lemma set_segments_same d s : set_segments d (segments d (ctx s)) s = s.
Proof. by destruct s as [[] ?], d. Qed.

Lemma segments_set d l s : segments d (ctx (set_segments d l s)) = l.
Proof. by destruct d. Qed.

Lemma ends_push n s0 d x :
  EndsAt n s0 (push_segment d x) (inr (tt, set_segments d (segments d (ctx s0) ++ [x]) s0)).
Proof. unfold push_segment. ends. Qed.

(** The loop that fills the list. *)
Definition push_cut (d : Side) (gray : Mat) (r : Rect) (s : St) : exc St :=
  m ← mat_roi gray r; mret (set_segments d (segments d (ctx s) ++ [ImageSegment_ctor r m]) s).

Lemma push_cuts d gray rects s :
  for_each rects (push_cut d gray) s =
  (l ← mapM (cut gray) rects; mret (set_segments d (segments d (ctx s) ++ l) s)).
Proof.
  revert s. induction rects as [|r rects IH]; intros s; rewrite ?mapM_exc_cons; cbn [for_each].
  - cbn. by rewrite app_nil_r, set_segments_same.
  - destruct (mat_roi gray r) as [e|m] eqn:Hm;
      assert (push_cut d gray r s = _ /\ cut gray r = _) as [-> ->]
        by (unfold push_cut, cut; rewrite Hm; split; reflexivity); [done|].
    cbn [mbind exc_bind mret exc_ret]. rewrite IH, segments_set.
    destruct (mapM (cut gray) rects) as [e|l]; [done|].
    cbn. by rewrite set_segments_twice, <- app_assoc.
Qed.

(** The loop that computes the descriptors. *)
Definition describe_at (d : Side) (i : nat) (s : St) : exc St :=
  x ← deref (segments d (ctx s) !! i);
  desc ← compute_descriptor (roi x);
  mret (match desc with
        | Some m => set_segments d (alter (set_descriptor m) i (segments d (ctx s))) s
        | None => s
        end).

Lemma describe_all d (pre rest : list ImageSegment) s :
  for_each (seq (length pre) (length rest)) (describe_at d) (set_segments d (pre ++ rest) s) =
  (l ← mapM describe rest; mret (set_segments d (pre ++ l) s)).
Proof.
  revert pre s. induction rest as [|x rest IH]; intros pre s; rewrite ?mapM_exc_cons; cbn [for_each length seq]; [done|].
  destruct (compute_descriptor (roi x)) as [e|desc] eqn:Hx;
    assert (describe_at d (length pre) (set_segments d (pre ++ x :: rest) s) = _ /\
            describe x = _) as [-> ->]
      by (unfold describe_at, describe; rewrite segments_set, list_lookup_middle by done;
          cbn [deref mbind exc_bind]; rewrite Hx; split; reflexivity); [done|].
  cbn [mbind exc_bind mret exc_ret]. set (y := match desc with Some m => set_descriptor m x | None => x end).
  replace (match desc with
           | Some m => set_segments d (alter (set_descriptor m) (length pre) (pre ++ x :: rest))
                         (set_segments d (pre ++ x :: rest) s)
           | None => set_segments d (pre ++ x :: rest) s
           end) with (set_segments d ((pre ++ [y]) ++ rest) s).
  - specialize (IH (pre ++ [y]) s). rewrite length_app in IH; cbn in IH.
    rewrite Nat.add_1_r in IH. rewrite IH.
    destruct (mapM describe rest) as [e|l]; [done|]. cbn. by rewrite <- app_assoc.
  - rewrite <- app_assoc; cbn. destruct desc as [m|]; [|done]. unfold y.
    rewrite set_segments_twice. f_equal.
    replace (length pre) with (length pre + 0)%nat by lia.
    by rewrite alter_app_r.
Qed.

Lemma ends_describe n s0 d i :
  EndsAt n s0 (describe_segment d i) (s1 ← describe_at d i s0; inr (tt, s1)).
Proof.
  unfold describe_segment, describe_at.
  apply (ends_eq _ _ _ (x ← deref (segments d (ctx s0) !! i);
                        desc ← compute_descriptor (roi x);
                        match desc with
                        | Some m => inr (tt, set_segments d (alter (set_descriptor m) i
                                               (segments d (ctx s0))) s0)
                        | None => inr (tt, s0)
                        end)).
  - destruct (deref _); [done|]; cbn. by destruct (compute_descriptor _) as [|[]].
  - ends.
Qed.

Lemma ends_push_cut n s0 d gray r :
  EndsAt n s0 (m ← lift (mat_roi gray r); push_segment d (ImageSegment_ctor r m))
    (s1 ← push_cut d gray r s0; inr (tt, s1)).
Proof.
  unfold push_cut.
  apply (ends_eq _ _ _ (m ← mat_roi gray r;
           inr (tt, set_segments d (segments d (ctx s0) ++ [ImageSegment_ctor r m]) s0))).
  - by destruct (mat_roi gray r).
  - ends_step. apply ends_push.
Qed.

(** [do_detect] on a list that is still empty. *)
Lemma ends_do_detect n s0 t d :
  (t < n)%nat -> segments d (ctx s0) = [] ->
  EndsAt n s0 (do_detect t d)
    (l ← detected (gray_mat d (ctx s0)) (color_mat d (ctx s0)) (bin_threshold (arg (ctx s0)));
     inr (tt, set_segments d l s0)).
Proof.
  intros Ht Hs. unfold do_detect, detected.
  set (gray := gray_mat d (ctx s0)). set (color := color_mat d (ctx s0)).
  apply (ends_eq _ _ _ (rects ← split gray color (bin_threshold (arg (ctx s0)));
    '(_, s1) ← (s1 ← for_each rects (push_cut d gray) s0; inr (tt, s1));
    s2 ← for_each (seq 0 (length (segments d (ctx s1)))) (describe_at d) s1; inr (tt, s2))).
  - destruct (split _ _ _) as [e|rects]; [done|]; cbn [mbind exc_bind].
    rewrite push_cuts, Hs. cbn [app]. destruct (mapM (cut gray) rects) as [e|l]; [done|].
    cbn [mbind exc_bind mret exc_ret]. rewrite segments_set.
    pose proof (describe_all d [] l s0) as E; cbn [length app] in E. rewrite E.
    by destruct (mapM describe l).
  - do 3 ends_step. ends_step.
    apply ends_bind_reads; [apply _|intros rects _].
    apply ends_bind; [apply ends_for_each; intros r s1 _; apply ends_push_cut|].
    intros [] s1 _. ends_step. ends_step. apply ends_for_each. intros i s2 _. apply ends_describe.
Qed.

#[export] Instance timed_split n gray color thr : TimedFrom n (split_segments gray color thr).
Proof. unfold split_segments. timed. Qed.
#[export] Instance timed_describe n d i : TimedFrom n (describe_segment d i).
Proof. unfold describe_segment. timed. Qed.
Lemma timed_do_detect n t d : (t < n)%nat -> TimedFrom n (do_detect t d).
Proof. unfold do_detect, push_segment. timed. Qed.
#[export] Instance timed_detect n : TimedFrom n detect_segments.
Proof.
  unfold detect_segments. timed_step. apply timed_bind; [|intros _]; apply timed_do_detect; lia.
Qed.

(** Both sides: the old image first. *)
Definition detected_both (c : Context) : exc (list ImageSegment * list ImageSegment) :=
  o ← detected (old_gray_mat c) (old_color_mat c) (bin_threshold (arg c));
  n ← detected (new_gray_mat c) (new_color_mat c) (bin_threshold (arg c));
  mret (o, n).

Definition set_both (o n : list ImageSegment) (s : St) : St :=
  set_segments New n (set_segments Old o s).

Lemma ends_detect n s0 :
  (forall d, segments d (ctx s0) = []) ->
  EndsAt n s0 detect_segments
    (l ← detected_both (ctx s0); inr (tt, set_both l.1 l.2 s0)).
Proof.
  intros Hs. unfold detect_segments, detected_both. ends_step.
  set (thr := bin_threshold (arg (ctx s0))).
  apply (ends_eq _ _ _ (
    '(_, s1) ← (o ← detected (old_gray_mat (ctx s0)) (old_color_mat (ctx s0)) thr;
                inr (tt, set_segments Old o s0));
    l ← detected (new_gray_mat (ctx s1)) (new_color_mat (ctx s1)) (bin_threshold (arg (ctx s1)));
    inr (tt, set_segments New l s1))).
  - destruct (detected _ _ thr); [done|]; cbn. by destruct (detected _ _ _).
  - apply ends_bind; [apply (ends_do_detect _ _ _ Old); [lia|apply (Hs Old)]|].
    intros [] s1 E. destruct (detected _ _ thr) as [|o]; [done|]. injection E as <-.
    exact (ends_do_detect (S t) (set_segments Old o s0) t New ltac:(lia) (Hs New)).
Qed.
End Spec.

(** ** Sizes along the pipeline *)

Section Shapes.
Context `{CV : OpenCV} {os : OS} {ML : MatLaws CV} {RL : RectLaws CV} {SH : ShapeLaws CV}.

#[export] Instance same_shape_preorder : PreOrder same_shape.
Proof.
  split; [by intros m|]. intros m1 m2 m3 (? & ? & ?) (? & ? & ?). split_and!; congruence.
Qed.

Lemma draw_labels_shape fuel contours hierarchy idx k m m' :
  draw_labels fuel contours hierarchy idx k m = inr m' -> same_shape m m'.
Proof.
  revert idx k m. induction fuel as [|fuel IH]; intros idx k m; cbn; case_decide; intros E; try done.
  1,2: by injection E as <-.
  apply exc_bind_inr in E as (m1 & H1%drawContours_shape & E).
  apply exc_bind_inr in E as (h & _ & E). etrans; [exact H1|by eapply IH].
Qed.

Lemma gradient_shape gray thr m :
  gradient gray thr = inr m -> rows m = rows gray /\ cols m = cols gray /\ mtype m = CV_32SC1.
Proof.
  unfold gradient. intros E.
  apply exc_bind_inr in E as (b & [? ?]%threshold_shape & E).
  apply exc_bind_inr in E as (k & _ & E).
  apply exc_bind_inr in E as (g & [? ?]%morphologyEx_shape & (? & ? & ?)%convertTo_shape).
  split_and!; congruence.
Qed.

(** The markers have the size of the gray image and the type [int]. *)
Lemma label_regions_shape grd color contours hierarchy m :
  0 <= rows grd -> 0 <= cols grd ->
  label_regions grd color contours hierarchy = inr m ->
  rows m = rows grd /\ cols m = cols grd /\ mtype m = CV_32SC1.
Proof.
  intros Hr Hc E. unfold label_regions in E.
  apply exc_bind_inr in E as (m1 & (? & ? & ?)%draw_labels_shape & (? & ? & ?)%watershed_shape).
  destruct (mat_zeros_shape (rows grd) (cols grd) CV_32SC1) as (? & ? & ?); [done..|].
  destruct (mat_add_shape m1 1) as (? & ? & ?). split_and!; congruence.
Qed.

(** A rectangle strictly inside an image, so a region of interest of it. *)
Definition fits (m : Mat) (r : Rect) : Prop :=
  0 <= rx r /\ 0 <= ry r /\ 0 <= width r /\ 0 <= height r /\
  rx r + width r < cols m /\ ry r + height r < rows m.

Lemma split_fits gray color thr rects :
  0 <= rows gray -> 0 <= cols gray ->
  split gray color thr = inr rects -> Forall (fits gray) rects.
Proof.
  intros Hr Hc E. unfold split in E.
  apply exc_bind_inr in E as (grd & (Er & Ec & Et)%gradient_shape & E).
  apply exc_bind_inr in E as ([contours hierarchy] & _ & E). cbn [fst snd] in E.
  destruct contours as [|c contours]; [by injection E as <-|].
  apply exc_bind_inr in E as (m & Hm & E). apply label_regions_shape in Hm as (? & ? & Ht); [|lia..].
  apply exc_bind_inr in E as ([m' segs] & Hg & [= <-]).
  pose proof (group_in_bounds m m' segs Ht Hg) as Hin.
  eapply Forall_impl; [exact Hin|]. unfold fits. intros r. cbn. intuition congruence.
Qed.

Lemma cut_fits gray r :
  fits gray r -> exists m, cut gray r = inr (ImageSegment_ctor r m) /\ mat_roi gray r = inr m /\
    rows m = height r /\ cols m = width r.
Proof.
  intros (? & ? & ? & ? & ? & ?).
  destruct (mat_roi_spec gray r) as (m & E & ? & ? & _); try lia.
  exists m. unfold cut. by rewrite E.
Qed.

(** A segment as [detect_segments] leaves it. *)
Record segment_ok (gray : Mat) (x : ImageSegment) : Prop := {
  so_fits : fits gray (area x);
  so_roi : mat_roi gray (area x) = inr (roi x);
  so_rows : rows (roi x) = height (area x);
  so_cols : cols (roi x) = width (area x);
  so_matched : matched x = false;
  so_descriptor : exists o, compute_descriptor (roi x) = inr o /\ descriptor x = default Mat_ctor o
}.

Lemma detected_ok gray color thr l :
  0 <= rows gray -> 0 <= cols gray ->
  detected gray color thr = inr l -> Forall (segment_ok gray) l /\
  exists rects, split gray color thr = inr rects /\ area <$> l = rects.
Proof.
  intros Hr Hc H. unfold detected in H.
  apply exc_bind_inr in H as (rects & Hs & (k & Hk%mapM_exc_inr & Hl%mapM_exc_inr)%exc_bind_inr).
  pose proof (split_fits _ _ _ _ Hr Hc Hs) as Hf.
  assert (forall x y, describe x = inr y -> area y = area x /\ roi y = roi x /\
            matched y = matched x /\
            exists o, compute_descriptor (roi x) = inr o /\
              descriptor y = match o with Some m => m | None => descriptor x end) as Hd.
  { intros x y (o & Ho & [= <-])%exc_bind_inr. destruct o; split_and!; eauto. }
  enough (Forall (segment_ok gray) l /\ area <$> l = rects) as [? ?] by eauto.
  clear Hs. revert l Hl. induction Hk as [|r x rects k Hx Hk IH]; intros l Hl; inversion Hl; subst;
    [split; [constructor|done]|].
  inversion Hf; subst. edestruct IH as [IH1 IH2]; [done|done|].
  destruct (cut_fits gray r) as (m & E & ? & ? & ?); [done|]. rewrite E in Hx. injection Hx as <-.
  edestruct Hd as (Ea & Er & Em & o & Ho & Ed); [done|]. cbn in *.
  split; [|by rewrite Ea, IH2]. constructor; [|done].
  split; rewrite ?Ea, ?Er, ?Em; try done. exists o. split; [done|]. by destruct o.
Qed.

(** What a returning [detect_segments] leaves on each side. *)
Lemma detect_Done s s' d :
  (forall d, segments d (ctx s) = []) -> detect_segments s = Done tt s' ->
  detected (gray_mat d (ctx s)) (color_mat d (ctx s)) (bin_threshold (arg (ctx s))) =
    inr (segments d (ctx s')) /\
  exists o n, s' ≈ set_both o n s.
Proof.
  intros Hs E. pose proof (ends_detect 0 s Hs s ltac:(done) ltac:(lia)) as H. rewrite E in H.
  destruct (detected_both (ctx s)) as [e|[o n]] eqn:Hb; cbn in H; [by destruct H|].
  destruct H as (s1 & [= <-] & Hs1 & _). split; [|by exists o, n].
  rewrite (segments_proper d _ _ Hs1). unfold detected_both in Hb.
  apply exc_bind_inr in Hb as (o' & Ho & Hb). apply exc_bind_inr in Hb as (n' & Hn & [= <- <-]).
  by destruct d.
Qed.

(** Cutting out the segments of an image raises no exception. *)
Lemma cuts_total gray color thr rects :
  0 <= rows gray -> 0 <= cols gray ->
  split gray color thr = inr rects -> exists l, mapM (cut gray) rects = inr l.
Proof.
  intros Hr Hc Hs. pose proof (split_fits _ _ _ _ Hr Hc Hs) as Hf. clear Hs.
  induction Hf as [|r rects H _ [l IH]]; [by eexists|].
  destruct (cut_fits gray r H) as (m & E & _).
  rewrite mapM_exc_cons, E; cbn [mbind exc_bind]. rewrite IH. by eexists.
Qed.
End Shapes.

(** ** Detection only throws *)

(** Documented behaviour of [findContours]: when there is a contour, the [next] links
    from contour 0 stay in the hierarchy and end. *)
Class ContourLaws (CV : OpenCV) : Prop := {
  findContours_chain m r c contours hierarchy :
    findContours m r c = inr (contours, hierarchy) -> contours <> [] ->
    exists l, chain hierarchy 0 l
}.

Section Throws.
Context `{CV : OpenCV} {ML : MatLaws CV} {RL : RectLaws CV} {SH : ShapeLaws CV}
  {TL : ThrowLaws CV} {CL : ContourLaws CV}.

Lemma throws_draw_all contours hierarchy l k m : throws (draw_all contours hierarchy l k m).
Proof. revert k m. induction l as [|i l IH]; intros k m; cbn; [done|]. by throws. Qed.

Lemma throws_label_regions grd color contours hierarchy l :
  chain hierarchy 0 l -> throws (label_regions grd color contours hierarchy).
Proof.
  intros Hc. unfold label_regions.
  rewrite (draw_labels_chain _ _ _ _ l) by (by eauto using chain_length).
  apply throws_bind; [apply throws_draw_all|throws].
Qed.

Lemma throws_gradient gray thr : throws (gradient gray thr).
Proof. unfold gradient. throws. Qed.

Lemma throws_split gray color thr :
  0 <= rows gray -> 0 <= cols gray -> throws (split gray color thr).
Proof.
  intros Hr Hc. unfold split.
  apply throws_bind; [apply throws_gradient|intros grd (Er & Ec & _)%gradient_shape].
  apply throws_bind; [auto with gz|intros [contours hierarchy] Ef]. cbn [fst snd].
  destruct contours as [|c contours]; [done|].
  destruct (findContours_chain _ _ _ _ _ Ef) as [l Hl]; [done|].
  apply throws_bind; [by eapply throws_label_regions|].
  intros m (_ & _ & Ht)%label_regions_shape; [|lia..].
  destruct (group_spec m Ht) as (m' & segs & L & E & _). by rewrite E.
Qed.

Lemma throws_compute_descriptor img : throws (compute_descriptor img).
Proof. unfold compute_descriptor. throws. Qed.

Lemma throws_detected gray color thr :
  0 <= rows gray -> 0 <= cols gray -> throws (detected gray color thr).
Proof.
  intros Hr Hc. unfold detected.
  apply throws_bind; [by apply throws_split|intros rects _].
  apply throws_bind; [apply throws_mapM; intros r; unfold cut; throws|intros l _].
  apply throws_mapM. intros x. unfold describe.
  apply throws_bind; [apply throws_compute_descriptor|throws].
Qed.
End Throws.

(** ** Saving segments *)

Section Save.
Context `{CV : OpenCV} {os : OS}.

Lemma segment_file_inj output prefix prefix' i j :
  prefix ∈ ["old"; "new"] -> prefix' ∈ ["old"; "new"] ->
  segment_file output prefix i = segment_file output prefix' j -> prefix = prefix' /\ i = j.
Proof.
  intros Hp Hp' E. unfold segment_file in E. apply (inj (String.append output)) in E.
  apply (inj (String.append "/")) in E.
  assert (prefix = prefix') as ->.
  { apply elem_of_cons in Hp as [->|Hp]; apply elem_of_cons in Hp' as [->|Hp'];
      try apply list_elem_of_singleton in Hp as ->;
      try apply list_elem_of_singleton in Hp' as ->; try done; cbn in E; congruence. }
  split; [done|]. apply (inj (String.append prefix')), (inj (String.append "/")) in E.
  apply append_inj_r in E. unfold to_string in E. by apply (inj pretty) in E.
Qed.

(** [do_save] appends images named after the segments' positions. *)
Definition saves (output prefix : string) (k : nat) (l : list ImageSegment)
    (imgs : list (string * Mat)) : Prop :=
  exists idx, imgs.*1 = (fun i => segment_file output prefix (Z.of_nat i + 1)) <$> idx /\
    idx `sublist_of` seq k (length l).

Lemma imwrite_M_Done nm m s s' :
  imwrite_M nm m s = Done tt s' ->
  ctx s' = ctx s /\ (w_images (wld s') = w_images (wld s) ++ [(nm, m)] \/
                     w_images (wld s') = w_images (wld s)).
Proof.
  unfold imwrite_M. intros (ok & s1 & E1 & E2)%bind_Done. unfold lift in E1.
  destruct (imwrite nm m) as [|ok']; [done|]. injection E1 as -> <-.
  destruct ok; injection E2 as <-; [split; [done|by left]|split; [done|by right]].
Qed.

Lemma do_save_Done prefix base l s s' :
  do_save prefix base l s = Done tt s' ->
  ctx s' = ctx s /\ exists imgs, w_images (wld s') = w_images (wld s) ++ imgs /\
    saves (output_name (arg (ctx s))) prefix 0 l imgs.
Proof.
  unfold do_save. rewrite (imap_ext _ (fun i x => (i + 0, x)%nat) l) by (intros; f_equal; lia).
  generalize 0%nat. revert s. induction l as [|x l IH]; intros s k.
  - intros [= <-]. split; [done|]. exists []. split; [by rewrite app_nil_r|]. by exists [].
  - rewrite imap_cons; cbn [for_each_M fst snd]. intros ([] & s1 & E1 & E2)%bind_Done.
    apply bind_Done in E1 as (o & ? & [= <- <-] & E1).
    apply bind_Done in E1 as (m & s0 & Em & E1). unfold lift in Em.
    destruct (mat_roi base (area x)); [done|]. injection Em as -> <-.
    apply imwrite_M_Done in E1 as [Hc Hi].
    rewrite (imap_ext _ (fun i x => (i + S k, x)%nat) l) in E2
      by (intros; cbn; f_equal; lia).
    apply IH in E2 as (Hc2 & imgs & Hi2 & idx & Hn & Hsub). rewrite Hc in Hn.
    split; [congruence|]. destruct Hi as [Hi|Hi]; rewrite Hi in Hi2.
    + exists ((segment_file (output_name (arg (ctx s))) prefix (Z.of_nat k + 1), m) :: imgs).
      split; [by rewrite Hi2, <- app_assoc|]. exists (k :: idx). cbn. rewrite Hn.
      split; [done|by apply sublist_skip].
    + exists imgs. split; [done|]. exists idx. split; [done|by apply sublist_cons].
Qed.

Lemma saves_NoDup output prefix l imgs :
  prefix ∈ ["old"; "new"] -> saves output prefix 0 l imgs -> NoDup imgs.*1.
Proof.
  intros Hp (idx & -> & Hs). apply NoDup_fmap_2_strong.
  - intros i j _ _ E. destruct (segment_file_inj _ _ _ _ _ Hp Hp E). lia.
  - eapply sublist_NoDup; [apply NoDup_seq|exact Hs].
Qed.
End Save.

(** ** Properties *)

Section Properties.
Context `{CV : OpenCV} {os : OS}.

(** C19 The labelling loop of [split_segments] ends whenever the [next] links from
    contour 0 end: within one iteration per row of the hierarchy it draws every
    contour of the list, once each, with the labels 1, 2, 3, ... in the order of the
    links, and it never reads outside the hierarchy. *)
Theorem labelling_terminates contours hierarchy l markers :
  chain hierarchy 0 l ->
  draw_labels (S (length hierarchy)) contours hierarchy 0 0 markers =
    draw_all contours hierarchy l 0 markers /\
  NoDup l /\ Forall (fun i => 0 <= i < Z.of_nat (length hierarchy)) l.
Proof.
  intros H. split_and!.
  - apply draw_labels_chain; [done|]. pose proof (chain_length _ _ _ H). lia.
  - by eapply chain_NoDup.
  - apply Forall_forall. intros i Hi. by apply (chain_in _ _ _ _ H Hi).
Qed.

(** C32 [split_segments] reads its two images and the threshold and nothing else: it
    changes nothing but the timers, and its result is that of the pure pipeline (the
    gradient, the contours, the labels, the groups), stage by stage: the pipeline's
    rectangles, all strictly inside the gray image, or the exception of the first stage
    that throws. *)
Theorem split_segments_fits
    `{!MatLaws CV, !RectLaws CV, !ShapeLaws CV, !ThrowLaws CV, !ContourLaws CV}
    (gray color : Mat) (thr : Z) (s : St) :
  0 <= rows gray -> 0 <= cols gray ->
  exists s', s' ≈ s /\
    match split gray color thr with
    | inr rects => split_segments gray color thr s = Done rects s' /\ Forall (fits gray) rects
    | inl e => split_segments gray color thr s = Stopped e s' /\ exists what, e = Uncaught what
    end.
Proof.
  intros Hr Hc. destruct (reads_split_segments 0 s gray color thr s) as (s' & Hs & _ & E);
    [done|lia|]. exists s'. split; [done|]. rewrite E.
  destruct (split gray color thr) as [e|rs] eqn:Hsp.
  - split; [done|]. apply (throws_fails (split gray color thr)); [by apply throws_split|done].
  - split; [done|]. by eapply split_fits.
Qed.

(** C8 [detect_segments], started with no segment, is the pure detection of the old
    image followed by that of the new one: it returns exactly when both succeed, and
    then both lists, and nothing else but the timers, have changed. *)
Theorem detect_segments_refines (s : St) :
  (forall d, segments d (ctx s) = []) ->
  exists s', match detected_both (ctx s) with
             | inr (o, n) => detect_segments s = Done tt s' /\ s' ≈ set_both o n s
             | inl e => detect_segments s = Stopped e s'
             end.
Proof.
  intros Hs. pose proof (ends_detect 0 s Hs s) as H.
  specialize (H ltac:(done) ltac:(lia)). destruct (detected_both (ctx s)) as [e|[o n]]; cbn in H.
  - exact H.
  - destruct H as (s' & ? & ? & _). by exists s'.
Qed.

(** C21 Every segment [detect_segments] records lies strictly inside its gray image,
    holds exactly that part of it, is not marked as matched, and has the descriptor
    computed from that part, or an empty one; there is one segment per rectangle of
    [split_segments], in order.  The cut itself never raises an exception. *)
Theorem detected_segments_ok `{!MatLaws CV, !RectLaws CV, !ShapeLaws CV}
    (s s' : St) (d : Side) :
  (forall d, segments d (ctx s) = [] /\ 0 <= rows (gray_mat d (ctx s)) /\
             0 <= cols (gray_mat d (ctx s))) ->
  detect_segments s = Done tt s' ->
  Forall (segment_ok (gray_mat d (ctx s))) (segments d (ctx s')) /\
  exists rects,
    split (gray_mat d (ctx s)) (color_mat d (ctx s)) (bin_threshold (arg (ctx s))) = inr rects /\
    area <$> segments d (ctx s') = rects /\
    exists l, mapM (cut (gray_mat d (ctx s))) rects = inr l.
Proof.
  intros Hs E. destruct (detect_Done s s' d (fun d => proj1 (Hs d)) E) as [Hd _].
  destruct (Hs d) as (_ & Hr & Hc).
  destruct (detected_ok _ _ _ _ Hr Hc Hd) as (? & rects & Hsp & ?).
  split; [done|]. exists rects. split_and!; [done..|]. by eapply cuts_total.
Qed.

(** A segment whose rectangle is empty, as for a component one pixel wide or
    high, never gets a descriptor: no keypoint is looked for. *)
Theorem thin_segment_no_descriptor `{!MatLaws CV, !RectLaws CV, !ShapeLaws CV}
    (s s' : St) (d : Side) (x : ImageSegment) :
  (forall d, segments d (ctx s) = [] /\ 0 <= rows (gray_mat d (ctx s)) /\
             0 <= cols (gray_mat d (ctx s))) ->
  detect_segments s = Done tt s' -> x ∈ segments d (ctx s') ->
  width (area x) = 0 \/ height (area x) = 0 -> descriptor x = Mat_ctor.
Proof.
  intros Hs E Hx Hz. destruct (detect_Done s s' d (fun d => proj1 (Hs d)) E) as [Hd _].
  destruct (Hs d) as (_ & Hr & Hc).
  destruct (detected_ok _ _ _ _ Hr Hc Hd) as [Hok _].
  rewrite Forall_forall in Hok. destruct (Hok x Hx) as [_ _ Er Ec _ (desc & Hdesc & ->)].
  unfold compute_descriptor in Hdesc.
  rewrite (proj2 (mat_empty_spec (roi x))) in Hdesc by lia. by injection Hdesc as <-.
Qed.

(** [save_segments] never writes two images under one name, and changes nothing in
    the context. *)
Theorem save_segments_distinct (s s' : St) :
  save_segments s = Done tt s' ->
  ctx s' = ctx s /\
  exists imgs, w_images (wld s') = w_images (wld s) ++ imgs /\ NoDup imgs.*1 /\
    (length imgs <= length (old_segments (ctx s)) + length (new_segments (ctx s)))%nat.
Proof.
  unfold save_segments. intros E.
  apply bind_Done in E as (old & ? & [= <- <-] & E).
  apply bind_Done in E as (olds & ? & [= <- <-] & E).
  apply bind_Done in E as ([] & s1 & (C1 & i1 & W1 & S1)%do_save_Done & E).
  apply bind_Done in E as (new & ? & [= <- <-] & E).
  apply bind_Done in E as (news & ? & [= <- <-] & (C2 & i2 & W2 & S2)%do_save_Done).
  rewrite C1 in S2, C2. split; [done|]. exists (i1 ++ i2).
  split_and!; [by rewrite W2, W1, <- app_assoc| |].
  - rewrite fmap_app. apply NoDup_app. split_and!.
    + by eapply saves_NoDup; [|exact S1]; left.
    + destruct S1 as (x1 & -> & _), S2 as (x2 & -> & _).
      intros nm (i & -> & _)%list_elem_of_fmap (j & E' & _)%list_elem_of_fmap.
      by destruct (segment_file_inj _ "old" "new" _ _ ltac:(set_solver) ltac:(set_solver) E').
    + eapply saves_NoDup; [|exact S2]. right. by left.
  - destruct S1 as (x1 & E1 & H1), S2 as (x2 & E2 & H2).
    apply (f_equal length) in E1, E2. rewrite !length_fmap in E1, E2.
    apply sublist_length in H1, H2. rewrite length_seq in H1, H2. rewrite length_app. lia.
Qed.
End Properties.

(** ** Witnesses *)

#[export] Instance GridContours : ContourLaws GridCv.
Proof.
  split. intros m r c cs h. cbn. destruct (grid_nonzero m) as [|p l].
  - by intros [= <- <-].
  - intros [= <- <-] _. exists [0]. by apply (next_chain_Some 1).
Qed.

Definition example_hierarchy : list Vec4i :=
  [mkVec4i 1 (-1) (-1) (-1); mkVec4i 3 0 2 (-1); mkVec4i (-1) (-1) (-1) 1;
   mkVec4i 4 1 (-1) (-1); mkVec4i (-1) 3 (-1) (-1)].

Lemma example_chain : chain example_hierarchy 0 [0; 1; 3; 4].
Proof. by apply (next_chain_Some 5). Qed.

(** The hierarchy of the comment in [split_segments]. *)
Lemma labelling_terminates_witness :
  NoDup [0; 1; 3; 4] /\
  Forall (fun i => 0 <= i < Z.of_nat (length example_hierarchy)) [0; 1; 3; 4].
Proof.
  apply (labelling_terminates (CV := GridCv) [] example_hierarchy [0; 1; 3; 4] grid_nil).
  exact example_chain.
Defined.

Lemma split_segments_fits_witness :
  exists rects s', split_segments (os := example_fs) (new_gray_mat (ctx example_loaded))
      (new_color_mat (ctx example_loaded)) 5 example_loaded = Done rects s' /\
    rects = [mkRect 1 1 1 1] /\ Forall (fits (new_gray_mat (ctx example_loaded))) rects.
Proof.
  destruct (split_segments_fits (os := example_fs) (new_gray_mat (ctx example_loaded))
      (new_color_mat (ctx example_loaded)) 5 example_loaded) as (s' & _ & H);
    [vm_compute; congruence|vm_compute; congruence|].
  assert (split (new_gray_mat (ctx example_loaded)) (new_color_mat (ctx example_loaded)) 5 =
          inr [mkRect 1 1 1 1]) as E by (vm_compute; reflexivity).
  rewrite E in H. destruct H as [H1 H2].
  exists [mkRect 1 1 1 1], s'. split; [exact H1|]. split; [reflexivity|exact H2].
Defined.

Lemma example_loaded_sides d :
  segments d (ctx example_loaded) = [] /\ 0 <= rows (gray_mat d (ctx example_loaded)) /\
  0 <= cols (gray_mat d (ctx example_loaded)).
Proof.
  destruct d; (split; [vm_compute; reflexivity|]); split; apply Z.leb_le; vm_compute; reflexivity.
Qed.

(** Detection on the example returns, with this area in the new image. *)
Definition one_new_area (r : Rect) (s : St (CV := GridCv)) : bool :=
  bool_decide (area <$> new_segments (ctx s) = [r]).

Lemma example_detected :
  exists s', detect_segments (os := example_fs) example_loaded = Done tt s' /\
    one_new_area (mkRect 1 1 1 1) s' = true.
Proof.
  destruct (run_check_Done (detect_segments (os := example_fs) example_loaded)
              (fun _ => one_new_area (mkRect 1 1 1 1))) as ([] & s' & E & H);
    [vm_compute; reflexivity|].
  exists s'. exact (conj E H).
Qed.

Lemma detect_segments_refines_witness :
  exists o n, detected_both (ctx example_loaded) = inr (o, n) /\
    exists s', detect_segments (os := example_fs) example_loaded = Done tt s' /\
      s' ≈ set_both o n example_loaded.
Proof.
  destruct (detect_segments_refines (os := example_fs) example_loaded
              (fun d => proj1 (example_loaded_sides d))) as (s' & H).
  destruct example_detected as (s2 & E & _).
  destruct (detected_both (ctx example_loaded)) as [e|[o n]].
  - exfalso. rewrite E in H. discriminate H.
  - exists o, n. split; [reflexivity|]. exists s'. exact H.
Defined.

Lemma detected_segments_ok_witness :
  exists s', detect_segments (os := example_fs) example_loaded = Done tt s' /\
    one_new_area (mkRect 1 1 1 1) s' = true /\
    Forall (segment_ok (new_gray_mat (ctx example_loaded))) (new_segments (ctx s')).
Proof.
  destruct example_detected as (s' & E & H). exists s'. split_and!; [exact E|exact H|].
  exact (proj1 (detected_segments_ok (os := example_fs) example_loaded s' New
                  example_loaded_sides E)).
Defined.

(** The same with an image whose only component is one pixel wide. *)
Definition example_thin : St (CV := GridCv) :=
  set_gray_mat New (grid_of CV_8UC1 4 4 [0; 0; 0; 0; 0; 9; 0; 0; 0; 9; 0; 0; 0; 0; 0; 0])
    example_loaded.

Lemma example_thin_sides d :
  segments d (ctx example_thin) = [] /\ 0 <= rows (gray_mat d (ctx example_thin)) /\
  0 <= cols (gray_mat d (ctx example_thin)).
Proof.
  destruct d; (split; [vm_compute; reflexivity|]); split; apply Z.leb_le; vm_compute; reflexivity.
Qed.

Lemma thin_segment_no_descriptor_witness :
  exists s' x, detect_segments (os := example_fs) example_thin = Done tt s' /\
    x ∈ new_segments (ctx s') /\ area x = mkRect 1 1 0 1 /\ descriptor x = Mat_ctor.
Proof.
  destruct (run_check_Done (detect_segments (os := example_fs) example_thin)
              (fun _ => one_new_area (mkRect 1 1 0 1))) as ([] & s' & E & H);
    [vm_compute; reflexivity|].
  apply bool_decide_eq_true in H.
  destruct (new_segments (ctx s')) as [|x l] eqn:Hl; [discriminate H|].
  injection H as Ha _. exists s', x.
  assert (x ∈ segments New (ctx s')) as Hx by (cbn; rewrite Hl; left).
  split_and!; [exact E|exact Hx|exact Ha|].
  apply (thin_segment_no_descriptor (os := example_fs) example_thin s' New x
           example_thin_sides E Hx). left. rewrite Ha. reflexivity.
Defined.

Definition example_segments : St (CV := GridCv) :=
  set_both [ImageSegment_ctor (mkRect 1 1 1 1) grid_nil; ImageSegment_ctor (mkRect 0 0 2 2) grid_nil]
    [ImageSegment_ctor (mkRect 1 1 1 1) grid_nil] example_loaded.

Lemma save_segments_distinct_witness :
  exists s' imgs, save_segments example_segments = Done tt s' /\
    w_images (wld s') = w_images (wld example_segments) ++ imgs /\ NoDup imgs.*1.
Proof.
  destruct (run_check_Done (save_segments example_segments) (fun _ s =>
    bool_decide ((w_images (wld s)).*1 = ["out/old/1.png"; "out/old/2.png"; "out/new/1.png"])))
    as ([] & s' & E & _); [vm_compute; reflexivity|].
  destruct (save_segments_distinct example_segments s' E) as (_ & imgs & Hw & Hn & _).
  exists s', imgs. split_and!; [exact E|exact Hw|exact Hn].
Defined.
