(* ===== verification/Matcher.v ===== *)
(** Comparison of two segments' descriptors: [descriptor_match] (image.cc).  The
    theorems characterise the median test independently of the sort, and the cross
    check as the set of mutual matches. *)

From S2P Require Import Prelude StdLib Cv CvGrid Perf State.

(** ** The code *)

Section Code.
Context `{CV : OpenCV} {SS : StdSort}.

(** [DMatch::operator<] *)
Definition DMatch_lt (a b : DMatch) : bool := negb (Qle_bool (distance b) (distance a)).

(** [distance <= 1.0f] *)
Definition close (m : DMatch) : bool := Qle_bool (distance m) 1.

(** [!l.empty() && l[l.size() / 2].distance <= 1.0f] after [std::sort]. *)
Definition median_close (l : list DMatch) : bool :=
  let sorted := std_sort DMatch_lt l in
  match sorted !! Nat.div (length sorted) 2 with
  | Some m => close m
  | None => false
  end.

(** The loop of the cross check. *)
Definition cross_step (match21 : list DMatch) (forward : DMatch) (matched : list DMatch) :
    exc (list DMatch) :=
  backward ← deref (index_Z match21 (trainIdx forward));
  mret (if trainIdx backward =? queryIdx forward then matched ++ [forward] else matched).

Definition cross_matches (match12 match21 : list DMatch) : exc (list DMatch) :=
  for_each match12 (cross_step match21) [].

Definition descriptor_match (cross_check : bool) (descriptor1 descriptor2 : Mat) : exc bool :=
  match12 ← matcher_match FLANNBASED descriptor1 descriptor2;
  match21 ← matcher_match FLANNBASED descriptor2 descriptor1;
  if cross_check then
    matched ← cross_matches match12 match21;
    mret (median_close matched)
  else mret (median_close match12 || median_close match21).
End Code.

(** ** The median test *)

Section Median.
Context {SS : StdSort} {SL : StdSortLaws SS}.

Lemma DMatch_lt_swo : StrictWeakOrder DMatch_lt.
Proof.
  unfold DMatch_lt. split.
  - intros x. by rewrite (proj2 (Qle_bool_iff _ _) (Qle_refl _)).
  - intros x y z. rewrite !negb_true_iff, <- !not_true_iff_false, !Qle_bool_iff.
    intros H1%Qnot_le_lt H2%Qnot_le_lt. apply Qlt_not_le. by eapply Qlt_trans.
  - intros x y z. rewrite !negb_true_iff, <- !not_true_iff_false, !Qle_bool_iff.
    intros H%Qnot_le_lt. destruct (Qlt_le_dec (distance x) (distance y)) as [?|?].
    + left. by apply Qlt_not_le.
    + right. apply Qlt_not_le. by eapply Qle_lt_trans.
Qed.

(** The median of the sorted matches is close exactly when more than half of the
    matches are; the sort is irrelevant. *)
Lemma median_close_count l :
  median_close l = true <->
  (length l / 2 < length (filter (fun m => close m = true) l))%nat.
Proof.
  unfold median_close. pose proof (std_sort_perm DMatch_lt l) as Hp.
  pose proof (std_sort_sorted DMatch_lt l DMatch_lt_swo) as Hs.
  set (k := std_sort DMatch_lt l) in *. rewrite (Permutation_length Hp).
  rewrite <- (Permutation_length (filter_Permutation _ _ _ Hp)).
  destruct (decide (l = [])) as [->|Hl].
  - apply Permutation_nil_r in Hp. rewrite Hp. cbn. split; [done|lia].
  - assert (length l / 2 < length k)%nat as Hi.
    { rewrite (Permutation_length Hp). destruct l as [|x l]; [done|].
      apply Nat.div_lt; cbn; lia. }
    rewrite <- (prefix_count close k _); [|eapply sorted_impl; [|exact Hs]|exact Hi].
    + destruct (k !! _) as [m|]; [|naive_solver]. split; [by exists m|].
      by intros (? & [= <-] & ?).
    + unfold close, DMatch_lt. intros x y Hlt Hy.
      apply negb_false_iff, Qle_bool_iff in Hlt. rewrite Qle_bool_iff in *.
      by eapply Qle_trans.
Qed.

Lemma median_close_perm l l' : Permutation l l' -> median_close l = median_close l'.
Proof.
  intros Hp. apply eq_true_iff_eq. rewrite !median_close_count.
  by rewrite (Permutation_length Hp), (Permutation_length (filter_Permutation _ _ _ Hp)).
Qed.

(** Only the distances matter. *)
Lemma median_close_distances l l' :
  Permutation (distance <$> l) (distance <$> l') -> median_close l = median_close l'.
Proof.
  intros Hp. apply eq_true_iff_eq. rewrite !median_close_count.
  assert (forall l, length (filter (fun m => close m = true) l) =
            length (filter (fun q => Qle_bool q 1 = true) (distance <$> l))) as E.
  { clear. induction l as [|m l IH]; [done|]. cbn [fmap list_fmap].
    rewrite !filter_cons. unfold close at 1.
    destruct (decide (Qle_bool (distance m) 1 = true)); cbn; [by rewrite IH|done]. }
  rewrite !E, (Permutation_length (filter_Permutation _ _ _ Hp)).
  apply Permutation_length in Hp. rewrite !length_fmap in Hp. by rewrite Hp.
Qed.
End Median.

(** ** The cross check *)

(** Documented behaviour of [match]: one match per descriptor of the query, in order,
    with the index of a descriptor of the other set. *)
Class MatchLaws (CV : OpenCV) : Prop := {
  matcher_match_spec q t l :
    matcher_match FLANNBASED q t = inr l ->
    length l = Z.to_nat (rows q) /\
    (forall i m, l !! i = Some m -> queryIdx m = Z.of_nat i /\ 0 <= trainIdx m < rows t)
}.

Section Cross.
Context `{CV : OpenCV} {ML : MatchLaws CV}.

(** A match and the one that goes back. *)
Definition mutual (match21 : list DMatch) (m : DMatch) : Prop :=
  exists m', index_Z match21 (trainIdx m) = Some m' /\ trainIdx m' = queryIdx m.

#[export] Instance mutual_dec match21 m : Decision (mutual match21 m).
Proof.
  unfold mutual. destruct (index_Z match21 (trainIdx m)) as [m'|].
  - destruct (decide (trainIdx m' = queryIdx m)) as [E|E]; [left; by exists m'|right].
    intros (? & [= <-] & ?). done.
  - right. by intros (? & [=] & _).
Defined.

Lemma cross_matches_filter match12 match21 :
  Forall (fun m => is_Some (index_Z match21 (trainIdx m))) match12 ->
  cross_matches match12 match21 = inr (filter (mutual match21) match12).
Proof.
  unfold cross_matches. intros H. rewrite <- (app_nil_l (filter _ _)).
  generalize (@nil DMatch) as acc.
  induction H as [|m l [m' Hm] H IH]; intros acc; cbn [for_each]; [by rewrite app_nil_r|].
  assert (cross_step match21 m acc =
            inr (if trainIdx m' =? queryIdx m then acc ++ [m] else acc)) as ->
    by (unfold cross_step; by rewrite Hm).
  cbn [mbind exc_bind]. rewrite IH, filter_cons.
  destruct (Z.eqb_spec (trainIdx m') (queryIdx m)) as [E|E].
  - rewrite decide_True by (by exists m'). by rewrite <- app_assoc.
  - rewrite decide_False; [done|]. intros (m2 & Hm2 & ?). congruence.
Qed.

(** The matcher's two lists are within each other's range. *)
Lemma matches_in_range d1 d2 m12 m21 :
  matcher_match FLANNBASED d1 d2 = inr m12 -> matcher_match FLANNBASED d2 d1 = inr m21 ->
  Forall (fun m => is_Some (index_Z m21 (trainIdx m))) m12.
Proof.
  intros [_ H12]%matcher_match_spec [L21 _]%matcher_match_spec.
  apply Forall_forall. intros m (i & Hi)%list_elem_of_lookup.
  destruct (H12 i m Hi) as [_ Hr].
  unfold index_Z. rewrite decide_True by lia. apply lookup_lt_is_Some. lia.
Qed.

(** In a list of matches, the query index is the position. *)
Lemma match_index q t l m :
  matcher_match FLANNBASED q t = inr l -> m ∈ l ->
  index_Z l (queryIdx m) = Some m /\ 0 <= trainIdx m < rows t.
Proof.
  intros [_ H]%matcher_match_spec (i & Hi)%list_elem_of_lookup.
  destruct (H i m Hi) as [-> ?]. split; [|done]. apply index_Z_Some. split; [lia|].
  by rewrite Nat2Z.id.
Qed.

Lemma match_at q t l i m :
  matcher_match FLANNBASED q t = inr l -> index_Z l i = Some m -> m ∈ l /\ queryIdx m = i.
Proof.
  intros [_ H]%matcher_match_spec [? Hi]%index_Z_Some. split.
  - apply list_elem_of_lookup. eauto.
  - destruct (H _ m Hi) as [-> _]. lia.
Qed.

Lemma matches_NoDup q t l : matcher_match FLANNBASED q t = inr l -> NoDup l.
Proof.
  intros [_ H]%matcher_match_spec. apply NoDup_alt. intros i j m Hi Hj.
  apply H in Hi as [Hi _], Hj as [Hj _]. lia.
Qed.

(** The two ends and the distance of a match, and of a match in the other direction. *)
Definition triple12 (m : DMatch) : Z * Z * Q := (queryIdx m, trainIdx m, distance m).
Definition triple21 (m : DMatch) : Z * Z * Q := (trainIdx m, queryIdx m, distance m).

Lemma mutual_incl d1 d2 m12 m21 m :
  matcher_match FLANNBASED d1 d2 = inr m12 -> matcher_match FLANNBASED d2 d1 = inr m21 ->
  m ∈ m12 -> mutual m21 m ->
  exists m', m' ∈ m21 /\ mutual m12 m' /\ trainIdx m' = queryIdx m /\ queryIdx m' = trainIdx m.
Proof.
  intros E12 E21 Hm (m' & Hi & Ht). destruct (match_at _ _ _ _ _ E21 Hi) as [Hm' Hq].
  exists m'. split_and!; [done| |done|done]. exists m. rewrite Ht.
  split; [by apply (match_index _ _ _ _ E12)|done].
Qed.

(** Distances do not depend on the direction. *)
Definition symmetric_distances (m12 m21 : list DMatch) : Prop :=
  forall m m', m ∈ m12 -> m' ∈ m21 -> queryIdx m = trainIdx m' -> trainIdx m = queryIdx m' ->
    distance m = distance m'.

Lemma mutual_triples_NoDup q t l k (f : DMatch -> Z * Z * Q) :
  matcher_match FLANNBASED q t = inr l ->
  (forall m m', f m = f m' -> queryIdx m = queryIdx m') ->
  NoDup (f <$> filter (mutual k) l).
Proof.
  intros E Hf. apply NoDup_fmap_2_strong; [|apply NoDup_filter; by eapply matches_NoDup].
  intros m m' [_ Hm]%list_elem_of_filter [_ Hm']%list_elem_of_filter Heq%Hf.
  apply (match_index _ _ _ _ E) in Hm as [Hm _], Hm' as [Hm' _]. congruence.
Qed.

Lemma mutual_triples d1 d2 m12 m21 :
  matcher_match FLANNBASED d1 d2 = inr m12 -> matcher_match FLANNBASED d2 d1 = inr m21 ->
  symmetric_distances m12 m21 ->
  Permutation (triple12 <$> filter (mutual m21) m12) (triple21 <$> filter (mutual m12) m21).
Proof.
  intros E12 E21 Hd. apply NoDup_Permutation.
  - eapply mutual_triples_NoDup; [exact E12|]. by intros m m' [=].
  - eapply mutual_triples_NoDup; [exact E21|]. by intros m m' [=].
  - intros [[i j] q]. rewrite !list_elem_of_fmap. split.
    + intros (m & Et & [Hmu Hm]%list_elem_of_filter).
      destruct (mutual_incl _ _ _ _ _ E12 E21 Hm Hmu) as (m' & Hm' & Hmu' & H1 & H2).
      exists m'. split; [|by apply list_elem_of_filter]. rewrite Et. unfold triple12, triple21.
      rewrite H1, H2. f_equal. by apply Hd.
    + intros (m & Et & [Hmu Hm]%list_elem_of_filter).
      destruct (mutual_incl _ _ _ _ _ E21 E12 Hm Hmu) as (m' & Hm' & Hmu' & H1 & H2).
      exists m'. split; [|by apply list_elem_of_filter]. rewrite Et. unfold triple12, triple21.
      rewrite H1, H2. f_equal. symmetry. by apply Hd.
Qed.

Lemma mutual_distances d1 d2 m12 m21 :
  matcher_match FLANNBASED d1 d2 = inr m12 -> matcher_match FLANNBASED d2 d1 = inr m21 ->
  symmetric_distances m12 m21 ->
  Permutation (distance <$> filter (mutual m21) m12) (distance <$> filter (mutual m12) m21).
Proof.
  intros E12 E21 Hd. pose proof (mutual_triples _ _ _ _ E12 E21 Hd) as Hp.
  apply (fmap_Permutation snd) in Hp. by rewrite <- !list_fmap_compose in Hp.
Qed.

Lemma descriptor_match_cross `{SS : StdSort} d1 d2 m12 m21 :
  matcher_match FLANNBASED d1 d2 = inr m12 -> matcher_match FLANNBASED d2 d1 = inr m21 ->
  descriptor_match true d1 d2 = inr (median_close (filter (mutual m21) m12)).
Proof.
  intros E12 E21. unfold descriptor_match. rewrite E12; cbn [mbind exc_bind]. rewrite E21.
  cbn [mbind exc_bind]. by rewrite (cross_matches_filter _ _ (matches_in_range _ _ _ _ E12 E21)).
Qed.
End Cross.

(** ** Properties *)

Section Properties.
Context `{CV : OpenCV} {ML : MatchLaws CV} {SS : StdSort} {SL : StdSortLaws SS}.

(** C22 Without the cross check, two descriptors match exactly when more than half of
    the matches in one of the directions are at distance 1 or less, whatever order
    [std::sort] gives to equal distances. *)
Theorem match_majority (d1 d2 : Mat) (m12 m21 : list DMatch) :
  matcher_match FLANNBASED d1 d2 = inr m12 -> matcher_match FLANNBASED d2 d1 = inr m21 ->
  exists b, descriptor_match false d1 d2 = inr b /\
    (b = true <->
     (length m12 / 2 < length (filter (fun m => close m = true) m12))%nat \/
     (length m21 / 2 < length (filter (fun m => close m = true) m21))%nat).
Proof.
  intros E12 E21. eexists. unfold descriptor_match. rewrite E12; cbn [mbind exc_bind].
  rewrite E21. split; [done|]. by rewrite orb_true_iff, !median_close_count.
Qed.

(** C23 With the cross check, two descriptors match exactly when more than half of the
    mutual matches (each the other's nearest) are at distance 1 or less, and there is
    one; reading [match21] at the index of a forward match never leaves it. *)
Theorem cross_check_majority (d1 d2 : Mat) (m12 m21 : list DMatch) :
  matcher_match FLANNBASED d1 d2 = inr m12 -> matcher_match FLANNBASED d2 d1 = inr m21 ->
  exists b, descriptor_match true d1 d2 = inr b /\
    (b = true <->
     (length (filter (mutual m21) m12) / 2 <
      length (filter (fun m => close m = true) (filter (mutual m21) m12)))%nat).
Proof.
  intros E12 E21. eexists. split; [by apply descriptor_match_cross|]. apply median_close_count.
Qed.

(** C30 The answer does not depend on the order of the two descriptors, with or without
    the cross check, when the distance between two descriptors does not. *)
Theorem descriptor_match_symmetric (cross : bool) (d1 d2 : Mat) (m12 m21 : list DMatch) :
  matcher_match FLANNBASED d1 d2 = inr m12 -> matcher_match FLANNBASED d2 d1 = inr m21 ->
  symmetric_distances m12 m21 ->
  descriptor_match cross d1 d2 = descriptor_match cross d2 d1.
Proof.
  intros E12 E21 Hd. destruct cross.
  - rewrite (descriptor_match_cross _ _ _ _ E12 E21), (descriptor_match_cross _ _ _ _ E21 E12).
    f_equal. apply median_close_distances. by eapply mutual_distances.
  - unfold descriptor_match. rewrite E12, E21; cbn [mbind exc_bind].
    f_equal. apply orb_comm.
Qed.
End Properties.

(** ** Witnesses *)

Lemma nearest_range q t i : 0 < g_rows t -> 0 <= nearest q t i < g_rows t.
Proof.
  intros Ht. unfold nearest.
  enough (forall l b, Forall (fun j => 0 <= j < g_rows t) l -> 0 <= b < g_rows t ->
            0 <= foldl (nearer q t i) b l < g_rows t) as H
    by (apply H; [apply Forall_seqZ; lia|lia]).
  induction l as [|j l IH]; intros b Hl Hb; cbn; [done|].
  inversion Hl; subst. apply IH; [done|]. unfold nearer. by destruct (_ <? _).
Qed.

#[export] Instance GridMatch : MatchLaws GridCv.
Proof.
  split. intros q t l. cbn. unfold cv_assert.
  destruct (Z.ltb_spec 0 (g_rows t)) as [Ht|]; [|done]. intros [= <-].
  rewrite length_fmap, length_seqZ. split; [done|].
  intros i m. rewrite list_lookup_fmap. intros Hm. apply fmap_Some in Hm as (j & Hj & ->).
  apply lookup_seqZ in Hj as [-> ?]. cbn. split; [lia|]. by apply nearest_range.
Qed.

(** Two sets of descriptors: 10, 20, 30 and 21, 10. *)
Definition example_d1 : Grid := grid_of CV_8UC1 3 1 [10; 20; 30].
Definition example_d2 : Grid := grid_of CV_8UC1 2 1 [21; 10].

Definition matches_of (r : exc (list DMatch)) : list DMatch :=
  match r with inr l => l | inl _ => [] end.
Definition example_m12 : list DMatch := matches_of (matcher_match (OpenCV := GridCv) FLANNBASED example_d1 example_d2).
Definition example_m21 : list DMatch := matches_of (matcher_match (OpenCV := GridCv) FLANNBASED example_d2 example_d1).

Lemma match_majority_witness :
  descriptor_match (CV := GridCv) false example_d1 example_d2 = inr true /\
  exists b, descriptor_match (CV := GridCv) false example_d1 example_d2 = inr b /\
    (b = true <->
     (length example_m12 / 2 < length (filter (fun m => close m = true) example_m12))%nat \/
     (length example_m21 / 2 < length (filter (fun m => close m = true) example_m21))%nat).
Proof.
  split; [vm_compute; reflexivity|].
  apply (match_majority (CV := GridCv) example_d1 example_d2); vm_compute; reflexivity.
Defined.

Lemma cross_check_majority_witness :
  exists b, descriptor_match (CV := GridCv) true example_d1 example_d2 = inr b /\
    (b = true <->
     (length (filter (mutual example_m21) example_m12) / 2 <
      length (filter (fun m => close m = true) (filter (mutual example_m21) example_m12)))%nat).
Proof. apply (cross_check_majority (CV := GridCv) example_d1 example_d2); vm_compute; reflexivity. Defined.

Lemma descriptor_match_symmetric_witness :
  descriptor_match (CV := GridCv) true example_d1 example_d2 =
  descriptor_match (CV := GridCv) true example_d2 example_d1.
Proof.
  apply (descriptor_match_symmetric (CV := GridCv) true example_d1 example_d2 example_m12 example_m21);
    [vm_compute; reflexivity|vm_compute; reflexivity|].
  intros m m' Hm Hm'. unfold example_m12, example_m21 in *.
  vm_compute in Hm, Hm'.
  repeat (apply elem_of_cons in Hm as [->|Hm]); try (by apply elem_of_nil in Hm);
  repeat (apply elem_of_cons in Hm' as [->|Hm']); try (by apply elem_of_nil in Hm');
  cbn; lia || reflexivity.
Defined.
