(* ===== verification/Diff.v ===== *)
(** Drawing the differences: [rect_from] and [create_diff_image] (image.cc), as the
    default build compiles them, with sequential loops.  A [return] in a loop there
    leaves the function, and the loops run over copies of the segments. *)

From S2P Require Import Prelude StdLib Cv CvGrid Perf PerfForest State Timed Grouping ExampleOs.
From S2P Require Import MappedFiles Histogram Segments Matcher.

(** ** The code *)

Section Code.
Context `{CV : OpenCV} {os : OS} {SS : StdSort}.

(** [ImageSegment::rect_from] *)
Definition rect_from (x : ImageSegment) (upper_left : Point) : Rect :=
  Rect_pts upper_left
    (mkPoint (px upper_left + width (area x)) (py upper_left + height (area x))).

(** The body of the loops over [i] and [j]. *)
Definition mark_pixel (old_color new_color : Mat) (rect area_ : Rect) (i j : Z) (result : Mat) :
    exc Mat :=
  old_cropped ← deref (at_Vec3b old_color (i + ry rect) (j + rx rect));
  new_cropped ← deref (at_Vec3b new_color (i + ry area_) (j + rx area_));
  if decide (old_cropped <> new_cropped)
  then deref (set_Vec3b result (i + ry rect) (j + rx rect) (mkVec3b 0 0 255))
  else mret result.

Definition mark_differences (old_color new_color : Mat) (rect area_ : Rect) (result : Mat) :
    exc Mat :=
  for_each (seqZ 0 (height rect)) (fun i =>
    for_each (seqZ 0 (width rect)) (mark_pixel old_color new_color rect area_ i)) result.

(** A matched pair: find the new part in the old image, frame it, mark the pixels
    that differ. *)
Definition draw_pair (old_gray old_color new_color : Mat) (x2 : ImageSegment) (result : Mat) :
    exc Mat :=
  ret ← matchTemplate old_gray (roi x2) TM_SQDIFF;
  min_point ← minMaxLoc ret;
  let rect := rect_from x2 min_point in
  result ← rectangle result rect (CV_RGB 255 0 0) 1;
  mark_differences old_color new_color rect (area x2) result.

(** The test at the head of the inner loop: whether the body goes on. *)
Definition pair_matches (cross : bool) (x1 x2 : ImageSegment) : exc bool :=
  if mat_empty (descriptor x2) || matched x2 then mret false
  else descriptor_match cross (descriptor x1) (descriptor x2).

(** The body of the inner loop; [x1] and [x2] are the loops' copies, and the mark on
    [x2] is lost at the end of the body. *)
Definition diff_inner (cross : bool) (old_gray old_color new_color : Mat)
    (x2 : ImageSegment) (st : ImageSegment * Mat) : exc (option (ImageSegment * Mat)) :=
  go ← pair_matches cross st.1 x2;
  if go : bool then
    let image_segment2 := set_matched x2 in
    result ← draw_pair old_gray old_color new_color image_segment2 st.2;
    mret (Some (set_matched st.1, result))
  else mret None.

(** The body of the outer loop. *)
Definition diff_outer (cross : bool) (old_gray old_color new_color : Mat)
    (news : list ImageSegment) (x1 : ImageSegment) (result : Mat) : exc (option Mat) :=
  if mat_empty (descriptor x1) || matched x1 then mret None
  else
    o ← for_each_ret news (diff_inner cross old_gray old_color new_color) (x1, result);
    mret (snd <$> o).

Definition diff_loops (cross : bool) (old_gray old_color new_color : Mat)
    (olds news : list ImageSegment) (result : Mat) : exc (option Mat) :=
  for_each_ret olds (diff_outer cross old_gray old_color new_color news) result.

(** The lambda [draw_not_matched]; the [return] leaves the lambda. *)
Definition draw_step (x : ImageSegment) (ret : Mat) : exc (option Mat) :=
  if matched x then mret None
  else r ← rectangle ret (area x) (CV_RGB 0 255 0) 2; mret (Some r).

Fixpoint draw_not_matched (ret : Mat) (l : list ImageSegment) : exc Mat :=
  match l with
  | [] => mret ret
  | x :: l =>
      o ← draw_step x ret;
      match o with Some ret => draw_not_matched ret l | None => mret ret end
  end.

(** One of the two change images. *)
Definition change_image (d : Side) (suffix : string) : M unit :=
  f ← gets (the_file d);
  mf ← lift (deref f);
  m ← lift (decode_from_mapped_file mf IMREAD_COLOR);
  l ← gets (segments d);
  m ← lift (draw_not_matched m l);
  o ← gets (fun c => output_name (arg c));
  imwrite_M (o +:+ suffix) m.

Definition create_diff_image : M unit :=
  with_timer "create diff image" None (fun _ =>
    old_gray ← gets old_gray_mat;
    result ← lift (merge3 old_gray old_gray old_gray);
    cross ← gets (fun c => cross_check (arg c));
    old_color ← gets old_color_mat;
    new_color ← gets new_color_mat;
    olds ← gets old_segments;
    news ← gets new_segments;
    r ← lift (diff_loops cross old_gray old_color new_color olds news result);
    match r with
    | None => mret tt
    | Some result =>
        with_timer "write" None (fun _ =>
          o ← gets (fun c => output_name (arg c));
          _ ← imwrite_M (o +:+ "_diff.png") result;
          change ← gets (fun c => create_change_image (arg c));
          if change : bool then
            with_timer "create added and deleted image" None (fun _ =>
              _ ← change_image Old "_delete.png";
              change_image New "_add.png")
          else mret tt)
    end).
End Code.

(** ** Marking the differing pixels *)

Section Marks.
Context `{CV : OpenCV} {ML : MatLaws CV}.

(** A rectangle within a matrix. *)
Definition rect_in (m : Mat) (r : Rect) : Prop :=
  0 <= rx r /\ 0 <= ry r /\ 0 <= width r /\ 0 <= height r /\
  rx r + width r <= cols m /\ ry r + height r <= rows m.

Definition red_pixel : Vec3b := mkVec3b 0 0 255.

(** The offsets the two loops visit, row by row. *)
Definition offsets (r : Rect) : list (Z * Z) :=
  seqZ 0 (height r) ≫= fun i => pair i <$> seqZ 0 (width r).

Lemma elem_of_offsets r i j : (i, j) ∈ offsets r <-> 0 <= i < height r /\ 0 <= j < width r.
Proof. apply elem_of_pairs. Qed.

(** The images differ at the pixel [(y, x)] of [rect]; [area_] is the rectangle's
    place in the new image. *)
Definition differ (old_color new_color : Mat) (rect area_ : Rect) (y x : Z) : Prop :=
  at_Vec3b old_color y x <> at_Vec3b new_color (y - ry rect + ry area_) (x - rx rect + rx area_).

#[export] Instance differ_dec o n r a y x : Decision (differ o n r a y x).
Proof. unfold differ. apply _. Defined.

(** The image after the offsets of [l] were visited. *)
Definition marked (old_color new_color : Mat) (rect area_ : Rect) (m0 : Mat) (l : list (Z * Z))
    (m : Mat) : Prop :=
  same_shape m0 m /\
  forall y x, at_Vec3b m y x =
    if decide ((y - ry rect, x - rx rect) ∈ l /\ differ old_color new_color rect area_ y x)
    then Some red_pixel else at_Vec3b m0 y x.

Lemma mark_pixel_runs o n rect area_ m i j :
  mtype o = CV_8UC3 -> mtype n = CV_8UC3 -> mtype m = CV_8UC3 ->
  in_bounds o (i + ry rect) (j + rx rect) -> in_bounds n (i + ry area_) (j + rx area_) ->
  in_bounds m (i + ry rect) (j + rx rect) ->
  exists m', mark_pixel o n rect area_ i j m = inr m'.
Proof.
  intros To Tn Tm Bo Bn Bm. unfold mark_pixel.
  destruct (proj2 (at_Vec3b_bounds o _ _ To) Bo) as [vo ->].
  destruct (proj2 (at_Vec3b_bounds n _ _ Tn) Bn) as [vn ->]. cbn [deref mbind exc_bind].
  case_decide; [|by exists m].
  destruct (proj2 (set_Vec3b_bounds m _ _ (mkVec3b 0 0 255) Tm) Bm) as [m' ->]. by exists m'.
Qed.

(** A pixel was visited: the accesses were within the images. *)
Lemma mark_pixel_inr o n rect area_ m0 l m i j m' :
  mtype o = CV_8UC3 -> mtype n = CV_8UC3 -> mtype m0 = CV_8UC3 ->
  marked o n rect area_ m0 l m -> mark_pixel o n rect area_ i j m = inr m' ->
  (in_bounds o (i + ry rect) (j + rx rect) /\ in_bounds n (i + ry area_) (j + rx area_)) /\
  marked o n rect area_ m0 (l ++ [(i, j)]) m'.
Proof.
  intros To Tn Tm [(Hr & Hc & Ht) Hm]
    (vo & Eo%deref_inr & (vn & En%deref_inr & E)%exc_bind_inr)%exc_bind_inr.
  split; [split; [apply (at_Vec3b_bounds o _ _ To)|apply (at_Vec3b_bounds n _ _ Tn)]; by eexists|].
  assert (forall y x, (y - ry rect, x - rx rect) ∈ l ++ [(i, j)] <->
            (y - ry rect, x - rx rect) ∈ l \/ (y, x) = (i + ry rect, j + rx rect)) as Hin.
  { intros y x. rewrite elem_of_app, list_elem_of_singleton. split; (intros [?|Ey]; [by left|right]);
      injection Ey; intros; f_equal; lia. }
  assert (differ o n rect area_ (i + ry rect) (j + rx rect) <-> vo <> vn) as Hd.
  { unfold differ. rewrite Eo, !Z.add_simpl_r, En. split; [intros H ->; done|congruence]. }
  case_decide as Hne.
  - apply deref_inr, set_Vec3b_spec in E as ((? & ? & ?) & Eat & Eother); [|congruence].
    split; [split_and!; congruence|]. intros y x.
    destruct (decide ((y, x) = (i + ry rect, j + rx rect))) as [[= -> ->]|Hyx].
    + rewrite Eat, decide_True; [done|]. rewrite Hin, Hd. auto.
    + rewrite Eother, Hm by done. apply decide_ext. rewrite Hin. tauto.
  - injection E as <-. split; [done|]. intros y x. rewrite Hm. apply decide_ext.
    rewrite Hin. split; [tauto|]. intros [[?|[= -> ->]] Hdf]; [tauto|]. apply Hd in Hdf. done.
Qed.

Lemma mark_pixel_inl o n rect area_ m i j e :
  mark_pixel o n rect area_ i j m = inl e -> e = UndefinedBehaviour.
Proof.
  unfold mark_pixel. destruct (at_Vec3b o _ _); cbn; [|congruence].
  destruct (at_Vec3b n _ _); cbn; [|congruence]. case_decide; [|done].
  by destruct (set_Vec3b _ _ _ _); cbn; [|congruence].
Qed.

(** The rectangle was visited. *)
Lemma mark_differences_inr o n rect area_ m0 m :
  mtype o = CV_8UC3 -> mtype n = CV_8UC3 -> mtype m0 = CV_8UC3 ->
  mark_differences o n rect area_ m0 = inr m ->
  (forall i j, (i, j) ∈ offsets rect -> in_bounds o (i + ry rect) (j + rx rect)) /\
  marked o n rect area_ m0 (offsets rect) m.
Proof.
  intros To Tn Tm. unfold mark_differences. rewrite for_each_nested.
  apply (for_each_inr (fun l m =>
    (forall i j, (i, j) ∈ l -> in_bounds o (i + ry rect) (j + rx rect)) /\
    marked o n rect area_ m0 l m)).
  - split; [by intros i j ?%elem_of_nil|]. split; [done|]. intros y x. rewrite decide_False; [done|].
    by intros [?%elem_of_nil _].
  - intros l [i j] m1 m2 _ [Hb Hm] E. cbn [fst snd] in E.
    destruct (mark_pixel_inr _ _ _ _ _ _ _ _ _ _ To Tn Tm Hm E) as [[Bo _] Hm'].
    split; [|done]. intros i' j' [?|[= -> ->]%list_elem_of_singleton]%elem_of_app; [by apply Hb|done].
Qed.

Lemma mark_differences_inl o n rect area_ m e :
  mark_differences o n rect area_ m = inl e -> e = UndefinedBehaviour.
Proof.
  unfold mark_differences. rewrite for_each_nested.
  intros ([i j] & m1 & E)%for_each_inl. by eapply mark_pixel_inl.
Qed.

(** A rectangle that is not empty and was visited lies within the old image. *)
Lemma visited_rect_in o rect :
  0 < width rect -> 0 < height rect ->
  (forall i j, (i, j) ∈ offsets rect -> in_bounds o (i + ry rect) (j + rx rect)) -> rect_in o rect.
Proof.
  intros Hw Hh H.
  assert ((0, 0) ∈ offsets rect) as H1%H by (apply elem_of_offsets; lia).
  assert ((height rect - 1, width rect - 1) ∈ offsets rect) as H2%H by (apply elem_of_offsets; lia).
  unfold in_bounds, rect_in in *. lia.
Qed.

Lemma mark_differences_runs o n rect area_ m0 :
  mtype o = CV_8UC3 -> mtype n = CV_8UC3 -> mtype m0 = CV_8UC3 ->
  rect_in o rect -> rect_in m0 rect ->
  rect_in n (mkRect (rx area_) (ry area_) (width rect) (height rect)) ->
  exists m, mark_differences o n rect area_ m0 = inr m.
Proof.
  intros To Tn Tm Ro Rm Rn. unfold mark_differences. rewrite for_each_nested.
  enough (exists m, for_each (offsets rect) (fun p => mark_pixel o n rect area_ p.1 p.2) m0 = inr m /\
            marked o n rect area_ m0 (offsets rect) m) as (m & E & _) by by exists m.
  apply (for_each_inv (marked o n rect area_ m0)).
  - split; [done|]. intros y x. rewrite decide_False; [done|].
    by intros [?%elem_of_nil _].
  - intros done_ [i j] rest m El Hm. cbn [fst snd].
    assert ((i, j) ∈ offsets rect) as Hij by (rewrite El; apply elem_of_app; right; left).
    apply elem_of_offsets in Hij. pose proof Hm as [(Sr & Sc & St) _].
    destruct (mark_pixel_runs o n rect area_ m i j) as [m' E];
      [done|done|congruence|unfold rect_in, in_bounds in *; cbn in *; lia..|].
    exists m'. split; [done|]. by eapply mark_pixel_inr.
Qed.
End Marks.

(** ** The whole function as a pure computation *)

Section Spec.
Context `{CV : OpenCV} {os : OS} {SS : StdSort}.

#[export] Instance timed_imwrite n nm m : TimedFrom n (imwrite_M nm m).
Proof. unfold imwrite_M. timed. Qed.
#[export] Instance timed_create_diff n : TimedFrom n create_diff_image.
Proof. unfold create_diff_image, change_image. timed. Qed.

(** The image files a call of [imwrite] adds. *)
Definition written (nm : string) (m : Mat) : exc (list (string * Mat)) :=
  ok ← imwrite nm m; mret (if ok : bool then [(nm, m)] else []).

(** The images that were written, among those [imwrite] was called with: its answer is
    not looked at. *)
Definition saved (imgs : list (string * Mat)) : list (string * Mat) :=
  filter (fun p => imwrite p.1 p.2 = inr true) imgs.

(** Every call of [imwrite] returned. *)
Definition answered (imgs : list (string * Mat)) : Prop :=
  Forall (fun p => exists ok, imwrite p.1 p.2 = inr ok) imgs.

Lemma saved_app l k : saved (l ++ k) = saved l ++ saved k.
Proof. apply filter_app. Qed.

Lemma written_inr nm m l :
  written nm m = inr l -> answered [(nm, m)] /\ l = saved [(nm, m)].
Proof.
  intros (ok & E & [= <-])%exc_bind_inr. split; [repeat constructor; by exists ok|].
  unfold saved. rewrite filter_cons; cbn. rewrite E. by destruct ok.
Qed.

Definition changed (d : Side) (suffix : string) (c : Context) : exc (list (string * Mat)) :=
  mf ← deref (the_file d c);
  m ← decode_from_mapped_file mf IMREAD_COLOR;
  m ← draw_not_matched m (segments d c);
  written (output_name (arg c) +:+ suffix) m.

Definition diff_loops_of (c : Context) (result : Mat) : exc (option Mat) :=
  diff_loops (cross_check (arg c)) (old_gray_mat c) (old_color_mat c) (new_color_mat c)
    (old_segments c) (new_segments c) result.

Definition diff_images (c : Context) : exc (list (string * Mat)) :=
  result ← merge3 (old_gray_mat c) (old_gray_mat c) (old_gray_mat c);
  r ← diff_loops_of c result;
  match r with
  | None => mret []
  | Some result =>
      l ← written (output_name (arg c) +:+ "_diff.png") result;
      if create_change_image (arg c) then
        k1 ← changed Old "_delete.png" c;
        k2 ← changed New "_add.png" c;
        mret (l ++ k1 ++ k2)
      else mret l
  end.

Lemma ends_imwrite n s0 nm m :
  EndsAt n s0 (imwrite_M nm m) (l ← written nm m; inr (tt, set_wld (add_images l) s0)).
Proof.
  unfold imwrite_M, written.
  apply (ends_eq _ _ _ (ok ← imwrite nm m;
           if ok : bool then inr (tt, set_wld (add_image nm m) s0) else inr (tt, s0))).
  - destruct (imwrite nm m) as [|[]]; [done..|]. cbn. by rewrite add_images_nil.
  - ends.
Qed.

Lemma ends_change n s0 d suffix :
  EndsAt n s0 (change_image d suffix)
    (l ← changed d suffix (ctx s0); inr (tt, set_wld (add_images l) s0)).
Proof.
  unfold change_image, changed.
  apply (ends_eq _ _ _ (mf ← deref (the_file d (ctx s0));
    m ← decode_from_mapped_file mf IMREAD_COLOR;
    m ← draw_not_matched m (segments d (ctx s0));
    l ← written (output_name (arg (ctx s0)) +:+ suffix) m;
    inr (tt, set_wld (add_images l) s0))).
  - destruct (deref _); [done|]; cbn. destruct (decode_from_mapped_file _ _); [done|]; cbn.
    by destruct (draw_not_matched _ _).
  - do 6 ends_step. apply ends_imwrite.
Qed.

Lemma ends_write n s0 result :
  EndsAt n s0
    (with_timer "write" None (fun _ =>
       o ← gets (fun c => output_name (arg c));
       _ ← imwrite_M (o +:+ "_diff.png") result;
       change ← gets (fun c => create_change_image (arg c));
       if change : bool then
         with_timer "create added and deleted image" None (fun _ =>
           _ ← change_image Old "_delete.png";
           change_image New "_add.png")
       else mret tt))
    (l ← written (output_name (arg (ctx s0)) +:+ "_diff.png") result;
     k ← (if create_change_image (arg (ctx s0)) then
            k1 ← changed Old "_delete.png" (ctx s0);
            k2 ← changed New "_add.png" (ctx s0);
            mret (k1 ++ k2)
          else mret []);
     inr (tt, set_wld (add_images (l ++ k)) s0)).
Proof.
  do 2 ends_step.
  set (c := ctx s0). set (w := written (output_name (arg c) +:+ "_diff.png") result).
  apply (ends_eq _ _ _ ('(_, s1) ← (l ← w; inr (tt, set_wld (add_images l) s0));
    if create_change_image (arg (ctx s1)) then
      '(_, s2) ← (k ← changed Old "_delete.png" (ctx s1); inr (tt, set_wld (add_images k) s1));
      k ← changed New "_add.png" (ctx s2); inr (tt, set_wld (add_images k) s2)
    else inr (tt, s1))).
  - destruct w as [|l]; [done|]; cbn. unfold c. destruct (create_change_image _); cbn.
    + destruct (changed Old _ _) as [|k1]; [done|]; cbn.
      destruct (changed New _ _) as [|k2]; [done|]; cbn. f_equal. f_equal.
      by rewrite !add_images_app.
    + by rewrite app_nil_r.
  - apply ends_bind; [apply ends_imwrite|]. intros [] s1 _. ends_step.
    destruct (create_change_image (arg (ctx s1))); [|apply ends_ret]. ends_step.
    apply ends_bind; [apply ends_change|]. intros [] s2 _. apply ends_change.
Qed.

Lemma ends_create_diff n s0 :
  EndsAt n s0 create_diff_image
    (l ← diff_images (ctx s0); inr (tt, set_wld (add_images l) s0)).
Proof.
  unfold create_diff_image, diff_images, diff_loops_of. ends_step. ends_step.
  set (c := ctx s0).
  apply (ends_eq _ _ _ (result ← merge3 (old_gray_mat c) (old_gray_mat c) (old_gray_mat c);
    r ← diff_loops (cross_check (arg c)) (old_gray_mat c) (old_color_mat c) (new_color_mat c)
          (old_segments c) (new_segments c) result;
    match r with
    | None => inr (tt, s0)
    | Some result =>
        l ← written (output_name (arg c) +:+ "_diff.png") result;
        k ← (if create_change_image (arg c) then
               k1 ← changed Old "_delete.png" c;
               k2 ← changed New "_add.png" c;
               mret (k1 ++ k2)
             else mret []);
        inr (tt, set_wld (add_images (l ++ k)) s0)
    end)).
  - destruct (merge3 _ _ _) as [|m]; [done|]; cbn.
    destruct (diff_loops _ _ _ _ _ _ _) as [|[r|]]; cbn; [done| |by rewrite add_images_nil].
    destruct (written _ _) as [|l]; [done|]; cbn.
    destruct (create_change_image (arg c)); cbn; [|by rewrite app_nil_r].
    destruct (changed Old _ _) as [|k1]; [done|]; cbn. by destruct (changed New _ _).
  - do 7 ends_step. destruct a0 as [r|]; [apply ends_write|apply ends_ret].
Qed.
End Spec.

(** ** Which pairs the loops reach *)

Section Pairs.
Context `{CV : OpenCV} {SS : StdSort}.

(** The tests of the two loops on a segment. *)
Definition usable (x : ImageSegment) : bool := negb (mat_empty (descriptor x) || matched x).

(** Every old segment, against every new one, passes the tests. *)
Definition all_match (cross : bool) (olds news : list ImageSegment) : Prop :=
  Forall (fun x1 => usable x1 = true /\
    Forall (fun x2 => pair_matches cross x1 x2 = inr true) news) olds.

Lemma diff_inner_some cross og oc nc x1 news st o :
  descriptor st.1 = descriptor x1 ->
  for_each_ret news (diff_inner cross og oc nc) st = inr o ->
  is_Some o <-> Forall (fun x2 => pair_matches cross x1 x2 = inr true) news.
Proof.
  intros Hd. revert st Hd. induction news as [|x2 news IH]; intros st Hd; cbn [for_each_ret].
  - intros [= <-]. split; [constructor|by exists st].
  - rewrite Forall_cons.
    intros (o1 & H1 & H2)%exc_bind_inr. unfold diff_inner in H1.
    assert (pair_matches cross st.1 x2 = pair_matches cross x1 x2) as Hp
      by (unfold pair_matches; by rewrite Hd).
    rewrite Hp in H1. apply exc_bind_inr in H1 as (go & Hgo & H1). rewrite Hgo. destruct go.
    + apply exc_bind_inr in H1 as (r & _ & [= <-]). rewrite (IH (set_matched st.1, r) Hd H2).
      naive_solver.
    + injection H1 as <-. injection H2 as <-. split; [by intros [? ?]|]. by intros [[=] _].
Qed.

Lemma diff_loops_some cross og oc nc olds news result o :
  diff_loops cross og oc nc olds news result = inr o ->
  is_Some o <-> all_match cross olds news.
Proof.
  unfold diff_loops, all_match. revert result. induction olds as [|x1 olds IH]; intros result;
    cbn [for_each_ret].
  - intros [= <-]. split; [constructor|by exists result].
  - rewrite Forall_cons. intros (o1 & H1 & H2)%exc_bind_inr. unfold diff_outer, usable in *.
    destruct (mat_empty (descriptor x1) || matched x1); cbn [negb].
    + injection H1 as <-. injection H2 as <-. split; [by intros [? ?]|]. by intros [[[=] _] _].
    + apply exc_bind_inr in H1 as (oi & Hi & [= <-]).
      pose proof (diff_inner_some cross og oc nc x1 news (x1, result) oi eq_refl Hi) as Hall.
      destruct oi as [[x1' r]|]; cbn in H2.
      * rewrite (IH r H2). assert (is_Some (Some (x1', r))) as Hs by by eexists.
        apply Hall in Hs. naive_solver.
      * injection H2 as <-. split; [by intros [? ?]|].
        intros [[_ H] _]. apply Hall in H. by destruct H.
Qed.

(** ** Calls that only throw *)

Lemma throws_for_each_ret {A S} (U : Prop) (P : S -> Prop) (l : list A) body (s : S) :
  P s -> (forall x s, x ∈ l -> P s -> throws_unless U (body x s) /\
            forall s', body x s = inr (Some s') -> P s') ->
  throws_unless U (for_each_ret l body s) /\ forall s', for_each_ret l body s = inr (Some s') -> P s'.
Proof.
  revert s. induction l as [|x l IH]; intros s Hs H; cbn.
  - split; [done|]. by intros s' [= <-].
  - destruct (H x s) as [Ht Hp]; [left|done|].
    destruct (body x s) as [e|[s1|]]; cbn in *; try done.
    apply IH; [by apply Hp|]. intros y s2 Hy. apply H. by right.
Qed.
End Pairs.

(** ** A matched pair *)

Section DrawPair.
Context `{CV : OpenCV} {os : OS} {ML : MatLaws CV} {RL : RectLaws CV} {DL : DiffLaws CV}
  {TL : ThrowLaws CV}.

Lemma rect_from_spec x p :
  0 <= width (area x) -> 0 <= height (area x) ->
  rect_from x p = mkRect (px p) (py p) (width (area x)) (height (area x)).
Proof.
  intros Hw Hh. unfold rect_from. rewrite Rect_pts_spec; cbn. f_equal; lia.
Qed.

(** What [create_diff_image] needs of the images: color images, the old one of the
    size of its gray version. *)
Record images_ready (og oc nc : Mat) : Prop := {
  ir_og : mtype og = CV_8UC1;
  ir_oc : mtype oc = CV_8UC3;
  ir_nc : mtype nc = CV_8UC3;
  ir_rows : rows oc = rows og;
  ir_cols : cols oc = cols og
}.

(** A segment of the new image: its region has the size of its area, which lies in
    the image. *)
Definition placed (nc : Mat) (x : ImageSegment) : Prop :=
  rect_in nc (area x) /\ rows (roi x) = height (area x) /\ cols (roi x) = width (area x).

#[export] Instance placed_dec nc x : Decision (placed nc x).
Proof. unfold placed, rect_in. apply _. Defined.

(** A canvas of the size of the old image. *)
Definition canvas (og m : Mat) : Prop :=
  rows m = rows og /\ cols m = cols og /\ mtype m = CV_8UC3.

(** Where the part [x2] of the new image is found in the old one. *)
Definition found (og : Mat) (x2 : ImageSegment) : exc Rect :=
  ret ← matchTemplate og (roi x2) TM_SQDIFF;
  p ← minMaxLoc ret;
  mret (rect_from x2 p).

(** The frame and the marks of one pair; the rectangle of a part that is not empty lies
    in the old image. *)
Definition drawn (oc nc : Mat) (x2 : ImageSegment) (rect : Rect) (m m' : Mat) : Prop :=
  exists framed, (0 < width (area x2) -> 0 < height (area x2) -> rect_in oc rect) /\
    width rect = width (area x2) /\ height rect = height (area x2) /\
    rectangle m rect (CV_RGB 255 0 0) 1 = inr framed /\
    marked oc nc rect (area x2) framed (offsets rect) m'.

(** The part can be looked for in the old image. *)
Definition searchable (og : Mat) (x : ImageSegment) : Prop := template_fits og (roi x).

#[export] Instance searchable_dec og x : Decision (searchable og x).
Proof. unfold searchable. apply _. Defined.

(** A segment of the new image that may be drawn and is greater than the old image. *)
Definition misfit (og : Mat) (x : ImageSegment) : Prop :=
  mat_empty (descriptor x) = false /\ ~ searchable og x.

Lemma draw_pair_Done og oc nc x2 m m' :
  images_ready og oc nc -> placed nc x2 -> canvas og m ->
  draw_pair og oc nc x2 m = inr m' ->
  canvas og m' /\ exists rect, found og x2 = inr rect /\ drawn oc nc x2 rect m m'.
Proof.
  intros [Tg To Tn Hr Hc] ((? & ? & ? & ? & ? & ?) & Rr & Rc) (Mr & Mc & Mt)
    (ret & E1 & (p & E2 & (framed & E3 & E4)%exc_bind_inr)%exc_bind_inr)%exc_bind_inr.
  rewrite rect_from_spec in E3, E4 by done. set (rect := mkRect _ _ _ _) in *.
  pose proof (rectangle_shape _ _ _ _ _ E3) as (Fr & Fc & Ft).
  destruct (mark_differences_inr oc nc rect (area x2) framed m' To Tn) as [Hb Hm]; [congruence|done|].
  split; [destruct Hm as [(? & ? & ?) _]; split_and!; congruence|].
  exists rect. split; [unfold found; rewrite E1; cbn; rewrite E2; cbn; by rewrite rect_from_spec|].
  exists framed. split_and!; [|done..]. intros Hw Hh. by apply visited_rect_in.
Qed.

(** The rectangle of a part that can be looked for lies in the old image. *)
Lemma found_in og oc nc x2 rect :
  images_ready og oc nc -> placed nc x2 -> searchable og x2 -> found og x2 = inr rect ->
  rect_in oc rect /\ width rect = width (area x2) /\ height rect = height (area x2).
Proof.
  intros [Tg To Tn Hr Hc] ((? & ? & ? & ? & ? & ?) & Rr & Rc) Hf E. unfold searchable in Hf.
  apply exc_bind_inr in E as (ret & [Sr Sc]%matchTemplate_shape & E); [|done].
  destruct Hf as [? ?].
  apply exc_bind_inr in E as (p & [Py Px]%minMaxLoc_in & [= <-]); [|lia..].
  rewrite rect_from_spec by done. unfold rect_in; cbn. split_and!; lia.
Qed.

(** Drawing leaves an image only for a part greater than the old image. *)
Lemma draw_pair_throws og oc nc x2 m :
  images_ready og oc nc -> placed nc x2 -> canvas og m ->
  throws_unless (~ searchable og x2) (draw_pair og oc nc x2 m).
Proof.
  intros Hi Hx Hm. unfold draw_pair.
  apply throws_unless_bind; [apply throws_is_unless, throws_matchTemplate|intros ret E1].
  apply throws_unless_bind; [apply throws_is_unless, throws_minMaxLoc|intros p E2].
  apply throws_unless_bind; [apply throws_is_unless, throws_rectangle|intros framed E3].
  destruct (decide (searchable og x2)) as [Hf|Hf].
  - assert (found og x2 = inr (rect_from x2 p)) as Ef by (unfold found; rewrite E1; cbn; by rewrite E2).
    destruct (found_in _ _ _ _ _ Hi Hx Hf Ef) as (Ro & Ew & Eh).
    destruct Hi as [Tg To Tn Hr Hc], Hm as (Mr & Mc & Mt), Hx as (Rn & _).
    pose proof (rectangle_shape _ _ _ _ _ E3) as (Fr & Fc & Ft).
    destruct (mark_differences_runs oc nc (rect_from x2 p) (area x2) framed) as [m' E];
      [done|done|congruence|done|unfold rect_in in *; lia|by rewrite Ew, Eh; destruct (area x2)|].
    by rewrite E.
  - destruct (mark_differences _ _ _ _ _) as [e|] eqn:E; [|done]. right.
    split; [by eapply mark_differences_inl|done].
Qed.

(** Drawing a part greater than the old image never returns. *)
Lemma draw_pair_misfit og oc nc x2 m :
  images_ready og oc nc -> placed nc x2 -> canvas og m ->
  0 < width (area x2) -> 0 < height (area x2) -> ~ searchable og x2 ->
  forall m', draw_pair og oc nc x2 m <> inr m'.
Proof.
  intros Hi Hx Hm Hw Hh Hn m' E.
  destruct (draw_pair_Done _ _ _ _ _ _ Hi Hx Hm E) as (_ & rect & _ & framed & Ro & Ew & Eh & _).
  specialize (Ro Hw Hh). destruct Hi as [_ _ _ Hr Hc], Hx as (_ & Rr & Rc).
  apply Hn. unfold searchable, template_fits, rect_in in *. lia.
Qed.
End DrawPair.

(** ** The loops stay within the images *)

Section Loops.
Context `{CV : OpenCV} {ML : MatLaws CV} {RL : RectLaws CV} {DL : DiffLaws CV}
  {TL : ThrowLaws CV} {MA : MatchLaws CV} {SS : StdSort}.

Lemma pair_matches_throws cross x1 x2 : throws (pair_matches cross x1 x2).
Proof.
  unfold pair_matches. destruct (_ || _); [done|]. unfold descriptor_match.
  apply throws_bind; [apply throws_matcher|intros m12 E12].
  apply throws_bind; [apply throws_matcher|intros m21 E21].
  destruct cross; [|done]. by rewrite (cross_matches_filter _ _ (matches_in_range _ _ _ _ E12 E21)).
Qed.

(** A segment that passes the test has a descriptor. *)
Lemma pair_matches_descriptor cross x1 x2 :
  pair_matches cross x1 x2 = inr true -> mat_empty (descriptor x2) = false.
Proof. unfold pair_matches. by destruct (mat_empty (descriptor x2)). Qed.

Lemma diff_inner_keeps cross og oc nc x2 st :
  images_ready og oc nc -> placed nc x2 -> canvas og st.2 ->
  throws_unless (misfit og x2) (diff_inner cross og oc nc x2 st) /\
  forall st', diff_inner cross og oc nc x2 st = inr (Some st') -> canvas og st'.2.
Proof.
  intros Hi Hx Hst. unfold diff_inner. split.
  - apply throws_unless_bind; [apply throws_is_unless, pair_matches_throws|intros [] Hgo; [|done]].
    apply throws_unless_bind; [|done].
    pose proof (draw_pair_throws og oc nc (set_matched x2) st.2 Hi Hx Hst) as H.
    destruct (draw_pair _ _ _ _ _) as [e|]; [|done]. destruct H as [?|[? Hn]]; [by left|right].
    split; [done|]. split; [by eapply pair_matches_descriptor|exact Hn].
  - intros st' (go & _ & H)%exc_bind_inr. destruct go; [|done].
    apply exc_bind_inr in H as (m' & E & [= <-]). cbn.
    by apply (draw_pair_Done og oc nc (set_matched x2) st.2 m' Hi Hx Hst) in E as [? _].
Qed.

Lemma throws_unless_weaken {A} (U U' : Prop) (r : exc A) :
  (U -> U') -> throws_unless U r -> throws_unless U' r.
Proof. intros H. destruct r; [|done]. intros [?|[? ?]]; [by left|right; auto]. Qed.

Lemma diff_loops_keeps cross og oc nc olds news m :
  images_ready og oc nc -> Forall (placed nc) news -> canvas og m ->
  throws_unless (Exists (misfit og) news) (diff_loops cross og oc nc olds news m) /\
  forall m', diff_loops cross og oc nc olds news m = inr (Some m') -> canvas og m'.
Proof.
  intros Hi Hn Hm. rewrite Forall_forall in Hn. set (U := Exists (misfit og) news).
  apply (throws_for_each_ret U (canvas og)); [done|]. intros x1 m1 _ Hm1.
  unfold diff_outer. destruct (_ || _); [done|].
  destruct (throws_for_each_ret U (fun st : ImageSegment * Mat => canvas og st.2) news
              (diff_inner cross og oc nc) (x1, m1)) as [Ht Hc]; [done| |].
  { intros x2 st Hx2 Hst.
    destruct (diff_inner_keeps cross og oc nc x2 st Hi (Hn x2 Hx2) Hst) as [H1 H2].
    split; [|done]. eapply throws_unless_weaken; [|exact H1].
    intros Hx. apply Exists_exists. by exists x2. }
  split.
  - apply throws_unless_bind; [done|]. by intros [st|] _.
  - intros m' (o & E & [= Ho])%exc_bind_inr. destruct o as [st|]; [|done].
    injection Ho as <-. by apply Hc.
Qed.

Lemma draw_not_matched_throws m l : throws (draw_not_matched m l).
Proof.
  revert m. induction l as [|x l IH]; intros m; cbn; [done|].
  unfold draw_step. destruct (matched x); [done|].
  pose proof (throws_rectangle m (area x) (CV_RGB 0 255 0) 2) as H.
  destruct (rectangle _ _ _ _) as [[]|r]; cbn in *; done || apply IH.
Qed.

(** A frame around every segment, in order. *)
Fixpoint frame_all (m : Mat) (l : list ImageSegment) : exc Mat :=
  match l with
  | [] => mret m
  | x :: l => m ← rectangle m (area x) (CV_RGB 0 255 0) 2; frame_all m l
  end.

(** With no segment marked, every segment is framed. *)
Lemma draw_not_matched_all m l :
  Forall (fun x => matched x = false) l -> draw_not_matched m l = frame_all m l.
Proof.
  intros H. revert m. induction H as [|x l Hx _ IH]; intros m; cbn; [done|].
  unfold draw_step. rewrite Hx. destruct (rectangle _ _ _ _); cbn; [done|apply IH].
Qed.
End Loops.

(** ** The function only throws *)

Section Throws.
Context `{CV : OpenCV} {os : OS} {SS : StdSort} {ML : MatLaws CV} {RL : RectLaws CV}
  {DL : DiffLaws CV} {TL : ThrowLaws CV} {MA : MatchLaws CV}.

Lemma throws_written nm m : throws (written nm m).
Proof. unfold written. throws. Qed.

Lemma throws_changed d suffix c : is_Some (the_file d c) -> throws (changed d suffix c).
Proof.
  intros [mf E]. unfold changed. rewrite E; cbn [deref mbind exc_bind].
  apply throws_bind; [apply throws_imdecode|intros m0 _].
  apply throws_bind; [apply draw_not_matched_throws|intros m1 _]. apply throws_written.
Qed.

Lemma throws_diff_images c :
  images_ready (old_gray_mat c) (old_color_mat c) (new_color_mat c) ->
  Forall (placed (new_color_mat c)) (new_segments c) -> (forall d, is_Some (the_file d c)) ->
  throws_unless (Exists (misfit (old_gray_mat c)) (new_segments c)) (diff_images c).
Proof.
  intros Hi Hn Hf. unfold diff_images.
  apply throws_unless_bind; [apply throws_is_unless, throws_merge3|intros m Em].
  assert (canvas (old_gray_mat c) m) as Hm
    by (apply merge3_shape in Em; [done|apply (ir_og _ _ _ Hi)]).
  apply throws_unless_bind; [by apply diff_loops_keeps|intros [r|] _; [|done]].
  apply throws_is_unless. apply throws_bind; [apply throws_written|intros l _]. destruct (create_change_image _); [|done].
  apply throws_bind; [by apply throws_changed|intros k1 _].
  apply throws_bind; [by apply throws_changed|done].
Qed.
End Throws.

(** ** The function on a state *)

Section Run.
Context `{CV : OpenCV} {os : OS} {SS : StdSort}.

Lemma create_diff_Done s s' :
  create_diff_image s = Done tt s' ->
  exists l, diff_images (ctx s) = inr l /\ s' ≈ set_wld (add_images l) s.
Proof.
  intros E. pose proof (ends_create_diff 0 s s ltac:(done) ltac:(lia)) as H. rewrite E in H.
  destruct (diff_images (ctx s)) as [e|l]; cbn in H; [by destruct H|].
  destruct H as (s1 & [= <-] & Hs & _). by exists l.
Qed.

Lemma create_diff_Stopped s e s' :
  create_diff_image s = Stopped e s' -> diff_images (ctx s) = inl e.
Proof.
  intros E. pose proof (ends_create_diff 0 s s ltac:(done) ltac:(lia)) as H. rewrite E in H.
  destruct (diff_images (ctx s)) as [e'|l]; cbn in H; [by destruct H as [? [= <- _]]|].
  by destruct H as (? & ? & _).
Qed.

(** The names of the images a complete run asks for. *)
Definition diff_names (a : Args) : list string :=
  (output_name a +:+ "_diff.png") ::
  if create_change_image a
  then [output_name a +:+ "_delete.png"; output_name a +:+ "_add.png"] else [].

(** The image of a side with its unmarked segments framed, as the sequential lambda
    leaves it. *)
Definition changed_image (d : Side) (c : Context) (m : Mat) : Prop :=
  exists mf m0, the_file d c = Some mf /\ decode_from_mapped_file mf IMREAD_COLOR = inr m0 /\
    draw_not_matched m0 (segments d c) = inr m.

(** The calls of [imwrite]: none when the loops return early, else the difference image
    and on request the change images. *)
Definition asked (c : Context) (imgs : list (string * Mat)) : Prop :=
  exists m0 o, merge3 (old_gray_mat c) (old_gray_mat c) (old_gray_mat c) = inr m0 /\
    diff_loops_of c m0 = inr o /\
    match o with
    | None => imgs = []
    | Some r =>
        if create_change_image (arg c)
        then exists del add, changed_image Old c del /\ changed_image New c add /\
          imgs = [(output_name (arg c) +:+ "_diff.png", r);
                  (output_name (arg c) +:+ "_delete.png", del);
                  (output_name (arg c) +:+ "_add.png", add)]
        else imgs = [(output_name (arg c) +:+ "_diff.png", r)]
    end.

Lemma changed_inr d suffix c l :
  changed d suffix c = inr l ->
  exists m, changed_image d c m /\ answered [(output_name (arg c) +:+ suffix, m)] /\
    l = saved [(output_name (arg c) +:+ suffix, m)].
Proof.
  intros (mf & E1%deref_inr & (m0 & E2 & (m & E3 & E4%written_inr)%exc_bind_inr)%exc_bind_inr)%exc_bind_inr.
  exists m. split; [by exists mf, m0|done].
Qed.

Lemma diff_images_asked c l :
  diff_images c = inr l -> exists imgs, asked c imgs /\ answered imgs /\ l = saved imgs.
Proof.
  intros (m & Em & (o & Eo & E)%exc_bind_inr)%exc_bind_inr.
  destruct o as [r|]; [|injection E as <-; exists []; split; [by exists m, None|by split; [constructor|]]].
  apply exc_bind_inr in E as (k & [Ha ->]%written_inr & E).
  destruct (create_change_image (arg c)) eqn:Hc.
  - apply exc_bind_inr in E as (k1 & (del & H1 & A1 & ->)%changed_inr & E).
    apply exc_bind_inr in E as (k2 & (add & H2 & A2 & ->)%changed_inr & [= <-]).
    eexists. split; [exists m, (Some r); rewrite Hc; split_and!; [done..|]; by exists del, add|].
    unfold answered in *. rewrite !Forall_cons in *. split; [naive_solver|].
    by rewrite <- !saved_app.
  - injection E as <-. eexists. split; [exists m, (Some r); rewrite Hc; by split_and!|done].
Qed.

Lemma asked_names c imgs :
  asked c imgs ->
  (all_match (cross_check (arg c)) (old_segments c) (new_segments c) ->
     imgs.*1 = diff_names (arg c)) /\
  (~ all_match (cross_check (arg c)) (old_segments c) (new_segments c) -> imgs = []).
Proof.
  intros (m & o & _ & Eo%diff_loops_some & H). unfold diff_names. destruct o as [r|].
  - split; [intros _|intros Hn; exfalso; apply Hn, Eo; by eexists].
    destruct (create_change_image (arg c)); [|by rewrite H]. by destruct H as (del & add & _ & _ & ->).
  - split; [|done]. intros Ha%Eo. by destruct Ha.
Qed.

Lemma asked_cases c imgs : asked c imgs -> imgs.*1 = diff_names (arg c) \/ imgs = [].
Proof.
  intros (m & [r|] & _ & _ & H); [|by right]. left. unfold diff_names.
  destruct (create_change_image (arg c)); [|by rewrite H]. by destruct H as (del & add & _ & _ & ->).
Qed.
End Run.

(** ** Properties *)

Section Properties.
Context `{CV : OpenCV} {os : OS} {SS : StdSort}.

(** C5 In the default build [create_diff_image] calls [imwrite] exactly when every old
    segment matches every new one: one segment without a descriptor, or one pair that
    does not match, makes it return without asking for any image, not even an empty
    difference.  Otherwise it asks for the image the loops leave, under the output prefix
    with [_diff.png], and on request for [_delete.png] and [_add.png], in this order; the
    files written are those for which [imwrite] answers that it wrote them, an answer the
    code ignores.  In both cases nothing else changes: the segments' [matched] marks, set on
    the loops' copies, are lost. *)
Theorem diff_written_iff_all_match (s s' : St) :
  create_diff_image s = Done tt s' ->
  let c := ctx s in
  exists imgs, asked c imgs /\ answered imgs /\ s' ≈ set_wld (add_images (saved imgs)) s /\
    (all_match (cross_check (arg c)) (old_segments c) (new_segments c) ->
       imgs.*1 = diff_names (arg c)) /\
    (~ all_match (cross_check (arg c)) (old_segments c) (new_segments c) -> imgs = []).
Proof.
  intros E c. apply create_diff_Done in E as (l & (imgs & Ha & Hw & ->)%diff_images_asked & Hs).
  exists imgs. split_and!; [done..| |]; by apply asked_names.
Qed.

(** C18 Drawing a matched pair frames a rectangle of the size of the new segment, inside
    the old image when the segment is not empty, and then paints red exactly the pixels of
    it where the old image differs from the new segment; every other pixel is as the frame
    left it. *)
Theorem pair_marks_differences `{!MatLaws CV, !RectLaws CV, !DiffLaws CV}
    (og oc nc m m' : Mat) (x : ImageSegment) :
  images_ready og oc nc -> placed nc x -> canvas og m -> draw_pair og oc nc x m = inr m' ->
  exists rect framed, (0 < width (area x) -> 0 < height (area x) -> rect_in oc rect) /\
    width rect = width (area x) /\ height rect = height (area x) /\
    rectangle m rect (CV_RGB 255 0 0) 1 = inr framed /\
    forall y x0, at_Vec3b m' y x0 =
      if decide ((0 <= y - ry rect < height rect /\ 0 <= x0 - rx rect < width rect) /\
                 at_Vec3b oc y x0 <> at_Vec3b nc (y - ry rect + ry (area x)) (x0 - rx rect + rx (area x)))
      then Some (mkVec3b 0 0 255) else at_Vec3b framed y x0.
Proof.
  intros Hi Hx Hm E. destruct (draw_pair_Done _ _ _ _ _ _ Hi Hx Hm E)
    as (_ & rect & _ & framed & Ro & Ew & Eh & Ef & _ & Hmk).
  exists rect, framed. split_and!; [done..|]. intros y x0. rewrite Hmk.
  apply decide_ext. unfold differ. by rewrite elem_of_offsets.
Qed.

(** C16 [create_diff_image] never reads or writes outside an image, a list or a missing
    file, and its loops end, when the color images match the gray ones, the segments lie
    in the new image, both files are there, and no new segment with a descriptor is empty
    or greater than the old image: it ends normally or by an exception of OpenCV. *)
Theorem diff_memory_safe `{!MatLaws CV, !RectLaws CV, !DiffLaws CV, !ThrowLaws CV, !MatchLaws CV}
    (s : St) :
  let c := ctx s in
  images_ready (old_gray_mat c) (old_color_mat c) (new_color_mat c) ->
  Forall (placed (new_color_mat c)) (new_segments c) -> (forall d, is_Some (the_file d c)) ->
  Forall (fun x => mat_empty (descriptor x) = false -> searchable (old_gray_mat c) x) (new_segments c) ->
  match create_diff_image s with
  | Done _ _ => True
  | Stopped e _ => exists what, e = Uncaught what
  end.
Proof.
  intros c Hi Hn Hf Hfit. destruct (create_diff_image s) as [u s'|e s'] eqn:E; [done|].
  apply create_diff_Stopped in E. pose proof (throws_diff_images c Hi Hn Hf) as H.
  unfold c in H. rewrite E in H. destruct H as [H|[_ H]]; [exact H|exfalso].
  apply Exists_exists in H as (x & Hx & Hd & Hns). rewrite Forall_forall in Hfit.
  by apply Hns, Hfit.
Qed.

(** C17 A part greater than the old image is never drawn: [matchTemplate] is asked for a
    part it does not accept, and when OpenCV answers nevertheless, [create_diff_image]
    reads the old image outside its bounds.  Whatever OpenCV answers, drawing such a pair
    does not return: it is an exception of OpenCV or undefined behaviour. *)
Theorem oversized_part_undefined
    `{!MatLaws CV, !RectLaws CV, !DiffLaws CV, !ThrowLaws CV} (og oc nc m : Mat) (x : ImageSegment) :
  images_ready og oc nc -> placed nc x -> canvas og m ->
  0 < width (area x) -> 0 < height (area x) ->
  rows og < height (area x) \/ cols og < width (area x) ->
  exists e, draw_pair og oc nc x m = inl e /\
    ((exists what, e = Uncaught what) \/ e = UndefinedBehaviour) /\
    (forall ret p framed, matchTemplate og (roi x) TM_SQDIFF = inr ret -> minMaxLoc ret = inr p ->
       rectangle m (rect_from x p) (CV_RGB 255 0 0) 1 = inr framed -> e = UndefinedBehaviour).
Proof.
  intros Hi Hx Hm Hw Hh Hbig.
  assert (~ searchable og x) as Hn.
  { destruct Hx as (_ & Rr & Rc). unfold searchable, template_fits. lia. }
  pose proof (draw_pair_throws og oc nc x m Hi Hx Hm) as Ht.
  pose proof (draw_pair_misfit og oc nc x m Hi Hx Hm Hw Hh Hn) as Hd.
  destruct (draw_pair og oc nc x m) as [e|m'] eqn:E; [|by destruct (Hd m')].
  exists e. split; [done|]. split; [destruct Ht as [?|[? _]]; auto|].
  intros ret p framed E1 E2 E3. unfold draw_pair in E. rewrite E1 in E; cbn in E.
  rewrite E2 in E; cbn in E. rewrite E3 in E; cbn in E. by eapply mark_differences_inl.
Qed.

(** C37 Because the marks are lost, a run with the change images that asks for its images
    frames every segment as deleted in the one and as added in the other, those that were
    matched included; each of the three images is written if [imwrite] can write it. *)
Theorem change_images_frame_all (s s' : St) :
  let c := ctx s in
  create_change_image (arg c) = true ->
  all_match (cross_check (arg c)) (old_segments c) (new_segments c) ->
  (forall d, Forall (fun x => matched x = false) (segments d c)) ->
  create_diff_image s = Done tt s' ->
  exists r del add fo fn od nd,
    s' ≈ set_wld (add_images (saved [(output_name (arg c) +:+ "_diff.png", r);
                                     (output_name (arg c) +:+ "_delete.png", del);
                                     (output_name (arg c) +:+ "_add.png", add)])) s /\
    old_file c = Some fo /\ decode_from_mapped_file fo IMREAD_COLOR = inr od /\
    frame_all od (old_segments c) = inr del /\
    new_file c = Some fn /\ decode_from_mapped_file fn IMREAD_COLOR = inr nd /\
    frame_all nd (new_segments c) = inr add.
Proof.
  intros c Hc Hall Hm E. apply create_diff_Done in E as (l & (imgs & Ha & _ & ->)%diff_images_asked & Hs).
  destruct Ha as (m & o & _ & Eo%diff_loops_some & H). destruct (proj2 Eo Hall) as [r ->].
  fold c in H. rewrite Hc in H.
  destruct H as (del & add & (fo & od & F1 & D1 & N1) & (fn & nd & F2 & D2 & N2) & ->).
  rewrite draw_not_matched_all in N1 by apply (Hm Old).
  rewrite draw_not_matched_all in N2 by apply (Hm New).
  by exists r, del, add, fo, fn, od, nd.
Qed.
End Properties.

(** ** Witnesses *)

(** The example with its segments detected: one in each image. *)
Definition example_ready : St (CV := GridCv) :=
  match detect_segments (os := example_fs) example_loaded with
  | Done _ s => s
  | Stopped _ s => s
  end.

(** [all_match], decided. *)
Definition all_match_b `{CV : OpenCV} (cross : bool) (olds news : list ImageSegment) : bool :=
  forallb (fun x1 => usable x1 &&
    forallb (fun x2 => match pair_matches cross x1 x2 with inr b => b | inl _ => false end) news) olds.

Lemma all_match_b_spec `{CV : OpenCV} cross olds news :
  all_match_b cross olds news = true -> all_match cross olds news.
Proof.
  unfold all_match_b, all_match. rewrite forallb_forall, Forall_forall. intros H x1 Hx1.
  apply list_elem_of_In, H, andb_prop in Hx1 as [Hu Hn]. split; [done|].
  rewrite forallb_forall in Hn. apply Forall_forall. intros x2 Hx2%list_elem_of_In%Hn.
  by destruct (pair_matches cross x1 x2) as [|[]].
Qed.

Lemma example_all_match :
  all_match false (old_segments (ctx example_ready)) (new_segments (ctx example_ready)).
Proof. apply all_match_b_spec. vm_compute. reflexivity. Qed.

Lemma example_diff_runs :
  exists s', create_diff_image (os := example_fs) example_ready = Done tt s'.
Proof.
  destruct (run_check_Done (create_diff_image (os := example_fs) example_ready)
              (fun _ s => bool_decide ((w_images (wld s)).*1 = ["out_diff.png"; "out_delete.png"; "out_add.png"])))
    as ([] & s' & E & _); [vm_compute; reflexivity|].
  exists s'. exact E.
Qed.

Lemma diff_written_iff_all_match_witness :
  exists s' imgs, create_diff_image (os := example_fs) example_ready = Done tt s' /\
    s' ≈ set_wld (add_images (saved imgs)) example_ready /\
    imgs.*1 = diff_names (arg (ctx example_ready)).
Proof.
  destruct example_diff_runs as [s' E].
  destruct (diff_written_iff_all_match (os := example_fs) example_ready s' E)
    as (imgs & _ & _ & Hs & Hall & _).
  exists s', imgs. split; [exact E|]. split; [exact Hs|]. apply Hall. exact example_all_match.
Defined.

Lemma example_unmatched d :
  Forall (fun x => matched x = false) (segments d (ctx example_ready)).
Proof.
  apply Forall_forall. intros x Hx.
  assert (forallb (fun x => negb (matched x)) (segments d (ctx example_ready)) = true) as H
    by (destruct d; vm_compute; reflexivity).
  rewrite forallb_forall in H. apply list_elem_of_In, H in Hx. by destruct (matched x).
Qed.

Lemma change_images_frame_all_witness :
  exists s' r del add, create_diff_image (os := example_fs) example_ready = Done tt s' /\
    s' ≈ set_wld (add_images [("out_diff.png", r); ("out_delete.png", del); ("out_add.png", add)])
           example_ready.
Proof.
  destruct example_diff_runs as [s' E].
  destruct (change_images_frame_all (os := example_fs) example_ready s')
    as (r & del & add & fo & fn & od & nd & Hs & _);
    [vm_compute; reflexivity|exact example_all_match|exact example_unmatched|exact E|].
  exists s', r, del, add. split; [exact E|exact Hs].
Defined.

(** Two color images that differ at (1, 2), and a segment around it. *)
Definition color_a : Grid := grid_of CV_8UC3 3 4 [0; 0; 0; 0; 0; 7; 8; 0; 0; 0; 0; 0].
Definition color_b : Grid := grid_of CV_8UC3 3 4 [0; 0; 0; 0; 0; 7; 9; 0; 0; 0; 0; 0].
Definition gray_of (m : Grid) : Grid := grid_map CV_8UC1 id m.
Definition roi_of (m : Grid) (r : Rect) : Grid :=
  match grid_roi (gray_of m) r with inr g => g | inl _ => grid_nil end.
Definition segment_of (m : Grid) (r : Rect) : ImageSegment (CV := GridCv) :=
  mkImageSegment r (roi_of m r) (roi_of m r) false.

Lemma pair_marks_differences_witness :
  exists m', draw_pair (CV := GridCv) (gray_of color_a) color_a color_b
               (segment_of color_b (mkRect 1 1 2 1)) color_a = inr m' /\
    exists rect framed, rect_in (CV := GridCv) color_a rect /\
      width rect = 2 /\ height rect = 1 /\
      rectangle (OpenCV := GridCv) color_a rect (CV_RGB 255 0 0) 1 = inr framed.
Proof.
  assert (exists m', draw_pair (CV := GridCv) (gray_of color_a) color_a color_b
            (segment_of color_b (mkRect 1 1 2 1)) color_a = inr m') as [m' E]
    by (eexists; vm_compute; reflexivity).
  exists m'. split; [exact E|].
  destruct (pair_marks_differences (CV := GridCv) (gray_of color_a) color_a color_b color_a m'
              (segment_of color_b (mkRect 1 1 2 1))) as (rect & framed & H1 & H2 & H3 & H4 & _).
  - split; reflexivity.
  - split; [unfold rect_in; cbn; lia|split; reflexivity].
  - split_and!; reflexivity.
  - exact E.
  - exists rect, framed. split_and!; [apply H1; reflexivity|exact H2|exact H3|exact H4].
Defined.

(** An old image smaller than the new segment: OpenCV looks for the image in the part. *)
Definition small_old : Grid := grid_of CV_8UC3 2 2 [7; 0; 0; 0].

Lemma oversized_part_undefined_witness :
  draw_pair (CV := GridCv) (gray_of small_old) small_old color_a
    (segment_of color_a (mkRect 1 1 3 2)) small_old = inl UndefinedBehaviour.
Proof.
  destruct (oversized_part_undefined (CV := GridCv) (gray_of small_old) small_old color_a small_old
              (segment_of color_a (mkRect 1 1 3 2))) as (e & E & _ & Hu).
  - split; reflexivity.
  - split; [unfold rect_in; cbn; lia|split; reflexivity].
  - split_and!; reflexivity.
  - reflexivity.
  - reflexivity.
  - right. reflexivity.
  - rewrite E. f_equal. eapply Hu; [reflexivity|reflexivity|reflexivity].
Defined.

Lemma diff_memory_safe_witness :
  match create_diff_image (os := example_fs) example_ready with
  | Done _ _ => True
  | Stopped e _ => exists what, e = Uncaught what
  end.
Proof.
  apply (diff_memory_safe (os := example_fs) example_ready).
  - split; vm_compute; reflexivity.
  - apply Forall_forall. intros x Hx.
    assert (forallb (fun x => bool_decide (placed (new_color_mat (ctx example_ready)) x))
              (new_segments (ctx example_ready)) = true) as H by (vm_compute; reflexivity).
    rewrite forallb_forall in H. apply list_elem_of_In, H in Hx. by apply bool_decide_eq_true in Hx.
  - intros []; vm_compute; eexists; reflexivity.
  - apply Forall_forall. intros x Hx _.
    assert (forallb (fun x => bool_decide (searchable (old_gray_mat (ctx example_ready)) x))
              (new_segments (ctx example_ready)) = true) as H by (vm_compute; reflexivity).
    rewrite forallb_forall in H. apply list_elem_of_In, H in Hx. by apply bool_decide_eq_true in Hx.
Defined.
