(* ===== verification/Main.v ===== *)
(** The whole program: [main] (main.cc) in the default build, from the command line to
    the exit status, and the theorems that hold of a complete run. *)

From S2P Require Import Prelude StdLib Cv CvGrid Perf PerfForest State Timed Report Grouping.
From S2P Require Import ExampleOs Cmdline CmdlineSpec MappedFiles Histogram Segments Matcher Diff.

(** ** The code *)

#[export] Instance default_build : Build := {| ENABLE_PARALLEL := false |}.

Section Code.
Context `{CV : OpenCV} {os : OS} {SS : StdSort}.

(** [delete ctx.<side>_file] *)
Definition file_dtor (d : Side) : M unit :=
  f ← gets (the_file d);
  match f with Some mf => MappedFile_dtor mf | None => mret tt end.

(** [Context::~Context]: the files, in reverse order of declaration. *)
Definition Context_dtor : M unit := _ ← file_dtor Old; file_dtor New.

(** [ctx.cmdline_args.emplace_back(argv[i])] *)
Definition push_arg (a : string) : M unit :=
  l ← gets cmdline_args;
  modify (set_cmdline_args (l ++ [a])).

(** After [load_image]: the verdict, then the images. *)
Definition compare_images : M unit :=
  diff_check ← check_histogram_differential;
  match diff_check with
  | inr err => Fatal err
  | inl true => Fatal "two images are same"
  | inl false => _ ← detect_segments; create_diff_image
  end.

(** From [parse_args] to the end of [main]; [t_all] is the outermost timer. *)
Definition main_rest (t_all : nat) : M Z :=
  _ ← parse_args;
  _ ← load_image;
  _ ← compare_images;
  _ ← Timer_stop t_all;
  p ← gets (fun c => perf (arg c));
  _ ← (if p : bool then print_timer_records else mret tt);
  mret 0.

(** The block of [t_all]. *)
Definition main_block (argv : list string) : M Z :=
  with_timer "all" None (fun t_all => _ ← for_each_M argv push_arg; main_rest t_all).

Definition main (argv : list string) : M Z :=
  code ← main_block argv;
  _ ← Context_dtor;
  mret code.

(** A run of the process. *)
Definition run_main (argv : list string) : Res Z := main argv (mkSt Context_ctor World_init).
End Code.

(** ** What OpenCV's decoder and gray conversion promise *)

Class LoadLaws (CV : OpenCV) : Prop := {
  imdecode_color n b m :
    imdecode n b IMREAD_COLOR = inr m -> mat_empty m = false -> mtype m = CV_8UC3;
  cvtColor_gray m g :
    cvtColor m COLOR_BGR2GRAY = inr g ->
    rows g = rows m /\ cols g = cols m /\ mtype g = CV_8UC1
}.

#[export] Instance GridLoad : LoadLaws GridCv.
Proof.
  split; cbn.
  - intros n b m [= <-]. unfold grid_decode. destruct (take _ _) as [|r [|c l]]; done.
  - intros m g. unfold cv_assert. destruct (negb _); [|done]. by intros [= <-].
Qed.

(** ** The phases *)

Section Phases.
Context `{CV : OpenCV} {os : OS} {SS : StdSort} {SL : StdSortLaws SS}.

Abbreviation records s := (timer_records (ctx s)).

Lemma push_args_run s argv :
  for_each_M argv push_arg s = Done tt (set_cmdline_args (cmdline_args (ctx s) ++ argv) s).
Proof.
  revert s. induction argv as [|a argv IH]; intros s; cbn [for_each_M].
  - rewrite app_nil_r. by destruct s as [[] ?].
  - rewrite (bind_Done_eq _ _ s tt (set_cmdline_args (cmdline_args (ctx s) ++ [a]) s)) by done.
    rewrite IH. cbn. by rewrite <- app_assoc.
Qed.

#[export] Instance timed_push_arg n a : TimedFrom n (push_arg a).
Proof. unfold push_arg. timed. Qed.
#[export] Instance timed_compare n : TimedFrom n compare_images.
Proof. unfold compare_images. timed. Qed.

(** The state the files are loaded in. *)
Definition started (argv : list string) : St :=
  set_cmdline_args argv (after_ctor "all" None (mkSt Context_ctor World_init)).

Lemma started_eq argv t :
  (_ ← for_each_M argv push_arg; main_rest t) (after_ctor "all" None (mkSt Context_ctor World_init)) =
  main_rest t (started argv).
Proof. by rewrite (bind_Done_eq _ _ _ _ _ (push_args_run _ argv)). Qed.

Lemma started_reachable argv : timers_reachable (records (started argv)).
Proof.
  exact (steps_reachable _ _ reach_none
           (steps_ctor "all" None (mkSt Context_ctor World_init) ltac:(done))).
Qed.

(** A stop after the arguments were stored is the block's. *)
Lemma main_block_Stopped argv e s' :
  main_rest 0 (started argv) = Stopped e s' ->
  main_block argv (mkSt Context_ctor World_init) = Stopped e s'.
Proof.
  rewrite <- (started_eq argv). intros E. unfold main_block.
  set (body := fun t : nat => (_ ← for_each_M argv push_arg; main_rest t)).
  apply (with_timer_Stopped "all" None body (mkSt Context_ctor World_init) e s'). exact E.
Qed.

(** A step of [main] that only steps the timers keeps them reachable. *)
Lemma timed_reachable {A} n (m : M A) `{!TimedFrom n m} s a s' :
  timers_reachable (records s) -> (n <= length (records s))%nat -> m s = Done a s' ->
  timers_reachable (records s') /\ (length (records s) <= length (records s'))%nat.
Proof.
  intros R Hn E. pose proof (timed_from s a s' Hn E) as H.
  split; [by eapply steps_reachable|by apply steps_length].
Qed.

(** After the command line, in either build: the files can be loaded. *)
Lemma before_load_started {build : Build} argv s :
  parse_args (started argv) = Done tt s ->
  before_load s /\ w_maps (wld s) = ∅ /\ w_fds (wld s) = ∅ /\
  (forall d, segments d (ctx s) = []) /\ w_images (wld s) = [].
Proof.
  intros (ts & a & _ & _ & _ & Hn & Ho & Hs)%parse_args_state.
  destruct (finish_args_files a) as [En Eo].
  split_and!.
  - split.
    + eapply fresh_proper; [symmetry; exact Hs|]. apply fresh_ids_init.
    + intros d. rewrite (the_file_proper d _ _ Hs). by destruct d.
    + intros d. rewrite (arg_proper _ _ Hs). destruct d; cbn; congruence.
  - exact (f_equal w_maps (same_wld _ _ Hs)).
  - exact (f_equal w_fds (same_wld _ _ Hs)).
  - intros d. rewrite (segments_proper d _ _ Hs). by destruct d.
  - by rewrite (images_proper _ _ Hs).
Qed.
(** What holds once both images are loaded. *)
Record images_loaded (s : St) : Prop := {
  il_loaded d : loaded d s;
  il_fds : w_fds (wld s) = ∅;
  il_maps a : a ∈ dom (w_maps (wld s)) ->
    exists d mf b, the_file d (ctx s) = Some mf /\ mf_data mf = Some (a, b);
  il_segments d : segments d (ctx s) = []
}.

Lemma loaded_started argv s1 s2 :
  parse_args (started argv) = Done tt s1 -> load_image s1 = Done tt s2 -> images_loaded s2.
Proof.
  intros (Hb & Hm & Hf & Hg & _)%before_load_started El.
  destruct (load_image_Done _ _ Hb El) as (L & _ & Ef & Eg & Eo & _). split.
  - done.
  - congruence.
  - intros a [Ha|H]%Eo; [|done]. rewrite Hm, dom_empty in Ha. by apply elem_of_empty in Ha.
  - intros d. by rewrite Eg.
Qed.

(** The matrices of a loaded side. *)
Lemma loaded_mats `{!HistLaws CV, !LoadLaws CV, !ShapeLaws CV} d s :
  loaded d s ->
  mtype (color_mat d (ctx s)) = CV_8UC3 /\ mtype (gray_mat d (ctx s)) = CV_8UC1 /\
  rows (gray_mat d (ctx s)) = rows (color_mat d (ctx s)) /\
  cols (gray_mat d (ctx s)) = cols (color_mat d (ctx s)) /\
  0 < rows (gray_mat d (ctx s)) /\ 0 < cols (gray_mat d (ctx s)).
Proof.
  intros (mf & st & bytes & _ & _ & Hd & Hg).
  destruct (mat_empty (color_mat d (ctx s))) eqn:He.
  { destruct (cvtColor_empty _ COLOR_BGR2GRAY He) as [e E]. congruence. }
  pose proof (imdecode_color _ _ _ Hd He) as Ht.
  pose proof (cvtColor_gray _ _ Hg) as (Er & Ec & Tg).
  assert (~ (rows (color_mat d (ctx s)) <= 0 \/ cols (color_mat d (ctx s)) <= 0)) as Hne
    by (rewrite <- mat_empty_spec; congruence).
  split_and!; [done|done|done|done|lia|lia].
Qed.

(** What the drawing needs of the state. *)
Record drawing_ready (c : Context) : Prop := {
  wr_images : images_ready (old_gray_mat c) (old_color_mat c) (new_color_mat c);
  wr_placed : Forall (placed (new_color_mat c)) (new_segments c);
  wr_files d : is_Some (the_file d c);
  wr_solid : Forall (fun x => mat_empty (descriptor x) = false ->
                       0 < height (area x) /\ 0 < width (area x)) (new_segments c);
  wr_unmatched d : Forall (fun x => matched x = false) (segments d c)
}.

(** A part of the new image with a descriptor that is higher or wider than the old image. *)
Definition greater (og : Mat) (x : ImageSegment) : Prop :=
  mat_empty (descriptor x) = false /\ (rows og < height (area x) \/ cols og < width (area x)).

(** The images of a command line: some part detected in the new one is greater than the
    old one. *)
Definition oversized_input {build : Build} (argv : list string) : Prop :=
  exists s1 s2 l, parse_args (started argv) = Done tt s1 /\ arg (ctx s2) = arg (ctx s1) /\
    (forall d, loaded d s2) /\
    detected (new_gray_mat (ctx s2)) (new_color_mat (ctx s2)) (bin_threshold (arg (ctx s2))) = inr l /\
    Exists (greater (old_gray_mat (ctx s2))) l.

(** The causes of undefined behaviour. *)
Definition undefined_input {build : Build} (argv : list string) : Prop :=
  Spec.empty_argument argv \/ oversized_input argv.

(** A segment that cannot be looked for is one of these. *)
Lemma misfit_greater c :
  drawing_ready c -> Exists (misfit (old_gray_mat c)) (new_segments c) ->
  Exists (greater (old_gray_mat c)) (new_segments c).
Proof.
  intros [_ Hp _ Hs _] H. apply Exists_exists in H as (x & Hx & Hd & Hn). apply Exists_exists.
  exists x. split; [done|]. split; [done|]. rewrite Forall_forall in Hp, Hs.
  destruct (Hp x Hx) as (_ & Rr & Rc), (Hs x Hx Hd). unfold searchable, template_fits in Hn. lia.
Qed.

(** Detection on loaded images leaves it. *)
Lemma lists_ready `{!MatLaws CV, !RectLaws CV, !HistLaws CV, !LoadLaws CV, !ShapeLaws CV} s s' o n :
  (forall d, loaded d s) ->
  (forall d, detected (gray_mat d (ctx s)) (color_mat d (ctx s)) (bin_threshold (arg (ctx s))) =
             inr (segments d (ctx s'))) ->
  s' ≈ set_both o n s -> drawing_ready (ctx s').
Proof.
  intros HL Hd Hs.
  assert (forall d, Forall (segment_ok (gray_mat d (ctx s))) (segments d (ctx s'))) as Hok.
  { intros d. destruct (loaded_mats d s (HL d)) as (_ & _ & _ & _ & Hr & Hc).
    by destruct (detected_ok _ _ _ _ (Z.lt_le_incl _ _ Hr) (Z.lt_le_incl _ _ Hc) (Hd d)). }
  assert (forall d, the_file d (ctx s') = the_file d (ctx s)) as Hfile
    by (intros d; rewrite (the_file_proper d _ _ Hs); by destruct d).
  assert (forall d, color_mat d (ctx s') = color_mat d (ctx s) /\
                    gray_mat d (ctx s') = gray_mat d (ctx s)) as Hmat
    by (intros d; rewrite (color_mat_proper d _ _ Hs), (gray_mat_proper d _ _ Hs); by destruct d).
  destruct (loaded_mats Old s (HL Old)) as (To & Tgo & Ero & Eco & _).
  destruct (loaded_mats New s (HL New)) as (Tn & _ & Ern & Ecn & _).
  destruct (Hmat Old) as [Eo1 Eo2], (Hmat New) as [En1 En2]. cbn in *. split.
  - split; congruence.
  - rewrite En1. eapply Forall_impl; [exact (Hok New)|]. cbn.
    intros x [(? & ? & ? & ? & ? & ?) _ Hr Hc _ _]. unfold placed, rect_in.
    rewrite <- Ern, <- Ecn. split_and!; done || lia.
  - intros d. rewrite Hfile. destruct (HL d) as (mf & ? & ? & -> & _). by eexists.
  - eapply Forall_impl; [exact (Hok New)|]. cbn. intros x [Hfit _ Hr Hc _ (o' & Ho & Ed)] Hne.
    destruct (mat_empty (roi x)) eqn:He.
    + unfold compute_descriptor in Ho. rewrite He in Ho. injection Ho as <-.
      cbn in Ed. rewrite Ed, mat_empty_ctor in Hne. done.
    + assert (~ (rows (roi x) <= 0 \/ cols (roi x) <= 0)) by (rewrite <- mat_empty_spec; congruence). lia.
  - intros d. eapply Forall_impl; [exact (Hok d)|]. by intros x [].
Qed.

Lemma detected_ready `{!MatLaws CV, !RectLaws CV, !HistLaws CV, !LoadLaws CV, !ShapeLaws CV} s s' :
  (forall d, loaded d s) -> (forall d, segments d (ctx s) = []) -> detect_segments s = Done tt s' ->
  drawing_ready (ctx s').
Proof.
  intros HL Hg E. destruct (detect_Done s s' Old Hg E) as (_ & o & n & Hs).
  apply (lists_ready s s' o n); [done| |done]. intros d. by destruct (detect_Done s s' d Hg E).
Qed.

(** A state before the drawing: both files are loaded, and the segments of each side are
    the parts detected in its image. *)
Record prepared (s : St) : Prop := {
  pr_loaded d : loaded d s;
  pr_parts d : detected (gray_mat d (ctx s)) (color_mat d (ctx s)) (bin_threshold (arg (ctx s))) =
               inr (segments d (ctx s))
}.

Lemma lists_prepared s s' o n :
  (forall d, loaded d s) ->
  (forall d, detected (gray_mat d (ctx s)) (color_mat d (ctx s)) (bin_threshold (arg (ctx s))) =
             inr (segments d (ctx s'))) ->
  s' ≈ set_both o n s -> prepared s'.
Proof.
  intros HL Hd Hs. split; intros d.
  - rewrite Hs. specialize (HL d). by destruct d.
  - rewrite (gray_mat_proper d _ _ Hs), (color_mat_proper d _ _ Hs), (arg_proper _ _ Hs).
    specialize (Hd d). by destruct d.
Qed.

(** The comparison returns only along one path. *)
Lemma compare_Done s s' :
  compare_images s = Done tt s' ->
  exists s1 s2, check_histogram_differential s = Done (inl false) s1 /\ s1 ≈ s /\
    detect_segments s1 = Done tt s2 /\ create_diff_image s2 = Done tt s'.
Proof.
  unfold compare_images. intros (r & s1 & E1 & E2)%bind_Done.
  assert (s1 ≈ s) as Hs.
  { destruct (reads_check 0 s s) as (sx & Hsx & _ & E); [done|lia|]. rewrite E1 in E.
    destruct (histogram_check _ _); [done|]. by injection E as _ ->. }
  destruct r as [[]|err]; rewrite ?Fatal_spec in E2; [done| |done].
  apply bind_Done in E2 as ([] & s2 & ? & ?). by exists s1, s2.
Qed.

Section Safety.
Context {ML : MatLaws CV} {RL : RectLaws CV} {SH : ShapeLaws CV} {DL : DiffLaws CV}
  {TL : ThrowLaws CV} {MA : MatchLaws CV} {CL : ContourLaws CV} {HL : HistLaws CV}
  {LL : LoadLaws CV}.

Lemma safe_detect s :
  (forall d, loaded d s) -> (forall d, segments d (ctx s) = []) -> safe (detect_segments s).
Proof.
  intros Hl Hg. eapply (safe_ends 0); [by apply ends_detect| |lia].
  destruct (loaded_mats Old s (Hl Old)) as (_ & _ & _ & _ & ? & ?).
  destruct (loaded_mats New s (Hl New)) as (_ & _ & _ & _ & ? & ?). cbn in *.
  apply throws_bind; [|done]. unfold detected_both.
  apply throws_bind; [apply throws_detected; lia|intros o _].
  apply throws_bind; [apply throws_detected; lia|done].
Qed.

Lemma safe_compare (U : Prop) s :
  images_loaded s ->
  (forall l, detected (new_gray_mat (ctx s)) (new_color_mat (ctx s)) (bin_threshold (arg (ctx s))) = inr l ->
     Exists (greater (old_gray_mat (ctx s))) l -> U) ->
  safe_unless U (compare_images s).
Proof.
  intros [Hl _ _ Hg] HU. apply safe_unless_bind.
  { apply safe_is_safe_unless.
    eapply (safe_reads 0); [apply reads_check|apply throws_histogram_check|lia]. }
  intros r s1 E. assert (s1 ≈ s) as Hs.
  { destruct (reads_check 0 s s) as (sx & Hsx & _ & E'); [done|lia|]. rewrite E in E'.
    destruct (histogram_check _ _); [done|]. by injection E' as _ ->. }
  destruct r as [[]|err]; [apply safe_is_safe_unless, safe_Fatal| |apply safe_is_safe_unless, safe_Fatal].
  assert (forall d, loaded d s1) as Hl1 by (intros d; by rewrite Hs).
  assert (forall d, segments d (ctx s1) = []) as Hg1
    by (intros d; by rewrite (segments_proper d _ _ Hs)).
  apply safe_unless_bind; [by apply safe_is_safe_unless, safe_detect|]. intros [] s2 Ed.
  pose proof (detected_ready s1 s2 Hl1 Hg1 Ed) as Hr.
  destruct (create_diff_image s2) as [a s3|e s3] eqn:Ec; [done|].
  apply create_diff_Stopped in Ec.
  pose proof (throws_diff_images (ctx s2) (wr_images _ Hr) (wr_placed _ Hr) (wr_files _ Hr)) as H.
  rewrite Ec in H. destruct H as [[what ->]|[-> Hm%misfit_greater]]; [by left|right|done].
  split; [done|]. destruct (detect_Done s1 s2 New Hg1 Ed) as (Hd & o & n & Hs2). cbn in Hd.
  rewrite (new_gray_proper _ _ Hs), (new_color_proper _ _ Hs),
    (arg_field_proper bin_threshold _ _ Hs) in Hd.
  apply (HU _ Hd). rewrite (old_gray_proper _ _ Hs2) in Hm. cbn in Hm.
  by rewrite (old_gray_proper _ _ Hs) in Hm.
Qed.

Lemma safe_main_rest argv : safe_unless (undefined_input argv) (main_rest 0 (started argv)).
Proof.
  pose proof (started_reachable argv) as R0.
  apply safe_unless_bind.
  { pose proof (safe_parse_args (started argv)) as H. destruct (parse_args _) as [|e s]; [done|].
    destruct H as [?|[? H]]; [by left|right]. split; [done|]. by left. }
  intros [] s1 E1.
  destruct (timed_reachable 0 parse_args _ _ _ R0 ltac:(lia) E1) as [R1 L1].
  apply safe_unless_bind; [apply safe_is_safe_unless, safe_load_image|intros [] s2 E2].
  destruct (timed_reachable 0 load_image _ _ _ R1 ltac:(lia) E2) as [R2 L2].
  pose proof (loaded_started argv s1 s2 E1 E2) as Hl.
  apply safe_unless_bind.
  { apply safe_compare; [done|]. intros l Hd Hg. right. exists s1, s2, l.
    destruct (before_load_started argv s1 E1) as (Hb & _).
    destruct (load_image_Done _ _ Hb E2) as (? & ? & _). by split_and!. }
  intros [] s3 E3.
  destruct (timed_reachable 0 compare_images _ _ _ R2 ltac:(lia) E3) as [R3 L3].
  assert (0 < length (records s3))%nat as Hlen.
  { pose proof (after_ctor_length "all" None (mkSt Context_ctor World_init)) as H.
    change (length (records (started argv)) = 1%nat) in H. lia. }
  apply safe_unless_bind.
  { destruct (record_stop_eq 0 s3 Hlen) as (s4 & E & _). unfold Timer_stop. by rewrite E. }
  intros [] s4 E4. destruct (timed_reachable 0 (Timer_stop 0) _ _ _ R3 ltac:(lia) E4) as [R4 L4].
  apply safe_unless_bind; [done|intros p s5 [= _ <-]].
  destruct p; apply safe_unless_bind; try done.
  destruct (print_run s4 R4) as (s6 & text & E & _). by rewrite E.
Qed.
End Safety.

(** What the comparison changes: the segments and the images written. *)
Lemma compare_frame s s' :
  (forall d, loaded d s) -> (forall d, segments d (ctx s) = []) -> compare_images s = Done tt s' ->
  exists s2 l, prepared s2 /\ diff_images (ctx s2) = inr l /\ arg (ctx s2) = arg (ctx s) /\
    exists o n, s' ≈ set_wld (add_images l) (set_both o n s).
Proof.
  intros HL Hg (s1 & s2 & _ & Hs1 & Ed & Ec)%compare_Done.
  assert (forall d, segments d (ctx s1) = []) as Hg1
    by (intros d; by rewrite (segments_proper d _ _ Hs1)).
  destruct (detect_Done s1 s2 New Hg1 Ed) as (_ & o & n & Hs2).
  assert (prepared s2) as Hp2.
  { apply (lists_prepared s1 s2 o n); [intros d; by rewrite Hs1| |done].
    intros d. by destruct (detect_Done s1 s2 d Hg1 Ed). }
  assert (arg (ctx s2) = arg (ctx s)) as Ea
    by (rewrite (arg_proper _ _ Hs2); exact (arg_proper _ _ Hs1)).
  apply create_diff_Done in Ec as (l & El & Hs').
  exists s2, l. split_and!; [done..|]. exists o, n. rewrite Hs'.
  unfold same_but_time, set_both in *.
  change (set_wld (add_images l) (forget_time s2) =
          set_wld (add_images l) (set_segments New n (set_segments Old o (forget_time s)))).
  rewrite Hs2.
  change (set_wld (add_images l) (set_segments New n (set_segments Old o (forget_time s1))) =
          set_wld (add_images l) (set_segments New n (set_segments Old o (forget_time s)))).
  by rewrite Hs1.
Qed.

Lemma records_started argv : length (records (started argv)) = 1%nat.
Proof. exact (after_ctor_length "all" None (mkSt Context_ctor World_init)). Qed.

(** The timers of the phases of [main]. *)
Definition phase_names : list string :=
  ["all"; "parse args"; "load image"; "check histogram differential"; "detect segments";
   "create diff image"].

(** The report of a run that ends in these records. *)
Definition run_report (p : bool) (ts : timers) (text : string) : Prop :=
  if p then is_report ts text /\ phase_names ⊆ (name <$> ts) else text = "".

(** Records stay, with their names. *)
Lemma timed_names {A} n (m : M A) `{!TimedFrom n m} s a s' nm :
  (n <= length (records s))%nat -> m s = Done a s' ->
  nm ∈ (name <$> records s) -> nm ∈ (name <$> records s').
Proof.
  intros Hn E H. pose proof (steps_names _ _ (timed_from s a s' Hn E)) as [k ->].
  apply elem_of_app. by left.
Qed.

Lemma timed_names_0 {A} (m : M A) `{!TimedFrom 0 m} s a s' nm :
  m s = Done a s' -> nm ∈ (name <$> records s) -> nm ∈ (name <$> records s').
Proof. intros E. apply (timed_names 0 m s a s'); [lia|done]. Qed.

(** A block leaves its timer. *)
Lemma with_timer_named {A} nm (body : nat -> M A) s a s' :
  (forall t, TimedFrom (S t) (body t)) -> with_timer nm None body s = Done a s' ->
  nm ∈ (name <$> records s').
Proof.
  intros T (s2 & E & E2)%with_timer_inv_stop.
  apply (timed_names 0 (record_stop (length (records s))) s2 tt); [lia|done|].
  apply (timed_names _ (body (length (records s))) (after_ctor nm None s) a);
    [by rewrite after_ctor_length|done|].
  change (nm ∈ name <$> TimerRecord_new (now_nsec (clock_gettime (w_clock (wld s))))
                         (get_usage (getrusage (w_usage (wld s)))) nm None (records s)).
  rewrite names_new. apply elem_of_app. right. by left.
Qed.

Lemma compare_names s s' :
  compare_images s = Done tt s' ->
  ["check histogram differential"; "detect segments"; "create diff image"] ⊆ (name <$> records s').
Proof.
  intros (s1 & s2 & E1 & _ & E2 & E3)%compare_Done.
  apply with_timer_named in E1; [|intros; timed].
  apply (timed_names_0 _ _ _ _ _ E2), (timed_names_0 _ _ _ _ _ E3) in E1.
  pose proof E2 as H2.
  apply with_timer_named in H2; [|intros t; timed; apply timed_do_detect; lia].
  apply (timed_names_0 _ _ _ _ _ E3) in H2.
  pose proof E3 as H3. apply with_timer_named in H3; [|unfold change_image; timed].
  intros nm. rewrite !elem_of_cons. by intros [-> |[-> |[-> |?%elem_of_nil]]].
Qed.

(** The returning runs of [main], phase by phase. *)
Lemma main_rest_Done argv code s' :
  main_rest 0 (started argv) = Done code s' ->
  code = 0 /\ exists s1 s2 s3 text,
    parse_args (started argv) = Done tt s1 /\ load_image s1 = Done tt s2 /\
    compare_images s2 = Done tt s3 /\ s' ≈ set_wld (write_out text) s3 /\
    run_report (perf (arg (ctx s3))) (records s') text /\
    (perf (arg (ctx s3)) = true -> all_stopped (records s')) /\
    (0 < length (records s'))%nat.
Proof.
  intros ([] & s1 & E1 & E)%bind_Done.
  destruct (timed_reachable 0 parse_args _ _ _ (started_reachable argv) ltac:(lia) E1) as [R1 L1].
  apply bind_Done in E as ([] & s2 & E2 & E).
  destruct (timed_reachable 0 load_image _ _ _ R1 ltac:(lia) E2) as [R2 L2].
  apply bind_Done in E as ([] & s3 & E3 & E).
  destruct (timed_reachable 0 compare_images _ _ _ R2 ltac:(lia) E3) as [R3 L3].
  apply bind_Done in E as ([] & s4 & E4 & E).
  destruct (timed_reachable 0 (Timer_stop 0) _ _ _ R3 ltac:(lia) E4) as [R4 L4].
  assert (phase_names ⊆ (name <$> records s4)) as Hnames.
  { intros nm Hnm. apply (timed_names_0 _ _ _ _ _ E4). unfold phase_names in Hnm.
    assert ("all" ∈ (name <$> records (started argv))) as H0 by by left.
    apply (timed_names_0 _ _ _ _ _ E1), (timed_names_0 _ _ _ _ _ E2),
      (timed_names_0 _ _ _ _ _ E3) in H0.
    pose proof E1 as H1. apply with_timer_named in H1; [|intros; timed].
    apply (timed_names_0 _ _ _ _ _ E2), (timed_names_0 _ _ _ _ _ E3) in H1.
    pose proof E2 as H2. apply with_timer_named in H2; [|intros; timed].
    apply (timed_names_0 _ _ _ _ _ E3) in H2.
    apply elem_of_cons in Hnm as [-> |Hnm]; [done|]. apply elem_of_cons in Hnm as [-> |Hnm]; [done|].
    apply elem_of_cons in Hnm as [-> |Hnm]; [done|]. by apply (compare_names _ _ E3). }
  apply record_stop_same in E4. rewrite records_started in L1.
  apply bind_Done in E as (p & ? & [= Hp <-] & E).
  apply bind_Done in E as ([] & s5 & E5 & [= <- <-]). split; [done|].
  rewrite (arg_field_proper perf _ _ E4) in Hp. exists s1, s2, s3. rewrite Hp. destruct p.
  - destruct (print_run s4 R4) as (s6 & text & E6 & Hs6 & Hrep & Hst & Hn).
    rewrite E5 in E6. injection E6 as ->. exists text.
    assert (length (records s6) = length (records s4)) as Hlen
      by (rewrite <- (length_fmap name), Hn; apply length_fmap).
    split_and!; [done..| | | |lia].
    + rewrite Hs6. unfold same_but_time in *.
      change (set_wld (write_out text) (forget_time s4) = set_wld (write_out text) (forget_time s3)).
      by rewrite E4.
    + split; [done|]. by rewrite Hn.
    + done.
  - injection E5 as <-. exists "". split_and!; [done..| |done|done|lia].
    rewrite E4. pose proof (write_lines s3 []) as E. injection E as E. by rewrite <- E.
Qed.

Lemma run_main_Done argv code s' :
  run_main argv = Done code s' ->
  code = 0 /\ exists s0 s5, main_rest 0 (started argv) = Done 0 s0 /\ s5 ≈ s0 /\
    (all_stopped (records s0) -> records s5 = records s0) /\ Context_dtor s5 = Done tt s'.
Proof.
  unfold run_main, main, main_block. intros (c & s5 & E & E')%bind_Done.
  apply bind_Done in E' as ([] & s6 & E6 & [= -> ->]).
  apply with_timer_inv_stop in E as (s0 & E & Hs5). rewrite (started_eq argv) in E.
  destruct (main_rest_Done argv code s0 E) as (-> & _).
  split; [done|]. exists s0, s5. split_and!; [done| | |done].
  - by eapply record_stop_same.
  - intros Hst. by eapply stop_stopped.
Qed.
End Phases.

(** ** Releasing the files *)

Section Release.
Context `{CV : OpenCV} {os : OS} {SS : StdSort} {SL : StdSortLaws SS}.

(** The mapping of a side's file. *)
Definition mapping_of (d : Side) (s : St) (a : nat) : Prop :=
  exists mf b, the_file d (ctx s) = Some mf /\ mf_data mf = Some (a, b) /\ mf_size mf <> 0.

Lemma file_dtor_run d s :
  exists s', file_dtor d s = Done tt s' /\ ctx s' = ctx s /\ w_fds (wld s') = w_fds (wld s) /\
    w_images (wld s') = w_images (wld s) /\ w_out (wld s') = w_out (wld s) /\
    forall a, a ∈ dom (w_maps (wld s')) -> a ∈ dom (w_maps (wld s)) /\ ~ mapping_of d s a.
Proof.
  unfold file_dtor, mapping_of. rewrite (bind_Done_eq _ _ s (the_file d (ctx s)) s) by done.
  destruct (the_file d (ctx s)) as [mf|]; [|exists s; split_and!; naive_solver].
  unfold MappedFile_dtor. case_decide as Hsz; [exists s; split_and!; naive_solver|].
  destruct (mf_data mf) as [[x b]|] eqn:Hd; [|exists s; split_and!; naive_solver].
  eexists. split_and!; [done..|]. intros a. cbn. rewrite dom_delete_L, elem_of_difference.
  intros [Ha Hx]. split; [done|]. intros (mf' & b' & [= <-] & Hd' & _).
  rewrite Hd in Hd'. injection Hd' as <- <-. apply Hx. by apply elem_of_singleton.
Qed.

Lemma Context_dtor_run s :
  exists s', Context_dtor s = Done tt s' /\ ctx s' = ctx s /\ w_fds (wld s') = w_fds (wld s) /\
    w_images (wld s') = w_images (wld s) /\ w_out (wld s') = w_out (wld s) /\
    forall a, a ∈ dom (w_maps (wld s')) ->
      a ∈ dom (w_maps (wld s)) /\ forall d, ~ mapping_of d s a.
Proof.
  destruct (file_dtor_run Old s) as (s1 & E1 & C1 & F1 & I1 & O1 & M1).
  destruct (file_dtor_run New s1) as (s2 & E2 & C2 & F2 & I2 & O2 & M2).
  exists s2. unfold Context_dtor. rewrite (bind_Done_eq _ _ _ _ _ E1).
  split_and!; [done|congruence..|].
  intros a Ha. destruct (M2 a Ha) as [Ha1 N2]. destruct (M1 a Ha1) as [Ha0 N1].
  split; [done|]. intros []; [|done]. unfold mapping_of in *. by rewrite C1 in N2.
Qed.

(** A loaded file with a mapping is not empty. *)
Lemma loaded_mapping d s mf a b :
  loaded d s -> the_file d (ctx s) = Some mf -> mf_data mf = Some (a, b) -> mapping_of d s a.
Proof.
  intros (mf' & st & bytes & Hf' & F & _) Hf Hd. rewrite Hf in Hf'. injection Hf' as <-.
  exists mf, b. split_and!; [done..|].
  destruct (fo_at _ _ _ _ _ F) as (f & _ & _ & [[? _]|[_ Hb]]);
    rewrite (fo_size _ _ _ _ _ F); [lia|].
  pose proof (fo_bytes _ _ _ _ _ F) as Hby. by rewrite Hd, Hb in Hby.
Qed.

(** A complete run, from loaded files to the end. *)
Lemma run_main_phases argv code s' :
  run_main argv = Done code s' ->
  code = 0 /\ exists s1 s2 s3, parse_args (started argv) = Done tt s1 /\ images_loaded s2 /\
    load_image s1 = Done tt s2 /\ compare_images s2 = Done tt s3 /\
    w_fds (wld s') = w_fds (wld s3) /\ w_images (wld s') = w_images (wld s3) /\
    arg (ctx s') = arg (ctx s3) /\
    (forall a, a ∈ dom (w_maps (wld s')) ->
       a ∈ dom (w_maps (wld s3)) /\ forall d, ~ mapping_of d s3 a) /\
    exists text, w_out (wld s') = w_out (wld s3) +:+ text /\
      run_report (perf (arg (ctx s'))) (timer_records (ctx s')) text.
Proof.
  intros (-> & s0 & s5 & E0 & Hs5 & Hre & Ed)%run_main_Done. split; [done|].
  destruct (main_rest_Done _ _ _ E0) as (_ & s1 & s2 & s3 & text & E1 & E2 & E3 & H0 & Hp & Hst & _).
  exists s1, s2, s3. destruct (Context_dtor_run s5) as (s6 & E6 & C6 & F6 & I6 & O6 & M6).
  rewrite Ed in E6. injection E6 as <-.
  assert (s5 ≈ set_wld (write_out text) s3) as H5 by (by rewrite Hs5).
  pose proof (same_wld _ _ H5) as W5. split_and!; [done|by eapply loaded_started|done|done| | | | |].
  - rewrite F6. exact (f_equal w_fds W5).
  - rewrite I6. exact (f_equal w_images W5).
  - rewrite C6. exact (arg_proper _ _ H5).
  - intros a [Ha Hn]%M6. rewrite (f_equal w_maps W5 : w_maps (wld s5) = w_maps (wld s3)) in Ha.
    split; [done|]. intros d Hd. apply (Hn d). unfold mapping_of in *.
    by rewrite (the_file_proper d _ _ H5).
  - exists text. split; [rewrite O6; exact (f_equal w_out W5)|].
    rewrite C6, (arg_field_proper perf _ _ H5). cbn [ctx set_wld]. unfold run_report in *.
    destruct (perf (arg (ctx s3))); [by rewrite Hre by auto|done].
Qed.
End Release.

(** ** Properties *)

Section Properties.
Context `{CV : OpenCV} {os : OS} {SS : StdSort} {SL : StdSortLaws SS}.

(** C1 The whole program is well behaved on every command line and every file system but
    for two inputs: it terminates, and it ends by returning 0, by an exit with status 0 or
    1, or by an uncaught exception, unless the command line has an empty argument where an
    option is expected, or the new image has a part with a descriptor that is higher or
    wider than the old image.  Only then can it read outside an object; otherwise no access
    outside an image, a list, a contour hierarchy or a missing file happens on the way, and
    no loop ever runs out of its bound. *)
Theorem main_well_behaved
    `{!MatLaws CV, !RectLaws CV, !ShapeLaws CV, !DiffLaws CV, !ThrowLaws CV, !MatchLaws CV,
      !ContourLaws CV, !HistLaws CV, !LoadLaws CV} (argv : list string) :
  match run_main argv with
  | Done code _ => code = 0
  | Stopped e _ =>
      tame e \/ e = UndefinedBehaviour /\ (Spec.empty_argument argv \/ oversized_input argv)
  end.
Proof.
  assert (safe_unless (undefined_input argv) (run_main argv)) as H.
  { unfold run_main, main. apply safe_unless_bind.
    - unfold main_block. pose proof (safe_main_rest argv) as Hs.
      destruct (main_rest 0 (started argv)) as [c s|e s] eqn:E.
      + destruct (main_rest_Done _ _ _ E) as (_ & _ & _ & _ & _ & _ & _ & _ & _ & _ & _ & Hl).
        rewrite <- (started_eq argv) in E.
        destruct (with_timer_Done "all" None (fun t => _ ← for_each_M argv push_arg; main_rest t)
                    (mkSt Context_ctor World_init) c s E Hl) as (s5 & -> & _). done.
      + fold (main_block argv). by rewrite (main_block_Stopped argv e s E).
    - intros c s _. destruct (Context_dtor_run s) as (s6 & E & _).
      by rewrite (bind_Done_eq _ _ _ _ _ E). }
  destruct (run_main argv) as [code s|e s] eqn:E; [|exact H]. by destruct (run_main_Done _ _ _ E).
Qed.

(** C15 A run that returns releases everything it acquired: no descriptor is open and no
    mapping is live when the process ends. *)
Theorem main_releases (argv : list string) (code : Z) (s' : St) :
  run_main argv = Done code s' -> w_fds (wld s') = ∅ /\ w_maps (wld s') = ∅.
Proof.
  intros (_ & s1 & s2 & s3 & _ & [Hl Hf Hm Hg] & _ & Ec & F & _ & _ & M & _)%run_main_phases.
  destruct (compare_frame s2 s3 Hl Hg Ec) as (_ & l & _ & _ & _ & o & n & Hs3).
  pose proof (same_wld _ _ Hs3) as W3.
  assert (w_maps (wld s3) = w_maps (wld s2)) as Em by exact (f_equal w_maps W3).
  split; [rewrite F; etrans; [exact (f_equal w_fds W3)|exact Hf]|].
  apply dom_empty_inv_L, set_eq. intros a. split; [|by intros ?%elem_of_empty].
  intros [Ha Hn]%M. rewrite Em in Ha.
  destruct (Hm a Ha) as (d & mf & b & Ef & Ed). exfalso. apply (Hn d).
  pose proof (loaded_mapping d s2 mf a b (Hl d) Ef Ed) as Hmap. unfold mapping_of in *.
  rewrite (the_file_proper d _ _ Hs3). by destruct d.
Qed.

(** C7 A run that returns asks [imwrite] for all of its images or for none: when both
    files are loaded and every part detected in the old image matches every part detected
    in the new one, for the difference image that the loops draw on these parts, with the
    two change images on request; otherwise for nothing.  No call throws, the files
    are those [imwrite] says it wrote, and whatever it says, the exit status is 0. *)
Theorem main_all_or_nothing (argv : list string) (code : Z) (s' : St) :
  run_main argv = Done code s' ->
  code = 0 /\ exists s imgs, let c := ctx s in
    arg c = arg (ctx s') /\ (forall d, loaded d s) /\
    (forall d, detected (gray_mat d c) (color_mat d c) (bin_threshold (arg c)) = inr (segments d c)) /\
    asked c imgs /\ answered imgs /\ w_images (wld s') = saved imgs /\
    (all_match (cross_check (arg c)) (old_segments c) (new_segments c) ->
       imgs.*1 = diff_names (arg c)) /\
    (~ all_match (cross_check (arg c)) (old_segments c) (new_segments c) -> imgs = []).
Proof.
  intros (-> & s1 & s2 & s3 & E1 & [Hl _ _ Hg] & E2 & Ec & _ & I & A & _)%run_main_phases.
  split; [done|]. rewrite I, A.
  destruct (compare_frame s2 s3 Hl Hg Ec) as (s5 & l & [HL HP] & El & Ea & o & n & Hs3).
  destruct (before_load_started argv s1 E1) as (Hb & _ & _ & _ & I1).
  destruct (load_image_Done s1 s2 Hb E2) as (_ & _ & _ & _ & _ & I2 & _).
  rewrite (images_proper _ _ Hs3). cbn. rewrite I2, I1. cbn [app].
  rewrite (arg_proper _ _ Hs3). cbn. rewrite <- Ea.
  destruct (diff_images_asked _ _ El) as (imgs & Ha & Hw & ->). exists s5, imgs. cbv zeta.
  split_and!; [done..| |]; by apply asked_names.
Qed.


(** A stop in a phase is the program's. *)
Lemma run_main_Stopped argv e s' :
  main_rest 0 (started argv) = Stopped e s' -> run_main argv = Stopped e s'.
Proof. intros E. apply bind_Stopped_eq. by apply main_block_Stopped. Qed.

(** [-h] or [--help] as the first argument prints the usage on the standard output and
    exits with status 0, whatever follows, before any file is opened. *)
Theorem main_help (prog h : string) (rest : list string) :
  h = "-h" \/ h = "--help" ->
  exists s', run_main (prog :: h :: rest) = Stopped (Exited 0) s' /\
    w_out (wld s') = "Usage: " +:+ prog +:+ " [options]" +:+ newline +:+ help_msg /\
    w_err (wld s') = "" /\ w_next_fd (wld s') = 0%nat /\ w_images (wld s') = [].
Proof.
  intros Hh. set (argv := prog :: h :: rest).
  assert (exists s', parse_args (started argv) = Stopped (Exited 0) s' /\
            w_out (wld s') = "Usage: " +:+ prog +:+ " [options]" +:+ newline +:+ help_msg /\
            w_err (wld s') = "" /\ w_next_fd (wld s') = 0%nat /\ w_images (wld s') = [])
    as (s' & E & H).
  { eexists. split.
    - apply (with_timer_Stopped "parse args" None (fun _ => parse_body)).
      rewrite parse_body_eq. unfold Spec.run, Spec.run_on.
      assert (Spec.lex (drop 1 argv) = ([], Spec.Help)) as E by (by destruct Hh as [-> | ->]).
      change (cmdline_args (ctx (after_ctor _ _ (started argv)))) with argv. rewrite E.
      reflexivity.
    - split_and!; reflexivity. }
  exists s'. split; [|exact H]. apply run_main_Stopped. by apply bind_Stopped_eq.
Qed.

(** An empty argument where an option is expected, after well-formed options, is
    undefined behaviour: the loop reads its first character, which does not exist. *)
Theorem main_empty_argument (argv : list string) (ts : list Spec.Token) (a : Args) :
  Spec.lex (drop 1 argv) = (ts, Spec.Empty) -> Spec.set_tokens ts default_args = (a, None) ->
  exists s', run_main argv = Stopped UndefinedBehaviour s' /\ arg (ctx s') = a /\
    w_next_fd (wld s') = 0%nat.
Proof.
  intros El Es.
  assert (exists s', parse_args (started argv) = Stopped UndefinedBehaviour s' /\
            arg (ctx s') = a /\ w_next_fd (wld s') = 0%nat) as (s' & E & H).
  { eexists. split.
    - apply (with_timer_Stopped "parse args" None (fun _ => parse_body)).
      rewrite parse_body_eq. unfold Spec.run, Spec.run_on.
      change (cmdline_args (ctx (after_ctor _ _ (started argv)))) with argv.
      change (arg (ctx (after_ctor _ _ (started argv)))) with default_args.
      rewrite El, Es. reflexivity.
    - by split. }
  exists s'. split; [|exact H]. apply run_main_Stopped. by apply bind_Stopped_eq.
Qed.

(** C34 Comparing a readable image with itself is refused: the program reports that the
    two images are the same on the standard error, exits with status 1 and writes no
    image. *)
Theorem same_file_rejected `{!HistLaws CV} (prog f : string) st bytes color gray h :
  f <> "" -> file_at f st bytes -> decodes st bytes color gray -> mat_empty color = false ->
  histogram color = inr h ->
  exists s', run_main [prog; "-new"; f; "-old"; f] = Stopped (Exited 1) s' /\
    w_err (wld s') = "gazo-san: fatal: two images are same" +:+ newline /\
    w_images (wld s') = [].
Proof.
  intros Hf Hat Hdec Hne Hh. set (argv := [prog; "-new"; f; "-old"; f]).
  set (a := with_old_file f (with_new_file f default_args)).
  destruct (with_timer_run "parse args" None
              (fun _ => modify (set_arg (fun _ => finish_args a))) (started argv) tt
              (set_arg (fun _ => finish_args a) (after_ctor "parse args" None (started argv))))
    as (s1 & E1 & Hs1); [timed|done|].
  assert (parse_args (started argv) = Done tt s1) as P1.
  { apply parse_args_Done. exists [Spec.Value Spec.New f; Spec.Value Spec.Old f], a.
    split_and!; [done|by repeat constructor|done|done|done|exact E1]. }
  destruct (before_load_started argv s1 P1) as (Hb & _ & _ & _ & I1).
  assert (forall d, arg_file d (arg (ctx s1)) = f) as Hargs.
  { intros d. rewrite (arg_proper _ _ Hs1). cbn. destruct (finish_args_files a). by destruct d. }
  destruct (load_image_run s1 Hb) as [s2 E2].
  { intros d. rewrite Hargs. by exists st, bytes, color, gray. }
  destruct (load_image_Done s1 s2 Hb E2) as (L & Ea & _ & _ & _ & I2 & _ & Er2).
  assert (forall d, color_mat d (ctx s2) = color) as Hcol.
  { intros d. destruct (L d) as (mf & st' & bytes' & _ & F & [D _]). apply fo_at in F.
    rewrite Ea, Hargs in F. destruct (file_at_det _ _ _ _ _ Hat F) as [-> ->].
    destruct Hdec as [Hd _]. congruence. }
  destruct (same_images_run s2 color h (Hcol Old) (Hcol New) Hne Hh) as (s3 & Hs3 & E3).
  eexists. split.
  - apply run_main_Stopped. unfold main_rest. rewrite (bind_Done_eq _ _ _ _ _ P1).
    rewrite (bind_Done_eq _ _ _ _ _ E2). apply bind_Stopped_eq. unfold compare_images.
    rewrite (bind_Done_eq _ _ _ _ _ E3). apply Fatal_spec.
  - assert (color_diagnostics (arg (ctx s3)) = false) as ->.
    { rewrite (arg_field_proper color_diagnostics _ _ Hs3), Ea, (arg_field_proper color_diagnostics _ _ Hs1).
      done. }
    split.
    + cbn. rewrite (err_proper _ _ Hs3), Er2, (err_proper _ _ Hs1). done.
    + cbn. by rewrite (images_proper _ _ Hs3), I2, I1.
Qed.
End Properties.

(** ** Witnesses *)

Definition example_argv : list string :=
  ["gazosan"; "-new"; "new.png"; "-old"; "old.png"; "-threshold"; "5"; "-o"; "out"; "-perf"].

Lemma example_run :
  exists s', run_main (os := example_fs) (CV := GridCv) example_argv = Done 0 s' /\
    perf (arg (ctx s')) = true.
Proof.
  destruct (run_check_Done (run_main (os := example_fs) (CV := GridCv) example_argv)
              (fun c s => (c =? 0) && perf (arg (ctx s)) &&
                          bool_decide ((w_images (wld s)).*1 = ["out_diff.png"])))
    as (c & s' & E & H); [vm_compute; reflexivity|].
  apply andb_prop in H as [[Hc Hp]%andb_prop _]. apply Z.eqb_eq in Hc. subst c.
  exists s'. exact (conj E Hp).
Qed.

Lemma main_well_behaved_witness :
  exists code s', run_main (os := example_fs) (CV := GridCv) example_argv = Done code s' /\ code = 0.
Proof.
  pose proof (main_well_behaved (os := example_fs) (CV := GridCv) example_argv) as H.
  destruct example_run as (s' & E & _). rewrite E in H. exists 0, s'. split; [exact E|exact H].
Defined.

Lemma main_empty_argument_witness :
  exists s', run_main (os := example_fs) (CV := GridCv) ["gazosan"; "-new"; "new.png"; ""; "-perf"] =
               Stopped UndefinedBehaviour s' /\
    arg_new_file (arg (ctx s')) = "new.png".
Proof.
  destruct (main_empty_argument (os := example_fs) (CV := GridCv)
              ["gazosan"; "-new"; "new.png"; ""; "-perf"] [Spec.Value Spec.New "new.png"]
              (with_new_file "new.png" default_args)) as (s' & E & Ha & _);
    [reflexivity|reflexivity|].
  exists s'. split; [exact E|]. by rewrite Ha.
Defined.

Lemma main_releases_witness :
  exists s', run_main (os := example_fs) (CV := GridCv) example_argv = Done 0 s' /\
    w_fds (wld s') = ∅ /\ w_maps (wld s') = ∅.
Proof.
  destruct example_run as (s' & E & _). exists s'. split; [exact E|].
  exact (main_releases (os := example_fs) (CV := GridCv) example_argv 0 s' E).
Defined.

Lemma main_all_or_nothing_witness :
  exists s', run_main (os := example_fs) (CV := GridCv) example_argv = Done 0 s' /\
    exists s imgs, asked (ctx s) imgs /\ w_images (wld s') = saved imgs.
Proof.
  destruct example_run as (s' & E & _). exists s'. split; [exact E|].
  destruct (main_all_or_nothing (os := example_fs) (CV := GridCv) example_argv 0 s' E)
    as (_ & s & imgs & _ & _ & _ & H1 & _ & H2 & _). exists s, imgs. exact (conj H1 H2).
Defined.


Lemma main_help_witness :
  exists s', run_main (os := example_fs) (CV := GridCv) ["gazosan"; "--help"; "-new"] =
               Stopped (Exited 0) s' /\
    w_next_fd (wld s') = 0%nat.
Proof.
  destruct (main_help (os := example_fs) (CV := GridCv) "gazosan" "--help" ["-new"])
    as (s' & E & _ & _ & H & _); [right; reflexivity|].
  exists s'. exact (conj E H).
Defined.

Lemma same_file_rejected_witness :
  exists s', run_main (os := example_fs) (CV := GridCv)
               ["gazosan"; "-new"; "old.png"; "-old"; "old.png"] = Stopped (Exited 1) s' /\
    w_images (wld s') = [].
Proof.
  edestruct (same_file_rejected (os := example_fs) (CV := GridCv) "gazosan" "old.png")
    as (s' & E & _ & H).
  - discriminate.
  - exists 0%nat. split_and!; [reflexivity|reflexivity|]. left. split; [reflexivity|].
    eexists. split; [reflexivity|reflexivity].
  - split; [reflexivity|reflexivity].
  - vm_compute. reflexivity.
  - reflexivity.
  - exists s'. exact (conj E H).
Defined.
