(* ===== verification/Tasks.v ===== *)
(** Tasks that fork and join, for the TBB build.

    [tbb::task_group] and [tbb::parallel_for_each] start tasks and wait for all of them:
    a {Task} is finished, or about to make one access to the shared state, or waiting
    for the tasks it forked.  A schedule picks, at each step, a task that can move; a
    task that stops the process, or throws, ends the whole.  [ends] says that every
    schedule ends, and how; [rg] is a rely-guarantee logic for the forked tasks. *)

From S2P Require Import Prelude.

(** ** Tasks *)

Section Tasks.
Context {Mem : Type}.

(** The result of an access: a value and the new state, or the end of the process. *)
Inductive Out (A : Type) :=
  | Next (a : A) (s : Mem)
  | Halt (why : Stop) (s : Mem).
#[global] Arguments Next {A}.
#[global] Arguments Halt {A}.

Inductive Task :=
  | Finished
  | Act (f : Mem -> Out Task)
  | Fork (l : list Task) (k : Task).

(** An access [m], then the rest of the task. *)
Definition act {A} (m : Mem -> Out A) (k : A -> Task) : Task :=
  Act (fun s => match m s with Next a s' => Next (k a) s' | Halt e s' => Halt e s' end).

Definition finished (t : Task) : bool := match t with Finished => true | _ => false end.

(** One step: the path leads from fork to fork to the task that moves; at a fork itself
    the step is the end of the wait. *)
Fixpoint exec (p : list nat) (t : Task) (s : Mem) : option (Out Task) :=
  match t, p with
  | Finished, _ => None
  | Act f, [] => Some (f s)
  | Act _, _ :: _ => None
  | Fork l k, [] => if forallb finished l then Some (Next k s) else None
  | Fork l k, i :: p =>
      t ← l !! i;
      o ← exec p t s;
      Some (match o with
            | Next t' s' => Next (Fork (<[i := t']> l) k) s'
            | Halt e s' => Halt e s'
            end)
  end.

(** A run with a given schedule; it ends at the first stop. *)
Fixpoint run_tasks (sched : list (list nat)) (t : Task) (s : Mem) : option (Out Task) :=
  match sched with
  | [] => Some (Next t s)
  | p :: sched =>
      o ← exec p t s;
      match o with
      | Next t' s' => run_tasks sched t' s'
      | Halt e s' => match sched with [] => Some (Halt e s') | _ => None end
      end
  end.

(** Every schedule from [(t, s)] ends: with all tasks finished, in a state in [Q], or
    by a stop in [E]; meanwhile some task can always move. *)
Inductive ends_in (E : Stop -> Prop) (Q : Mem -> Prop) : Task -> Mem -> Prop :=
  | ends_in_intro t s :
      (t = Finished -> Q s) ->
      (t <> Finished -> exists p o, exec p t s = Some o) ->
      (forall p t' s', exec p t s = Some (Next t' s') -> ends_in E Q t' s') ->
      (forall p e s', exec p t s = Some (Halt e s') -> E e) ->
      ends_in E Q t s.

(** *** A schedule *)

(** The first task, in the order of the forks, that is not finished. *)
Fixpoint pick (t : Task) : list nat :=
  match t with
  | Fork l _ =>
      (fix go (i : nat) (l : list Task) : list nat :=
         match l with
         | [] => []
         | t :: l => if finished t then go (S i) l else i :: pick t
         end) 0%nat l
  | _ => []
  end.

(** The schedule that runs the tasks one after the other, up to [n] steps. *)
Fixpoint in_order (n : nat) (t : Task) (s : Mem) : list (list nat) :=
  match n with
  | O => []
  | S n =>
      match exec (pick t) t s with
      | Some (Next t' s') => pick t :: in_order n t' s'
      | Some (Halt _ _) => [pick t]
      | None => []
      end
  end.

(** A schedule leads to the end of all tasks, in a state that passes [f]. *)
Definition finishes (f : Mem -> bool) (sched : list (list nat)) (t : Task) (s : Mem) : bool :=
  match run_tasks sched t s with
  | Some (Next Finished s') => f s'
  | _ => false
  end.

Lemma finishes_run f sched t s :
  finishes f sched t s = true ->
  exists s', run_tasks sched t s = Some (Next Finished s') /\ f s' = true.
Proof.
  unfold finishes. destruct (run_tasks sched t s) as [[[| |] s'|]|]; try done. by exists s'.
Qed.

(** *** Induction on tasks *)

Lemma Task_nested_ind (P : Task -> Prop) :
  P Finished ->
  (forall f, (forall s t s', f s = Next t s' -> P t) -> P (Act f)) ->
  (forall l k, Forall P l -> P k -> P (Fork l k)) ->
  forall t, P t.
Proof.
  intros HF HA HK. fix IH 1. intros [|f|l k].
  - exact HF.
  - apply HA. intros s t s' E. destruct (f s) as [t' s1|e s1]; [|discriminate E].
    injection E as <- _. apply IH.
  - apply HK; [|apply IH]. induction l as [|t l IHl]; constructor; [apply IH|exact IHl].
Qed.

(** A task that is not finished can always move, or its forked tasks can. *)
Lemma task_progress t s : t <> Finished -> exists p o, exec p t s = Some o.
Proof.
  revert s. induction t as [|f _|l k Hl _] using Task_nested_ind; intros s Ht; [done| |].
  - exists []. cbn. eauto.
  - destruct (forallb finished l) eqn:E; [exists []; cbn; rewrite E; eauto|].
    assert (exists i t, l !! i = Some t /\ t <> Finished) as (i & t & Hi & Hne).
    { clear Hl Ht. induction l as [|t l IH]; [done|]. cbn in E.
      destruct t; [|by exists 0%nat, (Act f)|by exists 0%nat, (Fork l0 t)].
      destruct (IH E) as (i & t & ? & ?). by exists (S i), t. }
    rewrite Forall_lookup in Hl. destruct (Hl i t Hi s Hne) as (p & o & Ho).
    exists (i :: p). cbn. rewrite Hi; cbn. rewrite Ho; cbn. eauto.
Qed.

(** *** Every schedule is finite *)

Definition successor (t' t : Task) : Prop :=
  exists p s s', exec p t s = Some (Next t' s').

(** One of the tasks of a list moves. *)
Definition list_successor (l' l : list Task) : Prop :=
  exists i t t', l !! i = Some t /\ l' = <[i := t']> l /\ successor t' t.

Lemma list_successor_acc l : Forall (Acc successor) l -> Acc list_successor l.
Proof.
  induction 1 as [|t l Ht _ IH].
  - constructor. intros l' (i & t & t' & H & _). done.
  - revert t Ht. induction IH as [l _ IHl]. intros t Ht. induction Ht as [t Ht IHt].
    constructor. intros l' ([|i] & u & u' & Hu & -> & Hs); cbn in *.
    + injection Hu as ->. by apply IHt.
    + apply IHl; [by exists i, u, u'|]. constructor. exact Ht.
Qed.

Lemma successor_wf : well_founded successor.
Proof.
  intros t. induction t as [|f IH|l k Hl Hk] using Task_nested_ind; [constructor..|].
  - by intros t' ([|] & s & s' & E).
  - intros t' ([|] & s & s' & E); cbn in E; [|done]. injection E as E. by eapply IH.
  - apply list_successor_acc in Hl. induction Hl as [l _ IHl]. constructor.
    intros t' ([|i p] & s & s' & E); cbn in E.
    + destruct (forallb finished l); [|done]. by injection E as <- _.
    + apply bind_Some in E as (t & Hi & E). apply bind_Some in E as ([u s1|e s1] & Eo & E);
        [|done]. injection E as <- <-. apply IHl. exists i, t, u. split_and!; [done..|].
      by exists p, s, s1.
Qed.
End Tasks.
#[global] Arguments Out : clear implicits.
#[global] Arguments Task : clear implicits.

(** ** Rely and guarantee

    [rg R G Q t s]: from [s] on, if the other tasks only make changes in [R], then [t]
    only makes changes in [G], stops only for a reason in [E], and leaves a state in
    [Q].  All changes made during a fork are in [J].  Forked tasks are independent when
    what one guarantees the others rely on. *)

Section Logic.
Context {Mem : Type} (E : Stop -> Prop).

Inductive rg : relation Mem -> relation Mem -> (Mem -> Prop) -> Task Mem -> Mem -> Prop :=
  | rg_finished (R G : relation Mem) Q s :
      (forall s', R s s' -> Q s') -> rg R G Q Finished s
  | rg_act (R G : relation Mem) Q f s :
      (forall s' t s'', R s s' -> f s' = Next t s'' -> G s' s'') ->
      (forall s' t s'', R s s' -> f s' = Next t s'' -> rg R G Q t s'') ->
      (forall s' e s'', R s s' -> f s' = Halt e s'' -> E e) ->
      rg R G Q (Act f) s
  | rg_fork (R G : relation Mem) Q l k s (J : relation Mem) (Rs Gs : nat -> relation Mem)
      (Qs : nat -> Mem -> Prop) :
      PreOrder J -> (forall i, PreOrder (Rs i)) -> (forall i, Reflexive (Gs i)) ->
      (forall s1 s2, R s1 s2 -> J s1 s2) -> (forall i s1 s2, Gs i s1 s2 -> J s1 s2) ->
      (forall i s1 s2, R s1 s2 -> Rs i s1 s2) ->
      (forall i j s1 s2, (i < length l)%nat -> (j < length l)%nat -> i <> j ->
         Gs i s1 s2 -> Rs j s1 s2) ->
      (forall i s1 s2, Gs i s1 s2 -> G s1 s2) ->
      (forall i t, l !! i = Some t -> rg (Rs i) (Gs i) (Qs i) t s) ->
      (forall s', J s s' -> (forall i, (i < length l)%nat -> Qs i s') -> rg R G Q k s') ->
      rg R G Q (Fork l k) s.

(** Changes of the others do no harm. *)
Lemma rg_stable R G Q t s s' : PreOrder R -> rg R G Q t s -> R s s' -> rg R G Q t s'.
Proof.
  intros HR H. revert s' HR.
  induction H as [R G Q s HQ|R G Q f s HG HN IH HE
                 |R G Q l k s J Rs Gs Qs HJ HRs HGs HRJ HGJ H1 H2 H3 Hl IHl Hk IHk]; intros s' HR Hs.
  - constructor. intros s1 H1. apply HQ. by etrans.
  - constructor; intros s1 x s2 H1.
    + apply HG. by etrans.
    + apply HN. by etrans.
    + apply HE. by etrans.
  - apply (rg_fork R G Q l k s' J Rs Gs Qs); try done.
    + intros i t Ht. by apply IHl, H1.
    + intros s1 H. apply Hk. etrans; [by apply HRJ|done].
Qed.

Lemma rg_finished_inv R G Q s : PreOrder R -> rg R G Q Finished s -> Q s.
Proof. intros HR H. inversion H as [? ? ? ? HQ| |]; subst. by apply HQ. Qed.

Lemma all_finished (l : list (Task Mem)) i t :
  forallb finished l = true -> l !! i = Some t -> t = Finished.
Proof.
  rewrite forallb_forall. intros Hl Ht.
  assert (finished t = true) as Hf by (apply Hl, list_elem_of_In; by eapply list_elem_of_lookup_2).
  by destruct t.
Qed.

Lemma rg_step R G Q t s p o :
  PreOrder R -> Reflexive G -> rg R G Q t s -> exec p t s = Some o ->
  match o with Next t' s' => G s s' /\ rg R G Q t' s' | Halt e _ => E e end.
Proof.
  intros HR HG H. revert p o HR HG.
  induction H as [R G Q s HQ|R G Q f s Hg HN IH HE
                 |R G Q l k s J Rs Gs Qs HJ HRs HGs HRJ HGJ H1 H2 H3 Hl IHl Hk IHk]; intros p o HR HG Ho.
  - by destruct p.
  - destruct p; [|done]. injection Ho as Ho. destruct o as [t' s'|e s']; [|by eapply HE].
    split; [by eapply Hg|by eapply HN].
  - destruct p as [|i p]; cbn in Ho.
    + destruct (forallb finished l) eqn:Ef; [|done]. injection Ho as <-. split; [done|].
      apply Hk; [done|]. intros i Hi. apply lookup_lt_is_Some in Hi as [t Ht].
      pose proof (Hl i t Ht) as Hi. rewrite (all_finished _ _ _ Ef Ht) in Hi.
      exact (rg_finished_inv _ _ _ _ (HRs i) Hi).
    + apply bind_Some in Ho as (t & Ht & Ho). apply bind_Some in Ho as (o' & Ho' & Ho).
      injection Ho as <-. specialize (IHl i t Ht p o' _ _ Ho').
      destruct o' as [t' s'|e s']; [|done]. destruct IHl as [Hgi Ht'].
      split; [by eapply H3|]. apply (rg_fork R G Q _ _ _ J Rs Gs Qs); try done.
      * intros j1 j2 s1 s2. rewrite length_insert. apply H2.
      * intros j u Hu. destruct (decide (j = i)) as [->|Hne].
        -- rewrite list_lookup_insert_eq in Hu by (by eapply lookup_lt_Some). by injection Hu as <-.
        -- rewrite list_lookup_insert_ne in Hu by done.
           apply (rg_stable _ _ _ u s s' (HRs j)); [by apply Hl|].
           apply (H2 i); [by eapply lookup_lt_Some|by eapply lookup_lt_Some|done|done].
      * intros s1 HJ1 Hq. apply Hk; [etrans; [by eapply HGJ|done]|].
        by rewrite length_insert in Hq.
Qed.

(** *** All schedules of the whole *)

Lemma ends_in_finished (Q : Mem -> Prop) s : Q s -> ends_in E Q Finished s.
Proof. intros HQ. constructor; [intros _; exact HQ|congruence| |]; by intros []. Qed.

Lemma ends_in_act (Q : Mem -> Prop) f s :
  (forall t s', f s = Next t s' -> ends_in E Q t s') ->
  (forall e s', f s = Halt e s' -> E e) -> ends_in E Q (Act f) s.
Proof.
  intros HN HE. constructor; [done|intros Ht; by apply task_progress| |].
  - intros [|] t' s' H; [|done]. injection H as H. by apply HN.
  - intros [|] e s' H; [|done]. injection H as H. by eapply HE.
Qed.

(** Forked tasks, each good under the others, then the rest. *)
Lemma ends_in_fork (Q : Mem -> Prop) l k s (J : relation Mem) (Rs Gs : nat -> relation Mem)
    (Qs : nat -> Mem -> Prop) :
  PreOrder J -> (forall i, PreOrder (Rs i)) -> (forall i, Reflexive (Gs i)) ->
  (forall i s1 s2, Gs i s1 s2 -> J s1 s2) ->
  (forall i j s1 s2, (i < length l)%nat -> (j < length l)%nat -> i <> j ->
     Gs i s1 s2 -> Rs j s1 s2) ->
  (forall i t, l !! i = Some t -> rg (Rs i) (Gs i) (Qs i) t s) ->
  (forall s', J s s' -> (forall i, (i < length l)%nat -> Qs i s') -> ends_in E Q k s') ->
  ends_in E Q (Fork l k) s.
Proof.
  intros HJ HR HG HGJ HRG. revert s HRG.
  assert (Acc list_successor l) as Hacc
    by (apply list_successor_acc, Forall_forall; intros t _; apply successor_wf).
  induction Hacc as [l _ IH]. intros s HRG Hl Hk.
  constructor; [done|intros Ht; by apply task_progress| |].
  - intros [|i p] t' s' H; cbn in H.
    + destruct (forallb finished l) eqn:Ef; [|done]. injection H as <- <-. apply Hk; [done|].
      intros i Hi. apply lookup_lt_is_Some in Hi as [t Ht].
      pose proof (Hl i t Ht) as Hi. rewrite (all_finished _ _ _ Ef Ht) in Hi.
      exact (rg_finished_inv _ _ _ _ (HR i) Hi).
    + apply bind_Some in H as (t & Ht & H). apply bind_Some in H as ([u s1|e s1] & Ho & H); [|done].
      injection H as <- <-. destruct (rg_step _ _ _ _ _ _ _ (HR i) (HG i) (Hl i t Ht) Ho) as [Hg Hu].
      apply IH.
      * exists i, t, u. split_and!; [done..|]. by exists p, s, s1.
      * intros j1 j2 s2 s3. rewrite length_insert. apply HRG.
      * intros j v Hv. destruct (decide (j = i)) as [->|Hne].
        -- rewrite list_lookup_insert_eq in Hv by (by eapply lookup_lt_Some). by injection Hv as <-.
        -- rewrite list_lookup_insert_ne in Hv by done.
           apply (rg_stable _ _ _ v s s1 (HR j)); [by apply Hl|].
           apply (HRG i); [by eapply lookup_lt_Some|by eapply lookup_lt_Some|done|done].
      * intros s2 HJ2 Hq. apply Hk; [etrans; [by eapply HGJ|done]|].
        by rewrite length_insert in Hq.
  - intros [|i p] e s' H; cbn in H; [by destruct (forallb finished l)|].
    apply bind_Some in H as (t & Ht & H). apply bind_Some in H as ([u s1|e' s1] & Ho & H); [done|].
    injection H as -> <-. exact (rg_step _ _ _ _ _ _ _ (HR i) (HG i) (Hl i t Ht) Ho).
Qed.

(** An access: its assertion survives the others' changes, its effect is allowed. *)
Lemma rg_access {A} (R G : relation Mem) Q (P : Mem -> Prop) (P' : A -> Mem -> Prop)
    (m : Mem -> Out Mem A) k s :
  P s -> (forall s1 s2, R s1 s2 -> P s1 -> P s2) ->
  (forall s1 a s2, P s1 -> m s1 = Next a s2 -> G s1 s2 /\ P' a s2) ->
  (forall s1 e s2, P s1 -> m s1 = Halt e s2 -> E e) ->
  (forall a s2, P' a s2 -> rg R G Q (k a) s2) ->
  rg R G Q (act m k) s.
Proof.
  intros HP HR HN HE Hk. constructor.
  - intros s1 t s2 H1 H2. destruct (m s1) as [a s3|e s3] eqn:Em; [|done]. injection H2 as <- <-.
    eapply HN; [|exact Em]. by eapply HR.
  - intros s1 t s2 H1 H2. destruct (m s1) as [a s3|e s3] eqn:Em; [|done]. injection H2 as <- <-.
    apply Hk. eapply HN; [|exact Em]. by eapply HR.
  - intros s1 e s2 H1 H2. destruct (m s1) as [a s3|e' s3] eqn:Em; [done|]. injection H2 as <- <-.
    eapply HE; [|exact Em]. by eapply HR.
Qed.

Lemma ends_in_access {A} (Q : Mem -> Prop) (m : Mem -> Out Mem A) k s :
  (forall a s', m s = Next a s' -> ends_in E Q (k a) s') ->
  (forall e s', m s = Halt e s' -> E e) -> ends_in E Q (act m k) s.
Proof.
  intros HN HE. apply ends_in_act.
  - intros t s' H. destruct (m s) as [a s1|e s1]; [|done]. injection H as <- <-. by apply HN.
  - intros e s' H. destruct (m s) as [a s1|e1 s1]; [done|]. injection H as <- <-. by eapply HE.
Qed.

(** Weaker conclusions. *)
Lemma ends_in_weaken (E' : Stop -> Prop) (Q Q' : Mem -> Prop) t s :
  (forall e, E e -> E' e) -> (forall s', Q s' -> Q' s') -> ends_in E Q t s -> ends_in E' Q' t s.
Proof.
  intros HE HQ. induction 1 as [t s HF HP HN IH HH]. constructor; [auto|auto|auto|].
  intros p e s' H. eapply HE, HH, H.
Qed.

(** What [ends_in] says of a run with a given schedule. *)
Lemma ends_in_run (Q : Mem -> Prop) sched t s o :
  ends_in E Q t s -> run_tasks sched t s = Some o ->
  match o with
  | Next t' s' => ends_in E Q t' s' /\ (t' = Finished -> Q s')
  | Halt e _ => E e
  end.
Proof.
  revert t s. induction sched as [|p sched IH]; intros t s H Hr; cbn in Hr.
  - injection Hr as <-. split; [done|]. by inversion H.
  - apply bind_Some in Hr as ([t' s'|e s'] & Ho & Hr); inversion H as [? ? _ _ HN HH]; subst.
    + eapply IH; [by eapply HN|done].
    + destruct sched; [|done]. injection Hr as <-. by eapply HH.
Qed.

(** What it says of a complete run. *)
Lemma ends_in_complete (Q : Mem -> Prop) sched t s s' :
  ends_in E Q t s -> run_tasks sched t s = Some (Next Finished s') -> Q s'.
Proof. intros H Hr. by destruct (ends_in_run Q sched t s _ H Hr) as [_ HQ]; apply HQ. Qed.
End Logic.

(** More reasons to stop. *)
Lemma rg_weaken {Mem} (E E' : Stop -> Prop) (R G : relation Mem) Q t s :
  (forall e, E e -> E' e) -> rg E R G Q t s -> rg E' R G Q t s.
Proof.
  intros HE. induction 1 as [R G Q s HQ|R G Q f s Hg HN IH HH
                            |R G Q l k s J Rs Gs Qs HJ HRs HGs HRJ HGJ H1 H2 H3 Hl IHl Hk IHk].
  - by constructor.
  - constructor; [done|done|]. intros s' e s'' H4 H5. by eapply HE, HH.
  - by apply (rg_fork E' R G Q l k s J Rs Gs Qs).
Qed.
