(* ===== verification/TbbCode.v ===== *)
(** The program as the TBB build compiles it ([ENABLE_PARALLEL]), as tasks.

    Code that one thread runs alone is one access; inside a [tbb::task_group] or a
    [tbb::parallel_for_each] every read or write of an object that other tasks can reach
    is an access of its own: a timer, a field of the context, an element of the
    segments, the pixels of a shared image.  [MappedFile::must_open] is one access,
    because its descriptor and its mapping are its own until it returns. *)

From S2P Require Import Prelude StdLib Cv CvGrid Perf State Grouping Cmdline MappedFiles Histogram.
From S2P Require Import Segments Matcher Diff Main Tasks.

(** The images that tasks share by reference: [result], [deleted] and [added], locals of
    [create_diff_image]. *)
Inductive Canvas := Result | Deleted | Added.

#[export] Instance Canvas_eq_dec : EqDecision Canvas.
Proof. solve_decision. Defined.

(** [thread_count] is computed with TBB in this build. *)
Definition parallel_build : Build := {| ENABLE_PARALLEL := true |}.

Section Code.
Context `{CV : OpenCV} {os : OS} {SS : StdSort}.

Record Shared := mkShared { sh_st : St; sh_canvas : Canvas -> Mat }.

Definition set_canvas (c : Canvas) (m : Mat) (s : Shared) : Shared :=
  mkShared (sh_st s) (fun c' => if decide (c' = c) then m else sh_canvas s c').

Abbreviation Task := (Tasks.Task Shared).

(** An access to the context and the process. *)
Definition on_st {A} (m : M A) (s : Shared) : Out Shared A :=
  match m (sh_st s) with
  | Done a s' => Next a (mkShared s' (sh_canvas s))
  | Stopped e s' => Halt e (mkShared s' (sh_canvas s))
  end.

Definition call {A} (m : M A) (k : A -> Task) : Task := act (on_st m) k.

(** An access to a shared image. *)
Definition draw (c : Canvas) (f : Context -> Mat -> exc Mat) (k : Task) : Task :=
  act (fun s => match f (ctx (sh_st s)) (sh_canvas s c) with
                | inr m => Next tt (set_canvas c m s)
                | inl e => Halt e s
                end) (fun _ => k).

(** A block whose first declaration is a [Timer]. *)
Definition timed_block {A} (nm : string) (par : option nat) (body : nat -> (A -> Task) -> Task)
    (k : A -> Task) : Task :=
  call (Timer_ctor nm par) (fun t => body t (fun a => call (Timer_stop t) (fun _ => k a))).

(** [load_image] *)
Definition load_side_task (d : Side) : Task :=
  call (gets (fun c => arg_file d (arg c))) (fun path =>
    if decide (path = "") then Finished
    else
      call (mf ← MappedFile_must_open path; _ ← reset_file d (Some mf); mret mf) (fun mf =>
      call (color ← lift (decode_from_mapped_file mf IMREAD_COLOR);
            _ ← modify (set_color_mat d color);
            mret color) (fun color =>
      call (gray ← lift (cvtColor color COLOR_BGR2GRAY); modify (set_gray_mat d gray)) (fun _ =>
      Finished)))).

Definition load_image_task (k : Task) : Task :=
  timed_block "load image" None (fun _ k =>
    Fork [load_side_task New; load_side_task Old] (k tt)) (fun _ => k).

(** [split_segments]: its matrices are its own; the timers are not. *)
Definition split_segments_task (gray_mat color_mat : Mat) (thr : Z) (k : list Rect -> Task) : Task :=
  timed_block "split segments" None (fun t k =>
    timed_block "image processing" (Some t) (fun t_image k =>
      call (lift (grd_mat ← gradient gray_mat thr;
                  found ← findContours grd_mat RETR_CCOMP CHAIN_APPROX_SIMPLE;
                  mret (grd_mat, found))) (fun '(grd_mat, found) =>
      match found.1 with
      | [] => k []
      | _ =>
          call (lift (label_regions grd_mat color_mat found.1 found.2)) (fun markers =>
          call (Timer_stop t_image) (fun _ =>
          timed_block "grouping" (Some t) (fun _ k =>
            call (lift (group markers)) (fun r => k r.2)) k))
      end)) k) k.

(** The loop that records the segments. *)
Fixpoint push_segments (d : Side) (gray_mat : Mat) (rects : list Rect) (k : Task) : Task :=
  match rects with
  | [] => k
  | segment :: rects =>
      call (roi ← lift (mat_roi gray_mat segment); push_segment d (ImageSegment_ctor segment roi))
        (fun _ => push_segments d gray_mat rects k)
  end.

(** The task of one segment's descriptor. *)
Definition describe_task (d : Side) (i : nat) : Task :=
  call (l ← gets (segments d); x ← lift (deref (l !! i)); lift (compute_descriptor (roi x)))
    (fun desc =>
       match desc with
       | Some m =>
           call (l ← gets (segments d); modify (set_segments d (alter (set_descriptor m) i l)))
             (fun _ => Finished)
       | None => Finished
       end).

(** The lambda [do_detect]. *)
Definition do_detect_task (t : nat) (d : Side) : Task :=
  call (gets (fun c => (gray_mat d c, color_mat d c))) (fun '(gray, color) =>
  timed_block "do detect" (Some t) (fun t2 k =>
    call (gets (fun c => bin_threshold (arg c))) (fun thr =>
    split_segments_task gray color thr (fun rects =>
    push_segments d gray rects (
    timed_block "compute descriptors" (Some t2) (fun _ k =>
      call (gets (segments d)) (fun l =>
      Fork (describe_task d <$> seq 0 (length l)) (k tt))) k)))) (fun _ => Finished)).

Definition detect_segments_task (k : Task) : Task :=
  timed_block "detect segments" None (fun t k =>
    Fork [do_detect_task t Old; do_detect_task t New] (k tt)) (fun _ => k).

(** [create_diff_image]: the task of a pair, from its last access back to its first.  The
    loops over the pixels of [rect]: one access for each. *)
Fixpoint mark_task (rect area_ : Rect) (l : list (Z * Z)) : Task :=
  match l with
  | [] => Finished
  | (i, j) :: l =>
      draw Result (fun c => mark_pixel (old_color_mat c) (new_color_mat c) rect area_ i j)
        (mark_task rect area_ l)
  end.

Definition frame_part_task (rect area_ : Rect) : Task :=
  draw Result (fun _ result => rectangle result rect (CV_RGB 255 0 0) 1)
    (mark_task rect area_ (offsets rect)).

Definition draw_task (j : nat) : Task :=
  call (news ← gets new_segments; x2 ← lift (deref (news !! j));
        old_gray ← gets old_gray_mat;
        ret ← lift (matchTemplate old_gray (roi x2) TM_SQDIFF);
        min_point ← lift (minMaxLoc ret);
        mret (rect_from x2 min_point, area x2)) (fun '(rect, area_) =>
  frame_part_task rect area_).

Definition mark_new_task (j : nat) : Task :=
  call (news ← gets new_segments; modify (set_segments New (alter set_matched j news)))
    (fun _ => draw_task j).

Definition mark_old_task (i j : nat) : Task :=
  call (olds ← gets old_segments; modify (set_segments Old (alter set_matched i olds)))
    (fun _ => mark_new_task j).

Definition pair_task (i j : nat) : Task :=
  call (olds ← gets old_segments; x1 ← lift (deref (olds !! i));
        news ← gets new_segments; x2 ← lift (deref (news !! j));
        cross ← gets (fun c => cross_check (arg c));
        lift (pair_matches cross x1 x2)) (fun go =>
  if go : bool then mark_old_task i j else Finished).

(** The task of an old segment. *)
Definition old_task (i : nat) : Task :=
  call (olds ← gets old_segments; x1 ← lift (deref (olds !! i));
        news ← gets new_segments; mret (usable x1, length news)) (fun '(go, n) =>
  if go : bool then Fork (pair_task i <$> seq 0 n) Finished else Finished).

(** [draw_not_matched]: the task of a segment. *)
Definition frame_task (c : Canvas) (d : Side) (i : nat) : Task :=
  call (l ← gets (segments d); lift (deref (l !! i))) (fun x =>
  if matched x then Finished
  else draw c (fun _ ret => rectangle ret (area x) (CV_RGB 0 255 0) 2) Finished).

(** One of the two change images. *)
Definition change_task (c : Canvas) (d : Side) (suffix : string) : Task :=
  call (f ← gets (the_file d); mf ← lift (deref f);
        lift (decode_from_mapped_file mf IMREAD_COLOR)) (fun m =>
  draw c (fun _ _ => mret m) (
  call (gets (segments d)) (fun l =>
  Fork (frame_task c d <$> seq 0 (length l)) (
  act (fun s => on_st (o ← gets (fun c => output_name (arg c));
                       imwrite_M (o +:+ suffix) (sh_canvas s c)) s) (fun _ =>
  Finished))))).

Definition create_diff_task (k : Task) : Task :=
  timed_block "create diff image" None (fun _ k =>
    call (old_gray ← gets old_gray_mat; lift (merge3 old_gray old_gray old_gray)) (fun m =>
    draw Result (fun _ _ => mret m) (
    call (gets old_segments) (fun olds =>
    Fork (old_task <$> seq 0 (length olds)) (
    timed_block "write" None (fun _ k =>
      act (fun s => on_st (o ← gets (fun c => output_name (arg c));
                           imwrite_M (o +:+ "_diff.png") (sh_canvas s Result)) s) (fun _ =>
      call (gets (fun c => create_change_image (arg c))) (fun change =>
      if change : bool then
        timed_block "create added and deleted image" None (fun _ k =>
          Fork [change_task Deleted Old "_delete.png"; change_task Added New "_add.png"] (k tt)) k
      else k tt))) k))))) (fun _ => k).

(** [main] *)
Definition compare_images_task (k : Task) : Task :=
  call check_histogram_differential (fun diff_check =>
  match diff_check with
  | inr err => call (Fatal (A := unit) err) (fun _ => k)
  | inl true => call (Fatal (A := unit) "two images are same") (fun _ => k)
  | inl false => detect_segments_task (create_diff_task k)
  end).

Definition main_task (argv : list string) : Task :=
  timed_block "all" None (fun t_all k =>
    call (for_each_M argv push_arg) (fun _ =>
    call (parse_args (build := parallel_build)) (fun _ =>
    load_image_task (
    compare_images_task (
    call (Timer_stop t_all) (fun _ =>
    call (p ← gets (fun c => perf (arg c));
          if p : bool then print_timer_records else mret tt) (fun _ =>
    k tt))))))) (fun _ =>
  call Context_dtor (fun _ => Finished)).

Definition start_shared : Shared :=
  mkShared (mkSt Context_ctor World_init) (fun _ => Mat_ctor).
End Code.
