(* ===== verification/TbbRules.v ===== *)
(** Rules for the tasks of the TBB build: accesses to the context, and blocks with a
    timer. *)

From S2P Require Import Prelude StdLib Cv Perf PerfForest State Timed Tasks TbbCode.

(** ** Accesses to the context *)

Section Calls.
Context `{CV : OpenCV} {os : OS} (E : Stop -> Prop).

Abbreviation n_records s := (length (timer_records (ctx (sh_st s)))).

Definition with_st (st : St) (s : Shared) : Shared := mkShared st (sh_canvas s).

Lemma on_st_Next {A} (m : M A) s a s' :
  on_st m s = Next a s' -> exists st, m (sh_st s) = Done a st /\ s' = with_st st s.
Proof. unfold on_st. destruct (m (sh_st s)) as [b st|e st]; [|done]. intros [= <- <-]. eauto. Qed.

Lemma on_st_Halt {A} (m : M A) s e s' :
  on_st m s = Halt e s' -> exists st, m (sh_st s) = Stopped e st.
Proof. unfold on_st. destruct (m (sh_st s)) as [b st|e' st]; [done|]. intros [= <- <-]. eauto. Qed.

Lemma rg_call {A} (R G : relation Shared) Q (P : Shared -> Prop) (P' : A -> Shared -> Prop)
    (m : M A) k s :
  P s -> (forall s1 s2, R s1 s2 -> P s1 -> P s2) ->
  (forall s1 a st, P s1 -> m (sh_st s1) = Done a st ->
     G s1 (with_st st s1) /\ P' a (with_st st s1)) ->
  (forall s1 e st, P s1 -> m (sh_st s1) = Stopped e st -> E e) ->
  (forall a s2, P' a s2 -> rg E R G Q (k a) s2) ->
  rg E R G Q (call m k) s.
Proof.
  intros HP HR HN HE Hk. apply (rg_access E R G Q P P'); [done|done| | |done].
  - intros s1 a s2 H1 (st & H & ->)%on_st_Next. by apply HN.
  - intros s1 e s2 H1 (st & H)%on_st_Halt. by eapply HE.
Qed.

(** An access that returns, with a known effect. *)
Lemma ends_in_call {A} Q (m : M A) k s :
  (forall a st, m (sh_st s) = Done a st -> ends_in E Q (k a) (with_st st s)) ->
  (forall e st, m (sh_st s) = Stopped e st -> E e) ->
  ends_in E Q (call m k) s.
Proof.
  intros HN HE. apply ends_in_access.
  - intros a s' (st & H & ->)%on_st_Next. by apply HN.
  - intros e s' (st & H)%on_st_Halt. by eapply HE.
Qed.

(** ** Timers *)

(** Only the timers moved. *)
Definition tick (s s' : Shared) : Prop :=
  sh_st s' ≈ sh_st s /\ sh_canvas s' = sh_canvas s /\
  timer_steps (timer_records (ctx (sh_st s))) (timer_records (ctx (sh_st s'))).

#[export] Instance tick_preorder : PreOrder tick.
Proof.
  split; [by intros s|]. intros s1 s2 s3 (A1 & B1 & C1) (A2 & B2 & C2).
  split_and!; [by rewrite A2|congruence|by etrans].
Qed.

Lemma tick_records s s' : tick s s' -> (n_records s <= n_records s')%nat.
Proof. intros (_ & _ & H). by apply steps_length. Qed.

Lemma tick_ctor nm par s :
  (forall p, par = Some p -> (p < n_records s)%nat) -> tick s (with_st (after_ctor nm par (sh_st s)) s).
Proof. intros Hp. split_and!; [apply after_ctor_same|done|by apply steps_ctor]. Qed.

Lemma tick_stop t s u st :
  Timer_stop t (sh_st s) = Done u st -> tick s (with_st st s) /\ n_records (with_st st s) = n_records s.
Proof.
  intros H. destruct u. split; [|by apply (n_records_stop t (sh_st s) st)]. split_and!.
  - by eapply record_stop_same.
  - done.
  - by apply (timed_from (n := 0) (m := Timer_stop t) (sh_st s) tt st); [lia|].
Qed.

Lemma stop_runs t s : (t < n_records s)%nat -> forall e st, Timer_stop t (sh_st s) <> Stopped e st.
Proof.
  intros Ht e st H. destruct (record_stop_eq t (sh_st s) Ht) as (s' & E' & _).
  unfold Timer_stop in H. congruence.
Qed.

(** Relies that let the timers move, but not shrink. *)
Class Timely (R G : relation Shared) : Prop := {
  timely_R s s' : R s s' -> (n_records s <= n_records s')%nat;
  timely_G s s' : tick s s' -> G s s'
}.

Lemma rg_stop R G Q (P : Shared -> Prop) t k s :
  Timely R G -> P s -> (forall s1 s2, R s1 s2 -> P s1 -> P s2) ->
  (forall s1 s2, tick s1 s2 -> P s1 -> P s2) -> (t < n_records s)%nat ->
  (forall s1, P s1 -> (n_records s <= n_records s1)%nat -> rg E R G Q k s1) ->
  rg E R G Q (call (Timer_stop t) (fun _ => k)) s.
Proof.
  intros T HP HR HT Ht Hk.
  apply (rg_call R G Q (fun s1 => P s1 /\ (n_records s <= n_records s1)%nat)
           (fun _ s1 => P s1 /\ (n_records s <= n_records s1)%nat)).
  - split; [done|lia].
  - intros s1 s2 H [H1 H2]. split; [by eapply HR|]. apply (timely_R (G := G)) in H. lia.
  - intros s1 u st [H1 H2] Hc. destruct (tick_stop _ _ _ _ Hc) as [Htk Hn].
    split; [by apply (timely_G (R := R))|]. split; [by eapply HT|lia].
  - intros s1 e st [_ H2] Hc. exfalso. eapply stop_runs; [|exact Hc]. lia.
  - intros _ s1 [H1 H2]. by apply Hk.
Qed.

Lemma ends_in_block {A} Q nm par (body : nat -> (A -> Tasks.Task Shared) -> _) k s :
  (forall p, par = Some p -> (p < n_records s)%nat) ->
  (forall s1, tick s s1 -> (n_records s < n_records s1)%nat ->
     ends_in E Q (body (n_records s) (fun a => call (Timer_stop (n_records s)) (fun _ => k a))) s1) ->
  ends_in E Q (timed_block nm par body k) s.
Proof.
  intros Hpar Hb. apply ends_in_call.
  - intros t st Hc. rewrite Timer_ctor_eq in Hc. injection Hc as <- <-.
    apply Hb; [by apply tick_ctor|]. cbn [sh_st with_st]. rewrite after_ctor_length. lia.
  - intros e st Hc. by rewrite Timer_ctor_eq in Hc.
Qed.

Lemma ends_in_stop Q t k s :
  (t < n_records s)%nat ->
  (forall s1, tick s s1 -> ends_in E Q k s1) -> ends_in E Q (call (Timer_stop t) (fun _ => k)) s.
Proof.
  intros Ht Hk. apply ends_in_call.
  - intros u st Hc. destruct (tick_stop _ _ _ _ Hc) as [Htk _]. by apply Hk.
  - intros e st Hc. exfalso. by eapply stop_runs.
Qed.
End Calls.
