(* ===== verification/TbbLoad.v ===== *)
(** [load_image] in the TBB build: the two sides are loaded by two tasks of a
    [tbb::task_group].  Whatever their interleaving, it succeeds exactly when the default
    build does, and leaves both sides loaded. *)

From S2P Require Import Prelude StdLib Cv CvGrid Perf State Timed ExampleOs MappedFiles Tasks.
From S2P Require Import TbbCode TbbRules.

(** ** What a loading task leaves alone *)

Section Load.
Context `{CV : OpenCV} {os : OS}.

Abbreviation c_of s := (ctx (sh_st s)).
Abbreviation w_of s := (wld (sh_st s)).

Record loading (s s' : Shared) : Prop := {
  lg_arg : arg (c_of s') = arg (c_of s);
  lg_segments d : segments d (c_of s') = segments d (c_of s);
  lg_records : timer_records (c_of s') = timer_records (c_of s);
  lg_canvas : sh_canvas s' = sh_canvas s;
  lg_io : same_io (sh_st s) (sh_st s');
  lg_fds : w_fds (w_of s') = w_fds (w_of s);
  lg_maps : w_maps (w_of s) ⊆ w_maps (w_of s');
  lg_only a : a ∈ dom (w_maps (w_of s')) ->
    a ∈ dom (w_maps (w_of s)) \/
    exists d mf b, the_file d (c_of s') = Some mf /\ mf_data mf = Some (a, b);
  lg_fresh : fresh_ids (w_of s) -> fresh_ids (w_of s');
  lg_file d mf : the_file d (c_of s) = Some mf -> the_file d (c_of s') = Some mf
}.

#[export] Instance loading_preorder : PreOrder loading.
Proof.
  split.
  - intros s. split; try done. by left.
  - intros s1 s2 s3 H1 H2. split.
    + by rewrite (lg_arg _ _ H2), (lg_arg _ _ H1).
    + intros d. by rewrite (lg_segments _ _ H2), (lg_segments _ _ H1).
    + by rewrite (lg_records _ _ H2), (lg_records _ _ H1).
    + by rewrite (lg_canvas _ _ H2), (lg_canvas _ _ H1).
    + destruct (lg_io _ _ H1) as (? & ? & ?), (lg_io _ _ H2) as (? & ? & ?). split_and!; congruence.
    + by rewrite (lg_fds _ _ H2), (lg_fds _ _ H1).
    + etrans; [apply (lg_maps _ _ H1)|apply (lg_maps _ _ H2)].
    + intros a [[?|(d & mf & b & Hf & Hd)]%(lg_only _ _ H1)|?]%(lg_only _ _ H2);
        [by left| |by right]. right. exists d, mf, b. split; [|done]. by apply (lg_file _ _ H2).
    + intros Hf. by apply (lg_fresh _ _ H2), (lg_fresh _ _ H1).
    + intros d mf Hf. by apply (lg_file _ _ H2), (lg_file _ _ H1).
Qed.

(** The fields of one side. *)
Definition same_side (d : Side) (s s' : Shared) : Prop :=
  the_file d (c_of s') = the_file d (c_of s) /\ color_mat d (c_of s') = color_mat d (c_of s) /\
  gray_mat d (c_of s') = gray_mat d (c_of s).

Definition other (d : Side) : Side := match d with New => Old | Old => New end.

(** What the task of side [d] relies on, and what it guarantees. *)
Definition load_R (d : Side) (s s' : Shared) : Prop := loading s s' /\ same_side d s s'.
Definition load_G (d : Side) (s s' : Shared) : Prop := loading s s' /\ same_side (other d) s s'.

#[export] Instance load_R_preorder d : PreOrder (load_R d).
Proof.
  split.
  - by intros s.
  - intros s1 s2 s3 [H1 (A1 & B1 & C1)] [H2 (A2 & B2 & C2)].
    split; [by etrans|]. split_and!; congruence.
Qed.
#[export] Instance load_G_refl d : Reflexive (load_G d).
Proof. by intros s. Qed.

(** An assertion on one side, with the path of its file. *)
Definition load_at (a0 : Args) (d : Side) (P : Shared -> Prop) (s : Shared) : Prop :=
  fresh_ids (w_of s) /\ arg (c_of s) = a0 /\ P s.

Lemma load_at_stable a0 d (P : Shared -> Prop) s s' :
  (forall s s', load_R d s s' -> P s -> P s') -> load_R d s s' -> load_at a0 d P s ->
  load_at a0 d P s'.
Proof.
  intros HP HR (Hf & Ha & H). split_and!; [by apply (lg_fresh _ _ (proj1 HR))| |by eapply HP].
  by rewrite (lg_arg _ _ (proj1 HR)).
Qed.

Definition file_open (d : Side) (path : string) (mf : MappedFile) (s : Shared) : Prop :=
  the_file d (c_of s) = Some mf /\ exists st, file_of (w_of s) mf path st (snd <$> mf_data mf).

Lemma file_open_stable d path mf s s' : load_R d s s' -> file_open d path mf s -> file_open d path mf s'.
Proof.
  intros [H (Hf & _)] (H1 & st & H2). split; [by rewrite Hf|]. exists st.
  eapply file_of_mono; [|exact H2]. apply (lg_maps _ _ H).
Qed.

Definition color_decoded (d : Side) (mf : MappedFile) (color : Mat) (s : Shared) : Prop :=
  decode_from_mapped_file mf IMREAD_COLOR = inr color /\ color_mat d (c_of s) = color.

(** *** The three accesses of a task *)

Definition open_reset (d : Side) (path : string) : M MappedFile :=
  mf ← MappedFile_must_open path; _ ← reset_file d (Some mf); mret mf.

Lemma open_reset_Done d path s mf st :
  fresh_ids (w_of s) -> the_file d (c_of s) = None -> open_reset d path (sh_st s) = Done mf st ->
  load_G d s (with_st st s) /\ file_open d path mf (with_st st s).
Proof.
  intros Hf Hn. unfold open_reset. intros (mf' & st1 & Eo%must_open_Done & E)%bind_Done.
  destruct (open_file_inv _ _ _ _ Hf Eo) as (Hc & Hio & Hfd & Hfr & Hm & Honly & stat & Hst).
  assert (E' : st = set_file d (Some mf') st1 /\ mf' = mf).
  { unfold reset_file, gets, modify, mbind, M_bind in E. rewrite Hc, Hn in E.
    by injection E as -> <-. }
  destruct E' as [-> ->]. split.
  - split; [|unfold same_side; by destruct d; cbn; rewrite Hc].
    split; destruct d; cbn; rewrite ?Hc; try done.
    1,2: intros a [Ha|[b Hb]]%Honly; [by left|right].
    1: by exists New, mf, b.
    1: by exists Old, mf, b.
    all: intros [] mf0; cbn; rewrite ?Hc; try done; cbn in Hn; rewrite Hn; done.
  - split; [by destruct d|]. exists stat. by destruct d.
Qed.

Definition decode_color (d : Side) (mf : MappedFile) : M Mat :=
  color ← lift (decode_from_mapped_file mf IMREAD_COLOR);
  _ ← modify (set_color_mat d color); mret color.

Lemma decode_color_Done d mf s color st :
  decode_color d mf (sh_st s) = Done color st ->
  decode_from_mapped_file mf IMREAD_COLOR = inr color /\ st = set_color_mat d color (sh_st s).
Proof.
  unfold decode_color. intros (c & s1 & E & H)%bind_Done. unfold lift in E.
  destruct (decode_from_mapped_file mf IMREAD_COLOR) as [|c']; [done|].
  injection E as -> <-. by injection H as -> <-.
Qed.

Definition convert_gray (d : Side) (color : Mat) : M unit :=
  gray ← lift (cvtColor color COLOR_BGR2GRAY); modify (set_gray_mat d gray).

Lemma convert_gray_Done d color s u st :
  convert_gray d color (sh_st s) = Done u st ->
  exists gray, cvtColor color COLOR_BGR2GRAY = inr gray /\ st = set_gray_mat d gray (sh_st s).
Proof.
  unfold convert_gray. intros (c & s1 & E & H)%bind_Done. unfold lift in E.
  destruct (cvtColor color COLOR_BGR2GRAY) as [|c']; [done|].
  injection E as -> <-. injection H as <- <-. by exists c.
Qed.

(** An update of a side's images is allowed to its task. *)
Lemma set_mats_G d s st m :
  st = set_color_mat d m (sh_st s) \/ st = set_gray_mat d m (sh_st s) ->
  load_G d s (with_st st s).
Proof.
  intros [-> | ->]; (split; [split|]); destruct d; cbn; try done; try (by intros []); by left.
Qed.

(** *** One side's task *)

(** The reasons for which loading side [d] stops: the program ends as it should, and the
    side's file cannot be opened or decoded. *)
Definition load_fails (a : Args) (e : Stop) : Prop :=
  tame e /\
  ~ (forall d, exists st bytes color gray,
       file_at (arg_file d a) st bytes /\ decodes st bytes color gray).

Section Side.
Context {TL : ThrowLaws CV} (a0 : Args) (d : Side).

Abbreviation path := (arg_file d a0).

Definition not_open (s : Shared) : Prop := the_file d (c_of s) = None.
Definition has_color (mf : MappedFile) (color : Mat) (s : Shared) : Prop :=
  file_open d path mf s /\ color_decoded d mf color s.

Lemma not_open_stable s s' : load_R d s s' -> not_open s -> not_open s'.
Proof. intros [_ (H & _)]. unfold not_open. by rewrite H. Qed.

Lemma has_color_stable mf color s s' : load_R d s s' -> has_color mf color s -> has_color mf color s'.
Proof.
  intros HR [H1 [H2 H3]]. split; [by eapply file_open_stable|]. split; [done|].
  destruct HR as [_ (_ & Hc & _)]. by rewrite Hc.
Qed.

Lemma open_reset_step s mf st :
  load_at a0 d not_open s -> open_reset d path (sh_st s) = Done mf st ->
  load_G d s (with_st st s) /\ load_at a0 d (file_open d path mf) (with_st st s).
Proof.
  intros (Hf & Ha & Hn) E. destruct (open_reset_Done _ _ _ _ _ Hf Hn E) as [HG Ho].
  split; [done|]. split_and!; [by apply (lg_fresh _ _ (proj1 HG))| |done].
  by rewrite (lg_arg _ _ (proj1 HG)).
Qed.

Lemma open_reset_fails s e st :
  load_at a0 d not_open s -> open_reset d path (sh_st s) = Stopped e st -> load_fails a0 e.
Proof.
  intros (Hf & Ha & Hn) E. split.
  - assert (Safe (open_reset d path)) as HS by (unfold open_reset, reset_file; safe).
    specialize (HS (sh_st s)). by rewrite E in HS.
  - intros HC. destruct (HC d) as (stat & bytes & _ & _ & Hat & _).
    destruct (open_file _ _ _ (sh_st s) Hat) as (mf & st1 & Eo). pose proof Eo as Eo'.
    apply must_open_Done in Eo'. unfold open_reset in E. rewrite (bind_Done_eq _ _ _ _ _ Eo') in E.
    destruct (open_file_inv _ _ _ _ Hf Eo) as (Hc & _).
    unfold reset_file, gets, modify, mbind, M_bind in E. by rewrite Hc, Hn in E.
Qed.

Lemma decode_color_step mf s color st :
  load_at a0 d (file_open d path mf) s -> decode_color d mf (sh_st s) = Done color st ->
  load_G d s (with_st st s) /\ load_at a0 d (has_color mf color) (with_st st s).
Proof.
  intros (Hf & Ha & Ho) [Ed ->]%decode_color_Done.
  assert (load_G d s (with_st (set_color_mat d color (sh_st s)) s)) as HG
    by (apply (set_mats_G _ _ _ color); by left).
  split; [done|]. split_and!; [by apply (lg_fresh _ _ (proj1 HG))|by destruct d|].
  destruct Ho as (H1 & stat & H2). split; [|split; [done|by destruct d]].
  split; [by destruct d|]. exists stat. by destruct d.
Qed.

Lemma decode_color_fails mf s e st :
  load_at a0 d (file_open d path mf) s -> decode_color d mf (sh_st s) = Stopped e st ->
  load_fails a0 e.
Proof.
  intros (Hf & Ha & _ & stat' & Hst) E. split.
  - assert (Safe (decode_color d mf)) as HS by (unfold decode_color; safe).
    specialize (HS (sh_st s)). by rewrite E in HS.
  - intros HC. destruct (HC d) as (stat & bytes & color & gray & Hat & Hd & _).
    destruct (file_at_det _ _ _ _ _ Hat (fo_at _ _ _ _ _ Hst)) as [Es Eb].
    unfold decode_color, lift, decode_from_mapped_file in E.
    rewrite (fo_size _ _ _ _ _ Hst), Es, Eb, Hd in E. done.
Qed.

Lemma convert_gray_step mf color s u st :
  load_at a0 d (has_color mf color) s -> convert_gray d color (sh_st s) = Done u st ->
  load_G d s (with_st st s) /\ loaded d (sh_st (with_st st s)).
Proof.
  intros (Hf & Ha & (H1 & stat & H2) & H3 & H4) (gray & Eg & ->)%convert_gray_Done.
  split; [apply (set_mats_G _ _ _ gray); by right|].
  exists mf, stat, (snd <$> mf_data mf). unfold decode_from_mapped_file in H3.
  rewrite (fo_size _ _ _ _ _ H2) in H3. rewrite <- Ha in H2.
  destruct d; cbn in *; (split_and!; [done|done|split; congruence]).
Qed.

Lemma convert_gray_fails mf color s e st :
  load_at a0 d (has_color mf color) s -> convert_gray d color (sh_st s) = Stopped e st ->
  load_fails a0 e.
Proof.
  intros (Hf & Ha & (H1 & stat & H2) & H3 & H4) E. split.
  - assert (Safe (convert_gray d color)) as HS by (unfold convert_gray; safe).
    specialize (HS (sh_st s)). by rewrite E in HS.
  - intros HC. destruct (HC d) as (stat' & bytes & color' & gray & Hat & Hd & Hg).
    destruct (file_at_det _ _ _ _ _ Hat (fo_at _ _ _ _ _ H2)) as [Es Eb].
    unfold decode_from_mapped_file in H3. rewrite (fo_size _ _ _ _ _ H2), Es, Eb, Hd in H3.
    injection H3 as <-. unfold convert_gray, lift in E. by rewrite Hg in E.
Qed.

Lemma loaded_stable s s' : load_R d s s' -> loaded d (sh_st s) -> loaded d (sh_st s').
Proof.
  intros [H (E1 & E2 & E3)] (mf & stat & bytes & F1 & F2 & F3). exists mf, stat, bytes.
  rewrite E1, E2, E3, (lg_arg _ _ H). split_and!; [done| |done].
  eapply file_of_mono; [|exact F2]. apply (lg_maps _ _ H).
Qed.

(** The task of one side, under the other's. *)
Lemma load_side_rg s :
  path <> "" -> load_at a0 d not_open s ->
  rg (load_fails a0) (load_R d) (load_G d) (fun s' => loaded d (sh_st s')) (load_side_task d) s.
Proof.
  intros Hp HP. unfold load_side_task.
  apply (rg_call _ _ _ _ (load_at a0 d not_open) (fun p s => p = path /\ load_at a0 d not_open s));
    [done|intros ? ?; apply load_at_stable, not_open_stable| |done|].
  { intros [st c] p st' (Hf & Ha & Hn) [= <- <-]. cbn in *. rewrite Ha. done. }
  intros p s1 [-> HP1]. rewrite decide_False by done.
  apply (rg_call _ _ _ _ (load_at a0 d not_open) (fun mf => load_at a0 d (file_open d path mf)));
    [done|intros ? ?; apply load_at_stable, not_open_stable|apply open_reset_step|
     apply open_reset_fails|intros mf s2 HP2].
  apply (rg_call _ _ _ _ (load_at a0 d (file_open d path mf))
           (fun color => load_at a0 d (has_color mf color)));
    [done|intros ? ?; apply load_at_stable, file_open_stable|apply decode_color_step|
     apply decode_color_fails|intros color s3 HP3].
  apply (rg_call _ _ _ _ (load_at a0 d (has_color mf color)) (fun _ s => loaded d (sh_st s)));
    [done|intros ? ?; apply load_at_stable, has_color_stable|apply convert_gray_step|
     apply convert_gray_fails|].
  intros [] s4 HL. constructor. intros s5 HR. by eapply loaded_stable.
Qed.
End Side.

(** *** Both tasks *)

Definition side_of (i : nat) : Side := match i with O => New | _ => Old end.

Lemma load_G_R i j s s' :
  (i < 2)%nat -> (j < 2)%nat -> i <> j -> load_G (side_of i) s s' -> load_R (side_of j) s s'.
Proof.
  intros Hi Hj Hne [H1 H2]. split; [done|].
  by destruct i as [|[]], j as [|[]]; try lia.
Qed.

(** Both sides are loaded, and nothing else changed. *)
Record after_load (s s' : Shared) : Prop := {
  al_loaded d : loaded d (sh_st s');
  al_loading : loading s s'
}.

Lemma before_load_at s d :
  before_load (sh_st s) -> load_at (arg (c_of s)) d (not_open d) s.
Proof. intros [Hf Hn Ha]. split_and!; [done|done|apply Hn]. Qed.

Lemma ends_load_fork (E : Stop -> Prop) Q k s `{!ThrowLaws CV} :
  before_load (sh_st s) -> (forall e, load_fails (arg (c_of s)) e -> E e) ->
  (forall s', after_load s s' -> ends_in E Q k s') ->
  ends_in E Q (Fork [load_side_task New; load_side_task Old] k) s.
Proof.
  intros Hb HE Hk.
  apply (ends_in_fork E Q _ _ _ loading (fun i => load_R (side_of i)) (fun i => load_G (side_of i))
           (fun i s' => loaded (side_of i) (sh_st s'))); try apply _.
  - by intros i s1 s2 [].
  - cbn [length]. intros i j s1 s2. apply load_G_R.
  - intros i t Ht. apply (rg_weaken _ _ _ _ _ _ _ HE).
    destruct i as [|[|]]; [..|done]; injection Ht as <-;
      (apply load_side_rg; [apply (bl_args _ Hb)|by apply before_load_at]).
  - intros s' HJ Hq. apply Hk. split; [|done].
    intros []; [apply (Hq 0%nat)|apply (Hq 1%nat)]; cbn; lia.
Qed.

(** The whole function, its timer included: up to the timers, nothing but the two sides
    changes. *)
Record image_loaded (s s' : Shared) : Prop := {
  im_loaded d : loaded d (sh_st s');
  im_arg : arg (c_of s') = arg (c_of s);
  im_segments d : segments d (c_of s') = segments d (c_of s);
  im_canvas : sh_canvas s' = sh_canvas s;
  im_io : same_io (sh_st s) (sh_st s');
  im_fds : w_fds (w_of s') = w_fds (w_of s);
  im_only : only_files (sh_st s) (sh_st s');
  im_timers : timer_steps (timer_records (c_of s)) (timer_records (c_of s'))
}.

Lemma ends_load_image (E : Stop -> Prop) Q k s `{!ThrowLaws CV} :
  before_load (sh_st s) -> (forall e, load_fails (arg (c_of s)) e -> E e) ->
  (forall s', image_loaded s s' -> ends_in E Q k s') ->
  ends_in E Q (load_image_task k) s.
Proof.
  intros Hb HE Hk. apply ends_in_block; [done|]. intros s1 (Hs1 & Hc1 & Ht1) Hn1.
  assert (before_load (sh_st s1)) as Hb1 by (eapply before_load_proper; [symmetry; exact Hs1|done]).
  apply ends_load_fork; [done|done| |].
  { intros e He. apply HE. by rewrite <- (arg_proper _ _ Hs1). }
  intros s2 [Hl2 H2].
  apply ends_in_stop; [by rewrite (lg_records _ _ H2)|]. intros s3 (Hs3 & Hc3 & Ht3).
  apply Hk. pose proof (same_wld _ _ Hs1) as W1. pose proof (same_wld _ _ Hs3) as W3. split.
  - intros d. by rewrite Hs3.
  - by rewrite (arg_proper _ _ Hs3), (lg_arg _ _ H2), (arg_proper _ _ Hs1).
  - intros d. by rewrite (segments_proper d _ _ Hs3), (lg_segments _ _ H2), (segments_proper d _ _ Hs1).
  - by rewrite Hc3, (lg_canvas _ _ H2), Hc1.
  - destruct (lg_io _ _ H2) as (E1 & E2 & E3). unfold same_io.
    by rewrite (images_proper _ _ Hs3), (out_proper _ _ Hs3), (err_proper _ _ Hs3), E1, E2, E3,
      (images_proper _ _ Hs1), (out_proper _ _ Hs1), (err_proper _ _ Hs1).
  - etrans; [exact (f_equal w_fds W3)|]. etrans; [exact (lg_fds _ _ H2)|].
    exact (f_equal w_fds W1).
  - intros a Ha. rewrite (f_equal w_maps W3 : w_maps (w_of s3) = w_maps (w_of s2)) in Ha.
    destruct (lg_only _ _ H2 a Ha) as [Ha1|(d & mf & b & Hf & Hd)].
    + left. by rewrite (f_equal w_maps W1 : w_maps (w_of s1) = w_maps (w_of s)) in Ha1.
    + right. exists d, mf, b. by rewrite (the_file_proper d _ _ Hs3).
  - etrans; [exact Ht1|]. by rewrite <- (lg_records _ _ H2).
Qed.
End Load.

(** ** Properties *)

Section Properties.
Context `{CV : OpenCV} {os : OS}.

(** C10 Loading the two images by two concurrent tasks is loading them in turn: whatever
    the schedule, when the tasks finish, [load_image] of the default build returns from
    the same state, and leaves the same matrices; each side holds its file with a live
    mapping, every descriptor is closed, and the options, the segments and the output are
    as before.  When a task stops the program, it is with a status of 0 or 1 or by an
    exception, and the default build does not return either. *)
Theorem tbb_load_equivalent `{!ThrowLaws CV} (s : Shared) :
  before_load (sh_st s) ->
  ends_in (fun e => tame e /\ ~ exists st, load_image (sh_st s) = Done tt st)
    (fun s' => exists st, load_image (sh_st s) = Done tt st /\
       (forall d, loaded d (sh_st s') /\
          color_mat d (ctx (sh_st s')) = color_mat d (ctx st) /\
          gray_mat d (ctx (sh_st s')) = gray_mat d (ctx st)) /\
       arg (ctx (sh_st s')) = arg (ctx st) /\ w_fds (wld (sh_st s')) = w_fds (wld st) /\
       (forall d, segments d (ctx (sh_st s')) = segments d (ctx st)) /\
       only_files (sh_st s) (sh_st s') /\ same_io (sh_st s) (sh_st s'))
    (load_image_task Finished) s.
Proof.
  intros Hb. apply ends_load_image; [done|done| |].
  - intros e [He Hn]. split; [done|]. intros [st El]. apply Hn. intros d.
    destruct (load_image_Done _ _ Hb El) as (L & Ea & _).
    destruct (L d) as (mf & stat & bytes & _ & F & D). rewrite Ea in F.
    exists stat, bytes, (color_mat d (ctx st)), (gray_mat d (ctx st)). split; [apply F|done].
  - intros s' H. apply ends_in_finished.
    assert (can_load (sh_st s)) as Hc.
    { intros d. destruct (im_loaded _ _ H d) as (mf & stat & bytes & _ & F & D).
      rewrite (im_arg _ _ H) in F. exists stat, bytes, (color_mat d (ctx (sh_st s'))),
        (gray_mat d (ctx (sh_st s'))). split; [apply F|done]. }
    destruct (load_image_run _ Hb Hc) as [st El]. exists st. split; [done|].
    destruct (load_image_Done _ _ Hb El) as (L & Ea & Ef & Eg & _).
    split_and!; [|by rewrite Ea, (im_arg _ _ H)|by rewrite Ef, (im_fds _ _ H)| |apply H|apply H].
    + intros d. pose proof (im_loaded _ _ H d) as Hd. split; [done|].
      destruct Hd as (mf & stat & bytes & _ & F & D1 & D2).
      destruct (L d) as (mf' & stat' & bytes' & _ & F' & D1' & D2').
      rewrite (im_arg _ _ H) in F. rewrite Ea in F'.
      destruct (file_at_det _ _ _ _ _ (fo_at _ _ _ _ _ F) (fo_at _ _ _ _ _ F')) as [-> ->].
      assert (color_mat d (ctx st) = color_mat d (ctx (sh_st s'))) as Ec by congruence.
      split; [done|congruence].
    + intros d. by rewrite Eg, (im_segments _ _ H).
Qed.
End Properties.

(** ** Witnesses *)

Definition example_shared : Shared (CV := GridCv) := mkShared example_before (fun _ => grid_nil).

(** The two tasks of the group in alternation. *)
Definition alternating : list (list nat) :=
  [[]; [0]; [1]; [1]; [0]; [0]; [1]; [1]; [0]; []; []]%nat.

Lemma tbb_load_equivalent_witness :
  exists s' st,
    run_tasks alternating (load_image_task (os := example_fs) Finished) example_shared =
      Some (Next Finished s') /\
    load_image (os := example_fs) example_before = Done tt st /\
    forall d, gray_mat d (ctx (sh_st s')) = gray_mat d (ctx st).
Proof.
  destruct (finishes_run (fun _ => true) alternating (load_image_task (os := example_fs) Finished)
              example_shared) as (s' & Hr & _); [vm_compute; reflexivity|].
  destruct (ends_in_complete _ _ _ _ _ _
    (tbb_load_equivalent (os := example_fs) example_shared example_before_load) Hr)
    as (st & El & Hd & _).
  exists s', st. split; [exact Hr|]. split; [exact El|]. intros d. apply (Hd d).
Defined.
