(* ===== verification/TbbDetect.v ===== *)
(** [detect_segments] in the TBB build: a task per image, and inside each a task per
    segment's descriptor.  Under every interleaving it computes the two lists that the
    default build computes one after the other. *)

From S2P Require Import Prelude StdLib Cv CvGrid Perf PerfForest State Timed Grouping ExampleOs.
From S2P Require Import MappedFiles Histogram Segments Tasks TbbCode TbbRules TbbLoad.

Section Detect.
Context `{CV : OpenCV} {os : OS}.

Abbreviation c_of s := (ctx (sh_st s)).
Abbreviation n_records s := (length (timer_records (ctx (sh_st s)))).

(** ** What detection may change: the segments, and the timers *)

Record detecting (s s' : Shared) : Prop := {
  dg_same : sh_st s' ≈ set_both (segments Old (c_of s')) (segments New (c_of s')) (sh_st s);
  dg_canvas : sh_canvas s' = sh_canvas s;
  dg_timers : timer_steps (timer_records (c_of s)) (timer_records (c_of s'))
}.

Lemma set_both_twice o n o' n' s : set_both o n (set_both o' n' s) = set_both o n s.
Proof. done. Qed.

Lemma set_both_same s : set_both (segments Old (ctx s)) (segments New (ctx s)) s = s.
Proof. by destruct s as [[] ?]. Qed.

#[export] Instance set_both_proper o n : Proper (same_but_time ==> same_but_time) (set_both o n).
Proof. intros s s' H. unfold set_both. by rewrite H. Qed.

#[export] Instance detecting_preorder : PreOrder detecting.
Proof.
  split.
  - intros s. split; [by rewrite set_both_same|done|done].
  - intros s1 s2 s3 [A1 B1 C1] [A2 B2 C2]. split; [|congruence|by etrans].
    etrans; [exact A2|]. rewrite A1. by rewrite set_both_twice.
Qed.

Lemma tick_detecting s s' : tick s s' -> detecting s s'.
Proof.
  intros (A & B & C). split; [|done|done].
  rewrite (segments_proper Old _ _ A), (segments_proper New _ _ A). by rewrite set_both_same.
Qed.

(** What detection reads does not change. *)
Lemma detecting_reads s s' :
  detecting s s' -> arg (c_of s') = arg (c_of s) /\
  (forall d, color_mat d (c_of s') = color_mat d (c_of s)) /\
  (forall d, gray_mat d (c_of s') = gray_mat d (c_of s)).
Proof.
  intros [A _ _]. split_and!; [by rewrite (arg_proper _ _ A)| |];
    intros d; [rewrite (color_mat_proper d _ _ A)|rewrite (gray_mat_proper d _ _ A)]; by destruct d.
Qed.

Definition detect_R (d : Side) (s s' : Shared) : Prop :=
  detecting s s' /\ segments d (c_of s') = segments d (c_of s).
Definition detect_G (d : Side) (s s' : Shared) : Prop :=
  detecting s s' /\ segments (other d) (c_of s') = segments (other d) (c_of s).

#[export] Instance detect_R_preorder d : PreOrder (detect_R d).
Proof.
  split; [by intros s|]. intros s1 s2 s3 [A1 B1] [A2 B2]. split; [by etrans|congruence].
Qed.
#[export] Instance detect_G_refl d : Reflexive (detect_G d).
Proof. by intros s. Qed.

#[export] Instance detect_timely d : Timely (detect_R d) (detect_G d).
Proof.
  split.
  - intros s s' [[_ _ H] _]. by apply steps_length.
  - intros s s' H. split; [by apply tick_detecting|]. destruct H as (A & _ & _).
    by rewrite (segments_proper _ _ _ A).
Qed.

(** *** One side's list, and its elements *)

(** Side [d] holds the list [l]; [n] timers exist. *)
Definition holds (s0 : Shared) (d : Side) (n : nat) (l : list ImageSegment) (s : Shared) : Prop :=
  detecting s0 s /\ (n <= n_records s)%nat /\ segments d (c_of s) = l.

Lemma holds_stable s0 d n l s s' : detect_R d s s' -> holds s0 d n l s -> holds s0 d n l s'.
Proof.
  intros [A B] (H1 & H2 & H3). split_and!; [by etrans| |congruence].
  pose proof (steps_length _ _ (dg_timers _ _ A)). lia.
Qed.

Lemma holds_tick s0 d n l s s' : tick s s' -> holds s0 d n l s -> holds s0 d n l s'.
Proof.
  intros H (H1 & H2 & H3). pose proof (tick_records _ _ H).
  split_and!; [etrans; [done|by apply tick_detecting]|lia|].
  destruct H as (A & _ & _). by rewrite (segments_proper d _ _ A).
Qed.

Lemma holds_weaken s0 d n n' l s :
  (n' <= n_records s)%nat -> holds s0 d n l s -> holds s0 d n' l s.
Proof. intros Hn (H1 & _ & H3). by split_and!. Qed.

(** A new list for side [d]. *)
Lemma set_segments_G d l s : detect_G d s (with_st (set_segments d l (sh_st s)) s).
Proof.
  split; [split|]; [|done..|by destruct d].
  cbn [sh_st with_st]. by destruct s as [[[] ?] ?], d.
Qed.

Lemma holds_set s0 d n l l' s :
  holds s0 d n l s -> holds s0 d n l' (with_st (set_segments d l' (sh_st s)) s).
Proof.
  intros (H1 & H2 & H3). split_and!; [|done|by destruct d].
  etrans; [exact H1|]. apply (set_segments_G d l').
Qed.

(** An access that computes a value. *)
Lemma rg_pure {A} E Q s0 d n l (e : exc A) k s :
  holds s0 d n l s ->
  (forall err, e = inl err -> E err) ->
  (forall a s1, e = inr a -> holds s0 d n l s1 -> rg E (detect_R d) (detect_G d) Q (k a) s1) ->
  rg E (detect_R d) (detect_G d) Q (call (lift e) k) s.
Proof.
  intros HP HE Hk.
  apply (rg_call _ _ _ _ (holds s0 d n l) (fun a s1 => e = inr a /\ holds s0 d n l s1));
    [done|intros ? ?; apply holds_stable| | |naive_solver].
  - intros [st c] a st' H1 H2. unfold lift in H2. destruct e as [err|b]; [done|].
    by injection H2 as <- <-.
  - intros s1 err st' _ H. unfold lift in H. destruct e as [err'|b]; [|done].
    injection H as -> _. by apply HE.
Qed.

(** An access that reads the context. *)
Lemma rg_read {A} E Q s0 d n l (f : Context -> A) v k s :
  holds s0 d n l s -> (forall s1, holds s0 d n l s1 -> f (c_of s1) = v) ->
  (forall s1, holds s0 d n l s1 -> rg E (detect_R d) (detect_G d) Q (k v) s1) ->
  rg E (detect_R d) (detect_G d) Q (call (gets f) k) s.
Proof.
  intros HP Hv Hk.
  apply (rg_call _ _ _ _ (holds s0 d n l) (fun a s1 => a = v /\ holds s0 d n l s1));
    [done|intros ? ?; apply holds_stable| |done|naive_solver].
  intros [st c] a st' H1 [= <- <-]. split; [done|]. split; [by apply (Hv (mkShared st c))|done].
Qed.

(** *** The pieces of [do_detect] *)

Section Side.
Context (s0 : Shared) (d : Side) (E : Stop -> Prop) (Q : Shared -> Prop).

Abbreviation rg_d := (rg E (detect_R d) (detect_G d) Q).

(** A block with a timer, around code that keeps the list. *)
Lemma rg_holds_block {A} n l nm par (body : nat -> (A -> Tasks.Task Shared) -> _) k s :
  holds s0 d n l s -> (forall p, par = Some p -> (p < n)%nat) ->
  (forall t s1, (n <= t)%nat -> holds s0 d (S t) l s1 ->
     rg_d (body t (fun a => call (Timer_stop t) (fun _ => k a))) s1) ->
  rg_d (timed_block nm par body k) s.
Proof.
  intros HP Hpar Hb.
  apply (rg_call _ _ _ _ (holds s0 d n l) (fun t s1 => (n <= t)%nat /\ holds s0 d (S t) l s1));
    [done|intros ? ?; apply holds_stable| | |intros t s1 [? ?]; by apply Hb].
  - intros s1 t st H1 Hc. rewrite Timer_ctor_eq in Hc. injection Hc as <- <-.
    pose proof H1 as (_ & Hn & _).
    assert (tick s1 (with_st (after_ctor nm par (sh_st s1)) s1)) as Ht.
    { apply tick_ctor. intros p Hp. specialize (Hpar p Hp). lia. }
    split; [by apply (timely_G (R := detect_R d))|]. split; [done|].
    apply (holds_weaken _ _ n); [|by eapply holds_tick].
    cbn [sh_st with_st]. rewrite after_ctor_length. lia.
  - intros s1 e st _ Hc. by rewrite Timer_ctor_eq in Hc.
Qed.

Lemma rg_holds_stop n l t k s :
  holds s0 d n l s -> (t < n)%nat -> (forall s1, holds s0 d n l s1 -> rg_d k s1) ->
  rg_d (call (Timer_stop t) (fun _ => k)) s.
Proof.
  intros HP Ht Hk. pose proof HP as (_ & Hn & _).
  apply (rg_stop _ _ _ _ (holds s0 d n l)); [apply _|done|intros ? ?; apply holds_stable|
    intros ? ?; apply holds_tick|lia|]. auto.
Qed.

(** [split] once the contours are found. *)
Lemma split_found gray color thr grd found :
  gradient gray thr = inr grd -> findContours grd RETR_CCOMP CHAIN_APPROX_SIMPLE = inr found ->
  split gray color thr =
  match found.1 with
  | [] => mret []
  | _ =>
      markers ← label_regions grd color found.1 found.2;
      r ← group markers;
      mret r.2
  end.
Proof. intros Hg Hf. unfold split. rewrite Hg; cbn [mbind exc_bind]. by rewrite Hf. Qed.

Lemma rg_split n l gray color thr k s :
  holds s0 d n l s ->
  (forall e, split gray color thr = inl e -> E e) ->
  (forall rects s1, split gray color thr = inr rects -> holds s0 d n l s1 -> rg_d (k rects) s1) ->
  rg_d (split_segments_task gray color thr k) s.
Proof.
  intros HP HE Hk. unfold split_segments_task.
  apply (rg_holds_block n l); [done|done|intros t s1 Ht H1].
  apply (rg_holds_block (S t) l); [done|intros p [= <-]; lia|intros ti s2 Hti H2].
  assert (forall rects s3, split gray color thr = inr rects -> holds s0 d (S ti) l s3 ->
    rg_d (call (Timer_stop ti) (fun _ => call (Timer_stop t) (fun _ => k rects))) s3) as Hend.
  { intros rects s3 Hs H3. apply (rg_holds_stop (S ti) l); [done|lia|intros s4 H4].
    apply (rg_holds_stop (S ti) l); [done|lia|intros s5 H5]. apply Hk; [done|].
    eapply holds_weaken; [|exact H5]. destruct H5 as (_ & ? & _). lia. }
  apply (rg_pure _ _ s0 d (S ti) l); [done| |].
  { intros e He. apply HE. unfold split. destruct (gradient gray thr) as [|grd]; [by injection He as ->|].
    cbn in *. destruct (findContours _ _ _); [by injection He as ->|done]. }
  intros [grd found] s3 He H3.
  assert (gradient gray thr = inr grd /\ findContours grd RETR_CCOMP CHAIN_APPROX_SIMPLE = inr found)
    as [Hg Hf].
  { apply exc_bind_inr in He as (g & ? & (f & ? & [= <- <-])%exc_bind_inr). done. }
  pose proof (split_found gray color thr grd found Hg Hf) as Hs. clear He Hg Hf.
  destruct found.1 as [|c cs] eqn:Hc; [by apply Hend|].
  apply (rg_pure _ _ s0 d (S ti) l); [done| |intros markers s4 Hm H4].
  { intros e He. apply HE. by rewrite Hs, He. }
  apply (rg_holds_stop (S ti) l); [done|lia|intros s5 H5].
  apply (rg_holds_block (S ti) l); [done|intros p [= <-]; lia|intros tg s6 Htg H6].
  apply (rg_pure _ _ s0 d (S tg) l); [done| |intros r s7 Hr H7].
  { intros e He. apply HE. rewrite Hs, Hm; cbn [mbind exc_bind]. by rewrite He. }
  apply (rg_holds_stop (S tg) l); [done|lia|intros s8 H8]. apply Hend.
  - rewrite Hs, Hm; cbn [mbind exc_bind]. by rewrite Hr.
  - eapply holds_weaken; [|exact H8]. destruct H8 as (_ & ? & _). lia.
Qed.

Lemma rg_push n l gray rects k s :
  holds s0 d n l s ->
  (forall e, mapM (cut gray) rects = inl e -> E e) ->
  (forall l' s1, mapM (cut gray) rects = inr l' -> holds s0 d n (l ++ l') s1 -> rg_d k s1) ->
  rg_d (push_segments d gray rects k) s.
Proof.
  revert l s. induction rects as [|r rects IH]; intros l s HP HE Hk; cbn [push_segments].
  { apply (Hk []); [done|by rewrite app_nil_r]. }
  rewrite mapM_exc_cons in HE, Hk.
  apply (rg_call _ _ _ _ (holds s0 d n l) (fun _ s1 => exists m, mat_roi gray r = inr m /\
           holds s0 d n (l ++ [ImageSegment_ctor r m]) s1));
    [done|intros ? ?; apply holds_stable| | |].
  - intros s1 u st H1 (m & st1 & Em & H)%bind_Done. unfold lift in Em.
    destruct (mat_roi gray r) as [|m'] eqn:Hm; [done|]. injection Em as -> <-.
    injection H as <- <-. pose proof H1 as (_ & _ & Hl). rewrite Hl.
    split; [apply set_segments_G|]. exists m. split; [done|]. by apply (holds_set _ _ _ l).
  - intros s1 e st _ H. apply HE. apply bind_Stopped in H as [H|(? & ? & _ & H)]; [|done].
    assert (cut gray r = inl e) as ->; [|done]. unfold lift in H. unfold cut.
    destruct (mat_roi gray r); [|done]. by injection H as -> _.
  - intros _ s1 (m & Hm & H1). assert (cut gray r = inr (ImageSegment_ctor r m)) as Hc
      by (unfold cut; by rewrite Hm).
    rewrite Hc in HE, Hk. cbn [mbind exc_bind] in HE, Hk.
    apply (IH (l ++ [ImageSegment_ctor r m])).
    + done.
    + intros e He. apply HE. by rewrite He.
    + intros l' s2 Hl H2. apply (Hk (ImageSegment_ctor r m :: l')); [by rewrite Hl|].
      by rewrite <- app_assoc in H2.
Qed.
End Side.

(** *** The tasks of the descriptors *)

Definition desc_R (d : Side) (i : nat) (s s' : Shared) : Prop :=
  detecting s s' /\ length (segments d (c_of s')) = length (segments d (c_of s)) /\
  segments d (c_of s') !! i = segments d (c_of s) !! i.
Definition desc_G (d : Side) (i : nat) (s s' : Shared) : Prop :=
  detect_G d s s' /\ length (segments d (c_of s')) = length (segments d (c_of s)) /\
  forall j, j <> i -> segments d (c_of s') !! j = segments d (c_of s) !! j.
Definition desc_J (d : Side) (s s' : Shared) : Prop :=
  detecting s s' /\ length (segments d (c_of s')) = length (segments d (c_of s)).

#[export] Instance desc_R_preorder d i : PreOrder (desc_R d i).
Proof.
  split; [by intros s|]. intros s1 s2 s3 (A1 & B1 & C1) (A2 & B2 & C2).
  split_and!; [by etrans|congruence|congruence].
Qed.
#[export] Instance desc_J_preorder d : PreOrder (desc_J d).
Proof.
  split; [by intros s|]. intros s1 s2 s3 (A1 & B1) (A2 & B2). split; [by etrans|congruence].
Qed.
#[export] Instance desc_G_refl d i : Reflexive (desc_G d i).
Proof. by intros s. Qed.

(** Element [i] is [x]. *)
Definition element (d : Side) (i : nat) (x : ImageSegment) (s : Shared) : Prop :=
  segments d (c_of s) !! i = Some x.

Lemma element_stable d i x s s' : desc_R d i s s' -> element d i x s -> element d i x s'.
Proof. intros (_ & _ & H). unfold element. by rewrite H. Qed.

Lemma rg_describe_task E (Q : Shared -> Prop) d i x s :
  (forall e, compute_descriptor (roi x) = inl e -> E e) -> element d i x s ->
  (forall y s', describe x = inr y -> element d i y s' -> Q s') ->
  rg E (desc_R d i) (desc_G d i) Q (describe_task d i) s.
Proof.
  intros HE HP HQ. unfold describe_task.
  apply (rg_call _ _ _ _ (element d i x)
           (fun desc s1 => compute_descriptor (roi x) = inr desc /\ element d i x s1));
    [done|intros ? ?; apply element_stable| | |].
  - intros [st c] desc st' H1 (l & ? & [= <- <-] & (x' & st1 & E1 & E2)%bind_Done)%bind_Done.
    unfold element in *. cbn in *. rewrite H1 in E1. injection E1 as <- <-.
    unfold lift in E2. destruct (compute_descriptor (roi x)); [done|]. by injection E2 as <- <-.
  - intros [st c] e st' H1 H. unfold element in H1. cbn in H, H1.
    unfold mbind, M_bind, gets, lift in H. rewrite H1 in H; cbn in H.
    destruct (compute_descriptor (roi x)); [|done]. apply HE. by injection H as ->.
  - intros desc s1 [Hd H1]. destruct desc as [m|].
    + apply (rg_call _ _ _ _ (element d i x) (fun _ => element d i (set_descriptor m x)));
        [done|intros ? ?; apply element_stable| |done|].
      * intros s2 u st H2 [= <- <-]. split.
        -- split; [apply set_segments_G|]. cbn [sh_st with_st]. rewrite segments_set, length_alter.
           split; [done|]. intros j Hj. by rewrite list_lookup_alter_ne.
        -- unfold element in *. cbn [sh_st with_st]. rewrite segments_set, list_lookup_alter_eq.
           by rewrite H2.
      * intros u s2 H2. constructor. intros s3 HR. apply (HQ (set_descriptor m x));
          [unfold describe; by rewrite Hd|by eapply element_stable].
    + constructor. intros s2 HR. apply (HQ x);
        [unfold describe; by rewrite Hd|by eapply element_stable].
Qed.

Lemma rg_describe E Q s0 d n l k s :
  holds s0 d n l s ->
  (forall x e, x ∈ l -> compute_descriptor (roi x) = inl e -> E e) ->
  (forall l' s1, mapM describe l = inr l' -> holds s0 d n l' s1 ->
     rg E (detect_R d) (detect_G d) Q k s1) ->
  rg E (detect_R d) (detect_G d) Q (Fork (describe_task d <$> seq 0 (length l)) k) s.
Proof.
  intros HP HE Hk. pose proof HP as (Hd & Hn & Hl).
  apply (rg_fork E _ _ _ _ _ _ (desc_J d) (desc_R d) (desc_G d)
    (fun i s' => exists x y, l !! i = Some x /\ describe x = inr y /\ element d i y s'));
    try apply _.
  - intros s1 s2 [A B]. split; [done|by rewrite B].
  - by intros i s1 s2 [[A _] [B _]].
  - intros i s1 s2 [A B]. split_and!; [done|by rewrite B..].
  - intros i j s1 s2 _ _ Hne [[A _] [B C]]. split_and!; [done|done|by apply C].
  - by intros i s1 s2 [A _].
  - intros i t Ht. rewrite list_lookup_fmap in Ht. apply fmap_Some in Ht as (i' & Hi & ->).
    apply lookup_seq in Hi as [-> Hi]. cbn [plus].
    destruct (lookup_lt_is_Some_2 l i Hi) as [x Hx].
    assert (element d i x s) as He by (unfold element; by rewrite Hl).
    apply (rg_describe_task _ _ _ _ x); [|done|naive_solver].
    intros e. apply HE. by eapply list_elem_of_lookup_2.
  - intros s' [HJ HJl] Hq. rewrite length_fmap, length_seq in Hq.
    apply (Hk (segments d (c_of s'))); [|].
    + apply mapM_exc_inr, Forall2_same_length_lookup. split; [by rewrite HJl, Hl|].
      intros i x y Hx Hy. destruct (Hq i) as (x' & y' & Hx' & Hd' & He); [by eapply lookup_lt_Some|].
      unfold element in He. congruence.
    + split_and!; [by etrans| |done]. pose proof (steps_length _ _ (dg_timers _ _ HJ)). lia.
Qed.

(** *** The task of an image *)

Definition detected_side (d : Side) (c : Context) : exc (list ImageSegment) :=
  detected (gray_mat d c) (color_mat d c) (bin_threshold (arg c)).

(** How the task of side [d] may stop: with the error of the default build, or with that
    of some segment's descriptor when the default build fails too. *)
Definition side_fails (d : Side) (c : Context) (e : Stop) : Prop :=
  detected_side d c = inl e \/
  (exists m, compute_descriptor m = inl e) /\ exists e', detected_side d c = inl e'.

Lemma mapM_exc_fails {A B} (f : A -> exc B) l x e :
  x ∈ l -> f x = inl e -> exists e', mapM f l = inl e'.
Proof.
  intros Hx Hf. destruct (mapM f l) as [e'|k] eqn:Hk; [by exists e'|].
  apply mapM_exc_inr in Hk. apply list_elem_of_lookup in Hx as [i Hi].
  destruct (Forall2_lookup_l _ _ _ _ _ Hk Hi) as (y & _ & Hy). congruence.
Qed.

Lemma rg_do_detect s0 d t s :
  holds s0 d (S t) [] s ->
  rg (side_fails d (c_of s0)) (detect_R d) (detect_G d)
    (fun s' => detected_side d (c_of s0) = inr (segments d (c_of s'))) (do_detect_task t d) s.
Proof.
  intros HP. unfold do_detect_task.
  set (gray := gray_mat d (c_of s0)). set (color := color_mat d (c_of s0)).
  set (thr := bin_threshold (arg (c_of s0))).
  assert (forall s1, detecting s0 s1 -> gray_mat d (c_of s1) = gray /\ color_mat d (c_of s1) = color /\
            bin_threshold (arg (c_of s1)) = thr) as Hreads
    by (intros s1 H; destruct (detecting_reads _ _ H) as (Ha & Hc & Hg); by rewrite Ha, Hc, Hg).
  apply (rg_read _ _ s0 d (S t) [] _ (gray, color)); [done| |intros s1 H1].
  { intros s1 (H1 & _). by destruct (Hreads s1 H1) as (-> & -> & _). }
  apply (rg_holds_block s0 d _ _ (S t) []); [done|intros p [= <-]; lia|intros t2 s2 Ht2 H2].
  apply (rg_read _ _ s0 d (S t2) [] _ thr); [done| |intros s3 H3].
  { intros s3 (H3 & _). by destruct (Hreads s3 H3) as (_ & _ & ->). }
  apply (rg_split s0 d _ _ (S t2) []); [done| |intros rects s4 Hs H4].
  { intros e He. left. unfold detected_side, detected. fold gray color thr. by rewrite He. }
  apply (rg_push s0 d _ _ (S t2) []); [done| |intros l s5 Hl H5; cbn [app] in H5].
  { intros e He. left. unfold detected_side, detected. fold gray color thr. rewrite Hs; cbn [mbind exc_bind].
    by rewrite He. }
  assert (detected_side d (c_of s0) = mapM describe l) as HD.
  { unfold detected_side, detected. fold gray color thr. rewrite Hs; cbn [mbind exc_bind].
    by rewrite Hl. }
  apply (rg_holds_block s0 d _ _ (S t2) l); [done|intros p [= <-]; lia|intros t4 s6 Ht4 H6].
  apply (rg_read _ _ s0 d (S t4) l _ l); [done|by intros s7 (_ & _ & ?)|intros s7 H7].
  apply (rg_describe _ _ s0 d (S t4) l); [done| |intros l' s8 Hl' H8].
  { intros x e Hx He. right. split; [by exists (roi x)|]. rewrite HD.
    eapply mapM_exc_fails; [exact Hx|]. unfold describe. by rewrite He. }
  apply (rg_holds_stop s0 d _ _ (S t4) l'); [done|lia|intros s9 H9].
  apply (rg_holds_stop s0 d _ _ (S t4) l'); [done|lia|intros s10 (_ & _ & H10)].
  constructor. intros s11 [_ ->]. by rewrite HD, Hl', H10.
Qed.

(** *** Both tasks *)

Definition detect_side_of (i : nat) : Side := match i with O => Old | _ => New end.

(** Both lists are those of the default build. *)
Record images_detected (s s' : Shared) : Prop := {
  id_lists d : detected_side d (c_of s) = inr (segments d (c_of s'));
  id_detecting : detecting s s'
}.

Definition detect_fails (c : Context) (e : Stop) : Prop := exists d, side_fails d c e.

Lemma detect_G_R i j s s' :
  (i < 2)%nat -> (j < 2)%nat -> i <> j ->
  detect_G (detect_side_of i) s s' -> detect_R (detect_side_of j) s s'.
Proof.
  intros Hi Hj Hne [H1 H2]. split; [done|]. by destruct i as [|[]], j as [|[]]; try lia.
Qed.

Lemma detecting_side d s s' : detecting s s' -> detected_side d (c_of s') = detected_side d (c_of s).
Proof.
  intros H. destruct (detecting_reads _ _ H) as (Ha & Hc & Hg).
  unfold detected_side. by rewrite Ha, Hc, Hg.
Qed.

Lemma ends_detect_segments (E : Stop -> Prop) Q k s :
  (forall d, segments d (c_of s) = []) -> (forall e, detect_fails (c_of s) e -> E e) ->
  (forall s', images_detected s s' -> ends_in E Q k s') ->
  ends_in E Q (detect_segments_task k) s.
Proof.
  intros Hs HE Hk. apply ends_in_block; [done|]. intros s1 Ht1 Hn1.
  set (t := n_records s) in *. pose proof (tick_detecting _ _ Ht1) as H1.
  apply (ends_in_fork E Q _ _ _ detecting (fun i => detect_R (detect_side_of i))
    (fun i => detect_G (detect_side_of i))
    (fun i s' => detected_side (detect_side_of i) (c_of s1) =
                 inr (segments (detect_side_of i) (c_of s')))); try apply _.
  - by intros i s2 s3 [].
  - cbn [length]. intros i j s2 s3. apply detect_G_R.
  - intros i u Hu.
    apply (rg_weaken (side_fails (detect_side_of i) (c_of s1))).
    { intros e He. apply HE. exists (detect_side_of i). unfold side_fails in *.
      by rewrite <- (detecting_side _ _ _ H1). }
    assert (holds s1 (detect_side_of i) (S t) [] s1) as HP.
    { split_and!; [done|lia|]. destruct Ht1 as (A & _ & _).
      by rewrite (segments_proper _ _ _ A). }
    destruct i as [|[|]]; [..|done]; injection Hu as <-; by apply rg_do_detect.
  - intros s2 HJ Hq. apply ends_in_stop.
    { pose proof (steps_length _ _ (dg_timers _ _ HJ)). lia. }
    intros s3 Ht3. apply Hk. split.
    + intros d. rewrite <- (detecting_side _ _ _ H1). destruct Ht3 as (A & _ & _).
      rewrite (segments_proper d _ _ A).
      destruct d; [apply (Hq 1%nat)|apply (Hq 0%nat)]; cbn; lia.
    + etrans; [exact H1|]. etrans; [exact HJ|]. by apply tick_detecting.
Qed.
End Detect.

(** ** Properties *)

Section Properties.
Context `{CV : OpenCV} {os : OS}.

(** C6 Detecting the segments of the two images by concurrent tasks, with a task for each
    descriptor, is detecting them in turn: whatever the schedule, when the tasks finish,
    [detect_segments] of the default build returns from the same state and leaves the same
    state up to the timers, with the segments of both images in the same order; when a
    task stops the program, the default build does not return either. *)
Theorem tbb_detect_equivalent (s : Shared) :
  (forall d, segments d (ctx (sh_st s)) = []) ->
  ends_in (fun e => detect_fails (ctx (sh_st s)) e /\
             exists e' st, detect_segments (sh_st s) = Stopped e' st)
    (fun s' => exists st, detect_segments (sh_st s) = Done tt st /\ sh_st s' ≈ st /\
       sh_canvas s' = sh_canvas s)
    (detect_segments_task Finished) s.
Proof.
  intros Hs. pose proof (ends_detect 0 (sh_st s) Hs (sh_st s) ltac:(done) ltac:(lia)) as H.
  apply ends_detect_segments; [done| |].
  - intros e He. split; [done|].
    assert (exists e', detected_both (ctx (sh_st s)) = inl e') as [e' Eb].
    { destruct (detected_both (ctx (sh_st s))) as [e'|[o n]] eqn:Hb; [by exists e'|].
      apply exc_bind_inr in Hb as (o' & Ho & (n' & Hn & _)%exc_bind_inr).
      destruct He as ([] & [Hd|[_ [e' Hd]]]); unfold detected_side in Hd; cbn in Hd; congruence. }
    rewrite Eb in H. destruct H as [st H]. by exists e', st.
  - intros s' [Hl Hd]. apply ends_in_finished.
    assert (detected_both (ctx (sh_st s)) = inr (segments Old (ctx (sh_st s')), segments New (ctx (sh_st s'))))
      as Eb.
    { unfold detected_both. pose proof (Hl Old) as Ho. pose proof (Hl New) as Hn.
      unfold detected_side in Ho, Hn. cbn in Ho, Hn. rewrite Ho; cbn. by rewrite Hn. }
    rewrite Eb in H. destruct H as (st & E & Hst & _). exists st.
    split; [done|]. split; [|apply Hd]. rewrite Hst. apply Hd.
Qed.
End Properties.

(** ** Witnesses *)

Definition example_shared_loaded : Shared (CV := GridCv) := mkShared example_loaded (fun _ => grid_nil).

Lemma example_no_segments d : segments d (ctx (sh_st example_shared_loaded)) = [].
Proof. destruct d; vm_compute; reflexivity. Qed.

Lemma example_detection :
  exists sched s', run_tasks sched (detect_segments_task (os := example_fs) Finished)
                     example_shared_loaded = Some (Next Finished s').
Proof.
  destruct (finishes_run (fun s => (length (segments New (ctx (sh_st s))) =? 1)%nat)
    (in_order 100 (detect_segments_task (os := example_fs) Finished) example_shared_loaded)
    (detect_segments_task (os := example_fs) Finished) example_shared_loaded) as (s' & Hr & _);
    [vm_compute; reflexivity|].
  eexists. exists s'. exact Hr.
Qed.

Lemma tbb_detect_equivalent_witness :
  exists sched s' st,
    run_tasks sched (detect_segments_task (os := example_fs) Finished) example_shared_loaded =
      Some (Next Finished s') /\
    detect_segments (os := example_fs) (sh_st example_shared_loaded) = Done tt st /\ sh_st s' ≈ st.
Proof.
  destruct example_detection as (sched & s' & Hr).
  destruct (ends_in_complete _ _ _ _ _ _
    (tbb_detect_equivalent (os := example_fs) example_shared_loaded example_no_segments) Hr)
    as (st & Ed & Hs & _).
  exists sched, s', st. split; [exact Hr|]. split; [exact Ed|exact Hs].
Defined.

(** ** The report of concurrent tasks *)

Definition named (nm : string) (r : TimerRecord) : bool := bool_decide (name r = nm).

(** The parents of the records with a name. *)
Definition parents_of (nm : string) (ts : list TimerRecord) : list (option nat) :=
  parent <$> List.filter (named nm) ts.

(** Both tasks have created their timer before either splits its image. *)
Definition started_together : list (list nat) :=
  let first := [[]; [0]; [1]; [0]; [1]]%nat in
  let t := detect_segments_task (os := example_fs) Finished in
  first ++ match run_tasks first t example_shared_loaded with
           | Some (Next t' s') => in_order 100 t' s'
           | _ => []
           end.

(** The report links both "split segments" to the record [p]. *)
Definition linked_to (p q : nat) (s : Shared (CV := GridCv)) : bool :=
  match link_all (timer_records (ctx (sh_st s))) with
  | inr ts =>
      bool_decide (parents_of "split segments" ts = [Some p; Some p]) &&
      bool_decide (name <$> ts !! p = Some "do detect") &&
      bool_decide (name <$> ts !! q = Some "do detect")
  | inl _ => false
  end.

(** In the TBB build the report can give one image's work to the other: [split_segments]
    names no parent for its timer, and the report links it to the nearest earlier record
    whose interval encloses its own.  In this run both tasks start their "do detect" timers
    before either splits its image, and both "split segments" are printed below the second
    one, while the first one has none. *)
Theorem tbb_report_misattributes :
  exists sched s' ts p q,
    run_tasks sched (detect_segments_task (os := example_fs) Finished) example_shared_loaded =
      Some (Next Finished s') /\
    link_all (timer_records (ctx (sh_st s'))) = inr ts /\ p <> q /\
    name <$> ts !! p = Some "do detect" /\ name <$> ts !! q = Some "do detect" /\
    parents_of "split segments" ts = [Some p; Some p].
Proof.
  destruct (finishes_run (linked_to 3 2) started_together
    (detect_segments_task (os := example_fs) Finished) example_shared_loaded) as (s' & Hr & Hl);
    [vm_compute; reflexivity|].
  unfold linked_to in Hl. destruct (link_all _) as [|ts] eqn:El; [done|].
  apply andb_prop in Hl as [[H1 H2]%andb_prop H3]. apply bool_decide_eq_true in H1, H2, H3.
  eexists. exists s', ts, 3%nat, 2%nat. split; [exact Hr|]. by split_and!.
Qed.
