(* ===== verification/Parallel.v ===== *)
(** The loops of [create_diff_image] (image.cc) in the TBB build.

    There [tbb::parallel_for_each] runs the bodies as tasks: one per old segment, and
    inside it one per new segment; a [return] ends its task only, and the segments are
    shared, not copied.  The model interleaves the tasks' accesses to the shared
    [matched] flags: an {action} is the next access of one task, and a run is any
    sequence of actions.  The theorems say what holds of every run, and what depends on
    the schedule; TbbPairs shows that the tasks of the program refine this machine. *)

From S2P Require Import Prelude StdLib Cv CvGrid Perf State Matcher Segments Diff.

(** ** The code *)

Section Code.
Context `{CV : OpenCV} {SS : StdSort}.

(** The inner task of a pair: to test; to set the old segment's flag, then the new
    one's; to draw; finished. *)
Inductive IPhase := ICheck | ISetOld | ISetNew | IDraw | IDone.

(** The outer task of an old segment: not started, waiting for its inner tasks, or
    finished. *)
Inductive OPhase := ONew | ORun (inner : list IPhase) | ODone.

Record PState := mkPState {
  p_olds : list ImageSegment;
  p_news : list ImageSegment;
  p_tasks : list OPhase;
  p_drawn : list (nat * nat)
}.

(** Which task moves. *)
Inductive action := Outer (i : nat) | Inner (i j : nat).

Definition is_done (p : IPhase) : bool := match p with IDone => true | _ => false end.

Definition set_task (i : nat) (o : OPhase) (s : PState) : PState :=
  mkPState (p_olds s) (p_news s) (<[i := o]> (p_tasks s)) (p_drawn s).

Definition set_inner (i j : nat) (p : IPhase) (l : list IPhase) (s : PState) : PState :=
  set_task i (ORun (<[j := p]> l)) s.

(** The test at the head of the outer body, on the shared segment. *)
Definition outer_start (i : nat) (s : PState) : option PState :=
  x ← p_olds s !! i;
  Some (set_task i (if usable x then ORun (replicate (length (p_news s)) ICheck) else ODone) s).

(** The accesses of the inner body, in the order of the code. *)
Definition inner_step (cross : bool) (i j : nat) (l : list IPhase) (p : IPhase) (s : PState) :
    option PState :=
  match p with
  | ICheck =>
      x1 ← p_olds s !! i;
      x2 ← p_news s !! j;
      match pair_matches cross x1 x2 with
      | inr true => Some (set_inner i j ISetOld l s)
      | inr false => Some (set_inner i j IDone l s)
      | inl _ => None
      end
  | ISetOld =>
      Some (set_inner i j ISetNew l
              (mkPState (alter set_matched i (p_olds s)) (p_news s) (p_tasks s) (p_drawn s)))
  | ISetNew =>
      Some (set_inner i j IDraw l
              (mkPState (p_olds s) (alter set_matched j (p_news s)) (p_tasks s) (p_drawn s)))
  | IDraw =>
      Some (set_inner i j IDone l
              (mkPState (p_olds s) (p_news s) (p_tasks s) (p_drawn s ++ [(i, j)])))
  | IDone => None
  end.

(** One action; [None] when the task cannot move. *)
Definition act (cross : bool) (a : action) (s : PState) : option PState :=
  match a with
  | Outer i =>
      o ← p_tasks s !! i;
      match o with
      | ONew => outer_start i s
      | ORun l => if forallb is_done l then Some (set_task i ODone s) else None
      | ODone => None
      end
  | Inner i j =>
      o ← p_tasks s !! i;
      match o with
      | ORun l => p ← l !! j; inner_step cross i j l p s
      | _ => None
      end
  end.

Definition p_init (olds news : list ImageSegment) : PState :=
  mkPState olds news (replicate (length olds) ONew) [].

(** A run with a given schedule. *)
Fixpoint run_schedule (cross : bool) (l : list action) (s : PState) : option PState :=
  match l with
  | [] => Some s
  | a :: l => s' ← act cross a s; run_schedule cross l s'
  end.

(** The segments [draw_not_matched] frames in this build: every unmarked one, since
    [return] ends one task. *)
Definition to_frame (l : list ImageSegment) : list ImageSegment :=
  filter (fun x => matched x = false) l.
End Code.

(** ** Steps and the measure *)

Section Measure.
Context `{CV : OpenCV} {SS : StdSort}.

Definition inner_weight (p : IPhase) : nat :=
  match p with ICheck => 4 | ISetOld => 3 | ISetNew => 2 | IDraw => 1 | IDone => 0 end.

Definition outer_weight (k : nat) (o : OPhase) : nat :=
  match o with
  | ONew => 2 + 4 * k
  | ORun l => 1 + sum_list (inner_weight <$> l)
  | ODone => 0
  end.

(** How many actions are left at most. *)
Definition p_measure (s : PState) : nat :=
  sum_list (outer_weight (length (p_news s)) <$> p_tasks s).

Lemma sum_insert {A} (w : A -> nat) (l : list A) i x y :
  l !! i = Some x ->
  (sum_list (w <$> <[i := y]> l) + w x = sum_list (w <$> l) + w y)%nat.
Proof.
  revert i. induction l as [|z l IH]; intros [|i] H; try done.
  - injection H as ->. change (w y + sum_list (w <$> l) + w x = w x + sum_list (w <$> l) + w y)%nat.
    lia.
  - specialize (IH i H).
    change (w z + sum_list (w <$> <[i := y]> l) + w x = w z + sum_list (w <$> l) + w y)%nat. lia.
Qed.

Lemma sum_replicate k : sum_list (inner_weight <$> replicate k ICheck) = (4 * k)%nat.
Proof. induction k as [|k IH]; cbn; [done|]. cbn in IH. lia. Qed.

Lemma measure_set_task s i o o' :
  p_tasks s !! i = Some o ->
  (outer_weight (length (p_news s)) o' < outer_weight (length (p_news s)) o)%nat ->
  (p_measure (set_task i o' s) < p_measure s)%nat.
Proof.
  intros Hi Hw. unfold p_measure; cbn [p_news p_tasks set_task].
  pose proof (sum_insert (outer_weight (length (p_news s))) _ _ _ o' Hi). lia.
Qed.

Lemma measure_set_inner s i j l p p' olds news drawn :
  p_tasks s !! i = Some (ORun l) -> l !! j = Some p -> length news = length (p_news s) ->
  (inner_weight p' < inner_weight p)%nat ->
  (p_measure (set_inner i j p' l (mkPState olds news (p_tasks s) drawn)) < p_measure s)%nat.
Proof.
  intros Hi Hj Hn Hw. unfold p_measure, set_inner; cbn [p_news p_tasks set_task]. rewrite Hn.
  pose proof (sum_insert (outer_weight (length (p_news s))) _ _ _ (ORun (<[j := p']> l)) Hi) as H.
  pose proof (sum_insert inner_weight _ _ _ p' Hj) as Hl. cbn [outer_weight] in H. lia.
Qed.

(** What an inner task does, given its phase. *)
Lemma inner_step_inv cross i j l p s s' :
  inner_step cross i j l p s = Some s' ->
  exists p' olds news drawn,
    s' = set_inner i j p' l (mkPState olds news (p_tasks s) drawn) /\
    match p with
    | ICheck => olds = p_olds s /\ news = p_news s /\ drawn = p_drawn s /\
        exists x1 x2 b, p_olds s !! i = Some x1 /\ p_news s !! j = Some x2 /\
          pair_matches cross x1 x2 = inr b /\ p' = (if b : bool then ISetOld else IDone)
    | ISetOld => olds = alter set_matched i (p_olds s) /\ news = p_news s /\
        drawn = p_drawn s /\ p' = ISetNew
    | ISetNew => olds = p_olds s /\ news = alter set_matched j (p_news s) /\
        drawn = p_drawn s /\ p' = IDraw
    | IDraw => olds = p_olds s /\ news = p_news s /\ drawn = p_drawn s ++ [(i, j)] /\ p' = IDone
    | IDone => False
    end.
Proof.
  destruct s as [o n t d], p; cbn; try (intros [= <-]; by do 4 eexists).
  intros H. apply bind_Some in H as (x1 & H1 & H). apply bind_Some in H as (x2 & H2 & H).
  destruct (pair_matches cross x1 x2) as [|b] eqn:E; [done|].
  exists (if b then ISetOld else IDone), o, n, d.
  split; [by destruct b; injection H as <-|]. split_and!; try done. by exists x1, x2, b.
Qed.

(** The two kinds of actions, given the task they move. *)
Lemma act_inv cross a s s' :
  act cross a s = Some s' ->
  (exists i o', s' = set_task i o' s /\
     ((p_tasks s !! i = Some ONew /\ exists x, p_olds s !! i = Some x /\
        o' = (if usable x then ORun (replicate (length (p_news s)) ICheck) else ODone)) \/
      (exists l, p_tasks s !! i = Some (ORun l) /\ forallb is_done l = true /\ o' = ODone))) \/
  (exists i j l p, p_tasks s !! i = Some (ORun l) /\ l !! j = Some p /\
     inner_step cross i j l p s = Some s').
Proof.
  destruct a as [i|i j]; cbn; intros H; apply bind_Some in H as (o & Ho & H).
  - left. destruct o as [|l|]; [| |done].
    + unfold outer_start in H. apply bind_Some in H as (x & Hx & [= <-]). eauto 10.
    + destruct (forallb is_done l) eqn:E; [|done]. injection H as <-. eauto 10.
  - right. destruct o as [|l|]; [done| |done]. apply bind_Some in H as (p & Hp & H). eauto 10.
Qed.

(** Every action makes progress. *)
Lemma act_measure cross a s s' : act cross a s = Some s' -> (p_measure s' < p_measure s)%nat.
Proof.
  intros [(i & o' & -> & [(Hi & x & _ & ->)|(l & Hi & _ & ->)])|
          (i & j & l & p & Hi & Hj & H)]%act_inv.
  - apply (measure_set_task _ _ _ _ Hi). destruct (usable x); cbn; rewrite ?sum_replicate; lia.
  - apply (measure_set_task _ _ _ _ Hi). cbn. lia.
  - apply inner_step_inv in H as (p' & olds & news & drawn & -> & H).
    apply (measure_set_inner _ _ _ _ _ _ _ _ _ Hi Hj); destruct p; destruct_and?; subst;
      rewrite ?length_alter; try done; cbn; try lia.
    match goal with H : exists _, _ |- _ => destruct H as (? & ? & [] & _ & _ & _ & ->) end;
      cbn; lia.
Qed.

Lemma run_measure cross l s s' :
  run_schedule cross l s = Some s' -> (length l + p_measure s' <= p_measure s)%nat.
Proof.
  revert s. induction l as [|a l IH]; intros s; cbn; [intros [= ->]; lia|].
  intros H. apply bind_Some in H as (s1 & H1%act_measure & H2%IH). lia.
Qed.

Lemma init_measure olds news :
  p_measure (p_init olds news) = (length olds * (2 + 4 * length news))%nat.
Proof.
  unfold p_measure, p_init; cbn [p_news p_tasks]. induction (length olds) as [|n IH]; [done|].
  change (2 + 4 * length news +
    sum_list (outer_weight (length news) <$> replicate n ONew) = S n * (2 + 4 * length news))%nat.
  rewrite IH. lia.
Qed.
End Measure.

(** ** The invariant *)

Section Invariant.
Context `{CV : OpenCV} {SS : StdSort}.

(** A segment as it was, or with its flag set. *)
Definition marks (x y : ImageSegment) : Prop := y = x \/ y = set_matched x.

Definition flag (l : list ImageSegment) (i : nat) : bool :=
  match l !! i with Some x => matched x | None => false end.

#[export] Instance marks_refl : Reflexive marks.
Proof. by left. Qed.

Lemma marks_set x y : marks x y -> marks x (set_matched y).
Proof. by intros [-> | ->]; right. Qed.

Lemma marks_alter l0 l i : Forall2 marks l0 l -> Forall2 marks l0 (alter set_matched i l).
Proof.
  intros H. revert i. induction H as [|x y l0 l Hxy H IH]; intros [|i]; cbn; try done.
  - constructor; [by apply marks_set|done].
  - constructor; [done|apply IH].
Qed.

Lemma flag_alter l i k :
  flag (alter set_matched i l) k = flag l k || bool_decide (k = i /\ (i < length l)%nat).
Proof.
  unfold flag. destruct (decide (k = i)) as [->|Hne].
  - rewrite list_lookup_alter_eq. destruct (l !! i) as [x|] eqn:E; cbn.
    + apply lookup_lt_Some in E. rewrite bool_decide_true by done. by rewrite orb_true_r.
    + apply lookup_ge_None in E. rewrite bool_decide_false by lia. done.
  - rewrite list_lookup_alter_ne by done. rewrite (bool_decide_false (_ /\ _)) by naive_solver.
    by rewrite orb_false_r.
Qed.

Lemma flag_alter_self l i : is_Some (l !! i) -> flag (alter set_matched i l) i = true.
Proof.
  intros H%lookup_lt_is_Some. by rewrite flag_alter, bool_decide_true, orb_true_r.
Qed.

Lemma flag_alter_mono l i k : flag l k = true -> flag (alter set_matched i l) k = true.
Proof. rewrite flag_alter. by intros ->. Qed.

(** The test of a pair, with the flags set meanwhile. *)
Lemma pair_matches_marks cross x1 x2 y1 y2 b :
  marks x1 y1 -> marks x2 y2 -> pair_matches cross y1 y2 = inr b ->
  pair_matches cross x1 x2 = inr b \/ (b = false /\ matched y2 = true).
Proof.
  intros [-> | ->] [-> | ->]; unfold pair_matches; cbn [descriptor matched set_matched];
    rewrite ?orb_true_r; (by left) || (intros [= <-]; by right).
Qed.

(** The phase of the task of a pair. *)
Definition phase (s : PState) (i j : nat) : option IPhase :=
  match p_tasks s !! i with
  | Some ONew => Some ICheck
  | Some (ORun l) => l !! j
  | Some ODone => Some IDone
  | None => None
  end.

Context (cross : bool) (olds news : list ImageSegment).

(** The pair [(i, j)] passes both tests when no flag is set. *)
Definition matching (i j : nat) : Prop :=
  exists x1 x2, olds !! i = Some x1 /\ news !! j = Some x2 /\ usable x1 = true /\
    pair_matches cross x1 x2 = inr true.

(** What each phase knows. *)
Definition phase_ok (s : PState) (i j : nat) (p : IPhase) : Prop :=
  match p with
  | ICheck => True
  | ISetOld => matching i j
  | ISetNew => matching i j /\ flag (p_olds s) i = true
  | IDraw => matching i j /\ flag (p_olds s) i = true /\ flag (p_news s) j = true
  | IDone => matching i j -> flag (p_news s) j = true
  end.

Record p_inv (s : PState) : Prop := {
  pi_olds : Forall2 marks olds (p_olds s);
  pi_news : Forall2 marks news (p_news s);
  pi_tasks : length (p_tasks s) = length olds;
  pi_new_task i : p_tasks s !! i = Some ONew -> flag (p_olds s) i = false;
  pi_run i l : p_tasks s !! i = Some (ORun l) ->
    length l = length news /\ exists x, olds !! i = Some x /\ usable x = true;
  pi_phase i j p : phase s i j = Some p -> phase_ok s i j p;
  pi_drawn i j : (i, j) ∈ p_drawn s -> phase_ok s i j IDraw;
  pi_old i : flag (p_olds s) i = true ->
    exists j, (i, j) ∈ p_drawn s \/ phase s i j = Some ISetNew \/ phase s i j = Some IDraw;
  pi_new j : flag (p_news s) j = true ->
    exists i, (i, j) ∈ p_drawn s \/ phase s i j = Some IDraw
}.

Lemma phase_set_task s i o i' j' :
  (i < length (p_tasks s))%nat ->
  phase (set_task i o s) i' j' =
    if decide (i' = i)
    then match o with ONew => Some ICheck | ORun l => l !! j' | ODone => Some IDone end
    else phase s i' j'.
Proof.
  intros Hi. unfold phase, set_task; cbn [p_tasks]. case_decide as E.
  - subst. by rewrite list_lookup_insert_eq.
  - by rewrite list_lookup_insert_ne.
Qed.

Lemma phase_set_inner s i j p q l o n d i' j' :
  p_tasks s !! i = Some (ORun l) -> l !! j = Some q ->
  phase (set_inner i j p l (mkPState o n (p_tasks s) d)) i' j' =
    if decide (i' = i /\ j' = j) then Some p else phase s i' j'.
Proof.
  intros Hi Hj. unfold set_inner. rewrite phase_set_task by (by eapply lookup_lt_Some).
  case_decide as E1.
  - subst. unfold phase; cbn [p_tasks]. rewrite Hi. case_decide as E2.
    + destruct E2 as [_ ->]. rewrite list_lookup_insert_eq; [done|]. by eapply lookup_lt_Some.
    + rewrite list_lookup_insert_ne; [done|]. naive_solver.
  - rewrite (decide_False (P := _ /\ _)) by naive_solver. done.
Qed.

(** [phase_ok] looks at the flags only, and they only get set. *)
Lemma phase_ok_mono s s' i j p :
  (forall k, flag (p_olds s) k = true -> flag (p_olds s') k = true) ->
  (forall k, flag (p_news s) k = true -> flag (p_news s') k = true) ->
  phase_ok s i j p -> phase_ok s' i j p.
Proof. destruct p; cbn; naive_solver. Qed.

Lemma p_inv_init :
  Forall (fun x => matched x = false) olds -> Forall (fun x => matched x = false) news ->
  p_inv (p_init olds news).
Proof.
  intros Ho Hn. rewrite Forall_forall in Ho, Hn.
  assert (forall l i, (forall x, x ∈ l -> matched x = false) -> flag l i = false) as Hf.
  { intros l i H. unfold flag. destruct (l !! i) eqn:E; [|done]. by eapply H, list_elem_of_lookup_2. }
  split; cbn [p_init p_olds p_news p_tasks p_drawn].
  - reflexivity.
  - reflexivity.
  - apply length_replicate.
  - intros i _. by apply Hf.
  - intros i l [[=] _]%lookup_replicate.
  - intros i j p. unfold phase; cbn [p_init p_tasks].
    destruct (replicate _ _ !! i) as [o|] eqn:E; [|done].
    apply lookup_replicate in E as [-> _]. by intros [= <-].
  - by intros i j H%elem_of_nil.
  - intros i. by rewrite (Hf olds).
  - intros j. by rewrite (Hf news).
Qed.

(** Starting and finishing an outer task. *)
Lemma p_inv_task s i o' :
  p_inv s -> (i < length (p_tasks s))%nat -> o' <> ONew ->
  (forall l, o' = ORun l ->
     length l = length news /\ exists x, olds !! i = Some x /\ usable x = true) ->
  (forall j p, phase (set_task i o' s) i j = Some p -> phase_ok s i j p) ->
  (forall j p, phase s i j = Some p -> p = ICheck \/ p = IDone) ->
  p_inv (set_task i o' s).
Proof.
  intros [I1 I2 I3 I4 I5 I6 I7 I8 I9] Hi Hn Hr Hp Hold.
  split; try done; cbn [set_task p_olds p_news p_tasks p_drawn].
  - by rewrite length_insert.
  - intros k Hk. destruct (decide (k = i)) as [->|]; [by rewrite list_lookup_insert_eq in Hk; [injection Hk|]|].
    rewrite list_lookup_insert_ne in Hk by done. by apply I4.
  - intros k l Hk. destruct (decide (k = i)) as [->|].
    + rewrite list_lookup_insert_eq in Hk by done. injection Hk as Hk. by apply Hr.
    + rewrite list_lookup_insert_ne in Hk by done. by apply I5.
  - intros k j p Hk. destruct (decide (k = i)) as [->|]; [by apply Hp in Hk|].
    rewrite phase_set_task, decide_False in Hk by done. by apply I6 in Hk.
  - intros k (j & H)%I8. exists j. rewrite phase_set_task by done. case_decide; [subst|done].
    destruct H as [H|H]; [by left|]. exfalso. by destruct H as [[]%Hold|[]%Hold].
  - intros j (k & H)%I9. exists k. rewrite phase_set_task by done. case_decide; [subst|done].
    destruct H as [H|H]; [by left|]. by apply Hold in H as [].
Qed.

(** A step of an inner task: what has to be checked of the new flags and phase. *)
Lemma p_inv_inner s i j l p p' o n d :
  p_inv s -> p_tasks s !! i = Some (ORun l) -> l !! j = Some p ->
  let s' := set_inner i j p' l (mkPState o n (p_tasks s) d) in
  Forall2 marks olds o -> Forall2 marks news n ->
  (forall k, flag (p_olds s) k = true -> flag o k = true) ->
  (forall k, flag (p_news s) k = true -> flag n k = true) ->
  (forall k, flag o k = true -> flag (p_olds s) k = true \/ k = i /\ p' = ISetNew) ->
  (forall k, flag n k = true -> flag (p_news s) k = true \/ k = j /\ p' = IDraw) ->
  (forall q, q ∈ d -> q ∈ p_drawn s \/ q = (i, j) /\ p = IDraw) ->
  (forall q, q ∈ p_drawn s -> q ∈ d) ->
  phase_ok s' i j p' ->
  (p = ISetNew -> p' = IDraw) -> (p = IDraw -> (i, j) ∈ d) ->
  p_inv s'.
Proof.
  intros [I1 I2 I3 I4 I5 I6 I7 I8 I9] Hi Hj s' Ho Hn Mo Mn No Nn Nd Md Hp Hset Hdraw.
  assert (forall k m q, phase_ok s k m q -> phase_ok s' k m q) as Hmono
    by (intros k m q; by apply phase_ok_mono).
  assert (phase s i j = Some p) as Hph by (unfold phase; by rewrite Hi).
  assert (forall k m, phase s' k m = if decide (k = i /\ m = j) then Some p' else phase s k m) as Hs'
    by (intros k m; by eapply phase_set_inner).
  assert (i < length (p_tasks s))%nat as Hlen by by eapply lookup_lt_Some.
  split; try done; unfold s'; cbn [set_inner set_task p_olds p_news p_tasks p_drawn]; fold s'.
  - by rewrite length_insert.
  - intros k Hk. destruct (decide (k = i)) as [->|Hne];
      [by rewrite list_lookup_insert_eq in Hk|]. rewrite list_lookup_insert_ne in Hk by done.
    apply I4 in Hk. destruct (flag o k) eqn:E; [|done]. apply No in E as [E|[E _]]; congruence.
  - intros k l' Hk. destruct (decide (k = i)) as [->|Hne].
    + rewrite list_lookup_insert_eq in Hk by done. injection Hk as <-. rewrite length_insert. eauto.
    + rewrite list_lookup_insert_ne in Hk by done. by apply I5.
  - intros k m q. rewrite Hs'. case_decide as E; [|by intros H%I6; apply Hmono].
    destruct E as [-> ->]. by intros [= <-].
  - intros k m [H|[[= -> ->] ->]]%Nd; [by apply Hmono, I7|]. by apply Hmono, I6.
  - intros k [H|[-> ->]]%No; [|exists j; rewrite Hs', decide_True by done; auto].
    apply I8 in H as (m & H). exists m. rewrite Hs'. case_decide as E; [destruct E as [-> ->]|].
    + rewrite Hph in H. destruct H as [H|[[= ->]|[= ->]]]; [by left; apply Md| |by left; apply Hdraw].
      rewrite Hset by done. auto.
    + destruct H as [H|H]; [by left; apply Md|by right].
  - intros k [H|[-> ->]]%Nn; [|exists i; rewrite Hs', decide_True by done; auto].
    apply I9 in H as (m & H). exists m. rewrite Hs'. case_decide as E; [destruct E as [-> ->]|].
    + rewrite Hph in H. destruct H as [H|[= ->]]; [by left; apply Md|by left; apply Hdraw].
    + destruct H as [H|H]; [by left; apply Md|by right].
Qed.

(** A flag that an action sets. *)
Lemma flag_alter_inv l i k (P : Prop) :
  P -> flag (alter set_matched i l) k = true -> flag l k = true \/ k = i /\ P.
Proof. intros HP. rewrite flag_alter, orb_true_iff, bool_decide_eq_true. naive_solver. Qed.

Lemma p_inv_outer s i o' :
  p_inv s ->
  ((p_tasks s !! i = Some ONew /\ exists x, p_olds s !! i = Some x /\
      o' = (if usable x then ORun (replicate (length (p_news s)) ICheck) else ODone)) \/
   (exists l, p_tasks s !! i = Some (ORun l) /\ forallb is_done l = true /\ o' = ODone)) ->
  p_inv (set_task i o' s).
Proof.
  intros I [(Hi & y & Hy & ->)|(l & Hi & Hd & ->)];
    assert (i < length (p_tasks s))%nat as Hlt by by eapply lookup_lt_Some.
  - destruct (Forall2_lookup_r _ _ _ _ _ (pi_olds s I) Hy) as (x & Hx & Hm).
    pose proof (pi_new_task s I i Hi) as Hf. unfold flag in Hf. rewrite Hy in Hf.
    assert (y = x) as -> by by destruct Hm as [-> | ->].
    assert (forall j p, phase s i j = Some p -> p = ICheck) as Hc
      by (unfold phase; rewrite Hi; by intros j p [= <-]).
    apply p_inv_task; [done|done|by destruct (usable x)| | |eauto].
    + intros l. destruct (usable x) eqn:Hu; [|done]. intros [= <-].
      rewrite length_replicate, (Forall2_length _ _ _ (pi_news s I)). eauto.
    + intros j p. rewrite phase_set_task, decide_True by done. destruct (usable x) eqn:Hu.
      * intros [-> _]%lookup_replicate. done.
      * intros [= <-] (x1 & x2 & Hx1 & _ & Hu1 & _). exfalso. congruence.
  - assert (forall j p, phase s i j = Some p -> p = IDone) as Hc.
    { unfold phase. rewrite Hi. intros j p Hj. rewrite forallb_forall in Hd.
      assert (is_done p = true) as Hp by (apply Hd, list_elem_of_In; by eapply list_elem_of_lookup_2).
      by destruct p. }
    apply p_inv_task; [done|done|done|done| |eauto].
    intros j p. rewrite phase_set_task, decide_True by done. intros [= <-] M.
    pose proof M as (x1 & x2 & _ & Hx2 & _). apply lookup_lt_Some in Hx2.
    destruct (pi_run s I i l Hi) as [Hl _].
    destruct (lookup_lt_is_Some_2 l j) as [q Hq]; [lia|].
    assert (phase s i j = Some q) as Hph by (unfold phase; by rewrite Hi).
    pose proof (Hc j q Hph) as ->. by apply (pi_phase s I) in Hph; apply Hph.
Qed.

Lemma p_inv_step_inner s i j l p s' :
  p_inv s -> p_tasks s !! i = Some (ORun l) -> l !! j = Some p ->
  inner_step cross i j l p s = Some s' -> p_inv s'.
Proof.
  intros I Hi Hj Hs.
  assert (phase s i j = Some p) as Hph by (unfold phase; by rewrite Hi).
  pose proof (pi_phase s I i j p Hph) as Hok.
  destruct (pi_run s I i l Hi) as (Hl & x & Hx & Hu).
  assert (is_Some (p_olds s !! i)) as Hoi.
  { apply lookup_lt_is_Some. rewrite <- (Forall2_length _ _ _ (pi_olds s I)).
    by eapply lookup_lt_Some. }
  assert (is_Some (p_news s !! j)) as Hnj.
  { apply lookup_lt_is_Some. rewrite <- (Forall2_length _ _ _ (pi_news s I)), <- Hl.
    by eapply lookup_lt_Some. }
  apply inner_step_inv in Hs as (p' & o & n & d & -> & H).
  pose proof (pi_olds s I) as I1. pose proof (pi_news s I) as I2.
  destruct p.
  - destruct H as (-> & -> & -> & y1 & y2 & b & H1 & H2 & Hm & ->).
    destruct (Forall2_lookup_r _ _ _ _ _ I1 H1) as (x1 & Hx1 & M1).
    destruct (Forall2_lookup_r _ _ _ _ _ I2 H2) as (x2 & Hx2 & M2).
    apply (p_inv_inner s i j l ICheck); try done; try (by left); try by destruct b.
    destruct (pair_matches_marks cross x1 x2 y1 y2 b M1 M2 Hm) as [E|[-> E]].
    + destruct b; cbn; [exists x1, x2; split_and!; congruence|]. intros (z1 & z2 & Z).
      destruct Z as (Z1 & Z2 & _ & Z3). congruence.
    + cbn. intros _. unfold flag. by rewrite H2.
  - destruct H as (-> & -> & -> & ->).
    apply (p_inv_inner s i j l ISetOld); try done; try (by left).
    + by apply marks_alter.
    + intros k. apply flag_alter_mono.
    + intros k. by apply flag_alter_inv.
    + cbn. split; [done|]. by apply flag_alter_self.
  - destruct H as (-> & -> & -> & ->). destruct Hok as [HM Hf].
    apply (p_inv_inner s i j l ISetNew); try done; try (by left).
    + by apply marks_alter.
    + intros k. apply flag_alter_mono.
    + intros k. by apply flag_alter_inv.
    + cbn. split_and!; [done|done|by apply flag_alter_self].
  - destruct H as (-> & -> & -> & ->). destruct Hok as (HM & Hf & Hg).
    apply (p_inv_inner s i j l IDraw); try done; try by left.
    + intros q. rewrite elem_of_app, list_elem_of_singleton. naive_solver.
    + intros q Hq. rewrite elem_of_app. by left.
    + by intros _.
    + intros _. rewrite elem_of_app. right. by apply list_elem_of_singleton.
  - done.
Qed.

Lemma p_inv_run l s s' : p_inv s -> run_schedule cross l s = Some s' -> p_inv s'.
Proof.
  revert s. induction l as [|a l IH]; intros s I; cbn; [by intros [= <-]|].
  intros H. apply bind_Some in H as (s1 & H1 & H). apply (IH s1); [|done].
  apply act_inv in H1 as [(i & o' & -> & H1)|(i & j & k & p & Hi & Hj & H1)].
  - by apply p_inv_outer.
  - by apply (p_inv_step_inner s i j k p).
Qed.

(** Every task has finished. *)
Definition p_final (s : PState) : Prop := Forall (fun o => o = ODone) (p_tasks s).

(** What is known at the end of a run. *)
Lemma final_phase s i j : p_final s -> (i < length (p_tasks s))%nat -> phase s i j = Some IDone.
Proof.
  intros Hf [o Ho]%lookup_lt_is_Some. unfold phase. rewrite Ho.
  unfold p_final in Hf. rewrite Forall_forall in Hf.
  by rewrite (Hf o) by (by eapply list_elem_of_lookup_2).
Qed.

Lemma final_new s j :
  p_inv s -> p_final s -> flag (p_news s) j = true <-> exists i, matching i j.
Proof.
  intros I Hf. split.
  - intros (i & [H|H])%(pi_new s I).
    + apply (pi_drawn s I) in H as [H _]. by exists i.
    + apply (pi_phase s I) in H as [H _]. by exists i.
  - intros (i & HM). pose proof HM as (x & _ & Hx & _).
    apply lookup_lt_Some in Hx. rewrite <- (pi_tasks s I) in Hx.
    pose proof (pi_phase s I i j IDone (final_phase s i j Hf Hx)) as H. by apply H.
Qed.

Lemma final_drawn s :
  p_inv s -> p_final s ->
  (forall i j, (i, j) ∈ p_drawn s -> matching i j) /\
  (forall i, flag (p_olds s) i = true <-> exists j, (i, j) ∈ p_drawn s) /\
  (forall j, flag (p_news s) j = true <-> exists i, (i, j) ∈ p_drawn s).
Proof.
  intros I Hf.
  assert (forall i j p, phase s i j = Some p -> p = IDone) as Hd.
  { intros i j p Hp. destruct (p_tasks s !! i) as [o|] eqn:E.
    - rewrite (final_phase s i j Hf) in Hp by (by eapply lookup_lt_Some). by injection Hp.
    - unfold phase in Hp. by rewrite E in Hp. }
  split_and!.
  - intros i j H. by apply (pi_drawn s I) in H as [H _].
  - intros i. split.
    + intros (j & [H|[H%Hd|H%Hd]])%(pi_old s I); [by exists j|done..].
    + intros (j & H). by apply (pi_drawn s I) in H as (_ & H & _).
  - intros j. split.
    + intros (i & [H|H%Hd])%(pi_new s I); [by exists i|done].
    + intros (i & H). by apply (pi_drawn s I) in H as (_ & _ & H).
Qed.
End Invariant.

(** ** Progress *)

Section Progress.
Context `{CV : OpenCV} {SS : StdSort}.

#[export] Instance IPhase_eq_dec : EqDecision IPhase.
Proof. solve_decision. Defined.
#[export] Instance OPhase_eq_dec : EqDecision OPhase.
Proof. solve_decision. Defined.

#[export] Instance p_final_dec s : Decision (p_final s).
Proof. unfold p_final. apply _. Defined.

Context (cross : bool) (olds news : list ImageSegment).

(** No test of a pair throws. *)
Definition tests_return : Prop :=
  forall x1 x2, x1 ∈ olds -> x2 ∈ news -> exists b, pair_matches cross x1 x2 = inr b.

Lemma tests_return_marks x1 x2 y1 y2 :
  tests_return -> x1 ∈ olds -> x2 ∈ news -> marks x1 y1 -> marks x2 y2 ->
  exists b, pair_matches cross y1 y2 = inr b.
Proof.
  intros Ht H1 H2 [-> | ->] [-> | ->];
    try (exists false; unfold pair_matches; cbn; by rewrite orb_true_r).
  all: exact (Ht x1 x2 H1 H2).
Qed.

Lemma inner_progress s i j l p :
  tests_return -> p_inv cross olds news s -> p_tasks s !! i = Some (ORun l) -> l !! j = Some p ->
  p <> IDone -> exists s', inner_step cross i j l p s = Some s'.
Proof.
  intros Ht I Hi Hj Hp. destruct p; try done; cbn; try (by eexists).
  destruct (pi_run _ _ _ s I i l Hi) as (Hl & x1 & Hx1 & _).
  destruct (lookup_lt_is_Some_2 news j) as [x2 Hx2]; [rewrite <- Hl; by eapply lookup_lt_Some|].
  destruct (Forall2_lookup_l _ _ _ _ _ (pi_olds _ _ _ s I) Hx1) as (y1 & Hy1 & M1).
  destruct (Forall2_lookup_l _ _ _ _ _ (pi_news _ _ _ s I) Hx2) as (y2 & Hy2 & M2).
  destruct (tests_return_marks x1 x2 y1 y2 Ht) as [b E];
    [by eapply list_elem_of_lookup_2..|done|done|].
  rewrite Hy1; cbn. rewrite Hy2; cbn. rewrite E. destruct b; by eexists.
Qed.

Lemma act_progress s :
  tests_return -> p_inv cross olds news s -> ~ p_final s -> exists a s', act cross a s = Some s'.
Proof.
  intros Ht I Hn. unfold p_final in Hn. apply not_Forall_Exists in Hn; [|apply _].
  apply Exists_exists in Hn as (o & Ho & Hne). apply list_elem_of_lookup in Ho as (i & Hi).
  destruct o as [|l|]; [| |by destruct Hne].
  - exists (Outer i). cbn. rewrite Hi; cbn. unfold outer_start.
    assert (is_Some (p_olds s !! i)) as [y ->].
    { apply lookup_lt_is_Some.
      rewrite <- (Forall2_length _ _ _ (pi_olds _ _ _ s I)), <- (pi_tasks _ _ _ s I).
      by eapply lookup_lt_Some. }
    by eexists.
  - destruct (forallb is_done l) eqn:E.
    + exists (Outer i). cbn. rewrite Hi; cbn. rewrite E. by eexists.
    + destruct (decide (Forall (fun p => is_done p = true) l)) as [H|H].
      * exfalso. enough (forallb is_done l = true) by congruence.
        apply forallb_forall. intros p Hp. rewrite Forall_forall in H. by apply H, list_elem_of_In.
      * apply not_Forall_Exists, Exists_exists in H as (p & Hp & Hd); [|apply _].
        apply list_elem_of_lookup in Hp as (j & Hj).
        destruct (inner_progress s i j l p Ht I Hi Hj) as [s' Hs]; [intros ->; by apply Hd|].
        exists (Inner i j), s'. cbn. rewrite Hi; cbn. by rewrite Hj.
Qed.

Lemma run_schedule_app l k s :
  run_schedule cross (l ++ k) s = (s' ← run_schedule cross l s; run_schedule cross k s').
Proof.
  revert s. induction l as [|a l IH]; intros s; [done|]. cbn.
  destruct (act cross a s) as [s1|]; [apply IH|done].
Qed.

(** Every run can be completed. *)
Lemma run_completes s :
  tests_return -> p_inv cross olds news s ->
  exists l s', run_schedule cross l s = Some s' /\ p_final s'.
Proof.
  intros Ht. induction s as [s IH] using (induction_ltof1 _ p_measure). intros I.
  destruct (decide (p_final s)) as [Hf|Hf]; [by exists [], s|].
  destruct (act_progress s Ht I Hf) as (a & s1 & Ha).
  destruct (IH s1) as (l & s' & Hl & Hs).
  - unfold ltof. by eapply act_measure.
  - apply (p_inv_run _ _ _ [a] s); [done|]. cbn. by rewrite Ha.
  - exists (a :: l), s'. cbn. by rewrite Ha.
Qed.
End Progress.
