(* ===== verification/ParallelImages.v ===== *)
(** The images of the TBB build, and what the schedule decides.

    Over the runs of Parallel.v: they end; the marks on the new segments and the pixels
    of the difference image are the same for every schedule; the marks on the old
    segments, and so [_delete.png], are not.  Here the pairs are drawn one after the other;
    TbbPairs lets the accesses that draw them interleave. *)

From S2P Require Import Prelude StdLib Cv CvGrid Perf State Matcher Segments Diff Parallel.

(** ** The difference image of a run *)

(** [cv::rectangle] paints the pixels of a frame that the size of the image, the
    rectangle and the thickness determine, all in the given color. *)
Class FrameLaws (CV : OpenCV) := {
  on_frame : Z -> Z -> Rect -> Z -> Z -> Z -> bool;
  rectangle_pixels m r c t m' y x :
    mtype m = CV_8UC3 -> rectangle m r c t = inr m' ->
    at_Vec3b m' y x = if on_frame (rows m) (cols m) r t y x
                      then Some (mkVec3b (blue c) (green c) (red c)) else at_Vec3b m y x
}.

Section Image.
Context `{CV : OpenCV} {SS : StdSort}.

(** The pairs drawn on the shared [result], in the order of the run. *)
Definition paint (og oc nc : Mat) (news : list ImageSegment) (l : list (nat * nat)) (result : Mat) :
    exc Mat :=
  for_each l (fun q result =>
    x2 ← deref (news !! snd q);
    draw_pair og oc nc x2 result) result.

Context {ML : MatLaws CV} {RL : RectLaws CV} {DL : DiffLaws CV} {FL : FrameLaws CV}.

(** Whether drawing the part [x2] makes the pixel [(y, x)] red. *)
Definition reddens (og oc nc : Mat) (x2 : ImageSegment) (y x : Z) : bool :=
  match found og x2 with
  | inl _ => false
  | inr rect =>
      on_frame (rows og) (cols og) rect 1 y x ||
      bool_decide ((y - ry rect, x - rx rect) ∈ offsets rect /\ differ oc nc rect (area x2) y x)
  end.

Lemma draw_pair_pixels og oc nc x2 m m' :
  images_ready og oc nc -> placed nc x2 -> canvas og m -> draw_pair og oc nc x2 m = inr m' ->
  canvas og m' /\
  forall y x, at_Vec3b m' y x =
    if reddens og oc nc x2 y x then Some red_pixel else at_Vec3b m y x.
Proof.
  intros Hi Hx Hm E. destruct (draw_pair_Done _ _ _ _ _ _ Hi Hx Hm E)
    as (Hm' & rect & Hf & framed & _ & _ & _ & Ef & [_ Hmk]).
  split; [done|]. intros y x. rewrite Hmk. unfold reddens. rewrite Hf.
  destruct Hm as (Hr & Hc & Ht). rewrite (rectangle_pixels _ _ _ _ _ y x Ht Ef), Hr, Hc.
  case_decide as E1.
  - by rewrite bool_decide_true, orb_true_r by done.
  - by rewrite bool_decide_false, orb_false_r by done.
Qed.

(** Whether drawing the pairs of [l] does. *)
Definition reddened (og oc nc : Mat) (news : list ImageSegment) (l : list (nat * nat)) (y x : Z) :
    bool :=
  existsb (fun q => match news !! snd q with
                    | Some x2 => reddens og oc nc x2 y x
                    | None => false
                    end) l.

Lemma reddened_incl og oc nc news l k y x :
  (forall i j, (i, j) ∈ l -> exists i', (i', j) ∈ k) ->
  reddened og oc nc news l y x = true -> reddened og oc nc news k y x = true.
Proof.
  intros H. unfold reddened. rewrite !existsb_exists. intros ([i j] & Hq & Hr).
  apply list_elem_of_In, H in Hq as [i' Hq]. exists (i', j). by rewrite <- list_elem_of_In.
Qed.

Lemma paint_pixels og oc nc news l m m' :
  images_ready og oc nc -> Forall (placed nc) news -> canvas og m ->
  paint og oc nc news l m = inr m' ->
  forall y x, at_Vec3b m' y x =
    if reddened og oc nc news l y x then Some red_pixel else at_Vec3b m y x.
Proof.
  intros Hi Hn. rewrite Forall_forall in Hn. revert m.
  induction l as [|[i j] l IH]; intros m Hm; cbn [paint for_each]; [by intros [= <-]|].
  intros (m1 & (x2 & Hx2%deref_inr & E1)%exc_bind_inr & E)%exc_bind_inr y x. cbn [snd] in Hx2.
  apply draw_pair_pixels in E1 as [Hm1 E1];
    [|done|apply Hn; by eapply list_elem_of_lookup_2|done].
  rewrite (IH m1 Hm1 E y x), E1. unfold reddened; cbn [existsb snd]. rewrite Hx2.
  by destruct (reddens _ _ _ _ _ _), (existsb _ _).
Qed.
End Image.

(** ** What every run shares *)

Section Runs.
Context `{CV : OpenCV} {SS : StdSort}.

Definition unmatched (l : list ImageSegment) : Prop := Forall (fun x => matched x = false) l.

(** A completed run of the loops. *)
Definition p_run (cross : bool) (olds news : list ImageSegment) (l : list action) (s : PState) : Prop :=
  run_schedule cross l (p_init olds news) = Some s /\ p_final s.

Lemma p_run_inv cross olds news l s :
  unmatched olds -> unmatched news -> p_run cross olds news l s -> p_inv cross olds news s.
Proof. intros Ho Hn [H _]. apply (p_inv_run _ _ _ l (p_init olds news)); [by apply p_inv_init|done]. Qed.

(** A marked list is determined by its flags. *)
Lemma marks_flags l0 l k :
  unmatched l0 -> Forall2 marks l0 l -> Forall2 marks l0 k ->
  (forall i, flag l i = true <-> flag k i = true) -> l = k.
Proof.
  intros Hu Hl Hk Hf. apply list_eq_same_length with (n := length l0);
    [by rewrite (Forall2_length _ _ _ Hk)|by rewrite (Forall2_length _ _ _ Hl)|].
  intros i x y Hi Hx Hy.
  destruct (Forall2_lookup_r _ _ _ _ _ Hl Hx) as (z & Hz & Mx).
  destruct (Forall2_lookup_r _ _ _ _ _ Hk Hy) as (z' & Hz' & My).
  assert (z' = z) as -> by congruence.
  unfold unmatched in Hu. rewrite Forall_forall in Hu.
  assert (matched z = false) as Hmz by (apply Hu; by eapply list_elem_of_lookup_2).
  specialize (Hf i). unfold flag in Hf. rewrite Hx, Hy in Hf.
  destruct Mx as [-> | ->], My as [-> | ->]; try done; cbn in Hf; naive_solver congruence.
Qed.

Lemma runs_news cross olds news l1 l2 s1 s2 :
  unmatched olds -> unmatched news ->
  p_run cross olds news l1 s1 -> p_run cross olds news l2 s2 -> p_news s1 = p_news s2.
Proof.
  intros Ho Hn R1 R2. pose proof (p_run_inv _ _ _ _ _ Ho Hn R1) as I1.
  pose proof (p_run_inv _ _ _ _ _ Ho Hn R2) as I2. destruct R1 as [_ F1], R2 as [_ F2].
  apply (marks_flags news); [done|apply (pi_news _ _ _ _ I1)|apply (pi_news _ _ _ _ I2)|].
  intros j. by rewrite (final_new _ _ _ _ j I1 F1), (final_new _ _ _ _ j I2 F2).
Qed.

Lemma runs_drawn cross olds news l1 l2 s1 s2 :
  unmatched olds -> unmatched news ->
  p_run cross olds news l1 s1 -> p_run cross olds news l2 s2 ->
  forall i j, (i, j) ∈ p_drawn s1 -> exists i', (i', j) ∈ p_drawn s2.
Proof.
  intros Ho Hn R1 R2 i j H. pose proof (p_run_inv _ _ _ _ _ Ho Hn R1) as I1.
  pose proof (p_run_inv _ _ _ _ _ Ho Hn R2) as I2. destruct R1 as [_ F1], R2 as [_ F2].
  apply (final_drawn _ _ _ _ I2 F2), (final_new _ _ _ _ j I2 F2).
  exists i. by apply (final_drawn _ _ _ _ I1 F1).
Qed.
End Runs.

(** ** Properties *)

Section Properties.
Context `{CV : OpenCV} {SS : StdSort}.

(** The loops of the TBB build end under every schedule: with [n] old and [m] new
    segments a run has at most [n * (2 + 4 * m)] accesses; as long as a task is not
    finished some task can move, whatever the others have done; so every run can be
    completed. *)
Theorem parallel_terminates (cross : bool) (olds news : list ImageSegment) (l : list action)
    (s : PState) :
  unmatched olds -> unmatched news -> tests_return cross olds news ->
  run_schedule cross l (p_init olds news) = Some s ->
  (length l <= length olds * (2 + 4 * length news))%nat /\
  (~ p_final s -> exists a s', act cross a s = Some s') /\
  exists k s', p_run cross olds news (l ++ k) s'.
Proof.
  intros Ho Hn Ht H. pose proof (p_inv_run _ _ _ l _ s (p_inv_init cross _ _ Ho Hn) H) as I.
  split_and!.
  - apply run_measure in H. rewrite init_measure in H. lia.
  - intros Hf. by apply (act_progress cross olds news).
  - destruct (run_completes cross olds news s Ht I) as (k & s' & Hk & Hs).
    exists k, s'. split; [|done]. by rewrite run_schedule_app, H.
Qed.

(** In the TBB build, whatever the schedule, a new segment ends marked exactly when
    some old segment with a descriptor matches it; only matching pairs are drawn, and
    the marked segments of either image are exactly those of the drawn pairs. *)
Theorem parallel_marks (cross : bool) (olds news : list ImageSegment) (l : list action)
    (s : PState) :
  unmatched olds -> unmatched news -> p_run cross olds news l s ->
  (forall j, flag (p_news s) j = true <->
     exists i x1 x2, olds !! i = Some x1 /\ news !! j = Some x2 /\
       mat_empty (descriptor x1) = false /\ pair_matches cross x1 x2 = inr true) /\
  (forall i j, (i, j) ∈ p_drawn s -> exists x1 x2,
     olds !! i = Some x1 /\ news !! j = Some x2 /\ pair_matches cross x1 x2 = inr true) /\
  (forall i, flag (p_olds s) i = true <-> exists j, (i, j) ∈ p_drawn s) /\
  (forall j, flag (p_news s) j = true <-> exists i, (i, j) ∈ p_drawn s).
Proof.
  intros Ho Hn R. pose proof (p_run_inv _ _ _ _ _ Ho Hn R) as I. destruct R as [_ F].
  destruct (final_drawn _ _ _ _ I F) as (Hd & Hold & Hnew). split_and!; [|  |done|done].
  - intros j. rewrite (final_new _ _ _ _ j I F). unfold matching, usable.
    unfold unmatched in Ho. rewrite Forall_forall in Ho. split.
    + intros (i & x1 & x2 & H1 & H2 & [Hu _]%negb_true_iff%orb_false_iff & Hm). by exists i, x1, x2.
    + intros (i & x1 & x2 & H1 & H2 & Hu & Hm). exists i, x1, x2. split_and!; [done..| |done].
      by rewrite Hu, (Ho x1) by (by eapply list_elem_of_lookup_2).
  - intros i j (x1 & x2 & H1 & H2 & _ & Hm)%Hd. by exists x1, x2.
Qed.

(** The schedule does not show in [_diff.png] nor in [_add.png]: two completed runs of
    the TBB loops leave the same new segments with the same marks, hence the same frames
    on the added image, and canvases with the same pixels, although they may draw the
    pairs in different orders and different numbers of times. *)
Theorem parallel_schedule_free `{!MatLaws CV, !RectLaws CV, !DiffLaws CV, !FrameLaws CV}
    (cross : bool) (olds news : list ImageSegment) (l1 l2 : list action) (s1 s2 : PState)
    (og oc nc m m1 m2 : Mat) :
  unmatched olds -> unmatched news ->
  images_ready og oc nc -> Forall (placed nc) news -> canvas og m ->
  p_run cross olds news l1 s1 -> p_run cross olds news l2 s2 ->
  paint og oc nc news (p_drawn s1) m = inr m1 -> paint og oc nc news (p_drawn s2) m = inr m2 ->
  p_news s1 = p_news s2 /\ to_frame (p_news s1) = to_frame (p_news s2) /\
  forall y x, at_Vec3b m1 y x = at_Vec3b m2 y x.
Proof.
  intros Ho Hn Hi Hp Hm R1 R2 E1 E2. pose proof (runs_news _ _ _ _ _ _ _ Ho Hn R1 R2) as Hnews.
  split_and!; [done|by rewrite Hnews|]. intros y x.
  rewrite (paint_pixels _ _ _ _ _ _ _ Hi Hp Hm E1 y x), (paint_pixels _ _ _ _ _ _ _ Hi Hp Hm E2 y x).
  pose proof (reddened_incl og oc nc news _ _ y x (runs_drawn _ _ _ _ _ _ _ Ho Hn R1 R2)).
  pose proof (reddened_incl og oc nc news _ _ y x (runs_drawn _ _ _ _ _ _ _ Ho Hn R2 R1)).
  destruct (reddened og oc nc news (p_drawn s1) y x), (reddened og oc nc news (p_drawn s2) y x);
    naive_solver.
Qed.
End Properties.

(** ** Two schedules *)

(** The first old segment's task runs alone, and marks the new segment before the second
    tests it. *)
Definition in_turn : list action :=
  [Outer 0; Inner 0 0; Inner 0 0; Inner 0 0; Inner 0 0; Outer 0; Outer 1; Inner 1 0; Outer 1].

(** Both tasks test the new segment before either marks it. *)
Definition at_once : list action :=
  [Outer 0; Outer 1; Inner 0 0; Inner 1 0; Inner 0 0; Inner 1 0; Inner 0 0; Inner 1 0;
   Inner 1 0; Inner 0 0; Outer 0; Outer 1].

Section Race.
Context `{CV : OpenCV} {SS : StdSort}.

(** C24 The marks on the old segments, and so the frames of [_delete.png], depend on the
    schedule of the TBB build.  Whenever two old segments both match the one new segment, a
    run whose tasks go one after the other marks the first old segment only, and leaves
    the second to be framed as deleted; a run whose tasks both test the new segment before
    either marks it marks both, draws both pairs, and leaves none to frame.  Both runs
    finish and mark the new segment. *)
Theorem parallel_old_marks_race (cross : bool) (x1 x2 y : ImageSegment) :
  usable x1 = true -> usable x2 = true ->
  pair_matches cross x1 y = inr true -> pair_matches cross x2 y = inr true ->
  exists s1 s2,
    p_run cross [x1; x2] [y] in_turn s1 /\ p_run cross [x1; x2] [y] at_once s2 /\
    p_olds s1 = [set_matched x1; x2] /\ p_olds s2 = [set_matched x1; set_matched x2] /\
    to_frame (p_olds s1) = [x2] /\ to_frame (p_olds s2) = [] /\
    p_drawn s1 = [(0, 0)]%nat /\ p_drawn s2 = [(1, 0); (0, 0)]%nat /\
    p_news s1 = [set_matched y] /\ p_news s2 = [set_matched y].
Proof.
  intros H1 H2 M1 M2.
  assert (matched x2 = false) as Hx2.
  { unfold usable in H2. by destruct (matched x2); [rewrite orb_true_r in H2|]. }
  assert (pair_matches cross x2 (set_matched y) = inr false) as Hm
    by (unfold pair_matches; cbn; by rewrite orb_true_r).
  assert (to_frame [set_matched x1; x2] = [x2]) as F1.
  { unfold to_frame. rewrite filter_cons_False by done. by rewrite filter_cons_True. }
  assert (to_frame [set_matched x1; set_matched x2] = []) as F2
    by (unfold to_frame; rewrite !filter_cons_False by done; done).
  exists (mkPState [set_matched x1; x2] [set_matched y] [ODone; ODone] [(0, 0)]%nat),
    (mkPState [set_matched x1; set_matched x2] [set_matched y] [ODone; ODone] [(1, 0); (0, 0)]%nat).
  assert (Forall (fun o => o = ODone) [ODone; ODone]) as Hf by by repeat constructor.
  split_and!; [split; [|exact Hf]|split; [|exact Hf]|done..].
  - unfold in_turn. cbn. unfold outer_start; cbn. rewrite H1; cbn. rewrite M1; cbn.
    rewrite H2; cbn. rewrite Hm; cbn. done.
  - unfold at_once. cbn. unfold outer_start; cbn. rewrite H1; cbn. rewrite H2; cbn.
    rewrite M1; cbn. rewrite M2; cbn. done.
Qed.
End Race.

Definition at_point (y x : Z) (p : Point) : bool := (py p =? y) && (px p =? x).

Lemma grid_draw_at m l v y x :
  g_at (grid_draw m l v) y x = if existsb (at_point y x) l then v else g_at m y x.
Proof.
  unfold grid_draw. revert m. induction l as [|p l IH]; intros m; [done|].
  cbn [foldl existsb]. rewrite IH. cbn [grid_set g_at]. unfold at_point.
  rewrite (Z.eqb_sym y), (Z.eqb_sym x). by destruct (existsb _ l), ((_ =? y) && _).
Qed.

Lemma existsb_eq {A} (f g : A -> bool) l :
  (forall p, f p = g p) -> existsb f l = existsb g l.
Proof. intros H. induction l as [|p l IH]; [done|]. cbn. by rewrite H, IH. Qed.

Lemma existsb_filter {A} (f b : A -> bool) l :
  existsb f (filter (fun p => b p = true) l) = existsb (fun p => f p && b p) l.
Proof.
  induction l as [|p l IH]; [done|]. rewrite filter_cons. cbn [existsb]. rewrite <- IH.
  destruct (b p); [by rewrite andb_true_r|]. by rewrite andb_false_r.
Qed.

#[export] Instance GridFrames : FrameLaws GridCv.
Proof.
  exists (fun r c rect _ y x =>
    existsb (at_point y x) (grid_border rect) && ((0 <=? y) && (y <? r) && (0 <=? x) && (x <? c))).
  cbn. intros m r c _ m' y x Ht [= <-].
  set (v := mkVec3b _ _ _). set (l := filter _ _).
  destruct (grid_draw_shape m l v) as (Hr & Hc & Hg); cbn in Hr, Hc, Hg.
  unfold grid_access. rewrite Hg, Ht, bool_decide_true by done. cbn [andb].
  rewrite grid_draw_at. unfold grid_in at 1. rewrite Hr, Hc. fold (grid_in m y x).
  unfold l. rewrite (existsb_filter _ (fun p => grid_in m (py p) (px p))).
  rewrite (existsb_eq _ (fun p => at_point y x p && grid_in m y x)).
  - destruct (grid_in m y x) eqn:E.
    + rewrite andb_true_r, (existsb_eq _ (at_point y x)) by (intros p; apply andb_true_r).
      by destruct (existsb _ _).
    + by rewrite andb_false_r.
  - intros p. unfold at_point. destruct (Z.eqb_spec (py p) y) as [->|]; [|done].
    by destruct (Z.eqb_spec (px p) x) as [->|].
Qed.

(** A part that occurs twice in the old image and once in the new one. *)
Definition color_twice : Grid := grid_of CV_8UC3 3 4 [7; 8; 0; 0; 0; 0; 7; 8; 0; 0; 0; 0].
Definition twice_olds : list (ImageSegment (CV := GridCv)) :=
  [segment_of color_twice (mkRect 0 0 2 1); segment_of color_twice (mkRect 2 1 2 1)].
Definition twice_news : list (ImageSegment (CV := GridCv)) :=
  [segment_of color_a (mkRect 1 1 2 1)].

Definition after (l : list action) : PState (CV := GridCv) :=
  default (p_init twice_olds twice_news) (run_schedule false l (p_init twice_olds twice_news)).

(** A completed run, decided. *)
Definition p_run_b (l : list action) : bool :=
  match run_schedule (CV := GridCv) false l (p_init twice_olds twice_news) with
  | Some s => forallb (fun o => bool_decide (o = ODone)) (p_tasks s)
  | None => false
  end.

Lemma p_run_after l : p_run_b l = true -> p_run false twice_olds twice_news l (after l).
Proof.
  unfold p_run_b, p_run, after, p_final.
  destruct (run_schedule false l _) as [s|]; [|done]. cbn [default]. split; [done|].
  apply Forall_forall. intros o Ho%list_elem_of_In.
  rewrite forallb_forall in H. by apply H, bool_decide_eq_true in Ho.
Qed.

Lemma run_in_turn : p_run false twice_olds twice_news in_turn (after in_turn).
Proof. apply p_run_after. vm_compute. reflexivity. Qed.

Lemma run_at_once : p_run false twice_olds twice_news at_once (after at_once).
Proof. apply p_run_after. vm_compute. reflexivity. Qed.

Lemma twice_unmatched :
  unmatched (CV := GridCv) twice_olds /\ unmatched (CV := GridCv) twice_news.
Proof. split; repeat constructor. Qed.

(** ** Witnesses *)

Lemma parallel_marks_witness :
  p_run (CV := GridCv) false twice_olds twice_news at_once (after at_once) /\
  forall j, flag (p_news (after at_once)) j = true <-> exists i, (i, j) ∈ p_drawn (after at_once).
Proof.
  split; [exact run_at_once|].
  destruct twice_unmatched as [Ho Hn].
  destruct (parallel_marks false _ _ at_once (after at_once) Ho Hn run_at_once) as (_ & _ & _ & H).
  exact H.
Defined.

Lemma twice_tests : tests_return (CV := GridCv) false twice_olds twice_news.
Proof.
  intros x1 x2 H1 H2. exists true.
  apply list_elem_of_singleton in H2 as ->.
  apply elem_of_cons in H1 as [-> |H1]; [vm_compute; reflexivity|].
  apply list_elem_of_singleton in H1 as ->. vm_compute. reflexivity.
Qed.

Lemma parallel_terminates_witness :
  exists s, run_schedule (CV := GridCv) false [Outer 0; Outer 1; Inner 1 0] (p_init twice_olds twice_news) = Some s /\
    exists k s', p_run false twice_olds twice_news ([Outer 0; Outer 1; Inner 1 0] ++ k) s'.
Proof.
  destruct twice_unmatched as [Ho Hn].
  destruct (run_schedule (CV := GridCv) false [Outer 0; Outer 1; Inner 1 0]
              (p_init twice_olds twice_news)) as [s|] eqn:E.
  - exists s. split; [reflexivity|].
    destruct (parallel_terminates false _ _ _ s Ho Hn twice_tests E) as (_ & _ & H). exact H.
  - exfalso. assert (is_Some (run_schedule (CV := GridCv) false [Outer 0; Outer 1; Inner 1 0]
      (p_init twice_olds twice_news))) as [s H] by (eexists; vm_compute; reflexivity).
    rewrite E in H. discriminate H.
Defined.

Definition painted (l : list action) : exc Grid :=
  paint (CV := GridCv) (gray_of color_twice) color_twice color_a twice_news (p_drawn (after l))
    color_twice.

Lemma painted_runs l :
  match painted l with inr _ => true | inl _ => false end = true -> exists m, painted l = inr m.
Proof. intros H. destruct (painted l) as [|m]; [discriminate H|]. by exists m. Qed.

Lemma parallel_schedule_free_witness :
  exists m1 m2, painted in_turn = inr m1 /\ painted at_once = inr m2 /\
    forall y x, at_Vec3b (OpenCV := GridCv) m1 y x = at_Vec3b (OpenCV := GridCv) m2 y x.
Proof.
  destruct (painted_runs in_turn) as [m1 E1]; [vm_compute; reflexivity|].
  destruct (painted_runs at_once) as [m2 E2]; [vm_compute; reflexivity|].
  exists m1, m2. split; [exact E1|]. split; [exact E2|].
  destruct twice_unmatched as [Ho Hn].
  refine (proj2 (proj2 (parallel_schedule_free (CV := GridCv) false twice_olds twice_news
            in_turn at_once (after in_turn) (after at_once) (gray_of color_twice) color_twice
            color_a color_twice m1 m2 Ho Hn _ _ _ run_in_turn run_at_once E1 E2))).
  - split; reflexivity.
  - repeat constructor; cbn; lia.
  - split_and!; reflexivity.
Defined.

Lemma parallel_old_marks_race_witness :
  exists s1 s2,
    p_run (CV := GridCv) false twice_olds twice_news in_turn s1 /\
    p_run (CV := GridCv) false twice_olds twice_news at_once s2 /\
    length (to_frame (p_olds s1)) = 1%nat /\ to_frame (p_olds s2) = [].
Proof.
  destruct (parallel_old_marks_race (CV := GridCv) false (segment_of color_twice (mkRect 0 0 2 1))
    (segment_of color_twice (mkRect 2 1 2 1)) (segment_of color_a (mkRect 1 1 2 1)))
    as (s1 & s2 & R1 & R2 & _ & _ & F1 & F2 & _); [vm_compute; reflexivity..|].
  exists s1, s2. split; [exact R1|]. split; [exact R2|]. rewrite F1. split; [reflexivity|exact F2].
Defined.
