(* ===== verification/TbbPairs.v ===== *)
(** The loops of [create_diff_image] as tasks: a simulation by the interleavings of
    Parallel.v.  What is proved there of every schedule therefore holds of the tasks of
    the program.

    A task draws its pair in many accesses, between which the others draw theirs; the
    machine only sees it finish.  What is known of the shared image meanwhile is that a
    pixel is as it was or red, and that red pixels stay red. *)

From S2P Require Import Prelude StdLib Cv CvGrid Perf PerfForest State Grouping ExampleOs Cmdline.
From S2P Require Import MappedFiles Matcher Segments Diff Tasks TbbCode TbbRules TbbDetect.
From S2P Require Import Parallel ParallelImages.

(** ** One pixel, one frame *)

Section Pixels.
Context `{CV : OpenCV} {os : OS} {SS : StdSort} {ML : MatLaws CV} {RL : RectLaws CV}
  {DL : DiffLaws CV} {FL : FrameLaws CV} {TL : ThrowLaws CV}.
Context (og oc nc : Mat) (Hi : images_ready og oc nc).

Definition is_red (m : Mat) (y x : Z) : Prop := at_Vec3b m y x = Some red_pixel.

(** [m'] is [m] with the pixels of [P] in red. *)
Definition redder (P : Z -> Z -> Prop) (m m' : Mat) : Prop :=
  forall y x, (P y x /\ is_red m' y x) \/ (~ P y x /\ at_Vec3b m' y x = at_Vec3b m y x).

(** Red pixels stay red. *)
Definition reds (m m' : Mat) : Prop := forall y x, is_red m y x -> is_red m' y x.

Lemma redder_reds P m m' : redder P m m' -> reds m m'.
Proof. intros H y x Hr. destruct (H y x) as [[_ ?]|[_ E]]; [done|]. unfold is_red. by rewrite E. Qed.

Lemma redder_red P m m' y x : redder P m m' -> P y x -> is_red m' y x.
Proof. intros H HP. by destruct (H y x) as [[_ ?]|[? _]]. Qed.

(** A pixel of the rectangle where the images differ. *)
Definition differs_at (rect area_ : Rect) (i j : Z) (y x : Z) : Prop :=
  y = i + ry rect /\ x = j + rx rect /\ differ oc nc rect area_ y x.

Lemma mark_pixel_red x2 rect i j m m' :
  canvas og m -> mark_pixel oc nc rect (area x2) i j m = inr m' ->
  canvas og m' /\ redder (differs_at rect (area x2) i j) m m'.
Proof.
  intros (Mr & Mc & Mt) E. destruct Hi as [Tg To Tn Hr Hc].
  destruct (mark_pixel_inr oc nc rect (area x2) m [] m i j m' To Tn Mt) as (_ & S & Hm'); [|done|].
  { split; [done|]. intros y x. by rewrite decide_False by (by intros [Hnil%elem_of_nil _]). }
  split; [destruct S as (? & ? & ?); split_and!; congruence|].
  intros y x. unfold is_red, differs_at. rewrite Hm'. case_decide as Hd.
  - left. destruct Hd as [[= Ey Ex]%list_elem_of_singleton Hd]. split; [|done].
    split_and!; [lia|lia|done].
  - right. split; [|done]. intros (-> & -> & Hd'). destruct Hd. split; [|done].
    apply list_elem_of_singleton. f_equal; lia.
Qed.

(** A visit leaves an image only for a part greater than the old image. *)
Lemma mark_pixel_fails x2 rect i j m e :
  placed nc x2 -> found og x2 = inr rect -> canvas og m -> (i, j) ∈ offsets rect ->
  mark_pixel oc nc rect (area x2) i j m = inl e -> e = UndefinedBehaviour /\ ~ searchable og x2.
Proof.
  intros Hx Hf (Mr & Mc & Mt) [Hoi Hoj]%elem_of_offsets E. split; [by eapply mark_pixel_inl|].
  intros Hs. destruct (found_in og oc nc x2 rect Hi Hx Hs Hf) as ((? & ? & ? & ? & ? & ?) & Ew & Eh).
  destruct Hi as [Tg To Tn Hr Hc], Hx as ((? & ? & ? & ? & ? & ?) & _).
  destruct (mark_pixel_runs oc nc rect (area x2) m i j) as [m' E'];
    [done..|unfold in_bounds; lia|unfold in_bounds; lia|unfold in_bounds; lia|congruence].
Qed.

(** A pixel of the rectangle's frame. *)
Definition frame_at (rect : Rect) (y x : Z) : Prop := on_frame (rows og) (cols og) rect 1 y x = true.

Lemma frame_red rect m m' :
  canvas og m -> rectangle m rect (CV_RGB 255 0 0) 1 = inr m' ->
  canvas og m' /\ redder (frame_at rect) m m'.
Proof.
  intros (Mr & Mc & Mt) E. pose proof (rectangle_shape _ _ _ _ _ E) as (Sr & Sc & St).
  split; [split_and!; congruence|]. intros y x. unfold is_red, frame_at.
  rewrite (rectangle_pixels _ _ _ _ _ y x Mt E), Mr, Mc. destruct (on_frame _ _ _ _ _ _); [by left|by right].
Qed.

(** The pixels of a part: its frame, and the offsets of its rectangle. *)
Lemma reddens_spec x2 rect y x :
  found og x2 = inr rect ->
  reddens og oc nc x2 y x = true <->
  frame_at rect y x \/ exists i j, (i, j) ∈ offsets rect /\ differs_at rect (area x2) i j y x.
Proof.
  intros Hf. unfold reddens, frame_at, differs_at. rewrite Hf, orb_true_iff, bool_decide_eq_true.
  split; (intros [H|H]; [by left|right]).
  - destruct H as [H1 H2]. eexists _, _. split; [exact H1|]. split_and!; [lia|lia|done].
  - destruct H as (i & j & H1 & -> & -> & H2). by rewrite !Z.add_simpl_r.
Qed.
End Pixels.

(** ** The simulation *)

Section Pairs.
Context `{CV : OpenCV} {os : OS} {SS : StdSort} {ML : MatLaws CV} {RL : RectLaws CV}
  {DL : DiffLaws CV} {FL : FrameLaws CV} {TL : ThrowLaws CV} {MA : MatchLaws CV}.

Abbreviation Task := (Tasks.Task Shared).

(** A matching pair makes the pixel red. *)
Definition red_match (c : Context) (y x : Z) : Prop :=
  exists i j x2, matching (cross_check (arg c)) (old_segments c) (new_segments c) i j /\
    new_segments c !! j = Some x2 /\
    reddens (old_gray_mat c) (old_color_mat c) (new_color_mat c) x2 y x = true.

Section Sim.
Context (s0 : Shared).

Abbreviation c0 := (ctx (sh_st s0)).
Abbreviation olds := (old_segments c0).
Abbreviation news := (new_segments c0).
Abbreviation cross := (cross_check (arg c0)).
Abbreviation og := (old_gray_mat c0).
Abbreviation oc := (old_color_mat c0).
Abbreviation nc := (new_color_mat c0).
Abbreviation result s := (sh_canvas s Result).

Context (Hi : images_ready og oc nc) (Hp : Forall (placed nc) news).

(** The only stops: an exception, or an access outside the old image, if some new segment
    is greater than it. *)
Abbreviation fails := (Cv.fails (Exists (misfit og) news)).

(** The task of a pair in each phase; in the phase that draws it may be at its frame, or
    at some pixel, with its frame and the pixels before in red. *)
Inductive pair_at (m : Mat) (i j : nat) : IPhase -> Task -> Prop :=
  | at_check : pair_at m i j ICheck (pair_task i j)
  | at_old : pair_at m i j ISetOld (mark_old_task i j)
  | at_new : pair_at m i j ISetNew (mark_new_task j)
  | at_draw : pair_at m i j IDraw (draw_task j)
  | at_frame x2 rect :
      news !! j = Some x2 -> found og x2 = inr rect ->
      pair_at m i j IDraw (frame_part_task rect (area x2))
  | at_pixel x2 rect k l :
      news !! j = Some x2 -> found og x2 = inr rect -> offsets rect = k ++ l -> l <> [] ->
      (forall y x, frame_at og rect y x -> is_red m y x) ->
      (forall a b y x, (a, b) ∈ k -> differs_at oc nc rect (area x2) a b y x -> is_red m y x) ->
      pair_at m i j IDraw (mark_task rect (area x2) l)
  | at_end : pair_at m i j IDone Finished.

(** The task of an old segment. *)
Definition segment_at (m : Mat) (i : nat) (o : OPhase) (t : Task) : Prop :=
  match o with
  | ONew => t = old_task i
  | ORun l => exists ts, t = Fork ts Finished /\ length ts = length l /\
      forall j p t, l !! j = Some p -> ts !! j = Some t -> pair_at m i j p t
  | ODone => t = Finished
  end.

Definition tasks_at (m : Mat) (ps : PState) (ts : list Task) : Prop :=
  length ts = length (p_tasks ps) /\
  forall i o t, p_tasks ps !! i = Some o -> ts !! i = Some t -> segment_at m i o t.

(** The state of the machine and the shared state. *)
Record sim (ps : PState) (s : Shared) : Prop := {
  sim_inv : p_inv cross olds news ps;
  sim_st : sh_st s = set_both (p_olds ps) (p_news ps) (sh_st s0);
  sim_canvas : canvas og (result s);
  sim_upper y x : at_Vec3b (result s) y x = at_Vec3b (result s0) y x \/
    (is_red (result s) y x /\ red_match c0 y x);
  sim_lower i j x2 y x : (i, j) ∈ p_drawn ps -> news !! j = Some x2 ->
    reddens og oc nc x2 y x = true -> is_red (result s) y x
}.

Lemma reds_refl m : reds m m.
Proof. by intros y x. Qed.

Lemma pair_at_reds m m' i j p t : reds m m' -> pair_at m i j p t -> pair_at m' i j p t.
Proof.
  intros H []; try by econstructor. eapply at_pixel; eauto.
Qed.

Lemma segment_at_reds m m' i o t : reds m m' -> segment_at m i o t -> segment_at m' i o t.
Proof.
  intros H. destruct o as [|l|]; [done| |done].
  intros (ts & -> & Hl & Ht). exists ts. split_and!; [done..|].
  intros j p t ? ?. by eapply pair_at_reds, Ht.
Qed.

Lemma pair_at_finished m i j p t : pair_at m i j p t -> finished t = is_done p.
Proof.
  intros []; try done. destruct l as [|[a b] l]; [done|]. done.
Qed.

Lemma finished_pairs m i l ts :
  length ts = length l -> (forall j p t, l !! j = Some p -> ts !! j = Some t -> pair_at m i j p t) ->
  forallb finished ts = forallb is_done l.
Proof.
  intros Hl Ht. assert (forall j p t, l !! j = Some p -> ts !! j = Some t -> finished t = is_done p)
    as Hf by (intros j p t H1 H2; eapply pair_at_finished, Ht; eauto). clear Ht.
  revert ts Hl Hf. induction l as [|p l IH]; intros [|t ts] Hl Hf; try done. cbn.
  rewrite (Hf 0%nat p t eq_refl eq_refl). f_equal. apply IH; [by injection Hl|].
  intros j. apply (Hf (S j)).
Qed.

Lemma finished_segments m ps ts :
  tasks_at m ps ts -> forallb finished ts = true -> p_final ps.
Proof.
  intros [Hl Ht] H. apply Forall_lookup. intros i o Ho.
  destruct (lookup_lt_is_Some_2 ts i) as [t Hti]; [rewrite Hl; by eapply lookup_lt_Some|].
  pose proof (Ht i o t Ho Hti) as Hs. rewrite (all_finished _ _ _ H Hti) in Hs.
  destruct o as [|l|]; [done| |done]. by destruct Hs as (? & ? & _).
Qed.

Lemma tasks_init m : tasks_at m (p_init olds news) (old_task <$> seq 0 (length olds)).
Proof.
  split; cbn; [by rewrite length_fmap, length_seq, length_replicate|].
  intros i o t [-> Hlt]%lookup_replicate. rewrite list_lookup_fmap, lookup_seq_lt by done.
  by intros [= <-].
Qed.
(** *** Steps of the task of a pair *)

Lemma sim_task ps s i o :
  sim ps s -> p_tasks ps !! i = Some o ->
  exists x y, olds !! i = Some x /\ p_olds ps !! i = Some y /\ marks x y.
Proof.
  intros H Ho. pose proof (sim_inv _ _ H) as I.
  destruct (lookup_lt_is_Some_2 olds i) as [x Hx];
    [rewrite <- (pi_tasks _ _ _ _ I); by eapply lookup_lt_Some|].
  destruct (Forall2_lookup_l _ _ _ _ _ (pi_olds _ _ _ _ I) Hx) as (y & Hy & M). by exists x, y.
Qed.

Lemma sim_new ps s i l j p :
  sim ps s -> p_tasks ps !! i = Some (ORun l) -> l !! j = Some p ->
  exists x y, news !! j = Some x /\ p_news ps !! j = Some y /\ marks x y.
Proof.
  intros H Ho Hj. pose proof (sim_inv _ _ H) as I. destruct (pi_run _ _ _ _ I i l Ho) as [Hl _].
  destruct (lookup_lt_is_Some_2 news j) as [x Hx]; [rewrite <- Hl; by eapply lookup_lt_Some|].
  destruct (Forall2_lookup_l _ _ _ _ _ (pi_news _ _ _ _ I) Hx) as (y & Hy & M). by exists x, y.
Qed.

(** What the tasks read. *)
Lemma sim_reads ps s :
  sim ps s -> old_segments (ctx (sh_st s)) = p_olds ps /\ new_segments (ctx (sh_st s)) = p_news ps /\
  cross_check (arg (ctx (sh_st s))) = cross /\ old_gray_mat (ctx (sh_st s)) = og /\
  old_color_mat (ctx (sh_st s)) = oc /\ new_color_mat (ctx (sh_st s)) = nc.
Proof. intros [_ E _ _ _]. by rewrite E. Qed.

Lemma sim_keeps a ps ps' : p_inv cross olds news ps -> Parallel.act cross a ps = Some ps' ->
  p_inv cross olds news ps'.
Proof. intros I Ha. apply (p_inv_run _ _ _ [a] ps); [done|]. cbn. by rewrite Ha. Qed.

(** What a step of the task of the pair [(i, j)] may do: nothing the machine sees, or the
    machine's step. *)
Definition pair_out (ps : PState) (s : Shared) (i j : nat) (l : list IPhase) (p : IPhase)
    (out : Out Shared Task) : Prop :=
  match out with
  | Halt e _ => fails e
  | Next t s' => reds (result s) (result s') /\
      ((sim ps s' /\ pair_at (result s') i j p t) \/
       exists p' o n d,
         inner_step cross i j l p ps = Some (set_inner i j p' l (mkPState o n (p_tasks ps) d)) /\
         sim (set_inner i j p' l (mkPState o n (p_tasks ps) d)) s' /\ pair_at (result s') i j p' t)
  end.

Section Step.
Context (ps : PState) (s : Shared) (i j : nat) (l : list IPhase) (p : IPhase).
Context (H : sim ps s) (Ho : p_tasks ps !! i = Some (ORun l)) (Hj : l !! j = Some p).

Lemma step_act p' o n d :
  inner_step cross i j l p ps = Some (set_inner i j p' l (mkPState o n (p_tasks ps) d)) ->
  p_inv cross olds news (set_inner i j p' l (mkPState o n (p_tasks ps) d)).
Proof.
  intros Hs. apply (sim_keeps (Inner i j) ps); [apply H|]. cbn. rewrite Ho; cbn. by rewrite Hj.
Qed.

(** A step that leaves the image alone. *)
Lemma pair_step_marks p' o n s' t :
  inner_step cross i j l p ps = Some (set_inner i j p' l (mkPState o n (p_tasks ps) (p_drawn ps))) ->
  sh_st s' = set_both o n (sh_st s0) -> sh_canvas s' = sh_canvas s ->
  pair_at (result s) i j p' t -> pair_out ps s i j l p (Next t s').
Proof.
  intros Hs Hst Hc Ht. pose proof (step_act _ _ _ _ Hs) as I'. destruct H as [I _ Hcv Hu Hlo].
  split; [rewrite Hc; apply reds_refl|]. right. exists p', o, n, (p_drawn ps).
  rewrite Hc. split_and!; [done| |done]. by split; rewrite ?Hc.
Qed.

(** A step that draws some pixels of the pair. *)
Lemma pair_step_draws x2 P m' :
  p = IDraw -> news !! j = Some x2 -> canvas og m' -> redder P (result s) m' ->
  (forall y x, P y x -> reddens og oc nc x2 y x = true) ->
  reds (result s) m' /\ sim ps (set_canvas Result m' s).
Proof.
  intros -> Hx2 Hcv HP Hr. pose proof (redder_reds _ _ _ HP) as Hm.
  destruct H as [I Hst _ Hu Hlo]. split; [done|].
  assert (matching cross olds news i j) as HM.
  { assert (phase ps i j = Some IDraw) as Hph by (unfold phase; by rewrite Ho).
    by apply (pi_phase _ _ _ _ I) in Hph as [HM _]. }
  assert (sh_canvas (set_canvas Result m' s) Result = m') as E by done.
  split; rewrite ?E; [done|done|done| |].
  - intros y x. destruct (HP y x) as [[HPy Hred]|[_ Heq]].
    + right. split; [done|]. exists i, j, x2. auto.
    + unfold is_red. rewrite Heq. apply Hu.
  - intros i' j' x2' y x Hd Hx' Hr'. apply Hm. by eapply Hlo.
Qed.
(** The last access of a pair. *)
Lemma pair_step_ends x2 s' :
  p = IDraw -> news !! j = Some x2 -> reds (result s) (result s') -> sim ps s' ->
  (forall y x, reddens og oc nc x2 y x = true -> is_red (result s') y x) ->
  pair_out ps s i j l p (Next Finished s').
Proof.
  intros Hd Hx2 Hm H' Hr. split; [done|]. right.
  exists IDone, (p_olds ps), (p_news ps), (p_drawn ps ++ [(i, j)]).
  assert (inner_step cross i j l p ps = Some (set_inner i j IDone l
            (mkPState (p_olds ps) (p_news ps) (p_tasks ps) (p_drawn ps ++ [(i, j)])))) as Hs
    by (by rewrite Hd).
  split_and!; [done| |constructor]. pose proof (step_act _ _ _ _ Hs) as I'.
  destruct H' as [_ Hst Hcv Hu Hlo]. split; [done..|].
  intros i' j' x2' y x [Hin|[= -> ->]%list_elem_of_singleton]%elem_of_app Hx' Hr'; [by eapply Hlo|].
  assert (x2' = x2) as -> by congruence. by apply Hr.
Qed.

Lemma placed_new x2 : news !! j = Some x2 -> placed nc x2.
Proof. intros Hx. rewrite Forall_forall in Hp. apply Hp. by eapply list_elem_of_lookup_2. Qed.

(** The part of a pair that is drawn has a descriptor. *)
Lemma step_descriptor x2 : p = IDraw -> news !! j = Some x2 -> mat_empty (descriptor x2) = false.
Proof.
  intros Hd Hx. assert (phase ps i j = Some IDraw) as Hph by (unfold phase; by rewrite Ho, <- Hd).
  apply (pi_phase _ _ _ _ (sim_inv _ _ H)) in Hph as [(x1 & x2' & _ & Hx' & _ & HM) _].
  rewrite Hx in Hx'. injection Hx' as <-. by eapply pair_matches_descriptor.
Qed.

(** After the frame, or a pixel: the next pixel, or the end. *)
Lemma pair_step_next x2 rect k r s' :
  p = IDraw -> news !! j = Some x2 -> found og x2 = inr rect -> offsets rect = k ++ r ->
  reds (result s) (result s') -> sim ps s' ->
  (forall y x, frame_at og rect y x -> is_red (result s') y x) ->
  (forall a b y x, (a, b) ∈ k -> differs_at oc nc rect (area x2) a b y x -> is_red (result s') y x) ->
  pair_out ps s i j l p (Next (mark_task rect (area x2) r) s').
Proof.
  intros Hd Hx2 Hf Ho' Hm H' Hfr Hk. destruct r as [|q r].
  - apply (pair_step_ends x2); [done..|]. intros y x [Hy|(a & b & Hab & Hy)]%(reddens_spec _ _ _ _ _ _ _ Hf);
      [by apply Hfr|]. apply (Hk a b); [|done]. by rewrite Ho', app_nil_r in Hab.
  - split; [done|]. left. split; [done|]. rewrite Hd. by apply (at_pixel _ _ _ x2 rect k (q :: r)).
Qed.

Lemma pair_step_frame x2 rect out :
  p = IDraw -> news !! j = Some x2 -> found og x2 = inr rect ->
  exec [] (frame_part_task rect (area x2)) s = Some out -> pair_out ps s i j l p out.
Proof.
  intros Hd Hx2 Hf Hx. cbn in Hx. injection Hx as <-.
  destruct (rectangle (result s) rect (CV_RGB 255 0 0) 1) as [e|m'] eqn:E.
  { left. apply (throws_fails _ _ (throws_rectangle _ _ _ _) E). }
  destruct (frame_red og rect (result s) m' (sim_canvas _ _ H) E) as [Hcv HP].
  destruct (pair_step_draws x2 _ m' Hd Hx2 Hcv HP) as [Hm H'].
  { intros y x Hy. apply (reddens_spec _ _ _ _ _ _ _ Hf). by left. }
  apply (pair_step_next x2 rect []); [done..| |].
  - intros y x. by apply (redder_red _ _ _ _ _ HP).
  - by intros a b y x Hnil%elem_of_nil.
Qed.

Lemma pair_step_pixel x2 rect k r out :
  p = IDraw -> news !! j = Some x2 -> found og x2 = inr rect -> offsets rect = k ++ r -> r <> [] ->
  (forall y x, frame_at og rect y x -> is_red (result s) y x) ->
  (forall a b y x, (a, b) ∈ k -> differs_at oc nc rect (area x2) a b y x -> is_red (result s) y x) ->
  exec [] (mark_task rect (area x2) r) s = Some out -> pair_out ps s i j l p out.
Proof.
  intros Hd Hx2 Hf Hof Hne Hfr Hk Hx. destruct r as [|[a b] r]; [done|]. cbn in Hx. injection Hx as <-.
  destruct (sim_reads _ _ H) as (_ & _ & _ & _ & -> & ->).
  assert ((a, b) ∈ offsets rect) as Hab by (rewrite Hof; apply elem_of_app; right; left).
  destruct (mark_pixel _ _ _ _ _ _ _) as [e|m'] eqn:E.
  { destruct (mark_pixel_fails og oc nc Hi x2 rect a b (result s) e (placed_new _ Hx2) Hf
                (sim_canvas _ _ H) Hab E) as [-> Hn].
    right. split; [done|]. apply Exists_exists. exists x2. split; [by eapply list_elem_of_lookup_2|].
    split; [by apply step_descriptor|done]. }
  destruct (mark_pixel_red og oc nc Hi x2 rect a b (result s) m' (sim_canvas _ _ H) E) as [Hcv HP].
  destruct (pair_step_draws x2 _ m' Hd Hx2 Hcv HP) as [Hm H'].
  { intros y x Hy. apply (reddens_spec _ _ _ _ _ _ _ Hf). right. by exists a, b. }
  apply (pair_step_next x2 rect (k ++ [(a, b)])); [done|done|done|by rewrite <- app_assoc|done|done| |].
  - intros y x Hy. by apply Hm, Hfr.
  - intros a' b' y x [Hin|[= -> ->]%list_elem_of_singleton]%elem_of_app Hy.
    + by eapply Hm, Hk.
    + by apply (redder_red _ _ _ _ _ HP).
Qed.
Lemma pair_step_find out :
  p = IDraw -> exec [] (draw_task j) s = Some out -> pair_out ps s i j l p out.
Proof.
  intros Hd Hx. destruct (sim_new _ _ _ _ _ _ H Ho Hj) as (x2 & y2 & Hx2 & Hy2 & M2).
  destruct (sim_reads _ _ H) as (_ & Rn & _ & Rog & _).
  assert (roi y2 = roi x2 /\ area y2 = area x2) as [Er Ea] by (by destruct M2 as [-> | ->]).
  cbn in Hx. injection Hx as <-. unfold on_st, mbind, M_bind, gets, lift; cbn.
  rewrite Rn, Hy2; cbn. rewrite Rog, Er, Ea.
  destruct (matchTemplate og (roi x2) TM_SQDIFF) as [e|ret] eqn:E1; cbn.
  { left. apply (throws_fails _ _ (throws_matchTemplate _ _ _) E1). }
  destruct (minMaxLoc ret) as [e|pt] eqn:E2; cbn.
  { left. apply (throws_fails _ _ (throws_minMaxLoc _) E2). }
  replace (mkShared (sh_st s) (sh_canvas s)) with s by (by destruct s).
  assert (rect_from y2 pt = rect_from x2 pt) as -> by (unfold rect_from; by rewrite Ea).
  split; [apply reds_refl|]. left. split; [done|]. rewrite Hd.
  apply (at_frame _ _ _ x2); [done|]. unfold found. rewrite E1; cbn. by rewrite E2.
Qed.

Lemma pair_matches_fails x1 x2 e : pair_matches cross x1 x2 = inl e -> fails e.
Proof. intros E. left. exact (throws_fails _ _ (pair_matches_throws _ _ _) E). Qed.

Lemma pair_step_check out :
  p = ICheck -> exec [] (pair_task i j) s = Some out -> pair_out ps s i j l p out.
Proof.
  intros Hc Hx. destruct (sim_task _ _ _ _ H Ho) as (x1 & y1 & Hx1 & Hy1 & M1).
  destruct (sim_new _ _ _ _ _ _ H Ho Hj) as (x2 & y2 & Hx2 & Hy2 & M2).
  destruct (sim_reads _ _ H) as (Ro & Rn & Rc & _).
  cbn in Hx. injection Hx as <-. unfold on_st, mbind, M_bind, gets, lift; cbn.
  rewrite Ro, Hy1; cbn. rewrite Rn, Hy2; cbn. rewrite Rc.
  destruct (pair_matches cross y1 y2) as [e|b] eqn:Em; cbn; [by eapply pair_matches_fails|].
  apply (pair_step_marks (if b then ISetOld else IDone) (p_olds ps) (p_news ps)
           (mkShared (sh_st s) (sh_canvas s))).
  - rewrite Hc; cbn. rewrite Hy1; cbn. rewrite Hy2; cbn. rewrite Em. by destruct b, ps.
  - apply H.
  - done.
  - destruct b; constructor.
Qed.

Lemma pair_step_old out :
  p = ISetOld -> exec [] (mark_old_task i j) s = Some out -> pair_out ps s i j l p out.
Proof.
  intros Hc Hx. destruct (sim_reads _ _ H) as (Ro & _). cbn in Hx. injection Hx as <-.
  unfold on_st; cbn -[pair_out]. rewrite Ro.
  apply (pair_step_marks ISetNew (alter set_matched i (p_olds ps)) (p_news ps)).
  - by rewrite Hc.
  - cbn. by rewrite (sim_st _ _ H).
  - done.
  - constructor.
Qed.

Lemma pair_step_new out :
  p = ISetNew -> exec [] (mark_new_task j) s = Some out -> pair_out ps s i j l p out.
Proof.
  intros Hc Hx. destruct (sim_reads _ _ H) as (_ & Rn & _). cbn in Hx. injection Hx as <-.
  unfold on_st; cbn -[pair_out]. rewrite Rn.
  apply (pair_step_marks IDraw (p_olds ps) (alter set_matched j (p_news ps))).
  - by rewrite Hc.
  - cbn. by rewrite (sim_st _ _ H).
  - done.
  - constructor.
Qed.

Lemma exec_pair_path m q t out : pair_at m i j p t -> exec q t s = Some out -> q = [].
Proof.
  intros []; try by destruct q. destruct l0 as [|[a b] r]; [done|]. by destruct q.
Qed.

(** Any step. *)
Lemma pair_step t q out :
  pair_at (result s) i j p t -> exec q t s = Some out -> q = [] /\ pair_out ps s i j l p out.
Proof.
  intros Ht Hx. pose proof (exec_pair_path _ _ _ _ Ht Hx) as ->. split; [done|].
  enough (forall p', pair_at (result s) i j p' t -> p = p' -> pair_out ps s i j l p out) as Hall
    by by apply (Hall p).
  clear Ht. intros p' Ht. destruct Ht as [| | | |x2 rect|x2 rect k r|]; intros Ep.
  - by apply pair_step_check.
  - by apply pair_step_old.
  - by apply pair_step_new.
  - by apply pair_step_find.
  - by apply (pair_step_frame x2 rect).
  - by apply (pair_step_pixel x2 rect k r).
  - done.
Qed.
End Step.
(** *** Steps of the task of an old segment *)

(** The machine does nothing, or one step. *)
Definition may_step (ps ps' : PState) : Prop :=
  ps' = ps \/ exists a, Parallel.act cross a ps = Some ps'.

Definition segment_out (ps : PState) (s : Shared) (i : nat) (out : Out Shared Task) : Prop :=
  match out with
  | Halt e _ => fails e
  | Next t s' => reds (result s) (result s') /\
      exists ps' o, may_step ps ps' /\ sim ps' s' /\
        p_tasks ps' = <[i := o]> (p_tasks ps) /\ segment_at (result s') i o t
  end.

(** The forked tasks after a step of one of them. *)
Lemma segment_at_insert m m' i j l p ts t :
  reds m m' -> segment_at m i (ORun l) (Fork ts Finished) -> (j < length l)%nat ->
  pair_at m' i j p t -> segment_at m' i (ORun (<[j := p]> l)) (Fork (<[j := t]> ts) Finished).
Proof.
  intros Hm (ts' & [= <-] & Hl & Ht) Hj Hp'. exists (<[j := t]> ts).
  split; [done|]. rewrite !length_insert. split; [done|].
  intros k q u. destruct (decide (k = j)) as [->|Hne].
  - rewrite !list_lookup_insert_eq by lia. by intros [= <-] [= <-].
  - rewrite !list_lookup_insert_ne by done. intros H1 H2. eapply pair_at_reds; [exact Hm|].
    by apply Ht.
Qed.

Lemma segment_step_new ps s i out :
  sim ps s -> p_tasks ps !! i = Some ONew -> exec [] (old_task i) s = Some out ->
  segment_out ps s i out.
Proof.
  intros H Ho Hx. destruct (sim_task _ _ _ _ H Ho) as (x & y & _ & Hy & _).
  destruct (sim_reads _ _ H) as (Ro & Rn & _). cbn in Hx. injection Hx as <-.
  unfold on_st, mbind, M_bind, gets, lift; cbn -[segment_out]. rewrite Ro, Hy; cbn -[segment_out].
  rewrite Rn. replace (mkShared (sh_st s) (sh_canvas s)) with s by (by destruct s).
  split; [apply reds_refl|].
  set (o := if usable y then ORun (replicate (length (p_news ps)) ICheck) else ODone).
  assert (Parallel.act cross (Outer i) ps = Some (set_task i o ps)) as Ha
    by (cbn; rewrite Ho; cbn; unfold outer_start; by rewrite Hy).
  exists (set_task i o ps), o. split; [right; by eexists|].
  split; [split; [by eapply sim_keeps; [apply H|]|apply H..]|]. split; [done|].
  unfold o. destruct (usable y); [|done]. eexists. split; [done|].
  rewrite length_fmap, length_seq, length_replicate. split; [done|].
  intros j p t [-> Hlt]%lookup_replicate. rewrite list_lookup_fmap, lookup_seq_lt by done.
  intros [= <-]. constructor.
Qed.

Lemma segment_step_end ps s i l :
  sim ps s -> p_tasks ps !! i = Some (ORun l) -> forallb is_done l = true ->
  segment_out ps s i (Next Finished s).
Proof.
  intros H Ho Hd. split; [apply reds_refl|].
  assert (Parallel.act cross (Outer i) ps = Some (set_task i ODone ps)) as Ha
    by (cbn; rewrite Ho; cbn; by rewrite Hd).
  exists (set_task i ODone ps), ODone. split; [right; by eexists|].
  split; [split; [by eapply sim_keeps; [apply H|]|apply H..]|]. done.
Qed.

Lemma segment_step ps s i o t q out :
  sim ps s -> p_tasks ps !! i = Some o -> segment_at (result s) i o t ->
  exec q t s = Some out -> segment_out ps s i out.
Proof.
  intros H Ho Ht Hx. destruct o as [|l|].
  - rewrite Ht in Hx. assert (q = []) as -> by by destruct q. by apply segment_step_new.
  - pose proof Ht as (ts & -> & Hl & Hts). destruct q as [|j q]; cbn in Hx.
    { rewrite (finished_pairs _ _ _ _ Hl Hts) in Hx. destruct (forallb is_done l) eqn:Ed; [|done].
      injection Hx as <-. by eapply segment_step_end. }
    apply bind_Some in Hx as (u & Hu & Hx). apply bind_Some in Hx as (out' & Hx & [= <-]).
    destruct (lookup_lt_is_Some_2 l j) as [p Hj]; [rewrite <- Hl; by eapply lookup_lt_Some|].
    destruct (pair_step ps s i j l p H Ho Hj u q out' (Hts j p u Hj Hu) Hx) as [_ Hout].
    destruct out' as [u' s'|e s']; [|done]. destruct Hout as [Hm Hout]. split; [done|].
    pose proof (lookup_lt_Some _ _ _ Hj) as Hlt. destruct Hout as [[H' Hu']|Hout].
    + exists ps, (ORun l). split; [by left|]. split; [done|]. split; [by rewrite list_insert_id|].
      rewrite <- (list_insert_id l j p Hj) at 1. by eapply segment_at_insert.
    + destruct Hout as (p' & o & n & d & Hs & H' & Hu').
      exists (set_inner i j p' l (mkPState o n (p_tasks ps) d)), (ORun (<[j := p']> l)).
      split; [right; exists (Inner i j); cbn; rewrite Ho; cbn; by rewrite Hj|].
      split; [done|]. split; [done|]. by eapply segment_at_insert.
  - rewrite Ht in Hx. by destruct q.
Qed.

(** *** Steps of the whole *)

Lemma sim_step k ps s ts p out :
  sim ps s -> tasks_at (result s) ps ts -> exec p (Fork ts k) s = Some out ->
  (p_final ps /\ out = Next k s) \/
  match out with
  | Halt e _ => fails e
  | Next t s' => exists ts' ps', t = Fork ts' k /\ may_step ps ps' /\ sim ps' s' /\
      tasks_at (result s') ps' ts'
  end.
Proof.
  intros H Hts Hx. destruct p as [|i q]; cbn in Hx.
  { left. destruct (forallb finished ts) eqn:E; [|done].
    split; [by eapply finished_segments|by injection Hx as <-]. }
  right. apply bind_Some in Hx as (t & Ht & Hx). apply bind_Some in Hx as (out' & Hx & [= <-]).
  destruct Hts as [Hl Hat]. pose proof (lookup_lt_Some _ _ _ Ht) as Hlt.
  destruct (lookup_lt_is_Some_2 (p_tasks ps) i) as [o Ho]; [lia|].
  pose proof (segment_step ps s i o t q out' H Ho (Hat i o t Ho Ht) Hx) as Hout.
  destruct out' as [t' s'|e s']; [|done]. destruct Hout as (Hm & ps' & o' & Hs & H' & Ep & Ht').
  exists (<[i := t']> ts), ps'. split_and!; [done..|]. split; rewrite Ep; [by rewrite !length_insert|].
  intros i' o1 t1. destruct (decide (i' = i)) as [->|Hne].
  - rewrite !list_lookup_insert_eq by lia. by intros [= <-] [= <-].
  - rewrite !list_lookup_insert_ne by done. intros H1 H2. eapply segment_at_reds; [exact Hm|].
    by apply Hat.
Qed.

(** *** Every schedule of the tasks *)

Lemma ends_sim (E : Stop -> Prop) Q k ps s ts :
  (forall e, fails e -> E e) ->
  (forall ps s, sim ps s -> p_final ps -> ends_in E Q k s) ->
  sim ps s -> tasks_at (result s) ps ts -> ends_in E Q (Fork ts k) s.
Proof.
  intros HE Hk. remember (Fork ts k) as t eqn:Et. revert ps s ts Et.
  induction (successor_wf t) as [t _ IH]. intros ps s ts -> H Hts.
  constructor; [done|intros _; by apply task_progress| |].
  - intros p t' s' Hx. destruct (sim_step k ps s ts p _ H Hts Hx) as [[Hf [= -> ->]]|Hs];
      [by eapply Hk|]. destruct Hs as (ts' & ps' & -> & _ & H' & Hts').
    apply (IH (Fork ts' k)) with ps' ts'; [by exists p, s, s'|done..].
  - intros p e s' Hx. destruct (sim_step k ps s ts p _ H Hts Hx) as [[_ ?]|Hf]; [done|].
    by apply HE.
Qed.

Lemma sim_init :
  unmatched olds -> unmatched news -> canvas og (result s0) -> sim (p_init olds news) s0.
Proof.
  intros Ho Hn Hc. split; [by apply p_inv_init| |done|by left|by intros ? ? ? ? ? ?%elem_of_nil].
  symmetry. apply (set_both_same (sh_st s0)).
Qed.

Lemma ends_loops (E : Stop -> Prop) Q k :
  unmatched olds -> unmatched news -> canvas og (result s0) -> (forall e, fails e -> E e) ->
  (forall ps s, sim ps s -> p_final ps -> ends_in E Q k s) ->
  ends_in E Q (Fork (old_task <$> seq 0 (length olds)) k) s0.
Proof.
  intros Ho Hn Hc HE Hk. apply (ends_sim _ _ _ (p_init olds news)); [done|done|by apply sim_init|].
  apply tasks_init.
Qed.

(** A schedule of the tasks is a run of the machine. *)
Lemma sim_run sched ps s ts t s' :
  sim ps s -> tasks_at (result s) ps ts ->
  run_tasks sched (Fork ts Finished) s = Some (Next t s') ->
  exists l ps', run_schedule cross l ps = Some ps' /\ sim ps' s' /\
    ((exists ts', t = Fork ts' Finished /\ tasks_at (result s') ps' ts') \/
     (p_final ps' /\ t = Finished)).
Proof.
  revert ps s ts. induction sched as [|p sched IH]; intros ps s ts H Hts Hr; cbn [run_tasks] in Hr.
  { injection Hr as <- <-. exists [], ps. split_and!; [done..|]. left. by exists ts. }
  apply bind_Some in Hr as (out & Ho & Hr).
  destruct (sim_step _ _ _ _ _ _ H Hts Ho) as [[Hf ->]|Hs].
  - assert (t = Finished /\ s' = s) as [-> ->].
    { destruct sched as [|q sched]; cbn in Hr; [by injection Hr as <- <-|by destruct q]. }
    exists [], ps. split_and!; [done..|by right].
  - destruct out as [t1 s1|e s1]; [|by destruct sched].
    destruct Hs as (ts1 & ps1 & -> & Hst & H1 & Hts1).
    destruct (IH _ _ _ H1 Hts1 Hr) as (l & ps' & Hl & H').
    destruct Hst as [->|[a Ha]]; [by exists l, ps'|]. exists (a :: l), ps'. cbn. by rewrite Ha.
Qed.
End Sim.
End Pairs.

(** ** Properties *)

Section Properties.
Context `{CV : OpenCV} {os : OS} {SS : StdSort}.

(** C11 The interleavings of Parallel.v cover the program: whatever the schedule of the
    tasks that the nested [parallel_for_each] creates, the marks it leaves are those of
    some run of the abstract machine from the same segments, finished when the tasks are;
    in the shared image every pixel is as it was or red, and red only where some matching
    pair makes it red; and all the pixels of the pairs whose tasks have finished are red,
    although the others draw between their accesses. *)
Theorem tbb_loops_refine
    `{!MatLaws CV, !RectLaws CV, !DiffLaws CV, !FrameLaws CV, !ThrowLaws CV, !MatchLaws CV}
    (s : Shared) (sched : list (list nat)) (t : Tasks.Task Shared) (s' : Shared) :
  let c := ctx (sh_st s) in
  images_ready (old_gray_mat c) (old_color_mat c) (new_color_mat c) ->
  Forall (placed (new_color_mat c)) (new_segments c) ->
  unmatched (old_segments c) -> unmatched (new_segments c) ->
  canvas (old_gray_mat c) (sh_canvas s Result) ->
  run_tasks sched (Fork (old_task <$> seq 0 (length (old_segments c))) Finished) s =
    Some (Next t s') ->
  exists l ps,
    run_schedule (cross_check (arg c)) l (p_init (old_segments c) (new_segments c)) = Some ps /\
    sh_st s' = set_both (p_olds ps) (p_news ps) (sh_st s) /\
    (t = Finished -> p_final ps) /\
    (forall y x, at_Vec3b (sh_canvas s' Result) y x = at_Vec3b (sh_canvas s Result) y x \/
       (at_Vec3b (sh_canvas s' Result) y x = Some red_pixel /\ red_match c y x)) /\
    (forall i j x2 y x, (i, j) ∈ p_drawn ps -> new_segments c !! j = Some x2 ->
       reddens (old_gray_mat c) (old_color_mat c) (new_color_mat c) x2 y x = true ->
       at_Vec3b (sh_canvas s' Result) y x = Some red_pixel).
Proof.
  intros c Hi Hp Ho Hn Hc Hr.
  destruct (sim_run s Hi Hp sched _ s _ t s' (sim_init s Ho Hn Hc) (tasks_init s _) Hr)
    as (l & ps & Hl & [_ Hst _ Hu Hlo] & Ht).
  exists l, ps. split_and!; [done|done| |done|done].
  intros ->. by destruct Ht as [(ts & [=] & _)|[Hf _]].
Qed.
End Properties.

(** ** Witnesses *)

(** The images of two parts of ParallelImages, with their files. *)
Definition example_file (name : string) (l : list Z) : option MappedFile :=
  Some (mkMappedFile name (Some (0%nat, 3 :: 4 :: l)) 14 0).

Definition twice_st : St (CV := GridCv) :=
  set_both twice_olds twice_news
    (set_file Old (example_file "old.png" [7; 8; 0; 0; 0; 0; 7; 8; 0; 0; 0; 0])
    (set_file New (example_file "new.png" [0; 0; 0; 0; 0; 7; 8; 0; 0; 0; 0; 0])
    (set_gray_mat Old (gray_of color_twice) (set_color_mat Old color_twice
    (set_color_mat New color_a (set_arg (fun _ => example_args) (initial_state []))))))).

Definition twice_shared : Shared (CV := GridCv) := mkShared twice_st (fun _ => color_twice).

(** Both tasks test the new segment before either marks it, and draw in turn: a task makes
    three accesses to the flags, then one to find the part, one for its frame and one for
    each of its two pixels. *)
Definition at_once_tasks : list (list nat) :=
  [[0]; [1]]%nat ++ concat (replicate 7 [[0; 0]; [1; 0]]%nat) ++ [[0]; [1]]%nat.

Lemma twice_ready_parts :
  images_ready (CV := GridCv) (gray_of color_twice) color_twice color_a /\
  Forall (placed (CV := GridCv) color_a) twice_news /\
  canvas (CV := GridCv) (gray_of color_twice) color_twice.
Proof. split; [split; reflexivity|]. split; [repeat constructor; cbn; lia|split_and!; reflexivity]. Qed.

Lemma twice_loops_run :
  exists s', run_tasks (at_once_tasks ++ [[]]) (Fork (old_task <$> seq 0 2) Finished) twice_shared =
    Some (Next Finished s').
Proof.
  destruct (finishes_run (fun _ => true) (at_once_tasks ++ [[]]) (Fork (old_task <$> seq 0 2) Finished)
              twice_shared) as (s' & Hr & _); [vm_compute; reflexivity|].
  exists s'. exact Hr.
Qed.

Lemma tbb_loops_refine_witness :
  exists s' l ps,
    run_tasks (at_once_tasks ++ [[]]) (Fork (old_task <$> seq 0 2) Finished) twice_shared =
      Some (Next Finished s') /\
    run_schedule false l (p_init twice_olds twice_news) = Some ps /\ p_final ps /\
    sh_st s' = set_both (p_olds ps) (p_news ps) twice_st.
Proof.
  destruct twice_loops_run as [s' Hr]. destruct twice_unmatched as [Ho Hn].
  destruct twice_ready_parts as (Hi & Hp & Hc).
  destruct (tbb_loops_refine twice_shared _ _ s' Hi Hp Ho Hn Hc Hr) as (l & ps & Hl & Hs & Hf & _).
  exists s', l, ps. split; [exact Hr|]. split; [exact Hl|]. split; [exact (Hf eq_refl)|exact Hs].
Defined.
