(* ===== verification/TbbDiff.v ===== *)
(** [create_diff_image] in the TBB build, from the first timer to the last image: what
    every schedule of its tasks leaves on the three images, and what it asks [imwrite] to
    write. *)

From S2P Require Import Prelude StdLib Cv CvGrid Perf PerfForest State Timed Grouping ExampleOs.
From S2P Require Import MappedFiles Histogram Segments Matcher Diff Main Tasks TbbCode TbbRules.
From S2P Require Import TbbLoad TbbDetect Parallel ParallelImages TbbPairs.

(** ** The change images *)

Section Frames.
Context `{CV : OpenCV} {os : OS} {SS : StdSort} {DL : DiffLaws CV} {FL : FrameLaws CV}
  {TL : ThrowLaws CV}.

Definition green_pixel : Vec3b := mkVec3b 0 255 0.

(** Some segment of [l] without a mark has its frame over the pixel. *)
Definition covers (m0 : Mat) (l : list ImageSegment) (y x : Z) : bool :=
  existsb (fun s => negb (matched s) && on_frame (rows m0) (cols m0) (area s) 2 y x) l.

(** [m] is [m0] with these frames in green. *)
Definition framed (l : list ImageSegment) (m0 m : Mat) : Prop :=
  same_shape m0 m /\
  forall y x, at_Vec3b m y x = if covers m0 l y x then Some green_pixel else at_Vec3b m0 y x.

(** Some of the pixels of the frames were painted. *)
Definition painting (m0 : Mat) (l : list ImageSegment) (m m' : Mat) : Prop :=
  same_shape m m' /\
  forall y x, at_Vec3b m' y x = at_Vec3b m y x \/
    (covers m0 l y x = true /\ at_Vec3b m' y x = Some green_pixel).

#[export] Instance painting_preorder m0 l : PreOrder (painting m0 l).
Proof.
  split; [split; [done|by left]|]. intros m1 m2 m3 [S1 H1] [S2 H2]. split; [by etrans|].
  intros y x. destruct (H2 y x) as [->|?]; [apply H1|by right].
Qed.

Lemma covers_elem m0 l s y x :
  s ∈ l -> matched s = false -> on_frame (rows m0) (cols m0) (area s) 2 y x = true ->
  covers m0 l y x = true.
Proof.
  intros Hs Hm Hf. apply existsb_exists. exists s. rewrite <- list_elem_of_In, Hm. by split.
Qed.

Lemma rectangle_painting m0 l s m m' :
  mtype m0 = CV_8UC3 -> painting m0 l m0 m -> s ∈ l -> matched s = false ->
  rectangle m (area s) (CV_RGB 0 255 0) 2 = inr m' ->
  painting m0 l m m' /\
  forall y x, on_frame (rows m0) (cols m0) (area s) 2 y x = true -> at_Vec3b m' y x = Some green_pixel.
Proof.
  intros Ht [(Er & Ec & Et) _] Hs Hm E. rewrite Ht in Et.
  pose proof (fun y x => rectangle_pixels _ _ _ _ _ y x Et E) as Hp. rewrite Er, Ec in Hp.
  split; [split; [by eapply rectangle_shape|]|].
  - intros y x. rewrite Hp. destruct (on_frame _ _ _ _ _ _) eqn:Ef; [right|by left].
    split; [by eapply covers_elem|done].
  - intros y x Hf. by rewrite Hp, Hf.
Qed.

Lemma painting_framed m0 l m :
  painting m0 l m0 m ->
  (forall s, s ∈ l -> matched s = false -> forall y x,
     on_frame (rows m0) (cols m0) (area s) 2 y x = true -> at_Vec3b m y x = Some green_pixel) ->
  framed l m0 m.
Proof.
  intros [Hs Hp] Hf. split; [done|]. intros y x. destruct (covers m0 l y x) eqn:Hc.
  - apply existsb_exists in Hc as (s & Hin%list_elem_of_In & [Hm Ho]%andb_prop).
    apply (Hf s); [done|by apply negb_true_iff|done].
  - destruct (Hp y x) as [?|[? _]]; congruence.
Qed.

(** *** Image files *)

Lemma imwrite_written nm m s :
  imwrite_M nm m s = match written nm m with
                     | inr l => Done tt (set_wld (add_images l) s)
                     | inl e => Stopped e s
                     end.
Proof.
  unfold imwrite_M, written, mbind, M_bind, lift; cbn. destruct (imwrite nm m) as [e|[]]; cbn;
    [done|done|by rewrite add_images_nil].
Qed.

(** Only image files with the name [nm] were written. *)
Definition writes (nm : string) (s s' : Shared) : Prop :=
  exists l, sh_st s' = set_wld (add_images l) (sh_st s) /\ Forall (fun q => q.1 = nm) l.

#[export] Instance writes_preorder nm : PreOrder (writes nm).
Proof.
  split; [intros s; exists []; split; [by rewrite add_images_nil|done]|].
  intros s1 s2 s3 (l1 & E1 & H1) (l2 & E2 & H2). exists (l1 ++ l2). rewrite E2, E1, add_images_app.
  split; [done|by apply Forall_app].
Qed.

(** Since [s0] the files [l] were written under the name [nm], and maybe others. *)
Definition wrote (s0 : Shared) (nm : string) (l : list (string * Mat)) (s : Shared) : Prop :=
  exists k, sh_st s = set_wld (add_images k) (sh_st s0) /\ filter (fun q => q.1 = nm) k = l.

Lemma wrote_ctx s0 nm l s : wrote s0 nm l s -> ctx (sh_st s) = ctx (sh_st s0).
Proof. intros (k & -> & _). done. Qed.

Lemma filter_none {A} (P : A -> Prop) `{!forall x, Decision (P x)} l :
  Forall (fun x => ~ P x) l -> filter P l = [].
Proof. induction 1 as [|x l Hx _ IH]; [done|]. by rewrite filter_cons_False. Qed.

Lemma filter_all {A} (P : A -> Prop) `{!forall x, Decision (P x)} l :
  Forall P l -> filter P l = l.
Proof. induction 1 as [|x l Hx _ IH]; [done|]. by rewrite filter_cons_True, IH. Qed.

Lemma wrote_others s0 nm nm' l s s' :
  nm' <> nm -> writes nm' s s' -> wrote s0 nm l s -> wrote s0 nm l s'.
Proof.
  intros Hne (k' & E' & H') (k & E & Hk). exists (k ++ k'). rewrite E', E, add_images_app.
  split; [done|]. rewrite filter_app, Hk, (filter_none _ k'), app_nil_r; [done|].
  eapply Forall_impl; [exact H'|]. cbn. congruence.
Qed.

Lemma wrote_own s0 nm l k s :
  Forall (fun q => q.1 = nm) k -> wrote s0 nm l s ->
  wrote s0 nm (l ++ k) (with_st (set_wld (add_images k) (sh_st s)) s).
Proof.
  intros Hk (k0 & E & H0). exists (k0 ++ k). cbn. rewrite E, add_images_app.
  split; [done|]. by rewrite filter_app, H0, (filter_all _ k).
Qed.

Lemma written_named nm m l : written nm m = inr l -> Forall (fun q => q.1 = nm) l.
Proof.
  unfold written. intros (b & _ & [= <-])%exc_bind_inr. destruct b; repeat constructor.
Qed.

(** *** The task of a segment *)

Definition suffix_of (d : Side) : string :=
  match d with New => "_add.png" | Old => "_delete.png" end.

(** [files] is what writing the change image of a side gives: the image decoded again,
    with a frame around the segments without a mark. *)
Definition change_of (c : Context) (d : Side) (files : list (string * Mat)) : Prop :=
  exists mf m0 m, the_file d c = Some mf /\ decode_from_mapped_file mf IMREAD_COLOR = inr m0 /\
    framed (segments d c) m0 m /\ written (output_name (arg c) +:+ suffix_of d) m = inr files.

Section Side.
Context (s0 : Shared) (d : Side).

Abbreviation c0 := (ctx (sh_st s0)).
Abbreviation suffix := (suffix_of d).

Definition canvas_of : Canvas := match d with New => Added | Old => Deleted end.
Definition own_name : string := output_name (arg c0) +:+ suffix.

Abbreviation l := (segments d c0).
Abbreviation fails := (fun e => exists what, e = Uncaught what).

(** What a frame's task relies on and guarantees, given the decoded image and the name of
    the other task's file. *)
Definition frame_R (other_name : string) (m0 : Mat) (s s' : Shared) : Prop :=
  writes other_name s s' /\ painting m0 l (sh_canvas s canvas_of) (sh_canvas s' canvas_of).
Definition frame_G (m0 : Mat) (s s' : Shared) : Prop :=
  sh_st s' = sh_st s /\ (forall c, c <> canvas_of -> sh_canvas s' c = sh_canvas s c) /\
  painting m0 l (sh_canvas s canvas_of) (sh_canvas s' canvas_of).

#[export] Instance frame_R_preorder nm m0 : PreOrder (frame_R nm m0).
Proof. split; [by intros s|]. intros s1 s2 s3 [A1 B1] [A2 B2]. split; by etrans. Qed.
#[export] Instance frame_G_refl m0 : Reflexive (frame_G m0).
Proof. by intros s. Qed.

Lemma frame_G_R nm m0 s s' : frame_G m0 s s' -> frame_R nm m0 s s'.
Proof.
  intros (E & _ & H). split; [|done]. exists []. by rewrite E, add_images_nil.
Qed.

(** Some frames are drawn, nothing is written. *)
Definition being_framed (m0 : Mat) (s : Shared) : Prop :=
  wrote s0 own_name [] s /\ painting m0 l m0 (sh_canvas s canvas_of).

Lemma being_framed_stable nm m0 s s' :
  nm <> own_name -> frame_R nm m0 s s' -> being_framed m0 s -> being_framed m0 s'.
Proof. intros Hn [H1 H2] [H3 H4]. split; [by eapply wrote_others|by etrans]. Qed.

Lemma wrote_segments s : wrote s0 own_name [] s -> segments d (ctx (sh_st s)) = l.
Proof. intros H. by rewrite (wrote_ctx _ _ _ _ H). Qed.

(** Segment [i] needs no frame, or has it. *)
Definition frame_done (m0 : Mat) (i : nat) (s : Shared) : Prop :=
  forall x, l !! i = Some x -> matched x = false -> forall y z,
    on_frame (rows m0) (cols m0) (area x) 2 y z = true ->
    at_Vec3b (sh_canvas s canvas_of) y z = Some green_pixel.

Lemma frame_done_stable nm m0 i s s' : frame_R nm m0 s s' -> frame_done m0 i s -> frame_done m0 i s'.
Proof.
  intros [_ [_ H]] Hd x Hx Hm y z Hf. destruct (H y z) as [->|[_ ->]]; [by eapply Hd|done].
Qed.

Lemma rg_frame_task nm m0 i s :
  nm <> own_name -> mtype m0 = CV_8UC3 -> (i < length l)%nat -> being_framed m0 s ->
  rg fails (frame_R nm m0) (frame_G m0) (frame_done m0 i) (frame_task canvas_of d i) s.
Proof.
  intros Hn Ht Hi HP. destruct (lookup_lt_is_Some_2 l i Hi) as [x Hx].
  apply (rg_call _ _ _ _ (being_framed m0) (fun x' s => x' = x /\ being_framed m0 s));
    [done|intros ? ?; by apply being_framed_stable| | |].
  - intros [st c] x' st' H1 (k & ? & [= <- <-] & E)%bind_Done.
    pose proof (wrote_segments _ (proj1 H1)) as Es; cbn in Es. rewrite Es, Hx in E.
    by injection E as <- <-.
  - intros [st c] e st' H1 E. apply bind_Stopped in E as [?|(k & ? & [= <- <-] & E)]; [done|].
    pose proof (wrote_segments _ (proj1 H1)) as Es; cbn in Es. by rewrite Es, Hx in E.
  - intros x' s1 [-> H1]. destruct (matched x) eqn:Hm.
    { constructor. intros s2 _ x' Hx' Hm'. congruence. }
    apply (rg_access _ _ _ _ (being_framed m0) (fun _ => frame_done m0 i));
      [done|intros ? ?; by apply being_framed_stable| | |].
    + intros [st c] [] s2 [H2 H3] E.
      destruct (rectangle _ _ _ _) as [|m] eqn:Er; [done|]. injection E as <-.
      destruct (rectangle_painting m0 l x _ _ Ht H3 (list_elem_of_lookup_2 _ _ _ Hx) Hm Er)
        as [Hp Hg].
      assert (sh_canvas (set_canvas canvas_of m (mkShared st c)) canvas_of = m) as Ec
        by (cbn; by rewrite decide_True).
      split; [split_and!; [done| |by rewrite Ec]|].
      * intros c' Hc. cbn. by rewrite decide_False.
      * intros x' Hx' _ y z Hf. rewrite Ec. apply Hg. congruence.
    + intros s2 e s3 _ E. pose proof (throws_rectangle (sh_canvas s2 canvas_of) (area x) (CV_RGB 0 255 0) 2).
      destruct (rectangle _ _ _ _) as [e'|]; [|done]. injection E as <- _. destruct e'; eauto; done.
    + intros _ s2 H2. constructor. intros s3 HR. by eapply frame_done_stable.
Qed.

(** *** The task of a change image *)

Definition side_R (other_name : string) (s s' : Shared) : Prop :=
  writes other_name s s' /\ sh_canvas s' canvas_of = sh_canvas s canvas_of.
Definition side_G (s s' : Shared) : Prop :=
  writes own_name s s' /\ forall c, c <> canvas_of -> sh_canvas s' c = sh_canvas s c.

#[export] Instance side_R_preorder nm : PreOrder (side_R nm).
Proof. split; [by intros s|]. intros s1 s2 s3 [A1 B1] [A2 B2]. split; [by etrans|congruence]. Qed.
#[export] Instance side_G_refl : Reflexive side_G.
Proof. by intros s. Qed.

Lemma writes_same nm s s' : sh_st s' = sh_st s -> writes nm s s'.
Proof. intros E. exists []. by rewrite E, add_images_nil. Qed.

Lemma rg_frames nm m0 Q k s :
  nm <> own_name -> mtype m0 = CV_8UC3 -> being_framed m0 s ->
  (forall s', wrote s0 own_name [] s' -> framed l m0 (sh_canvas s' canvas_of) ->
     rg fails (side_R nm) side_G Q k s') ->
  rg fails (side_R nm) side_G Q (Fork (frame_task canvas_of d <$> seq 0 (length l)) k) s.
Proof.
  intros Hn Ht HP Hk.
  apply (rg_fork fails _ _ _ _ _ _ (frame_R nm m0) (fun _ => frame_R nm m0) (fun _ => frame_G m0)
           (frame_done m0)); try apply _.
  - intros s1 s2 [H E]. split; [done|by rewrite E].
  - intros i s1 s2. apply frame_G_R.
  - intros i s1 s2 [H E]. split; [done|by rewrite E].
  - intros i j s1 s2 _ _ _. apply frame_G_R.
  - intros i s1 s2 (E & Hc & _). split; [by apply writes_same|done].
  - intros i t Ht'. rewrite list_lookup_fmap in Ht'. apply fmap_Some in Ht' as (i' & Hi & ->).
    apply lookup_seq in Hi as [-> Hi]. by apply rg_frame_task.
  - intros s' HJ Hq. rewrite length_fmap, length_seq in Hq.
    destruct (being_framed_stable nm m0 s s' Hn HJ HP) as [Hw Hp]. apply Hk; [done|].
    apply painting_framed; [done|]. intros x Hx Hm y z Hf.
    apply list_elem_of_lookup in Hx as [i Hi]. eapply Hq; [|done..]. by eapply lookup_lt_Some.
Qed.

(** The image of this side, framed and written to [files]. *)
Definition side_changed (s : Shared) : Prop :=
  exists files, change_of c0 d files /\ wrote s0 own_name files s.

Lemma side_changed_stable nm s s' : nm <> own_name -> side_R nm s s' -> side_changed s -> side_changed s'.
Proof.
  intros Hn [Hw _] (files & H1 & H2). exists files. split; [done|]. by eapply wrote_others.
Qed.

Lemma wrote_stable nm files s s' :
  nm <> own_name -> side_R nm s s' -> wrote s0 own_name files s -> wrote s0 own_name files s'.
Proof. intros Hn [Hw _]. by eapply wrote_others. Qed.

(** The file decodes to a color image. *)
Definition decodes_color : Prop :=
  exists mf, the_file d c0 = Some mf /\
    forall m, decode_from_mapped_file mf IMREAD_COLOR = inr m -> mtype m = CV_8UC3.

(** The access that writes the file. *)
Definition write_image (suffix' : string) (s : Shared) : Out Shared unit :=
  on_st (o ← gets (fun c => output_name (arg c));
         imwrite_M (o +:+ suffix') (sh_canvas s canvas_of)) s.

Lemma rg_write nm mf m0 s :
  nm <> own_name -> the_file d c0 = Some mf -> decode_from_mapped_file mf IMREAD_COLOR = inr m0 ->
  wrote s0 own_name [] s -> framed l m0 (sh_canvas s canvas_of) ->
  rg fails (side_R nm) side_G side_changed (Tasks.act (write_image suffix) (fun _ => Finished)) s.
Proof.
  intros Hn Hf Hd Hw Hm.
  apply (rg_access _ _ _ _
    (fun s => wrote s0 own_name [] s /\ framed l m0 (sh_canvas s canvas_of)) (fun _ => side_changed));
    [done| | | |].
  - intros s1 s2 HR [H1 H2]. split; [by eapply wrote_stable|]. by rewrite (proj2 HR).
  - intros s1 u s2 [H1 H2] (st & E & ->)%on_st_Next. apply bind_Done in E as (o & ? & [= <- <-] & E).
    rewrite imwrite_written, (wrote_ctx _ _ _ _ H1) in E. fold own_name in E.
    destruct (written own_name _) as [|files] eqn:Ew; [done|]. injection E as _ <-.
    pose proof (written_named _ _ _ Ew) as Hnm. split; [split; [by exists files|done]|].
    exists files. split; [by exists mf, m0, (sh_canvas s1 canvas_of)|].
    exact (wrote_own s0 own_name [] files s1 Hnm H1).
  - intros s1 e s2 [H1 _] (st & E)%on_st_Halt. apply bind_Stopped in E as [?|(o & ? & [= <- <-] & E)]; [done|].
    rewrite imwrite_written in E. destruct (written _ _) as [e'|] eqn:Ew; [|done].
    injection E as -> _. eapply throws_fails; [apply throws_written|exact Ew].
  - intros _ s1 H1. constructor. intros s2 HR. by eapply side_changed_stable.
Qed.

Lemma rg_change_task nm s :
  nm <> own_name -> decodes_color -> wrote s0 own_name [] s ->
  rg fails (side_R nm) side_G side_changed (change_task canvas_of d suffix) s.
Proof.
  intros Hn (mf & Hf & Hc) HP. unfold change_task.
  apply (rg_call _ _ _ _ (wrote s0 own_name [])
    (fun m0 s => decode_from_mapped_file mf IMREAD_COLOR = inr m0 /\ wrote s0 own_name [] s));
    [done|intros ? ?; by apply wrote_stable| | |].
  - intros [st c] m0 st' H1 E. pose proof (wrote_ctx _ _ _ _ H1) as Ec; cbn in Ec.
    unfold mbind, M_bind, gets, lift in E; cbn in E. rewrite Ec, Hf in E; cbn in E.
    destruct (decode_from_mapped_file _ _); [done|]. by injection E as <- <-.
  - intros [st c] e st' H1 E. pose proof (wrote_ctx _ _ _ _ H1) as Ec; cbn in Ec.
    unfold mbind, M_bind, gets, lift in E; cbn in E. rewrite Ec, Hf in E; cbn in E.
    destruct (decode_from_mapped_file _ _) as [e'|] eqn:Ed; [|done]. injection E as -> _.
    eapply throws_fails; [apply throws_imdecode|exact Ed].
  - intros m0 s1 [Hd H1]. pose proof (Hc _ Hd) as Ht.
    apply (rg_access _ _ _ _ (wrote s0 own_name [])
      (fun _ s => being_framed m0 s /\ sh_canvas s canvas_of = m0));
      [done|intros ? ?; by apply wrote_stable| |done|].
    { intros [st c] u s2 H2 [= <- <-].
      assert (sh_canvas (set_canvas canvas_of m0 (mkShared st c)) canvas_of = m0) as Em
        by (cbn; by rewrite decide_True).
      split; [|by rewrite Em; split; [split; [done|by rewrite Em]|]].
      split; [by apply writes_same|]. intros c' Hne. cbn. by rewrite decide_False. }
    intros _ s2 [H2 _].
    apply (rg_call _ _ _ _ (being_framed m0) (fun l' s => l' = l /\ being_framed m0 s));
      [done| | |done|].
    { intros s3 s4 [HR1 HR2]. apply (being_framed_stable nm); [done|]. split; [done|by rewrite HR2]. }
    { intros [st c] l' st' H3 [= <- <-].
      split; [split; [by apply writes_same|done]|]. split; [|done].
      by apply (wrote_segments (mkShared st c)), H3. }
    intros l' s3 [-> H3]. apply (rg_frames nm m0); [done..|].
    intros s4 H4 H5. by apply (rg_write nm mf m0).
Qed.
End Side.
(** *** Both change images *)

Lemma own_names_differ s0 : own_name s0 New <> own_name s0 Old.
Proof. unfold own_name. intros H%(inj (String.append _)). discriminate H. Qed.

Definition write_either (s0 s s' : Shared) : Prop :=
  exists l, sh_st s' = set_wld (add_images l) (sh_st s) /\
    Forall (fun q => q.1 = own_name s0 Old \/ q.1 = own_name s0 New) l.

#[export] Instance write_either_preorder s0 : PreOrder (write_either s0).
Proof.
  split; [intros s; exists []; split; [by rewrite add_images_nil|done]|].
  intros s1 s2 s3 (l1 & E1 & H1) (l2 & E2 & H2). exists (l1 ++ l2). rewrite E2, E1, add_images_app.
  split; [done|by apply Forall_app].
Qed.

Lemma add_images_inj l k s : set_wld (add_images l) s = set_wld (add_images k) s -> l = k.
Proof. intros E. apply (f_equal (fun s => w_images (wld s))) in E. by apply app_inv_head in E. Qed.

(** Files of two names, by name. *)
Lemma two_names (a b : string) (l : list (string * Mat)) :
  a <> b -> Forall (fun q => q.1 = a \/ q.1 = b) l ->
  l ≡ₚ filter (fun q => q.1 = a) l ++ filter (fun q => q.1 = b) l.
Proof.
  intros Hne. induction 1 as [|q l Hq _ IH]; [done|]. rewrite !filter_cons.
  destruct Hq as [E|E]; [rewrite decide_True, decide_False by congruence|
                         rewrite decide_False, decide_True by congruence].
  - by rewrite IH at 1.
  - by rewrite <- Permutation_middle, <- IH.
Qed.

(** The two files were written, in either order. *)
Definition changes_made (s0 s : Shared) : Prop :=
  exists k del add, change_of (ctx (sh_st s0)) Old del /\ change_of (ctx (sh_st s0)) New add /\
    k ≡ₚ del ++ add /\ sh_st s = set_wld (add_images k) (sh_st s0).

Lemma wrote_start s0 nm : wrote s0 nm [] s0.
Proof. exists []. by rewrite add_images_nil. Qed.

Lemma changes_joined s0 s :
  write_either s0 s0 s -> (forall d, side_changed s0 d s) -> changes_made s0 s.
Proof.
  intros (k & E & Hk) H. destruct (H Old) as (del & Hd & kd & Ed & Fd).
  destruct (H New) as (add & Ha & ka & Ea & Fa). rewrite E in Ed, Ea.
  apply add_images_inj in Ed as <-. apply add_images_inj in Ea as <-.
  exists k, del, add. split_and!; [done..| |done]. rewrite <- Fd, <- Fa.
  apply two_names; [|done]. intros H'. by apply (own_names_differ s0).
Qed.

Lemma ends_changes (E : Stop -> Prop) Q k s0 :
  (forall what, E (Uncaught what)) -> (forall d, decodes_color s0 d) ->
  (forall s, changes_made s0 s -> ends_in E Q k s) ->
  ends_in E Q (Fork [change_task Deleted Old "_delete.png"; change_task Added New "_add.png"] k) s0.
Proof.
  intros HE Hd Hk. pose proof (own_names_differ s0) as Hne.
  set (nm := fun i : nat => own_name s0 (other (detect_side_of i))).
  assert (forall i, nm i <> own_name s0 (detect_side_of i)) as Hnm
    by (intros [|i]; unfold nm; cbn; congruence).
  apply (ends_in_fork E Q _ _ _ (write_either s0)
    (fun i => side_R (detect_side_of i) (nm i)) (fun i => side_G s0 (detect_side_of i))
    (fun i => side_changed s0 (detect_side_of i))); try apply _.
  - intros i s1 s2 [(l & ? & Hl) _]. exists l. split; [done|].
    eapply Forall_impl; [exact Hl|]. cbn. destruct (detect_side_of i); auto.
  - cbn [length]. intros i j s1 s2 Hi Hj Hij [H Hc].
    destruct i as [|[]], j as [|[]]; try lia; (split; [exact H|by apply Hc]).
  - intros i t Ht. apply (rg_weaken (fun e => exists what, e = Uncaught what));
      [by intros e [what ->]|].
    destruct i as [|[|]]; [..|done]; injection Ht as <-.
    + apply (rg_change_task s0 Old _ s0 (Hnm 0%nat) (Hd Old)), wrote_start.
    + apply (rg_change_task s0 New _ s0 (Hnm 1%nat) (Hd New)), wrote_start.
  - intros s HJ Hq. apply Hk, changes_joined; [done|].
    intros []; [apply (Hq 1%nat)|apply (Hq 0%nat)]; cbn; lia.
Qed.
End Frames.

(** ** The whole function *)

Section Whole.
Context `{CV : OpenCV} {os : OS} {SS : StdSort} {ML : MatLaws CV} {RL : RectLaws CV}
  {DL : DiffLaws CV} {FL : FrameLaws CV} {TL : ThrowLaws CV} {MA : MatchLaws CV}.

Abbreviation n_records s := (length (timer_records (ctx (sh_st s)))).

Lemma change_of_proper d files s s' :
  s ≈ s' -> change_of (ctx s) d files -> change_of (ctx s') d files.
Proof.
  intros H (mf & m0 & m & H1 & H2 & H3 & H4). exists mf, m0, m.
  by rewrite <- (the_file_proper d _ _ H), <- (segments_proper d _ _ H), <- (arg_proper _ _ H).
Qed.

(** *** After the loops *)

(** The marks and the difference image that the loops leave, from the merged image [m0]. *)
Record loops_drawn (c : Context) (olds' news' : list ImageSegment) (m0 m : Mat) : Prop := {
  ld_olds : Forall2 marks (old_segments c) olds';
  ld_news : Forall2 marks (new_segments c) news';
  ld_new j : flag news' j = true <->
    exists i, matching (cross_check (arg c)) (old_segments c) (new_segments c) i j;
  ld_old i : flag olds' i = true ->
    exists j, matching (cross_check (arg c)) (old_segments c) (new_segments c) i j;
  ld_partner j : flag news' j = true -> exists i, flag olds' i = true /\
    matching (cross_check (arg c)) (old_segments c) (new_segments c) i j;
  ld_red y x : red_match c y x -> at_Vec3b m y x = Some red_pixel;
  ld_other y x : ~ red_match c y x -> at_Vec3b m y x = at_Vec3b m0 y x
}.

Lemma sim_drawn s0 ps s :
  sim s0 ps s -> p_final ps ->
  loops_drawn (ctx (sh_st s0)) (p_olds ps) (p_news ps) (sh_canvas s0 Result) (sh_canvas s Result).
Proof.
  intros H Hf. pose proof (sim_inv _ _ _ H) as I.
  destruct (final_drawn _ _ _ _ I Hf) as (Hd & Hold & Hnew).
  pose proof (fun j => final_new _ _ _ _ j I Hf) as Hfn.
  split; [apply I|apply I|apply Hfn| | | |].
  - intros i [j Hq]%Hold. exists j. by apply Hd.
  - intros j [i Hq]%Hnew. exists i. split; [apply Hold; by exists j|by apply Hd].
  - intros y x (i & j & x2 & HM & Hx2 & Hr).
    assert (flag (p_news ps) j = true) as [i' Hq]%Hnew by (apply Hfn; by exists i).
    by eapply (sim_lower _ _ _ H).
  - intros y x Hn. by destruct (sim_upper _ _ _ H y x) as [?|[_ ?]].
Qed.

Lemma loops_drawn_proper olds' news' m0 m s s' :
  s ≈ s' -> loops_drawn (ctx s) olds' news' m0 m -> loops_drawn (ctx s') olds' news' m0 m.
Proof.
  intros H [H1 H2 H3 H4 H5 H6 H7]. unfold red_match in *.
  rewrite (arg_proper _ _ H), (old_segments_proper _ _ H), (new_segments_proper _ _ H),
    (old_gray_proper _ _ H), (old_color_proper _ _ H), (new_color_proper _ _ H) in *.
  by split.
Qed.

(** *** Writing *)

(** The files of the change images, in either order. *)
Definition change_files (c : Context) (k : list (string * Mat)) : Prop :=
  if create_change_image (arg c)
  then exists del add, change_of c Old del /\ change_of c New add /\ k ≡ₚ del ++ add
  else k = [].

Lemma change_files_proper k s s' :
  s ≈ s' -> change_files (ctx s) k -> change_files (ctx s') k.
Proof.
  intros H. unfold change_files. rewrite (arg_field_proper create_change_image _ _ H).
  destruct (create_change_image _); [|done]. intros (del & add & ? & ? & ?).
  exists del, add. split_and!; [by apply (change_of_proper _ _ _ _ H)..|done].
Qed.

Definition images_written (s s' : Shared) : Prop :=
  exists files k,
    written (output_name (arg (ctx (sh_st s))) +:+ "_diff.png") (sh_canvas s Result) = inr files /\
    change_files (ctx (sh_st s)) k /\
    sh_st s' ≈ set_wld (add_images (files ++ k)) (sh_st s) /\
    timer_steps (timer_records (ctx (sh_st s))) (timer_records (ctx (sh_st s'))).

Lemma decodes_color_file d s s' :
  the_file d (ctx (sh_st s')) = the_file d (ctx (sh_st s)) -> decodes_color s d -> decodes_color s' d.
Proof. intros H (mf & Hf & Hd). exists mf. split; [congruence|done]. Qed.
(** The change images, when they are asked for. *)
Definition changes_written (s s' : Shared) : Prop :=
  exists k, change_files (ctx (sh_st s)) k /\
    sh_st s' ≈ set_wld (add_images k) (sh_st s) /\
    timer_steps (timer_records (ctx (sh_st s))) (timer_records (ctx (sh_st s'))).

Lemma ends_change_images (E : Stop -> Prop) Q k s :
  (forall what, E (Uncaught what)) -> (forall d, decodes_color s d) ->
  (forall s', changes_written s s' -> ends_in E Q k s') ->
  ends_in E Q (call (gets (fun c => create_change_image (arg c))) (fun change =>
      if change : bool then
        timed_block "create added and deleted image" None (fun _ k =>
          Fork [change_task Deleted Old "_delete.png"; change_task Added New "_add.png"] (k tt))
          (fun _ : unit => k)
      else k)) s.
Proof.
  intros HE Hd Hk. apply ends_in_call; [|done]. intros b st H.
  assert (with_st st s = s) as -> by (injection H as _ <-; by destruct s). injection H as <- _.
  destruct (create_change_image _) eqn:Ec.
  2:{ apply Hk. exists []. unfold change_files. rewrite Ec, add_images_nil. done. }
  apply ends_in_block; [done|]. intros s1 Htk1 Hn1. pose proof Htk1 as (Hs1 & _ & Ht1).
  apply ends_changes; [done|intros d; exact (decodes_color_file d s s1 (the_file_proper d _ _ Hs1) (Hd d))|].
  intros s2 (k' & del & add & Hdel & Hadd & Hk' & E2).
  assert (n_records s2 = n_records s1) as En by (by rewrite E2).
  apply ends_in_stop; [lia|]. intros s3 (Hs3 & _ & Ht3). apply Hk. exists k'. split_and!.
  - unfold change_files. rewrite Ec. exists del, add.
    split_and!; [by apply (change_of_proper _ _ _ _ Hs1)..|done].
  - by rewrite Hs3, E2, Hs1.
  - etrans; [exact Ht1|]. by rewrite E2 in Ht3.
Qed.

Lemma ends_write_task (E : Stop -> Prop) Q k s :
  (forall what, E (Uncaught what)) -> (forall d, decodes_color s d) ->
  (forall s', images_written s s' -> ends_in E Q k s') ->
  ends_in E Q (timed_block "write" None (fun _ k =>
      Tasks.act (fun s => on_st (o ← gets (fun c => output_name (arg c));
                           imwrite_M (o +:+ "_diff.png") (sh_canvas s Result)) s) (fun _ =>
      call (gets (fun c => create_change_image (arg c))) (fun change =>
      if change : bool then
        timed_block "create added and deleted image" None (fun _ k =>
          Fork [change_task Deleted Old "_delete.png"; change_task Added New "_add.png"] (k tt)) k
      else k tt))) (fun _ : unit => k)) s.
Proof.
  intros HE Hd Hk. apply ends_in_block; [done|]. intros s1 (Hs1 & Hc1 & Ht1) Hn1.
  set (n := n_records s) in *.
  apply ends_in_access.
  2:{ intros e s' (st & H)%on_st_Halt. apply bind_Stopped in H as [?|(o & ? & [= <- <-] & H)]; [done|].
      rewrite imwrite_written in H. destruct (written _ _) as [e'|] eqn:Ew; [|done].
      injection H as -> _. destruct (throws_fails _ _ (throws_written _ _) Ew) as [what ->]. done. }
  intros u s2 (st & H & ->)%on_st_Next. apply bind_Done in H as (o & ? & [= <- <-] & H).
  rewrite imwrite_written in H. destruct (written _ _) as [|files] eqn:Ew; [done|].
  injection H as _ <-. rewrite Hc1, (arg_proper _ _ Hs1) in Ew.
  assert (set_wld (add_images files) (sh_st s1) ≈ set_wld (add_images files) (sh_st s)) as Hs2
    by (by rewrite Hs1).
  apply ends_change_images; [done| |].
  { intros d. apply (decodes_color_file d s); [exact (the_file_proper d _ _ Hs2)|done]. }
  intros s3 (k' & Hk' & Hs3 & Ht3). cbn [sh_st with_st] in *. apply ends_in_stop.
  { apply steps_length in Ht3. cbn in Ht3. lia. }
  intros s4 (Hs4 & _ & Ht4). apply Hk. exists files, k'. split_and!; [done| | |].
  - by apply (change_files_proper _ _ _ Hs2).
  - by rewrite Hs4, Hs3, Hs2, add_images_app.
  - etrans; [exact Ht1|]. etrans; [exact Ht3|exact Ht4].
Qed.

(** *** The whole *)

(** The image of a side with its unmarked segments framed, by tasks in any order. *)
Definition framed_image (c : Context) (d : Side) (m : Mat) : Prop :=
  exists mf m0, the_file d c = Some mf /\ decode_from_mapped_file mf IMREAD_COLOR = inr m0 /\
    framed (segments d c) m0 m.

(** The calls of [imwrite] for the change images, in either order. *)
Definition changes_asked (c : Context) (k : list (string * Mat)) : Prop :=
  if create_change_image (arg c)
  then exists del add, framed_image c Old del /\ framed_image c New add /\
    k ≡ₚ [(output_name (arg c) +:+ "_delete.png", del); (output_name (arg c) +:+ "_add.png", add)]
  else k = [].

Lemma saved_reorder (l k : list (string * Mat)) :
  k ≡ₚ saved l -> exists l', l' ≡ₚ l /\ k = saved l'.
Proof.
  intros H. set (P := fun p : string * Mat => imwrite p.1 p.2 = inr true).
  exists (k ++ filter (fun p => ~ P p) l). split.
  - rewrite H. apply filter_app_complement.
  - unfold saved. rewrite filter_app, (filter_all P k), (filter_none P (filter _ l)), app_nil_r; [done|..].
    + apply Forall_forall. by intros p [? _]%list_elem_of_filter.
    + apply Forall_forall. intros p. rewrite H. by intros [? _]%list_elem_of_filter.
Qed.

Lemma change_of_asked c d files :
  change_of c d files -> exists m, framed_image c d m /\
    answered [(output_name (arg c) +:+ suffix_of d, m)] /\
    files = saved [(output_name (arg c) +:+ suffix_of d, m)].
Proof.
  intros (mf & m0 & m & H1 & H2 & H3 & H4%written_inr). exists m. split; [by exists mf, m0|done].
Qed.

Lemma change_files_asked c k :
  change_files c k -> exists k', changes_asked c k' /\ answered k' /\ k = saved k'.
Proof.
  unfold change_files, changes_asked. destruct (create_change_image (arg c)).
  2:{ intros ->. exists []. split_and!; [done|constructor|done]. }
  intros (? & ? & (del & F1 & A1 & ->)%change_of_asked & (add & F2 & A2 & ->)%change_of_asked & Hk).
  rewrite <- saved_app in Hk. destruct (saved_reorder _ _ Hk) as (k' & Hp & ->).
  exists k'. split_and!; [by exists del, add| |done].
  unfold answered. rewrite Hp. by apply Forall_app.
Qed.

Lemma changes_asked_names c k m :
  changes_asked c k -> ((output_name (arg c) +:+ "_diff.png", m) :: k).*1 ≡ₚ diff_names (arg c).
Proof.
  unfold changes_asked, diff_names. cbn. destruct (create_change_image (arg c)).
  - intros (del & add & _ & _ & ->). done.
  - by intros ->.
Qed.

(** What every schedule leaves: the marks; [imwrite] asked for the difference image and
    for the change images; of these images, the files it says it wrote. *)
Definition diff_created (s s' : Shared) : Prop :=
  let c := ctx (sh_st s) in
  exists olds' news' m0 m k,
    merge3 (old_gray_mat c) (old_gray_mat c) (old_gray_mat c) = inr m0 /\
    loops_drawn c olds' news' m0 m /\
    changes_asked (ctx (set_both olds' news' (sh_st s))) k /\
    let imgs := (output_name (arg c) +:+ "_diff.png", m) :: k in
    answered imgs /\
    sh_st s' ≈ set_wld (add_images (saved imgs)) (set_both olds' news' (sh_st s)) /\
    timer_steps (timer_records c) (timer_records (ctx (sh_st s'))).

Lemma ends_merge (E : Stop -> Prop) Q k s :
  mtype (old_gray_mat (ctx (sh_st s))) = CV_8UC1 -> (forall what, E (Uncaught what)) ->
  (forall m0, let og := old_gray_mat (ctx (sh_st s)) in
     merge3 og og og = inr m0 -> canvas og m0 -> ends_in E Q k (set_canvas Result m0 s)) ->
  ends_in E Q (call (old_gray ← gets old_gray_mat; lift (merge3 old_gray old_gray old_gray))
    (fun m => draw Result (fun _ _ => mret m) k)) s.
Proof.
  intros Hg HE Hk. apply ends_in_call.
  - intros m0 st H. unfold mbind, M_bind, gets, lift in H.
    destruct (merge3 _ _ _) as [|m] eqn:Em; [done|]. injection H as <- <-.
    apply ends_in_access; [|done]. intros u s' [= _ <-].
    replace (with_st (sh_st s) s) with s by (by destruct s). apply Hk; [done|].
    by apply (merge3_shape _ _ Hg) in Em.
  - intros e st H. unfold mbind, M_bind, gets, lift in H.
    destruct (merge3 _ _ _) as [e'|m] eqn:Em; [|done]. injection H as -> _.
    destruct (throws_fails _ _ (throws_merge3 _ _ _) Em) as [what ->]. done.
Qed.

(** From the fork of the loops on. *)
Lemma ends_drawn (E : Stop -> Prop) Q k s :
  let c := ctx (sh_st s) in
  drawing_ready c -> canvas (old_gray_mat c) (sh_canvas s Result) ->
  (forall e, fails (Exists (misfit (old_gray_mat c)) (new_segments c)) e -> E e) ->
  (forall olds' news' s', loops_drawn c olds' news' (sh_canvas s Result) (sh_canvas s' Result) ->
     sh_st s' = set_both olds' news' (sh_st s) -> ends_in E Q k s') ->
  ends_in E Q (call (gets old_segments) (fun olds => Fork (old_task <$> seq 0 (length olds)) k)) s.
Proof.
  intros c [Hi Hp _ _ Hu] Hm HE Hk. apply ends_in_call; [|done]. intros l st [= <- <-].
  replace (with_st (sh_st s) s) with s by (by destruct s).
  apply (ends_loops s Hi Hp); [apply (Hu Old)|apply (Hu New)|done|done|].
  intros ps s' H Hf. apply (Hk (p_olds ps) (p_news ps)); [by apply sim_drawn|apply H].
Qed.

Lemma drawing_ready_proper s s' : s ≈ s' -> drawing_ready (ctx s') -> drawing_ready (ctx s).
Proof.
  intros Hs [Hi Hp Hf Hw Hu]. split.
  - by rewrite (old_gray_proper _ _ Hs), (old_color_proper _ _ Hs), (new_color_proper _ _ Hs).
  - by rewrite (new_color_proper _ _ Hs), (new_segments_proper _ _ Hs).
  - intros d. by rewrite (the_file_proper d _ _ Hs).
  - by rewrite (new_segments_proper _ _ Hs).
  - intros d. by rewrite (segments_proper d _ _ Hs).
Qed.

Lemma ends_create_diff_task (E : Stop -> Prop) Q k s :
  let c := ctx (sh_st s) in
  drawing_ready c -> (forall d, decodes_color s d) ->
  (forall e, fails (Exists (misfit (old_gray_mat c)) (new_segments c)) e -> E e) ->
  (forall s', diff_created s s' -> ends_in E Q k s') -> ends_in E Q (create_diff_task k) s.
Proof.
  intros c Hr Hd HE Hk.
  assert (forall what, E (Uncaught what)) as HU by (intros what; apply HE; left; by eexists).
  apply ends_in_block; [done|]. intros s1 Htk1 Hn1.
  pose proof Htk1 as (Hs1 & _ & Ht1). set (n := n_records s) in *.
  pose proof (drawing_ready_proper _ _ Hs1 Hr) as Hr1.
  apply ends_merge; [apply (ir_og _ _ _ (wr_images _ Hr1))|done|]. intros m0 og Em Hm.
  apply ends_drawn; [done|done| |].
  { cbn [sh_st set_canvas]. by rewrite (old_gray_proper _ _ Hs1), (new_segments_proper _ _ Hs1). }
  intros olds' news' s2 Hl E2. cbn [sh_st set_canvas] in *.
  assert (sh_st s2 ≈ set_both olds' news' (sh_st s)) as Hs2 by (by rewrite E2, Hs1).
  apply ends_write_task; [done| |].
  { intros d. apply (decodes_color_file d s); [|done]. rewrite (the_file_proper d _ _ Hs2). by destruct d. }
  intros s3 (files & k' & Ew & Hcf & Hs3 & Ht3).
  apply ends_in_stop; [apply steps_length in Ht3; rewrite E2 in Ht3; cbn in Ht3; lia|].
  intros s4 (Hs4 & _ & Ht4). apply (change_files_proper _ _ _ Hs2) in Hcf.
  apply change_files_asked in Hcf as (kk & Hkk & Ha & ->).
  rewrite (arg_proper _ _ Hs2) in Ew. apply written_inr in Ew as [Ha0 ->].
  apply Hk. exists olds', news', m0, (sh_canvas s2 Result), kk.
  rewrite (old_gray_proper _ _ Hs1 : og = _) in Em. cbv zeta. split_and!; [done| |done| | |].
  - cbn in Hl. rewrite decide_True in Hl by done. by apply (loops_drawn_proper _ _ _ _ _ _ Hs1).
  - apply (Forall_app_2 _ [_]); [exact Ha0|exact Ha].
  - rewrite (saved_app [_] kk : saved (_ :: kk) = _). by rewrite Hs4, Hs3, Hs2.
  - etrans; [exact Ht1|]. rewrite E2 in Ht3. etrans; [exact Ht3|exact Ht4].
Qed.
End Whole.

(** ** Properties *)

Section Properties.
Context `{CV : OpenCV} {os : OS} {SS : StdSort} {ML : MatLaws CV} {RL : RectLaws CV}
  {DL : DiffLaws CV} {FL : FrameLaws CV} {TL : ThrowLaws CV} {MA : MatchLaws CV}.

(** C4 [create_diff_image] in the TBB build, under every schedule of its tasks: it ends,
    never stuck, normally, by an exception, or, only when some new segment with a
    descriptor is greater than the old image, by undefined behaviour; and it leaves the
    marks and images of the specification [diff_created].  A new segment is marked exactly
    when some old one matches it; a marked old segment matches some new one.  Every run
    that ends normally has asked [imwrite] for [_diff.png]: the merged gray image with red
    exactly at the pixels some matching pair's frame or differences cover.  On request it
    has asked for the two change images, in either order: the decoded files with green
    exactly at the frames of their unmarked segments.  The files are those of these images
    that [imwrite] says it wrote. *)
Theorem tbb_diff_created (s : Shared) :
  let c := ctx (sh_st s) in
  drawing_ready c -> (forall d, decodes_color s d) ->
  ends_in (fun e => (exists what, e = Uncaught what) \/
             e = UndefinedBehaviour /\ Exists (misfit (old_gray_mat c)) (new_segments c))
    (diff_created s) (create_diff_task Finished) s.
Proof.
  intros c Hr Hd. apply ends_create_diff_task; [done|done|by intros e|].
  intros s' H. by apply ends_in_finished.
Qed.

(** The marks on the new segments and the pixels do not depend on the run. *)
Lemma drawn_same c o1 n1 o2 n2 m0 m1 m2 :
  unmatched (new_segments c) ->
  loops_drawn c o1 n1 m0 m1 -> loops_drawn c o2 n2 m0 m2 ->
  n1 = n2 /\ forall y x, at_Vec3b m1 y x = at_Vec3b m2 y x.
Proof.
  intros Hu H1 H2. split.
  - apply (marks_flags (new_segments c)); [done|apply H1|apply H2|].
    intros j. by rewrite (ld_new _ _ _ _ _ H1), (ld_new _ _ _ _ _ H2).
  - intros y x. destruct (decide (at_Vec3b m1 y x = at_Vec3b m2 y x)) as [|Hne]; [done|].
    assert (~ red_match c y x) as Hr
      by (intros Hr; by rewrite (ld_red _ _ _ _ _ H1 y x Hr), (ld_red _ _ _ _ _ H2 y x Hr) in Hne).
    by rewrite (ld_other _ _ _ _ _ H1 y x Hr), (ld_other _ _ _ _ _ H2 y x Hr).
Qed.

Lemma framed_same c c' d m1 m2 :
  the_file d c = the_file d c' -> segments d c = segments d c' ->
  framed_image c d m1 -> framed_image c' d m2 -> forall y x, at_Vec3b m1 y x = at_Vec3b m2 y x.
Proof.
  intros Ef Es (mf1 & z1 & F1 & D1 & G1) (mf2 & z2 & F2 & D2 & G2) y x.
  rewrite <- Ef in F2. rewrite <- Es in G2. assert (z2 = z1) as -> by congruence.
  by rewrite (proj2 G1), (proj2 G2).
Qed.

(** The image asked for under a name. *)
Lemma asked_image c k nm m :
  changes_asked c k -> (nm, m) ∈ k -> nm <> output_name (arg c) +:+ "_delete.png" ->
  create_change_image (arg c) = true /\ nm = output_name (arg c) +:+ "_add.png" /\
  framed_image c New m.
Proof.
  unfold changes_asked. destruct (create_change_image (arg c)).
  - intros (del & add & _ & Hadd & Hp) Hin Hn. rewrite Hp in Hin.
    apply elem_of_cons in Hin as [[= -> ->]|Hin]; [done|].
    by apply list_elem_of_singleton in Hin as [= -> ->].
  - by intros -> ?%elem_of_nil.
Qed.

Lemma name_suffixes (o a b : string) : o +:+ a = o +:+ b -> a = b.
Proof. apply (inj (String.append o)). Qed.

(** C9 The schedule does not show in [_diff.png] nor in [_add.png]: two complete runs of
    [create_diff_image] in the TBB build, from the same state, leave the same marks on the
    new segments and ask [imwrite] for the same file names, and the images they ask it to
    write under the same name have the same pixels, but for [_delete.png]; the files are
    those of these images that it says it wrote.  The calls of OpenCV, the search for
    matches included, are functions of their arguments here. *)
Theorem tbb_schedule_free (s s1 s2 : Shared) (sched1 sched2 : list (list nat)) :
  let c := ctx (sh_st s) in
  drawing_ready c -> (forall d, decodes_color s d) ->
  run_tasks sched1 (create_diff_task Finished) s = Some (Next Finished s1) ->
  run_tasks sched2 (create_diff_task Finished) s = Some (Next Finished s2) ->
  new_segments (ctx (sh_st s1)) = new_segments (ctx (sh_st s2)) /\
  exists imgs1 imgs2,
    w_images (wld (sh_st s1)) = w_images (wld (sh_st s)) ++ saved imgs1 /\
    w_images (wld (sh_st s2)) = w_images (wld (sh_st s)) ++ saved imgs2 /\
    imgs1.*1 ≡ₚ diff_names (arg c) /\ imgs2.*1 ≡ₚ diff_names (arg c) /\
    forall nm m1 m2, nm <> output_name (arg c) +:+ "_delete.png" ->
      (nm, m1) ∈ imgs1 -> (nm, m2) ∈ imgs2 -> forall y x, at_Vec3b m1 y x = at_Vec3b m2 y x.
Proof.
  intros c Hr Hd R1 R2.
  assert (ends_in (fails (Exists (misfit (old_gray_mat c)) (new_segments c))) (diff_created s)
            (create_diff_task Finished) s) as H
    by (apply ends_create_diff_task; [done|done|done|intros s' H; by apply ends_in_finished]).
  destruct (ends_in_complete _ _ _ _ _ _ H R1) as (o1 & n1 & z1 & m1 & k1 & M1 & L1 & C1 & _ & S1 & _).
  destruct (ends_in_complete _ _ _ _ _ _ H R2) as (o2 & n2 & z2 & m2 & k2 & M2 & L2 & C2 & _ & S2 & _).
  fold c in M1, M2, L1, L2, S1, S2. assert (z2 = z1) as -> by congruence.
  destruct (drawn_same _ _ _ _ _ _ _ _ (wr_unmatched _ Hr New) L1 L2) as [En Epx].
  split; [by rewrite (new_segments_proper _ _ S1), (new_segments_proper _ _ S2)|].
  exists ((output_name (arg c) +:+ "_diff.png", m1) :: k1), ((output_name (arg c) +:+ "_diff.png", m2) :: k2).
  split_and!; [by rewrite (images_proper _ _ S1)|by rewrite (images_proper _ _ S2)|
    by apply (changes_asked_names (ctx (set_both o1 n1 (sh_st s))))|
    by apply (changes_asked_names (ctx (set_both o2 n2 (sh_st s))))|].
  intros nm a1 a2 Hn H1 H2.
  apply elem_of_cons in H1, H2. destruct H1 as [[= E1 ->]|H1], H2 as [E2|H2].
  - assert (a2 = m2) as -> by congruence. done.
  - apply (asked_image _ _ _ _ C2) in H2 as (_ & E2 & _); [|done]. rewrite E1 in E2.
    by apply name_suffixes in E2.
  - assert (nm = output_name (arg c) +:+ "_diff.png") as E2' by congruence.
    apply (asked_image _ _ _ _ C1) in H1 as (_ & E1 & _); [|done].
    rewrite E2' in E1. by apply name_suffixes in E1.
  - apply (asked_image _ _ _ _ C1) in H1 as (_ & _ & F1); [|done].
    apply (asked_image _ _ _ _ C2) in H2 as (_ & _ & F2); [|done].
    exact (framed_same (ctx (set_both o1 n1 (sh_st s))) (ctx (set_both o2 n2 (sh_st s))) New a1 a2
      eq_refl En F1 F2).
Qed.
End Properties.

(** ** Two schedules *)

(** A pixel of an image file written. *)
Definition file_pixel (nm : string) (y x : Z) (s : Shared (CV := GridCv)) : option Vec3b :=
  match filter (fun q : string * Grid => q.1 = nm) (w_images (wld (sh_st s))) with
  | (_, m) :: _ => at_Vec3b (OpenCV := GridCv) m y x
  | [] => None
  end.

(** Up to the loops, then both tasks test the new segment before either marks it, then in
    order. *)
Definition racing : list (list nat) :=
  let first := replicate 4 [] ++ at_once_tasks in
  first ++ match run_tasks first (create_diff_task (os := example_fs) Finished) twice_shared with
           | Some (Next t s) => in_order 100 t s
           | _ => []
           end.

Definition orderly : list (list nat) :=
  in_order 100 (create_diff_task (os := example_fs) Finished) twice_shared.

Lemma orderly_run :
  exists s, run_tasks orderly (create_diff_task (os := example_fs) Finished) twice_shared =
              Some (Next Finished s) /\
    file_pixel "out_delete.png" 1 2 s = Some green_pixel.
Proof.
  destruct (finishes_run (fun s => bool_decide (file_pixel "out_delete.png" 1 2 s = Some green_pixel))
    orderly (create_diff_task (os := example_fs) Finished) twice_shared) as (s & Hr & Hp);
    [vm_compute; reflexivity|].
  exists s. split; [exact Hr|]. by apply bool_decide_eq_true in Hp.
Qed.

Lemma racing_run :
  exists s, run_tasks racing (create_diff_task (os := example_fs) Finished) twice_shared =
              Some (Next Finished s) /\
    file_pixel "out_delete.png" 1 2 s = Some (mkVec3b 7 7 7).
Proof.
  destruct (finishes_run (fun s => bool_decide (file_pixel "out_delete.png" 1 2 s = Some (mkVec3b 7 7 7)))
    racing (create_diff_task (os := example_fs) Finished) twice_shared) as (s & Hr & Hp);
    [vm_compute; reflexivity|].
  exists s. split; [exact Hr|]. by apply bool_decide_eq_true in Hp.
Qed.

(** The race of ParallelImages on the tasks of the program, in two complete runs from the same
    state: a part occurs twice in the old image and once in the new one.  In [orderly] the
    tasks go one after the other, and [_delete.png] frames the second of the two parts, whose
    corner is the pixel looked at; in [racing] both test the new segment before either marks
    it, and the pixel is as it was. *)
Theorem tbb_delete_race :
  exists s1 s2,
    run_tasks orderly (create_diff_task (os := example_fs) Finished) twice_shared = Some (Next Finished s1) /\
    run_tasks racing (create_diff_task (os := example_fs) Finished) twice_shared = Some (Next Finished s2) /\
    file_pixel "out_delete.png" 1 2 s1 = Some green_pixel /\
    file_pixel "out_delete.png" 1 2 s2 = Some (mkVec3b 7 7 7).
Proof.
  destruct orderly_run as (s1 & R1 & P1). destruct racing_run as (s2 & R2 & P2).
  exists s1, s2. split_and!; [exact R1|exact R2|exact P1|exact P2].
Qed.

(** ** Witnesses *)

Lemma twice_ready : drawing_ready (ctx (sh_st twice_shared)).
Proof.
  split.
  - split; reflexivity.
  - repeat constructor; cbn; lia.
  - intros []; vm_compute; eexists; reflexivity.
  - repeat constructor.
  - intros []; repeat constructor.
Qed.

Lemma twice_decodes d : decodes_color twice_shared d.
Proof.
  destruct d; (eexists; split; [reflexivity|]); intros m [= <-]; reflexivity.
Qed.

Lemma tbb_diff_created_witness :
  exists sched s', run_tasks sched (create_diff_task (os := example_fs) Finished) twice_shared =
                     Some (Next Finished s') /\
    diff_created twice_shared s'.
Proof.
  destruct racing_run as (s' & Hr & _). exists racing, s'. split; [exact Hr|].
  exact (ends_in_complete _ _ _ _ _ _
    (tbb_diff_created (os := example_fs) twice_shared twice_ready twice_decodes) Hr).
Defined.

Lemma tbb_schedule_free_witness :
  exists s1 s2,
    run_tasks orderly (create_diff_task (os := example_fs) Finished) twice_shared =
      Some (Next Finished s1) /\
    run_tasks racing (create_diff_task (os := example_fs) Finished) twice_shared =
      Some (Next Finished s2) /\
    new_segments (ctx (sh_st s1)) = new_segments (ctx (sh_st s2)).
Proof.
  destruct orderly_run as (s1 & R1 & _). destruct racing_run as (s2 & R2 & _).
  exists s1, s2. split; [exact R1|]. split; [exact R2|].
  exact (proj1 (tbb_schedule_free (os := example_fs) twice_shared s1 s2 orderly racing
    twice_ready twice_decodes R1 R2)).
Defined.
