(* ===== verification/TbbMain.v ===== *)
(** [main] in the TBB build: every schedule of its tasks, from the command line to the
    exit status. *)

From S2P Require Import Prelude StdLib Cv CvGrid Perf PerfForest State Timed Report Grouping.
From S2P Require Import ExampleOs Cmdline CmdlineSpec MappedFiles Histogram Segments Matcher Diff.
From S2P Require Import Main Tasks TbbCode TbbRules TbbLoad TbbDetect Parallel ParallelImages.
From S2P Require Import TbbPairs TbbDiff.

Section Whole.
Context `{CV : OpenCV} {os : OS} {SS : StdSort} {SL : StdSortLaws SS}
  {ML : MatLaws CV} {RL : RectLaws CV} {SH : ShapeLaws CV} {DL : DiffLaws CV} {TL : ThrowLaws CV}
  {MA : MatchLaws CV} {CL : ContourLaws CV} {HL : HistLaws CV} {LL : LoadLaws CV} {FL : FrameLaws CV}.

Abbreviation st_of s := (sh_st s).
Abbreviation c_of s := (ctx (sh_st s)).
Abbreviation w_of s := (wld (sh_st s)).
Abbreviation records_of s := (timer_records (ctx (sh_st s))).

(** *** The end of the program *)

(** The images of a complete run: from a state with the files loaded and the parts
    detected, [imwrite] is asked for the difference image, then for the change images, and
    the files are those it says it wrote. *)
Definition drawn_images (st : St) (files : list (string * Mat)) : Prop :=
  let c := ctx st in
  exists olds' news' m0 m k,
    merge3 (old_gray_mat c) (old_gray_mat c) (old_gray_mat c) = inr m0 /\
    loops_drawn c olds' news' m0 m /\
    changes_asked (ctx (set_both olds' news' st)) k /\
    let imgs := (output_name (arg c) +:+ "_diff.png", m) :: k in
    answered imgs /\ files = saved imgs.

Definition run_images (s : Shared) : Prop :=
  exists st, prepared st /\ arg (c_of s) = arg (ctx st) /\ drawn_images st (w_images (w_of s)).

(** The outermost timer. *)
Abbreviation has_all s := ("all" ∈ (name <$> records_of s)).

Lemma has_all_length s : has_all s -> (0 < length (records_of s))%nat.
Proof. intros H. destruct (timer_records _); [by apply elem_of_nil in H|cbn; lia]. Qed.

Lemma has_all_steps s s' : timer_steps (records_of s) (records_of s') -> has_all s -> has_all s'.
Proof. intros [k E]%steps_names H. rewrite E. apply elem_of_app. by left. Qed.

(** Before the outermost timer stops. *)
Record compared (s : Shared) : Prop := {
  cp_reachable : timers_reachable (records_of s);
  cp_timer : has_all s;
  cp_fds : w_fds (w_of s) = ∅;
  cp_maps a : a ∈ dom (w_maps (w_of s)) -> exists d, mapping_of d (st_of s) a;
  cp_out : w_out (w_of s) = "";
  cp_images : run_images s
}.

(** The standard output of a complete run. *)
Definition report_of (s : Shared) : Prop :=
  if perf (arg (c_of s)) then is_report (records_of s) (w_out (w_of s)) /\ has_all s
  else w_out (w_of s) = "".

(** A complete run. *)
Record main_ended (s : Shared) : Prop := {
  me_fds : w_fds (w_of s) = ∅;
  me_maps : w_maps (w_of s) = ∅;
  me_images : run_images s;
  me_report : report_of s
}.

(** After the report. *)
Record reported (s : Shared) : Prop := {
  rp_timer : has_all s;
  rp_stopped : perf (arg (c_of s)) = true -> all_stopped (records_of s);
  rp_fds : w_fds (w_of s) = ∅;
  rp_maps a : a ∈ dom (w_maps (w_of s)) -> exists d, mapping_of d (st_of s) a;
  rp_images : run_images s;
  rp_report : report_of s
}.

Lemma same_time_rest s s' :
  st_of s' ≈ st_of s -> run_images s -> run_images s' /\
  w_fds (w_of s') = w_fds (w_of s) /\ w_out (w_of s') = w_out (w_of s) /\
  arg (c_of s') = arg (c_of s) /\
  (forall a, a ∈ dom (w_maps (w_of s')) -> a ∈ dom (w_maps (w_of s))) /\
  (forall d a, mapping_of d (st_of s) a -> mapping_of d (st_of s') a).
Proof.
  intros H (st & H1 & Ha & H2). pose proof (same_wld _ _ H) as W.
  split_and!.
  - exists st. by rewrite (arg_proper _ _ H), (images_proper _ _ H).
  - exact (f_equal w_fds W).
  - exact (out_proper _ _ H).
  - exact (arg_proper _ _ H).
  - intros a Ha'. by rewrite (f_equal w_maps W : w_maps (w_of s') = w_maps (w_of s)) in Ha'.
  - intros d a. unfold mapping_of. by rewrite (the_file_proper d _ _ H).
Qed.

Lemma ends_dtor (E : Stop -> Prop) s :
  reported s -> ends_in E main_ended (call Context_dtor (fun _ => Finished)) s.
Proof.
  intros [_ _ Hf Hm Hi Hr]. destruct (Context_dtor_run (st_of s)) as (st & Ed & Ec & Ef & Ei & Eo & Em).
  apply ends_in_call; [|congruence]. intros u st' H. rewrite Ed in H. injection H as _ <-.
  apply ends_in_finished. unfold run_images, report_of in *.
  split; unfold run_images, report_of; cbn; [congruence| |by rewrite Ec, Ei|by rewrite Ec, Eo].
  apply dom_empty_inv_L, set_eq. intros a. split; [|by intros ?%elem_of_empty].
  intros [Ha Hn]%Em. destruct (Hm a Ha) as [d Hd]. by destruct (Hn d).
Qed.

Lemma ends_report (E : Stop -> Prop) Q k s :
  compared s -> (forall s', reported s' -> ends_in E Q k s') ->
  ends_in E Q (call (p ← gets (fun c => perf (arg c));
                     if p : bool then print_timer_records else mret tt) (fun _ => k)) s.
Proof.
  intros [Hre Hn Hf Hm Ho Hi] Hk. destruct (perf (arg (c_of s))) eqn:Hp.
  - destruct (print_run (st_of s) Hre) as (st & text & Ep & Hs & Hrep & Hst & Hnm).
    assert ((p ← gets (fun c => perf (arg c)); if p : bool then print_timer_records else mret tt)
              (st_of s) = Done tt st) as Er.
    { rewrite (bind_Done_eq _ _ (st_of s) true (st_of s)); [done|]. unfold gets. by rewrite Hp. }
    apply ends_in_call; [|intros e st' H; by rewrite Er in H].
    intros u st' H. rewrite Er in H. injection H as _ <-.
    apply Hk. pose proof (same_wld _ _ Hs) as W.
    assert (has_all (with_st st s)) as Hall by (cbn; by rewrite Hnm).
    destruct Hi as (st0 & H1 & Ha & H2). split; cbn; [done|done|..].
    + etrans; [exact (f_equal w_fds W)|done].
    + intros a Ha'. rewrite (f_equal w_maps W : w_maps (wld st) = w_maps (w_of s)) in Ha'.
      destruct (Hm a Ha') as [d Hd]. exists d. unfold mapping_of in *.
      by rewrite (the_file_proper d _ _ Hs).
    + exists st0. cbn. by rewrite (arg_proper _ _ Hs), (images_proper _ _ Hs).
    + unfold report_of; cbn. rewrite (arg_proper _ _ Hs); cbn. rewrite Hp.
      rewrite (out_proper _ _ Hs); cbn. by rewrite Ho.
  - apply ends_in_call.
    2:{ intros e st H. unfold mbind, M_bind, gets in H. by rewrite Hp in H. }
    intros u st H. unfold mbind, M_bind, gets in H. rewrite Hp in H. injection H as _ <-.
    apply Hk. replace (with_st (st_of s) s) with s by (by destruct s).
    split; try done; [congruence|]. unfold report_of. by rewrite Hp.
Qed.
(** *** The comparison *)

(** Both images are loaded, and nothing was written. *)
Record ready (s : Shared) : Prop := {
  ry_loaded : images_loaded (st_of s);
  ry_reachable : timers_reachable (records_of s);
  ry_timer : has_all s;
  ry_images : w_images (w_of s) = [];
  ry_out : w_out (w_of s) = ""
}.

Lemma ends_Fatal {A} (E : Stop -> Prop) Q msg (k : A -> Tasks.Task Shared) s :
  (forall e, tame e -> E e) -> ends_in E Q (call (Fatal (A := A) msg) k) s.
Proof.
  intros HE. apply ends_in_call.
  - intros a st H. by rewrite Fatal_spec in H.
  - intros e st H. apply HE. pose proof (safe_Fatal (A := A) msg (st_of s)) as Hs.
    by rewrite H in Hs.
Qed.

(** What the verdict leaves. *)
Lemma check_run s r st :
  check_histogram_differential (st_of s) = Done r st ->
  st ≈ st_of s /\ timer_steps (records_of s) (timer_records (ctx st)).
Proof.
  intros H. split; [|exact (timed_from (n := 0) (st_of s) r st ltac:(lia) H)].
  destruct (reads_check 0 (st_of s) (st_of s)) as (sx & Hsx & _ & E); [done|lia|].
  rewrite H in E. destruct (histogram_check _ _); [done|]. by injection E as _ ->.
Qed.

Lemma check_stops s e st :
  check_histogram_differential (st_of s) = Stopped e st -> tame e.
Proof.
  intros H. pose proof (safe_reads 0 (st_of s) _ _ (reads_check 0 (st_of s))
    (throws_histogram_check _ _) ltac:(lia)) as Hs. by rewrite H in Hs.
Qed.

Lemma detect_fails_tame s e :
  (forall d, loaded d (st_of s)) -> detect_fails (c_of s) e -> tame e.
Proof.
  intros HLd (d & [Hd|[(m & Hm) _]]).
  - destruct (loaded_mats d (st_of s) (HLd d)) as (_ & _ & _ & _ & ? & ?).
    unfold detected_side in Hd.
    destruct (throws_fails _ _ (throws_detected (gray_mat d (c_of s)) (color_mat d (c_of s))
      (bin_threshold (arg (c_of s))) ltac:(lia) ltac:(lia)) Hd) as [what ->]. done.
  - destruct (throws_fails _ _ (throws_compute_descriptor m) Hm) as [what ->]. done.
Qed.

(** A loaded file decodes, again, to a color image. *)
Lemma loaded_decodes s d :
  (forall d, loaded d (st_of s)) -> decodes_color s d.
Proof.
  intros HLd. destruct (HLd d) as (mf & stat & bytes & Hf & F & D & Hg). exists mf.
  split; [done|]. intros m Hm. unfold decode_from_mapped_file in Hm.
  rewrite (fo_size _ _ _ _ _ F), (fo_bytes _ _ _ _ _ F) in Hm.
  assert (m = color_mat d (c_of s)) as -> by congruence.
  by destruct (loaded_mats d (st_of s) (HLd d)).
Qed.
(** From the loaded images to the written ones. *)
Lemma diff_compared s s1 s2 s' :
  ready s -> prepared (st_of s2) -> st_of s1 ≈ st_of s -> timer_steps (records_of s) (records_of s1) ->
  images_detected s1 s2 -> diff_created s2 s' -> compared s'.
Proof.
  intros [Hl Hre Hn Hi Ho] Hpr Hs1 Ht1 [_ [Hd2 _ Ht2]] (o & n & m0 & m & k & H).
  destruct H as (Hm0 & Hld & Hk & Ha & Hs' & Ht').
  assert (timer_steps (records_of s) (records_of s')) as Ht by (etrans; [exact Ht1|by etrans]).
  cbv zeta in Hs'. set (imgs := saved _) in Hs'.
  assert (st_of s' ≈ set_wld (add_images imgs) (set_both o n (st_of s))) as E
    by (clearbody imgs; by rewrite Hs', Hd2, set_both_twice, Hs1).
  pose proof (same_wld _ _ E) as W. split.
  - by eapply steps_reachable.
  - by eapply has_all_steps.
  - etrans; [exact (f_equal w_fds W)|apply Hl].
  - intros a Hx. rewrite (f_equal w_maps W : w_maps (w_of s') = w_maps (w_of s)) in Hx.
    destruct (il_maps _ Hl a Hx) as (d & mf & b & Hf & Hb). exists d.
    pose proof (loaded_mapping d (st_of s) mf a b (il_loaded _ Hl d) Hf Hb) as Hmap.
    unfold mapping_of in *. rewrite (the_file_proper d _ _ E). by destruct d.
  - rewrite (out_proper _ _ E). exact Ho.
  - exists (st_of s2). split; [done|]. split; [by rewrite (arg_proper _ _ Hs')|].
    exists o, n, m0, m, k. cbv zeta. split_and!; [done..|].
    rewrite (images_proper _ _ E). cbn. by rewrite Hi.
Qed.

Lemma ends_compare (E : Stop -> Prop) Q k s :
  ready s -> (forall e, tame e -> E e) ->
  (forall l, detected (new_gray_mat (c_of s)) (new_color_mat (c_of s)) (bin_threshold (arg (c_of s))) = inr l ->
     Exists (greater (old_gray_mat (c_of s))) l -> E UndefinedBehaviour) ->
  (forall s', compared s' -> ends_in E Q k s') -> ends_in E Q (compare_images_task k) s.
Proof.
  intros Hr HE HU Hk. apply ends_in_call; [|intros e st H; by eapply HE, check_stops].
  intros r st [Hs Ht]%check_run.
  destruct r as [[]|err]; [by apply ends_Fatal| |by apply ends_Fatal].
  set (s1 := with_st st s).
  assert (forall d, loaded d (st_of s1)) as HLd by (intros d; cbn; rewrite Hs; apply Hr).
  apply ends_detect_segments.
  - intros d. etrans; [exact (segments_proper d _ _ Hs)|apply Hr].
  - intros e He. by eapply HE, detect_fails_tame.
  - intros s2 Hd. pose proof (id_detecting _ _ Hd) as [Hd2 _ _].
    pose proof (lists_ready (st_of s1) (st_of s2) _ _ HLd (id_lists _ _ Hd) Hd2) as Hr2.
    apply ends_create_diff_task.
    + exact Hr2.
    + intros d. apply (decodes_color_file d s1); [|by apply loaded_decodes].
      rewrite (the_file_proper d _ _ Hd2). by destruct d.
    + intros e [[what ->]|[-> Hm%misfit_greater]]; [by apply HE| |done].
      pose proof (id_lists _ _ Hd New) as Hn. unfold detected_side in Hn. cbn in Hn.
      rewrite (new_gray_proper _ _ Hs), (new_color_proper _ _ Hs),
        (arg_field_proper bin_threshold _ _ Hs) in Hn.
      apply (HU _ Hn). rewrite (old_gray_proper _ _ Hd2) in Hm. cbn in Hm.
      by rewrite (old_gray_proper _ _ Hs) in Hm.
    + intros s3 H3. apply Hk. apply (diff_compared s s1 s2); [done| |done..].
      apply (lists_prepared (st_of s1) (st_of s2) _ _ HLd (id_lists _ _ Hd) Hd2).
Qed.

(** *** The program *)

(** What loading leaves, after the command line. *)
Lemma loaded_ready (build : Build) argv s s' :
  parse_args (build := build) (started argv) = Done tt (st_of s) ->
  image_loaded s s' -> ready s'.
Proof.
  intros Hp H. destruct (before_load_started argv _ Hp) as (Hb & Hm & Hf & Hg & Hi).
  destruct (timed_reachable 0 (parse_args (build := build)) _ _ _ (started_reachable argv)
    ltac:(lia) Hp) as [Hre Hlen].
  assert (has_all s) as Ha0.
  { apply (timed_names_0 _ _ _ _ _ Hp). by left. }
  destruct (im_io _ _ H) as (Ei & Eo & _). split.
  - split; [apply (im_loaded _ _ H)|by rewrite (im_fds _ _ H)| |].
    + intros a [Ha|Ha]%(im_only _ _ H); [|done]. rewrite Hm, dom_empty in Ha.
      by apply elem_of_empty in Ha.
    + intros d. by rewrite (im_segments _ _ H).
  - by eapply steps_reachable, (im_timers _ _ H).
  - by eapply has_all_steps, Ha0; apply (im_timers _ _ H).
  - by rewrite Ei.
  - rewrite Eo. apply parse_args_state in Hp as (ts & a & _ & _ & _ & _ & _ & Hs).
    by rewrite (out_proper _ _ Hs).
Qed.

Lemma compared_tick s s' : tick s s' -> compared s -> compared s'.
Proof.
  intros (Hs & _ & Ht) [Hre Hn Hf Hm Ho Hi].
  destruct (same_time_rest s s' Hs Hi) as (Hi' & Hf' & Ho' & Ha & Hdom & Hmap).
  split; [by eapply steps_reachable|by eapply has_all_steps|congruence| |congruence|done].
  intros a Ha'%Hdom. destruct (Hm a Ha') as [d Hd]. exists d. by apply Hmap.
Qed.

Lemma reported_tick s s' : tick s s' ->
  (perf (arg (c_of s)) = true -> records_of s' = records_of s) -> reported s -> reported s'.
Proof.
  intros (Hs & _ & Ht) Hre [Hn Hst Hf Hm Hi Hr].
  destruct (same_time_rest s s' Hs Hi) as (Hi' & Hf' & Ho' & Ha & Hdom & Hmap).
  split; [by eapply has_all_steps| |congruence| |done|].
  - intros Hp. rewrite Ha in Hp. rewrite (Hre Hp). by apply Hst.
  - intros a Ha'%Hdom. destruct (Hm a Ha') as [d Hd]. exists d. by apply Hmap.
  - unfold report_of in *. rewrite Ha, Ho'. destruct (perf _); [|done]. by rewrite Hre.
Qed.
(** From the written images to the exit. *)
Lemma ends_rest (E : Stop -> Prop) s :
  compared s ->
  ends_in E main_ended
    (call (Timer_stop 0) (fun _ =>
     call (p ← gets (fun c => perf (arg c)); if p : bool then print_timer_records else mret tt)
       (fun _ => call (Timer_stop 0) (fun _ => call Context_dtor (fun _ => Finished))))) s.
Proof.
  intros Hc. apply ends_in_stop; [apply has_all_length, Hc|]. intros s1 Ht1.
  apply ends_report; [by eapply compared_tick|]. intros s2 Hr.
  apply ends_in_call.
  - intros [] st H. destruct (tick_stop _ _ _ _ H) as [Ht Hn]. apply ends_dtor.
    apply (reported_tick s2); [done| |done]. intros Hp.
    by apply (stop_stopped 0 (st_of s2) st (rp_stopped _ Hr Hp)).
  - intros e st H. exfalso. eapply stop_runs; [apply has_all_length, (rp_timer _ Hr)|exact H].
Qed.

Lemma ends_main_task argv :
  ends_in (fun e => tame e \/ e = UndefinedBehaviour /\ undefined_input (build := parallel_build) argv)
    main_ended (main_task argv) start_shared.
Proof.
  apply ends_in_call; [|done]. intros t st [= <- <-].
  apply ends_in_call; [|intros e st H; by rewrite push_args_run in H].
  intros u st H. rewrite push_args_run in H. injection H as _ <-.
  set (s0 := with_st _ _). assert (st_of s0 = started argv) as E0 by done.
  apply ends_in_call.
  2:{ intros e st H. pose proof (safe_parse_args (build := parallel_build) (st_of s0)) as Hs.
      rewrite H in Hs. destruct Hs as [?|[? He]]; [by left|right]. split; [done|]. by left. }
  intros [] st H. rewrite E0 in H. set (s1 := with_st st s0).
  destruct (before_load_started argv st H) as (Hb & _).
  apply ends_load_image; [done|done|intros e [He _]; by left|]. intros s2 Hl.
  apply ends_compare; [exact (loaded_ready _ argv s1 s2 H Hl)|by left| |].
  { intros l Hd Hg. right. split; [done|]. right. exists st, (st_of s2), l.
    split_and!; [done|exact (im_arg _ _ Hl)|apply (im_loaded _ _ Hl)|done|done]. }
  intros s3 Hc. by apply ends_rest.
Qed.
End Whole.

(** ** Properties *)

Section Properties.
Context `{CV : OpenCV} {os : OS} {SS : StdSort} {SL : StdSortLaws SS}
  {ML : MatLaws CV} {RL : RectLaws CV} {SH : ShapeLaws CV} {DL : DiffLaws CV} {TL : ThrowLaws CV}
  {MA : MatchLaws CV} {CL : ContourLaws CV} {HL : HistLaws CV} {LL : LoadLaws CV} {FL : FrameLaws CV}.

(** C2 The TBB build is well behaved under every schedule of its tasks, on every command
    line and every file system but for two inputs: no run is infinite, some task can move
    until the program has ended, and it ends either by an exit with status 0 or 1 or an
    uncaught exception, or with all tasks finished; it can read outside an object only when
    the command line has an empty argument where an option is expected, or when the new
    image has a part with a descriptor that is higher or wider than the old image.  When all
    tasks have finished no descriptor is open and no mapping is live, and the standard
    output is empty or, with [-perf], the report on the timers the run ends with: the
    header, then one line for each of them, the outermost one included. *)
Theorem tbb_main_well_behaved (argv : list string) :
  ends_in (fun e => tame e \/
      e = UndefinedBehaviour /\
      (Spec.empty_argument argv \/ oversized_input (build := parallel_build) argv))
    (fun s => w_fds (wld (sh_st s)) = ∅ /\ w_maps (wld (sh_st s)) = ∅ /\
      if perf (arg (ctx (sh_st s)))
      then is_report (timer_records (ctx (sh_st s))) (w_out (wld (sh_st s))) /\
        "all" ∈ (name <$> timer_records (ctx (sh_st s)))
      else w_out (wld (sh_st s)) = "")
    (main_task argv) start_shared.
Proof.
  eapply ends_in_weaken; [..|apply ends_main_task]; [done|].
  intros s [H1 H2 _ H3]. by split_and!.
Qed.

(** C12 In the TBB build every complete run asks [imwrite] for all its images: from the
    files it has loaded and the parts it has detected, for the difference image first, the
    merged gray image with the matching pairs drawn, then, on request, for the two change
    images in either order.  No call throws, and the files are those of these images that
    [imwrite] says it wrote.  The default build, whose [return] leaves the function, may
    ask for none. *)
Theorem tbb_main_writes_all (argv : list string) (sched : list (list nat)) (s' : Shared) :
  run_tasks sched (main_task argv) start_shared = Some (Next Finished s') ->
  exists st olds' news' m0 m k, let c := ctx st in
    arg c = arg (ctx (sh_st s')) /\ (forall d, loaded d st) /\
    (forall d, detected (gray_mat d c) (color_mat d c) (bin_threshold (arg c)) = inr (segments d c)) /\
    merge3 (old_gray_mat c) (old_gray_mat c) (old_gray_mat c) = inr m0 /\
    loops_drawn c olds' news' m0 m /\ changes_asked (ctx (set_both olds' news' st)) k /\
    let imgs := (output_name (arg c) +:+ "_diff.png", m) :: k in
    answered imgs /\ w_images (wld (sh_st s')) = saved imgs /\
    imgs.*1 ≡ₚ diff_names (arg c).
Proof.
  intros Hr. pose proof (ends_in_complete _ _ _ _ _ _ (ends_main_task argv) Hr) as H.
  destruct (me_images _ H) as (st & [Hld HP] & Ea & olds' & news' & m0 & m & k & H1 & H2 & H3 & H4 & H5).
  exists st, olds', news', m0, m, k. cbv zeta. split_and!; [done..|].
  by apply (changes_asked_names (ctx (set_both olds' news' st))).
Qed.
End Properties.

(** ** Witnesses *)

Definition change_argv : list string :=
  ["gazosan"; "-new"; "new.png"; "-old"; "old.png"; "-threshold"; "5"; "-o"; "out"; "-perf";
   "-create_change_image"].

Lemma example_tbb_run :
  exists sched s', run_tasks sched (main_task (CV := GridCv) (os := example_fs) change_argv) start_shared =
                     Some (Next Finished s') /\
    create_change_image (arg (ctx (sh_st s'))) = true.
Proof.
  destruct (finishes_run (fun s => create_change_image (arg (ctx (sh_st s))))
    (in_order 300 (main_task (CV := GridCv) (os := example_fs) change_argv) start_shared)
    (main_task (CV := GridCv) (os := example_fs) change_argv) start_shared) as (s' & Hr & Hc);
    [vm_compute; reflexivity|].
  eexists. exists s'. exact (conj Hr Hc).
Qed.

Lemma tbb_main_well_behaved_witness :
  exists sched s', run_tasks sched (main_task (CV := GridCv) (os := example_fs) change_argv) start_shared =
                     Some (Next Finished s') /\
    w_fds (wld (sh_st s')) = ∅ /\ w_maps (wld (sh_st s')) = ∅.
Proof.
  destruct example_tbb_run as (sched & s' & Hr & _). exists sched, s'. split; [exact Hr|].
  destruct (ends_in_complete _ _ _ _ _ _
    (tbb_main_well_behaved (CV := GridCv) (os := example_fs) change_argv) Hr) as (H1 & H2 & _).
  exact (conj H1 H2).
Defined.

Lemma tbb_main_writes_all_witness :
  exists sched s' imgs, run_tasks sched (main_task (CV := GridCv) (os := example_fs) change_argv) start_shared =
                     Some (Next Finished s') /\
    w_images (wld (sh_st s')) = saved imgs /\ length imgs = 3%nat.
Proof.
  destruct example_tbb_run as (sched & s' & Hr & Hc).
  destruct (tbb_main_writes_all (CV := GridCv) (os := example_fs) change_argv sched s' Hr)
    as (st & olds & news & m0 & m & k & Ea & _ & _ & _ & _ & _ & _ & Ei & Hn).
  eexists sched, s', _. split; [exact Hr|]. split; [exact Ei|].
  apply Permutation_length in Hn. rewrite length_fmap in Hn. rewrite Hn, Ea.
  unfold diff_names. rewrite Hc. reflexivity.
Defined.
